(* ===== verification/_CoqProject ===== *)
-Q . S2P
Prelude.v
Text.v
TextFacts.v
Errors.v
Model.v
Namespace.v
Keys.v
KeysFacts.v
Codec.v
CodecFacts.v
CodecRecords.v
CodecRecordFacts.v
Rendezvous.v
Liveness.v
LivenessFacts.v
Cache.v
CacheFacts.v
Histogram.v
Kv.v
ShardTxn.v
SegmentReads.v
ShardWrite.v
ShardRefine.v
ShardMem.v
ShardInv.v
Sparse.v
Overlay.v
Xlog.v
XlogFacts.v
History.v
EdgeTxns.v
AdjacencyReads.v
Replay.v
Compaction.v
SegmentFacts.v
CompactionFacts.v
SparseFacts.v
SparseBuild.v
SparseSearch.v
OverlayFacts.v
IndexStore.v
IndexCodec.v
IndexPublish.v
IndexFacts.v
Lease.v
LeaseSystem.v
LeaseLogic.v
LeaseRules.v
LeaseSpecs.v
LeaseOps.v
LeaseMem.v
LeaseFacts.v
LeaseProgress.v
BoltWire.v
BoltWireFacts.v
QueryData.v
Client.v
CursorFacts.v
ClientNames.v
ClientNamesFacts.v
BoltValues.v
BoltValuesFacts.v
BoltRequest.v
BoltRouting.v
BoltSession.v
BoltSessionFacts.v
BoltAccess.v
QueryAccess.v
QueryAccessFacts.v
QueryBatch.v
QueryBatchFacts.v
Floats.v
FloatFacts.v
Vertices.v
VertexFacts.v
VertexLookups.v
ClientService.v
ClientServiceFacts.v
BoltService.v
