(* ===== verification/Prelude.v ===== *)
(** * HydraDB: a verification library for the graph kernel and its client service

    HydraDB keeps labelled graphs in SlateDB, a transactional key-value store on
    object storage.  A graph is cut into cells; one node writes a cell, the
    others read it.  Clients query it over Bolt through a service that decides
    who may do what.  This library models the Rust code under [src/hydradb/src]
    that decides what is stored, what readers see and what clients are answered,
    and proves that it is right.

    ** The parts and the files

    - [Prelude]: results and their monad, machine-width arithmetic, ordered
      iteration of maps and sets ([BTreeMap], [BTreeSet]), list lemmas.
    - [Text], [TextFacts]: strings as Rust sees them: decimal and hexadecimal
      formatting and parsing, splitting, UTF-8.
    - [Errors]: [core/error.rs].  [Model]: [core/model.rs].  [Namespace]:
      [core/namespace.rs], identifiers, namespace paths, scopes, store paths.
    - [Keys] ([Module keys]): [keys.rs], one definition per key or prefix;
      [KeysFacts]: keys never collide, scans select exactly their family, byte
      order is numeric order.
    - [Codec], [CodecRecords]: [codec.rs], values, metadata, edge, relationship,
      segment and idempotency records, fingerprints; [CodecFacts],
      [CodecRecordFacts]: round trips, and that a value decodes only under the
      key and the request it was written for.
    - [Rendezvous] ([Module placement]): [crates/placement/src/hash.rs];
      [Liveness], [LivenessFacts]: [heartbeat.rs] and [liveness.rs] of that
      crate: which nodes are alive, who owns a cell, when a node sheds its cells.
    - [Cache] ([Module cache]), [CacheFacts]: [core/cache.rs].  [Histogram]
      ([Module histogram]): [core/histogram.rs].
    - [Kv]: the interface to SlateDB, a class of operations [SlateDb] with a class
      of laws [SlateDbLaws] and a reference store [Mem] that satisfies them; the
      state of a shard ([core/state.rs], the fields the write path uses) and the
      state-and-error monad its operations run in.
    - [ShardTxn]: transactions, authority, fences, permits ([codec.rs],
      [shard/lifecycle.rs], [core/state.rs]).  [SegmentReads]: adjacency reads
      over point records, segments and tombstones ([codec.rs],
      [shard/query.rs]).  [ShardWrite]: [write_edge] and [delete_edge] of
      [shard/write.rs], whole.  [Xlog]: [shard/xlog.rs] and the write batches of
      [shard/maintenance.rs].  [Overlay] ([Module overlay]):
      [shard/topology_tail.rs].
    - [Sparse] ([Module sparse]): [sparse_kernel/mod.rs] and the pure part of
      [sparse_kernel/graphblas.rs]: compressed sparse columns, the compiled
      compact matrix, its searches, the adjacency kernel.  [SparseFacts]: binary
      search and counting passes; [SparseBuild]: what a compiled matrix holds;
      [SparseSearch]: what the searches return.  [OverlayFacts]: traversal over a
      matrix and an overlay, the cache of parsed WAL files.
    - [IndexStore] ([Module index]): [engine/index_store.rs] with the readers of
      [engine/artifact_build.rs]: generations of a graph index in the object
      store, an interface [ObjectStore] of operations.  [IndexCodec]: the byte
      formats; [IndexPublish]: the laws [ObjectStoreLaws], a scripted store that
      satisfies them, publication and collection; [IndexFacts]: canonical
      adjacency, patching, incremental builds.
    - [Lease] ([Module lease]): [engine/writer_lease.rs], each operation a program
      of atomic actions on the clock, the directory of a process and the object
      store; everything the code awaits is one action, and others act in between.
      [LeaseSystem]: the laws of the store; the steps of a system of processes,
      each with any number of tasks under way (a round of [renew_local] is a task
      for each lease); the role of a task, and which roles of one process are kept
      [apart].  [LeaseLogic]: the invariant; what a task relies on and guarantees by
      its role; a weakest precondition under that interference; that the guarantee
      of a task is what another relies on unless their roles clash.  [LeaseRules]: a
      rule per action; [LeaseSpecs], [LeaseOps]: a specification per operation;
      [LeaseMem]: a store in memory and schedules that run; [LeaseFacts]: exclusion
      and fencing, the schedule that breaks them for want of a quick clock and the
      one that does for want of keeping apart; [LeaseProgress]: a free cell is
      acquired.
    - [ShardRefine]: an edge transaction does on any lawful store what it does on
      [Mem]; the retry loop.  [ShardMem]: running transactions on [Mem].
      [ShardInv]: one handler's effect on the adjacency and the change log.
      [EdgeTxns]: what an answer of a transaction says of any lawful store.
      [XlogFacts]: replaying the log.  [History]: the invariants after any
      sequence of writes, deletes and collections.  [AdjacencyReads]: what
      snapshot reads return then.  [Replay]: requests under an idempotency key.
    - [Compaction] ([Module compaction]): the compaction of adjacency segments of
      [shard/maintenance.rs] and the snapshot reads of [core/snapshot.rs] it uses.
      [SegmentFacts]: what scans and reads see of well-formed segments and
      tombstones; [CompactionFacts]: what a compaction keeps and changes.
    - [BoltWire] ([Module bolt]): [client/bolt/wire.rs] over a stream of bytes
      whose writes can fail; [BoltWireFacts]: what is accepted, VarInts, the
      handshake.
    - [QueryData]: results, paths and parameters of [query/algebra.rs] and the
      bytes they are charged.  [Client] ([Module client]): targets, requests,
      sessions and the server cursors of [client/service.rs]; [CursorFacts]: what
      the cursors hold and deliver.  [ClientNames] ([Module names]): database
      names, tenants, bookmarks and caller metadata of the same file;
      [ClientNamesFacts].
    - [BoltValues] ([Module values]): [client/bolt/values.rs] and the texts of the
      errors; [BoltValuesFacts].  [BoltRequest] ([Module request]): what a RUN, a
      PULL and a LOGON carry; [BoltRouting] ([Module routing]):
      [client/bolt/routing.rs].
    - [BoltSession] ([Module session]): the protocol loop of [client/bolt.rs],
      every handler of it, against the class [QueryService] of what it asks of
      the service.  [BoltSessionFacts]: rules for its operations, the state
      machine, the accounting of answers; [BoltAccess]: peers that are not
      authenticated, the overflow of the pipeline, a small service that runs.
    - [QueryAccess] ([Module access]): secrets, policies, grants and quotas of
      [query/coordination.rs]; [QueryAccessFacts].  [QueryBatch] ([Module batch]):
      UNWIND batches of [query/algebra.rs] and [client/service.rs];
      [QueryBatchFacts].
    - [Floats] ([Module f64]): doubles by their bits and the comparisons of numbers
      of different kinds ([core/model.rs], [shard/query.rs]); [FloatFacts].
      [Vertices] ([Module vertices]): setting, merging and importing vertex metadata
      ([shard/write.rs]) and the lookups by label and property ([shard/query.rs]).
      [VertexFacts]: the table that the records and indexes of a cell tell, and that
      the operations change it as they say; [VertexLookups]: lookups as filters of
      that table.
    - [ClientService] ([Module service]): the client query service of
      [client/service.rs].  An operation is a task; at every await the script of
      the run says what others do to the service meanwhile, whether the timer
      fires, whether the task is cancelled or dropped.  [ClientServiceFacts]:
      denial and what a query leaves behind; [BoltService]: the service is a
      [QueryService] with its laws, so that the theorems of a connection apply
      to it.

    Handlers thread the shard through [SM], which returns the state on errors
    too, as a Rust method that fails has still moved its [self].  Reads of the
    store are first-class failures, so each theorem covers storage errors at
    every step.

    ** What the theorems show

    - Representation: keys are injective, prefix scans exact, codecs round-trip,
      index keys order values, store paths separate tenants; the payload of an
      index generation has exactly one encoding.
    - Transactions: on any lawful store an answer says exactly what was stored and
      a failure that nothing was, or all; a conflict is retried and applied at most once; a repeated request is answered alike and applied once.
    - Adjacency: both directions and both degree counters agree after any
      history, and neighbours, degrees and existence tests read the same edges.
    - Compaction: no read at the compacted epoch or later changes; at most one segment, no
      old tombstone and the right degree are left.
    - Vertices: records, label index and property index always tell one table; an
      operation applies its updates to it or changes nothing; lookups are filters
      of it, and a seek by a number finds the equal numbers of other kinds.
    - Change log: the delta since an index generation turns its edges into the
      present edges, also after garbage collection, and is available whenever
      the floor allows it.
    - Kernels: the compressed form of an adjacency reads back, compiled matrices
      answer as the adjacency, both kernels reach the same vertices; over an
      overlay, what a traversal reaches.
    - Index generations: an incremental build publishes what a full build
      publishes; under interference the published generation never goes back;
      collection keeps the published one and the newest.
    - Leases: in any interleaving of the tasks of any number of processes at most
      one process holds a valid lease on a cell, and what it holds has the greatest
      generation, on two conditions.  The server's clock is read within the second
      the code allows and its stamps are finer than that; and a process does not
      release a cell while it acquires or renews it, nor a scope while it acquires a
      cell of it, nor take a scope up again while it still renews or releases a
      lease of it.  Renewals may go on while a scope is released, and operations
      that look, acquire or renew may always overlap.  Without the first condition
      two processes hold one cell, and without the second too: the code has no lock
      of its own that keeps a release apart from a renewal.  A cell whose holder is
      gone is acquired by whoever asks next.
    - Fleet: nodes that read the same heartbeats agree on owners, losing a node
      moves only its cells, a failed read sheds after one timeout.
    - Bounds: cache entries, bytes and quotas; histogram buckets.
    - Bolt: exactly the well-formed messages reach the decoder; a connection
      keeps its state machine and ends without a panic whatever arrives; every
      message has one answer, but for one that overflows the pipeline; a peer
      without credentials moves nothing; paths arrive as they were, except that
      relationships without a stored id can share the id of another.
    - Clients: only what policies and grants name is admitted; database names
      lead to the root or to one tenant; a query without permission changes
      nothing; a query that ends, in any way and at any await, gives back its
      permits and its place; the rows kept for clients are counted to the byte,
      and their pages are the result, in order.
    - Batches: an UNWIND becomes the batch its rows describe, or is refused.

    ** Bounds and fuel

    A [u64] is an [N] with [u64_ok]; wrapping, checked and saturating operations
    are those of [Prelude].  The retry loops recurse on the remaining attempts
    (32); the cache and WAL-cache eviction loops on one more than the number of
    entries, each round removing one; scan loops on the list of items; searches
    on the hops that are left, and the binary search on the length of its range;
    publication on the attempts that are left (8), acquisition and release of a
    lease on theirs (16).  Lease histories are taken shorter than the largest
    heartbeat, a [u64] that counts writes.

    A Bolt connection runs on a script of events: every turn takes at least one
    message, so one turn more than events is enough, and a PULL takes at most
    the prefetched rows of a page for each event.  The checker of PackStream has
    two steps for each byte and each container.  A task that waits for a permit
    takes a pace of its script at each look; one that finds none until its
    script ends is still waiting ([Stuck]).

    ** Not modelled

    Tracing spans, metric exporters, task scheduling and the lanes and guards
    that serialise writers inside one process (a shard is a single sequence of
    steps).  SlateDB, the object store, SHA-256, Base64, the protocol crate's
    decoder and the SuiteSparse bindings are parameters; so are, for the client
    service, the openCypher parsers and the executor ([QueryCellClient]), whose
    answers are arbitrary.  The query language, its execution above the
    adjacency reads and vertex lookups, the node-to-node query transport, bulk
    import, vertex deletion and relationship writes, matrix artifacts inside SlateDB, the cluster and its
    routing, the HTTP protocol, TLS and the binaries are not part of the
    library: they are either network input and output around the parts modelled
    here, or large drivers of third-party grammars.  The bound of 32 renewals
    under way at once is not modelled: any number are.  A put takes effect at the
    moment its action is taken, never after its task was dropped.  Instants are
    nanoseconds of a clock that may read anything. *)

From stdpp Require Export base tactics numbers option list sorting strings gmap fin_maps.

(** * Results

    Rust's [Result<T, E>], with the monad operations the code writes as [?]. *)

Inductive result (E A : Type) : Type :=
  | Ok (a : A)
  | Err (e : E).
Arguments Ok {E A} a.
Arguments Err {E A} e.

Definition result_bind {E A B} (f : A → result E B) (m : result E A) : result E B :=
  match m with Ok a => f a | Err e => Err e end.

Global Instance result_mret E : MRet (result E) := λ _ a, Ok a.
Global Instance result_mbind E : MBind (result E) := λ _ _ f m, result_bind f m.
Global Instance result_fmap E : FMap (result E) := λ _ _ f m, result_bind (λ a, Ok (f a)) m.

(** [map_err], [ok_or] and [ok()]. *)
Definition map_err {E F A} (f : E → F) (m : result E A) : result F A :=
  match m with Ok a => Ok a | Err e => Err (f e) end.
Definition ok_or {E A} (o : option A) (e : E) : result E A :=
  match o with Some a => Ok a | None => Err e end.
Definition result_ok {E A} (m : result E A) : option A :=
  match m with Ok a => Some a | Err _ => None end.

(** A loop that stops at the first error, threading its accumulator. *)
Fixpoint foldM {E A B} (f : B → A → result E B) (acc : B) (l : list A) : result E B :=
  match l with
  | [] => Ok acc
  | a :: l' => acc' ← f acc a; foldM f acc' l'
  end.

Lemma bind_ok {E A B} (f : A → result E B) (m : result E A) (b : B) :
  m ≫= f = Ok b ↔ ∃ a, m = Ok a ∧ f a = Ok b.
Proof. destruct m; cbn; naive_solver. Qed.

Lemma bind_err {E A B} (f : A → result E B) (m : result E A) (e : E) :
  m ≫= f = Err e ↔ m = Err e ∨ ∃ a, m = Ok a ∧ f a = Err e.
Proof. destruct m; cbn; naive_solver. Qed.

Lemma ok_or_ok {E A} (o : option A) (e : E) a : ok_or o e = Ok a ↔ o = Some a.
Proof. destruct o; cbn; naive_solver. Qed.

Lemma map_err_ok {E F A} (f : E → F) (m : result E A) a : map_err f m = Ok a ↔ m = Ok a.
Proof. destruct m; cbn; naive_solver. Qed.

Lemma foldM_app {E A B} (f : B → A → result E B) acc l1 l2 :
  foldM f acc (l1 ++ l2) = foldM f acc l1 ≫= λ acc', foldM f acc' l2.
Proof.
  revert acc; induction l1 as [|a l1 IH]; intros acc; [done|].
  cbn. destruct (f acc a); cbn; [apply IH|done].
Qed.

(** Rule induction on a fallible loop: an invariant kept by every successful
    step holds of the result. *)
Lemma foldM_ind {E A B} (P : B → Prop) (f : B → A → result E B) acc l b :
  P acc →
  (∀ acc a acc', a ∈ l → P acc → f acc a = Ok acc' → P acc') →
  foldM f acc l = Ok b → P b.
Proof.
  revert acc; induction l as [|a l IH]; cbn; intros acc Hacc Hstep.
  - by intros [= <-].
  - intros (acc' & Hf & Hrest)%bind_ok.
    apply (IH acc'); [|set_solver|done].
    apply (Hstep acc a); [set_solver|done..].
Qed.

(** A loop none of whose steps fails is the total fold. *)
Lemma foldM_total {E A B} (f : B → A → result E B) (g : B → A → B) acc l :
  (∀ acc a, a ∈ l → f acc a = Ok (g acc a)) →
  foldM f acc l = Ok (foldl g acc l).
Proof.
  revert acc; induction l as [|a l IH]; intros acc H; [done|].
  cbn. rewrite H by set_solver. cbn. apply IH. set_solver.
Qed.

Lemma foldM_fmap {E A B C} (f : B → A → result E B) (h : C → A) acc (l : list C) :
  foldM f acc (h <$> l) = foldM (λ b c, f b (h c)) acc l.
Proof.
  revert acc; induction l as [|c l IH]; intros acc; [done|].
  cbn. destruct (f acc (h c)); cbn; [apply IH|done].
Qed.

(** Decompose hypotheses that say a chain of [?] succeeded. *)
Ltac res_inv :=
  repeat match goal with
  | H : Ok _ = Ok _ |- _ => injection H as H; subst
  | H : Err _ = Ok _ |- _ => discriminate H
  | H : Ok _ = Err _ |- _ => discriminate H
  | H : _ ≫= _ = Ok _ |- _ =>
      let x := fresh "x" in let Hx := fresh "Hx" in
      apply bind_ok in H as (x & Hx & H)
  | H : map_err _ _ = Ok _ |- _ => apply map_err_ok in H
  | H : ok_or _ _ = Ok _ |- _ => apply ok_or_ok in H
  end.

(** * Machine integers

    [u64] and [usize] are [N] below [2^64]; [i64] is [Z]. *)

Definition u64_max : N := 18446744073709551615.
Definition u64_size : N := 18446744073709551616.
Definition u64_ok (n : N) : Prop := (n ≤ u64_max)%N.

Definition wrapping_add (a b : N) : N := ((a + b) mod u64_size)%N.
Definition wrapping_mul (a b : N) : N := ((a * b) mod u64_size)%N.
Definition saturating_add (a b : N) : N := N.min (a + b) u64_max.
Definition saturating_mul (a b : N) : N := N.min (a * b) u64_max.
Definition saturating_sub (a b : N) : N := (a - b)%N.
Definition checked_add (a b : N) : option N :=
  if (a + b <=? u64_max)%N then Some (a + b)%N else None.
Definition checked_mul (a b : N) : option N :=
  if (a * b <=? u64_max)%N then Some (a * b)%N else None.

Lemma checked_add_some a b c :
  checked_add a b = Some c ↔ c = (a + b)%N ∧ u64_ok (a + b).
Proof. unfold checked_add, u64_ok. case_match eqn:E; [apply N.leb_le in E|apply N.leb_gt in E]; naive_solver lia. Qed.

Lemma wrapping_add_small a b : u64_ok (a + b) → wrapping_add a b = (a + b)%N.
Proof. unfold u64_ok, wrapping_add, u64_max, u64_size. intros. apply N.mod_small. lia. Qed.

Lemma saturating_add_ok a b : u64_ok (saturating_add a b).
Proof. unfold u64_ok, saturating_add. lia. Qed.

Lemma wrapping_add_ok a b : u64_ok (wrapping_add a b).
Proof.
  unfold u64_ok, wrapping_add, u64_max, u64_size.
  pose proof (N.mod_upper_bound (a + b) 18446744073709551616). lia.
Qed.

Lemma wrapping_mul_ok a b : u64_ok (wrapping_mul a b).
Proof.
  unfold u64_ok, wrapping_mul, u64_max, u64_size.
  pose proof (N.mod_upper_bound (a * b) 18446744073709551616). lia.
Qed.

(** * Ordered maps

    A [BTreeMap] is a [gmap] read in ascending key order, a [BTreeSet] a [gset]
    read the same way. *)

Class KeyOrd (K : Type) : Type := key_le : relation K.
Global Instance key_ord_N : KeyOrd N := N.le.
Global Instance key_ord_string : KeyOrd string := String.le.

Class KeyOrdLaws (K : Type) `{KeyOrd K} : Prop := {
  key_le_po :: PartialOrder (key_le (K := K));
  key_le_total :: Total (key_le (K := K));
}.
Global Instance key_le_N_dec : RelDecision (key_le (K := N)) := N.le_dec.
Global Instance key_le_string_dec : RelDecision (key_le (K := string)) := String.le_dec.
Global Instance key_laws_N : KeyOrdLaws N.
Proof. split; apply _. Qed.
Global Instance key_laws_string : KeyOrdLaws string.
Proof. split; apply _. Qed.

Section btree.
Context {K : Type} `{Countable K, KeyOrd K}.
Context `{!RelDecision (key_le (K := K)), !KeyOrdLaws K}.

Definition pair_le {V : Type} : relation (K * V) := λ p q, key_le p.1 q.1.
Global Instance pair_le_dec V : RelDecision (pair_le (V := V)).
Proof. intros p q. unfold pair_le. apply _. Defined.
Global Instance pair_le_total V : Total (pair_le (V := V)).
Proof. intros p q. apply (total (key_le (K := K))). Qed.
Global Instance pair_le_trans V : Transitive (pair_le (V := V)).
Proof. intros p q r. unfold pair_le. apply (transitivity (R := key_le (K := K))). Qed.

(** [iter()] of a map and of a set. *)
Definition btree_iter {V} (m : gmap K V) : list (K * V) :=
  merge_sort pair_le (map_to_list m).
Definition bset_iter (s : gset K) : list K := merge_sort key_le (elements s).
Definition btree_keys {V} (m : gmap K V) : list K := (btree_iter m).*1.
Definition btree_values {V} (m : gmap K V) : list V := (btree_iter m).*2.

Lemma btree_iter_perm {V} (m : gmap K V) : btree_iter m ≡ₚ map_to_list m.
Proof. apply merge_sort_Permutation. Qed.

Lemma elem_of_btree_iter {V} (m : gmap K V) k v :
  (k, v) ∈ btree_iter m ↔ m !! k = Some v.
Proof. rewrite btree_iter_perm. apply elem_of_map_to_list. Qed.

Lemma btree_iter_sorted {V} (m : gmap K V) : StronglySorted pair_le (btree_iter m).
Proof. apply StronglySorted_merge_sort; apply _. Qed.

Lemma btree_iter_nodup {V} (m : gmap K V) : NoDup (btree_iter m).*1.
Proof. rewrite btree_iter_perm. apply NoDup_fst_map_to_list. Qed.

Lemma btree_iter_to_map {V} (m : gmap K V) : list_to_map (btree_iter m) = m.
Proof.
  rewrite <- (list_to_map_to_list m) at 2.
  apply list_to_map_proper; [apply btree_iter_nodup|apply btree_iter_perm].
Qed.

Lemma btree_iter_length {V} (m : gmap K V) : length (btree_iter m) = size m.
Proof. by rewrite btree_iter_perm, length_map_to_list. Qed.

Lemma btree_iter_nil_inv {V} (m : gmap K V) : btree_iter m = [] ↔ m = ∅.
Proof.
  split; [|by intros ->].
  intros Hm. rewrite <- (btree_iter_to_map m). by rewrite Hm.
Qed.

Lemma elem_of_btree_values {V} (m : gmap K V) v :
  v ∈ btree_values m ↔ ∃ k, m !! k = Some v.
Proof.
  unfold btree_values. rewrite list_elem_of_fmap. split.
  - intros ([k w] & -> & Hk%elem_of_btree_iter). by exists k.
  - intros (k & Hk). exists (k, v). split; [done|]. by apply elem_of_btree_iter.
Qed.

Lemma btree_keys_sorted {V} (m : gmap K V) : StronglySorted key_le (btree_keys m).
Proof.
  unfold btree_keys. induction (btree_iter_sorted m) as [|p l Hl IH Hp]; [constructor|].
  rewrite fmap_cons. constructor; [done|]. apply Forall_fmap. exact Hp.
Qed.

Lemma btree_keys_nodup {V} (m : gmap K V) : NoDup (btree_keys m).
Proof. apply btree_iter_nodup. Qed.

Lemma elem_of_btree_keys {V} (m : gmap K V) k : k ∈ btree_keys m ↔ is_Some (m !! k).
Proof.
  unfold btree_keys. rewrite list_elem_of_fmap. split.
  - intros ([k' a] & -> & Hk%elem_of_btree_iter). by exists a.
  - intros [a Hk]. exists (k, a). split; [done|]. by apply elem_of_btree_iter.
Qed.

(** Values that carry their own key list it in order. *)
Lemma btree_values_keys {V} (m : gmap K V) (f : V → K) :
  (∀ k v, m !! k = Some v → f v = k) → f <$> btree_values m = btree_keys m.
Proof.
  intros Hf. unfold btree_values, btree_keys. rewrite <- list_fmap_compose.
  apply list_fmap_ext. intros i [k v] Hi. cbn. apply Hf.
  apply elem_of_btree_iter. by eapply list_elem_of_lookup_2.
Qed.

Lemma elem_of_bset_iter (s : gset K) k : k ∈ bset_iter s ↔ k ∈ s.
Proof. unfold bset_iter. by rewrite merge_sort_Permutation, elem_of_elements. Qed.

Lemma bset_iter_sorted (s : gset K) : StronglySorted key_le (bset_iter s).
Proof. apply StronglySorted_merge_sort; apply _. Qed.

Lemma bset_iter_nodup (s : gset K) : NoDup (bset_iter s).
Proof. unfold bset_iter. rewrite merge_sort_Permutation. apply NoDup_elements. Qed.

Lemma bset_iter_length (s : gset K) : length (bset_iter s) = size s.
Proof. unfold bset_iter. by rewrite merge_sort_Permutation. Qed.

(** Two ascending lists with the same members are equal: what makes a set's
    reading order a function of its contents. *)
Lemma sorted_nodup_ext (l1 l2 : list K) :
  StronglySorted key_le l1 → StronglySorted key_le l2 → NoDup l1 → NoDup l2 →
  (∀ x, x ∈ l1 ↔ x ∈ l2) → l1 = l2.
Proof.
  intros. apply (StronglySorted_unique key_le); [done..|].
  by apply NoDup_Permutation.
Qed.
End btree.

(** * Lists *)

Lemma StronglySorted_filter {A} (R : relation A) (P : A → Prop) `{∀ x, Decision (P x)} l :
  StronglySorted R l → StronglySorted R (filter P l).
Proof.
  induction 1 as [|a l _ IH Hle]; [constructor|]. rewrite filter_cons. case_decide; [|done].
  constructor; [done|]. rewrite Forall_forall in Hle |- *.
  intros x [_ Hx]%list_elem_of_filter. by apply Hle.
Qed.

Lemma foldl_ind {A B} (P : B → Prop) (f : B → A → B) acc l :
  P acc → (∀ acc a, a ∈ l → P acc → P (f acc a)) → P (foldl f acc l).
Proof.
  revert acc; induction l as [|a l IH]; intros acc Hacc Hstep; [done|].
  cbn. apply IH; [apply Hstep; set_solver|]. intros. apply Hstep; set_solver.
Qed.

(** Inserting the entries of a list with distinct keys one by one. *)
Lemma foldl_insert {K V W} `{Countable K} (f : V → W) (acc : gmap K W) (l : list (K * V)) :
  NoDup l.*1 →
  foldl (λ m p, <[p.1 := f p.2]> m) acc l = (f <$> list_to_map l) ∪ acc.
Proof.
  revert acc; induction l as [|[k v] l IH]; intros acc Hnd.
  { cbn. by rewrite fmap_empty, (left_id_L ∅ (∪)). }
  apply NoDup_cons in Hnd as [Hk Hnd]. cbn. rewrite IH by done.
  rewrite fmap_insert, <- insert_union_l, <- insert_union_r; [done|].
  rewrite lookup_fmap. by rewrite (proj1 (not_elem_of_list_to_map _ _)).
Qed.

Lemma foldl_union_singleton {A} `{Countable A} (acc : gset A) (l : list A) :
  foldl (λ s a, {[a]} ∪ s) acc l = list_to_set l ∪ acc.
Proof.
  revert acc; induction l as [|a l IH]; intros acc; cbn; [set_solver|].
  rewrite IH. set_solver.
Qed.

Fixpoint nsum (l : list N) : N := match l with [] => 0%N | n :: l' => (n + nsum l')%N end.

Lemma nsum_app l1 l2 : nsum (l1 ++ l2) = (nsum l1 + nsum l2)%N.
Proof. induction l1; cbn; lia. Qed.

Lemma nsum_perm l1 l2 : l1 ≡ₚ l2 → nsum l1 = nsum l2.
Proof. induction 1; cbn; lia. Qed.

(** * Sums over the entries of a map *)

#[local] Open Scope N_scope.

Section wsum.
Context {K V : Type} `{Countable K}.
Implicit Types (w : V → N) (es : gmap K V).

Definition wsum (w : V → N) (es : gmap K V) : N := nsum ((λ p, w p.2) <$> map_to_list es).

Lemma wsum_insert w es k e : es !! k = None → wsum w (<[k := e]> es) = w e + wsum w es.
Proof.
  intros Hk. unfold wsum. rewrite (nsum_perm _ ((λ p, w p.2) <$> ((k, e) :: map_to_list es))); [done|].
  by rewrite map_to_list_insert.
Qed.

Lemma wsum_delete w es k e : es !! k = Some e → wsum w es = w e + wsum w (delete k es).
Proof.
  intros Hk. rewrite <- (insert_delete_id es k e Hk) at 1. by rewrite wsum_insert by apply lookup_delete_eq.
Qed.

Lemma wsum_replace w es k e e' :
  es !! k = Some e → w e' = w e → wsum w (<[k := e']> es) = wsum w es.
Proof.
  intros Hk Hw. rewrite (wsum_delete w (<[k := e']> es) k e') by apply lookup_insert_eq.
  rewrite delete_insert_eq, Hw. symmetry. by apply wsum_delete.
Qed.

Lemma wsum_empty w : wsum w ∅ = 0.
Proof. unfold wsum. by rewrite map_to_list_empty. Qed.

Lemma wsum_delete_le w es k : wsum w (delete k es) ≤ wsum w es.
Proof.
  destruct (es !! k) as [e|] eqn:E; [rewrite (wsum_delete w es k e E); lia|].
  by rewrite delete_id.
Qed.

Lemma wsum_pos w es : wsum w es ≠ 0 → ∃ k e, es !! k = Some e ∧ w e ≠ 0.
Proof.
  unfold wsum. intros Hs.
  assert (∀ l, nsum ((λ p : K * V, w p.2) <$> l) ≠ 0 → ∃ p, p ∈ l ∧ w p.2 ≠ 0) as Hl.
  { induction l as [|p l IH]; [done|]. cbn. destruct (decide (w p.2 = 0)) as [->|Hp].
    - intros (q & Hq & Hw)%IH. exists q. split; [by right|done].
    - intros _. exists p. split; [by left|done]. }
  destruct (Hl _ Hs) as ([k e] & Hin & Hw). exists k, e. split; [|done]. by apply elem_of_map_to_list.
Qed.

Lemma size_wsum es : N.of_nat (size es) = wsum (λ _, 1) es.
Proof.
  unfold wsum. rewrite <- length_map_to_list. induction (map_to_list es); cbn [fmap list_fmap nsum length]; lia.
Qed.
End wsum.

#[local] Close Scope N_scope.


(** * Automation *)

Create HintDb hydra.
#[export] Hint Resolve wrapping_add_ok wrapping_mul_ok saturating_add_ok : hydra.
#[export] Hint Resolve btree_iter_sorted btree_iter_nodup bset_iter_sorted bset_iter_nodup : hydra.

(** Arithmetic on machine words. *)
Ltac u64_lia :=
  unfold u64_ok, saturating_add, saturating_mul, saturating_sub, u64_max, u64_size in *; lia.
