(* ===== verification/Text.v ===== *)
(** The part of Rust's string library the kernel is written in: [str] and
    [String] as byte strings, splitting and trimming, integer formatting and
    parsing, hexadecimal, big-endian words and UTF-8 validation.  Nothing here
    models a file of the repository; every codec and key theorem rests on it. *)

From S2P Require Import Prelude.
From Stdlib Require Import Ascii.

Local Open Scope N_scope.

(** A [&str] or a [&[u8]] is its bytes. *)
Definition byte_of (c : ascii) : N := N_of_ascii c.
Fixpoint bytes (s : string) : list N :=
  match s with "" => [] | String c s' => byte_of c :: bytes s' end.
Fixpoint of_bytes (l : list N) : string :=
  match l with [] => "" | b :: l' => String (ascii_of_N b) (of_bytes l') end.
Definition strlen (s : string) : N := N.of_nat (String.length s).

Fixpoint str_forall (P : ascii → bool) (s : string) : bool :=
  match s with "" => true | String c s' => P c && str_forall P s' end.

(** * Separators *)

Definition chr_slash : ascii := "/".
Definition chr_tab : ascii := "009".
Definition chr_nl : ascii := "010".
Definition chr_cr : ascii := "013".
Definition nl : string := String chr_nl "".
Definition tab : string := String chr_tab "".

Definition not_char (sep : ascii) (c : ascii) : bool := negb (bool_decide (c = sep)).
Definition free_of (sep : ascii) (s : string) : bool := str_forall (not_char sep) s.

(** [str::split]: always at least one piece. *)
Fixpoint split (sep : ascii) (s : string) : list string :=
  match s with
  | "" => [""]
  | String c s' =>
      if decide (c = sep) then "" :: split sep s'
      else match split sep s' with
           | [] => [String c ""]
           | h :: t => String c h :: t
           end
  end.

Fixpoint join (sep : ascii) (l : list string) : string :=
  match l with
  | [] => ""
  | [s] => s
  | s :: l' => s +:+ String sep (join sep l')
  end.

(** [str::split_once]: the first occurrence. *)
Fixpoint split_once (sep : ascii) (s : string) : option (string * string) :=
  match s with
  | "" => None
  | String c s' =>
      if decide (c = sep) then Some ("", s')
      else match split_once sep s' with
           | None => None
           | Some (a, b) => Some (String c a, b)
           end
  end.

Fixpoint strip_prefix (p s : string) : option string :=
  match p, s with
  | "", _ => Some s
  | String a p', String b s' => if decide (a = b) then strip_prefix p' s' else None
  | _, _ => None
  end.

Definition starts_with (p s : string) : bool :=
  match strip_prefix p s with Some _ => true | None => false end.

Fixpoint strip_suffix_char (c : ascii) (s : string) : option string :=
  match s with
  | "" => None
  | String a "" => if decide (a = c) then Some "" else None
  | String a s' => match strip_suffix_char c s' with
                   | None => None
                   | Some t => Some (String a t)
                   end
  end.

(** [str::trim_end_matches] with a character pattern. *)
Fixpoint trim_end_matches (c : ascii) (s : string) : string :=
  match s with
  | "" => ""
  | String a s' => match trim_end_matches c s' with
                   | "" => if decide (a = c) then "" else String a ""
                   | t => String a t
                   end
  end.

(** [str::split_inclusive] on newlines, and [str::lines] on top of it. *)
Fixpoint split_inclusive (sep : ascii) (s : string) : list string :=
  match s with
  | "" => []
  | String c s' =>
      if decide (c = sep) then String c "" :: split_inclusive sep s'
      else match split_inclusive sep s' with
           | [] => [String c ""]
           | h :: t => String c h :: t
           end
  end.

Definition strip_line (l : string) : string :=
  match strip_suffix_char chr_nl l with
  | None => l
  | Some l' => match strip_suffix_char chr_cr l' with None => l' | Some l'' => l'' end
  end.
Definition lines (s : string) : list string := strip_line <$> split_inclusive chr_nl s.

(** * Integers as text *)

Definition digit_char (d : N) : ascii :=
  if d <? 10 then ascii_of_N (48 + d) else ascii_of_N (87 + d).

Fixpoint radix_go (b : N) (fuel : nat) (n : N) (acc : string) : string :=
  match fuel with
  | O => acc
  | S fuel' =>
      let acc' := String (digit_char (n mod b)) acc in
      if n <? b then acc' else radix_go b fuel' (n / b) acc'
  end.

(** [{}] and [{:x}] of an unsigned integer: one more digit of fuel than the
    number has binary digits is enough in any base from two up. *)
Definition to_radix (b n : N) : string := radix_go b (S (N.size_nat n)) n "".
Definition dec (n : N) : string := to_radix 10 n.
Definition dec_Z (z : Z) : string :=
  if (z <? 0)%Z then "-" +:+ dec (Z.to_N (- z)) else dec (Z.to_N z).

Fixpoint zeros (k : nat) (s : string) : string :=
  match k with O => s | S k' => String "0" (zeros k' s) end.
(** Zero padding to a minimum width: [{:020}], [{:016x}]. *)
Definition zpad (w : nat) (s : string) : string := zeros (w - String.length s) s.
Definition pad20 (n : N) : string := zpad 20 (dec n).
Definition hex16 (n : N) : string := zpad 16 (to_radix 16 n).

(** [char::to_digit]. *)
Definition digit_val (c : ascii) : option N :=
  let v := byte_of c in
  if (48 <=? v) && (v <=? 57) then Some (v - 48)
  else if (97 <=? v) && (v <=? 122) then Some (v - 87)
  else if (65 <=? v) && (v <=? 90) then Some (v - 55)
  else None.
Definition to_digit (b : N) (c : ascii) : option N :=
  match digit_val c with
  | Some x => if x <? b then Some x else None
  | None => None
  end.

Inductive int_error : Type := IntEmpty | IntInvalidDigit | IntPosOverflow | IntNegOverflow.

(** The [Display] text of [ParseIntError]. *)
Definition int_error_text (e : int_error) : string :=
  match e with
  | IntEmpty => "cannot parse integer from empty string"
  | IntInvalidDigit => "invalid digit found in string"
  | IntPosOverflow => "number too large to fit in target type"
  | IntNegOverflow => "number too small to fit in target type"
  end.

Fixpoint parse_digits (b acc : N) (s : string) : result int_error N :=
  match s with
  | "" => Ok acc
  | String c s' =>
      match to_digit b c with
      | None => Err IntInvalidDigit
      | Some x =>
          match checked_mul acc b with
          | None => Err IntPosOverflow
          | Some m => match checked_add m x with
                      | None => Err IntPosOverflow
                      | Some a => parse_digits b a s'
                      end
          end
      end
  end.

(** [u64::from_str_radix]; [str::parse::<u64>] is base ten. *)
Definition from_str_radix_u64 (b : N) (s : string) : result int_error N :=
  match s with
  | "" => Err IntEmpty
  | "+" => Err IntInvalidDigit
  | "-" => Err IntInvalidDigit
  | String "+" s' => parse_digits b 0 s'
  | _ => parse_digits b 0 s
  end.
Definition parse_u64_text (s : string) : result int_error N := from_str_radix_u64 10 s.

Definition i64_min : Z := -9223372036854775808.
Definition i64_max : Z := 9223372036854775807.
Definition i64_ok (z : Z) : Prop := (i64_min ≤ z ≤ i64_max)%Z.

Fixpoint parse_digits_Z (neg : bool) (acc : Z) (s : string) : result int_error Z :=
  match s with
  | "" => Ok acc
  | String c s' =>
      match to_digit 10 c with
      | None => Err IntInvalidDigit
      | Some x =>
          let over := if neg then IntNegOverflow else IntPosOverflow in
          let m := (acc * 10)%Z in
          let a := if neg then (m - Z.of_N x)%Z else (m + Z.of_N x)%Z in
          if bool_decide (i64_min ≤ m ≤ i64_max)%Z
          then if bool_decide (i64_min ≤ a ≤ i64_max)%Z
               then parse_digits_Z neg a s' else Err over
          else Err over
      end
  end.

(** [str::parse::<i64>]. *)
Definition parse_i64_text (s : string) : result int_error Z :=
  match s with
  | "" => Err IntEmpty
  | "+" => Err IntInvalidDigit
  | "-" => Err IntInvalidDigit
  | String "+" s' => parse_digits_Z false 0 s'
  | String "-" s' => parse_digits_Z true 0 s'
  | _ => parse_digits_Z false 0 s
  end.

(** * Words as bytes *)

(** [u64::to_be_bytes], the most significant byte first. *)
Fixpoint be_go (k : nat) (n : N) (acc : string) : string :=
  match k with
  | O => acc
  | S k' => be_go k' (n / 256) (String (ascii_of_N (n mod 256)) acc)
  end.
Definition to_be_bytes (n : N) : string := be_go 8 n "".

Fixpoint from_be (acc : N) (s : string) : N :=
  match s with "" => acc | String c s' => from_be (acc * 256 + byte_of c) s' end.
Definition from_be_bytes (s : string) : N := from_be 0 s.

(** [slice::chunks_exact]: whole chunks only, a short tail is dropped. *)
Fixpoint take_str (k : nat) (s : string) : option (string * string) :=
  match k, s with
  | O, _ => Some ("", s)
  | S k', String c s' => match take_str k' s' with
                         | Some (a, b) => Some (String c a, b)
                         | None => None
                         end
  | S _, "" => None
  end.
Fixpoint chunks_exact_go (fuel k : nat) (s : string) : list string :=
  match fuel with
  | O => []
  | S fuel' => match take_str k s with
               | Some (a, b) => a :: chunks_exact_go fuel' k b
               | None => []
               end
  end.
(** Each chunk takes at least a byte, so the length of the string is fuel enough. *)
Definition chunks_exact (k : nat) (s : string) : list string :=
  chunks_exact_go (String.length s) k s.

(** * UTF-8 *)

Record utf8_error := Utf8Error { valid_up_to : N; error_len : option N }.

Definition in_range (lo hi b : N) : bool := (lo <=? b) && (b <=? hi).
Definition is_cont (b : N) : bool := in_range 128 191 b.

(** The second byte allowed after a three- or four-byte lead. *)
Definition second3 (b0 b1 : N) : bool :=
  if b0 =? 224 then in_range 160 191 b1
  else if b0 =? 237 then in_range 128 159 b1
  else is_cont b1.
Definition second4 (b0 b1 : N) : bool :=
  if b0 =? 240 then in_range 144 191 b1
  else if b0 =? 244 then in_range 128 143 b1
  else is_cont b1.

(** [core::str::from_utf8]: where validation stops, or [None]. *)
Fixpoint utf8_check (at_ : N) (l : list N) : option utf8_error :=
  match l with
  | [] => None
  | b0 :: r0 =>
      let bad k := Some (Utf8Error at_ k) in
      if b0 <? 128 then utf8_check (at_ + 1) r0
      else if in_range 194 223 b0 then
        match r0 with
        | [] => bad None
        | b1 :: r1 => if is_cont b1 then utf8_check (at_ + 2) r1 else bad (Some 1)
        end
      else if in_range 224 239 b0 then
        match r0 with
        | [] => bad None
        | b1 :: r1 =>
            if second3 b0 b1 then
              match r1 with
              | [] => bad None
              | b2 :: r2 => if is_cont b2 then utf8_check (at_ + 3) r2 else bad (Some 2)
              end
            else bad (Some 1)
        end
      else if in_range 240 244 b0 then
        match r0 with
        | [] => bad None
        | b1 :: r1 =>
            if second4 b0 b1 then
              match r1 with
              | [] => bad None
              | b2 :: r2 =>
                  if is_cont b2 then
                    match r2 with
                    | [] => bad None
                    | b3 :: r3 => if is_cont b3 then utf8_check (at_ + 4) r3 else bad (Some 3)
                    end
                  else bad (Some 2)
              end
            else bad (Some 1)
        end
      else bad (Some 1)
  end.

Definition utf8_error_text (e : utf8_error) : string :=
  match error_len e with
  | Some k => "invalid utf-8 sequence of " +:+ dec k +:+ " bytes from index " +:+ dec (valid_up_to e)
  | None => "incomplete utf-8 byte sequence from index " +:+ dec (valid_up_to e)
  end.

(** [str::from_utf8] and [String::from_utf8]. *)
Definition from_utf8 (s : string) : result utf8_error string :=
  match utf8_check 0 (bytes s) with None => Ok s | Some e => Err e end.
Definition valid_utf8 (s : string) : Prop := utf8_check 0 (bytes s) = None.

(** The UTF-8 encoding of U+FFFD. *)
Definition replacement : list N := [239; 191; 189].

(** [String::from_utf8_lossy]: every maximal ill-formed prefix becomes U+FFFD. *)
Fixpoint lossy_go (fuel : nat) (l : list N) : list N :=
  match fuel with
  | O => l
  | S fuel' =>
      match utf8_check 0 l with
      | None => l
      | Some (Utf8Error upto (Some k)) =>
          take (N.to_nat upto) l ++ replacement ++
            lossy_go fuel' (drop (N.to_nat upto + N.to_nat k) l)
      | Some (Utf8Error upto None) => take (N.to_nat upto) l ++ replacement
      end
  end.
Definition from_utf8_lossy (s : string) : string :=
  of_bytes (lossy_go (String.length s) (bytes s)).

(** * Character classes *)

Definition is_ascii (c : ascii) : bool := byte_of c <? 128.
Definition is_ascii_alphanumeric (c : ascii) : bool :=
  let v := byte_of c in
  ((48 <=? v) && (v <=? 57)) || ((65 <=? v) && (v <=? 90)) || ((97 <=? v) && (v <=? 122)).
