(* ===== verification/TextFacts.v ===== *)
(** Facts of [Text]: splitting inverts joining, parsing inverts formatting,
    padded numerals compare like numbers, big-endian words round-trip, ASCII is
    valid UTF-8. *)

From S2P Require Import Prelude Text.
From Stdlib Require Import Ascii.

Local Open Scope N_scope.

(** * Characters and predicates on strings *)

Lemma app_nil_l (s : string) : "" +:+ s = s.
Proof. done. Qed.
Lemma app_nil_r (s : string) : s +:+ "" = s.
Proof. induction s as [|c s IH]; [done|]. change (String c (s +:+ "") = String c s). by rewrite IH. Qed.
Lemma app_assoc (a b c : string) : (a +:+ b) +:+ c = a +:+ b +:+ c.
Proof.
  induction a as [|x a IH]; [done|].
  change (String x ((a +:+ b) +:+ c) = String x (a +:+ b +:+ c)). by rewrite IH.
Qed.
Lemma app_cons (c : ascii) (s t : string) : String c s +:+ t = String c (s +:+ t).
Proof. done. Qed.
Lemma length_app_str (a b : string) :
  (String.length (a +:+ b) = String.length a + String.length b)%nat.
Proof. induction a as [|x a IH]; [done|]. rewrite app_cons. cbn. by rewrite IH. Qed.

Lemma str_forall_app P a b : str_forall P (a +:+ b) = str_forall P a && str_forall P b.
Proof.
  induction a as [|x a IH]; [done|]. rewrite app_cons. cbn. rewrite IH. by rewrite andb_assoc.
Qed.

Lemma str_forall_mono (P Q : ascii → bool) s :
  (∀ c, P c = true → Q c = true) → str_forall P s = true → str_forall Q s = true.
Proof.
  intros HPQ. induction s as [|c s IH]; [done|]. cbn.
  intros [Hc Hs]%andb_prop. by rewrite (HPQ _ Hc), (IH Hs).
Qed.

Lemma bytes_app a b : bytes (a +:+ b) = bytes a ++ bytes b.
Proof. induction a as [|x a IH]; [done|]. rewrite app_cons. cbn. by rewrite IH. Qed.
Lemma of_bytes_bytes s : of_bytes (bytes s) = s.
Proof. induction s as [|c s IH]; [done|]. cbn. unfold byte_of. by rewrite ascii_N_embedding, IH. Qed.
Lemma bytes_length s : length (bytes s) = String.length s.
Proof. induction s; cbn; congruence. Qed.
Lemma byte_of_lt c : byte_of c < 256.
Proof. apply N_ascii_bounded. Qed.
Lemma byte_of_inj c d : byte_of c = byte_of d → c = d.
Proof. intros H. rewrite <- (ascii_N_embedding c), <- (ascii_N_embedding d). by f_equal. Qed.
Lemma byte_of_ascii n : n < 256 → byte_of (ascii_of_N n) = n.
Proof. intros. by apply N_ascii_embedding. Qed.

(** * Splitting inverts joining *)

Lemma free_of_cons sep c s : free_of sep (String c s) = true ↔ c ≠ sep ∧ free_of sep s = true.
Proof.
  unfold free_of. cbn. unfold not_char at 1. rewrite andb_true_iff, negb_true_iff, bool_decide_eq_false. done.
Qed.
Lemma free_of_app sep a b : free_of sep (a +:+ b) = free_of sep a && free_of sep b.
Proof. apply str_forall_app. Qed.

Lemma split_single sep a : free_of sep a = true → split sep a = [a].
Proof.
  induction a as [|c a IH]; [done|]. rewrite free_of_cons. intros [Hc Ha]. cbn.
  rewrite decide_False by done. by rewrite (IH Ha).
Qed.

Lemma split_cons sep a b :
  free_of sep a = true → split sep (a +:+ String sep b) = a :: split sep b.
Proof.
  induction a as [|c a IH]; intros Ha.
  - rewrite ?app_nil_l. cbn. by rewrite decide_True.
  - apply free_of_cons in Ha as [Hc Ha]. rewrite app_cons. cbn.
    rewrite decide_False by done. by rewrite (IH Ha).
Qed.

Lemma split_join sep l :
  l ≠ [] → Forall (λ s, free_of sep s = true) l → split sep (join sep l) = l.
Proof.
  induction l as [|s l IH]; [done|]. intros _ [Hs Hl]%Forall_cons.
  destruct l as [|s' l]; [by apply split_single|].
  change (split sep (s +:+ String sep (join sep (s' :: l))) = s :: s' :: l).
  rewrite split_cons by done. by rewrite IH.
Qed.

Lemma join_inj sep l1 l2 :
  l1 ≠ [] → l2 ≠ [] →
  Forall (λ s, free_of sep s = true) l1 → Forall (λ s, free_of sep s = true) l2 →
  join sep l1 = join sep l2 → l1 = l2.
Proof.
  intros ?? H1 H2 E. apply (f_equal (split sep)) in E. by rewrite !split_join in E.
Qed.

Lemma split_once_app sep a b :
  free_of sep a = true → split_once sep (a +:+ String sep b) = Some (a, b).
Proof.
  induction a as [|c a IH]; intros Ha.
  - rewrite ?app_nil_l. cbn. by rewrite decide_True.
  - apply free_of_cons in Ha as [Hc Ha]. rewrite app_cons. cbn.
    rewrite decide_False by done. by rewrite (IH Ha).
Qed.

Lemma strip_prefix_app p s : strip_prefix p (p +:+ s) = Some s.
Proof. induction p as [|c p IH]; [by destruct s|]. rewrite app_cons. cbn. rewrite decide_True by done. done. Qed.

Lemma strip_prefix_Some p s t : strip_prefix p s = Some t ↔ s = p +:+ t.
Proof.
  split; [|intros ->; apply strip_prefix_app].
  revert s; induction p as [|c p IH]; intros s; [cbn; by intros [= ->]|].
  destruct s as [|d s]; [done|]. cbn. case_decide; [|done]. subst.
  intros ->%IH. done.
Qed.

Lemma starts_with_app p s : starts_with p (p +:+ s) = true.
Proof. unfold starts_with. by rewrite strip_prefix_app. Qed.

(** * Trimming and lines *)

Lemma strip_suffix_char_app c s : strip_suffix_char c (s +:+ String c "") = Some s.
Proof.
  induction s as [|a s IH]; [rewrite app_nil_l; cbn; by rewrite decide_True|].
  rewrite app_cons. cbn. rewrite IH. destruct s; done.
Qed.

Lemma strip_suffix_char_free c s : free_of c s = true → strip_suffix_char c s = None.
Proof.
  induction s as [|a s IH]; [done|]. rewrite free_of_cons. intros [Ha Hs]. cbn.
  rewrite (IH Hs). destruct s; [by rewrite decide_False|done].
Qed.

Lemma trim_end_free c s : free_of c s = true → trim_end_matches c s = s.
Proof.
  induction s as [|a s IH]; [done|]. rewrite free_of_cons. intros [Ha Hs]. cbn.
  rewrite (IH Hs). destruct s; [by rewrite decide_False|done].
Qed.

Lemma trim_end_one c s : free_of c s = true → trim_end_matches c (s +:+ String c "") = s.
Proof.
  induction s as [|a s IH]; intros Hs; [rewrite app_nil_l; cbn; by rewrite decide_True|].
  apply free_of_cons in Hs as [Ha Hs]. rewrite app_cons. cbn. rewrite (IH Hs).
  destruct s; [by rewrite decide_False|done].
Qed.

Lemma split_inclusive_line sep a b :
  free_of sep a = true →
  split_inclusive sep (a +:+ String sep b) = (a +:+ String sep "") :: split_inclusive sep b.
Proof.
  induction a as [|c a IH]; intros Ha.
  - rewrite ?app_nil_l. cbn. by rewrite decide_True.
  - apply free_of_cons in Ha as [Hc Ha]. rewrite app_cons. cbn.
    rewrite decide_False by done. by rewrite (IH Ha).
Qed.

(** A block of newline-terminated lines. *)
Fixpoint unlines (l : list string) : string :=
  match l with [] => "" | s :: l' => s +:+ String chr_nl (unlines l') end.

Definition line_ok (s : string) : Prop := free_of chr_nl s = true ∧ free_of chr_cr s = true.

Lemma lines_unlines l : Forall line_ok l → lines (unlines l) = l.
Proof.
  unfold lines. induction l as [|s l IH]; [done|]. intros [[Hn Hc] Hl]%Forall_cons.
  cbn [unlines]. rewrite split_inclusive_line by done. cbn [fmap list_fmap].
  rewrite (IH Hl). f_equal. unfold strip_line.
  rewrite strip_suffix_char_app. by rewrite (strip_suffix_char_free _ _ Hc).
Qed.

Lemma unlines_app l1 l2 : unlines (l1 ++ l2) = unlines l1 +:+ unlines l2.
Proof.
  induction l1 as [|s l1 IH]; [done|]. cbn. rewrite IH, app_assoc. done.
Qed.

(** * Formatting and parsing integers *)

Definition is_digit_char (c : ascii) : bool :=
  in_range 48 57 (byte_of c) || in_range 97 102 (byte_of c).

Lemma digit_char_val x :
  x < 16 → digit_val (digit_char x) = Some x ∧ is_digit_char (digit_char x) = true.
Proof.
  intros Hx.
  assert (Forall (λ x, digit_val (digit_char x) = Some x ∧ is_digit_char (digit_char x) = true)
    (N.of_nat <$> seq 0 16)) as Hall by (cbv; repeat constructor).
  rewrite Forall_forall in Hall. apply Hall. apply list_elem_of_fmap.
  exists (N.to_nat x). rewrite elem_of_seq. lia.
Qed.

Lemma digit_char_lt b x :
  b ≤ 16 → x < b → to_digit b (digit_char x) = Some x ∧ is_digit_char (digit_char x) = true.
Proof.
  intros Hb Hx. destruct (digit_char_val x) as [Hv Hd]; [lia|]. split; [|done].
  unfold to_digit. rewrite Hv. by rewrite (proj2 (N.ltb_lt _ _) Hx).
Qed.

Section radix.
Context (b : N) (Hb : 2 ≤ b ≤ 16).

Lemma radix_go_digits fuel n acc :
  str_forall is_digit_char acc = true → str_forall is_digit_char (radix_go b fuel n acc) = true.
Proof.
  revert n acc; induction fuel as [|fuel IH]; intros n acc Hacc; [done|].
  assert (n mod b < b) by (apply N.mod_upper_bound; lia).
  assert (str_forall is_digit_char (String (digit_char (n mod b)) acc) = true) as Hd.
  { cbn. rewrite Hacc. by rewrite (proj2 (digit_char_lt b _ (proj2 Hb) ltac:(done))). }
  cbn. case_match; [done|by apply IH].
Qed.

Lemma parse_radix_go fuel n acc :
  n < 2 ^ N.of_nat fuel → u64_ok n →
  parse_digits b 0 (radix_go b fuel n acc) = parse_digits b n acc.
Proof.
  revert n acc; induction fuel as [|fuel IH]; intros n acc Hf Hn.
  { cbn in *. assert (n = 0) as -> by lia. done. }
  assert (n mod b < b) as Hmod by (apply N.mod_upper_bound; lia).
  pose proof (N.div_mod n b ltac:(lia)) as Hdm.
  pose proof (proj1 (digit_char_lt b _ (proj2 Hb) Hmod)) as Hdig.
  cbn [radix_go]. case_match eqn:Hlt.
  - apply N.ltb_lt in Hlt. cbn [parse_digits]. rewrite Hdig. unfold checked_mul, checked_add.
    rewrite N.mul_0_l. rewrite (proj2 (N.leb_le 0 _)) by (unfold u64_max; lia).
    rewrite N.add_0_l, N.mod_small by lia.
    by rewrite (proj2 (N.leb_le _ _) Hn).
  - apply N.ltb_ge in Hlt. rewrite IH.
    + cbn [parse_digits]. rewrite Hdig. unfold checked_mul, checked_add, u64_ok in *.
      generalize dependent (n mod b). intros r **. generalize dependent (n / b). intros q **.
      rewrite (proj2 (N.leb_le _ _)) by (unfold u64_ok in *; nia).
      rewrite (proj2 (N.leb_le _ _)) by (unfold u64_ok in *; nia).
      f_equal. lia.
    + apply N.Div0.div_lt_upper_bound. rewrite Nat2N.inj_succ, N.pow_succ_r' in Hf.
      nia.
    + unfold u64_ok in *. pose proof (N.Div0.div_le_upper_bound n b n). nia.
Qed.
End radix.

Lemma N_size_pow n : n < 2 ^ N.of_nat (S (N.size_nat n)).
Proof.
  assert (N.of_nat (N.size_nat n) = N.size n) as Hsz.
  { destruct n as [|p]; [done|]. cbn. induction p; cbn in *; lia. }
  rewrite Nat2N.inj_succ, Hsz, N.pow_succ_r'. pose proof (N.size_gt n). lia.
Qed.

(** * Fixed-width digit strings

    Numerals padded with zeros and big-endian words are the same construction in
    different bases and alphabets. *)

Fixpoint fixed_go (dg : N → ascii) (b : N) (k : nat) (n : N) (acc : string) : string :=
  match k with
  | O => acc
  | S k' => fixed_go dg b k' (n / b) (String (dg (n mod b)) acc)
  end.

Section fixed.
Context (dg : N → ascii) (b : N) (Hb : 2 ≤ b).

Lemma fixed_go_acc k n acc : fixed_go dg b k n acc = fixed_go dg b k n "" +:+ acc.
Proof.
  revert n acc; induction k as [|k IH]; intros n acc; cbn; [done|].
  rewrite IH, (IH _ (String _ "")), app_assoc. done.
Qed.

Lemma fixed_go_snoc k n :
  fixed_go dg b (S k) n "" = fixed_go dg b k (n / b) "" +:+ String (dg (n mod b)) "".
Proof. cbn. by rewrite fixed_go_acc. Qed.

Lemma fixed_go_length k n acc :
  String.length (fixed_go dg b k n acc) = (k + String.length acc)%nat.
Proof. revert n acc; induction k as [|k IH]; intros; cbn; [done|]. rewrite IH. cbn. lia. Qed.

Lemma fixed_go_forall (P : ascii → bool) k n acc :
  (∀ x, x < b → P (dg x) = true) → str_forall P acc = true →
  str_forall P (fixed_go dg b k n acc) = true.
Proof.
  intros HP. revert n acc; induction k as [|k IH]; intros n acc Hacc; [done|]. cbn.
  apply IH. cbn. rewrite Hacc, HP; [done|]. apply N.mod_upper_bound. lia.
Qed.

(** Comparing equal-length prefixes first. *)
Lemma compare_app x y c d :
  String.length x = String.length y →
  String.compare (x +:+ c) (y +:+ d) =
    match String.compare x y with Eq => String.compare c d | r => r end.
Proof.
  revert y; induction x as [|a x IH]; intros [|a' y]; try done.
  rewrite !app_cons. cbn. intros [= Hl]. destruct (Ascii.compare a a'); [by apply IH|done..].
Qed.

Lemma fixed_compare k n m :
  (∀ x y, x < b → y < b → (byte_of (dg x) ?= byte_of (dg y)) = (x ?= y)) →
  n < b ^ N.of_nat k → m < b ^ N.of_nat k →
  String.compare (fixed_go dg b k n "") (fixed_go dg b k m "") = (n ?= m).
Proof.
  intros Hmono. revert n m; induction k as [|k IH]; intros n m Hn Hm.
  { cbn in *. assert (n = 0) as -> by lia. by assert (m = 0) as -> by lia. }
  rewrite Nat2N.inj_succ, N.pow_succ_r' in Hn, Hm.
  rewrite !fixed_go_snoc, compare_app by (by rewrite !fixed_go_length).
  rewrite IH by (apply N.Div0.div_lt_upper_bound; lia).
  pose proof (N.div_mod n b ltac:(lia)) as Hdn.
  pose proof (N.div_mod m b ltac:(lia)) as Hdm.
  pose proof (N.mod_upper_bound n b ltac:(lia)) as Hn'.
  pose proof (N.mod_upper_bound m b ltac:(lia)) as Hm'.
  cbn. unfold Ascii.compare.
  change (N_of_ascii (dg ?x)) with (byte_of (dg x)). rewrite Hmono by done.
  generalize dependent (n / b). intros qn. generalize dependent (m / b). intros qm.
  generalize dependent (n mod b). intros rn. generalize dependent (m mod b). intros rm.
  intros. subst n m. destruct (N.compare_spec qn qm) as [->|Hlt|Hlt].
  - destruct (N.compare_spec rn rm); symmetry;
      [apply N.compare_eq_iff|apply N.compare_lt_iff|apply N.compare_gt_iff]; lia.
  - symmetry. apply N.compare_lt_iff. nia.
  - symmetry. apply N.compare_gt_iff. nia.
Qed.

Lemma fixed_zero k acc : fixed_go dg b k 0 acc = fixed_go dg b k 0 "" +:+ acc.
Proof. apply fixed_go_acc. Qed.
End fixed.

Lemma be_go_fixed k n acc : be_go k n acc = fixed_go ascii_of_N 256 k n acc.
Proof. revert n acc; induction k as [|k IH]; intros; cbn; [done|]. apply IH. Qed.

Lemma zeros_app k s : zeros k s = zeros k "" +:+ s.
Proof. induction k as [|k IH]; [done|]. cbn. rewrite app_cons. by rewrite <- IH. Qed.
Lemma zeros_succ k s : zeros (S k) s = zeros k (String "0" s).
Proof. induction k as [|k IH]; [done|]. cbn in *. by rewrite IH. Qed.

Section padded.
Context (b : N) (Hb : 2 ≤ b ≤ 16).

Lemma fixed_zeros k acc : fixed_go digit_char b k 0 acc = zeros k acc.
Proof.
  revert acc; induction k as [|k IH]; intros acc; [done|]. cbn [fixed_go].
  rewrite N.Div0.div_0_l, N.Div0.mod_0_l, IH. by rewrite zeros_succ.
Qed.

Lemma zpad_radix_go k fuel n acc :
  n < b ^ N.of_nat (S k) → n < 2 ^ N.of_nat fuel → fuel ≠ O →
  zeros (S k + String.length acc - String.length (radix_go b fuel n acc)) (radix_go b fuel n acc)
  = fixed_go digit_char b (S k) n acc.
Proof.
  revert fuel n acc; induction k as [|k IH]; intros [|fuel] n acc Hk Hf Hnz; try done.
  - cbn in Hk. assert ((n <? b) = true) as Hlt by (apply N.ltb_lt; lia).
    cbn. rewrite Hlt. cbn. by rewrite Nat.sub_diag.
  - cbn [radix_go]. case_match eqn:Hlt.
    + apply N.ltb_lt in Hlt. cbn [String.length].
      replace (S (S k) + String.length acc - S (String.length acc))%nat with (S k) by lia.
      change (fixed_go digit_char b (S (S k)) n acc) with
        (fixed_go digit_char b (S k) (n / b) (String (digit_char (n mod b)) acc)).
      rewrite N.div_small by done. by rewrite fixed_zeros.
    + apply N.ltb_ge in Hlt.
      rewrite Nat2N.inj_succ, N.pow_succ_r' in Hf. rewrite Nat2N.inj_succ, N.pow_succ_r' in Hk.
      assert (1 ≤ n / b) by (apply N.div_le_lower_bound; lia).
      assert (n / b < 2 ^ N.of_nat fuel) by (apply N.Div0.div_lt_upper_bound; nia).
      destruct fuel as [|fuel]; [cbn in *; lia|].
      change (fixed_go digit_char b (S (S k)) n acc) with
        (fixed_go digit_char b (S k) (n / b) (String (digit_char (n mod b)) acc)).
      rewrite <- (IH (S fuel) (n / b) (String (digit_char (n mod b)) acc)); [|..|done|done].
      * f_equal. cbn [String.length]. lia.
      * by apply N.Div0.div_lt_upper_bound.
Qed.

Lemma zpad_fixed k n :
  n < b ^ N.of_nat (S k) → zpad (S k) (to_radix b n) = fixed_go digit_char b (S k) n "".
Proof.
  intros Hn. rewrite <- (zpad_radix_go k (S (N.size_nat n)) n "") by (try done; apply N_size_pow).
  unfold zpad, to_radix. by rewrite Nat.add_0_r.
Qed.
End padded.

(** * Parsing what was printed *)

Lemma parse_zeros b k s : 2 ≤ b → parse_digits b 0 (zeros k s) = parse_digits b 0 s.
Proof.
  intros Hb. induction k as [|k IH]; [done|]. cbn [zeros parse_digits].
  assert (to_digit b "0" = Some 0) as ->.
  { change (to_digit b "0") with (if 0 <? b then Some 0 else None).
    by rewrite (proj2 (N.ltb_lt 0 b)) by lia. }
  exact IH.
Qed.

Lemma parse_to_radix b n :
  2 ≤ b ≤ 16 → u64_ok n → parse_digits b 0 (to_radix b n) = Ok n.
Proof. intros. unfold to_radix. rewrite parse_radix_go by (done || apply N_size_pow). done. Qed.

Lemma to_radix_digits b n : 2 ≤ b ≤ 16 → str_forall is_digit_char (to_radix b n) = true.
Proof. intros. by apply radix_go_digits. Qed.

Lemma zeros_digits k s :
  str_forall is_digit_char s = true → str_forall is_digit_char (zeros k s) = true.
Proof. intros. induction k; cbn; [done|]. by rewrite IHk. Qed.

Lemma radix_go_nonempty b fuel n acc : fuel ≠ O → radix_go b fuel n acc ≠ "".
Proof.
  revert n acc; induction fuel as [|fuel IH]; intros n acc Hf; [done|]. cbn [radix_go].
  case_match; [done|]. destruct fuel; [done|]. by apply IH.
Qed.
Lemma to_radix_nonempty b n : to_radix b n ≠ "".
Proof. by apply radix_go_nonempty. Qed.
Lemma zeros_nonempty k s : s ≠ "" → zeros k s ≠ "".
Proof. destruct k; done. Qed.

(** A string of digits goes straight to the digit loop: no sign to strip. *)
Lemma from_str_radix_digits b s :
  s ≠ "" → str_forall is_digit_char s = true → from_str_radix_u64 b s = parse_digits b 0 s.
Proof.
  destruct s as [|c s]; [done|]. intros _. cbn. intros [Hc _]%andb_prop.
  destruct c as [[] [] [] [] [] [] [] []]; try discriminate Hc; reflexivity.
Qed.
Lemma parse_i64_digits s :
  s ≠ "" → str_forall is_digit_char s = true → parse_i64_text s = parse_digits_Z false 0 s.
Proof.
  destruct s as [|c s]; [done|]. intros _. cbn [str_forall]. intros [Hc _]%andb_prop.
  destruct c as [[] [] [] [] [] [] [] []]; try discriminate Hc; reflexivity.
Qed.

(** Whatever parses fits in a word. *)
Lemma parse_digits_ok b acc s n : u64_ok acc → parse_digits b acc s = Ok n → u64_ok n.
Proof.
  revert acc. induction s as [|c s IH]; intros acc Hacc; cbn; [by intros [= <-]|].
  destruct (to_digit b c) as [x|]; [|done]. destruct (checked_mul acc b) as [m|]; [|done].
  destruct (checked_add m x) as [a|] eqn:Ea; [|done]. apply checked_add_some in Ea as [-> Ha]. by apply IH.
Qed.
Lemma parse_u64_text_ok s n : parse_u64_text s = Ok n → u64_ok n.
Proof.
  assert (∀ s, parse_digits 10 0 s = Ok n → u64_ok n) as Hp
    by (intros s'; apply parse_digits_ok; unfold u64_ok; lia).
  unfold parse_u64_text, from_str_radix_u64. repeat case_match; try done; apply Hp.
Qed.

Lemma parse_dec n : u64_ok n → parse_u64_text (dec n) = Ok n.
Proof.
  intros. unfold parse_u64_text, dec.
  rewrite from_str_radix_digits; [by apply parse_to_radix|apply to_radix_nonempty|by apply to_radix_digits].
Qed.
Lemma parse_pad20 n : u64_ok n → parse_u64_text (pad20 n) = Ok n.
Proof.
  intros. unfold parse_u64_text, pad20, zpad, dec. rewrite from_str_radix_digits.
  - rewrite parse_zeros by done. by apply parse_to_radix.
  - apply zeros_nonempty, to_radix_nonempty.
  - by apply zeros_digits, to_radix_digits.
Qed.
Lemma parse_hex16 n : u64_ok n → from_str_radix_u64 16 (hex16 n) = Ok n.
Proof.
  intros. unfold hex16, zpad. rewrite from_str_radix_digits.
  - rewrite parse_zeros by done. by apply parse_to_radix.
  - apply zeros_nonempty, to_radix_nonempty.
  - by apply zeros_digits, to_radix_digits.
Qed.

Lemma parse_radix_go_Z (neg : bool) fuel n acc :
  n < 2 ^ N.of_nat fuel →
  i64_ok (if neg then - Z.of_N n else Z.of_N n)%Z →
  parse_digits_Z neg 0 (radix_go 10 fuel n acc)
  = parse_digits_Z neg (if neg then - Z.of_N n else Z.of_N n)%Z acc.
Proof.
  revert n acc; induction fuel as [|fuel IH]; intros n acc Hf Hn.
  { cbn in *. assert (n = 0) as -> by lia. by destruct neg. }
  assert (n mod 10 < 10) as Hmod by (apply N.mod_upper_bound; lia).
  pose proof (N.div_mod n 10 ltac:(lia)) as Hdm.
  pose proof (proj1 (digit_char_lt 10 _ ltac:(lia) Hmod)) as Hdig.
  unfold i64_ok, i64_min, i64_max in *. cbn [radix_go]. destruct (n <? 10) eqn:Hlt.
  - apply N.ltb_lt in Hlt. cbn [parse_digits_Z]. rewrite Hdig. cbv zeta.
    rewrite N.mod_small by lia. unfold i64_min, i64_max.
    rewrite bool_decide_eq_true_2 by lia. destruct neg;
      (rewrite bool_decide_eq_true_2 by lia; f_equal; lia).
  - apply N.ltb_ge in Hlt. rewrite IH.
    + cbn [parse_digits_Z]. rewrite Hdig. cbv zeta. unfold i64_min, i64_max.
      generalize dependent (n mod 10). intros. generalize dependent (n / 10). intros.
      destruct neg; (rewrite bool_decide_eq_true_2 by lia; rewrite bool_decide_eq_true_2 by lia;
        f_equal; lia).
    + apply N.Div0.div_lt_upper_bound. rewrite Nat2N.inj_succ, N.pow_succ_r' in Hf. nia.
    + generalize dependent (n mod 10). intros. generalize dependent (n / 10). intros.
      destruct neg; lia.
Qed.

(** [i64] text round-trips. *)
Lemma parse_dec_Z z : i64_ok z → parse_i64_text (dec_Z z) = Ok z.
Proof.
  intros Hz. unfold dec_Z. case_match eqn:Hneg.
  - apply Z.ltb_lt in Hneg. rewrite app_cons, app_nil_l.
    assert (∀ s, s ≠ "" → parse_i64_text (String "-" s) = parse_digits_Z true 0 s) as Hp.
    { intros [|c s]; [done|]. by intros _. }
    rewrite Hp by apply to_radix_nonempty. unfold dec, to_radix.
    rewrite (parse_radix_go_Z true) by (apply N_size_pow || (unfold i64_ok in *; lia)).
    cbn [parse_digits_Z]. f_equal. lia.
  - apply Z.ltb_ge in Hneg. rewrite parse_i64_digits by (apply to_radix_nonempty || by apply to_radix_digits).
    unfold dec, to_radix.
    rewrite (parse_radix_go_Z false) by (apply N_size_pow || (unfold i64_ok in *; lia)).
    cbn [parse_digits_Z]. f_equal. lia.
Qed.

(** * Widths and order of padded numerals *)

Lemma pad20_fixed n : u64_ok n → pad20 n = fixed_go digit_char 10 20 n "".
Proof. intros. apply (zpad_fixed 10 ltac:(lia) 19). unfold u64_ok, u64_max in *. change (10 ^ N.of_nat 20) with 100000000000000000000. lia. Qed.
Lemma hex16_fixed n : u64_ok n → hex16 n = fixed_go digit_char 16 16 n "".
Proof. intros. apply (zpad_fixed 16 ltac:(lia) 15). unfold u64_ok, u64_max in *. change (16 ^ N.of_nat 16) with 18446744073709551616. lia. Qed.

Lemma digit_char_mono x y :
  x < 16 → y < 16 → (byte_of (digit_char x) ?= byte_of (digit_char y)) = (x ?= y).
Proof.
  intros Hx Hy. unfold digit_char.
  assert (∀ z, z < 256 → byte_of (ascii_of_N z) = z) as Hb by apply byte_of_ascii.
  destruct (x <? 10) eqn:E1; destruct (y <? 10) eqn:E2; rewrite ?N.ltb_lt, ?N.ltb_ge in *;
    rewrite !Hb by lia; destruct (N.compare_spec x y);
    [apply N.compare_eq_iff|apply N.compare_lt_iff|apply N.compare_gt_iff|
     apply N.compare_eq_iff|apply N.compare_lt_iff|apply N.compare_gt_iff|
     apply N.compare_eq_iff|apply N.compare_lt_iff|apply N.compare_gt_iff|
     apply N.compare_eq_iff|apply N.compare_lt_iff|apply N.compare_gt_iff]; lia.
Qed.

Lemma pad20_length n : u64_ok n → String.length (pad20 n) = 20%nat.
Proof. intros. by rewrite pad20_fixed, fixed_go_length. Qed.
Lemma hex16_length n : u64_ok n → String.length (hex16 n) = 16%nat.
Proof. intros. by rewrite hex16_fixed, fixed_go_length. Qed.

Lemma pad20_compare n m :
  u64_ok n → u64_ok m → String.compare (pad20 n) (pad20 m) = (n ?= m).
Proof.
  intros. rewrite !pad20_fixed by done. apply fixed_compare; [lia|intros; apply digit_char_mono; lia|..];
    unfold u64_ok, u64_max in *; change (10 ^ N.of_nat 20) with 100000000000000000000; lia.
Qed.
Lemma hex16_compare n m :
  u64_ok n → u64_ok m → String.compare (hex16 n) (hex16 m) = (n ?= m).
Proof.
  intros. rewrite !hex16_fixed by done. apply fixed_compare; [lia|intros; apply digit_char_mono; lia|..];
    unfold u64_ok, u64_max in *; change (16 ^ N.of_nat 16) with 18446744073709551616; lia.
Qed.

Lemma pad20_digits n : str_forall is_digit_char (pad20 n) = true.
Proof. by apply zeros_digits, to_radix_digits. Qed.
Lemma hex16_digits n : str_forall is_digit_char (hex16 n) = true.
Proof. by apply zeros_digits, to_radix_digits. Qed.
Lemma dec_digits n : str_forall is_digit_char (dec n) = true.
Proof. by apply to_radix_digits. Qed.

Lemma pad20_inj n m : u64_ok n → u64_ok m → pad20 n = pad20 m → n = m.
Proof. intros ?? E. pose proof (parse_pad20 n ltac:(done)) as Hp. rewrite E, parse_pad20 in Hp by done. congruence. Qed.
Lemma hex16_inj n m : u64_ok n → u64_ok m → hex16 n = hex16 m → n = m.
Proof. intros ?? E. pose proof (parse_hex16 n ltac:(done)) as Hp. rewrite E, parse_hex16 in Hp by done. congruence. Qed.
Lemma dec_inj n m : u64_ok n → u64_ok m → dec n = dec m → n = m.
Proof. intros ?? E. pose proof (parse_dec n ltac:(done)) as Hp. rewrite E, parse_dec in Hp by done. congruence. Qed.

Lemma str_forall_free P sep s : P sep = false → str_forall P s = true → free_of sep s = true.
Proof.
  intros HP. apply str_forall_mono. intros c Hc. unfold not_char.
  apply negb_true_iff, bool_decide_eq_false. congruence.
Qed.
Lemma digits_free sep s :
  is_digit_char sep = false → str_forall is_digit_char s = true → free_of sep s = true.
Proof. apply str_forall_free. Qed.

(** * Big-endian words *)

Lemma to_be_bytes_length n : String.length (to_be_bytes n) = 8%nat.
Proof. unfold to_be_bytes. by rewrite be_go_fixed, fixed_go_length. Qed.

Lemma from_be_fixed a k n acc :
  n < 256 ^ N.of_nat k →
  from_be a (fixed_go ascii_of_N 256 k n acc) = from_be (a * 256 ^ N.of_nat k + n) acc.
Proof.
  revert n acc; induction k as [|k IH]; intros n acc Hn.
  { cbn in *. f_equal. lia. }
  rewrite Nat2N.inj_succ, N.pow_succ_r' in Hn |- *. cbn [fixed_go].
  rewrite IH by (by apply N.Div0.div_lt_upper_bound). cbn [from_be].
  rewrite byte_of_ascii by (apply N.mod_upper_bound; lia).
  f_equal. pose proof (N.div_mod n 256 ltac:(lia)). lia.
Qed.

Lemma from_to_be_bytes n : u64_ok n → from_be_bytes (to_be_bytes n) = n.
Proof.
  intros Hn. unfold from_be_bytes, to_be_bytes. rewrite be_go_fixed, from_be_fixed; [cbn; lia|].
  unfold u64_ok, u64_max in *. change (256 ^ N.of_nat 8) with 18446744073709551616. lia.
Qed.

Lemma to_be_bytes_inj n m : u64_ok n → u64_ok m → to_be_bytes n = to_be_bytes m → n = m.
Proof.
  intros Hn Hm E. apply (f_equal from_be_bytes) in E. by rewrite !from_to_be_bytes in E.
Qed.

Lemma take_str_app k a b : String.length a = k → take_str k (a +:+ b) = Some (a, b).
Proof.
  revert a; induction k as [|k IH]; intros [|c a]; try done.
  rewrite app_cons. cbn. intros [= Hl]. by rewrite (IH a Hl).
Qed.

Fixpoint concat_str (l : list string) : string :=
  match l with [] => "" | s :: l' => s +:+ concat_str l' end.

Lemma concat_str_length k l :
  Forall (λ s, String.length s = k) l → String.length (concat_str l) = (k * length l)%nat.
Proof.
  induction l as [|s l IH]; cbn; [lia|]. intros [Hs Hl]%Forall_cons.
  rewrite length_app_str, IH, Hs by done. lia.
Qed.

Lemma chunks_exact_go_concat fuel k l :
  (0 < k)%nat → (length l ≤ fuel)%nat → Forall (λ s, String.length s = k) l →
  chunks_exact_go fuel k (concat_str l) = l.
Proof.
  intros Hk. revert fuel; induction l as [|s l IH]; intros fuel Hf Hl.
  - destruct fuel; [done|]. cbn. destruct k; [lia|done].
  - apply Forall_cons in Hl as [Hs Hl]. destruct fuel as [|fuel]; [cbn in Hf; lia|].
    cbn [chunks_exact_go concat_str]. rewrite take_str_app by done.
    by rewrite IH by (done || cbn in Hf; lia).
Qed.

(** Reading whole chunks back. *)
Lemma chunks_exact_concat k l :
  (0 < k)%nat → Forall (λ s, String.length s = k) l → chunks_exact k (concat_str l) = l.
Proof.
  intros Hk Hl. unfold chunks_exact. apply chunks_exact_go_concat; [done| |done].
  rewrite (concat_str_length k) by done. nia.
Qed.

(** * ASCII is UTF-8 *)

Lemma utf8_check_ascii a s : str_forall is_ascii s = true → utf8_check a (bytes s) = None.
Proof.
  revert a; induction s as [|c s IH]; intros a; [done|]. cbn [str_forall bytes].
  intros [Hc Hs]%andb_prop. cbn [utf8_check]. unfold is_ascii in Hc. rewrite Hc. by apply IH.
Qed.
Lemma ascii_valid_utf8 s : str_forall is_ascii s = true → valid_utf8 s.
Proof. apply utf8_check_ascii. Qed.

Lemma from_utf8_valid s : valid_utf8 s → from_utf8 s = Ok s.
Proof. unfold valid_utf8, from_utf8. by intros ->. Qed.
Lemma from_utf8_ok s t : from_utf8 s = Ok t ↔ t = s ∧ valid_utf8 s.
Proof. unfold valid_utf8, from_utf8. destruct (utf8_check 0 (bytes s)); naive_solver. Qed.

Lemma from_utf8_lossy_valid s : valid_utf8 s → from_utf8_lossy s = s.
Proof.
  unfold valid_utf8, from_utf8_lossy. intros H. destruct s as [|c s]; [done|].
  cbn [String.length lossy_go]. rewrite H. apply of_bytes_bytes.
Qed.

(** Concatenation of valid text is valid: validation reaches the end of the
    first part at a character boundary. *)
Lemma utf8_check_app a l1 l2 :
  utf8_check a l1 = None → utf8_check a (l1 ++ l2) = utf8_check (a + N.of_nat (length l1)) l2.
Proof.
  assert (∀ n, ∀ a l1, (length l1 ≤ n)%nat → utf8_check a l1 = None →
    utf8_check a (l1 ++ l2) = utf8_check (a + N.of_nat (length l1)) l2) as Hgen; [|by eapply Hgen].
  clear a l1. intros n; induction n as [|n IH]; intros a [|b0 r0] Hl H; cbn in Hl; try lia;
    try (cbn; f_equal; lia).
  cbn [app]. cbn [utf8_check] in H |- *.
  destruct r0 as [|b1 [|b2 [|b3 r3]]]; cbn [app] in *; repeat case_match; try discriminate;
    match goal with
    | H : utf8_check ?c ?x = None |- utf8_check ?c ?y = _ =>
        change y with (x ++ l2); rewrite (IH c x) by (cbn in *; first [lia|done]);
        f_equal; cbn [length]; lia
    end.
Qed.

Lemma utf8_check_shift a l : utf8_check a l = None → ∀ b, utf8_check b l = None.
Proof.
  assert (∀ n, ∀ a b l, (length l ≤ n)%nat → utf8_check a l = None → utf8_check b l = None) as Hgen.
  2: { intros. by eapply Hgen. }
  clear a l. intros n; induction n as [|n IH]; intros a b [|b0 r0] Hl; cbn in Hl; try lia; try done.
  cbn [utf8_check]. repeat case_match; try done; intros; (eapply IH; [|done]); cbn in *; lia.
Qed.

Lemma valid_utf8_app a b : valid_utf8 a → valid_utf8 b → valid_utf8 (a +:+ b).
Proof.
  unfold valid_utf8. intros Ha Hb. rewrite bytes_app, utf8_check_app by done.
  by eapply utf8_check_shift.
Qed.

#[export] Hint Resolve pad20_digits hex16_digits dec_digits ascii_valid_utf8 valid_utf8_app : hydra.
