(* ===== verification/Errors.v ===== *)
(** [core/error.rs]: the kernel's error type and its failure taxonomy, and the
    retry predicate of [core/state.rs].  A [slatedb::Error] is seen through the
    [kind()] values the kernel matches on; an object-store error is opaque. *)

From S2P Require Import Prelude.

Local Open Scope N_scope.

(** The kinds of [slatedb::Error::kind] the kernel tells apart. *)
Inductive SlateErrorKind : Type :=
  | SlateTransaction
  | SlateInvalid
  | SlateClosed (fenced : bool)
  | SlateDatabaseMissing
  | SlateOther.

Inductive GraphError : Type :=
  | Slate (kind : SlateErrorKind)
  | ObjectStore (error : string)
  | ConditionalWriteConflict (operation key : string)
  | UnsafeDurabilityConfig (operation reason : string)
  | RoutedWriterConfigMismatch (path node_id : string) (existing requested : N)
  | InvalidKeyComponent (component value : string)
  | CorruptValue (key reason : string)
  | IdempotencyConflict (operation idempotency_key reason : string)
  | ControlMetadataConflict (key : string) (expected_generation actual_generation : option N)
  | RetryExhausted (operation : string) (attempts : N)
  | ControlWatermarkRegression (cell_id field : string) (requested_epoch current_epoch : N)
  | SnapshotAhead (cell_id : string) (read_epoch current_epoch : N)
  | UnknownShard (cell_id : string)
  | GraphScopeMismatch (expected actual : string)
  | GraphScopeAccessDenied (principal action scope : string)
  | WriteRequiresWriter (operation cell_id : string)
  | NotCellWriter (cell_id : string) (owner : option string)
  | RoutingUnavailable (reason : string)
  | ReadOnlyShardStorage
  | CellDropped (operation cell_id : string)
  | SnapshotExpired (cell_id edge_type : string) (read_epoch min_epoch : N)
  | SnapshotChanged (operation cell_id edge_type : string) (read_epoch current_epoch : N)
  | QueryStatsSnapshotChanged (operation cell_id : string) (read_epoch current_epoch : N)
  | AdmissionRejected (operation : string) (actual limit : N)
  | SparseKernel (backend reason : string)
  | QueryParse (dialect reason : string)
  | MissingQueryParameter (dialect name : string)
  | QueryTimeout (operation : string) (elapsed_ms limit_ms : N)
  | UnsupportedQuery (dialect feature : string).

Global Instance SlateErrorKind_eq_dec : EqDecision SlateErrorKind.
Proof. solve_decision. Defined.
Global Instance GraphError_eq_dec : EqDecision GraphError.
Proof. solve_decision. Defined.

(** [pub type Result<T> = std::result::Result<T, GraphError>]. *)
Abbreviation Result := (result GraphError).

Definition CLASSES : list string :=
  ["contention"; "fencing"; "routing"; "freshness"; "admission"; "timeout"; "query"; "authz";
   "corruption"; "config"; "storage"; "kernel"].
Definition CLASS_COUNT : nat := length CLASSES.

Definition CLASS_CONTENTION : nat := 0.
Definition CLASS_FENCING : nat := 1.
Definition CLASS_ROUTING : nat := 2.
Definition CLASS_FRESHNESS : nat := 3.
Definition CLASS_ADMISSION : nat := 4.
Definition CLASS_TIMEOUT : nat := 5.
Definition CLASS_QUERY : nat := 6.
Definition CLASS_AUTHZ : nat := 7.
Definition CLASS_CORRUPTION : nat := 8.
Definition CLASS_CONFIG : nat := 9.
Definition CLASS_STORAGE : nat := 10.
Definition CLASS_KERNEL : nat := 11.

(** [GraphError::class_index]. *)
Definition class_index (e : GraphError) : nat :=
  match e with
  | ConditionalWriteConflict _ _ | IdempotencyConflict _ _ _
  | ControlMetadataConflict _ _ _ | RetryExhausted _ _ => CLASS_CONTENTION
  | WriteRequiresWriter _ _ | CellDropped _ _ => CLASS_FENCING
  | NotCellWriter _ _ | UnknownShard _ | RoutingUnavailable _ => CLASS_ROUTING
  | SnapshotAhead _ _ _ | SnapshotExpired _ _ _ _ | SnapshotChanged _ _ _ _ _
  | QueryStatsSnapshotChanged _ _ _ _ | ControlWatermarkRegression _ _ _ _ => CLASS_FRESHNESS
  | AdmissionRejected _ _ _ => CLASS_ADMISSION
  | QueryTimeout _ _ _ => CLASS_TIMEOUT
  | QueryParse _ _ | UnsupportedQuery _ _ | MissingQueryParameter _ _ => CLASS_QUERY
  | GraphScopeMismatch _ _ | GraphScopeAccessDenied _ _ _ => CLASS_AUTHZ
  | CorruptValue _ _ | InvalidKeyComponent _ _ => CLASS_CORRUPTION
  | UnsafeDurabilityConfig _ _ | RoutedWriterConfigMismatch _ _ _ _
  | ReadOnlyShardStorage => CLASS_CONFIG
  | Slate (SlateClosed true) => CLASS_FENCING
  | Slate _ | ObjectStore _ => CLASS_STORAGE
  | SparseKernel _ _ => CLASS_KERNEL
  end.

(** [GraphError::class]; an index out of range would panic, hence the option. *)
Definition class (e : GraphError) : option string := CLASSES !! class_index e.

(** [core/state.rs: is_retryable_write_conflict]. *)
Definition is_retryable_write_conflict (e : GraphError) : bool :=
  match e with
  | Slate SlateTransaction | Slate SlateInvalid => true
  | _ => false
  end.

(** ** The taxonomy *)

Lemma class_index_lt (e : GraphError) : (class_index e < CLASS_COUNT)%nat.
Proof. destruct e as [[| |[]| |]| | | | | | | | | | | | | | | | | | | | | | | | | | | |]; vm_compute; lia. Qed.

Lemma class_total (e : GraphError) : ∃ c, class e = Some c.
Proof. apply lookup_lt_is_Some, class_index_lt. Qed.

Lemma retryable_slate e :
  is_retryable_write_conflict e = true → e = Slate SlateTransaction ∨ e = Slate SlateInvalid.
Proof. destruct e as [[]| | | | | | | | | | | | | | | | | | | | | | | | | | | |]; cbn; naive_solver. Qed.

Lemma retryable_not_corrupt k r : is_retryable_write_conflict (CorruptValue k r) = false.
Proof. done. Qed.
#[export] Hint Resolve class_index_lt : hydra.
