(* ===== verification/Model.v ===== *)
(** [core/model.rs]: the kernel's data types.  An [f64] is its bit pattern; a
    [BTreeSet] and a [BTreeMap] are a [gset] and a [gmap] that the code reads in
    ascending order. *)

From S2P Require Import Prelude Text Errors.

Local Open Scope N_scope.

Abbreviation VertexId := N.
Abbreviation StorageSequence := N.
Abbreviation RelationshipId := N.

Record EdgeMutation := {
  em_cell_id : string; em_edge_type : string; em_src : VertexId; em_dst : VertexId;
  em_idempotency_key : string }.

Record EdgeRecord := MkEdgeRecord {
  er_cell_id : string; er_edge_type : string; er_src : VertexId; er_dst : VertexId }.

(** [QueryFloat(f64)]: equality is equality of bit patterns. *)
Record QueryFloat := MkQueryFloat { qf_bits : N }.

Inductive VertexPropertyValue : Type :=
  | Integer (v : N)
  | SignedInteger (v : Z)
  | PBool (b : bool)
  | Float (f : QueryFloat)
  | PString (s : string).

Global Instance QueryFloat_eq_dec : EqDecision QueryFloat.
Proof. solve_decision. Defined.
Global Instance VertexPropertyValue_eq_dec : EqDecision VertexPropertyValue.
Proof. solve_decision. Defined.

(** [u64::try_from(i64)] succeeds on the non-negative values. *)
Definition from_i64 (value : Z) : VertexPropertyValue :=
  if (value <? 0)%Z then SignedInteger value else Integer (Z.to_N value).

(** [f64::total_cmp]: the bits as a signed integer, the low 63 flipped when the
    sign bit is set. *)
Definition i64_of_bits (b : N) : Z :=
  if b <? 9223372036854775808 then Z.of_N b else (Z.of_N b - 18446744073709551616)%Z.
Definition total_key (b : N) : Z :=
  if b <? 9223372036854775808 then i64_of_bits b
  else i64_of_bits (N.lxor b 9223372036854775807).
Definition total_cmp (a b : QueryFloat) : comparison :=
  (total_key (qf_bits a) ?= total_key (qf_bits b))%Z.

Record VertexMetadata := MkVertexMetadata {
  vm_labels : gset string;
  vm_properties : gmap string VertexPropertyValue }.

Record EdgeMetadata := MkEdgeMetadata { emd_properties : gmap string VertexPropertyValue }.

Definition VertexMetadata_default : VertexMetadata := MkVertexMetadata ∅ ∅.
Definition EdgeMetadata_default : EdgeMetadata := MkEdgeMetadata ∅.

Global Instance VertexMetadata_eq_dec : EqDecision VertexMetadata.
Proof. solve_decision. Defined.
Global Instance EdgeMetadata_eq_dec : EqDecision EdgeMetadata.
Proof. solve_decision. Defined.

(** [EdgeMetadata::with_property], [VertexMetadata::with_label] and
    [VertexMetadata::with_property]. *)
Definition edge_with_property (m : EdgeMetadata) (name : string) (v : VertexPropertyValue) : EdgeMetadata :=
  MkEdgeMetadata (<[name := v]> (emd_properties m)).
Definition vertex_with_label (m : VertexMetadata) (label : string) : VertexMetadata :=
  MkVertexMetadata ({[label]} ∪ vm_labels m) (vm_properties m).
Definition vertex_with_property (m : VertexMetadata) (name : string) (v : VertexPropertyValue) : VertexMetadata :=
  MkVertexMetadata (vm_labels m) (<[name := v]> (vm_properties m)).

Record RelationshipMutation := {
  rm_cell_id : string; rm_edge_type : string; rm_src : VertexId; rm_dst : VertexId;
  rm_relationship_id : RelationshipId; rm_metadata : EdgeMetadata }.

Record RelationshipRecord := MkRelationshipRecord {
  rr_cell_id : string; rr_edge_type : string; rr_src : VertexId; rr_dst : VertexId;
  rr_relationship_id : RelationshipId; rr_metadata : EdgeMetadata }.

Record OutEdgeSegment := MkOutEdgeSegment {
  oes_cell_id : string; oes_edge_type : string; oes_src : VertexId;
  oes_storage_sequence : StorageSequence; oes_destinations : list VertexId }.

Record CommitResult := MkCommitResult { cr_epoch : StorageSequence; cr_already_existed : bool }.
Record DeleteResult := MkDeleteResult { dr_epoch : StorageSequence; dr_deleted : bool }.

Record RelationshipCreateResult := MkRelationshipCreateResult {
  rcr_epoch : StorageSequence; rcr_relationship_id : RelationshipId;
  rcr_structural_edge_inserted : bool; rcr_already_created : bool }.

Record EdgeDeleteBatchResult := MkEdgeDeleteBatchResult {
  edb_start_epoch : StorageSequence; edb_end_epoch : StorageSequence;
  edb_deleted : N; edb_already_deleted : N; edb_results : list DeleteResult }.

Record VertexDeleteResult := MkVertexDeleteResult {
  vdr_epoch : StorageSequence; vdr_vertex_deleted : bool;
  vdr_incident_edges_deleted : N; vdr_relationships_deleted : N }.

Record SegmentCompactionResult := MkSegmentCompactionResult {
  scr_compacted_through_epoch : StorageSequence; scr_source_segments : N;
  scr_deleted_segment_keys : N; scr_deleted_tombstone_keys : N;
  scr_input_edges : N; scr_output_edges : N }.

Record GraphCellDropResult := MkGraphCellDropResult {
  gcd_marker_epoch : StorageSequence; gcd_deleted_keys : N; gcd_batches : N;
  gcd_already_dropped : bool }.

(** [query/algebra.rs: QueryStatsRecord]. *)
Record QueryStatsRecord := MkQueryStatsRecord {
  qs_count : N; qs_read_epoch : StorageSequence; qs_refreshed_at_ms : N;
  qs_distinct_values : N; qs_total_values : N; qs_most_common_count : N }.
Definition point_count (count read_epoch refreshed_at_ms : N) : QueryStatsRecord :=
  MkQueryStatsRecord count read_epoch refreshed_at_ms 1 count count.

Record BulkImportResult := MkBulkImportResult {
  bir_start_epoch : StorageSequence; bir_end_epoch : StorageSequence;
  bir_inserted : N; bir_already_existed : N }.

Record RelationshipImportResult := MkRelationshipImportResult {
  rir_start_epoch : StorageSequence; rir_end_epoch : StorageSequence;
  rir_relationships_inserted : N; rir_relationships_already_existed : N;
  rir_structural_edges_inserted : N; rir_structural_edges_already_existed : N }.

Record EdgeMutationBatchResult := MkEdgeMutationBatchResult {
  emb_start_epoch : StorageSequence; emb_end_epoch : StorageSequence;
  emb_inserted : N; emb_already_existed : N; emb_results : list CommitResult }.

Record EdgeIngestResult := MkEdgeIngestResult {
  eir_start_epoch : StorageSequence; eir_end_epoch : StorageSequence;
  eir_inserted : N; eir_already_existed : N; eir_batches : N; eir_mutations : N }.

Inductive BulkImportDuplicatePolicy : Type := CheckExisting | TrustNoExisting.
Definition check_existing (p : BulkImportDuplicatePolicy) : bool :=
  match p with CheckExisting => true | TrustNoExisting => false end.

(** A property value of the width the code stores. *)
Definition value_ok (v : VertexPropertyValue) : Prop :=
  match v with
  | Integer n => u64_ok n
  | SignedInteger z => i64_ok z
  | PBool _ => True
  | Float f => u64_ok (qf_bits f)
  | PString s => valid_utf8 s
  end.

Lemma from_i64_neg z : (z < 0)%Z → from_i64 z = SignedInteger z.
Proof. unfold from_i64. intros H. by rewrite (proj2 (Z.ltb_lt _ _) H). Qed.
Lemma from_i64_nonneg z : (0 ≤ z)%Z → from_i64 z = Integer (Z.to_N z).
Proof. unfold from_i64. intros H. by rewrite (proj2 (Z.ltb_ge _ _) H). Qed.

Lemma vertex_metadata_eq a b :
  vm_labels a = vm_labels b → vm_properties a = vm_properties b → a = b.
Proof. destruct a, b; cbn; intros -> ->; done. Qed.
