(* ===== verification/Namespace.v ===== *)
(** [codec.rs: validate_component] and [core/namespace.rs]: the names a key may be
    built from, namespace paths, graph scopes and the object-store path of a
    graph. *)

From S2P Require Import Prelude Text TextFacts Errors.
From Stdlib Require Import Ascii.

Local Open Scope N_scope.

(** * Key components *)

(** The byte test of [validate_component]. *)
Definition component_char (c : ascii) : bool :=
  is_ascii_alphanumeric c || bool_decide (c = "_"%char) || bool_decide (c = "-"%char)
  || bool_decide (c = "."%char).

Definition component_ok (value : string) : bool :=
  negb (bool_decide (value = "")) && str_forall component_char value.

Definition validate_component (component value : string) : Result unit :=
  if component_ok value then Ok tt else Err (InvalidKeyComponent component value).

(** * Namespaces *)

Definition DEFAULT_NAMESPACE_ID : string := "default".
Definition DEFAULT_GRAPH_ID : string := "default".
Definition MAX_NAMESPACE_DEPTH : nat := 8.

Record NamespaceId := MkNamespaceId { ns_str : string }.
Record GraphId := MkGraphId { gid_str : string }.
Record NamespacePath := MkNamespacePath { segments : list NamespaceId }.
Record GraphScope := MkGraphScope { gs_namespace : NamespacePath; gs_graph_id : GraphId }.

Global Instance NamespaceId_eq_dec : EqDecision NamespaceId.
Proof. solve_decision. Defined.
Global Instance GraphId_eq_dec : EqDecision GraphId.
Proof. solve_decision. Defined.
Global Instance NamespacePath_eq_dec : EqDecision NamespacePath.
Proof. solve_decision. Defined.
Global Instance GraphScope_eq_dec : EqDecision GraphScope.
Proof. solve_decision. Defined.

Definition NamespaceId_new (value : string) : Result NamespaceId :=
  _ ← validate_component "namespace_id" value; mret (MkNamespaceId value).
Definition GraphId_new (value : string) : Result GraphId :=
  _ ← validate_component "graph_id" value; mret (MkGraphId value).

Definition NamespacePath_root (n : NamespaceId) : NamespacePath := MkNamespacePath [n].

Definition NamespacePath_new (segs : list NamespaceId) : Result NamespacePath :=
  match segs with
  | [] => Err (CorruptValue "namespace_path" "namespace path must contain a tenant namespace")
  | _ =>
      if (MAX_NAMESPACE_DEPTH <? length segs)%nat
      then Err (AdmissionRejected "namespace_depth" (N.of_nat (length segs))
                  (N.of_nat MAX_NAMESPACE_DEPTH))
      else Ok (MkNamespacePath segs)
  end.

Definition NamespacePath_child (p : NamespacePath) (n : NamespaceId) : Result NamespacePath :=
  NamespacePath_new (segments p ++ [n]).

(** [self.segments[0]] and [last().expect(..)]: [None] is the panic. *)
Definition tenant_id (p : NamespacePath) : option NamespaceId := head (segments p).
Definition leaf (p : NamespacePath) : option NamespaceId := last (segments p).
Definition depth (p : NamespacePath) : nat := length (segments p).

Definition ancestors_inclusive (p : NamespacePath) : list NamespacePath :=
  (λ len, MkNamespacePath (take len (segments p))) <$> seq 1 (length (segments p)).

(** [slice::starts_with]. *)
Fixpoint list_starts_with (l k : list NamespaceId) : bool :=
  match k, l with
  | [], _ => true
  | y :: k', x :: l' => bool_decide (x = y) && list_starts_with l' k'
  | _, [] => false
  end.
Definition is_descendant_of (p ancestor : NamespacePath) : bool :=
  list_starts_with (segments p) (segments ancestor).

(** [NamespacePath::storage_suffix]; [segments[0]] of an empty path panics. *)
Definition storage_suffix (p : NamespacePath) : option string :=
  match segments p with
  | [] => None
  | s :: rest =>
      Some (foldl (λ suffix seg, suffix +:+ "/subnamespaces/" +:+ ns_str seg)
              ("namespaces/" +:+ ns_str s) rest)
  end.

Definition NamespacePath_display (p : NamespacePath) : string :=
  join chr_slash (ns_str <$> segments p).

Definition NamespaceId_default : NamespaceId := MkNamespaceId DEFAULT_NAMESPACE_ID.
Definition GraphId_default : GraphId := MkGraphId DEFAULT_GRAPH_ID.
Definition NamespacePath_default : NamespacePath := NamespacePath_root NamespaceId_default.
Definition GraphScope_new (n : NamespacePath) (g : GraphId) : GraphScope := MkGraphScope n g.
Definition GraphScope_tenant (n : NamespaceId) (g : GraphId) : GraphScope :=
  GraphScope_new (NamespacePath_root n) g.
Definition GraphScope_default : GraphScope := GraphScope_new NamespacePath_default GraphId_default.
Definition is_default (s : GraphScope) : bool := bool_decide (s = GraphScope_default).

Definition scoped_store_path (s : GraphScope) (base_path : string) : option string :=
  let base := trim_end_matches chr_slash base_path in
  suffix ← storage_suffix (gs_namespace s);
  let scoped := suffix +:+ "/graphs/" +:+ gid_str (gs_graph_id s) in
  Some (if bool_decide (base = "") then scoped else base +:+ "/" +:+ scoped).

Definition GraphScope_display (s : GraphScope) : string :=
  NamespacePath_display (gs_namespace s) +:+ "/graphs/" +:+ gid_str (gs_graph_id s).

(** * Components *)

Lemma validate_component_ok c v : validate_component c v = Ok tt ↔ component_ok v = true.
Proof. unfold validate_component. destruct (component_ok v); naive_solver. Qed.
Lemma validate_component_ok' c v u : validate_component c v = Ok u ↔ component_ok v = true.
Proof. destruct u. apply validate_component_ok. Qed.

Lemma component_ok_nonempty v : component_ok v = true → v ≠ "".
Proof. unfold component_ok. intros [H _]%andb_prop. by apply negb_true_iff, bool_decide_eq_false in H. Qed.

Lemma component_ok_chars v : component_ok v = true → str_forall component_char v = true.
Proof. unfold component_ok. by intros [_ H]%andb_prop. Qed.

Lemma component_ok_free sep v :
  component_char sep = false → component_ok v = true → free_of sep v = true.
Proof. intros Hs Hv. eapply str_forall_free; [exact Hs|]. by apply component_ok_chars. Qed.

Lemma component_ok_slash v : component_ok v = true → free_of chr_slash v = true.
Proof. by apply component_ok_free. Qed.

Lemma component_char_ascii c : component_char c = true → is_ascii c = true.
Proof. destruct c as [[] [] [] [] [] [] [] []]; cbv; try done; intros H; discriminate H. Qed.

Lemma component_ok_ascii v : component_ok v = true → str_forall is_ascii v = true.
Proof. intros H. eapply str_forall_mono; [apply component_char_ascii|by apply component_ok_chars]. Qed.

Lemma component_ok_utf8 v : component_ok v = true → valid_utf8 v.
Proof. intros. by apply ascii_valid_utf8, component_ok_ascii. Qed.

#[export] Hint Resolve component_ok_slash component_ok_ascii component_ok_utf8 : hydra.

(** * Paths *)

(** A scope all of whose names passed [validate_component]: what the
    constructors can build. *)
Definition path_wf (p : NamespacePath) : Prop :=
  segments p ≠ [] ∧ (length (segments p) ≤ MAX_NAMESPACE_DEPTH)%nat ∧
  Forall (λ n, component_ok (ns_str n) = true) (segments p).
Definition scope_wf (s : GraphScope) : Prop :=
  path_wf (gs_namespace s) ∧ component_ok (gid_str (gs_graph_id s)) = true.

Lemma NamespacePath_new_ok segs p :
  NamespacePath_new segs = Ok p ↔
  segs ≠ [] ∧ (length segs ≤ MAX_NAMESPACE_DEPTH)%nat ∧ p = MkNamespacePath segs.
Proof.
  unfold NamespacePath_new. destruct segs as [|s segs]; [naive_solver|].
  destruct (_ <? _)%nat eqn:E; [apply Nat.ltb_lt in E|apply Nat.ltb_ge in E].
  - split; [done|]. intros (_ & H & _). lia.
  - split; [intros [= <-]; done|]. by intros (_ & _ & ->).
Qed.

(** The segment list a storage path spells out. *)
Fixpoint suffix_pieces (rest : list NamespaceId) : list string :=
  match rest with [] => [] | s :: r => "subnamespaces" :: ns_str s :: suffix_pieces r end.

Lemma join_snoc sep l s : l ≠ [] → join sep (l ++ [s]) = join sep l +:+ String sep s.
Proof.
  induction l as [|a l IH]; [done|]. intros _. destruct l as [|b l]; [done|].
  change (join sep ((a :: b :: l) ++ [s])) with (a +:+ String sep (join sep ((b :: l) ++ [s]))).
  rewrite IH by done. change (join sep (a :: b :: l)) with (a +:+ String sep (join sep (b :: l))).
  by rewrite app_assoc, app_cons.
Qed.

Lemma storage_suffix_pieces s rest :
  storage_suffix (MkNamespacePath (s :: rest))
  = Some (join chr_slash ("namespaces" :: ns_str s :: suffix_pieces rest)).
Proof.
  unfold storage_suffix. cbn [segments]. f_equal.
  assert (∀ pre, pre ≠ [] →
    foldl (λ suffix seg, suffix +:+ "/subnamespaces/" +:+ ns_str seg) (join chr_slash pre) rest
    = join chr_slash (pre ++ suffix_pieces rest)) as Hgen.
  { induction rest as [|r rest IH]; intros pre Hpre; [cbn; by rewrite (right_id_L [] (++))|].
    cbn [foldl suffix_pieces].
    replace (join chr_slash pre +:+ "/subnamespaces/" +:+ ns_str r)
      with (join chr_slash ((pre ++ ["subnamespaces"]) ++ [ns_str r])).
    2: { rewrite !join_snoc by (destruct pre; done). by rewrite app_assoc. }
    rewrite IH by (destruct pre; done). by rewrite <- !(assoc_L (++)). }
  apply (Hgen ["namespaces"; ns_str s]). done.
Qed.

Lemma suffix_pieces_inj r1 r2 g1 g2 :
  suffix_pieces r1 ++ ["graphs"; g1] = suffix_pieces r2 ++ ["graphs"; g2] → r1 = r2 ∧ g1 = g2.
Proof.
  revert r2; induction r1 as [|[a] r1 IH]; intros [|[b] r2]; cbn; try (intros E; discriminate E).
  - by intros [= ->].
  - intros [= -> E]. by destruct (IH _ E) as [-> ->].
Qed.

Lemma suffix_pieces_free rest :
  Forall (λ n, component_ok (ns_str n) = true) rest →
  Forall (λ s, free_of chr_slash s = true) (suffix_pieces rest).
Proof. induction 1; cbn; repeat constructor; auto with hydra. Qed.

Lemma scoped_store_path_pieces s rest g base :
  scoped_store_path (MkGraphScope (MkNamespacePath (s :: rest)) g) base
  = Some (let tail := join chr_slash
                ("namespaces" :: ns_str s :: suffix_pieces rest ++ ["graphs"; gid_str g]) in
          let b := trim_end_matches chr_slash base in
          if bool_decide (b = "") then tail else b +:+ String chr_slash tail).
Proof.
  assert (join chr_slash ("namespaces" :: ns_str s :: suffix_pieces rest) +:+ "/graphs/" +:+ gid_str g
    = join chr_slash ("namespaces" :: ns_str s :: suffix_pieces rest ++ ["graphs"; gid_str g])) as Hj.
  { change ("namespaces" :: ns_str s :: suffix_pieces rest ++ ["graphs"; gid_str g])
      with (("namespaces" :: ns_str s :: suffix_pieces rest) ++ ["graphs"] ++ [gid_str g]).
    rewrite (assoc_L (++)), !join_snoc by done. by rewrite app_assoc. }
  unfold scoped_store_path. cbn [gs_namespace gs_graph_id]. rewrite storage_suffix_pieces.
  unfold mbind, option_bind. rewrite Hj. cbv zeta.
  by case_bool_decide.
Qed.

Lemma under_base_inj (b t1 t2 : string) :
  (if bool_decide (b = "") then t1 else b +:+ String chr_slash t1)
  = (if bool_decide (b = "") then t2 else b +:+ String chr_slash t2) → t1 = t2.
Proof.
  case_bool_decide; [done|]. intros E. apply (f_equal (strip_prefix b)) in E.
  rewrite !strip_prefix_app in E. by injection E.
Qed.

(** * Properties *)

(** Two distinct scopes never share an object-store path under one base: what
    keeps one tenant's graph out of another's storage. *)
Theorem scoped_store_path_inj (s1 s2 : GraphScope) (base : string)
    (H1 : scope_wf s1) (H2 : scope_wf s2) :
  is_Some (scoped_store_path s1 base) ∧
  (scoped_store_path s1 base = scoped_store_path s2 base → s1 = s2).
Proof.
  destruct s1 as [[[|a1 r1]] g1], H1 as [(Hne1 & _ & Hc1) Hg1]; [done|].
  destruct s2 as [[[|a2 r2]] g2], H2 as [(Hne2 & _ & Hc2) Hg2]; [done|].
  cbn [segments gs_namespace gs_graph_id] in *.
  rewrite !scoped_store_path_pieces. split; [by eexists|]. intros E.
  apply Forall_cons in Hc1 as [Ha1 Hr1]. apply Forall_cons in Hc2 as [Ha2 Hr2].
  assert (join chr_slash ("namespaces" :: ns_str a1 :: suffix_pieces r1 ++ ["graphs"; gid_str g1])
    = join chr_slash ("namespaces" :: ns_str a2 :: suffix_pieces r2 ++ ["graphs"; gid_str g2])) as E'.
  { cbv zeta in E. apply (inj Some) in E. by apply under_base_inj in E. }
  apply join_inj in E'; [|done|done|..].
  - injection E' as Ea Er. apply suffix_pieces_inj in Er as [-> Eg].
    destruct a1, a2, g1, g2; cbn [ns_str gid_str] in *; subst. done.
  - repeat constructor; [by apply component_ok_slash|]. apply Forall_app_2; [by apply suffix_pieces_free|].
    repeat constructor. by apply component_ok_slash.
  - repeat constructor; [by apply component_ok_slash|]. apply Forall_app_2; [by apply suffix_pieces_free|].
    repeat constructor. by apply component_ok_slash.
Qed.

Lemma scoped_store_path_inj_witness :
  scope_wf GraphScope_default ∧
  scoped_store_path GraphScope_default "s3/bucket/" = Some "s3/bucket/namespaces/default/graphs/default".
Proof.
  assert (scope_wf GraphScope_default) as Hwf.
  { split; [split; [done|split; [cbn; unfold MAX_NAMESPACE_DEPTH; lia|]]|reflexivity].
    repeat constructor. }
  destruct (scoped_store_path_inj _ GraphScope_default "s3/bucket/" Hwf Hwf) as [_ _].
  split; [exact Hwf|reflexivity].
Defined.

Lemma list_starts_with_spec l k : list_starts_with l k = true ↔ ∃ r, l = k ++ r.
Proof.
  revert l; induction k as [|y k IH]; intros l; [destruct l; naive_solver|].
  destruct l as [|x l]; cbn; [naive_solver|].
  rewrite andb_true_iff, bool_decide_eq_true, IH. naive_solver.
Qed.

(** Descent is membership among the inclusive ancestors, which are the
    non-empty prefixes of the path, each a well-formed path of the same tenant. *)
Theorem descendant_iff_ancestor (p a : NamespacePath) (Hp : path_wf p) (Ha : path_wf a) :
  (is_descendant_of p a = true ↔ a ∈ ancestors_inclusive p) ∧
  (∀ q, q ∈ ancestors_inclusive p → path_wf q ∧ tenant_id q = tenant_id p).
Proof.
  destruct p as [l], a as [k], Hp as (Hne & Hlen & Hl), Ha as (Hka & _).
  unfold is_descendant_of, ancestors_inclusive, path_wf, tenant_id, MAX_NAMESPACE_DEPTH in *.
  cbn [segments] in *. split.
  - rewrite list_starts_with_spec, list_elem_of_fmap. split.
    + intros [r ->]. exists (length k). rewrite take_app_length, length_app, elem_of_seq.
      destruct k; [done|]. cbn. split; [done|lia].
    + intros (n & [= ->] & _). exists (drop n l). by rewrite take_drop.
  - intros q (n & -> & Hn%elem_of_seq)%list_elem_of_fmap. cbn [segments].
    destruct l as [|x l]; [done|]. destruct n as [|n]; [lia|]. cbn [take head].
    split; [|done]. split; [done|split].
    + cbn in *. rewrite length_take. lia.
    + change (x :: take n l) with (take (S n) (x :: l)). by apply Forall_take.
Qed.

Lemma descendant_iff_ancestor_witness :
  is_descendant_of (MkNamespacePath [MkNamespaceId "a"; MkNamespaceId "b"])
    (MkNamespacePath [MkNamespaceId "a"]) = true ∧
  MkNamespacePath [MkNamespaceId "a"] ∈
    ancestors_inclusive (MkNamespacePath [MkNamespaceId "a"; MkNamespaceId "b"]).
Proof.
  split; [reflexivity|].
  apply (descendant_iff_ancestor (MkNamespacePath [MkNamespaceId "a"; MkNamespaceId "b"])
    (MkNamespacePath [MkNamespaceId "a"])); [| |reflexivity];
    (split; [done|split; [cbn; unfold MAX_NAMESPACE_DEPTH; lia|repeat constructor]]).
Defined.
