(* ===== verification/Keys.v ===== *)
(** [keys.rs]: the storage key of every record and index the kernel keeps, and
    the prefixes its scans use.  One function per function of the file, under the
    source's names. *)

From S2P Require Import Prelude Text Model.

Module keys.

Definition cell_prefix (cell_id : string) : string :=
  "cell/" +:+ cell_id +:+ "/".
Definition cell_drop_marker (cell_id : string) : string :=
  "graph/drop/cell/" +:+ cell_id.
Definition cell_drop_pending_marker (cell_id : string) : string :=
  "graph/drop/pending/" +:+ cell_id.
Definition cell_drop_idempotency (cell_id idempotency_key : string) : string :=
  "graph/drop/idem/" +:+ cell_id +:+ "/" +:+ idempotency_key.
Definition last_relationship_id (cell_id : string) : string :=
  "cell/" +:+ cell_id +:+ "/meta/last_relationship_id".
Definition matrix_dirty_prefix (cell_id : string) : string :=
  "cell/" +:+ cell_id +:+ "/meta/matrix_dirty/".
Definition matrix_dirty (cell_id edge_type : string) : string :=
  matrix_dirty_prefix cell_id +:+ edge_type.
Definition adjacency_generation (cell_id edge_type : string) : string :=
  "cell/" +:+ cell_id +:+ "/meta/adjacency_generation/" +:+ edge_type.
Definition xlog_entry (cell_id edge_type : string) (sequence : StorageSequence) (src dst : VertexId) : string :=
  "cell/" +:+ cell_id +:+ "/xlog/" +:+ edge_type +:+ "/" +:+ pad20 sequence +:+ "/" +:+
    pad20 src +:+ "/" +:+ pad20 dst.
Definition xlog_type_prefix (cell_id edge_type : string) : string :=
  "cell/" +:+ cell_id +:+ "/xlog/" +:+ edge_type +:+ "/".
Definition xlog_low_water (cell_id edge_type : string) : string :=
  "cell/" +:+ cell_id +:+ "/meta/xlog_low/" +:+ edge_type.
Definition idempotency (cell_id operation idempotency_key : string) : string :=
  "cell/" +:+ cell_id +:+ "/idem/" +:+ operation +:+ "/" +:+ idempotency_key.
Definition edge (cell_id edge_type : string) (src dst : VertexId) : string :=
  "cell/" +:+ cell_id +:+ "/edge/" +:+ edge_type +:+ "/" +:+ pad20 src +:+ "/" +:+ pad20 dst.
Definition out_edge (cell_id edge_type : string) (src dst : VertexId) : string :=
  "cell/" +:+ cell_id +:+ "/e/out/" +:+ edge_type +:+ "/" +:+ pad20 src +:+ "/" +:+ pad20 dst.
Definition in_edge (cell_id edge_type : string) (dst src : VertexId) : string :=
  "cell/" +:+ cell_id +:+ "/e/in/" +:+ edge_type +:+ "/" +:+ pad20 dst +:+ "/" +:+ pad20 src.
Definition out_edge_type_prefix (cell_id edge_type : string) : string :=
  "cell/" +:+ cell_id +:+ "/e/out/" +:+ edge_type +:+ "/".
Definition out_edge_cell_prefix (cell_id : string) : string :=
  "cell/" +:+ cell_id +:+ "/e/out/".
Definition in_edge_type_prefix (cell_id edge_type : string) : string :=
  "cell/" +:+ cell_id +:+ "/e/in/" +:+ edge_type +:+ "/".
Definition out_prefix (cell_id edge_type : string) (src : VertexId) : string :=
  "cell/" +:+ cell_id +:+ "/e/out/" +:+ edge_type +:+ "/" +:+ pad20 src +:+ "/".
Definition out_segment (cell_id edge_type : string) (src : VertexId) (storage_sequence : StorageSequence) (segment_id : string) : string :=
  "cell/" +:+ cell_id +:+ "/seg/out/" +:+ edge_type +:+ "/" +:+ pad20 src +:+ "/" +:+
    pad20 storage_sequence +:+ "/" +:+ segment_id.
Definition out_segment_edge_type_prefix (cell_id edge_type : string) : string :=
  "cell/" +:+ cell_id +:+ "/seg/out/" +:+ edge_type +:+ "/".
Definition out_segment_cell_prefix (cell_id : string) : string :=
  "cell/" +:+ cell_id +:+ "/seg/out/".
Definition out_segment_src_prefix (cell_id edge_type : string) (src : VertexId) : string :=
  "cell/" +:+ cell_id +:+ "/seg/out/" +:+ edge_type +:+ "/" +:+ pad20 src +:+ "/".
Definition out_segment_tombstone (cell_id edge_type : string) (src dst : VertexId) : string :=
  "cell/" +:+ cell_id +:+ "/seg/tomb/out/" +:+ edge_type +:+ "/" +:+ pad20 src +:+ "/" +:+ pad20 dst.
Definition out_segment_tombstone_edge_type_prefix (cell_id edge_type : string) : string :=
  "cell/" +:+ cell_id +:+ "/seg/tomb/out/" +:+ edge_type +:+ "/".
Definition out_segment_tombstone_src_prefix (cell_id edge_type : string) (src : VertexId) : string :=
  "cell/" +:+ cell_id +:+ "/seg/tomb/out/" +:+ edge_type +:+ "/" +:+ pad20 src +:+ "/".
Definition in_prefix (cell_id edge_type : string) (dst : VertexId) : string :=
  "cell/" +:+ cell_id +:+ "/e/in/" +:+ edge_type +:+ "/" +:+ pad20 dst +:+ "/".
Definition edge_metadata (cell_id edge_type : string) (src dst : VertexId) : string :=
  "cell/" +:+ cell_id +:+ "/emeta/" +:+ edge_type +:+ "/" +:+ pad20 src +:+ "/" +:+ pad20 dst.
Definition relationship (cell_id edge_type : string) (src dst : VertexId) (relationship_id : RelationshipId) : string :=
  "cell/" +:+ cell_id +:+ "/rel/" +:+ edge_type +:+ "/" +:+ pad20 src +:+ "/" +:+ pad20 dst +:+
    "/" +:+ pad20 relationship_id.
Definition relationship_edge_prefix (cell_id edge_type : string) (src dst : VertexId) : string :=
  "cell/" +:+ cell_id +:+ "/rel/" +:+ edge_type +:+ "/" +:+ pad20 src +:+ "/" +:+ pad20 dst +:+ "/".
Definition relationship_cell_prefix (cell_id : string) : string :=
  "cell/" +:+ cell_id +:+ "/rel/".
Definition relationship_source_prefix (cell_id edge_type : string) (src : VertexId) : string :=
  "cell/" +:+ cell_id +:+ "/rel/" +:+ edge_type +:+ "/" +:+ pad20 src +:+ "/".
Definition relationship_id (cell_id : string) (relationship_id : RelationshipId) : string :=
  "cell/" +:+ cell_id +:+ "/rel_id/" +:+ pad20 relationship_id.
Definition relationship_count (cell_id edge_type : string) (src dst : VertexId) : string :=
  "cell/" +:+ cell_id +:+ "/rel_count/" +:+ edge_type +:+ "/" +:+ pad20 src +:+ "/" +:+ pad20 dst.
Definition degree_out_prefix (cell_id edge_type : string) : string :=
  "cell/" +:+ cell_id +:+ "/cnt/out/" +:+ edge_type +:+ "/".
Definition degree_in_prefix (cell_id edge_type : string) : string :=
  "cell/" +:+ cell_id +:+ "/cnt/in/" +:+ edge_type +:+ "/".
Definition degree_out (cell_id edge_type : string) (src : VertexId) : string :=
  "cell/" +:+ cell_id +:+ "/cnt/out/" +:+ edge_type +:+ "/" +:+ pad20 src.
Definition degree_in (cell_id edge_type : string) (dst : VertexId) : string :=
  "cell/" +:+ cell_id +:+ "/cnt/in/" +:+ edge_type +:+ "/" +:+ pad20 dst.
Definition vertex (cell_id : string) (vertex_id : VertexId) : string :=
  "cell/" +:+ cell_id +:+ "/vertex/" +:+ pad20 vertex_id.
Definition vertex_label (cell_id label : string) (vertex_id : VertexId) : string :=
  "cell/" +:+ cell_id +:+ "/vlabel/" +:+ label +:+ "/" +:+ pad20 vertex_id.
Definition vertex_label_prefix (cell_id label : string) : string :=
  "cell/" +:+ cell_id +:+ "/vlabel/" +:+ label +:+ "/".
Definition vertex_property_index (cell_id property encoded_value : string) (vertex_id : VertexId) : string :=
  "cell/" +:+ cell_id +:+ "/vprop_idx/" +:+ property +:+ "/" +:+ encoded_value +:+ "/" +:+
    pad20 vertex_id.
Definition vertex_property_index_prefix (cell_id property encoded_value : string) : string :=
  "cell/" +:+ cell_id +:+ "/vprop_idx/" +:+ property +:+ "/" +:+ encoded_value +:+ "/".
Definition vertex_property_index_property_prefix (cell_id property : string) : string :=
  "cell/" +:+ cell_id +:+ "/vprop_idx/" +:+ property +:+ "/".
Definition edge_property_index (cell_id edge_type property encoded_value : string) (src dst : VertexId) : string :=
  "cell/" +:+ cell_id +:+ "/eprop_idx/" +:+ edge_type +:+ "/" +:+ property +:+ "/" +:+
    encoded_value +:+ "/" +:+ pad20 src +:+ "/" +:+ pad20 dst.
Definition relationship_property_index (cell_id edge_type property encoded_value : string) (src dst : VertexId) (relationship_id : RelationshipId) : string :=
  "cell/" +:+ cell_id +:+ "/rprop_idx/" +:+ edge_type +:+ "/" +:+ property +:+ "/" +:+
    encoded_value +:+ "/" +:+ pad20 src +:+ "/" +:+ pad20 dst +:+ "/" +:+ pad20 relationship_id.
Definition relationship_property_index_prefix (cell_id edge_type property encoded_value : string) : string :=
  "cell/" +:+ cell_id +:+ "/rprop_idx/" +:+ edge_type +:+ "/" +:+ property +:+ "/" +:+
    encoded_value +:+ "/".
Definition relationship_property_index_edge_prefix (cell_id edge_type property encoded_value : string) (src dst : VertexId) : string :=
  "cell/" +:+ cell_id +:+ "/rprop_idx/" +:+ edge_type +:+ "/" +:+ property +:+ "/" +:+
    encoded_value +:+ "/" +:+ pad20 src +:+ "/" +:+ pad20 dst +:+ "/".
Definition edge_property_index_prefix (cell_id edge_type property encoded_value : string) : string :=
  "cell/" +:+ cell_id +:+ "/eprop_idx/" +:+ edge_type +:+ "/" +:+ property +:+ "/" +:+
    encoded_value +:+ "/".
Definition edge_property_index_property_prefix (cell_id edge_type property : string) : string :=
  "cell/" +:+ cell_id +:+ "/eprop_idx/" +:+ edge_type +:+ "/" +:+ property +:+ "/".
Definition query_stats_edge_type (cell_id edge_type : string) : string :=
  "cell/" +:+ cell_id +:+ "/qstats/edge_type/" +:+ edge_type.
Definition query_stats_vertex_label (cell_id label : string) : string :=
  "cell/" +:+ cell_id +:+ "/qstats/vlabel/" +:+ label.
Definition query_stats_vertex_property (cell_id property encoded_value : string) : string :=
  "cell/" +:+ cell_id +:+ "/qstats/vprop/" +:+ property +:+ "/" +:+ encoded_value.
Definition query_stats_vertex_property_prefix (cell_id property : string) : string :=
  "cell/" +:+ cell_id +:+ "/qstats/vprop/" +:+ property +:+ "/".
Definition query_stats_edge_property (cell_id edge_type property encoded_value : string) : string :=
  "cell/" +:+ cell_id +:+ "/qstats/eprop/" +:+ edge_type +:+ "/" +:+ property +:+ "/" +:+
    encoded_value.
Definition query_stats_edge_property_prefix (cell_id edge_type property : string) : string :=
  "cell/" +:+ cell_id +:+ "/qstats/eprop/" +:+ edge_type +:+ "/" +:+ property +:+ "/".
Definition query_stats_vertex_property_histogram (cell_id property : string) : string :=
  "cell/" +:+ cell_id +:+ "/qstats/vprop_hist/" +:+ property.
Definition query_stats_edge_property_histogram (cell_id edge_type property : string) : string :=
  "cell/" +:+ cell_id +:+ "/qstats/eprop_hist/" +:+ edge_type +:+ "/" +:+ property.
Definition query_stats_record_key (count_key : string) : string :=
  count_key +:+ "/record".

End keys.
