(* ===== verification/KeysFacts.v ===== *)
(** The key space: every stored key is a slash-separated list of names and padded
    numerals.  Distinct records get distinct keys, a scan by prefix returns
    exactly the records of its family, and numeric components sort like numbers. *)

From S2P Require Import Prelude Text TextFacts Errors Model Namespace Keys.
From Stdlib Require Import Ascii.

Local Open Scope N_scope.

(** * Stored keys as data *)

Inductive Key : Type :=
  | KCellDropMarker (c : string)
  | KCellDropPending (c : string)
  | KCellDropIdem (c idem : string)
  | KLastRelationshipId (c : string)
  | KMatrixDirty (c t : string)
  | KAdjacencyGeneration (c t : string)
  | KXlogEntry (c t : string) (q s d : N)
  | KXlogLowWater (c t : string)
  | KIdempotency (c op idem : string)
  | KEdge (c t : string) (s d : N)
  | KOutEdge (c t : string) (s d : N)
  | KInEdge (c t : string) (d s : N)
  | KOutSegment (c t : string) (s q : N) (id : string)
  | KOutSegmentTombstone (c t : string) (s d : N)
  | KEdgeMetadata (c t : string) (s d : N)
  | KRelationship (c t : string) (s d r : N)
  | KRelationshipId (c : string) (r : N)
  | KRelationshipCount (c t : string) (s d : N)
  | KDegreeOut (c t : string) (s : N)
  | KDegreeIn (c t : string) (d : N)
  | KVertex (c : string) (v : N)
  | KVertexLabel (c l : string) (v : N)
  | KVertexPropertyIndex (c p e : string) (v : N)
  | KEdgePropertyIndex (c t p e : string) (s d : N)
  | KRelationshipPropertyIndex (c t p e : string) (s d r : N)
  | KStatsEdgeType (c t : string)
  | KStatsVertexLabel (c l : string)
  | KStatsVertexProperty (c p e : string)
  | KStatsEdgeProperty (c t p e : string)
  | KStatsVertexHistogram (c p : string)
  | KStatsEdgeHistogram (c t p : string).

Definition render (k : Key) : string :=
  match k with
  | KCellDropMarker c => keys.cell_drop_marker c
  | KCellDropPending c => keys.cell_drop_pending_marker c
  | KCellDropIdem c i => keys.cell_drop_idempotency c i
  | KLastRelationshipId c => keys.last_relationship_id c
  | KMatrixDirty c t => keys.matrix_dirty c t
  | KAdjacencyGeneration c t => keys.adjacency_generation c t
  | KXlogEntry c t q s d => keys.xlog_entry c t q s d
  | KXlogLowWater c t => keys.xlog_low_water c t
  | KIdempotency c op i => keys.idempotency c op i
  | KEdge c t s d => keys.edge c t s d
  | KOutEdge c t s d => keys.out_edge c t s d
  | KInEdge c t d s => keys.in_edge c t d s
  | KOutSegment c t s q i => keys.out_segment c t s q i
  | KOutSegmentTombstone c t s d => keys.out_segment_tombstone c t s d
  | KEdgeMetadata c t s d => keys.edge_metadata c t s d
  | KRelationship c t s d r => keys.relationship c t s d r
  | KRelationshipId c r => keys.relationship_id c r
  | KRelationshipCount c t s d => keys.relationship_count c t s d
  | KDegreeOut c t s => keys.degree_out c t s
  | KDegreeIn c t d => keys.degree_in c t d
  | KVertex c v => keys.vertex c v
  | KVertexLabel c l v => keys.vertex_label c l v
  | KVertexPropertyIndex c p e v => keys.vertex_property_index c p e v
  | KEdgePropertyIndex c t p e s d => keys.edge_property_index c t p e s d
  | KRelationshipPropertyIndex c t p e s d r => keys.relationship_property_index c t p e s d r
  | KStatsEdgeType c t => keys.query_stats_edge_type c t
  | KStatsVertexLabel c l => keys.query_stats_vertex_label c l
  | KStatsVertexProperty c p e => keys.query_stats_vertex_property c p e
  | KStatsEdgeProperty c t p e => keys.query_stats_edge_property c t p e
  | KStatsVertexHistogram c p => keys.query_stats_vertex_property_histogram c p
  | KStatsEdgeHistogram c t p => keys.query_stats_edge_property_histogram c t p
  end.

(** The segments between the slashes. *)
Definition segs (k : Key) : list string :=
  match k with
  | KCellDropMarker c => ["graph"; "drop"; "cell"; c]
  | KCellDropPending c => ["graph"; "drop"; "pending"; c]
  | KCellDropIdem c i => ["graph"; "drop"; "idem"; c; i]
  | KLastRelationshipId c => ["cell"; c; "meta"; "last_relationship_id"]
  | KMatrixDirty c t => ["cell"; c; "meta"; "matrix_dirty"; t]
  | KAdjacencyGeneration c t => ["cell"; c; "meta"; "adjacency_generation"; t]
  | KXlogEntry c t q s d => ["cell"; c; "xlog"; t; pad20 q; pad20 s; pad20 d]
  | KXlogLowWater c t => ["cell"; c; "meta"; "xlog_low"; t]
  | KIdempotency c op i => ["cell"; c; "idem"; op; i]
  | KEdge c t s d => ["cell"; c; "edge"; t; pad20 s; pad20 d]
  | KOutEdge c t s d => ["cell"; c; "e"; "out"; t; pad20 s; pad20 d]
  | KInEdge c t d s => ["cell"; c; "e"; "in"; t; pad20 d; pad20 s]
  | KOutSegment c t s q i => ["cell"; c; "seg"; "out"; t; pad20 s; pad20 q; i]
  | KOutSegmentTombstone c t s d => ["cell"; c; "seg"; "tomb"; "out"; t; pad20 s; pad20 d]
  | KEdgeMetadata c t s d => ["cell"; c; "emeta"; t; pad20 s; pad20 d]
  | KRelationship c t s d r => ["cell"; c; "rel"; t; pad20 s; pad20 d; pad20 r]
  | KRelationshipId c r => ["cell"; c; "rel_id"; pad20 r]
  | KRelationshipCount c t s d => ["cell"; c; "rel_count"; t; pad20 s; pad20 d]
  | KDegreeOut c t s => ["cell"; c; "cnt"; "out"; t; pad20 s]
  | KDegreeIn c t d => ["cell"; c; "cnt"; "in"; t; pad20 d]
  | KVertex c v => ["cell"; c; "vertex"; pad20 v]
  | KVertexLabel c l v => ["cell"; c; "vlabel"; l; pad20 v]
  | KVertexPropertyIndex c p e v => ["cell"; c; "vprop_idx"; p; e; pad20 v]
  | KEdgePropertyIndex c t p e s d => ["cell"; c; "eprop_idx"; t; p; e; pad20 s; pad20 d]
  | KRelationshipPropertyIndex c t p e s d r =>
      ["cell"; c; "rprop_idx"; t; p; e; pad20 s; pad20 d; pad20 r]
  | KStatsEdgeType c t => ["cell"; c; "qstats"; "edge_type"; t]
  | KStatsVertexLabel c l => ["cell"; c; "qstats"; "vlabel"; l]
  | KStatsVertexProperty c p e => ["cell"; c; "qstats"; "vprop"; p; e]
  | KStatsEdgeProperty c t p e => ["cell"; c; "qstats"; "eprop"; t; p; e]
  | KStatsVertexHistogram c p => ["cell"; c; "qstats"; "vprop_hist"; p]
  | KStatsEdgeHistogram c t p => ["cell"; c; "qstats"; "eprop_hist"; t; p]
  end.

(** Names are validated components; encoded values hold no slash; numbers are
    machine words. *)
Definition name_ok (s : string) : Prop := free_of chr_slash s = true.
Definition key_wf (k : Key) : Prop :=
  match k with
  | KCellDropMarker c | KCellDropPending c | KLastRelationshipId c => name_ok c
  | KCellDropIdem a b | KMatrixDirty a b | KAdjacencyGeneration a b | KXlogLowWater a b
  | KStatsEdgeType a b | KStatsVertexLabel a b | KStatsVertexHistogram a b => name_ok a ∧ name_ok b
  | KIdempotency a b c | KStatsVertexProperty a b c | KStatsEdgeHistogram a b c =>
      name_ok a ∧ name_ok b ∧ name_ok c
  | KStatsEdgeProperty a b c d => name_ok a ∧ name_ok b ∧ name_ok c ∧ name_ok d
  | KXlogEntry c t x y z | KRelationship c t x y z =>
      name_ok c ∧ name_ok t ∧ u64_ok x ∧ u64_ok y ∧ u64_ok z
  | KEdge c t x y | KOutEdge c t x y | KInEdge c t x y | KOutSegmentTombstone c t x y
  | KEdgeMetadata c t x y | KRelationshipCount c t x y =>
      name_ok c ∧ name_ok t ∧ u64_ok x ∧ u64_ok y
  | KOutSegment c t x y i => name_ok c ∧ name_ok t ∧ u64_ok x ∧ u64_ok y ∧ name_ok i
  | KRelationshipId c x | KVertex c x => name_ok c ∧ u64_ok x
  | KDegreeOut c t x | KDegreeIn c t x | KVertexLabel c t x => name_ok c ∧ name_ok t ∧ u64_ok x
  | KVertexPropertyIndex c p e x => name_ok c ∧ name_ok p ∧ name_ok e ∧ u64_ok x
  | KEdgePropertyIndex c t p e x y =>
      name_ok c ∧ name_ok t ∧ name_ok p ∧ name_ok e ∧ u64_ok x ∧ u64_ok y
  | KRelationshipPropertyIndex c t p e x y z =>
      name_ok c ∧ name_ok t ∧ name_ok p ∧ name_ok e ∧ u64_ok x ∧ u64_ok y ∧ u64_ok z
  end.

Lemma render_segs k : render k = join chr_slash (segs k).
Proof.
  destruct k; try reflexivity. cbn [render]. unfold keys.matrix_dirty, keys.matrix_dirty_prefix.
  rewrite !app_assoc. reflexivity.
Qed.

Lemma segs_nonempty k : segs k ≠ [].
Proof. destruct k; done. Qed.

Lemma pad20_slash n : free_of chr_slash (pad20 n) = true.
Proof. apply digits_free; [done|]. apply pad20_digits. Qed.
#[export] Hint Resolve pad20_slash : hydra.

Lemma segs_free k : key_wf k → Forall (λ s, free_of chr_slash s = true) (segs k).
Proof.
  destruct k; cbn [segs key_wf]; unfold name_ok; intros; destruct_and?;
    repeat constructor; solve [assumption | apply pad20_slash].
Qed.

Lemma split_render k : key_wf k → split chr_slash (render k) = segs k.
Proof. intros. rewrite render_segs. apply split_join; [apply segs_nonempty|by apply segs_free]. Qed.

Lemma segs_inj k1 k2 : key_wf k1 → key_wf k2 → segs k1 = segs k2 → k1 = k2.
Proof.
  intros H1 H2 E.
  destruct k1; destruct k2; cbn [segs] in E; try discriminate E;
    cbn [key_wf] in H1, H2; destruct_and?; injection E as E; intros; subst;
    repeat match goal with
    | H : pad20 ?a = pad20 ?b |- _ => apply pad20_inj in H; [subst|assumption|assumption]
    end; reflexivity.
Qed.

(** C14: distinct records never share a storage key: over the thirty-one record
    families, rendering a well-formed key is injective. *)
Theorem render_inj (k1 k2 : Key) (H1 : key_wf k1) (H2 : key_wf k2) :
  render k1 = render k2 → k1 = k2.
Proof.
  intros E. apply segs_inj; [done..|].
  rewrite <- (split_render k1), <- (split_render k2) by done. by rewrite E.
Qed.

Lemma render_inj_witness :
  render (KOutEdge "c" "KNOWS" 1 2) = render (KOutEdge "c" "KNOWS" 1 2) ∧
  key_wf (KOutEdge "c" "KNOWS" 1 2) ∧
  render (KOutEdge "c" "KNOWS" 1 2) ≠ render (KInEdge "c" "KNOWS" 1 2).
Proof.
  assert (∀ a b, a ≤ 2 → b ≤ 2 → key_wf (KOutEdge "c" "KNOWS" a b) ∧ key_wf (KInEdge "c" "KNOWS" a b)) as Hwf.
  { intros. unfold key_wf, name_ok, u64_ok, u64_max. repeat split; (reflexivity || lia). }
  split; [reflexivity|]. split; [by apply Hwf|]. intros E.
  apply render_inj in E; [discriminate E|by apply Hwf|by apply Hwf].
Defined.

(** * Scans *)

(** A slash-terminated prefix selects the keys that continue its segments. *)
Lemma strip_prefix_self_app p a b : strip_prefix (p +:+ a) (p +:+ b) = strip_prefix a b.
Proof.
  induction p as [|c p IH]; [done|]. rewrite !app_cons. cbn. by rewrite decide_True.
Qed.

Lemma starts_with_self_app p a b : starts_with (p +:+ a) (p +:+ b) = starts_with a b.
Proof. unfold starts_with. by rewrite strip_prefix_self_app. Qed.

Lemma starts_with_seg a b x y :
  free_of chr_slash a = true → free_of chr_slash b = true →
  starts_with (a +:+ String chr_slash x) (b +:+ String chr_slash y) = true ↔
  a = b ∧ starts_with x y = true.
Proof.
  revert b; induction a as [|c a IH]; intros b Ha Hb.
  - rewrite app_nil_l. destruct b as [|d b].
    + rewrite app_nil_l. unfold starts_with. cbn. rewrite decide_True by done. naive_solver.
    + apply free_of_cons in Hb as [Hd _]. rewrite app_cons. unfold starts_with. cbn.
      rewrite decide_False by (intros E; by apply Hd). naive_solver.
  - apply free_of_cons in Ha as [Hc Ha]. destruct b as [|d b].
    + rewrite app_cons, app_nil_l. unfold starts_with. cbn. rewrite decide_False by done. naive_solver.
    + apply free_of_cons in Hb as [Hd Hb]. rewrite !app_cons.
      specialize (IH b Ha Hb). unfold starts_with in *. cbn.
      case_decide as E; [subst; rewrite IH; naive_solver|]. naive_solver.
Qed.

Lemma starts_with_last_seg a b x :
  free_of chr_slash b = true → starts_with (a +:+ String chr_slash x) b = false.
Proof.
  intros Hb. destruct (starts_with _ _) eqn:E; [|done]. exfalso. unfold starts_with in E.
  destruct (strip_prefix _ b) as [t|] eqn:E'; [|done]. apply strip_prefix_Some in E'. subst.
  rewrite !free_of_app in Hb. apply andb_prop in Hb as [Hb _]. apply andb_prop in Hb as [_ Hb].
  by apply free_of_cons in Hb as [Hb _].
Qed.

Lemma starts_with_join p k :
  p ≠ [] → k ≠ [] →
  Forall (λ s, free_of chr_slash s = true) p → Forall (λ s, free_of chr_slash s = true) k →
  starts_with (join chr_slash p +:+ String chr_slash "") (join chr_slash k) = true ↔
  ∃ r, r ≠ [] ∧ k = p ++ r.
Proof.
  revert k; induction p as [|a p IH]; [done|]. intros k _ Hk [Ha Hp]%Forall_cons Hfk.
  destruct k as [|b k]; [done|]. apply Forall_cons in Hfk as [Hb Hfk].
  destruct p as [|a' p].
  - cbn [join]. destruct k as [|b' k].
    + cbn [join]. rewrite starts_with_last_seg by done.
      split; [done|]. intros (r & Hr & E). destruct r; [done|discriminate E].
    + change (join chr_slash (b :: b' :: k)) with (b +:+ String chr_slash (join chr_slash (b' :: k))).
      rewrite starts_with_seg by done. split.
      * intros [-> _]. by exists (b' :: k).
      * intros (r & _ & [= -> ->]). done.
  - change (join chr_slash (a :: a' :: p)) with (a +:+ String chr_slash (join chr_slash (a' :: p))).
    rewrite app_assoc, app_cons. destruct k as [|b' k].
    + cbn [join]. rewrite starts_with_last_seg by done.
      split; [done|]. intros (r & ? & E). discriminate E.
    + change (join chr_slash (b :: b' :: k)) with (b +:+ String chr_slash (join chr_slash (b' :: k))).
      rewrite starts_with_seg by done. rewrite IH by done. split.
      * intros (-> & r & ? & E). exists r. split; [done|]. cbn. by rewrite E.
      * intros (r & ? & E). cbn in E. split; [congruence|]. exists r. split; [done|]. cbn. congruence.
Qed.

(** The scan prefixes of the kernel. *)
Inductive Prefix : Type :=
  | PCell (c : string)
  | PMatrixDirty (c : string)
  | PXlogType (c t : string)
  | POutEdgeType (c t : string)
  | POutEdgeCell (c : string)
  | PInEdgeType (c t : string)
  | POut (c t : string) (s : N)
  | PIn (c t : string) (d : N)
  | POutSegmentType (c t : string)
  | POutSegmentCell (c : string)
  | POutSegmentSrc (c t : string) (s : N)
  | PTombstoneType (c t : string)
  | PTombstoneSrc (c t : string) (s : N)
  | PRelationshipEdge (c t : string) (s d : N)
  | PRelationshipCell (c : string)
  | PRelationshipSource (c t : string) (s : N)
  | PDegreeOut (c t : string)
  | PDegreeIn (c t : string)
  | PVertexLabel (c l : string)
  | PVertexPropertyIndex (c p e : string)
  | PVertexPropertyIndexProperty (c p : string)
  | PRelationshipPropertyIndex (c t p e : string)
  | PRelationshipPropertyIndexEdge (c t p e : string) (s d : N)
  | PEdgePropertyIndex (c t p e : string)
  | PEdgePropertyIndexProperty (c t p : string)
  | PStatsVertexProperty (c p : string)
  | PStatsEdgeProperty (c t p : string).

Definition prefix_render (p : Prefix) : string :=
  match p with
  | PCell c => keys.cell_prefix c
  | PMatrixDirty c => keys.matrix_dirty_prefix c
  | PXlogType c t => keys.xlog_type_prefix c t
  | POutEdgeType c t => keys.out_edge_type_prefix c t
  | POutEdgeCell c => keys.out_edge_cell_prefix c
  | PInEdgeType c t => keys.in_edge_type_prefix c t
  | POut c t s => keys.out_prefix c t s
  | PIn c t d => keys.in_prefix c t d
  | POutSegmentType c t => keys.out_segment_edge_type_prefix c t
  | POutSegmentCell c => keys.out_segment_cell_prefix c
  | POutSegmentSrc c t s => keys.out_segment_src_prefix c t s
  | PTombstoneType c t => keys.out_segment_tombstone_edge_type_prefix c t
  | PTombstoneSrc c t s => keys.out_segment_tombstone_src_prefix c t s
  | PRelationshipEdge c t s d => keys.relationship_edge_prefix c t s d
  | PRelationshipCell c => keys.relationship_cell_prefix c
  | PRelationshipSource c t s => keys.relationship_source_prefix c t s
  | PDegreeOut c t => keys.degree_out_prefix c t
  | PDegreeIn c t => keys.degree_in_prefix c t
  | PVertexLabel c l => keys.vertex_label_prefix c l
  | PVertexPropertyIndex c p e => keys.vertex_property_index_prefix c p e
  | PVertexPropertyIndexProperty c p => keys.vertex_property_index_property_prefix c p
  | PRelationshipPropertyIndex c t p e => keys.relationship_property_index_prefix c t p e
  | PRelationshipPropertyIndexEdge c t p e s d =>
      keys.relationship_property_index_edge_prefix c t p e s d
  | PEdgePropertyIndex c t p e => keys.edge_property_index_prefix c t p e
  | PEdgePropertyIndexProperty c t p => keys.edge_property_index_property_prefix c t p
  | PStatsVertexProperty c p => keys.query_stats_vertex_property_prefix c p
  | PStatsEdgeProperty c t p => keys.query_stats_edge_property_prefix c t p
  end.

Definition prefix_segs (p : Prefix) : list string :=
  match p with
  | PCell c => ["cell"; c]
  | PMatrixDirty c => ["cell"; c; "meta"; "matrix_dirty"]
  | PXlogType c t => ["cell"; c; "xlog"; t]
  | POutEdgeType c t => ["cell"; c; "e"; "out"; t]
  | POutEdgeCell c => ["cell"; c; "e"; "out"]
  | PInEdgeType c t => ["cell"; c; "e"; "in"; t]
  | POut c t s => ["cell"; c; "e"; "out"; t; pad20 s]
  | PIn c t d => ["cell"; c; "e"; "in"; t; pad20 d]
  | POutSegmentType c t => ["cell"; c; "seg"; "out"; t]
  | POutSegmentCell c => ["cell"; c; "seg"; "out"]
  | POutSegmentSrc c t s => ["cell"; c; "seg"; "out"; t; pad20 s]
  | PTombstoneType c t => ["cell"; c; "seg"; "tomb"; "out"; t]
  | PTombstoneSrc c t s => ["cell"; c; "seg"; "tomb"; "out"; t; pad20 s]
  | PRelationshipEdge c t s d => ["cell"; c; "rel"; t; pad20 s; pad20 d]
  | PRelationshipCell c => ["cell"; c; "rel"]
  | PRelationshipSource c t s => ["cell"; c; "rel"; t; pad20 s]
  | PDegreeOut c t => ["cell"; c; "cnt"; "out"; t]
  | PDegreeIn c t => ["cell"; c; "cnt"; "in"; t]
  | PVertexLabel c l => ["cell"; c; "vlabel"; l]
  | PVertexPropertyIndex c p e => ["cell"; c; "vprop_idx"; p; e]
  | PVertexPropertyIndexProperty c p => ["cell"; c; "vprop_idx"; p]
  | PRelationshipPropertyIndex c t p e => ["cell"; c; "rprop_idx"; t; p; e]
  | PRelationshipPropertyIndexEdge c t p e s d => ["cell"; c; "rprop_idx"; t; p; e; pad20 s; pad20 d]
  | PEdgePropertyIndex c t p e => ["cell"; c; "eprop_idx"; t; p; e]
  | PEdgePropertyIndexProperty c t p => ["cell"; c; "eprop_idx"; t; p]
  | PStatsVertexProperty c p => ["cell"; c; "qstats"; "vprop"; p]
  | PStatsEdgeProperty c t p => ["cell"; c; "qstats"; "eprop"; t; p]
  end.

Definition prefix_wf (p : Prefix) : Prop :=
  match p with
  | PCell c | PMatrixDirty c | POutEdgeCell c | POutSegmentCell c | PRelationshipCell c => name_ok c
  | PXlogType c t | POutEdgeType c t | PInEdgeType c t | POutSegmentType c t | PTombstoneType c t
  | PDegreeOut c t | PDegreeIn c t | PVertexLabel c t | PVertexPropertyIndexProperty c t
  | PStatsVertexProperty c t => name_ok c ∧ name_ok t
  | POut c t x | PIn c t x | POutSegmentSrc c t x | PTombstoneSrc c t x
  | PRelationshipSource c t x => name_ok c ∧ name_ok t ∧ u64_ok x
  | PRelationshipEdge c t x y => name_ok c ∧ name_ok t ∧ u64_ok x ∧ u64_ok y
  | PVertexPropertyIndex c p e | PEdgePropertyIndexProperty c p e | PStatsEdgeProperty c p e =>
      name_ok c ∧ name_ok p ∧ name_ok e
  | PRelationshipPropertyIndex c t p e | PEdgePropertyIndex c t p e =>
      name_ok c ∧ name_ok t ∧ name_ok p ∧ name_ok e
  | PRelationshipPropertyIndexEdge c t p e x y =>
      name_ok c ∧ name_ok t ∧ name_ok p ∧ name_ok e ∧ u64_ok x ∧ u64_ok y
  end.

(** The records each prefix is meant to select. *)
Definition covers (p : Prefix) (k : Key) : Prop :=
  match p, k with
  | PCell c, (KCellDropMarker _ | KCellDropPending _ | KCellDropIdem _ _) => False
  | PCell c, (KLastRelationshipId c' | KMatrixDirty c' _ | KAdjacencyGeneration c' _
      | KXlogEntry c' _ _ _ _ | KXlogLowWater c' _ | KIdempotency c' _ _ | KEdge c' _ _ _
      | KOutEdge c' _ _ _ | KInEdge c' _ _ _ | KOutSegment c' _ _ _ _
      | KOutSegmentTombstone c' _ _ _ | KEdgeMetadata c' _ _ _ | KRelationship c' _ _ _ _
      | KRelationshipId c' _ | KRelationshipCount c' _ _ _ | KDegreeOut c' _ _ | KDegreeIn c' _ _
      | KVertex c' _ | KVertexLabel c' _ _ | KVertexPropertyIndex c' _ _ _
      | KEdgePropertyIndex c' _ _ _ _ _ | KRelationshipPropertyIndex c' _ _ _ _ _ _
      | KStatsEdgeType c' _ | KStatsVertexLabel c' _ | KStatsVertexProperty c' _ _
      | KStatsEdgeProperty c' _ _ _ | KStatsVertexHistogram c' _ | KStatsEdgeHistogram c' _ _) => c' = c
  | PMatrixDirty c, KMatrixDirty c' _ => c' = c
  | PXlogType c t, KXlogEntry c' t' _ _ _ => c' = c ∧ t' = t
  | POutEdgeType c t, KOutEdge c' t' _ _ => c' = c ∧ t' = t
  | POutEdgeCell c, KOutEdge c' _ _ _ => c' = c
  | PInEdgeType c t, KInEdge c' t' _ _ => c' = c ∧ t' = t
  | POut c t s, KOutEdge c' t' s' _ => c' = c ∧ t' = t ∧ s' = s
  | PIn c t d, KInEdge c' t' d' _ => c' = c ∧ t' = t ∧ d' = d
  | POutSegmentType c t, KOutSegment c' t' _ _ _ => c' = c ∧ t' = t
  | POutSegmentCell c, KOutSegment c' _ _ _ _ => c' = c
  | POutSegmentSrc c t s, KOutSegment c' t' s' _ _ => c' = c ∧ t' = t ∧ s' = s
  | PTombstoneType c t, KOutSegmentTombstone c' t' _ _ => c' = c ∧ t' = t
  | PTombstoneSrc c t s, KOutSegmentTombstone c' t' s' _ => c' = c ∧ t' = t ∧ s' = s
  | PRelationshipEdge c t s d, KRelationship c' t' s' d' _ =>
      c' = c ∧ t' = t ∧ s' = s ∧ d' = d
  | PRelationshipCell c, KRelationship c' _ _ _ _ => c' = c
  | PRelationshipSource c t s, KRelationship c' t' s' _ _ => c' = c ∧ t' = t ∧ s' = s
  | PDegreeOut c t, KDegreeOut c' t' _ => c' = c ∧ t' = t
  | PDegreeIn c t, KDegreeIn c' t' _ => c' = c ∧ t' = t
  | PVertexLabel c l, KVertexLabel c' l' _ => c' = c ∧ l' = l
  | PVertexPropertyIndex c p e, KVertexPropertyIndex c' p' e' _ => c' = c ∧ p' = p ∧ e' = e
  | PVertexPropertyIndexProperty c p, KVertexPropertyIndex c' p' _ _ => c' = c ∧ p' = p
  | PRelationshipPropertyIndex c t p e, KRelationshipPropertyIndex c' t' p' e' _ _ _ =>
      c' = c ∧ t' = t ∧ p' = p ∧ e' = e
  | PRelationshipPropertyIndexEdge c t p e s d, KRelationshipPropertyIndex c' t' p' e' s' d' _ =>
      c' = c ∧ t' = t ∧ p' = p ∧ e' = e ∧ s' = s ∧ d' = d
  | PEdgePropertyIndex c t p e, KEdgePropertyIndex c' t' p' e' _ _ =>
      c' = c ∧ t' = t ∧ p' = p ∧ e' = e
  | PEdgePropertyIndexProperty c t p, KEdgePropertyIndex c' t' p' _ _ _ => c' = c ∧ t' = t ∧ p' = p
  | PStatsVertexProperty c p, KStatsVertexProperty c' p' _ => c' = c ∧ p' = p
  | PStatsEdgeProperty c t p, KStatsEdgeProperty c' t' p' _ => c' = c ∧ t' = t ∧ p' = p
  | _, _ => False
  end.

Lemma prefix_render_segs p :
  prefix_render p = join chr_slash (prefix_segs p) +:+ String chr_slash "".
Proof.
  destruct p; cbn [prefix_segs join];
    repeat (rewrite app_assoc || rewrite app_cons); reflexivity.
Qed.

Lemma prefix_segs_free p : prefix_wf p → Forall (λ s, free_of chr_slash s = true) (prefix_segs p).
Proof.
  destruct p; cbn [prefix_segs prefix_wf]; unfold name_ok; intros; destruct_and?;
    repeat constructor; solve [assumption | apply pad20_slash].
Qed.

Lemma covers_segs p k :
  prefix_wf p → key_wf k → covers p k ↔ ∃ r, r ≠ [] ∧ segs k = prefix_segs p ++ r.
Proof.
  intros Hp Hk. split.
  - destruct p, k; cbn [covers segs prefix_segs app]; intros H; try (exfalso; exact H);
      destruct_and?; subst; (eexists; split; [|reflexivity]; discriminate).
  - intros (r & Hr & E). destruct p, k; cbn [segs prefix_segs app] in E; try discriminate E;
      cbn [covers]; injection E; intros; subst; try (exfalso; by apply Hr);
      cbn [prefix_wf key_wf] in Hp, Hk; destruct_and?; repeat split; try assumption;
      apply pad20_inj; assumption.
Qed.

Lemma scan_prefix_covers p k :
  prefix_wf p → key_wf k → starts_with (prefix_render p) (render k) = true ↔ covers p k.
Proof.
  intros Hp Hk. rewrite covers_segs, prefix_render_segs, render_segs by done.
  apply starts_with_join; [by destruct p|apply segs_nonempty|by apply prefix_segs_free|by apply segs_free].
Qed.

(** A prefix scan selects exactly the records of its family: a stored key
    starts with one of the kernel's twenty-seven scan prefixes exactly when it is
    a record that the prefix names. *)
Theorem scan_prefix_exact (p : Prefix) (k : Key) (Hp : prefix_wf p) (Hk : key_wf k) :
  starts_with (prefix_render p) (render k) = true ↔ covers p k.
Proof. by apply scan_prefix_covers. Qed.

Lemma scan_prefix_exact_witness :
  starts_with (prefix_render (POut "c" "KNOWS" 7)) (render (KOutEdge "c" "KNOWS" 7 9)) = true ∧
  covers (POut "c" "KNOWS" 7) (KOutEdge "c" "KNOWS" 7 9).
Proof.
  split; [vm_compute; reflexivity|].
  apply (scan_prefix_exact (POut "c" "KNOWS" 7) (KOutEdge "c" "KNOWS" 7 9));
    [repeat split; (reflexivity || (unfold u64_ok, u64_max; lia))..|vm_compute; reflexivity].
Defined.

(** * Key order *)

Lemma compare_self_app p a b : String.compare (p +:+ a) (p +:+ b) = String.compare a b.
Proof.
  induction p as [|c p IH]; [done|]. rewrite !app_cons. cbn. unfold Ascii.compare.
  by rewrite N.compare_refl.
Qed.

(** Lexicographic order on the numeric components of a key. *)
Fixpoint lex_compare (l1 l2 : list N) : comparison :=
  match l1, l2 with
  | [], [] => Eq
  | [], _ => Lt
  | _, [] => Gt
  | a :: l1', b :: l2' => match (a ?= b)%N with Eq => lex_compare l1' l2' | r => r end
  end.

Lemma compare_numeric l1 l2 :
  Forall u64_ok l1 → Forall u64_ok l2 → length l1 = length l2 →
  String.compare (join chr_slash (pad20 <$> l1)) (join chr_slash (pad20 <$> l2)) = lex_compare l1 l2.
Proof.
  revert l2; induction l1 as [|a l1 IH]; intros [|b l2] H1 H2 Hl; try discriminate; [done|].
  apply Forall_cons in H1 as [Ha H1]. apply Forall_cons in H2 as [Hb H2].
  destruct l1 as [|a' l1], l2 as [|b' l2]; try discriminate.
  - cbn [fmap list_fmap join lex_compare]. rewrite pad20_compare by done. by destruct (a ?= b).
  - specialize (IH (b' :: l2) H1 H2 ltac:(by injection Hl as Hl; cbn; rewrite Hl)).
    cbn [fmap list_fmap] in IH |- *.
    change (String.compare
      (pad20 a +:+ String chr_slash (join chr_slash (pad20 a' :: (pad20 <$> l1))))
      (pad20 b +:+ String chr_slash (join chr_slash (pad20 b' :: (pad20 <$> l2))))
      = lex_compare (a :: a' :: l1) (b :: b' :: l2)).
    change (lex_compare (a :: a' :: l1) (b :: b' :: l2)) with
      (match a ?= b with Eq => lex_compare (a' :: l1) (b' :: l2) | r => r end). rewrite compare_app by (by rewrite !pad20_length).
    rewrite pad20_compare by done. destruct (a ?= b); [|done..].
    change (String ?x (join ?y ?z)) with ("/" +:+ join y z). rewrite compare_self_app. exact IH.
Qed.

(** Zero padding makes the storage order of keys the numeric order of what
    they name: changelog entries of one edge type sort by commit sequence, then
    source, then destination; out edges by source, then destination; in edges by
    destination, then source. *)
Theorem key_order_numeric (c t : string) (q s d q' s' d' : N)
    (Hq : u64_ok q) (Hs : u64_ok s) (Hd : u64_ok d)
    (Hq' : u64_ok q') (Hs' : u64_ok s') (Hd' : u64_ok d') :
  String.compare (keys.xlog_entry c t q s d) (keys.xlog_entry c t q' s' d')
    = lex_compare [q; s; d] [q'; s'; d'] ∧
  String.compare (keys.out_edge c t s d) (keys.out_edge c t s' d') = lex_compare [s; d] [s'; d'] ∧
  String.compare (keys.in_edge c t d s) (keys.in_edge c t d' s') = lex_compare [d; s] [d'; s'].
Proof.
  unfold keys.xlog_entry, keys.out_edge, keys.in_edge. rewrite !compare_self_app.
  split; [|split]; (etrans; [|apply compare_numeric; repeat constructor; assumption]);
    reflexivity.
Qed.

Lemma key_order_numeric_witness :
  String.compare (keys.xlog_entry "c" "K" 9 1 1) (keys.xlog_entry "c" "K" 10 1 1) = Lt.
Proof.
  apply (key_order_numeric "c" "K" 9 1 1 10 1 1); unfold u64_ok, u64_max; lia.
Defined.
