(* ===== verification/Codec.v ===== *)
(** [codec.rs]: the byte format of every stored value, and the parsers of the
    keys that carry a record's identity.  Decoders return the source's errors
    with the source's text. *)

From S2P Require Import Prelude Text Errors Model Namespace Keys.
From Stdlib Require Import Ascii.

Local Open Scope N_scope.

(** [GraphError::CorruptValue { key, reason }]. *)
Definition corrupt {A} (key reason : string) : Result A := Err (CorruptValue key reason).
Definition conflict {A} (operation idempotency_key reason : string) : Result A :=
  Err (IdempotencyConflict operation idempotency_key reason).

(** [std::str::from_utf8(value).map_err(..)]. *)
Definition decode_text (key : string) (value : string) : Result string :=
  map_err (λ e, CorruptValue key (utf8_error_text e)) (from_utf8 value).

(** * Words and flags *)

Definition encode_u64 (value : N) : string := to_be_bytes value.

Definition decode_u64 (key value : string) : Result N :=
  if (String.length value =? 8)%nat then Ok (from_be_bytes value)
  else corrupt key ("expected 8 bytes, got " +:+ dec (strlen value)).

Definition parse_u64 (key value field : string) : Result N :=
  map_err (λ e, CorruptValue key ("invalid " +:+ field +:+ ": " +:+ int_error_text e))
    (parse_u64_text value).

Definition parse_bool_u8 (key value field : string) : Result bool :=
  if bool_decide (value = "0") then Ok false
  else if bool_decide (value = "1") then Ok true
  else corrupt key ("invalid " +:+ field +:+ ": expected 0 or 1").

Definition decode_bool_flag (key value field : string) : Result bool :=
  if bool_decide (value = "0") then Ok false
  else if bool_decide (value = "1") then Ok true
  else corrupt key ("invalid " +:+ field +:+ " flag " +:+ value).

(** [u8::from(bool)] printed. *)
Definition flag (b : bool) : string := if b then "1" else "0".

Definition ensure_limit (operation : string) (actual limit : N) : Result unit :=
  if limit <? actual then Err (AdmissionRejected operation actual limit) else Ok tt.

(** * Batch validation *)

Definition validate_edge_mutations_for_cell (cell_id : string) (mutations : list EdgeMutation)
    (operation : string) : Result unit :=
  _ ← foldM (λ seen m,
      _ ← validate_component "cell_id" (em_cell_id m);
      _ ← validate_component "edge_type" (em_edge_type m);
      _ ← validate_component "idempotency_key" (em_idempotency_key m);
      if negb (bool_decide (em_cell_id m = cell_id)) then
        corrupt ("cell/" +:+ cell_id +:+ "/" +:+ operation)
          ("batch contains mutation for different cell " +:+ em_cell_id m)
      else if bool_decide (em_idempotency_key m ∈ seen) then
        conflict "create" (em_idempotency_key m) "the same key appears twice in one batch"
      else Ok ({[em_idempotency_key m]} ∪ seen))
    (∅ : gset string) mutations;
  Ok tt.

(** * Hexadecimal *)

Definition HEX : string := "0123456789abcdef".
(** [HEX[n] as char]; the indices are nibbles. *)
Definition hex_at (n : N) : ascii :=
  match String.get (N.to_nat n) HEX with Some c => c | None => "?"%char end.

Fixpoint hex_encode (s : string) : string :=
  match s with
  | "" => ""
  | String c s' =>
      let byte := byte_of c in
      String (hex_at (N.shiftr byte 4)) (String (hex_at (N.land byte 15)) (hex_encode s'))
  end.

Definition hex_value (byte : N) : option N :=
  if (48 <=? byte) && (byte <=? 57) then Some (byte - 48)
  else if (97 <=? byte) && (byte <=? 102) then Some (byte - 97 + 10)
  else if (65 <=? byte) && (byte <=? 70) then Some (byte - 65 + 10)
  else None.

(** [byte as char] in UTF-8. *)
Definition latin1_char (byte : N) : string :=
  if byte <? 128 then String (ascii_of_N byte) ""
  else String (ascii_of_N (192 + byte / 64)) (String (ascii_of_N (128 + byte mod 64)) "").

Definition hex_pair (key : string) (pair : string) : Result ascii :=
  match pair with
  | String a (String b "") =>
      high ← ok_or (hex_value (byte_of a))
               (CorruptValue key ("invalid hex digit " +:+ latin1_char (byte_of a)));
      low ← ok_or (hex_value (byte_of b))
              (CorruptValue key ("invalid hex digit " +:+ latin1_char (byte_of b)));
      Ok (ascii_of_N (N.lor (N.shiftl high 4 mod 256) low))
  | _ => corrupt key "unreachable: chunks_exact(2) yields pairs"
  end.

Fixpoint hex_pairs (key : string) (pairs : list string) : Result string :=
  match pairs with
  | [] => Ok ""
  | p :: ps => b ← hex_pair key p; rest ← hex_pairs key ps; Ok (String b rest)
  end.

Definition hex_decode (key text : string) : Result string :=
  if negb (N.land (strlen text) 1 =? 0) then corrupt key "odd-length hex string"
  else hex_pairs key (chunks_exact 2 text).

(** * Property values *)

Definition bit63 : N := 9223372036854775808.

(** [value as u64] of an [i64]. *)
Definition i64_as_u64 (z : Z) : N := Z.to_N (z mod 18446744073709551616).

Definition sortable_float_bits (bits : N) : N :=
  if N.land bits bit63 =? 0 then N.lxor bits bit63 else N.lxor bits u64_max.

Definition encode_vertex_property_value_key (value : VertexPropertyValue) : string :=
  match value with
  | Integer v => "i" +:+ pad20 v
  | SignedInteger v => "j" +:+ hex16 (N.lxor (i64_as_u64 v) bit63)
  | PBool false => "b0"
  | PBool true => "b1"
  | Float f => "n" +:+ hex16 (sortable_float_bits (qf_bits f))
  | PString s => "s" +:+ hex_encode s
  end.

Definition encode_vertex_property_value_record (value : VertexPropertyValue) : string :=
  match value with
  | Integer v => "i:" +:+ dec v
  | SignedInteger v => "j:" +:+ dec_Z v
  | PBool false => "b:false"
  | PBool true => "b:true"
  | Float f => "f:" +:+ hex16 (qf_bits f)
  | PString s => "s:" +:+ hex_encode s
  end.

Definition decode_vertex_property_value_record (key value : string) : Result VertexPropertyValue :=
  match split_once ":" value with
  | None => corrupt key ("invalid vertex property value " +:+ value)
  | Some (kind, payload) =>
      if bool_decide (kind = "i") then
        map_err (λ e, CorruptValue key
            ("invalid integer vertex property " +:+ payload +:+ ": " +:+ int_error_text e))
          (Integer <$> parse_u64_text payload)
      else if bool_decide (kind = "j") then
        map_err (λ e, CorruptValue key
            ("invalid signed integer vertex property " +:+ payload +:+ ": " +:+ int_error_text e))
          (from_i64 <$> parse_i64_text payload)
      else if bool_decide (kind = "b") then
        if bool_decide (payload = "true") then Ok (PBool true)
        else if bool_decide (payload = "false") then Ok (PBool false)
        else corrupt key ("invalid boolean vertex property " +:+ payload)
      else if bool_decide (kind = "f") then
        map_err (λ e, CorruptValue key
            ("invalid float vertex property " +:+ payload +:+ ": " +:+ int_error_text e))
          ((λ bits, Float (MkQueryFloat bits)) <$> from_str_radix_u64 16 payload)
      else if bool_decide (kind = "s") then
        bs ← hex_decode key payload;
        map_err (λ e, CorruptValue key (utf8_error_text e)) (PString <$> from_utf8 bs)
      else corrupt key ("unsupported vertex property kind " +:+ kind)
  end.

(** * Metadata *)

Definition property_line (p : string * VertexPropertyValue) : string :=
  "property" +:+ tab +:+ p.1 +:+ tab +:+ encode_vertex_property_value_record p.2 +:+ nl.

Definition encode_vertex_metadata (metadata : VertexMetadata) : string :=
  let value := foldl (λ v label, v +:+ "label" +:+ tab +:+ label +:+ nl)
                 ("vertex-metadata-v1" +:+ nl) (bset_iter (vm_labels metadata)) in
  foldl (λ v p, v +:+ property_line p) value (btree_iter (vm_properties metadata)).

Definition encode_edge_metadata (metadata : EdgeMetadata) : string :=
  foldl (λ v p, v +:+ property_line p) ("edge-metadata-v1" +:+ nl)
    (btree_iter (emd_properties metadata)).

Definition encode_relationship_record (record : RelationshipRecord) : string :=
  foldl (λ v p, v +:+ property_line p) ("relationship" +:+ nl)
    (btree_iter (emd_properties (rr_metadata record))).

Definition decode_vertex_metadata (key value : string) : Result VertexMetadata :=
  text ← decode_text key value;
  match lines text with
  | [] => corrupt key "empty vertex metadata"
  | header :: rest =>
      if bool_decide (header = "vertex-metadata-v1") then
        foldM (λ metadata line,
            match split chr_tab line with
            | [k; label] =>
                if bool_decide (k = "label") then
                  _ ← validate_component "label" label;
                  Ok (MkVertexMetadata ({[label]} ∪ vm_labels metadata) (vm_properties metadata))
                else corrupt key ("invalid vertex metadata line " +:+ line)
            | [k; name; encoded] =>
                if bool_decide (k = "property") then
                  _ ← validate_component "property" name;
                  v ← decode_vertex_property_value_record key encoded;
                  Ok (MkVertexMetadata (vm_labels metadata) (<[name := v]> (vm_properties metadata)))
                else corrupt key ("invalid vertex metadata line " +:+ line)
            | _ => corrupt key ("invalid vertex metadata line " +:+ line)
            end)
          VertexMetadata_default rest
      else corrupt key ("unsupported vertex metadata version " +:+ header)
  end.

Definition decode_edge_metadata (key value : string) : Result EdgeMetadata :=
  text ← decode_text key value;
  match lines text with
  | [] => corrupt key "empty edge metadata"
  | header :: rest =>
      if bool_decide (header = "edge-metadata-v1") then
        foldM (λ metadata line,
            match split chr_tab line with
            | [k; name; encoded] =>
                if bool_decide (k = "property") then
                  _ ← validate_component "property" name;
                  v ← decode_vertex_property_value_record key encoded;
                  Ok (MkEdgeMetadata (<[name := v]> (emd_properties metadata)))
                else corrupt key ("invalid edge metadata line " +:+ line)
            | _ => corrupt key ("invalid edge metadata line " +:+ line)
            end)
          EdgeMetadata_default rest
      else corrupt key ("unsupported edge metadata version " +:+ header)
  end.
