(* ===== verification/CodecFacts.v ===== *)
(** [Codec] decodes what it encodes: words, hexadecimal, property values and
    metadata round-trip; index keys of property values are injective and sort
    the way the values do. *)

From S2P Require Import Prelude Text TextFacts Errors Model Namespace Keys KeysFacts Codec.
From Stdlib Require Import Ascii.

Local Open Scope N_scope.

(** * Plain text: printable in a line of a record *)

Definition plain_char (c : ascii) : bool :=
  is_ascii c && not_char chr_tab c && not_char chr_nl c && not_char chr_cr c && not_char chr_slash c.
Definition plain (s : string) : bool := str_forall plain_char s.

Lemma plain_app a b : plain (a +:+ b) = plain a && plain b.
Proof. apply str_forall_app. Qed.
Lemma plain_cons c s : plain (String c s) = plain_char c && plain s.
Proof. done. Qed.

Lemma plain_char_inv c :
  plain_char c = true →
  is_ascii c = true ∧ not_char chr_tab c = true ∧ not_char chr_nl c = true ∧
  not_char chr_cr c = true ∧ not_char chr_slash c = true.
Proof. unfold plain_char. intros H. repeat (apply andb_prop in H as [H ?]). done. Qed.

Lemma plain_ascii s : plain s = true → str_forall is_ascii s = true.
Proof. apply str_forall_mono. by intros c (?&?&?&?&?)%plain_char_inv. Qed.
Lemma plain_tab s : plain s = true → free_of chr_tab s = true.
Proof. apply str_forall_mono. by intros c (?&?&?&?&?)%plain_char_inv. Qed.
Lemma plain_nl s : plain s = true → free_of chr_nl s = true.
Proof. apply str_forall_mono. by intros c (?&?&?&?&?)%plain_char_inv. Qed.
Lemma plain_cr s : plain s = true → free_of chr_cr s = true.
Proof. apply str_forall_mono. by intros c (?&?&?&?&?)%plain_char_inv. Qed.
Lemma plain_slash s : plain s = true → free_of chr_slash s = true.
Proof. apply str_forall_mono. by intros c (?&?&?&?&?)%plain_char_inv. Qed.

Lemma digit_plain s : str_forall is_digit_char s = true → plain s = true.
Proof.
  apply str_forall_mono. intros c.
  destruct c as [[] [] [] [] [] [] [] []]; cbv; try done; intros H; discriminate H.
Qed.
Lemma component_plain s : component_ok s = true → plain s = true.
Proof.
  intros H%component_ok_chars. revert H. apply str_forall_mono. intros c.
  destruct c as [[] [] [] [] [] [] [] []]; cbv; try done; intros H; discriminate H.
Qed.
Lemma dec_plain n : plain (dec n) = true.
Proof. apply digit_plain, dec_digits. Qed.
Lemma pad20_plain n : plain (pad20 n) = true.
Proof. apply digit_plain, pad20_digits. Qed.
Lemma hex16_plain n : plain (hex16 n) = true.
Proof. apply digit_plain, hex16_digits. Qed.
Lemma dec_Z_plain z : plain (dec_Z z) = true.
Proof.
  unfold dec_Z. case_match; [|apply dec_plain].
  rewrite app_cons, app_nil_l. rewrite plain_cons, dec_plain. done.
Qed.
Lemma flag_plain b : plain (flag b) = true.
Proof. by destruct b. Qed.
#[export] Hint Resolve dec_plain pad20_plain hex16_plain dec_Z_plain flag_plain component_plain
  plain_ascii plain_tab plain_nl plain_cr plain_slash : hydra.

Lemma decode_text_ascii key s : str_forall is_ascii s = true → decode_text key s = Ok s.
Proof. intros H. unfold decode_text. by rewrite from_utf8_valid by (by apply ascii_valid_utf8). Qed.

(** * Words *)

Lemma encode_decode_u64 key n : u64_ok n → decode_u64 key (encode_u64 n) = Ok n.
Proof.
  intros H. unfold decode_u64, encode_u64. rewrite to_be_bytes_length, Nat.eqb_refl.
  by rewrite from_to_be_bytes.
Qed.

Lemma decode_u64_ok key s n : decode_u64 key s = Ok n → String.length s = 8%nat.
Proof. unfold decode_u64. case_match eqn:E; [by apply Nat.eqb_eq in E|done]. Qed.

Lemma parse_u64_dec key n field : u64_ok n → parse_u64 key (dec n) field = Ok n.
Proof. intros H. unfold parse_u64. by rewrite parse_dec. Qed.
Lemma parse_u64_pad20 key n field : u64_ok n → parse_u64 key (pad20 n) field = Ok n.
Proof. intros H. unfold parse_u64. by rewrite parse_pad20. Qed.
Lemma parse_bool_flag key b field : parse_bool_u8 key (flag b) field = Ok b.
Proof. by destruct b. Qed.
Lemma decode_bool_flag_flag key b field : decode_bool_flag key (flag b) field = Ok b.
Proof. by destruct b. Qed.

(** * Hexadecimal *)

Lemma hex_at_spec n :
  n < 16 → hex_value (byte_of (hex_at n)) = Some n ∧ plain_char (hex_at n) = true.
Proof.
  intros Hn.
  assert (Forall (λ n, hex_value (byte_of (hex_at n)) = Some n ∧ plain_char (hex_at n) = true)
    (N.of_nat <$> seq 0 16)) as Hall by (cbv; repeat constructor).
  rewrite Forall_forall in Hall. apply Hall, list_elem_of_fmap.
  exists (N.to_nat n). rewrite elem_of_seq. lia.
Qed.

Lemma byte_nibbles c :
  N.shiftr (byte_of c) 4 < 16 ∧ N.land (byte_of c) 15 < 16 ∧
  ascii_of_N (N.lor (N.shiftl (N.shiftr (byte_of c) 4) 4 mod 256) (N.land (byte_of c) 15)) = c.
Proof. destruct c as [[] [] [] [] [] [] [] []]; vm_compute; repeat split. Qed.

Lemma hex_encode_length s : String.length (hex_encode s) = (2 * String.length s)%nat.
Proof. induction s as [|c s IH]; [done|]. cbn in *. rewrite IH. lia. Qed.

Lemma hex_encode_plain s : plain (hex_encode s) = true.
Proof.
  induction s as [|c s IH]; [done|]. cbn [hex_encode]. cbv zeta. rewrite !plain_cons, IH.
  pose proof (byte_nibbles c) as (H1 & H2 & _).
  by rewrite (proj2 (hex_at_spec _ H1)), (proj2 (hex_at_spec _ H2)).
Qed.
#[export] Hint Resolve hex_encode_plain : hydra.

(** The pairs [chunks_exact(2)] cuts an encoded string into. *)
Fixpoint hex_chunks (s : string) : list string :=
  match s with
  | "" => []
  | String c s' =>
      String (hex_at (N.shiftr (byte_of c) 4)) (String (hex_at (N.land (byte_of c) 15)) "") :: hex_chunks s'
  end.

Lemma hex_encode_chunks s : hex_encode s = concat_str (hex_chunks s).
Proof. induction s as [|c s IH]; [done|]. cbn. rewrite IH. done. Qed.
Lemma hex_chunks_length s : Forall (λ p, String.length p = 2%nat) (hex_chunks s).
Proof. induction s; cbn; constructor; done. Qed.

Lemma hex_pair_encoded key c :
  hex_pair key (String (hex_at (N.shiftr (byte_of c) 4)) (String (hex_at (N.land (byte_of c) 15)) ""))
  = Ok c.
Proof.
  pose proof (byte_nibbles c) as (H1 & H2 & H3). unfold hex_pair.
  rewrite (proj1 (hex_at_spec _ H1)), (proj1 (hex_at_spec _ H2)).
  cbn [ok_or mbind result_mbind result_bind]. by rewrite H3.
Qed.

Lemma hex_pairs_chunks key s : hex_pairs key (hex_chunks s) = Ok s.
Proof.
  induction s as [|c s IH]; [done|]. cbn [hex_chunks hex_pairs].
  rewrite hex_pair_encoded. cbn [mbind result_mbind result_bind]. by rewrite IH.
Qed.

Lemma hex_round_trip key s : hex_decode key (hex_encode s) = Ok s.
Proof.
  unfold hex_decode. assert ((N.land (strlen (hex_encode s)) 1 =? 0) = true) as ->.
  { unfold strlen. rewrite hex_encode_length. apply N.eqb_eq.
    change 1 with (N.ones 1). rewrite N.land_ones. rewrite Nat2N.inj_mul.
    change (2 ^ 1) with 2. rewrite N.mul_comm. apply N.Div0.mod_mul. }
  cbn [negb]. rewrite hex_encode_chunks, chunks_exact_concat; [apply hex_pairs_chunks|lia|].
  apply hex_chunks_length.
Qed.

Lemma hex_encode_inj s t : hex_encode s = hex_encode t → s = t.
Proof.
  intros E. pose proof (hex_round_trip "" s) as H. rewrite E, hex_round_trip in H. congruence.
Qed.

(** * Property values *)

(** What a stored value reads back as: a non-negative [SignedInteger] comes back
    as an [Integer]. *)
Definition canonical_value (v : VertexPropertyValue) : VertexPropertyValue :=
  match v with SignedInteger z => from_i64 z | _ => v end.

Lemma value_record_plain v : plain (encode_vertex_property_value_record v) = true.
Proof.
  destruct v as [n|z|[]|f|s]; cbn [encode_vertex_property_value_record];
    rewrite ?app_cons, ?app_nil_l, ?plain_cons; try reflexivity.
  - by rewrite dec_plain.
  - by rewrite dec_Z_plain.
  - by rewrite hex16_plain.
  - by rewrite hex_encode_plain.
Qed.

Lemma split_once_kind (k : ascii) p :
  k ≠ ":"%char → split_once ":"%char (String k (String ":" p)) = Some (String k "", p).
Proof. intros H. apply (split_once_app ":"%char (String k "") p). by apply free_of_cons. Qed.

Lemma value_round_trip key v :
  value_ok v →
  decode_vertex_property_value_record key (encode_vertex_property_value_record v)
  = Ok (canonical_value v).
Proof.
  intros Hv. unfold decode_vertex_property_value_record.
  destruct v as [n|z|[]|[f]|s]; cbn [encode_vertex_property_value_record value_ok canonical_value] in *;
    [| |vm_compute; reflexivity|vm_compute; reflexivity| |];
    rewrite !app_cons, app_nil_l, split_once_kind by done;
    rewrite ?(bool_decide_eq_false_2 (String _ "" = _)), bool_decide_eq_true_2 by done.
  - by rewrite parse_dec.
  - by rewrite parse_dec_Z.
  - by rewrite parse_hex16.
  - rewrite hex_round_trip. cbn [mbind result_mbind result_bind]. by rewrite from_utf8_valid.
Qed.

(** * Index keys of property values *)

Lemma testbit_small x : x < bit63 → N.testbit x 63 = false.
Proof.
  intros H. destruct (decide (x = 0)) as [->|Hx]; [done|].
  apply N.bits_above_log2. apply N.log2_lt_pow2; [lia|]. exact H.
Qed.

Lemma land_bit63 x : N.land x bit63 = if N.testbit x 63 then bit63 else 0.
Proof.
  change bit63 with (2 ^ 63). apply N.bits_inj. intros i.
  rewrite N.land_spec, N.pow2_bits_eqb. destruct (63 =? i) eqn:E.
  - apply N.eqb_eq in E as <-. rewrite andb_true_r. by destruct (N.testbit x 63).
  - rewrite andb_false_r. destruct (N.testbit x 63); [|done]. by rewrite N.pow2_bits_eqb, E.
Qed.

Lemma lxor_bit63_low x : x < bit63 → N.lxor x bit63 = x + bit63.
Proof.
  intros H. symmetry. apply N.add_nocarry_lxor.
  rewrite land_bit63. by rewrite testbit_small.
Qed.

Lemma lxor_bit63_high x : bit63 ≤ x → u64_ok x → N.lxor x bit63 = x - bit63.
Proof.
  intros H1 H2. unfold u64_ok, u64_max, bit63 in *.
  replace x with (N.lxor (x - bit63) bit63) at 1.
  - by rewrite N.lxor_assoc, N.lxor_nilpotent, N.lxor_0_r.
  - rewrite lxor_bit63_low by (unfold bit63; lia). unfold bit63. lia.
Qed.

Lemma testbit_high x : bit63 ≤ x → u64_ok x → N.testbit x 63 = true.
Proof.
  intros H1 H2. replace x with (N.lxor (x - bit63) bit63).
  - rewrite N.lxor_spec, testbit_small by (unfold u64_ok, u64_max, bit63 in *; lia). done.
  - rewrite lxor_bit63_low by (unfold u64_ok, u64_max, bit63 in *; lia).
    unfold bit63 in *. lia.
Qed.

Lemma lxor_max x : u64_ok x → N.lxor x u64_max = u64_max - x.
Proof.
  intros H. change u64_max with (N.ones 64). rewrite <- N.lnot_sub_low; [done|].
  destruct (decide (x = 0)) as [->|]; [done|].
  apply N.log2_lt_pow2; [lia|]. unfold u64_ok, u64_max in H. change (2 ^ 64) with 18446744073709551616. lia.
Qed.

Lemma sortable_float_bits_spec b :
  u64_ok b → Z.of_N (sortable_float_bits b) = (total_key b + 9223372036854775808)%Z.
Proof.
  intros H. unfold sortable_float_bits, total_key, i64_of_bits.
  change (9223372036854775808)%N with bit63. rewrite land_bit63.
  destruct (b <? bit63) eqn:E; [apply N.ltb_lt in E|apply N.ltb_ge in E].
  - rewrite testbit_small, lxor_bit63_low by done. unfold bit63. cbn [N.eqb]. lia.
  - rewrite testbit_high by done. change (bit63 =? 0) with false. cbv iota.
    rewrite lxor_max by done.
    assert (N.lxor b 9223372036854775807 = u64_max + bit63 - b) as ->.
    { change 9223372036854775807 with (N.lxor u64_max bit63).
      rewrite <- N.lxor_assoc, lxor_max by done. unfold u64_ok, u64_max, bit63 in *.
      fold bit63. rewrite lxor_bit63_low by (unfold bit63; lia). unfold bit63. lia. }
    unfold u64_ok, u64_max, bit63 in *.
    rewrite (proj2 (N.ltb_ge _ _)) by lia. lia.
Qed.

Lemma signed_key_spec z :
  i64_ok z → Z.of_N (N.lxor (i64_as_u64 z) bit63) = (z + 9223372036854775808)%Z.
Proof.
  intros [H1 H2]. unfold i64_as_u64, i64_min, i64_max in *. destruct (decide (0 ≤ z)%Z).
  - rewrite Z.mod_small by lia. rewrite lxor_bit63_low by (unfold bit63; lia). unfold bit63. lia.
  - rewrite <- (Z_mod_plus z 1), Z.mod_small by lia.
    rewrite lxor_bit63_high by (unfold u64_ok, u64_max, bit63; lia). unfold bit63. lia.
Qed.

Lemma hex_at_mono x y :
  x < 16 → y < 16 → (byte_of (hex_at x) ?= byte_of (hex_at y)) = (x ?= y).
Proof.
  intros Hx Hy.
  assert (Forall (λ p : N * N, (byte_of (hex_at p.1) ?= byte_of (hex_at p.2)) = (p.1 ?= p.2))
    (x ← N.of_nat <$> seq 0 16; y ← N.of_nat <$> seq 0 16; [(x, y)])) as Hall.
  { vm_compute. repeat constructor. }
  rewrite Forall_forall in Hall. apply (Hall (x, y)).
  assert (∀ z, z < 16 → z ∈ N.of_nat <$> seq 0 16) as Hin.
  { intros z Hz. apply list_elem_of_fmap. exists (N.to_nat z). rewrite elem_of_seq. lia. }
  apply list_elem_of_bind. exists x. split; [|by apply Hin].
  apply list_elem_of_bind. exists y. split; [|by apply Hin]. set_solver.
Qed.

Lemma hex_encode_cons c s :
  hex_encode (String c s) = fixed_go hex_at 16 2 (byte_of c) "" +:+ hex_encode s.
Proof.
  pose proof (byte_of_lt c) as Hc. cbn [hex_encode fixed_go]. cbv zeta.
  change 15 with (N.ones 4). rewrite N.land_ones, N.shiftr_div_pow2. change (2 ^ 4) with 16.
  rewrite (N.mod_small (byte_of c / 16) 16) by (by apply N.Div0.div_lt_upper_bound).
  rewrite !app_cons, app_nil_l. done.
Qed.

Lemma hex_encode_compare s t :
  String.compare (hex_encode s) (hex_encode t) = String.compare s t.
Proof.
  revert t; induction s as [|c s IH]; intros [|d t]; try reflexivity.
  rewrite !hex_encode_cons, compare_app by (by rewrite !fixed_go_length).
  rewrite fixed_compare;
    [|lia|apply hex_at_mono|exact (byte_of_lt c)|exact (byte_of_lt d)].
  cbn [String.compare]. unfold Ascii.compare. fold (byte_of c). fold (byte_of d).
  by destruct (byte_of c ?= byte_of d).
Qed.

(** Two values of one kind, and their order as values. *)
Definition value_cmp (a b : VertexPropertyValue) : option comparison :=
  match a, b with
  | Integer m, Integer n => Some (m ?= n)
  | SignedInteger m, SignedInteger n => Some (m ?= n)%Z
  | PBool m, PBool n => Some (N.b2n m ?= N.b2n n)
  | Float m, Float n => Some (total_cmp m n)
  | PString m, PString n => Some (String.compare m n)
  | _, _ => None
  end.

Lemma compare_cons_eq c a b : String.compare (String c a) (String c b) = String.compare a b.
Proof. cbn. unfold Ascii.compare. by rewrite N.compare_refl. Qed.

Lemma sortable_ok b : u64_ok b → u64_ok (sortable_float_bits b).
Proof.
  intros H. pose proof (sortable_float_bits_spec b H) as E.
  unfold sortable_float_bits in *. destruct (N.land b bit63 =? 0).
  - destruct (decide (b < bit63)).
    + rewrite lxor_bit63_low by done. unfold u64_ok, u64_max, bit63 in *. lia.
    + rewrite lxor_bit63_high by (done || lia). unfold u64_ok in *. lia.
  - rewrite lxor_max by done. unfold u64_ok in *. lia.
Qed.

Lemma signed_key_ok z : i64_ok z → u64_ok (N.lxor (i64_as_u64 z) bit63).
Proof.
  intros H. pose proof (signed_key_spec z H). unfold i64_ok, i64_min, i64_max, u64_ok, u64_max in *. lia.
Qed.

Lemma value_key_plain v : plain (encode_vertex_property_value_key v) = true.
Proof.
  destruct v as [n|z|[]|f|s]; cbn [encode_vertex_property_value_key];
    rewrite ?app_cons, ?app_nil_l, ?plain_cons; try reflexivity.
  - by rewrite pad20_plain.
  - by rewrite hex16_plain.
  - by rewrite hex16_plain.
  - by rewrite hex_encode_plain.
Qed.
#[export] Hint Resolve value_key_plain value_record_plain : hydra.

Lemma value_key_compare a b c :
  value_ok a → value_ok b → value_cmp a b = Some c →
  String.compare (encode_vertex_property_value_key a) (encode_vertex_property_value_key b) = c.
Proof.
  intros Ha Hb Hc.
  destruct a as [m|m|m|[m]|m], b as [n|n|n|[n]|n]; try discriminate Hc; injection Hc as <-;
    cbn [encode_vertex_property_value_key value_ok qf_bits] in *;
    rewrite ?app_cons, ?app_nil_l, ?compare_cons_eq.
  - by apply pad20_compare.
  - rewrite hex16_compare by (by apply signed_key_ok).
    rewrite <- N2Z.inj_compare, !signed_key_spec by done.
    by rewrite !(Z.add_comm _ 9223372036854775808), Z.add_compare_mono_l.
  - by destruct m, n.
  - rewrite hex16_compare by (by apply sortable_ok).
    rewrite <- N2Z.inj_compare, !sortable_float_bits_spec by done.
    by rewrite !(Z.add_comm _ 9223372036854775808), Z.add_compare_mono_l.
  - apply hex_encode_compare.
Qed.

Lemma sortable_float_bits_inj a b :
  u64_ok a → u64_ok b → sortable_float_bits a = sortable_float_bits b → a = b.
Proof.
  intros Ha Hb E. unfold sortable_float_bits in E. rewrite !land_bit63 in E.
  destruct (decide (a < bit63)) as [La|La], (decide (b < bit63)) as [Lb|Lb];
    rewrite ?(testbit_small a), ?(testbit_small b), ?(testbit_high a), ?(testbit_high b) in E
      by (done || lia);
    change (0 =? 0) with true in E; change (bit63 =? 0) with false in E; cbv iota in E;
    rewrite ?(lxor_bit63_low a), ?(lxor_bit63_low b), ?(lxor_max a), ?(lxor_max b) in E by done;
    unfold u64_ok, u64_max, bit63 in *; lia.
Qed.

Lemma value_key_inj a b :
  value_ok a → value_ok b →
  encode_vertex_property_value_key a = encode_vertex_property_value_key b → a = b.
Proof.
  intros Ha Hb E.
  destruct a as [m|m|[]|[m]|m], b as [n|n|[]|[n]|n];
    cbn [encode_vertex_property_value_key value_ok qf_bits] in *;
    rewrite ?app_cons, ?app_nil_l in E; try discriminate E; try reflexivity;
    injection E as E; f_equal.
  - by apply pad20_inj.
  - apply hex16_inj in E; [|by apply signed_key_ok..].
    pose proof (signed_key_spec m Ha) as H1. pose proof (signed_key_spec n Hb) as H2.
    rewrite E in H1. lia.
  - apply hex16_inj in E; [|by apply sortable_ok..].
    apply sortable_float_bits_inj in E; by subst.
  - by apply hex_encode_inj.
Qed.

(** The index key of a property value identifies it and, within a kind, sorts
    as the value does: integers and signed integers numerically, floats by IEEE
    total order (so NaNs and signed zeros included), strings bytewise. *)
Theorem value_index_key_faithful (a b : VertexPropertyValue) (Ha : value_ok a) (Hb : value_ok b) :
  (encode_vertex_property_value_key a = encode_vertex_property_value_key b → a = b) ∧
  (∀ c, value_cmp a b = Some c →
    String.compare (encode_vertex_property_value_key a) (encode_vertex_property_value_key b) = c).
Proof. split; [by apply value_key_inj|]. intros c. by apply value_key_compare. Qed.

Lemma value_index_key_faithful_witness :
  String.compare (encode_vertex_property_value_key (Float (MkQueryFloat 13830554455654793216)))
    (encode_vertex_property_value_key (Float (MkQueryFloat 4607182418800017408))) = Lt.
Proof.
  apply (value_index_key_faithful (Float (MkQueryFloat 13830554455654793216))
    (Float (MkQueryFloat 4607182418800017408)));
    [unfold value_ok, u64_ok, u64_max; cbn; lia..|vm_compute; reflexivity].
Defined.

(** * Metadata *)

Definition props_ok (m : gmap string VertexPropertyValue) : Prop :=
  ∀ name v, m !! name = Some v → component_ok name = true ∧ value_ok v.
Definition vertex_metadata_ok (m : VertexMetadata) : Prop :=
  (∀ l, l ∈ vm_labels m → component_ok l = true) ∧ props_ok (vm_properties m).

(** The line of a property, without its newline. *)
Definition property_text (p : string * VertexPropertyValue) : string :=
  join chr_tab ["property"; p.1; encode_vertex_property_value_record p.2].
Definition label_text (l : string) : string := join chr_tab ["label"; l].

Lemma foldl_unlines {A} (line : A → string) (text : A → string) pre l :
  (∀ a, line a = text a +:+ nl) →
  foldl (λ v a, v +:+ line a) (unlines pre) l = unlines (pre ++ (text <$> l)).
Proof.
  intros Hline. revert pre; induction l as [|a l IH]; intros pre; cbn [foldl fmap list_fmap].
  { by rewrite (right_id_L [] (++)). }
  assert (unlines pre +:+ line a = unlines (pre ++ [text a])) as ->.
  { rewrite unlines_app. cbn [unlines]. by rewrite Hline. }
  rewrite IH. by rewrite <- (assoc_L (++)).
Qed.

Lemma property_line_text p : property_line p = property_text p +:+ nl.
Proof.
  unfold property_line, property_text, tab. cbn [join].
  repeat (rewrite app_assoc || rewrite app_cons). by rewrite !app_nil_l.
Qed.

Definition plain_tab_char (c : ascii) : bool := plain_char c || bool_decide (c = chr_tab).

Lemma plain_line_ok s : str_forall plain_tab_char s = true → line_ok s ∧ str_forall is_ascii s = true.
Proof.
  intros H. split; [split|]; revert H; apply str_forall_mono; intros c Hc;
    (apply orb_prop in Hc as [Hc|Hc];
      [by apply plain_char_inv in Hc as (?&?&?&?&?)|apply bool_decide_eq_true in Hc as ->; done]).
Qed.

Lemma plain_mono s : plain s = true → str_forall plain_tab_char s = true.
Proof. apply str_forall_mono. intros c H. unfold plain_tab_char. by rewrite H. Qed.

Lemma join_tab_plain l :
  Forall (λ s, plain s = true) l → str_forall plain_tab_char (join chr_tab l) = true.
Proof.
  induction l as [|s l IH]; [done|]. intros [Hs Hl]%Forall_cons.
  destruct l as [|s' l]; [by apply plain_mono|].
  change (join chr_tab (s :: s' :: l)) with (s +:+ String chr_tab (join chr_tab (s' :: l))).
  rewrite str_forall_app, (plain_mono s Hs). cbn [andb str_forall].
  rewrite (IH Hl). done.
Qed.

Lemma split_join_plain l :
  l ≠ [] → Forall (λ s, plain s = true) l → split chr_tab (join chr_tab l) = l.
Proof.
  intros Hne Hl. apply split_join; [done|]. eapply Forall_impl; [exact Hl|].
  intros. by apply plain_tab.
Qed.

(** A block of lines made of plain fields decodes to its lines. *)
Lemma decode_lines key l :
  Forall (λ s, str_forall plain_tab_char s = true) l →
  decode_text key (unlines l) = Ok (unlines l) ∧ lines (unlines l) = l.
Proof.
  intros H. split.
  - apply decode_text_ascii. induction l as [|s l IH]; [done|].
    apply Forall_cons in H as [Hs Hl]. cbn [unlines]. rewrite str_forall_app.
    rewrite (proj2 (plain_line_ok s Hs)). cbn [andb str_forall]. by rewrite IH.
  - apply lines_unlines. eapply Forall_impl; [exact H|]. intros s Hs. by apply plain_line_ok.
Qed.

Lemma property_text_split name v :
  component_ok name = true →
  split chr_tab (property_text (name, v)) = ["property"; name; encode_vertex_property_value_record v].
Proof.
  intros Hn. apply split_join_plain; [done|]. cbn.
  repeat constructor; [by apply component_plain|apply value_record_plain].
Qed.

Lemma property_text_plain name v :
  component_ok name = true → str_forall plain_tab_char (property_text (name, v)) = true.
Proof.
  intros Hn. apply join_tab_plain. cbn.
  repeat constructor; [by apply component_plain|apply value_record_plain].
Qed.

Lemma label_text_split l : component_ok l = true → split chr_tab (label_text l) = ["label"; l].
Proof.
  intros Hn. apply split_join_plain; [done|]. repeat constructor. by apply component_plain.
Qed.
Lemma label_text_plain l :
  component_ok l = true → str_forall plain_tab_char (label_text l) = true.
Proof. intros Hn. apply join_tab_plain. repeat constructor. by apply component_plain. Qed.

Lemma props_lines_plain m :
  props_ok m → Forall (λ s, str_forall plain_tab_char s = true) (property_text <$> btree_iter m).
Proof.
  intros Hm. apply Forall_fmap, Forall_forall. intros [name v] Hin.
  apply elem_of_btree_iter in Hin. apply property_text_plain. by eapply Hm.
Qed.

Lemma list_to_map_btree_iter (m : gmap string VertexPropertyValue) :
  foldl (λ acc p, <[p.1 := canonical_value p.2]> acc) ∅ (btree_iter m) = canonical_value <$> m.
Proof.
  rewrite foldl_insert by apply btree_iter_nodup.
  by rewrite btree_iter_to_map, (right_id_L ∅ (∪)).
Qed.

Lemma encode_vertex_metadata_lines m :
  encode_vertex_metadata m
  = unlines ("vertex-metadata-v1" :: (label_text <$> bset_iter (vm_labels m))
      ++ (property_text <$> btree_iter (vm_properties m))).
Proof.
  unfold encode_vertex_metadata. cbv zeta.
  change ("vertex-metadata-v1" +:+ nl) with (unlines ["vertex-metadata-v1"]).
  rewrite (foldl_unlines _ label_text).
  2: { intros l. unfold label_text, tab. cbn [join].
       repeat (rewrite app_assoc || rewrite app_cons). by rewrite !app_nil_l. }
  rewrite (foldl_unlines _ property_text) by apply property_line_text.
  by rewrite <- (assoc_L (++)).
Qed.

Lemma encode_edge_metadata_lines m :
  encode_edge_metadata m
  = unlines ("edge-metadata-v1" :: (property_text <$> btree_iter (emd_properties m))).
Proof.
  unfold encode_edge_metadata.
  change ("edge-metadata-v1" +:+ nl) with (unlines ["edge-metadata-v1"]).
  by rewrite (foldl_unlines _ property_text) by apply property_line_text.
Qed.

Definition add_label (acc : VertexMetadata) (l : string) : VertexMetadata :=
  MkVertexMetadata ({[l]} ∪ vm_labels acc) (vm_properties acc).
Definition add_property (acc : VertexMetadata) (p : string * VertexPropertyValue) : VertexMetadata :=
  MkVertexMetadata (vm_labels acc) (<[p.1 := canonical_value p.2]> (vm_properties acc)).

Lemma foldl_add_label l acc :
  foldl add_label acc l
  = MkVertexMetadata (foldl (λ s a, {[a]} ∪ s) (vm_labels acc) l) (vm_properties acc).
Proof. revert acc; induction l as [|a l IH]; intros [??]; [done|]. cbn [foldl]. by rewrite IH. Qed.
Lemma foldl_add_property l acc :
  foldl add_property acc l
  = MkVertexMetadata (vm_labels acc)
      (foldl (λ m p, <[p.1 := canonical_value p.2]> m) (vm_properties acc) l).
Proof. revert acc; induction l as [|a l IH]; intros [??]; [done|]. cbn [foldl]. by rewrite IH. Qed.

(** Stored vertex metadata reads back: for validated labels and property names
    and values of the stored width, decoding the encoding returns the same labels
    and every property in canonical form. *)
Theorem vertex_metadata_round_trip (key : string) (m : VertexMetadata) (Hm : vertex_metadata_ok m) :
  decode_vertex_metadata key (encode_vertex_metadata m)
  = Ok (MkVertexMetadata (vm_labels m) (canonical_value <$> vm_properties m)).
Proof.
  destruct Hm as [Hl Hp]. rewrite encode_vertex_metadata_lines. unfold decode_vertex_metadata.
  edestruct decode_lines as [-> Hlines].
  { constructor; [reflexivity|]. apply Forall_app_2; [|by apply props_lines_plain].
    apply Forall_fmap, Forall_forall. intros l Hin. apply label_text_plain, Hl.
    by apply elem_of_bset_iter in Hin. }
  cbn [mbind result_mbind result_bind]. rewrite Hlines. rewrite bool_decide_eq_true_2 by done.
  rewrite foldM_app, foldM_fmap.
  rewrite (foldM_total _ add_label).
  2: { intros acc l Hin. apply elem_of_bset_iter, Hl in Hin. rewrite label_text_split by done.
       rewrite bool_decide_eq_true_2 by done.
       by rewrite (proj2 (validate_component_ok _ _) Hin). }
  cbn [mbind result_mbind result_bind].
  rewrite foldM_fmap, (foldM_total _ add_property).
  2: { intros acc [name v] Hin. apply elem_of_btree_iter, Hp in Hin as [Hn Hv].
       rewrite property_text_split by done. rewrite bool_decide_eq_true_2 by done.
       rewrite (proj2 (validate_component_ok _ _) Hn). cbn [mbind result_mbind result_bind].
       by rewrite value_round_trip. }
  f_equal.
  rewrite foldl_add_label, foldl_add_property. cbn [vm_labels vm_properties VertexMetadata_default].
  rewrite list_to_map_btree_iter. f_equal. rewrite foldl_union_singleton, (right_id_L ∅ (∪)).
  apply set_eq. intros x. by rewrite elem_of_list_to_set, elem_of_bset_iter.
Qed.

Lemma vertex_metadata_round_trip_witness :
  decode_vertex_metadata "k"
    (encode_vertex_metadata (MkVertexMetadata {["Person"]} {["age" := SignedInteger 7]}))
  = Ok (MkVertexMetadata {["Person"]} {["age" := Integer 7]}).
Proof.
  rewrite (vertex_metadata_round_trip "k" (MkVertexMetadata {["Person"]} {["age" := SignedInteger 7]})).
  - reflexivity.
  - split; cbn [vm_labels vm_properties].
    + intros l ->%elem_of_singleton. reflexivity.
    + intros name v [<- <-]%lookup_singleton_Some. split; [reflexivity|].
      cbn. unfold i64_ok, i64_min, i64_max. lia.
Defined.

(** Stored edge metadata reads back, every property in canonical form. *)
Theorem edge_metadata_round_trip (key : string) (m : EdgeMetadata) (Hm : props_ok (emd_properties m)) :
  decode_edge_metadata key (encode_edge_metadata m)
  = Ok (MkEdgeMetadata (canonical_value <$> emd_properties m)).
Proof.
  rewrite encode_edge_metadata_lines. unfold decode_edge_metadata.
  edestruct decode_lines as [-> Hlines].
  { constructor; [reflexivity|]. by apply props_lines_plain. }
  cbn [mbind result_mbind result_bind]. rewrite Hlines. rewrite bool_decide_eq_true_2 by done.
  rewrite foldM_fmap.
  rewrite (foldM_total _ (λ acc p, MkEdgeMetadata (<[p.1 := canonical_value p.2]> (emd_properties acc)))).
  2: { intros acc [name v] Hin. apply elem_of_btree_iter, Hm in Hin as [Hn Hv].
       rewrite property_text_split by done. rewrite bool_decide_eq_true_2 by done.
       rewrite (proj2 (validate_component_ok _ _) Hn). cbn [mbind result_mbind result_bind].
       by rewrite value_round_trip. }
  f_equal. rewrite <- list_to_map_btree_iter.
  generalize (btree_iter (emd_properties m)) as l. unfold EdgeMetadata_default.
  intros l. generalize (∅ : gmap string VertexPropertyValue) as acc.
  induction l as [|p l IH]; intros acc; [done|]. cbn [foldl emd_properties]. by rewrite IH.
Qed.

Lemma edge_metadata_round_trip_witness :
  decode_edge_metadata "k" (encode_edge_metadata (MkEdgeMetadata {["since" := PString "2020"]}))
  = Ok (MkEdgeMetadata {["since" := PString "2020"]}).
Proof.
  rewrite (edge_metadata_round_trip "k" (MkEdgeMetadata {["since" := PString "2020"]})).
  - reflexivity.
  - cbn [emd_properties]. intros name v [<- <-]%lookup_singleton_Some. split; reflexivity.
Defined.
