(* ===== verification/CodecRecords.v ===== *)
(** [codec.rs], second part: the identity parsers of keys, edge, relationship and
    segment records, the idempotency records of every operation, query
    statistics, fingerprints and the small numeric helpers. *)

From S2P Require Import Prelude Text Errors Model Namespace Keys Codec.
From Stdlib Require Import Ascii.

Local Open Scope N_scope.

(** * Identities carried by keys *)

Definition lit (s t : string) : bool := bool_decide (s = t).

Definition parse_edge_record_key (key : string) : Result EdgeRecord :=
  let err := corrupt key "cannot infer edge record identity from key" in
  let found cell_id edge_type src dst :=
    _ ← validate_component "cell_id" cell_id;
    _ ← validate_component "edge_type" edge_type;
    s ← parse_u64 key src "src";
    d ← parse_u64 key dst "dst";
    Ok (MkEdgeRecord cell_id edge_type s d) in
  match split chr_slash key with
  | [p0; cell_id; p2; edge_type; src; dst] =>
      if lit p0 "cell" && lit p2 "edge" then found cell_id edge_type src dst else err
  | [p0; cell_id; p2; p3; edge_type; a; b] =>
      if lit p0 "cell" && lit p2 "e" && lit p3 "out" then found cell_id edge_type a b
      else if lit p0 "cell" && lit p2 "e" && lit p3 "in" then found cell_id edge_type b a
      else err
  | _ => err
  end.

Definition parse_relationship_record_key (key : string) : Result RelationshipRecord :=
  let err := corrupt key "cannot infer relationship record identity from key" in
  match split chr_slash key with
  | [p0; cell_id; p2; edge_type; src; dst; relationship_id] =>
      if lit p0 "cell" && lit p2 "rel" then
        _ ← validate_component "cell_id" cell_id;
        _ ← validate_component "edge_type" edge_type;
        s ← parse_u64 key src "src";
        d ← parse_u64 key dst "dst";
        r ← parse_u64 key relationship_id "relationship_id";
        Ok (MkRelationshipRecord cell_id edge_type s d r EdgeMetadata_default)
      else err
  | _ => err
  end.

Definition parse_relationship_property_index_key (key : string)
    : Result (string * string * string * string * VertexId * VertexId * RelationshipId) :=
  let err := corrupt key "expected relationship property index key" in
  match split chr_slash key with
  | [p0; cell_id; p2; edge_type; property; encoded; src; dst; relationship_id] =>
      if lit p0 "cell" && lit p2 "rprop_idx" then
        s ← parse_u64 key src "src";
        d ← parse_u64 key dst "dst";
        r ← parse_u64 key relationship_id "relationship_id";
        Ok (cell_id, edge_type, property, encoded, s, d, r)
      else err
  | _ => err
  end.

Definition parse_out_edge_segment_key (key : string)
    : Result (string * string * VertexId * StorageSequence) :=
  let err := corrupt key "expected canonical outbound segment key" in
  match split chr_slash key with
  | [p0; cell_id; p2; p3; edge_type; src; storage_sequence; segment_id] =>
      if lit p0 "cell" && lit p2 "seg" && lit p3 "out" then
        _ ← validate_component "cell_id" cell_id;
        _ ← validate_component "edge_type" edge_type;
        _ ← validate_component "segment_id" segment_id;
        s ← parse_u64 key src "src";
        q ← parse_u64 key storage_sequence "storage_sequence";
        Ok (cell_id, edge_type, s, q)
      else err
  | _ => err
  end.

Definition parse_out_edge_segment_tombstone_key (key : string)
    : Result (string * string * VertexId * VertexId) :=
  let err := corrupt key "expected canonical outbound segment tombstone key" in
  match split chr_slash key with
  | [p0; cell_id; p2; p3; p4; edge_type; src; dst] =>
      if lit p0 "cell" && lit p2 "seg" && lit p3 "tomb" && lit p4 "out" then
        _ ← validate_component "cell_id" cell_id;
        _ ← validate_component "edge_type" edge_type;
        s ← parse_u64 key src "src";
        d ← parse_u64 key dst "dst";
        Ok (cell_id, edge_type, s, d)
      else err
  | _ => err
  end.

Definition segment_edge_visible (edge_epoch : StorageSequence)
    (tombstone_epoch : option StorageSequence) : bool :=
  match tombstone_epoch with None => true | Some epoch => epoch <? edge_epoch end.

(** * Edge, relationship and segment records *)

Definition edge_record_value : string := "graph-edge" +:+ nl.

Definition encode_edge_record (_record : EdgeRecord) : string := edge_record_value.

Definition decode_edge_record (key value : string) : Result EdgeRecord :=
  if bool_decide (value = edge_record_value) then parse_edge_record_key key
  else corrupt key "expected graph-edge record".

Definition decode_relationship_record (key value : string) : Result RelationshipRecord :=
  text ← decode_text key value;
  match lines text with
  | [] => corrupt key "empty relationship record"
  | header :: rest =>
      if bool_decide (header = "relationship") then
        record ← parse_relationship_record_key key;
        foldM (λ record line,
            match split chr_tab line with
            | [k; name; encoded] =>
                if bool_decide (k = "property") then
                  _ ← validate_component "property" name;
                  v ← decode_vertex_property_value_record key encoded;
                  Ok (MkRelationshipRecord (rr_cell_id record) (rr_edge_type record) (rr_src record)
                        (rr_dst record) (rr_relationship_id record)
                        (MkEdgeMetadata (<[name := v]> (emd_properties (rr_metadata record)))))
                else corrupt key ("invalid relationship record line " +:+ line)
            | _ => corrupt key ("invalid relationship record line " +:+ line)
            end)
          record rest
      else corrupt key "expected relationship header"
  end.

Definition segment_magic : string := "graph-out-segment" +:+ nl.

Definition encode_out_edge_segment_records (destinations : list VertexId) : string :=
  foldl (λ value dst, value +:+ to_be_bytes dst)
    (segment_magic +:+ to_be_bytes (N.of_nat (length destinations))) destinations.

Definition decode_out_edge_segment (key value : string) : Result OutEdgeSegment :=
  '(cell_id, edge_type, src, storage_sequence) ← parse_out_edge_segment_key key;
  match strip_prefix segment_magic value with
  | None => corrupt key "expected graph-out-segment record"
  | Some body =>
      match take_str 8 body with
      | None => corrupt key ("expected graph-out-segment count, got " +:+ dec (strlen body) +:+ " bytes")
      | Some (count_bytes, edge_bytes) =>
          let expected := from_be_bytes count_bytes in
          match checked_mul expected 8 with
          | None => corrupt key ("graph-out-segment count " +:+ dec expected +:+ " is too large")
          | Some expected_bytes =>
              if negb (strlen edge_bytes =? expected_bytes) then
                corrupt key ("expected " +:+ dec expected_bytes
                  +:+ " graph-out-segment destination bytes, got " +:+ dec (strlen edge_bytes))
              else Ok (MkOutEdgeSegment cell_id edge_type src storage_sequence
                        (from_be_bytes <$> chunks_exact 8 edge_bytes))
          end
      end
  end.

(** * Idempotency records

    One line of tab-separated fields.  A replay compares the request with what the
    record says it answered. *)

Definition record_line (fields : list string) : string := join chr_tab fields +:+ nl.
Definition record_fields (text : string) : list string := split chr_tab (trim_end_matches chr_nl text).

Definition encode_commit_idempotency (m : EdgeMutation) (r : CommitResult) : string :=
  record_line ["graph-commit-idempotency-v1"; dec (cr_epoch r); flag (cr_already_existed r);
    em_cell_id m; em_edge_type m; dec (em_src m); dec (em_dst m)].

Definition encode_delete_idempotency (m : EdgeMutation) (r : DeleteResult) : string :=
  record_line ["graph-delete-idempotency-v1"; dec (dr_epoch r); flag (dr_deleted r);
    em_cell_id m; em_edge_type m; dec (em_src m); dec (em_dst m)].

Definition encode_relationship_delete_idempotency (m : EdgeMutation)
    (relationship_id : RelationshipId) (r : DeleteResult) : string :=
  record_line ["relationship_delete1"; dec (dr_epoch r); flag (dr_deleted r);
    em_cell_id m; em_edge_type m; dec (em_src m); dec (em_dst m); dec relationship_id].

Definition encode_vertex_delete_idempotency (cell_id : string) (vertex_id : VertexId)
    (r : VertexDeleteResult) : string :=
  record_line ["vertex_delete1"; dec (vdr_epoch r); flag (vdr_vertex_deleted r);
    dec (vdr_incident_edges_deleted r); dec (vdr_relationships_deleted r); cell_id; dec vertex_id].

Definition encode_cell_drop_idempotency (cell_id idempotency_key : string)
    (r : GraphCellDropResult) : string :=
  record_line ["cell_drop1"; dec (gcd_marker_epoch r); dec (gcd_deleted_keys r);
    dec (gcd_batches r); flag (gcd_already_dropped r); cell_id; idempotency_key].

Definition encode_bulk_import_idempotency (idempotency_key : string) (fingerprint : N)
    (r : BulkImportResult) : string :=
  record_line ["bulk_import1"; dec (bir_start_epoch r); dec (bir_end_epoch r);
    dec (bir_inserted r); dec (bir_already_existed r); dec fingerprint; idempotency_key].

Definition encode_relationship_import_idempotency (idempotency_key : string) (fingerprint : N)
    (r : RelationshipImportResult) : string :=
  record_line ["relationship_import1"; dec (rir_start_epoch r); dec (rir_end_epoch r);
    dec (rir_relationships_inserted r); dec (rir_relationships_already_existed r);
    dec (rir_structural_edges_inserted r); dec (rir_structural_edges_already_existed r);
    dec fingerprint; idempotency_key].

Definition encode_relationship_create_idempotency (m : EdgeMutation) (fingerprint : N)
    (r : RelationshipCreateResult) : string :=
  record_line ["relationship_create1"; dec (rcr_epoch r); dec (rcr_relationship_id r);
    flag (rcr_structural_edge_inserted r); flag (rcr_already_created r); dec fingerprint;
    em_cell_id m; em_edge_type m; dec (em_src m); dec (em_dst m)].

Definition encode_segment_compaction_idempotency (idempotency_key : string)
    (r : SegmentCompactionResult) : string :=
  record_line ["segment_compact1"; dec (scr_compacted_through_epoch r); dec (scr_source_segments r);
    dec (scr_deleted_segment_keys r); dec (scr_deleted_tombstone_keys r); dec (scr_input_edges r);
    dec (scr_output_edges r); idempotency_key].

Definition ensure_idempotent_edge (key operation : string) (m : EdgeMutation)
    (fields : list string) : Result unit :=
  match fields with
  | [cell_id; edge_type; src; dst] =>
      let differs := conflict operation (em_idempotency_key m)
        "this key already stored a result for a different edge" in
      if negb (lit cell_id (em_cell_id m)) || negb (lit edge_type (em_edge_type m)) then differs
      else
        s ← parse_u64 key src "src";
        if negb (s =? em_src m) then differs
        else
          d ← parse_u64 key dst "dst";
          if negb (d =? em_dst m) then differs else Ok tt
  | _ => corrupt key "expected idempotency edge identity"
  end.

Definition decode_commit_idempotency (key : string) (m : EdgeMutation) (value : string)
    : Result CommitResult :=
  text ← decode_text key value;
  let err := corrupt key "expected graph-commit-idempotency-v1 record with 7 fields" in
  match record_fields text with
  | [p0; p1; p2; p3; p4; p5; p6] =>
      if lit p0 "graph-commit-idempotency-v1" then
        _ ← ensure_idempotent_edge key "create" m [p3; p4; p5; p6];
        already_existed ← decode_bool_flag key p2 "already_existed";
        epoch ← parse_u64 key p1 "epoch";
        Ok (MkCommitResult epoch already_existed)
      else err
  | _ => err
  end.

Definition decode_delete_idempotency (key : string) (m : EdgeMutation) (value : string)
    : Result DeleteResult :=
  text ← decode_text key value;
  let err := corrupt key "expected graph-delete-idempotency-v1 record with 7 fields" in
  match record_fields text with
  | [p0; p1; p2; p3; p4; p5; p6] =>
      if lit p0 "graph-delete-idempotency-v1" then
        _ ← ensure_idempotent_edge key "delete" m [p3; p4; p5; p6];
        deleted ← decode_bool_flag key p2 "deleted";
        epoch ← parse_u64 key p1 "epoch";
        Ok (MkDeleteResult epoch deleted)
      else err
  | _ => err
  end.

Definition decode_bulk_import_idempotency (key idempotency_key : string) (fingerprint : N)
    (value : string) : Result BulkImportResult :=
  text ← decode_text key value;
  let err := corrupt key "expected bulk_import1 record with 7 fields" in
  match record_fields text with
  | [p0; p1; p2; p3; p4; p5; p6] =>
      if lit p0 "bulk_import1" then
        if negb (lit p6 idempotency_key) then
          conflict "bulk-import" idempotency_key "the stored record names a different key"
        else
          f ← parse_u64 key p5 "fingerprint";
          if negb (f =? fingerprint) then
            conflict "bulk-import" idempotency_key
              "this key already stored a result for a different payload"
          else
            start_epoch ← parse_u64 key p1 "start_epoch";
            end_epoch ← parse_u64 key p2 "end_epoch";
            inserted ← parse_u64 key p3 "inserted";
            already_existed ← parse_u64 key p4 "already_existed";
            Ok (MkBulkImportResult start_epoch end_epoch inserted already_existed)
      else err
  | _ => err
  end.

Definition decode_relationship_import_idempotency (key idempotency_key : string) (fingerprint : N)
    (value : string) : Result RelationshipImportResult :=
  text ← decode_text key value;
  let err := corrupt key "expected relationship_import1 record with 9 fields" in
  match record_fields text with
  | [p0; p1; p2; p3; p4; p5; p6; p7; p8] =>
      if lit p0 "relationship_import1" then
        if negb (lit p8 idempotency_key) then
          conflict "relationship-import" idempotency_key "the stored record names a different key"
        else
          f ← parse_u64 key p7 "fingerprint";
          if negb (f =? fingerprint) then
            conflict "relationship-import" idempotency_key
              "this key already stored a result for a different payload"
          else
            start_epoch ← parse_u64 key p1 "start_epoch";
            end_epoch ← parse_u64 key p2 "end_epoch";
            ri ← parse_u64 key p3 "relationships_inserted";
            re ← parse_u64 key p4 "relationships_already_existed";
            si ← parse_u64 key p5 "structural_edges_inserted";
            se ← parse_u64 key p6 "structural_edges_already_existed";
            Ok (MkRelationshipImportResult start_epoch end_epoch ri re si se)
      else err
  | _ => err
  end.

Definition decode_relationship_create_idempotency (key : string) (m : EdgeMutation)
    (fingerprint : N) (value : string) : Result RelationshipCreateResult :=
  text ← decode_text key value;
  let err := corrupt key "expected relationship_create1 record with 10 fields" in
  let differs := conflict "relationship-create" (em_idempotency_key m)
    "this key already stored a result for a different edge or payload" in
  match record_fields text with
  | [p0; p1; p2; p3; p4; p5; p6; p7; p8; p9] =>
      if lit p0 "relationship_create1" then
        f ← parse_u64 key p5 "fingerprint";
        if negb (f =? fingerprint) || negb (lit p6 (em_cell_id m)) || negb (lit p7 (em_edge_type m))
        then differs
        else
          s ← parse_u64 key p8 "src";
          if negb (s =? em_src m) then differs
          else
            d ← parse_u64 key p9 "dst";
            if negb (d =? em_dst m) then differs
            else
              epoch ← parse_u64 key p1 "epoch";
              relationship_id ← parse_u64 key p2 "relationship_id";
              inserted ← parse_bool_u8 key p3 "structural_edge_inserted";
              already ← parse_bool_u8 key p4 "already_created";
              Ok (MkRelationshipCreateResult epoch relationship_id inserted already)
      else err
  | _ => err
  end.

Definition decode_relationship_delete_idempotency (key : string) (m : EdgeMutation)
    (relationship_id : RelationshipId) (value : string) : Result DeleteResult :=
  text ← decode_text key value;
  let err := corrupt key "expected relationship_delete1 record with 8 fields" in
  let differs := conflict "relationship-delete" (em_idempotency_key m)
    "this key already stored a result for a different relationship" in
  match record_fields text with
  | [p0; p1; p2; p3; p4; p5; p6; p7] =>
      if lit p0 "relationship_delete1" then
        if negb (lit p3 (em_cell_id m)) || negb (lit p4 (em_edge_type m)) then differs
        else
          s ← parse_u64 key p5 "src";
          if negb (s =? em_src m) then differs
          else
            d ← parse_u64 key p6 "dst";
            if negb (d =? em_dst m) then differs
            else
              r ← parse_u64 key p7 "relationship_id";
              if negb (r =? relationship_id) then differs
              else
                epoch ← parse_u64 key p1 "epoch";
                deleted ← parse_bool_u8 key p2 "deleted";
                Ok (MkDeleteResult epoch deleted)
      else err
  | _ => err
  end.

Definition decode_vertex_delete_idempotency (key cell_id : string) (vertex_id : VertexId)
    (idempotency_key value : string) : Result VertexDeleteResult :=
  text ← decode_text key value;
  let err := corrupt key "expected vertex_delete1 record with 7 fields" in
  let differs := conflict "vertex-delete" idempotency_key
    "this key already stored a result for a different vertex" in
  match record_fields text with
  | [p0; p1; p2; p3; p4; p5; p6] =>
      if lit p0 "vertex_delete1" then
        if negb (lit p5 cell_id) then differs
        else
          v ← parse_u64 key p6 "vertex_id";
          if negb (v =? vertex_id) then differs
          else
            epoch ← parse_u64 key p1 "epoch";
            vertex_deleted ← parse_bool_u8 key p2 "vertex_deleted";
            incident ← parse_u64 key p3 "incident_edges_deleted";
            relationships ← parse_u64 key p4 "relationships_deleted";
            Ok (MkVertexDeleteResult epoch vertex_deleted incident relationships)
      else err
  | _ => err
  end.

Definition decode_cell_drop_idempotency (key cell_id idempotency_key value : string)
    : Result GraphCellDropResult :=
  text ← decode_text key value;
  let err := corrupt key "expected cell_drop1 record with 7 fields" in
  match record_fields text with
  | [p0; p1; p2; p3; p4; p5; p6] =>
      if lit p0 "cell_drop1" then
        if negb (lit p5 cell_id) || negb (lit p6 idempotency_key) then
          conflict "cell-drop" idempotency_key "this key already stored a result for a different cell"
        else
          marker_epoch ← parse_u64 key p1 "marker_epoch";
          deleted_keys ← parse_u64 key p2 "deleted_keys";
          batches ← parse_u64 key p3 "batches";
          already_dropped ← parse_bool_u8 key p4 "already_dropped";
          Ok (MkGraphCellDropResult marker_epoch deleted_keys batches already_dropped)
      else err
  | _ => err
  end.

Definition decode_segment_compaction_idempotency (key idempotency_key : string)
    (compacted_through_epoch : StorageSequence) (value : string) : Result SegmentCompactionResult :=
  text ← decode_text key value;
  let err := corrupt key "expected segment_compact1 record with 8 fields" in
  match record_fields text with
  | [p0; p1; p2; p3; p4; p5; p6; p7] =>
      if lit p0 "segment_compact1" then
        if negb (lit p7 idempotency_key) then
          conflict "segment-compact" idempotency_key "the stored record names a different key"
        else
          recorded_epoch ← parse_u64 key p1 "compacted_through_epoch";
          if negb (recorded_epoch =? compacted_through_epoch) then
            conflict "segment-compact" idempotency_key
              "a stored result for this key compacted through a different epoch"
          else
            source_segments ← parse_u64 key p2 "source_segments";
            deleted_segment_keys ← parse_u64 key p3 "deleted_segment_keys";
            deleted_tombstone_keys ← parse_u64 key p4 "deleted_tombstone_keys";
            input_edges ← parse_u64 key p5 "input_edges";
            output_edges ← parse_u64 key p6 "output_edges";
            Ok (MkSegmentCompactionResult recorded_epoch source_segments deleted_segment_keys
                  deleted_tombstone_keys input_edges output_edges)
      else err
  | _ => err
  end.

(** * Query statistics *)

Definition stats_line (field : string) (v : N) : string := field +:+ tab +:+ dec v +:+ nl.

Definition encode_query_stats_record (r : QueryStatsRecord) : string :=
  "query-stats-v1" +:+ nl +:+ stats_line "count" (qs_count r)
    +:+ stats_line "read_epoch" (qs_read_epoch r)
    +:+ stats_line "refreshed_at_ms" (qs_refreshed_at_ms r)
    +:+ stats_line "distinct_values" (qs_distinct_values r)
    +:+ stats_line "total_values" (qs_total_values r)
    +:+ stats_line "most_common_count" (qs_most_common_count r).

Definition required_query_stats_field (key field : string) (value : option N) : Result N :=
  ok_or value (CorruptValue key ("missing query stats field " +:+ field)).

(** The six [Option]s the decoder fills in. *)
Record StatsFields := MkStatsFields {
  sf_count : option N; sf_read_epoch : option N; sf_refreshed_at_ms : option N;
  sf_distinct_values : option N; sf_total_values : option N; sf_most_common_count : option N }.

Definition stats_field_line (key : string) (f : StatsFields) (line : string) : Result StatsFields :=
  match split chr_tab line with
  | [field; value] =>
      parsed ← map_err (λ e, CorruptValue key ("invalid query stats " +:+ field +:+ " value "
                 +:+ value +:+ ": " +:+ int_error_text e)) (parse_u64_text value);
      let '(MkStatsFields a b c d e g) := f in
      if lit field "count" then Ok (MkStatsFields (Some parsed) b c d e g)
      else if lit field "read_epoch" then Ok (MkStatsFields a (Some parsed) c d e g)
      else if lit field "refreshed_at_ms" then Ok (MkStatsFields a b (Some parsed) d e g)
      else if lit field "distinct_values" then Ok (MkStatsFields a b c (Some parsed) e g)
      else if lit field "total_values" then Ok (MkStatsFields a b c d (Some parsed) g)
      else if lit field "most_common_count" then Ok (MkStatsFields a b c d e (Some parsed))
      else corrupt key ("unknown query stats field " +:+ field)
  | _ => corrupt key ("invalid query stats line " +:+ line)
  end.

Definition decode_query_stats_record (key value : string) : Result QueryStatsRecord :=
  if (String.length value =? 8)%nat then
    count ← decode_u64 key value; Ok (point_count count 0 0)
  else
    text ← decode_text key value;
    match lines text with
    | [] => corrupt key "empty query stats record"
    | header :: rest =>
        if bool_decide (header = "query-stats-v1") then
          f ← foldM (stats_field_line key) (MkStatsFields None None None None None None) rest;
          count ← required_query_stats_field key "count" (sf_count f);
          read_epoch ← required_query_stats_field key "read_epoch" (sf_read_epoch f);
          refreshed ← required_query_stats_field key "refreshed_at_ms" (sf_refreshed_at_ms f);
          distinct ← required_query_stats_field key "distinct_values" (sf_distinct_values f);
          total ← required_query_stats_field key "total_values" (sf_total_values f);
          common ← required_query_stats_field key "most_common_count" (sf_most_common_count f);
          Ok (MkQueryStatsRecord count read_epoch refreshed distinct total common)
        else corrupt key ("unsupported query stats version " +:+ header)
    end.

(** * Fingerprints and lanes *)

Definition FNV_OFFSET : N := 14695981039346656037.
Definition FNV_PRIME : N := 1099511628211.

(** The byte loop the fingerprints share: FNV-1a. *)
Fixpoint fnv_update (hash : N) (s : string) : N :=
  match s with
  | "" => hash
  | String c s' => fnv_update (wrapping_mul (N.lxor hash (byte_of c)) FNV_PRIME) s'
  end.
Definition nul : string := String "000" "".

Definition bulk_import_fingerprint (cell_id edge_type : string) (edges : list (VertexId * VertexId)) : N :=
  let hash := fnv_update (fnv_update (fnv_update (fnv_update FNV_OFFSET cell_id) nul) edge_type) nul in
  foldl (λ h e, fnv_update (fnv_update h (to_be_bytes e.1)) (to_be_bytes e.2)) hash edges.

Definition fingerprint_property (tag : string) (h : N) (p : string * VertexPropertyValue) : N :=
  let h := if bool_decide (tag = "") then h else fnv_update h tag in
  fnv_update (fnv_update (fnv_update (fnv_update h p.1) "=")
    (encode_vertex_property_value_record p.2)) nul.

Definition relationship_import_fingerprint (cell_id edge_type : string)
    (relationships : list RelationshipMutation) : N :=
  let hash := fnv_update (fnv_update (fnv_update (fnv_update FNV_OFFSET cell_id) nul) edge_type) nul in
  foldl (λ h r,
      let h := fnv_update (fnv_update (fnv_update h (to_be_bytes (rm_src r))) (to_be_bytes (rm_dst r)))
                 (to_be_bytes (rm_relationship_id r)) in
      foldl (fingerprint_property "") h (btree_iter (emd_properties (rm_metadata r))))
    hash relationships.

Definition relationship_create_fingerprint (m : EdgeMutation)
    (metadata_updates : list (VertexId * VertexMetadata)) (edge_metadata : EdgeMetadata) : N :=
  let hash := fnv_update (fnv_update (fnv_update (fnv_update FNV_OFFSET (em_cell_id m)) nul)
                (em_edge_type m)) nul in
  let hash := fnv_update (fnv_update (fnv_update hash (to_be_bytes (em_src m)))
                (to_be_bytes (em_dst m))) nul in
  let hash := foldl (λ h u,
      let h := fnv_update h (to_be_bytes u.1) in
      let h := foldl (λ h label, fnv_update (fnv_update (fnv_update h "label:") label) nul) h
                 (bset_iter (vm_labels u.2)) in
      foldl (fingerprint_property "vprop:") h (btree_iter (vm_properties u.2)))
    hash metadata_updates in
  foldl (fingerprint_property "rprop:") hash (btree_iter (emd_properties edge_metadata)).

(** [u64::rotate_left]. *)
Definition rotate_left (n k : N) : N :=
  N.lor (N.shiftl n k mod u64_size) (N.shiftr n (64 - k)).

Definition bulk_import_chunk_order (src dst : VertexId) : N :=
  let v := N.lxor (N.lxor src (rotate_left dst 32)) 11400714819323198485 in
  let v := wrapping_mul (N.lxor v (N.shiftr v 30)) 13787848793156543929 in
  let v := wrapping_mul (N.lxor v (N.shiftr v 27)) 10723151780598845931 in
  N.lxor v (N.shiftr v 31).

Definition segment_compaction_idempotency_operation (edge_type : string) (src : VertexId) : string :=
  "segment-compact-" +:+ edge_type +:+ "-" +:+ pad20 src.

Definition GRAPH_WRITE_LANES : N := 64.
Definition writer_lane_index (cell_id : string) : N := fnv_update FNV_OFFSET cell_id mod GRAPH_WRITE_LANES.

(** The running totals of an ingest. *)
Record IngestTotals := MkIngestTotals {
  it_start_epoch : option StorageSequence; it_end_epoch : StorageSequence;
  it_inserted : N; it_already_existed : N; it_batches : N }.

Definition merge_ingest_batch (batch : EdgeMutationBatchResult) (t : IngestTotals) : IngestTotals :=
  MkIngestTotals
    (if 0 <? emb_inserted batch then
       Some (match it_start_epoch t with
             | None => emb_start_epoch batch
             | Some epoch => N.min epoch (emb_start_epoch batch)
             end)
     else it_start_epoch t)
    (N.max (it_end_epoch t) (emb_end_epoch batch))
    (saturating_add (it_inserted t) (emb_inserted batch))
    (saturating_add (it_already_existed t) (emb_already_existed batch))
    (saturating_add (it_batches t) 1).
