(* ===== verification/CodecRecordFacts.v ===== *)
(** [CodecRecords]: keys give back the identity they were built from, edge,
    relationship and segment records round-trip, a segment value has one
    encoding, and every idempotency record answers a replay of the same request
    with the stored result and any other request with a conflict. *)

From S2P Require Import Prelude Text TextFacts Errors Model Namespace Keys KeysFacts.
From S2P Require Import Codec CodecFacts CodecRecords.
From Stdlib Require Import Ascii.

Local Open Scope N_scope.

(** * Identities *)

Lemma validate_component_true c v : component_ok v = true → validate_component c v = Ok tt.
Proof. intros H. by apply validate_component_ok. Qed.

(** Run a decoder on literals: the tests of fixed words reduce, a validated name
    passes, a printed number parses. *)
Ltac run_decoder :=
  repeat first
    [ progress cbn [mbind result_mbind result_bind fmap result_fmap mret result_mret map_err ok_or negb andb orb]
    | rewrite validate_component_true by assumption
    | rewrite parse_u64_pad20 by assumption
    | rewrite parse_u64_dec by assumption
    | rewrite parse_bool_flag
    | rewrite decode_bool_flag_flag
    | rewrite N.eqb_refl
    | match goal with
      | |- context [lit ?a ?a] =>
          replace (lit a a) with true by (symmetry; apply bool_decide_eq_true_2; reflexivity)
      end ].

Section edge_keys.
Context (c t : string) (s d : N).
Context (Hc : component_ok c = true) (Ht : component_ok t = true) (Hs : u64_ok s) (Hd : u64_ok d).

Lemma edge_key_wf k :
  k = KEdge c t s d ∨ k = KOutEdge c t s d ∨ k = KInEdge c t d s ∨ k = KOutSegmentTombstone c t s d →
  key_wf k.
Proof. intros [->|[->|[->| ->]]]; cbn; unfold name_ok; auto 10 with hydra. Qed.

Lemma parse_edge_key : parse_edge_record_key (keys.edge c t s d) = Ok (MkEdgeRecord c t s d).
Proof.
  unfold parse_edge_record_key. change (keys.edge c t s d) with (render (KEdge c t s d)).
  rewrite split_render by (apply edge_key_wf; auto). cbn [segs]. run_decoder. done.
Qed.
Lemma parse_out_edge_key : parse_edge_record_key (keys.out_edge c t s d) = Ok (MkEdgeRecord c t s d).
Proof.
  unfold parse_edge_record_key. change (keys.out_edge c t s d) with (render (KOutEdge c t s d)).
  rewrite split_render by (apply edge_key_wf; auto). cbn [segs]. run_decoder. done.
Qed.
Lemma parse_in_edge_key : parse_edge_record_key (keys.in_edge c t d s) = Ok (MkEdgeRecord c t s d).
Proof.
  unfold parse_edge_record_key. change (keys.in_edge c t d s) with (render (KInEdge c t d s)).
  rewrite split_render by (apply edge_key_wf; auto). cbn [segs]. run_decoder.
  change (lit "in" "out") with false. run_decoder. done.
Qed.
Lemma parse_tombstone_key :
  parse_out_edge_segment_tombstone_key (keys.out_segment_tombstone c t s d) = Ok (c, t, s, d).
Proof.
  unfold parse_out_edge_segment_tombstone_key.
  change (keys.out_segment_tombstone c t s d) with (render (KOutSegmentTombstone c t s d)).
  rewrite split_render by (apply edge_key_wf; auto). cbn [segs]. run_decoder. done.
Qed.
Lemma parse_relationship_key r :
  u64_ok r →
  parse_relationship_record_key (keys.relationship c t s d r)
  = Ok (MkRelationshipRecord c t s d r EdgeMetadata_default).
Proof.
  intros Hr. unfold parse_relationship_record_key.
  change (keys.relationship c t s d r) with (render (KRelationship c t s d r)).
  rewrite split_render by (cbn; unfold name_ok; auto 10 with hydra). cbn [segs]. run_decoder. done.
Qed.
Lemma parse_segment_key q id :
  u64_ok q → component_ok id = true →
  parse_out_edge_segment_key (keys.out_segment c t s q id) = Ok (c, t, s, q).
Proof.
  intros Hq Hid. unfold parse_out_edge_segment_key.
  change (keys.out_segment c t s q id) with (render (KOutSegment c t s q id)).
  rewrite split_render by (cbn; unfold name_ok; auto 10 with hydra). cbn [segs]. run_decoder. done.
Qed.
Lemma parse_rprop_key p v r :
  component_ok p = true → u64_ok r →
  parse_relationship_property_index_key
    (keys.relationship_property_index c t p (encode_vertex_property_value_key v) s d r)
  = Ok (c, t, p, encode_vertex_property_value_key v, s, d, r).
Proof.
  intros Hp Hr. unfold parse_relationship_property_index_key.
  change (keys.relationship_property_index c t p ?e s d r)
    with (render (KRelationshipPropertyIndex c t p e s d r)).
  rewrite split_render by (cbn; unfold name_ok; auto 12 with hydra). cbn [segs]. run_decoder. done.
Qed.
End edge_keys.

(** An edge record carries its identity in its key alone: the canonical, the
    outbound and the inbound key of one edge all decode, with the one stored
    value, to that edge (the inbound key with its endpoints swapped back), and any
    other stored value is refused. *)
Theorem edge_record_identity (c t : string) (s d : N) (value : string)
    (Hc : component_ok c = true) (Ht : component_ok t = true) (Hs : u64_ok s) (Hd : u64_ok d) :
  let answer key :=
    if bool_decide (value = encode_edge_record (MkEdgeRecord c t s d)) then Ok (MkEdgeRecord c t s d)
    else Err (CorruptValue key "expected graph-edge record") in
  decode_edge_record (keys.edge c t s d) value = answer (keys.edge c t s d) ∧
  decode_edge_record (keys.out_edge c t s d) value = answer (keys.out_edge c t s d) ∧
  decode_edge_record (keys.in_edge c t d s) value = answer (keys.in_edge c t d s).
Proof.
  unfold decode_edge_record, encode_edge_record. cbv zeta.
  rewrite parse_edge_key, parse_out_edge_key, parse_in_edge_key by done. done.
Qed.

Lemma edge_record_identity_witness :
  decode_edge_record (keys.in_edge "c" "KNOWS" 9 7) edge_record_value
  = Ok (MkEdgeRecord "c" "KNOWS" 7 9).
Proof.
  assert (u64_ok 7 ∧ u64_ok 9) as [H7 H9] by (unfold u64_ok, u64_max; lia).
  destruct (edge_record_identity "c" "KNOWS" 7 9 edge_record_value eq_refl eq_refl H7 H9)
    as (_ & _ & H). exact H.
Defined.

(** * Relationship records *)

Definition relationship_ok (r : RelationshipRecord) : Prop :=
  component_ok (rr_cell_id r) = true ∧ component_ok (rr_edge_type r) = true ∧
  u64_ok (rr_src r) ∧ u64_ok (rr_dst r) ∧ u64_ok (rr_relationship_id r) ∧
  props_ok (emd_properties (rr_metadata r)).

Definition relationship_key (r : RelationshipRecord) : string :=
  keys.relationship (rr_cell_id r) (rr_edge_type r) (rr_src r) (rr_dst r) (rr_relationship_id r).

(** Adding a decoded property to a record. *)
Definition add_rel_property (acc : RelationshipRecord) (p : string * VertexPropertyValue) : RelationshipRecord :=
  MkRelationshipRecord (rr_cell_id acc) (rr_edge_type acc) (rr_src acc) (rr_dst acc)
    (rr_relationship_id acc)
    (MkEdgeMetadata (<[p.1 := canonical_value p.2]> (emd_properties (rr_metadata acc)))).

Lemma foldl_add_rel_property l acc :
  foldl add_rel_property acc l
  = MkRelationshipRecord (rr_cell_id acc) (rr_edge_type acc) (rr_src acc) (rr_dst acc)
      (rr_relationship_id acc)
      (MkEdgeMetadata (foldl (λ m p, <[p.1 := canonical_value p.2]> m)
        (emd_properties (rr_metadata acc)) l)).
Proof. revert acc; induction l as [|p l IH]; intros [????? []]; [done|]. cbn [foldl]. by rewrite IH. Qed.

(** A stored relationship reads back under its own key: identity from the key,
    properties from the value, in canonical form. *)
Theorem relationship_record_round_trip (r : RelationshipRecord) (Hr : relationship_ok r) :
  decode_relationship_record (relationship_key r) (encode_relationship_record r)
  = Ok (MkRelationshipRecord (rr_cell_id r) (rr_edge_type r) (rr_src r) (rr_dst r)
         (rr_relationship_id r) (MkEdgeMetadata (canonical_value <$> emd_properties (rr_metadata r)))).
Proof.
  destruct Hr as (Hc & Ht & Hs & Hd & Hi & Hm).
  assert (encode_relationship_record r
    = unlines ("relationship" :: (property_text <$> btree_iter (emd_properties (rr_metadata r))))) as ->.
  { unfold encode_relationship_record. change ("relationship" +:+ nl) with (unlines ["relationship"]).
    by rewrite (foldl_unlines _ property_text) by apply property_line_text. }
  unfold decode_relationship_record, relationship_key.
  edestruct decode_lines as [-> Hlines].
  { constructor; [reflexivity|]. by apply props_lines_plain. }
  cbn [mbind result_mbind result_bind]. rewrite Hlines, bool_decide_eq_true_2 by done.
  rewrite parse_relationship_key by done. cbn [mbind result_mbind result_bind].
  rewrite foldM_fmap, (foldM_total _ add_rel_property).
  - by rewrite foldl_add_rel_property, <- list_to_map_btree_iter.
  - intros acc [name v] Hin. apply elem_of_btree_iter, Hm in Hin as [Hn Hv].
    rewrite property_text_split by done. rewrite bool_decide_eq_true_2 by done.
    rewrite validate_component_true by done. cbn [mbind result_mbind result_bind].
    by rewrite value_round_trip.
Qed.

Lemma relationship_record_round_trip_witness :
  let r := MkRelationshipRecord "c" "KNOWS" 1 2 3 (MkEdgeMetadata {["w" := Integer 5]}) in
  decode_relationship_record (relationship_key r) (encode_relationship_record r) = Ok r.
Proof.
  cbv zeta. rewrite relationship_record_round_trip; [reflexivity|].
  unfold relationship_ok, u64_ok, u64_max.
  cbn [rr_cell_id rr_edge_type rr_src rr_dst rr_relationship_id rr_metadata emd_properties].
  repeat (split; [reflexivity || lia|]).
  intros name v [<- <-]%lookup_singleton_Some. split; [reflexivity|].
  cbn. unfold u64_ok, u64_max. lia.
Defined.

(** * Segments *)

Lemma foldl_concat_words pre l :
  foldl (λ value dst, value +:+ to_be_bytes dst) pre l = pre +:+ concat_str (to_be_bytes <$> l).
Proof.
  revert pre; induction l as [|d l IH]; intros pre; cbn [foldl fmap list_fmap concat_str].
  - by rewrite app_nil_r.
  - by rewrite IH, app_assoc.
Qed.

Lemma take_str_inv k s a b : take_str k s = Some (a, b) → s = a +:+ b ∧ String.length a = k.
Proof.
  revert s a b; induction k as [|k IH]; intros s a b; cbn.
  - destruct s; intros [= <- <-]; done.
  - destruct s as [|c s]; [done|]. destruct (take_str k s) as [[x y]|] eqn:E; [|done].
    intros [= <- <-]. apply IH in E as [-> Hl]. cbn. by rewrite Hl.
Qed.

Lemma from_be_acc a s : from_be a s = a * 256 ^ N.of_nat (String.length s) + from_be 0 s.
Proof.
  revert a; induction s as [|c s IH]; intros a; cbn [from_be String.length].
  - rewrite N.pow_0_r. lia.
  - rewrite IH, (IH (0 * 256 + byte_of c)). rewrite Nat2N.inj_succ, N.pow_succ_r'. lia.
Qed.

Lemma from_be_bound s : from_be 0 s < 256 ^ N.of_nat (String.length s).
Proof.
  induction s as [|c s IH]; cbn [from_be String.length]; [cbn; lia|].
  rewrite from_be_acc, Nat2N.inj_succ, N.pow_succ_r'. pose proof (byte_of_lt c). nia.
Qed.

Lemma from_be_inj s t :
  String.length s = String.length t → from_be_bytes s = from_be_bytes t → s = t.
Proof.
  unfold from_be_bytes. revert t; induction s as [|c s IH]; intros [|d t]; try done.
  cbn [from_be String.length]. intros [= Hl] E.
  rewrite from_be_acc, (from_be_acc (0 * 256 + byte_of d)), Hl in E.
  pose proof (from_be_bound s). pose proof (from_be_bound t). rewrite Hl in *.
  assert (byte_of c = byte_of d) as Hcd by nia. apply byte_of_inj in Hcd as ->.
  f_equal. apply IH; [done|]. nia.
Qed.

Lemma from_be_bytes_ok s : String.length s = 8%nat → u64_ok (from_be_bytes s).
Proof.
  intros H. pose proof (from_be_bound s) as Hb. rewrite H in Hb. unfold from_be_bytes, u64_ok, u64_max.
  change (256 ^ N.of_nat 8) with 18446744073709551616 in Hb. lia.
Qed.

Lemma to_from_be_bytes s : String.length s = 8%nat → to_be_bytes (from_be_bytes s) = s.
Proof.
  intros H. apply from_be_inj; [by rewrite to_be_bytes_length|].
  apply from_to_be_bytes. by apply from_be_bytes_ok.
Qed.

Lemma chunks_exact_inv fuel k s :
  (0 < k)%nat → (String.length s ≤ fuel)%nat → (∃ n, String.length s = n * k)%nat →
  concat_str (chunks_exact_go fuel k s) = s ∧
  Forall (λ p, String.length p = k) (chunks_exact_go fuel k s).
Proof.
  intros Hk. revert s; induction fuel as [|fuel IH]; intros s Hf [n Hn].
  { destruct s; [|cbn in Hf; lia]. done. }
  cbn [chunks_exact_go]. destruct (take_str k s) as [[a b]|] eqn:E.
  - apply take_str_inv in E as [-> Hl]. rewrite length_app_str in Hf, Hn.
    destruct n as [|n]; [cbn in Hn; lia|].
    destruct (IH b) as [H1 H2]; [lia|exists n; lia|]. cbn [concat_str]. rewrite H1.
    split; [done|]. by constructor.
  - destruct n as [|n].
    + destruct s; [done|]. cbn in Hn. lia.
    + exfalso. assert (∀ k s, (k ≤ String.length s)%nat → is_Some (take_str k s)) as Htake.
      { clear. intros k; induction k as [|k IH]; intros s Hs; [destruct s; by eexists|].
        destruct s as [|c s]; [cbn in Hs; lia|]. cbn.
        destruct (IH s) as [[x y] ->]; [cbn in Hs; lia|]. by eexists. }
      destruct (Htake k s) as [? ?]; [lia|]. congruence.
Qed.

Lemma encode_segment_unfold l :
  encode_out_edge_segment_records l
  = segment_magic +:+ to_be_bytes (N.of_nat (length l)) +:+ concat_str (to_be_bytes <$> l).
Proof. unfold encode_out_edge_segment_records. by rewrite foldl_concat_words, app_assoc. Qed.

Lemma words_length l : Forall (λ s, String.length s = 8%nat) (to_be_bytes <$> l).
Proof. apply Forall_fmap, Forall_forall. intros. apply to_be_bytes_length. Qed.

Lemma words_round_trip l : Forall u64_ok l → from_be_bytes <$> (to_be_bytes <$> l) = l.
Proof.
  induction 1 as [|n l Hn Hl IH]; [done|]. cbn [fmap list_fmap].
  rewrite from_to_be_bytes by done. f_equal. exact IH.
Qed.

Lemma words_round_trip' l :
  Forall (λ s, String.length s = 8%nat) l → to_be_bytes <$> (from_be_bytes <$> l) = l.
Proof.
  induction 1 as [|n l Hn Hl IH]; [done|]. cbn [fmap list_fmap].
  rewrite to_from_be_bytes by done. f_equal. exact IH.
Qed.

(** A segment's length prefix and its destinations fit the machine. *)
Definition destinations_ok (l : list VertexId) : Prop :=
  Forall u64_ok l ∧ u64_ok (N.of_nat (length l) * 8).

Lemma checked_mul_ok a b : u64_ok (a * b) → checked_mul a b = Some (a * b).
Proof. unfold u64_ok, checked_mul. intros H. by rewrite (proj2 (N.leb_le _ _) H). Qed.
Lemma checked_mul_inv a b c : checked_mul a b = Some c → c = a * b ∧ u64_ok (a * b).
Proof. unfold checked_mul, u64_ok. case_match eqn:E; [|done]. apply N.leb_le in E. by intros [= <-]. Qed.

Lemma decode_segment_encoded c t s q id l :
  component_ok c = true → component_ok t = true → component_ok id = true →
  u64_ok s → u64_ok q → destinations_ok l →
  decode_out_edge_segment (keys.out_segment c t s q id) (encode_out_edge_segment_records l)
  = Ok (MkOutEdgeSegment c t s q l).
Proof.
  intros Hc Ht Hid Hs Hq [Hl Hn]. unfold decode_out_edge_segment.
  rewrite parse_segment_key by done. cbn [mbind result_mbind result_bind].
  rewrite encode_segment_unfold, strip_prefix_app, take_str_app by apply to_be_bytes_length.
  cbv zeta. rewrite from_to_be_bytes by (unfold u64_ok in *; lia).
  rewrite checked_mul_ok by done. unfold strlen.
  rewrite (concat_str_length 8) by apply words_length.
  rewrite length_fmap, (proj2 (N.eqb_eq _ _)) by lia. cbn [negb].
  rewrite chunks_exact_concat by (lia || apply words_length). by rewrite words_round_trip.
Qed.

Lemma decode_segment_inv key value seg :
  decode_out_edge_segment key value = Ok seg →
  value = encode_out_edge_segment_records (oes_destinations seg) ∧ destinations_ok (oes_destinations seg).
Proof.
  unfold decode_out_edge_segment. intros H. apply bind_ok in H as ([[[c t] s] q] & Hk & H).
  destruct (strip_prefix segment_magic value) as [body|] eqn:Hv; [|done].
  apply strip_prefix_Some in Hv as ->.
  destruct (take_str 8 body) as [[cnt edges]|] eqn:Hb; [|done].
  apply take_str_inv in Hb as [-> Hcnt]. cbv zeta in H.
  destruct (checked_mul _ _) as [n|] eqn:Hm; [|done]. apply checked_mul_inv in Hm as [-> Hm].
  destruct (strlen edges =? _) eqn:He; [|done]. cbn [negb] in H. apply N.eqb_eq in He.
  injection H as <-. cbn [oes_destinations]. unfold strlen in He.
  destruct (chunks_exact_inv (String.length edges) 8 edges) as [H1 H2];
    [lia|done|exists (N.to_nat (from_be_bytes cnt)); lia|].
  fold (chunks_exact 8 edges) in H1, H2.
  assert (String.length edges = (8 * length (chunks_exact 8 edges))%nat) as Hlen.
  { rewrite <- H1 at 1. by apply concat_str_length. }
  assert (N.of_nat (length (from_be_bytes <$> chunks_exact 8 edges)) = from_be_bytes cnt) as Hn.
  { rewrite length_fmap. lia. }
  split.
  - rewrite encode_segment_unfold, Hn, to_from_be_bytes, words_round_trip', H1 by done. done.
  - split; [|by rewrite Hn]. apply Forall_fmap. eapply Forall_impl; [exact H2|].
    intros x Hx. by apply from_be_bytes_ok.
Qed.

(** A segment value has exactly one encoding: under a segment key the decoder
    accepts a byte string if and only if it is the encoding of the destinations it
    returns.  Truncated, padded or miscounted values are all refused. *)
Theorem segment_codec_exact (c t id value : string) (s q : N) (l : list VertexId)
    (Hc : component_ok c = true) (Ht : component_ok t = true) (Hid : component_ok id = true)
    (Hs : u64_ok s) (Hq : u64_ok q) :
  decode_out_edge_segment (keys.out_segment c t s q id) value = Ok (MkOutEdgeSegment c t s q l) ↔
  value = encode_out_edge_segment_records l ∧ destinations_ok l.
Proof.
  split.
  - intros H. by apply decode_segment_inv in H.
  - intros [-> Hl]. by apply decode_segment_encoded.
Qed.

Lemma segment_codec_exact_witness :
  decode_out_edge_segment (keys.out_segment "c" "K" 7 3 "seg")
    (encode_out_edge_segment_records [1; 2; 300]) = Ok (MkOutEdgeSegment "c" "K" 7 3 [1; 2; 300]).
Proof.
  apply (segment_codec_exact "c" "K" "seg" _ 7 3 [1; 2; 300]); [reflexivity..| | |];
    unfold destinations_ok, u64_ok, u64_max; try lia.
  split; [reflexivity|]. split; [repeat constructor; lia|cbn; lia].
Defined.

(** * Idempotency records *)

Lemma record_line_plain l :
  l ≠ [] → Forall (λ s, plain s = true) l →
  (∀ key, decode_text key (record_line l) = Ok (record_line l)) ∧ record_fields (record_line l) = l.
Proof.
  intros Hne Hl. pose proof (plain_line_ok _ (join_tab_plain l Hl)) as [[Hnl _] Hasc].
  unfold record_line, record_fields, nl. split.
  - intros key. apply decode_text_ascii. rewrite str_forall_app, Hasc. done.
  - rewrite trim_end_one by done. by apply split_join_plain.
Qed.

Definition mutation_ok (m : EdgeMutation) : Prop :=
  component_ok (em_cell_id m) = true ∧ component_ok (em_edge_type m) = true ∧
  u64_ok (em_src m) ∧ u64_ok (em_dst m).
Definition same_edge (a b : EdgeMutation) : bool :=
  lit (em_cell_id a) (em_cell_id b) && lit (em_edge_type a) (em_edge_type b) &&
  (em_src a =? em_src b) && (em_dst a =? em_dst b).

Ltac plain_fields :=
  repeat constructor; first
    [ reflexivity | apply dec_plain | apply flag_plain | apply component_plain; assumption ].

(** Read a record back to its fields. *)
Ltac open_record :=
  match goal with
  | |- context [record_line ?l] =>
      let Hd := fresh "Hd" in let Hf := fresh "Hf" in
      destruct (record_line_plain l) as [Hd Hf]; [done|plain_fields|rewrite Hd];
      cbn [mbind result_mbind result_bind]; rewrite Hf; clear Hd Hf
  end.

Lemma ensure_same_edge key op m m' :
  mutation_ok m →
  ensure_idempotent_edge key op m' [em_cell_id m; em_edge_type m; dec (em_src m); dec (em_dst m)]
  = if same_edge m m' then Ok tt
    else Err (IdempotencyConflict op (em_idempotency_key m')
                "this key already stored a result for a different edge").
Proof.
  intros (Hc & Ht & Hs & Hd). unfold ensure_idempotent_edge, same_edge, conflict.
  destruct (lit (em_cell_id m) _), (lit (em_edge_type m) _); cbn [negb orb andb]; try done.
  rewrite !parse_u64_dec by done. cbn [mbind result_mbind result_bind].
  destruct (em_src m =? em_src m'); cbn [negb andb]; [|done].
  by destruct (em_dst m =? em_dst m').
Qed.

(** The record of an edge write or delete answers exactly the request it was
    stored for: a request naming the same edge gets the stored result, any other
    edge under the same idempotency key is a conflict. *)
Theorem edge_idempotency_replay (key : string) (m m' : EdgeMutation) (epoch : N) (b : bool)
    (Hm : mutation_ok m) (He : u64_ok epoch) :
  decode_commit_idempotency key m' (encode_commit_idempotency m (MkCommitResult epoch b))
    = (if same_edge m m' then Ok (MkCommitResult epoch b)
       else Err (IdempotencyConflict "create" (em_idempotency_key m')
                   "this key already stored a result for a different edge")) ∧
  decode_delete_idempotency key m' (encode_delete_idempotency m (MkDeleteResult epoch b))
    = (if same_edge m m' then Ok (MkDeleteResult epoch b)
       else Err (IdempotencyConflict "delete" (em_idempotency_key m')
                   "this key already stored a result for a different edge")).
Proof.
  pose proof Hm as (Hc & Ht & Hs & Hd).
  unfold decode_commit_idempotency, encode_commit_idempotency, decode_delete_idempotency,
    encode_delete_idempotency. cbn [cr_epoch cr_already_existed dr_epoch dr_deleted].
  split; open_record; run_decoder; rewrite ensure_same_edge by done;
    destruct (same_edge m m'); run_decoder; done.
Qed.

Lemma edge_idempotency_replay_witness :
  let m := {| em_cell_id := "c"; em_edge_type := "K"; em_src := 1; em_dst := 2;
              em_idempotency_key := "req" |} in
  decode_commit_idempotency "k" m (encode_commit_idempotency m (MkCommitResult 5 false))
  = Ok (MkCommitResult 5 false).
Proof.
  cbv zeta.
  match goal with |- decode_commit_idempotency _ ?m _ = _ =>
    destruct (edge_idempotency_replay "k" m m 5 false) as [H _] end;
    [|unfold u64_ok, u64_max; lia|exact H].
  unfold mutation_ok, u64_ok, u64_max. cbn. repeat (split; [reflexivity || lia|]). lia.
Defined.

(** Case analysis on the comparisons of a decoder against a request. *)
Ltac replay_cases :=
  repeat match goal with
  | |- context [lit ?a ?b] =>
      let E := fresh in destruct (lit a b) eqn:E; run_decoder; try done
  | |- context [N.eqb ?a ?b] =>
      let E := fresh in destruct (N.eqb a b) eqn:E; run_decoder; try done
  end.

(** Relationship creation, relationship deletion and vertex deletion replay by
    identity: the stored result comes back only for the edge (and payload
    fingerprint), the relationship or the vertex it was stored for. *)
Theorem entity_idempotency_replay (key : string) (m m' : EdgeMutation) (epoch rid f n1 n2 v : N)
    (f' rid' v' : N) (b1 b2 : bool) (c' k : string)
    (Hm : mutation_ok m) (He : u64_ok epoch) (Hrid : u64_ok rid) (Hf : u64_ok f) (Hv : u64_ok v)
    (Hn1 : u64_ok n1) (Hn2 : u64_ok n2) :
  decode_relationship_create_idempotency key m' f'
      (encode_relationship_create_idempotency m f (MkRelationshipCreateResult epoch rid b1 b2))
    = (if (f =? f') && same_edge m m' then Ok (MkRelationshipCreateResult epoch rid b1 b2)
       else Err (IdempotencyConflict "relationship-create" (em_idempotency_key m')
                   "this key already stored a result for a different edge or payload")) ∧
  decode_relationship_delete_idempotency key m' rid'
      (encode_relationship_delete_idempotency m rid (MkDeleteResult epoch b1))
    = (if same_edge m m' && (rid =? rid') then Ok (MkDeleteResult epoch b1)
       else Err (IdempotencyConflict "relationship-delete" (em_idempotency_key m')
                   "this key already stored a result for a different relationship")) ∧
  decode_vertex_delete_idempotency key c' v' k
      (encode_vertex_delete_idempotency (em_cell_id m) v (MkVertexDeleteResult epoch b1 n1 n2))
    = (if lit (em_cell_id m) c' && (v =? v') then Ok (MkVertexDeleteResult epoch b1 n1 n2)
       else Err (IdempotencyConflict "vertex-delete" k
                   "this key already stored a result for a different vertex")).
Proof.
  destruct Hm as (Hc & Ht & Hs & Hd).
  unfold decode_relationship_create_idempotency, encode_relationship_create_idempotency,
    decode_relationship_delete_idempotency, encode_relationship_delete_idempotency,
    decode_vertex_delete_idempotency, encode_vertex_delete_idempotency, conflict, same_edge.
  cbn [rcr_epoch rcr_relationship_id rcr_structural_edge_inserted rcr_already_created dr_epoch
    dr_deleted vdr_epoch vdr_vertex_deleted vdr_incident_edges_deleted vdr_relationships_deleted].
  split; [|split]; open_record; cbv zeta; run_decoder; replay_cases.
Qed.

Lemma entity_idempotency_replay_witness :
  let m := {| em_cell_id := "c"; em_edge_type := "K"; em_src := 1; em_dst := 2;
              em_idempotency_key := "req" |} in
  decode_relationship_create_idempotency "k" m 8
    (encode_relationship_create_idempotency m 9 (MkRelationshipCreateResult 4 3 true false))
  = Err (IdempotencyConflict "relationship-create" "req"
      "this key already stored a result for a different edge or payload").
Proof.
  cbv zeta.
  match goal with |- decode_relationship_create_idempotency _ ?m _ _ = _ =>
    destruct (entity_idempotency_replay "k" m m 4 3 9 0 0 0 8 0 0 true false "c" "req") as [H _] end;
    try (unfold u64_ok, u64_max; lia); [|exact H].
  unfold mutation_ok, u64_ok, u64_max. cbn. repeat (split; [reflexivity || lia|]). lia.
Defined.

(** Bulk imports, relationship imports, segment compactions and cell drops
    replay by key and payload: the stored result comes back only for the request
    key, and the payload fingerprint or compaction epoch, it was stored for. *)
Theorem import_idempotency_replay (key k k' c c' : string) (f f' a b d e g h p : N) (q : N) (fl : bool)
    (Hk : component_ok k = true) (Hc : component_ok c = true) (Hf : u64_ok f) (Ha : u64_ok a)
    (Hb : u64_ok b) (Hd : u64_ok d) (He : u64_ok e) (Hg : u64_ok g) (Hh : u64_ok h) :
  decode_bulk_import_idempotency key k' f'
      (encode_bulk_import_idempotency k f (MkBulkImportResult a b d e))
    = (if lit k k' then
         if f =? f' then Ok (MkBulkImportResult a b d e)
         else Err (IdempotencyConflict "bulk-import" k'
                     "this key already stored a result for a different payload")
       else Err (IdempotencyConflict "bulk-import" k' "the stored record names a different key")) ∧
  decode_relationship_import_idempotency key k' f'
      (encode_relationship_import_idempotency k f (MkRelationshipImportResult a b d e g h))
    = (if lit k k' then
         if f =? f' then Ok (MkRelationshipImportResult a b d e g h)
         else Err (IdempotencyConflict "relationship-import" k'
                     "this key already stored a result for a different payload")
       else Err (IdempotencyConflict "relationship-import" k'
                   "the stored record names a different key")) ∧
  decode_segment_compaction_idempotency key k' q
      (encode_segment_compaction_idempotency k (MkSegmentCompactionResult a b d e g h))
    = (if lit k k' then
         if a =? q then Ok (MkSegmentCompactionResult a b d e g h)
         else Err (IdempotencyConflict "segment-compact" k'
                     "a stored result for this key compacted through a different epoch")
       else Err (IdempotencyConflict "segment-compact" k' "the stored record names a different key")) ∧
  decode_cell_drop_idempotency key c' k'
      (encode_cell_drop_idempotency c k (MkGraphCellDropResult a b d fl))
    = (if lit c c' && lit k k' then Ok (MkGraphCellDropResult a b d fl)
       else Err (IdempotencyConflict "cell-drop" k'
                   "this key already stored a result for a different cell")).
Proof.
  unfold decode_bulk_import_idempotency, encode_bulk_import_idempotency,
    decode_relationship_import_idempotency, encode_relationship_import_idempotency,
    decode_segment_compaction_idempotency, encode_segment_compaction_idempotency,
    decode_cell_drop_idempotency, encode_cell_drop_idempotency, conflict.
  cbn [bir_start_epoch bir_end_epoch bir_inserted bir_already_existed rir_start_epoch rir_end_epoch
    rir_relationships_inserted rir_relationships_already_existed rir_structural_edges_inserted
    rir_structural_edges_already_existed scr_compacted_through_epoch scr_source_segments
    scr_deleted_segment_keys scr_deleted_tombstone_keys scr_input_edges scr_output_edges
    gcd_marker_epoch gcd_deleted_keys gcd_batches gcd_already_dropped].
  split; [|split; [|split]]; open_record; cbv zeta; run_decoder; replay_cases.
Qed.

Lemma import_idempotency_replay_witness :
  decode_bulk_import_idempotency "k" "req" 77
    (encode_bulk_import_idempotency "req" 77 (MkBulkImportResult 4 4 10 2))
  = Ok (MkBulkImportResult 4 4 10 2).
Proof.
  destruct (import_idempotency_replay "k" "req" "req" "c" "c" 77 77 4 4 10 2 0 0 0 0 false) as [H _];
    first [exact H | reflexivity | unfold u64_ok, u64_max; lia].
Defined.

(** * Query statistics *)

Definition stats_ok (r : QueryStatsRecord) : Prop :=
  u64_ok (qs_count r) ∧ u64_ok (qs_read_epoch r) ∧ u64_ok (qs_refreshed_at_ms r) ∧
  u64_ok (qs_distinct_values r) ∧ u64_ok (qs_total_values r) ∧ u64_ok (qs_most_common_count r).

Definition stats_text (p : string * N) : string := join chr_tab [p.1; dec p.2].

Definition stats_fields (r : QueryStatsRecord) : list (string * N) :=
  [("count", qs_count r); ("read_epoch", qs_read_epoch r); ("refreshed_at_ms", qs_refreshed_at_ms r);
   ("distinct_values", qs_distinct_values r); ("total_values", qs_total_values r);
   ("most_common_count", qs_most_common_count r)].

Lemma encode_query_stats_lines r :
  encode_query_stats_record r = unlines ("query-stats-v1" :: (stats_text <$> stats_fields r)).
Proof.
  unfold encode_query_stats_record, stats_line, stats_text, stats_fields, nl, tab.
  cbn [fmap list_fmap unlines join fst snd].
  repeat (rewrite app_assoc || rewrite app_cons). rewrite ?app_nil_l. reflexivity.
Qed.

Lemma stats_line_split field n :
  component_ok field = true → split chr_tab (stats_text (field, n)) = [field; dec n].
Proof.
  intros H. apply split_join_plain; [done|]. cbn.
  repeat constructor; [by apply component_plain|apply dec_plain].
Qed.

(** Query statistics round-trip, and an eight-byte value is read as the older
    bare count. *)
Theorem query_stats_round_trip (key : string) (r : QueryStatsRecord) (n : N)
    (Hr : stats_ok r) (Hn : u64_ok n) :
  decode_query_stats_record key (encode_query_stats_record r) = Ok r ∧
  decode_query_stats_record key (encode_u64 n) = Ok (point_count n 0 0).
Proof.
  destruct r as [r1 r2 r3 r4 r5 r6], Hr as (H1 & H2 & H3 & H4 & H5 & H6).
  cbn [qs_count qs_read_epoch qs_refreshed_at_ms qs_distinct_values qs_total_values
    qs_most_common_count] in *. split.
  - rewrite encode_query_stats_lines. unfold decode_query_stats_record.
    replace (String.length _ =? 8)%nat with false.
    2: { symmetry. apply Nat.eqb_neq. cbn [unlines]. rewrite length_app_str. cbn. lia. }
    edestruct decode_lines as [-> Hlines].
    { repeat constructor; apply join_tab_plain; repeat constructor; apply dec_plain. }
    cbn [mbind result_mbind result_bind]. rewrite Hlines, bool_decide_eq_true_2 by done.
    rewrite foldM_fmap. unfold stats_fields. cbn [foldM]. unfold stats_field_line.
    rewrite !stats_line_split by reflexivity. rewrite !parse_dec by done.
    reflexivity.
  - unfold decode_query_stats_record, encode_u64. rewrite to_be_bytes_length. cbn [Nat.eqb].
    fold (encode_u64 n). by rewrite encode_decode_u64.
Qed.

Lemma query_stats_round_trip_witness :
  decode_query_stats_record "k" (encode_query_stats_record (MkQueryStatsRecord 1 2 3 4 5 6))
  = Ok (MkQueryStatsRecord 1 2 3 4 5 6).
Proof.
  apply (query_stats_round_trip "k" (MkQueryStatsRecord 1 2 3 4 5 6) 0);
    unfold stats_ok, u64_ok, u64_max; cbn; lia.
Defined.
