(* ===== verification/Rendezvous.v ===== *)
(** [crates/placement/src/hash.rs]: rendezvous placement.  The frozen score of a
    node for a cell, the ranking of the live nodes and the owner. *)

From S2P Require Import Prelude Text.
From Stdlib Require Import Ascii.

Local Open Scope N_scope.

Module placement.

Definition FNV_OFFSET : N := 14695981039346656037.
Definition FNV_PRIME : N := 1099511628211.

Fixpoint fnv_bytes (h : N) (s : string) : N :=
  match s with
  | "" => h
  | String c s' => fnv_bytes (wrapping_mul (N.lxor h (byte_of c)) FNV_PRIME) s'
  end.
Definition fnv1a64 (chunks : list string) : N := foldl fnv_bytes FNV_OFFSET chunks.

Definition mix64 (z : N) : N :=
  let z := wrapping_add z 11400714819323198485 in
  let z := wrapping_mul (N.lxor z (N.shiftr z 30)) 13787848793156543929 in
  let z := wrapping_mul (N.lxor z (N.shiftr z 27)) 10723151780598845931 in
  N.lxor z (N.shiftr z 31).

Definition nul : string := String "000" "".

Definition score (scope cell_id node_id : string) : N :=
  mix64 (fnv1a64 [scope; nul; cell_id; nul; node_id]).

(** [b.0.cmp(&a.0).then_with(|| a.1.cmp(b.1))] does not say Greater. *)
Definition rank_le (a b : N * string) : Prop :=
  b.1 < a.1 ∨ (a.1 = b.1 ∧ String.le a.2 b.2).
#[export] Instance rank_le_dec : RelDecision rank_le.
Proof. intros a b. unfold rank_le. apply _. Defined.

Definition rank (scope cell_id : string) (live : list string) : list string :=
  (merge_sort rank_le ((λ n, (score scope cell_id n, n)) <$> live)).*2.

Definition owner (scope cell_id : string) (live : list string) : option string :=
  head (rank scope cell_id live).

End placement.
Import placement.

(** * The ranking order *)

#[export] Instance rank_le_total : Total rank_le.
Proof.
  intros [a x] [b y]. unfold rank_le. cbn. destruct (N.lt_trichotomy a b) as [?|[->|?]]; [tauto| |tauto].
  destruct (total String.le x y); tauto.
Qed.
#[export] Instance rank_le_trans : Transitive rank_le.
Proof.
  intros [a x] [b y] [c z]. unfold rank_le. cbn.
  intros [?|[-> ?]] [?|[? ?]]; try (left; lia). right. split; [done|]. by etrans.
Qed.
#[export] Instance rank_le_antisym : AntiSymm (=) rank_le.
Proof.
  intros [a x] [b y]. unfold rank_le. cbn. intros [?|[-> ?]] [?|[? ?]]; try lia.
  f_equal. by apply (anti_symm String.le).
Qed.
#[export] Instance rank_le_refl : Reflexive rank_le.
Proof. intros [a x]. right. by split. Qed.

(** Node [x] is placed before [y] for the cell. *)
Definition better (scope cell_id : string) (x y : string) : Prop :=
  rank_le (score scope cell_id x, x) (score scope cell_id y, y).

Section ranking.
Context (scope cell_id : string).

Let scored (live : list string) : list (N * string) := (λ n, (score scope cell_id n, n)) <$> live.

Lemma scored_snd l : (scored l).*2 = l.
Proof. unfold scored. rewrite <- list_fmap_compose. by rewrite list_fmap_id. Qed.

Lemma ranked_scored live :
  merge_sort rank_le (scored live) = scored (rank scope cell_id live).
Proof.
  unfold rank. fold (scored live).
  assert (∀ l, Forall (λ p, p.1 = score scope cell_id p.2) l → l = scored l.*2) as H.
  { induction 1 as [|[a n] l Hn Hl IH]; [done|]. cbn in *. subst. by f_equal. }
  apply H. rewrite merge_sort_Permutation. apply Forall_fmap, Forall_forall. by intros.
Qed.

Lemma rank_perm live : rank scope cell_id live ≡ₚ live.
Proof.
  unfold rank. fold (scored live). rewrite merge_sort_Permutation. by rewrite scored_snd.
Qed.

Lemma rank_sorted live : StronglySorted (better scope cell_id) (rank scope cell_id live).
Proof.
  assert (StronglySorted rank_le (scored (rank scope cell_id live))) as H.
  { rewrite <- ranked_scored. apply StronglySorted_merge_sort; apply _. }
  revert H. generalize (rank scope cell_id live). intros l.
  induction l as [|n l IH]; [constructor|]. unfold scored in *. rewrite fmap_cons.
  intros [H1 H2]%StronglySorted_inv. constructor; [by apply IH|].
  rewrite Forall_fmap in H2. exact H2.
Qed.

(** A list sorted by rank is determined by its members. *)
Lemma rank_unique l1 l2 :
  StronglySorted (better scope cell_id) l1 → StronglySorted (better scope cell_id) l2 →
  l1 ≡ₚ l2 → l1 = l2.
Proof.
  intros H1 H2 Hp.
  assert (∀ l, StronglySorted (better scope cell_id) l → StronglySorted rank_le (scored l)) as Hs.
  { unfold scored. induction 1 as [|n l Hl IH Hn]; [constructor|]. rewrite fmap_cons.
    constructor; [done|]. apply Forall_fmap. exact Hn. }
  rewrite <- (scored_snd l1), <- (scored_snd l2). f_equal.
  apply (StronglySorted_unique rank_le); [by apply Hs..|]. unfold scored. by rewrite Hp.
Qed.

Lemma better_sorted_filter (P : string → Prop) `{!∀ x, Decision (P x)} l :
  StronglySorted (better scope cell_id) l → StronglySorted (better scope cell_id) (filter P l).
Proof.
  induction 1 as [|n l Hl IH Hn]; [constructor|]. rewrite filter_cons.
  case_decide; [|done]. constructor; [done|].
  rewrite Forall_forall in Hn |- *. intros y Hy. apply Hn. by apply list_elem_of_filter in Hy as [_ Hy].
Qed.
End ranking.

(** Every node computes the same ranking: it is a permutation of the live nodes
    in decreasing score, ties broken by node id, and depends on which nodes are
    live and not on the order they were listed in.  The owner is a live node no
    other live node precedes, and there is none exactly when nothing is live. *)
Theorem rank_canonical (scope cell_id : string) (live live' : list string) :
  rank scope cell_id live ≡ₚ live ∧
  StronglySorted (better scope cell_id) (rank scope cell_id live) ∧
  (live ≡ₚ live' → rank scope cell_id live = rank scope cell_id live') ∧
  (owner scope cell_id live = None ↔ live = []) ∧
  (∀ n, owner scope cell_id live = Some n → n ∈ live ∧ ∀ m, m ∈ live → better scope cell_id n m).
Proof.
  pose proof (rank_perm scope cell_id live) as Hp. pose proof (rank_sorted scope cell_id live) as Hs.
  split; [done|]. split; [done|]. split.
  { intros Hl. apply (rank_unique scope cell_id); [done|apply rank_sorted|].
    by rewrite !rank_perm. }
  unfold owner. destruct (rank scope cell_id live) as [|h t].
  - apply Permutation_nil_l in Hp as <-. split; [done|]. intros n [=].
  - split; [split; [done|intros ->; by apply Permutation_nil_r in Hp]|].
    intros n [= ->]. split; [rewrite <- Hp; set_solver|]. intros m Hm. rewrite <- Hp in Hm.
    apply StronglySorted_inv in Hs as [_ Hs]. rewrite Forall_forall in Hs.
    apply elem_of_cons in Hm as [->|Hm]; [|by apply Hs]. unfold better. reflexivity.
Qed.

(** Losing nodes disturbs nothing else: the ranking of the survivors is the old
    ranking with the lost nodes struck out, so a cell whose owner survives keeps
    its owner, and one whose owner is lost goes to the best survivor. *)
Theorem rank_minimal_disruption (scope cell_id : string) (live : list string)
    (lost : string → Prop) `{!∀ n, Decision (lost n)} :
  rank scope cell_id (filter (λ n, ¬ lost n) live) = filter (λ n, ¬ lost n) (rank scope cell_id live) ∧
  (∀ n, owner scope cell_id live = Some n → ¬ lost n →
    owner scope cell_id (filter (λ n, ¬ lost n) live) = Some n).
Proof.
  assert (rank scope cell_id (filter (λ n, ¬ lost n) live)
    = filter (λ n, ¬ lost n) (rank scope cell_id live)) as E.
  { apply (rank_unique scope cell_id); [apply rank_sorted| |].
    - apply better_sorted_filter, rank_sorted.
    - by rewrite !rank_perm. }
  split; [done|]. unfold owner. rewrite E. intros n Hn Hl.
  destruct (rank scope cell_id live) as [|h t]; [done|]. injection Hn as ->.
  by rewrite filter_cons_True.
Qed.

(** The score is a wire format, pinned to the golden values every node of a
    mixed-version fleet must agree on. *)
Theorem scores_are_frozen :
  score "acme/graphs/social" "cell-a" "graph-node-0" = 17601941980443606831 ∧
  score "acme/graphs/social" "cell-a" "graph-node-1" = 6004748593960652720 ∧
  score "acme/graphs/social" "cell-b" "graph-node-0" = 3947332852058923570 ∧
  score "acme/graphs/other" "cell-a" "graph-node-0" = 3014403053661552674.
Proof. vm_compute. done. Qed.
