(* ===== verification/Liveness.v ===== *)
(** [crates/placement/src/heartbeat.rs] and [liveness.rs]: heartbeat object names,
    the LIST boundary where timestamps become ages, and the live set with its
    startup window, grace and shedding.  A [Duration] is a number of nanoseconds;
    an object-store [Path] is its list of segments. *)

From S2P Require Import Prelude Text TextFacts Errors Namespace.
From Stdlib Require Import Ascii.

Local Open Scope N_scope.

(** * Heartbeat objects *)

Definition HEARTBEAT_PREFIX : string := "_graph_nodes/v1".

Inductive PlacementError : Type :=
  | InvalidNodeId (node_id reason : string)
  | PlacementStore (operation path : string)
  | InvalidCellId (cell_id reason : string).

Definition name_rule_violation (value : string) : option string :=
  if bool_decide (value = "") then Some "must not be empty"
  else if bool_decide (value = ".") || bool_decide (value = "..") then
    Some "must not be a relative path segment"
  else if negb (str_forall component_char value) then
    Some "must be ASCII alphanumeric, '_', '-' or '.'"
  else None.

Definition validate_node_id (node_id : string) : result PlacementError unit :=
  match name_rule_violation node_id with
  | Some reason => Err (InvalidNodeId node_id reason)
  | None => Ok tt
  end.
Definition validate_cell_id (cell_id : string) : result PlacementError unit :=
  match name_rule_violation cell_id with
  | Some reason => Err (InvalidCellId cell_id reason)
  | None => Ok tt
  end.

Definition object_name (node_id : string) : result PlacementError string :=
  _ ← validate_node_id node_id; Ok node_id.
Definition parse_object_name (name : string) : option string :=
  (λ _, name) <$> result_ok (validate_node_id name).

Record HeartbeatEntry := MkHeartbeatEntry { he_node_id : string; he_age : N; he_location : list string }.

(** The object-store path library: [Path::join] appends one segment, encoding the
    characters a segment may not hold; [Path::prefix_match] gives the segments
    below a prefix. *)
Section paths.
Context (encode_part : string → string).

Definition path_join (p : list string) (segment : string) : list string := p ++ [encode_part segment].

Fixpoint prefix_match (location prefix : list string) : option (list string) :=
  match prefix, location with
  | [], _ => Some location
  | x :: prefix', y :: location' =>
      if bool_decide (x = y) then prefix_match location' prefix' else None
  | _ :: _, [] => None
  end.

Definition versioned_prefix (base : list string) (prefix : string) : list string :=
  foldl path_join base (split chr_slash prefix).
Definition heartbeat_prefix (base : list string) : list string := versioned_prefix base HEARTBEAT_PREFIX.
Definition heartbeat_path (base : list string) (node_id : string) : result PlacementError (list string) :=
  name ← object_name node_id; Ok (path_join (heartbeat_prefix base) name).

Definition node_id_at (prefix location : list string) : option string :=
  parts ← prefix_match location prefix;
  match parts with
  | [name] => parse_object_name name
  | _ => None
  end.

(** What one LIST returned: [inl] the objects with their [LastModified], [inr true]
    a missing prefix, [inr false] any other failure. *)
Definition list_answer : Type := list (list string * Z) + bool.

Definition heartbeat_age (now last_modified : Z) : N :=
  if (now - last_modified <? 0)%Z then 0 else Z.to_N (now - last_modified).

Definition list_heartbeats (base : list string) (now : Z) (answer : list_answer)
    : result PlacementError (list HeartbeatEntry) :=
  let prefix := heartbeat_prefix base in
  let entries metas := omap (λ meta : list string * Z,
      node_id ← node_id_at prefix meta.1;
      Some (MkHeartbeatEntry node_id (heartbeat_age now meta.2) meta.1)) metas in
  match answer with
  | inl metas => Ok (entries metas)
  | inr true => Ok (entries [])
  | inr false => Err (PlacementStore "list" (join chr_slash prefix))
  end.

End paths.

(** * The live set *)

Record NodeView := MkNodeView { nv_node_id : string; nv_age : N }.

Definition youngest_per_node (entries : list HeartbeatEntry) : gmap string HeartbeatEntry :=
  foldl (λ by_id entry,
      match by_id !! he_node_id entry with
      | Some existing =>
          if he_age existing <=? he_age entry then by_id
          else <[he_node_id entry := entry]> by_id
      | None => <[he_node_id entry := entry]> by_id
      end) ∅ entries.

Definition live_nodes (entries : list HeartbeatEntry) (timeout : N) : list NodeView :=
  (λ e, MkNodeView (he_node_id e) (he_age e)) <$>
    filter (λ e, (he_age e < timeout)%N) (btree_values (youngest_per_node entries)).

Inductive HeartbeatAction : Type := Publish | Withdraw.
Inductive ViewState : Type := VFresh | VGrace | VShed.
Inductive LiveView : Type :=
  | LFresh (nodes : list NodeView)
  | LGrace (nodes : list NodeView)
  | LShed.

Definition view_state_as_str (s : ViewState) : string :=
  match s with VFresh => "fresh" | VGrace => "grace" | VShed => "shed" end.
Definition view_heartbeat_action (s : ViewState) : HeartbeatAction :=
  match s with VFresh | VGrace => Publish | VShed => Withdraw end.
Definition is_ready (s : ViewState) : bool :=
  match s with VShed => false | _ => true end.

Definition live_state (v : LiveView) : ViewState :=
  match v with LFresh _ => VFresh | LGrace _ => VGrace | LShed => VShed end.
Definition live_view_nodes (v : LiveView) : list NodeView :=
  match v with LFresh nodes | LGrace nodes => nodes | LShed => [] end.
Definition candidates (v : LiveView) : option (list string) :=
  match v with LFresh nodes | LGrace nodes => Some (nv_node_id <$> nodes) | LShed => None end.
Definition heartbeat_action (v : LiveView) : HeartbeatAction := view_heartbeat_action (live_state v).

Record LiveNodeSet := MkLiveNodeSet {
  local_node_id : string; members : gset string; heartbeat_timeout : N; cached : list NodeView }.

Definition LiveNodeSet_new (local : string) (ms : list string) (timeout : N) : LiveNodeSet :=
  let all : gset string := {[local]} ∪ list_to_set ms in
  MkLiveNodeSet local all timeout ((λ id, MkNodeView id 0) <$> bset_iter all).

Definition grace (s : LiveNodeSet) : N := heartbeat_timeout s.

Definition observe_list (s : LiveNodeSet) (entries : list HeartbeatEntry) (since_start : N)
    : LiveNodeSet * LiveView :=
  let youngest := youngest_per_node entries in
  let live : gmap string NodeView :=
    foldl (λ live v, if bool_decide (nv_node_id v ∈ members s) then <[nv_node_id v := v]> live else live)
      ∅ (live_nodes entries (heartbeat_timeout s)) in
  let live :=
    if since_start <? heartbeat_timeout s then
      foldl (λ live member,
          match youngest !! member with
          | Some _ => live
          | None => match live !! member with
                    | Some _ => live
                    | None => <[member := MkNodeView member 0]> live
                    end
          end) live (bset_iter (members s))
    else live in
  let self_age := match youngest !! local_node_id s with Some e => he_age e | None => 0 end in
  let live := <[local_node_id s := MkNodeView (local_node_id s) self_age]> live in
  let nodes := btree_values live in
  (MkLiveNodeSet (local_node_id s) (members s) (heartbeat_timeout s) nodes, LFresh nodes).

Definition observe_list_failure (s : LiveNodeSet) (since_last_success : N) : LiveView :=
  if since_last_success <? heartbeat_timeout s then LGrace (cached s) else LShed.
