(* ===== verification/LivenessFacts.v ===== *)
(** The live set is what the configuration and the heartbeats say: exact
    membership after a LIST, the safety of the failure path, and agreement of the
    fleet on a cell's owner. *)

From S2P Require Import Prelude Text TextFacts Errors Namespace Rendezvous Liveness.
From Stdlib Require Import Ascii.

Local Open Scope N_scope.

(** * The youngest heartbeat *)

(** [e] is an entry of its node no older than any other. *)
Definition youngest_entry (entries : list HeartbeatEntry) (id : string) (e : HeartbeatEntry) : Prop :=
  e ∈ entries ∧ he_node_id e = id ∧
  ∀ e', e' ∈ entries → he_node_id e' = id → he_age e ≤ he_age e'.

Definition youngest_step (by_id : gmap string HeartbeatEntry) (entry : HeartbeatEntry) :=
  match by_id !! he_node_id entry with
  | Some existing =>
      if he_age existing <=? he_age entry then by_id else <[he_node_id entry := entry]> by_id
  | None => <[he_node_id entry := entry]> by_id
  end.

Definition youngest_inv (entries : list HeartbeatEntry) (m : gmap string HeartbeatEntry) : Prop :=
  ∀ id, match m !! id with
        | Some e => youngest_entry entries id e
        | None => ∀ e, e ∈ entries → he_node_id e ≠ id
        end.

Lemma youngest_keep entries m e x :
  youngest_inv entries m → m !! he_node_id e = Some x → he_age x ≤ he_age e →
  youngest_inv (entries ++ [e]) m.
Proof.
  intros H Hx Hle id. specialize (H id). destruct (m !! id) as [y|] eqn:Ey.
  - destruct H as (Hin & Hid & Hmin). split; [set_solver|]. split; [done|].
    intros e' [Hin'| ->%list_elem_of_singleton]%elem_of_app Hid'; [by apply Hmin|].
    assert (y = x) as -> by congruence. done.
  - intros e' [Hin'| ->%list_elem_of_singleton]%elem_of_app; [by apply H|]. congruence.
Qed.

Lemma youngest_replace entries m e :
  youngest_inv entries m → (∀ x, m !! he_node_id e = Some x → he_age e ≤ he_age x) →
  youngest_inv (entries ++ [e]) (<[he_node_id e := e]> m).
Proof.
  intros H Hle id. destruct (decide (id = he_node_id e)) as [->|Hne].
  - rewrite lookup_insert_eq. specialize (H (he_node_id e)). split; [set_solver|]. split; [done|].
    intros e' [Hin'| ->%list_elem_of_singleton]%elem_of_app Hid'; [|done].
    destruct (m !! he_node_id e) as [x|]; [|by apply H in Hin'].
    destruct H as (_ & _ & Hmin). specialize (Hle x eq_refl). specialize (Hmin e' Hin' Hid'). lia.
  - rewrite lookup_insert_ne by done. specialize (H id). destruct (m !! id) as [y|].
    + destruct H as (Hin & Hid & Hmin). split; [set_solver|]. split; [done|].
      intros e' [Hin'| ->%list_elem_of_singleton]%elem_of_app Hid'; [by apply Hmin|]. congruence.
    + intros e' [Hin'| ->%list_elem_of_singleton]%elem_of_app; [by apply H|]. congruence.
Qed.

Lemma youngest_step_inv entries m e :
  youngest_inv entries m → youngest_inv (entries ++ [e]) (youngest_step m e).
Proof.
  intros H. unfold youngest_step. destruct (m !! he_node_id e) as [x|] eqn:Ex.
  - destruct (he_age x <=? he_age e) eqn:Hle; [apply N.leb_le in Hle|apply N.leb_gt in Hle].
    + by eapply youngest_keep.
    + apply youngest_replace; [done|]. intros y. rewrite Ex. intros [= <-]. lia.
  - apply youngest_replace; [done|]. rewrite Ex. by intros ?.
Qed.

Lemma youngest_per_node_inv entries : youngest_inv entries (youngest_per_node entries).
Proof.
  unfold youngest_per_node. change (youngest_inv entries (foldl youngest_step ∅ entries)).
  assert (∀ pre m, youngest_inv pre m → youngest_inv (pre ++ entries) (foldl youngest_step m entries)) as H.
  { induction entries as [|e entries IH]; intros pre m Hm; [by rewrite (right_id_L [] (++))|].
    cbn. replace (pre ++ e :: entries) with ((pre ++ [e]) ++ entries) by (by rewrite <- (assoc_L (++))).
    apply IH. by apply youngest_step_inv. }
  apply (H []). intros id. rewrite lookup_empty. intros e He. by apply elem_of_nil in He.
Qed.

(** The node's least heartbeat age is [a]. *)
Definition least_age (entries : list HeartbeatEntry) (id : string) (a : N) : Prop :=
  (∃ e, e ∈ entries ∧ he_node_id e = id ∧ he_age e = a) ∧
  ∀ e, e ∈ entries → he_node_id e = id → a ≤ he_age e.
Definition published (entries : list HeartbeatEntry) (id : string) : Prop :=
  ∃ e, e ∈ entries ∧ he_node_id e = id.

Lemma youngest_lookup entries id e :
  youngest_per_node entries !! id = Some e → he_node_id e = id ∧ least_age entries id (he_age e).
Proof.
  intros H. pose proof (youngest_per_node_inv entries id) as Hinv. rewrite H in Hinv.
  destruct Hinv as (Hin & Hid & Hmin). split; [done|]. split; [by exists e|done].
Qed.

Lemma youngest_lookup_is_Some entries id :
  is_Some (youngest_per_node entries !! id) ↔ published entries id.
Proof.
  pose proof (youngest_per_node_inv entries id) as Hinv.
  destruct (youngest_per_node entries !! id) as [e|].
  - destruct Hinv as (Hin & Hid & _). split; [by exists e|by eexists].
  - split; [by intros [??]|]. intros (e & Hin & Hid). by apply Hinv in Hid.
Qed.

Lemma least_age_unique entries id a b : least_age entries id a → least_age entries id b → a = b.
Proof.
  intros [(e & He & Hid & <-) Ha] [(e' & He' & Hid' & <-) Hb].
  pose proof (Ha e' He' Hid'). pose proof (Hb e He Hid). lia.
Qed.

Lemma least_age_published entries id a : least_age entries id a → published entries id.
Proof. intros [(e & ? & ? & ?) _]. by exists e. Qed.

Lemma elem_of_live_nodes entries timeout v :
  v ∈ live_nodes entries timeout ↔
  least_age entries (nv_node_id v) (nv_age v) ∧ nv_age v < timeout.
Proof.
  unfold live_nodes, btree_values. rewrite list_elem_of_fmap. split.
  - intros (e & -> & [Hlt ([k e'] & -> & He%elem_of_btree_iter)%list_elem_of_fmap]%list_elem_of_filter).
    cbn in *. apply youngest_lookup in He as [-> He]. done.
  - intros [Hl Hlt]. destruct (proj2 (youngest_lookup_is_Some entries (nv_node_id v))) as [e He].
    { destruct Hl as [(e & ? & ? & ?) _]. by exists e. }
    pose proof (youngest_lookup _ _ _ He) as [Hid Hle].
    pose proof (least_age_unique _ _ _ _ Hl Hle) as E. exists e.
    split; [destruct v; cbn in *; by subst|]. apply list_elem_of_filter. split; [by rewrite <- E|].
    apply list_elem_of_fmap. exists (nv_node_id v, e). split; [done|]. by apply elem_of_btree_iter.
Qed.

(** * The view after a LIST *)

(** The age a node's status shows: its least heartbeat age, or zero when it has
    published nothing. *)
Definition observed_age (entries : list HeartbeatEntry) (id : string) (a : N) : Prop :=
  least_age entries id a ∨ (¬ published entries id ∧ a = 0).

Section fold_live.
Context (ms : gset string).

Definition keep_member (live : gmap string NodeView) (v : NodeView) : gmap string NodeView :=
  if bool_decide (nv_node_id v ∈ ms) then <[nv_node_id v := v]> live else live.

Lemma keep_member_lookup l id v :
  (∀ x y, x ∈ l → y ∈ l → nv_node_id x = nv_node_id y → x = y) →
  foldl keep_member ∅ l !! id = Some v ↔ v ∈ l ∧ nv_node_id v = id ∧ id ∈ ms.
Proof.
  intros Hinj. induction l as [|x l IH] using rev_ind.
  { cbn. rewrite lookup_empty. set_solver. }
  rewrite foldl_app. cbn [foldl]. unfold keep_member at 1.
  assert (∀ x y, x ∈ l → y ∈ l → nv_node_id x = nv_node_id y → x = y) as Hinj'.
  { intros y z Hy Hz. apply Hinj; set_solver. }
  specialize (IH Hinj'). rewrite elem_of_app, list_elem_of_singleton. case_bool_decide as Hx.
  - destruct (decide (nv_node_id x = id)) as [<-|Hne].
    + rewrite lookup_insert_eq. split; [intros [= ->]; auto|].
      intros ([Hin| ->] & Hid & Hm); [|done]. f_equal. apply Hinj; [set_solver..|done].
    + rewrite lookup_insert_ne, IH by done. naive_solver.
  - rewrite IH. naive_solver.
Qed.

Context (youngest : gmap string HeartbeatEntry).

Definition keep_unpublished (live : gmap string NodeView) (member : string) : gmap string NodeView :=
  match youngest !! member with
  | Some _ => live
  | None => match live !! member with
            | Some _ => live
            | None => <[member := MkNodeView member 0]> live
            end
  end.

Lemma keep_unpublished_lookup l live id v :
  foldl keep_unpublished live l !! id = Some v ↔
  live !! id = Some v ∨ (live !! id = None ∧ id ∈ l ∧ youngest !! id = None ∧ v = MkNodeView id 0).
Proof.
  revert live; induction l as [|m l IH]; intros live.
  { cbn. set_solver. }
  cbn [foldl]. rewrite IH, elem_of_cons. unfold keep_unpublished.
  destruct (youngest !! m) eqn:Ey; [naive_solver|].
  destruct (live !! m) eqn:Em; [naive_solver|].
  destruct (decide (id = m)) as [->|Hne].
  - rewrite lookup_insert_eq, Em. naive_solver.
  - rewrite lookup_insert_ne by done. naive_solver.
Qed.
End fold_live.

Lemma live_nodes_inj entries timeout x y :
  x ∈ live_nodes entries timeout → y ∈ live_nodes entries timeout →
  nv_node_id x = nv_node_id y → x = y.
Proof.
  intros [Hx _]%elem_of_live_nodes [Hy _]%elem_of_live_nodes E. rewrite E in Hx.
  destruct x, y; cbn in *. f_equal; [done|]. by eapply least_age_unique.
Qed.

(** The map [observe_list] builds. *)
Definition live_map (s : LiveNodeSet) (entries : list HeartbeatEntry) (since_start : N)
    : gmap string NodeView :=
  let youngest := youngest_per_node entries in
  let live := foldl (keep_member (members s)) ∅ (live_nodes entries (heartbeat_timeout s)) in
  let live := if since_start <? heartbeat_timeout s
              then foldl (keep_unpublished youngest) live (bset_iter (members s)) else live in
  let self_age := match youngest !! local_node_id s with Some e => he_age e | None => 0 end in
  <[local_node_id s := MkNodeView (local_node_id s) self_age]> live.

Lemma observe_list_live_map s entries since :
  observe_list s entries since
  = (MkLiveNodeSet (local_node_id s) (members s) (heartbeat_timeout s)
       (btree_values (live_map s entries since)), LFresh (btree_values (live_map s entries since))).
Proof. done. Qed.

(** Who counts as live after a LIST: this node; a member whose youngest heartbeat
    is younger than the timeout; a member that never published, while this process
    is itself younger than the timeout. *)
Definition counts_live (s : LiveNodeSet) (entries : list HeartbeatEntry) (since : N) (id : string) (a : N) : Prop :=
  observed_age entries id a ∧
  (id = local_node_id s ∨
   (id ∈ members s ∧ (published entries id → a < heartbeat_timeout s) ∧
    (¬ published entries id → since < heartbeat_timeout s))).

Lemma self_age_observed entries id :
  observed_age entries id
    (match youngest_per_node entries !! id with Some e => he_age e | None => 0 end).
Proof.
  destruct (youngest_per_node entries !! id) as [e|] eqn:E.
  - left. by apply youngest_lookup in E as [_ E].
  - right. split; [|done]. rewrite <- youngest_lookup_is_Some, E. by intros [? ?].
Qed.

Lemma observed_age_unique entries id a b : observed_age entries id a → observed_age entries id b → a = b.
Proof.
  intros [Ha|[Ha ->]] [Hb|[Hb ->]]; [by eapply least_age_unique| | |done].
  - exfalso. apply Hb. destruct Ha as [(e & ? & ? & ?) _]. by exists e.
  - exfalso. apply Ha. destruct Hb as [(e & ? & ? & ?) _]. by exists e.
Qed.

Lemma unpublished_lookup entries id : youngest_per_node entries !! id = None ↔ ¬ published entries id.
Proof. rewrite <- youngest_lookup_is_Some. symmetry. by rewrite <- eq_None_not_Some. Qed.

Lemma live_map_lookup s entries since id v :
  live_map s entries since !! id = Some v ↔
  nv_node_id v = id ∧ counts_live s entries since id (nv_age v).
Proof.
  unfold live_map, counts_live. destruct (decide (id = local_node_id s)) as [->|Hne].
  - rewrite lookup_insert_eq. pose proof (self_age_observed entries (local_node_id s)) as Hs. split.
    + intros [= <-]. cbn. auto.
    + intros (Hid & Ho & _). f_equal. destruct v as [i a]. cbn in *. subst. f_equal.
      by eapply observed_age_unique.
  - rewrite lookup_insert_ne by done.
    pose proof (keep_member_lookup (members s) (live_nodes entries (heartbeat_timeout s)) id)
      as Hk. specialize (λ w, Hk w (live_nodes_inj entries _)).
    assert (∀ w, foldl (keep_member (members s)) ∅ (live_nodes entries (heartbeat_timeout s)) !! id = Some w
      ↔ nv_node_id w = id ∧ id ∈ members s ∧ least_age entries id (nv_age w) ∧ nv_age w < heartbeat_timeout s)
      as Hfresh. { intros w. rewrite Hk, elem_of_live_nodes. naive_solver. }
    clear Hk. revert Hfresh. generalize (foldl (keep_member (members s)) ∅ (live_nodes entries (heartbeat_timeout s))).
    intros m Hm. destruct (since <? heartbeat_timeout s) eqn:Hw; [apply N.ltb_lt in Hw|apply N.ltb_ge in Hw].
    + rewrite keep_unpublished_lookup, Hm, elem_of_bset_iter, unpublished_lookup.
      assert (¬ published entries id → m !! id = None) as Hnone.
      { intros Hp. apply eq_None_not_Some. intros [w Hw'%Hm]. naive_solver eauto using least_age_published. }
      split.
      * intros [(? & ? & Hl & ?)|(_ & ? & ? & ->)]; [|by cbn; split; [|split; [right|right]]].
        split; [done|]. split; [by left|right]. split; [done|]. split; [done|]. intros Hp.
        by apply least_age_published in Hl.
      * intros (<- & [Hl|[Hp Hz]] & [?|(? & Hf & _)]); try done.
        -- left. pose proof (least_age_published _ _ _ Hl). auto.
        -- right. destruct v as [i a]. cbn in *. subst. auto.
    + rewrite Hm. split.
      * intros (? & ? & Hl & ?). split; [done|]. split; [by left|right]. split; [done|].
        split; [done|]. intros Hp. by apply least_age_published in Hl.
      * intros (<- & [Hl|[Hp Hz]] & [?|(? & Hf & Hs)]); try done.
        -- pose proof (least_age_published _ _ _ Hl). auto.
        -- specialize (Hs Hp). lia.
Qed.

Lemma live_map_values s entries since v :
  v ∈ btree_values (live_map s entries since) ↔ counts_live s entries since (nv_node_id v) (nv_age v).
Proof.
  rewrite elem_of_btree_values. split.
  - by intros (k & [<- H]%live_map_lookup).
  - intros H. exists (nv_node_id v). by apply live_map_lookup.
Qed.

Lemma live_map_ids s entries since :
  nv_node_id <$> btree_values (live_map s entries since) = btree_keys (live_map s entries since).
Proof. apply btree_values_keys. by intros k v [H _]%live_map_lookup. Qed.

(** The live set after a LIST is exactly configured membership intersected with
    freshness, plus this node, plus (only while this process is younger than one
    timeout) the members that have never published; freshness is strict and is
    judged on a node's youngest object.  The answer lists node ids in ascending
    order without repetition, is what the cache now holds, and leaves the
    configuration alone. *)
Theorem observe_list_exact (s : LiveNodeSet) (entries : list HeartbeatEntry) (since_start : N) :
  ∃ nodes,
    observe_list s entries since_start
      = (MkLiveNodeSet (local_node_id s) (members s) (heartbeat_timeout s) nodes, LFresh nodes) ∧
    (∀ id a, MkNodeView id a ∈ nodes ↔ counts_live s entries since_start id a) ∧
    StronglySorted key_le (nv_node_id <$> nodes) ∧ NoDup (nv_node_id <$> nodes).
Proof.
  exists (btree_values (live_map s entries since_start)).
  split; [apply observe_list_live_map|]. split; [intros id a; apply live_map_values|].
  rewrite live_map_ids. split; [apply btree_keys_sorted|apply btree_keys_nodup].
Qed.

(** * Grace and shedding *)

(** The sets a node can hold: a fresh one, or one that has observed LISTs. *)
Inductive reachable : LiveNodeSet → Prop :=
  | reachable_new local ms timeout : reachable (LiveNodeSet_new local ms timeout)
  | reachable_list s entries since : reachable s → reachable (observe_list s entries since).1.

Definition set_inv (s : LiveNodeSet) : Prop :=
  local_node_id s ∈ members s ∧ local_node_id s ∈ nv_node_id <$> cached s ∧
  (∀ id, id ∈ nv_node_id <$> cached s → id ∈ members s) ∧
  StronglySorted key_le (nv_node_id <$> cached s) ∧ NoDup (nv_node_id <$> cached s).

Lemma new_inv local ms timeout : set_inv (LiveNodeSet_new local ms timeout).
Proof.
  unfold set_inv, LiveNodeSet_new. cbn [local_node_id members cached].
  rewrite <- list_fmap_compose.
  replace (nv_node_id ∘ (λ id, MkNodeView id 0) <$> bset_iter ({[local]} ∪ list_to_set ms))
    with (bset_iter ({[local]} ∪ list_to_set ms : gset string)) by (by rewrite list_fmap_id).
  split; [set_solver|]. split; [rewrite elem_of_bset_iter; set_solver|].
  split; [intros id; by rewrite elem_of_bset_iter|]. split; [apply bset_iter_sorted|apply bset_iter_nodup].
Qed.

Lemma reachable_inv s : reachable s → set_inv s.
Proof.
  induction 1 as [|s entries since Hs IH]; [apply new_inv|].
  destruct (observe_list_exact s entries since) as (nodes & -> & Hin & Hsort & Hnd).
  destruct IH as (Hlocal & _). unfold set_inv. cbn [fst local_node_id members cached].
  split; [done|]. split.
  { pose proof (self_age_observed entries (local_node_id s)) as Ho.
    apply list_elem_of_fmap. eexists (MkNodeView (local_node_id s) _). split; [done|].
    apply Hin. split; [exact Ho|by left]. }
  split; [|done]. intros id ([i a] & -> & H)%list_elem_of_fmap.
  by apply Hin in H as [_ [->|(? & _)]].
Qed.

(** A failed LIST serves the cached fleet for exactly one heartbeat timeout and
    then sheds.  In grace the node publishes and its candidates contain itself and
    only configured members; once shed it withdraws its heartbeat, is not ready
    and offers no candidates at all, so it cannot promote itself on an empty
    list. *)
Theorem failure_view_safe (s : LiveNodeSet) (since_last_success : N) (Hs : reachable s) :
  let view := observe_list_failure s since_last_success in
  (since_last_success < grace s →
    live_state view = VGrace ∧ heartbeat_action view = Publish ∧ is_ready (live_state view) = true ∧
    ∃ ids, candidates view = Some ids ∧ local_node_id s ∈ ids ∧ (∀ id, id ∈ ids → id ∈ members s)) ∧
  (grace s ≤ since_last_success →
    live_state view = VShed ∧ heartbeat_action view = Withdraw ∧ is_ready (live_state view) = false ∧
    candidates view = None ∧ live_view_nodes view = []).
Proof.
  cbv zeta. unfold observe_list_failure, grace.
  destruct (reachable_inv s Hs) as (_ & Hlocal & Hmem & _).
  destruct (since_last_success <? heartbeat_timeout s) eqn:E; [apply N.ltb_lt in E|apply N.ltb_ge in E];
    (split; intros; [|]); try (exfalso; lia).
  - repeat (split; [done|]). by exists (nv_node_id <$> cached s).
  - done.
Qed.

Lemma failure_view_safe_witness :
  candidates (observe_list_failure (LiveNodeSet_new "b" ["a"] 15) 15) = None ∧
  is_Some (candidates (observe_list_failure (LiveNodeSet_new "b" ["a"] 15) 14)).
Proof.
  destruct (failure_view_safe (LiveNodeSet_new "b" ["a"] 15) 15 (reachable_new _ _ _)) as [_ H].
  split; [apply H; cbn; lia|by eexists].
Defined.

(** * Agreement *)

(** Any two nodes' answers name the same candidates. *)
Lemma same_candidates l1 l2 :
  StronglySorted key_le l1 → StronglySorted key_le l2 → NoDup l1 → NoDup l2 →
  (∀ id : string, id ∈ l1 ↔ id ∈ l2) → l1 = l2.
Proof. apply sorted_nodup_ext. Qed.

(** A member whose own heartbeat the store shows fresh. *)
Definition visibly_live (s : LiveNodeSet) (entries : list HeartbeatEntry) (id : string) : Prop :=
  id ∈ members s ∧ ∃ a, least_age entries id a ∧ a < heartbeat_timeout s.

Lemma counts_live_settled s entries since id :
  heartbeat_timeout s ≤ since → visibly_live s entries (local_node_id s) →
  (∃ a, counts_live s entries since id a) ↔ visibly_live s entries id.
Proof.
  intros Hsince Hself. unfold counts_live. split.
  - intros (a & Ho & [->|(Hm & Hf & Hs)]); [done|]. split; [done|].
    destruct Ho as [Hl|[Hp ->]].
    + exists a. split; [done|]. apply Hf. by eapply least_age_published.
    + specialize (Hs Hp). lia.
  - intros (Hm & a & Hl & Ha). exists a. split; [by left|]. right. split; [done|]. split; [done|].
    intros Hp. exfalso. apply Hp. by eapply least_age_published.
Qed.

(** Nodes that read the same store agree on every owner: two settled nodes of one
    configuration whose own heartbeats are visible derive the same candidate list
    from one LIST, so rendezvous gives them the same owner for every cell. *)
Theorem fleet_agreement (s1 s2 : LiveNodeSet) (entries : list HeartbeatEntry) (since1 since2 : N)
    (Hmembers : members s1 = members s2) (Htimeout : heartbeat_timeout s1 = heartbeat_timeout s2)
    (Hself1 : visibly_live s1 entries (local_node_id s1))
    (Hself2 : visibly_live s2 entries (local_node_id s2))
    (Hsince1 : heartbeat_timeout s1 ≤ since1) (Hsince2 : heartbeat_timeout s2 ≤ since2) :
  let v1 := (observe_list s1 entries since1).2 in
  let v2 := (observe_list s2 entries since2).2 in
  candidates v1 = candidates v2 ∧
  ∀ scope cell_id, placement.owner scope cell_id <$> candidates v1
                 = placement.owner scope cell_id <$> candidates v2.
Proof.
  cbv zeta.
  destruct (observe_list_exact s1 entries since1) as (n1 & -> & Hin1 & Hs1 & Hd1).
  destruct (observe_list_exact s2 entries since2) as (n2 & -> & Hin2 & Hs2 & Hd2).
  cbn [snd candidates].
  assert (nv_node_id <$> n1 = nv_node_id <$> n2) as E; [|by rewrite E].
  apply same_candidates; [done..|]. intros id.
  assert (∀ s (nodes : list NodeView) since, (∀ i a, MkNodeView i a ∈ nodes ↔ counts_live s entries since i a) →
    id ∈ nv_node_id <$> nodes ↔ ∃ a, counts_live s entries since id a) as Hids.
  { clear. intros s nodes since Hin. rewrite list_elem_of_fmap. split.
    - intros ([i a] & -> & H). exists a. by apply Hin.
    - intros (a & H). exists (MkNodeView id a). split; [done|]. by apply Hin. }
  rewrite (Hids s1 n1 since1 Hin1), (Hids s2 n2 since2 Hin2).
  rewrite !counts_live_settled by done. unfold visibly_live. by rewrite Hmembers, Htimeout.
Qed.

Definition two_heartbeats : list HeartbeatEntry := [MkHeartbeatEntry "a" 1 []; MkHeartbeatEntry "b" 2 []].

Lemma fleet_agreement_witness :
  candidates (observe_list (LiveNodeSet_new "a" ["b"] 15) two_heartbeats 20).2
  = candidates (observe_list (LiveNodeSet_new "b" ["a"] 15) two_heartbeats 30).2.
Proof.
  assert (least_age two_heartbeats "a" 1 ∧ least_age two_heartbeats "b" 2) as [Ha Hb].
  { split; (split; [|intros e' [->|[->|H]%elem_of_cons]%elem_of_cons; cbn; intros;
      [discriminate || lia|discriminate || lia|by apply elem_of_nil in H]]).
    - exists (MkHeartbeatEntry "a" 1 []). split; [apply list_elem_of_here|done].
    - exists (MkHeartbeatEntry "b" 2 []). split; [apply list_elem_of_further, list_elem_of_here|done]. }
  apply (fleet_agreement (LiveNodeSet_new "a" ["b"] 15) (LiveNodeSet_new "b" ["a"] 15)
    two_heartbeats 20 30); cbn; try lia; try set_solver;
    (split; [set_solver|eexists; split; [eassumption|cbn; lia]]).
Defined.

(** * The LIST boundary *)

Lemma prefix_match_app p l : prefix_match (p ++ l) p = Some l.
Proof. induction p as [|x p IH]; [by destruct l|]. cbn. by rewrite bool_decide_eq_true_2. Qed.
Lemma prefix_match_Some location prefix rest :
  prefix_match location prefix = Some rest ↔ location = prefix ++ rest.
Proof.
  split; [|intros ->; apply prefix_match_app].
  revert location; induction prefix as [|x p IH]; intros [|y l]; cbn; try done; try (by intros [= ->]).
  case_bool_decide; [|done]. subst. by intros ->%IH.
Qed.

Lemma parse_object_name_Some name id :
  parse_object_name name = Some id ↔ name = id ∧ name_rule_violation id = None.
Proof.
  unfold parse_object_name, validate_node_id. destruct (name_rule_violation name) eqn:E; cbn.
  - split; [done|]. intros [-> ?]. congruence.
  - split; [intros [= ->]; done|]. by intros [-> _].
Qed.

Lemma node_id_at_Some prefix loc id :
  node_id_at prefix loc = Some id ↔ loc = prefix ++ [id] ∧ name_rule_violation id = None.
Proof.
  unfold node_id_at. rewrite bind_Some. split.
  - intros (parts & Ep & H). apply prefix_match_Some in Ep as ->.
    destruct parts as [|name [|? ?]]; try discriminate. by apply parse_object_name_Some in H as [-> ?].
  - intros [-> Hid]. exists [id]. split; [apply prefix_match_app|]. by apply parse_object_name_Some.
Qed.

Lemma heartbeat_age_eq now t : Z.of_N (heartbeat_age now t) = Z.max 0 (now - t).
Proof.
  unfold heartbeat_age. destruct (Z.ltb_spec (now - t) 0); lia.
Qed.

Lemma entry_listed prefix now (metas : list (list string * Z)) id age loc :
  MkHeartbeatEntry id age loc ∈ omap (λ meta : list string * Z,
      node_id ← node_id_at prefix meta.1;
      Some (MkHeartbeatEntry node_id (heartbeat_age now meta.2) meta.1)) metas ↔
  ∃ t, (loc, t) ∈ metas ∧ loc = prefix ++ [id] ∧
       name_rule_violation id = None ∧ Z.of_N age = Z.max 0 (now - t).
Proof.
  rewrite list_elem_of_omap. split.
  - intros ([loc' t] & Hin & (i & Hi & H)%bind_Some). cbn [fst snd] in Hi, H. injection H as <- <- <-.
    apply node_id_at_Some in Hi as [-> Hi]. exists t. rewrite heartbeat_age_eq. done.
  - intros (t & Hin & -> & Hi & Hage). exists (prefix ++ [id], t). split; [done|].
    apply bind_Some. exists id. split; [by apply node_id_at_Some|].
    rewrite <- heartbeat_age_eq in Hage. apply N2Z.inj in Hage as ->. done.
Qed.

(** A LIST attributes an entry to a node exactly when the object sits directly
    under the heartbeat prefix with a name the publisher could have written; its
    age is the reader's clock minus the object's, zero when the object is stamped
    in the future; a missing prefix is an empty fleet and only a real failure is
    an error.  The path a node publishes to is read back as that node. *)
Theorem list_heartbeats_exact (encode_part : string → string) (base : list string) (now : Z)
    (metas : list (list string * Z)) (node_id : string)
    (Henc : ∀ s, name_rule_violation s = None → encode_part s = s)
    (Hid : name_rule_violation node_id = None) :
  (∃ entries, list_heartbeats encode_part base now (inl metas) = Ok entries ∧
    ∀ id age loc, MkHeartbeatEntry id age loc ∈ entries ↔
      ∃ t, (loc, t) ∈ metas ∧ loc = heartbeat_prefix encode_part base ++ [id] ∧
           name_rule_violation id = None ∧ Z.of_N age = Z.max 0 (now - t)) ∧
  list_heartbeats encode_part base now (inr true) = Ok [] ∧
  (∃ e, list_heartbeats encode_part base now (inr false) = Err e) ∧
  (∃ path, heartbeat_path encode_part base node_id = Ok path ∧
    node_id_at (heartbeat_prefix encode_part base) path = Some node_id).
Proof.
  unfold list_heartbeats, heartbeat_path, object_name. cbv zeta.
  generalize (heartbeat_prefix encode_part base) as prefix. intros prefix.
  split; [|split; [done|split; [by eexists|]]].
  - eexists; split; [reflexivity|]. intros id age loc. apply entry_listed.
  - unfold validate_node_id. rewrite Hid. eexists; split; [reflexivity|].
    unfold path_join. rewrite Henc by done. by apply node_id_at_Some.
Qed.

Lemma list_heartbeats_exact_witness :
  ∃ path, heartbeat_path (λ s, s) ["data"] "graph-node-0" = Ok path ∧
    node_id_at (heartbeat_prefix (λ s, s) ["data"]) path = Some "graph-node-0".
Proof.
  destruct (list_heartbeats_exact (λ s, s) ["data"] 0 [] "graph-node-0") as (_ & _ & _ & H);
    [done|reflexivity|exact H].
Defined.
