(* ===== verification/Cache.v ===== *)
(** [core/cache.rs: BoundedGraphCache]: the bounded, tenant-fair LRU cache every
    graph cache is an instance of.  The map is read in key order, as the
    [BTreeMap] is; the counters of [GraphCacheMetrics] the cache bumps are a record
    threaded through. *)

From S2P Require Import Prelude Text.

Local Open Scope N_scope.

Module cache.

(** The counters an insertion can move ([fetch_add] wraps). *)
Record GraphCacheMetrics := MkMetrics {
  insertions : N; pinned_insertions : N; evictions : N; tenant_quota_rejections : N }.

Definition bump_insertions (m : GraphCacheMetrics) : GraphCacheMetrics :=
  MkMetrics (wrapping_add (insertions m) 1) (pinned_insertions m) (evictions m) (tenant_quota_rejections m).
Definition bump_pinned (m : GraphCacheMetrics) : GraphCacheMetrics :=
  MkMetrics (insertions m) (wrapping_add (pinned_insertions m) 1) (evictions m) (tenant_quota_rejections m).
Definition bump_evictions (m : GraphCacheMetrics) : GraphCacheMetrics :=
  MkMetrics (insertions m) (pinned_insertions m) (wrapping_add (evictions m) 1) (tenant_quota_rejections m).
Definition bump_rejections (m : GraphCacheMetrics) : GraphCacheMetrics :=
  MkMetrics (insertions m) (pinned_insertions m) (evictions m) (wrapping_add (tenant_quota_rejections m) 1).

Section cache.
Context {K V : Type} `{Countable K, !KeyOrd K}.
Context `{!RelDecision (key_le (K := K)), !KeyOrdLaws K}.

Record CacheEntry := MkCacheEntry {
  value : V; tenant : string; pinned : bool; last_access : N; entry_bytes : N }.

Record BoundedGraphCache := MkCache {
  max_entries : N; max_resident_bytes : N; resident_bytes : N;
  max_entries_per_tenant : option N; clock : N;
  entries : gmap K CacheEntry; tenant_entries : gmap string N }.

Definition new_with_byte_limit (max : N) (per_tenant : option N) (max_bytes : N) : BoundedGraphCache :=
  MkCache max max_bytes 0 per_tenant 0 ∅ ∅.
Definition new (max : N) (per_tenant : option N) : BoundedGraphCache :=
  new_with_byte_limit max per_tenant u64_max.

Definition len (c : BoundedGraphCache) : N := N.of_nat (size (entries c)).

Definition tick (c : BoundedGraphCache) : BoundedGraphCache :=
  MkCache (max_entries c) (max_resident_bytes c) (resident_bytes c) (max_entries_per_tenant c)
    (saturating_add (clock c) 1) (entries c) (tenant_entries c).

Definition set_entries (c : BoundedGraphCache) (es : gmap K CacheEntry) (bytes : N)
    (ts : gmap string N) : BoundedGraphCache :=
  MkCache (max_entries c) (max_resident_bytes c) bytes (max_entries_per_tenant c) (clock c) es ts.

Definition get (c : BoundedGraphCache) (key : K) : option V * BoundedGraphCache :=
  let c := tick c in
  match entries c !! key with
  | None => (None, c)
  | Some e =>
      let e' := MkCacheEntry (value e) (tenant e) (pinned e) (clock c) (entry_bytes e) in
      (Some (value e), set_entries c (<[key := e']> (entries c)) (resident_bytes c) (tenant_entries c))
  end.

(** [Iterator::max_by_key] keeps the last maximum, [min_by_key] the first minimum. *)
Fixpoint max_by_key {A} (f : A → N) (best : option A) (l : list A) : option A :=
  match l with
  | [] => best
  | a :: l' =>
      max_by_key f (match best with
                    | Some b => if f a <? f b then Some b else Some a
                    | None => Some a
                    end) l'
  end.
Fixpoint min_by_key {A} (f : A → N) (best : option A) (l : list A) : option A :=
  match l with
  | [] => best
  | a :: l' =>
      min_by_key f (match best with
                    | Some b => if f a <? f b then Some a else Some b
                    | None => Some a
                    end) l'
  end.

Definition get_latest_by (c : BoundedGraphCache) (predicate : K → V → bool) (score : K → V → N)
    : option V * BoundedGraphCache :=
  match max_by_key (λ p, score p.1 (value p.2)) None
          (filter (λ p, predicate p.1 (value p.2) = true) (btree_iter (entries c))) with
  | None => (None, c)
  | Some (key, _) => get c key
  end.

Definition decrement_tenant (ts : gmap string N) (t : string) : gmap string N :=
  match ts !! t with
  | None => ts
  | Some count =>
      let count := saturating_sub count 1 in
      if count =? 0 then delete t ts else <[t := count]> ts
  end.

Definition remove (c : BoundedGraphCache) (key : K) : option V * BoundedGraphCache :=
  match entries c !! key with
  | None => (None, c)
  | Some e =>
      (Some (value e),
       set_entries c (delete key (entries c)) (saturating_sub (resident_bytes c) (entry_bytes e))
         (decrement_tenant (tenant_entries c) (tenant e)))
  end.

Definition retain (c : BoundedGraphCache) (keep : K → V → bool) : BoundedGraphCache :=
  let removed := (filter (λ p, keep p.1 (value p.2) = false) (btree_iter (entries c))).*1 in
  foldl (λ c key, (remove c key).2) c removed.

Definition evictable (t : option string) (allow_pinned : bool) (e : CacheEntry) : bool :=
  (match t with Some t => bool_decide (t = tenant e) | None => true end)
  && (allow_pinned || negb (pinned e)).

Definition evict_one (c : BoundedGraphCache) (t : option string) (allow_pinned : bool)
    (m : GraphCacheMetrics) : option (BoundedGraphCache * GraphCacheMetrics) :=
  match min_by_key (λ p, last_access p.2) None
          (filter (λ p, evictable t allow_pinned p.2 = true) (btree_iter (entries c))) with
  | None => None
  | Some (key, _) => Some ((remove c key).2, bump_evictions m)
  end.

Definition evict_either (c : BoundedGraphCache) (t : option string) (m : GraphCacheMetrics)
    : option (BoundedGraphCache * GraphCacheMetrics) :=
  match evict_one c t false m with
  | Some r => Some r
  | None => evict_one c t true m
  end.

Definition tenant_count (c : BoundedGraphCache) (t : string) : N :=
  default 0 (tenant_entries c !! t).

Fixpoint tenant_quota_loop (fuel : nat) (limit : N) (t : string) (c : BoundedGraphCache)
    (m : GraphCacheMetrics) : BoundedGraphCache * GraphCacheMetrics :=
  match fuel with
  | O => (c, m)
  | S fuel' =>
      if limit <? tenant_count c t then
        match evict_either c (Some t) m with
        | Some (c', m') => tenant_quota_loop fuel' limit t c' m'
        | None => (c, bump_rejections m)
        end
      else (c, m)
  end.

(** Every round removes an entry: one more than the entries is fuel enough. *)
Definition enforce_tenant_quota (c : BoundedGraphCache) (t : string) (m : GraphCacheMetrics)
    : BoundedGraphCache * GraphCacheMetrics :=
  match max_entries_per_tenant c with
  | None => (c, m)
  | Some limit => tenant_quota_loop (S (size (entries c))) limit t c m
  end.

Definition over_limit (c : BoundedGraphCache) : bool :=
  (max_entries c <? len c) || (max_resident_bytes c <? resident_bytes c).

Fixpoint total_limit_loop (fuel : nat) (c : BoundedGraphCache) (m : GraphCacheMetrics)
    : BoundedGraphCache * GraphCacheMetrics :=
  match fuel with
  | O => (c, m)
  | S fuel' =>
      if over_limit c then
        match evict_either c None m with
        | Some (c', m') => total_limit_loop fuel' c' m'
        | None => (c, m)
        end
      else (c, m)
  end.
Definition enforce_total_limit (c : BoundedGraphCache) (m : GraphCacheMetrics)
    : BoundedGraphCache * GraphCacheMetrics :=
  total_limit_loop (S (size (entries c))) c m.

(** The bookkeeping of an insertion, before the limits are enforced. *)
Definition put_entry (c : BoundedGraphCache) (key : K) (v : V) (t : string) (pin : bool) (bytes : N)
    : BoundedGraphCache :=
  let c := tick c in
  let previous := entries c !! key in
  let es := <[key := MkCacheEntry v t pin (clock c) bytes]> (entries c) in
  let '(rb, ts) := match previous with
                   | Some p => (saturating_sub (resident_bytes c) (entry_bytes p),
                                decrement_tenant (tenant_entries c) (tenant p))
                   | None => (resident_bytes c, tenant_entries c)
                   end in
  set_entries c es (saturating_add rb bytes) (<[t := default 0 (ts !! t) + 1]> ts).

Definition insert_sized (c : BoundedGraphCache) (key : K) (v : V) (t : string) (pin : bool)
    (bytes : N) (m : GraphCacheMetrics) : option V * BoundedGraphCache * GraphCacheMetrics :=
  if max_entries c =? 0 then (None, c, bump_rejections m)
  else
    let c := put_entry c key v t pin bytes in
    let m := bump_insertions m in
    let m := if pin then bump_pinned m else m in
    let '(c, m) := enforce_tenant_quota c t m in
    let '(c, m) := enforce_total_limit c m in
    let '(r, c) := get c key in
    (r, c, m).

Definition insert (c : BoundedGraphCache) (key : K) (v : V) (t : string) (pin : bool)
    (m : GraphCacheMetrics) : option V * BoundedGraphCache * GraphCacheMetrics :=
  insert_sized c key v t pin 0 m.
End cache.

End cache.
