(* ===== verification/CacheFacts.v ===== *)
(** The cache keeps its books and its bounds: resident bytes and tenant counts are
    the sums over the entries, every limit holds after every operation, the
    eviction loops end, and eviction takes the least recently used unpinned entry
    first. *)

From S2P Require Import Prelude Text Cache.
Import cache.

Local Open Scope N_scope.

Section facts.
Context {K V : Type} `{Countable K, !KeyOrd K}.
Context `{!RelDecision (key_le (K := K)), !KeyOrdLaws K}.

Abbreviation Entry := (@CacheEntry V).
Abbreviation Cch := (@BoundedGraphCache K V _ _).
Implicit Types (c : Cch) (es : gmap K Entry).

Definition tenant_weight (t : string) (e : Entry) : N := if bool_decide (tenant e = t) then 1 else 0.

Lemma tenant_weight_same e : tenant_weight (tenant e) e = 1.
Proof. unfold tenant_weight. by rewrite bool_decide_eq_true_2. Qed.
Lemma tenant_weight_other t e : t ≠ tenant e → tenant_weight t e = 0.
Proof. intros Hne. unfold tenant_weight. by rewrite bool_decide_eq_false_2. Qed.

(** * Well-formed books *)

Definition tenants_ok (es : gmap K Entry) (ts : gmap string N) : Prop :=
  ∀ t, default 0 (ts !! t) = wsum (tenant_weight t) es ∧ ts !! t ≠ Some 0.

(** The counters say what the entries say. *)
Definition books_ok c : Prop :=
  resident_bytes c = wsum entry_bytes (entries c) ∧ tenants_ok (entries c) (tenant_entries c).

(** Every limit holds. *)
Definition limits_ok c : Prop :=
  len c ≤ max_entries c ∧ resident_bytes c ≤ max_resident_bytes c ∧
  ∀ limit t, max_entries_per_tenant c = Some limit → tenant_count c t ≤ limit.

Definition same_config c c' : Prop :=
  max_entries c' = max_entries c ∧ max_resident_bytes c' = max_resident_bytes c ∧
  max_entries_per_tenant c' = max_entries_per_tenant c.

#[local] Instance same_config_refl : Reflexive same_config.
Proof. done. Qed.
#[local] Instance same_config_trans : Transitive same_config.
Proof. intros a b c (?&?&?) (?&?&?). unfold same_config. repeat split; congruence. Qed.

Lemma decrement_tenant_ok es ts k e :
  tenants_ok es ts → es !! k = Some e → tenants_ok (delete k es) (decrement_tenant ts (tenant e)).
Proof.
  intros Hok Hk t. destruct (Hok (tenant e)) as [H1 H2]. destruct (Hok t) as [H3 H4].
  rewrite (wsum_delete (tenant_weight (tenant e)) es k e Hk), tenant_weight_same in H1.
  rewrite (wsum_delete (tenant_weight t) es k e Hk) in H3.
  unfold decrement_tenant, saturating_sub.
  destruct (ts !! tenant e) as [n|] eqn:En; cbn [default from_option id] in H1; [|lia].
  destruct (decide (t = tenant e)) as [->|Hne].
  - case_match eqn:Ez; [apply N.eqb_eq in Ez|apply N.eqb_neq in Ez];
      rewrite ?lookup_delete_eq, ?lookup_insert_eq; cbn; (split; [lia|congruence]).
  - rewrite tenant_weight_other in H3 by done.
    case_match; rewrite ?lookup_delete_ne, ?lookup_insert_ne by done; (split; [lia|done]).
Qed.

Lemma increment_tenant_ok es ts k e :
  tenants_ok es ts → es !! k = None →
  tenants_ok (<[k := e]> es) (<[tenant e := default 0 (ts !! tenant e) + 1]> ts).
Proof.
  intros Hok Hk t. rewrite wsum_insert by done.
  destruct (decide (t = tenant e)) as [->|Hne].
  - rewrite lookup_insert_eq, tenant_weight_same. cbn. destruct (Hok (tenant e)) as [-> _].
    split; [lia|]. intros [=]. lia.
  - rewrite lookup_insert_ne, tenant_weight_other by done. destruct (Hok t) as [-> ?]. split; [lia|done].
Qed.

Lemma remove_spec c k :
  books_ok c →
  books_ok (remove c k).2 ∧ entries (remove c k).2 = delete k (entries c) ∧
  (remove c k).1 = value <$> entries c !! k ∧ same_config c (remove c k).2 ∧
  clock (remove c k).2 = clock c.
Proof.
  intros [Hb Ht]. unfold remove. destruct (entries c !! k) as [e|] eqn:Ek.
  - split; [|by repeat split]. split; cbn [resident_bytes entries tenant_entries set_entries snd].
    + rewrite Hb, (wsum_delete _ _ k e Ek). unfold saturating_sub. lia.
    + by eapply decrement_tenant_ok.
  - split; [by split|]. split; [cbn; by rewrite delete_id|]. done.
Qed.

Lemma tick_books c : books_ok c → books_ok (tick c).
Proof. done. Qed.

Lemma get_spec c k :
  books_ok c →
  books_ok (get c k).2 ∧ (get c k).1 = value <$> entries c !! k ∧ same_config c (get c k).2 ∧
  entries (get c k).2 =
    (match entries c !! k with
     | Some e => <[k := MkCacheEntry (value e) (tenant e) (pinned e)
                         (saturating_add (clock c) 1) (entry_bytes e)]> (entries c)
     | None => entries c
     end) ∧
  resident_bytes (get c k).2 = resident_bytes c ∧ tenant_entries (get c k).2 = tenant_entries c.
Proof.
  intros [Hb Ht]. unfold get. cbn [tick entries].
  destruct (entries c !! k) as [e|] eqn:Ek; [|by split; [by split|]].
  split; [|by repeat split]. split; cbn [set_entries resident_bytes entries tenant_entries snd tick].
  - by rewrite (wsum_replace _ _ k e).
  - intros t. rewrite (wsum_replace _ _ k e); [apply Ht|done|done].
Qed.

Lemma put_entry_spec c k v t pin bytes :
  books_ok c → u64_ok (resident_bytes c + bytes) →
  let c' := put_entry c k v t pin bytes in
  let e := MkCacheEntry v t pin (saturating_add (clock c) 1) bytes in
  books_ok c' ∧ entries c' = <[k := e]> (entries c) ∧ same_config c c' ∧
  clock c' = saturating_add (clock c) 1.
Proof.
  intros [Hb Ht] Hu. cbv zeta. unfold put_entry. cbn [tick entries clock resident_bytes tenant_entries].
  destruct (entries c !! k) as [p|] eqn:Ek; (split; [|by repeat split]).
  - assert (<[k := MkCacheEntry v t pin (saturating_add (clock c) 1) bytes]> (entries c)
      = <[k := MkCacheEntry v t pin (saturating_add (clock c) 1) bytes]> (delete k (entries c))) as Ei
      by (by rewrite insert_delete_eq).
    split; cbn [set_entries resident_bytes entries tenant_entries]; rewrite Ei.
    + rewrite wsum_insert by apply lookup_delete_eq. rewrite Hb, (wsum_delete _ _ k p Ek) in *.
      cbn [entry_bytes]. unfold saturating_sub, saturating_add, u64_ok in *. lia.
    + apply (increment_tenant_ok _ _ k (MkCacheEntry v t pin (saturating_add (clock c) 1) bytes));
        [by apply decrement_tenant_ok|apply lookup_delete_eq].
  - split; cbn [set_entries resident_bytes entries tenant_entries].
    + rewrite wsum_insert by done. rewrite Hb in *. cbn [entry_bytes].
      unfold saturating_add, u64_ok in *. lia.
    + by apply (increment_tenant_ok _ _ k (MkCacheEntry v t pin (saturating_add (clock c) 1) bytes)).
Qed.

(** * Eviction *)

Lemma min_by_key_some {A} (f : A → N) b l :
  ∃ x, min_by_key f (Some b) l = Some x ∧ (x ∈ l ∨ x = b) ∧ (∀ y, y ∈ l → f x ≤ f y) ∧ f x ≤ f b.
Proof.
  revert b; induction l as [|a l IH]; intros b; cbn [min_by_key].
  { exists b. set_solver by lia. }
  destruct (f a <? f b) eqn:E; [apply N.ltb_lt in E|apply N.ltb_ge in E].
  - destruct (IH a) as (x & -> & Hx & Hl & Hb). exists x. split; [done|]. split; [set_solver|].
    split; [|lia]. intros y [->|?]%elem_of_cons; auto.
  - destruct (IH b) as (x & -> & Hx & Hl & Hb). exists x. split; [done|]. split; [set_solver|].
    split; [|done]. intros y [->|?]%elem_of_cons; [lia|auto].
Qed.

Lemma min_by_key_spec {A} (f : A → N) l :
  match min_by_key f None l with
  | None => l = []
  | Some x => x ∈ l ∧ ∀ y, y ∈ l → f x ≤ f y
  end.
Proof.
  destruct l as [|a l]; [done|]. cbn [min_by_key].
  destruct (min_by_key_some f a l) as (x & -> & Hx & Hl & Ha). split; [set_solver|].
  intros y [->|?]%elem_of_cons; auto.
Qed.

(** [k] is the least recently used entry the caller may evict. *)
Definition lru_victim c (t : option string) (allow_pinned : bool) (k : K) (e : Entry) : Prop :=
  entries c !! k = Some e ∧ evictable t allow_pinned e = true ∧
  ∀ k' e', entries c !! k' = Some e' → evictable t allow_pinned e' = true → last_access e ≤ last_access e'.

Lemma evict_one_spec c t ap m :
  match evict_one c t ap m with
  | Some (c', m') => ∃ k e, lru_victim c t ap k e ∧ c' = (remove c k).2 ∧ m' = bump_evictions m
  | None => ∀ k e, entries c !! k = Some e → evictable t ap e = false
  end.
Proof.
  unfold evict_one.
  pose proof (min_by_key_spec (λ p : K * Entry, last_access p.2)
    (filter (λ p, evictable t ap p.2 = true) (btree_iter (entries c)))) as Hmin.
  destruct (min_by_key _ None _) as [[k e]|].
  - destruct Hmin as [Hin Hle].
    apply list_elem_of_filter in Hin as [Hev Hin]. apply elem_of_btree_iter in Hin.
    exists k, e. split; [|done]. split; [done|]. split; [done|]. intros k' e' Hk' Hev'.
    apply (Hle (k', e')). apply list_elem_of_filter. split; [done|]. by apply elem_of_btree_iter.
  - rename Hmin into Hnil. intros k e Hk. destruct (evictable t ap e) eqn:He; [|done].
    assert ((k, e) ∈ filter (λ p : K * Entry, evictable t ap p.2 = true) (btree_iter (entries c))) as Hin.
    { apply list_elem_of_filter. split; [done|]. by apply elem_of_btree_iter. }
    rewrite Hnil in Hin. by apply elem_of_nil in Hin.
Qed.

Lemma evict_either_spec c t m :
  match evict_either c t m with
  | Some (c', m') => ∃ k e ap, lru_victim c t ap k e ∧ c' = (remove c k).2 ∧ m' = bump_evictions m ∧
      (ap = true → ∀ k' e', entries c !! k' = Some e' → evictable t false e' = false)
  | None => ∀ k e, entries c !! k = Some e → evictable t true e = false
  end.
Proof.
  unfold evict_either. pose proof (evict_one_spec c t false m) as Hf.
  destruct (evict_one c t false m) as [[c' m']|].
  - destruct Hf as (k & e & Hv & ? & ?). exists k, e, false. repeat (split; [done|]). by intros ?.
  - pose proof (evict_one_spec c t true m) as Ht. destruct (evict_one c t true m) as [[c' m']|]; [|done].
    destruct Ht as (k & e & Hv & ? & ?). exists k, e, true. repeat (split; [done|]). by intros _.
Qed.

(** * The loops *)

(** What a run of evictions does: fewer entries, the same configuration, the books
    kept, no tenant's count raised. *)
Definition evicted_from c c' : Prop :=
  books_ok c' ∧ entries c' ⊆ entries c ∧ same_config c c' ∧ clock c' = clock c ∧
  resident_bytes c' ≤ resident_bytes c ∧ (∀ t, tenant_count c' t ≤ tenant_count c t).

Lemma evicted_refl c : books_ok c → evicted_from c c.
Proof. intros Hc. unfold evicted_from. repeat split; try done; apply Hc. Qed.

Lemma evicted_trans c1 c2 c3 : evicted_from c1 c2 → evicted_from c2 c3 → evicted_from c1 c3.
Proof.
  intros (?&?&?&?&?&Ht1) (?&?&?&?&?&Ht2). split; [done|]. split; [by etrans|].
  split; [by etrans|]. split; [congruence|]. split; [lia|].
  intros t. specialize (Ht1 t). specialize (Ht2 t). lia.
Qed.

Lemma evict_step c k e : books_ok c → entries c !! k = Some e →
  evicted_from c (remove c k).2 ∧ size (entries c) = S (size (entries (remove c k).2)).
Proof.
  intros Hok Hk. pose proof (remove_spec c k Hok) as (Hok' & He & _ & Hcfg & Hclk).
  split.
  - split; [done|]. rewrite He. split; [apply delete_subseteq|]. split; [done|]. split; [done|].
    destruct Hok as [Hb Ht], Hok' as [Hb' Ht']. rewrite Hb, Hb', He. split; [apply wsum_delete_le|].
    intros t. unfold tenant_count. rewrite (proj1 (Ht t)), (proj1 (Ht' t)), He. apply wsum_delete_le.
  - rewrite He. rewrite <- (insert_delete_id _ _ _ Hk) at 1.
    by rewrite map_size_insert_None by apply lookup_delete_eq.
Qed.

Lemma total_limit_loop_spec fuel c m :
  books_ok c → (size (entries c) < fuel)%nat →
  let c' := (total_limit_loop fuel c m).1 in evicted_from c c' ∧ over_limit c' = false.
Proof.
  revert c m; induction fuel as [|fuel IH]; intros c m Hok Hf; [lia|]. cbn [total_limit_loop].
  destruct (over_limit c) eqn:Hover; [|by split; [apply evicted_refl|]].
  pose proof (evict_either_spec c None m) as He. destruct (evict_either c None m) as [[c1 m1]|].
  - destruct He as (k & e & ap & (Hk & _) & -> & -> & _).
    destruct (evict_step c k e Hok Hk) as [Hev Hsz].
    destruct (IH (remove c k).2 (bump_evictions m)) as [Hev' Hov]; [apply Hev|lia|].
    split; [by eapply evicted_trans|done].
  - exfalso. assert (entries c = ∅) as Hempty.
    { apply map_empty. intros k. destruct (entries c !! k) as [e|] eqn:Ek; [|done].
      apply He in Ek. done. }
    destruct Hok as [Hb _]. unfold over_limit, len in Hover. rewrite Hb, Hempty, wsum_empty in Hover.
    rewrite map_size_empty in Hover. apply orb_prop in Hover as [Ho|Ho]; apply N.ltb_lt in Ho; lia.
Qed.

Lemma tenant_quota_loop_spec fuel limit t c m :
  books_ok c → (size (entries c) < fuel)%nat →
  let c' := (tenant_quota_loop fuel limit t c m).1 in evicted_from c c' ∧ tenant_count c' t ≤ limit.
Proof.
  revert c m; induction fuel as [|fuel IH]; intros c m Hok Hf; [lia|]. cbn [tenant_quota_loop].
  destruct (limit <? tenant_count c t) eqn:Hover;
    [apply N.ltb_lt in Hover|apply N.ltb_ge in Hover; by split; [apply evicted_refl|]].
  pose proof (evict_either_spec c (Some t) m) as He. destruct (evict_either c (Some t) m) as [[c1 m1]|].
  - destruct He as (k & e & ap & (Hk & _) & -> & -> & _).
    destruct (evict_step c k e Hok Hk) as [Hev Hsz].
    destruct (IH (remove c k).2 (bump_evictions m)) as [Hev' Hov]; [apply Hev|lia|].
    split; [by eapply evicted_trans|done].
  - exfalso. destruct Hok as [_ Ht]. unfold tenant_count in Hover. rewrite (proj1 (Ht t)) in Hover.
    destruct (wsum_pos (tenant_weight t) (entries c)) as (k & e & Hk & Hw); [lia|].
    apply He in Hk. unfold tenant_weight, evictable in *. cbn in Hk.
    rewrite andb_true_r in Hk. apply bool_decide_eq_false in Hk.
    rewrite bool_decide_eq_false_2 in Hw by congruence. done.
Qed.

Lemma enforce_tenant_quota_spec c t m :
  books_ok c →
  let c' := (enforce_tenant_quota c t m).1 in
  evicted_from c c' ∧ ∀ limit, max_entries_per_tenant c = Some limit → tenant_count c' t ≤ limit.
Proof.
  intros Hok. unfold enforce_tenant_quota. destruct (max_entries_per_tenant c) as [limit|].
  - destruct (tenant_quota_loop_spec (S (size (entries c))) limit t c m Hok) as [H1 H2]; [lia|].
    split; [done|]. by intros l [= <-].
  - by split; [apply evicted_refl|].
Qed.

Lemma enforce_total_limit_spec c m :
  books_ok c → let c' := (enforce_total_limit c m).1 in evicted_from c c' ∧ over_limit c' = false.
Proof. intros Hok. apply total_limit_loop_spec; [done|lia]. Qed.
(** * Operations *)

Lemma put_entry_counts c k v t pin bytes t' :
  books_ok c → u64_ok (resident_bytes c + bytes) → t' ≠ t →
  tenant_count (put_entry c k v t pin bytes) t' ≤ tenant_count c t'.
Proof.
  intros Hok Hfit Ht'. destruct (put_entry_spec c k v t pin bytes Hok Hfit) as ([_ Hts] & He & _).
  unfold tenant_count. rewrite (proj1 (Hts t')), (proj1 (proj2 Hok t')), He, <- insert_delete_eq.
  rewrite wsum_insert by apply lookup_delete_eq. rewrite tenant_weight_other by done.
  pose proof (wsum_delete_le (tenant_weight t') (entries c) k). lia.
Qed.

Lemma get_limits c k : books_ok c → limits_ok c → limits_ok (get c k).2.
Proof.
  intros Hok (H1 & H2 & H3). destruct (get_spec c k Hok) as (_ & _ & (E1 & E2 & E3) & He & Hr & Ht).
  unfold limits_ok, len, tenant_count in *. rewrite E1, E2, E3, Hr, Ht. split; [|done].
  rewrite He. destruct (entries c !! k) as [e|] eqn:Ek; [|done].
  by rewrite map_size_insert_Some by (by eexists).
Qed.

Lemma evicted_limits c c' : evicted_from c c' → limits_ok c → limits_ok c'.
Proof.
  intros (_ & Hsub & (E1 & E2 & E3) & _ & Hr & Ht) (H1 & H2 & H3). unfold limits_ok, len in *.
  rewrite E1, E2, E3. split; [|split].
  - pose proof (map_subseteq_size _ _ Hsub). lia.
  - lia.
  - intros limit t Hl. specialize (H3 limit t Hl). specialize (Ht t). lia.
Qed.

(** Both enforcement passes after an insertion that raised only tenant [t]. *)
Definition enforce c1 (t : string) (m : GraphCacheMetrics) : Cch * GraphCacheMetrics :=
  let '(c, m) := enforce_tenant_quota c1 t m in enforce_total_limit c m.

Lemma enforce_spec c c1 t m :
  books_ok c1 → same_config c c1 → limits_ok c →
  (∀ t', t' ≠ t → tenant_count c1 t' ≤ tenant_count c t') →
  evicted_from c1 (enforce c1 t m).1 ∧ limits_ok (enforce c1 t m).1.
Proof.
  intros Hok1 Hcfg1 Hlim Hcnt1. unfold enforce.
  destruct (enforce_tenant_quota_spec c1 t m Hok1) as [Hev2 Hq2].
  destruct (enforce_tenant_quota c1 t m) as [c2 m2]. cbn [fst] in *.
  destruct (enforce_total_limit_spec c2 m2 (proj1 Hev2)) as [Hev3 Hover].
  destruct (enforce_total_limit c2 m2) as [c3 m3]. cbn [fst] in *.
  pose proof (evicted_trans _ _ _ Hev2 Hev3) as Hev. split; [done|].
  destruct Hev as (_ & _ & Hcfg3 & _ & _ & Hcnt3).
  unfold over_limit in Hover. apply orb_false_iff in Hover as [Ho1 Ho2].
  apply N.ltb_ge in Ho1, Ho2. split; [done|]. split; [done|]. intros limit t' Hl.
  destruct Hcfg3 as (_ & _ & Ecfg3), Hcfg1 as (_ & _ & Ecfg1). rewrite Ecfg3 in Hl.
  destruct (decide (t' = t)) as [->|Hne].
  - destruct Hev3 as (_ & _ & _ & _ & _ & Hc3). specialize (Hc3 t). specialize (Hq2 limit Hl). lia.
  - specialize (Hcnt3 t'). specialize (Hcnt1 t' Hne). rewrite Ecfg1 in Hl.
    destruct Hlim as (_ & _ & Hlim). specialize (Hlim limit t' Hl). lia.
Qed.

Lemma insert_sized_enforce c k v t pin bytes m :
  max_entries c ≠ 0 →
  insert_sized c k v t pin bytes m =
    let r := enforce (put_entry c k v t pin bytes) t
               (if pin then bump_pinned (bump_insertions m) else bump_insertions m) in
    (((get r.1 k).1, (get r.1 k).2), r.2).
Proof.
  intros Hm. unfold insert_sized, enforce. rewrite (proj2 (N.eqb_neq _ _) Hm). cbv zeta.
  destruct (enforce_tenant_quota _ _ _) as [c2 m2]. destruct (enforce_total_limit c2 m2) as [c3 m3].
  cbn [fst snd]. by destruct (get c3 k).
Qed.

Lemma insert_sized_bounds_aux c k v t pin bytes m
    (Hok : books_ok c) (Hlim : limits_ok c) (Hfit : u64_ok (resident_bytes c + bytes)) :
  let '(r, c', _) := insert_sized c k v t pin bytes m in
  books_ok c' ∧ limits_ok c' ∧ same_config c c' ∧
  (∀ k', k' ≠ k → entries c' !! k' = None ∨ entries c' !! k' = entries c !! k') ∧
  r = value <$> entries c' !! k ∧ (r = None ∨ r = Some v).
Proof.
  destruct (decide (max_entries c = 0)) as [Ez|Ez].
  { assert (entries c = ∅) as Hempty.
    { apply map_size_empty_iff. destruct Hlim as [Hl _]. unfold len in Hl. lia. }
    unfold insert_sized. rewrite Ez. split; [done|]. split; [done|]. split; [done|].
    split; [auto|]. rewrite Hempty, lookup_empty. auto. }
  rewrite insert_sized_enforce by done. cbv zeta.
  destruct (put_entry_spec c k v t pin bytes Hok Hfit) as (Hok1 & He1 & Hcfg1 & _).
  destruct (enforce_spec c (put_entry c k v t pin bytes) t
    (if pin then bump_pinned (bump_insertions m) else bump_insertions m) Hok1 Hcfg1 Hlim
    (λ t', put_entry_counts c k v t pin bytes t' Hok Hfit)) as [(Hok3 & Hsub & Hcfg3 & _) Hlim3].
  generalize dependent (enforce (put_entry c k v t pin bytes) t
    (if pin then bump_pinned (bump_insertions m) else bump_insertions m)).
  intros [c3 m3]. cbn [fst snd]. intros Hok3 Hsub Hcfg3 Hlim3. rewrite He1 in Hsub.
  destruct (get_spec c3 k Hok3) as (Hok4 & Hr4 & Hcfg4 & He4 & _).
  split; [done|]. split; [by apply get_limits|]. split; [etrans; [|exact Hcfg4]; by etrans|]. split; [|split].
  - intros k' Hk'. destruct (entries (get c3 k).2 !! k') as [e|] eqn:E; [right|by left].
    rewrite He4 in E. symmetry.
    assert (entries c3 !! k' = Some e) as E3.
    { destruct (entries c3 !! k); [by rewrite lookup_insert_ne in E|done]. }
    eapply lookup_weaken in E3; [|exact Hsub]. by rewrite lookup_insert_ne in E3.
  - rewrite Hr4, He4. destruct (entries c3 !! k) as [e|] eqn:E; [by rewrite lookup_insert_eq|by rewrite E].
  - rewrite Hr4. destruct (entries c3 !! k) as [e|] eqn:E; [right|by left].
    eapply lookup_weaken in E; [|exact Hsub]. rewrite lookup_insert_eq in E. by injection E as <-.
Qed.
(** Insertion keeps the cache's bounds: afterwards the entry count, the resident
    bytes and every tenant's count are within their limits and are what the
    entries add up to; no other entry is changed except by being evicted, and the
    call returns the inserted value exactly when it is still resident. *)
Theorem insert_sized_bounds c k v t pin bytes m
    (Hok : books_ok c) (Hlim : limits_ok c) (Hfit : u64_ok (resident_bytes c + bytes)) :
  let '(r, c', _) := insert_sized c k v t pin bytes m in
  books_ok c' ∧ limits_ok c' ∧ same_config c c' ∧
  (∀ k', k' ≠ k → entries c' !! k' = None ∨ entries c' !! k' = entries c !! k') ∧
  r = value <$> entries c' !! k ∧ (r = None ∨ r = Some v).
Proof. by apply insert_sized_bounds_aux. Qed.

(** Eviction is least recently used, and spares pinned entries while an unpinned
    one can go: the victim is an eligible entry no eligible entry of its class is
    older than, a pinned victim means that no unpinned entry was eligible, and
    eviction fails only when the tenant (or the cache) has no entry. *)
Theorem eviction_lru c (t : option string) m :
  match evict_either c t m with
  | Some (c', m') => ∃ k e allow_pinned, lru_victim c t allow_pinned k e ∧
      c' = (remove c k).2 ∧ m' = bump_evictions m ∧
      (pinned e = true →
        ∀ k' e', entries c !! k' = Some e' → evictable t false e' = false)
  | None => ∀ k e, entries c !! k = Some e → evictable t true e = false
  end.
Proof.
  pose proof (evict_either_spec c t m) as Hs. destruct (evict_either c t m) as [[c' m']|]; [|done].
  destruct Hs as (k & e & ap & Hv & Hc & Hm & Hp). exists k, e, ap. repeat (split; [done|]).
  intros Hpin. destruct ap; [by apply Hp|]. destruct Hv as (_ & Hev & _).
  unfold evictable in Hev. rewrite Hpin, andb_false_r in Hev. done.
Qed.

Lemma retain_spec c (keep : K → V → bool) :
  books_ok c →
  evicted_from c (retain c keep) ∧
  ∀ k, entries (retain c keep) !! k =
    match entries c !! k with Some e => if keep k (value e) then Some e else None | None => None end.
Proof.
  intros Hok. unfold retain. set (removed := (filter _ _).*1).
  assert (∀ k, k ∈ removed ↔ ∃ e, entries c !! k = Some e ∧ keep k (value e) = false) as Hrem.
  { intros k. unfold removed. rewrite list_elem_of_fmap. split.
    - intros ([k' e] & -> & [Hk Hin%elem_of_btree_iter]%list_elem_of_filter). by exists e.
    - intros (e & Hk & Hf). exists (k, e). split; [done|]. apply list_elem_of_filter.
      split; [done|]. by apply elem_of_btree_iter. }
  assert (∀ l c0, books_ok c0 →
    evicted_from c0 (foldl (λ c key, (remove c key).2) c0 l) ∧
    ∀ k, entries (foldl (λ c key, (remove c key).2) c0 l) !! k
      = if bool_decide (k ∈ l) then None else entries c0 !! k) as Hfold.
  { induction l as [|x l IH]; intros c0 Hok0; cbn [foldl].
    - split; [by apply evicted_refl|]. intros k. by rewrite bool_decide_eq_false_2 by set_solver.
    - pose proof (remove_spec c0 x Hok0) as (Hok1 & He1 & _).
      destruct (IH (remove c0 x).2 Hok1) as [Hev Hl]. split.
      + eapply evicted_trans; [|exact Hev]. destruct (entries c0 !! x) as [e|] eqn:Ex.
        * by eapply evict_step.
        * unfold remove. rewrite Ex. by apply evicted_refl.
      + intros k. rewrite Hl, He1. destruct (decide (k = x)) as [->|Hne].
        * rewrite lookup_delete_eq, (bool_decide_eq_true_2 (x ∈ x :: l)) by set_solver. by case_bool_decide.
        * rewrite lookup_delete_ne by done.
          rewrite (bool_decide_ext (k ∈ l) (k ∈ x :: l)) by set_solver. done. }
  destruct (Hfold removed c Hok) as [Hev Hl]. split; [done|]. intros k. rewrite Hl.
  destruct (entries c !! k) as [e|] eqn:Ek; [|by case_bool_decide].
  destruct (keep k (value e)) eqn:Hkeep; [rewrite bool_decide_eq_false_2|rewrite bool_decide_eq_true_2]; try done.
  - rewrite Hrem. intros (e' & ? & ?). congruence.
  - apply Hrem. by exists e.
Qed.

(** * Sequences of operations *)

Inductive cache_op : Type :=
  | OpGet (k : K)
  | OpGetLatest (predicate : K → V → bool) (score : K → V → N)
  | OpInsert (k : K) (v : V) (t : string) (pin : bool) (bytes : N)
  | OpRemove (k : K)
  | OpRetain (keep : K → V → bool).

Definition run_op (s : Cch * GraphCacheMetrics) (o : cache_op) : Cch * GraphCacheMetrics :=
  let '(c, m) := s in
  match o with
  | OpGet k => ((get c k).2, m)
  | OpGetLatest p f => ((get_latest_by c p f).2, m)
  | OpInsert k v t pin bytes => let '(_, c', m') := insert_sized c k v t pin bytes m in (c', m')
  | OpRemove k => ((remove c k).2, m)
  | OpRetain keep => (retain c keep, m)
  end.

(** An insertion the byte counter can hold beside a full cache. *)
Definition op_fits (max_bytes : N) (o : cache_op) : Prop :=
  match o with OpInsert _ _ _ _ bytes => u64_ok (max_bytes + bytes) | _ => True end.

Lemma run_op_ok c m o :
  books_ok c → limits_ok c → op_fits (max_resident_bytes c) o →
  let c' := (run_op (c, m) o).1 in books_ok c' ∧ limits_ok c' ∧ same_config c c'.
Proof.
  intros Hok Hlim Hfit. destruct o as [k|p f|k v t pin bytes|k|keep]; cbn [run_op fst].
  - destruct (get_spec c k Hok) as (? & _ & ? & _). split; [done|]. split; [by apply get_limits|done].
  - unfold get_latest_by. destruct (max_by_key _ _ _) as [[k e]|]; [|done].
    destruct (get_spec c k Hok) as (? & _ & ? & _). split; [done|]. split; [by apply get_limits|done].
  - assert (u64_ok (resident_bytes c + bytes)) as Hfit'.
    { cbn in Hfit. destruct Hlim as (_ & Hb & _). unfold u64_ok in *. lia. }
    pose proof (insert_sized_bounds_aux c k v t pin bytes m Hok Hlim Hfit') as Hi.
    destruct (insert_sized c k v t pin bytes m) as [[r c'] m']. cbn. tauto.
  - destruct (entries c !! k) as [e|] eqn:Ek.
    + destruct (evict_step c k e Hok Ek) as [Hev _]. split; [apply Hev|].
      split; [by eapply evicted_limits|apply Hev].
    + unfold remove. rewrite Ek. done.
  - destruct (retain_spec c keep Hok) as [Hev _]. split; [apply Hev|].
    split; [by eapply evicted_limits|apply Hev].
Qed.

(** C15: a cache never outgrows its configuration: after any sequence of lookups,
    insertions, removals and retains on a new cache, the entry count, the resident
    bytes and every tenant's share are within the configured limits, and the
    counters equal the sums over what is resident. *)
Theorem cache_always_bounded (max max_bytes : N) (per_tenant : option N) (ops : list cache_op)
    (m : GraphCacheMetrics) (Hfit : Forall (op_fits max_bytes) ops) :
  let c := (foldl run_op (new_with_byte_limit max per_tenant max_bytes, m) ops).1 in
  len c ≤ max ∧ resident_bytes c ≤ max_bytes ∧
  (∀ limit t, per_tenant = Some limit → tenant_count c t ≤ limit) ∧
  resident_bytes c = wsum entry_bytes (entries c) ∧
  (∀ t, tenant_count c t = wsum (tenant_weight t) (entries c)).
Proof.
  cbv zeta. set (c0 := new_with_byte_limit max per_tenant max_bytes).
  assert (∀ s : Cch * GraphCacheMetrics, books_ok s.1 → limits_ok s.1 → same_config c0 s.1 →
    let c := (foldl run_op s ops).1 in books_ok c ∧ limits_ok c ∧ same_config c0 c) as Hrun.
  { induction Hfit as [|o ops Ho Hops IH]; intros [c m1] Hok Hlim Hcfg; [done|].
    cbn [foldl]. cbn [fst] in *. destruct (run_op_ok c m1 o Hok Hlim) as (Hok' & Hlim' & Hcfg').
    { destruct Hcfg as (_ & -> & _). done. }
    apply IH; [done|done|by etrans]. }
  destruct (Hrun (c0, m)) as ([Hb Ht] & (H1 & H2 & H3) & (E1 & E2 & E3)).
  - split; [cbn -[wsum]; by rewrite wsum_empty|]. intros t. cbn -[wsum lookup]. by rewrite wsum_empty, lookup_empty.
  - split; [cbn; unfold len; cbn; rewrite map_size_empty; lia|]. split; [cbn; lia|].
    intros limit t _. cbn. unfold tenant_count. cbn. rewrite lookup_empty. cbn. lia.
  - done.
  - rewrite E1 in H1. rewrite E2 in H2. rewrite E3 in H3. split; [done|]. split; [done|].
    split; [done|]. split; [done|]. intros t. apply Ht.
Qed.
End facts.

Lemma insert_sized_bounds_witness :
  let c : BoundedGraphCache := new_with_byte_limit (K := N) (V := N) 1 (Some 1) 10 in
  len (insert_sized c 5 50 "t" false 4 (MkMetrics 0 0 0 0)).1.2 ≤ 1.
Proof.
  cbv zeta.
  pose proof (insert_sized_bounds (new_with_byte_limit (K := N) (V := N) 1 (Some 1) 10) 5 50 "t" false 4
    (MkMetrics 0 0 0 0)) as Hb.
  destruct (insert_sized _ _ _ _ _ _ _) as [[r c'] m'].
  destruct Hb as (_ & (Hl & _) & (Hcfg & _) & _).
  - split; [reflexivity|]. intros t. split; [reflexivity|discriminate].
  - split; [discriminate|]. split; [discriminate|]. intros limit t [= <-]. discriminate.
  - unfold u64_ok, u64_max. cbn. lia.
  - cbn [fst snd]. rewrite Hcfg in Hl. exact Hl.
Defined.

Lemma cache_always_bounded_witness :
  len (foldl run_op (new_with_byte_limit (K := N) (V := N) 1 (Some 1) 10, MkMetrics 0 0 0 0)
    [OpInsert 1 10 "a" false 4; OpInsert 2 20 "b" true 5; OpGet 1]).1 ≤ 1.
Proof.
  apply (cache_always_bounded (K := N) (V := N) 1 10 (Some 1)
    [OpInsert 1 10 "a" false 4; OpInsert 2 20 "b" true 5; OpGet 1] (MkMetrics 0 0 0 0)).
  repeat constructor; cbn; unfold u64_ok, u64_max; lia.
Defined.

Lemma eviction_lru_witness :
  let c : BoundedGraphCache :=
    (insert_sized (new_with_byte_limit (K := N) (V := N) 1 (Some 1) 10) 5 50 "t" false 4 (MkMetrics 0 0 0 0)).1.2 in
  match evict_either c None (MkMetrics 0 0 0 0) with
  | Some (c', _) => ∃ k, is_Some (entries c !! k) ∧ c' = (remove c k).2 ∧ len c = 1
  | None => False
  end.
Proof.
  cbv zeta.
  pose proof (eviction_lru (insert_sized (new_with_byte_limit (K := N) (V := N) 1 (Some 1) 10) 5 50 "t"
    false 4 (MkMetrics 0 0 0 0)).1.2 None (MkMetrics 0 0 0 0)) as H.
  destruct (evict_either _ _ _) as [[c' m']|].
  - destruct H as (k & e & ap & (Hk & _) & -> & _). exists k. split; [by exists e|].
    split; [reflexivity|]. vm_compute. reflexivity.
  - specialize (H 5 _ eq_refl). discriminate.
Defined.
