(* ===== verification/Histogram.v ===== *)
(** [core/histogram.rs]: the fixed-bucket latency histogram.  The atomics are
    machine words; each [fetch_add] is one step, so concurrent recorders are some
    order of the same steps. *)

From S2P Require Import Prelude Text.

Local Open Scope N_scope.

Module histogram.

Definition DURATION_BUCKET_BOUNDS_US : list N :=
  [100; 250; 500; 1000; 2500; 5000; 10000; 25000; 50000; 100000; 250000; 500000;
   1000000; 2500000; 5000000; 10000000; 30000000].
Definition DURATION_BUCKET_COUNT : nat := S (length DURATION_BUCKET_BOUNDS_US).

Record AtomicDurationHistogram := MkHistogram { buckets : list N; sum_us : N }.
Definition histogram_default : AtomicDurationHistogram :=
  MkHistogram (replicate DURATION_BUCKET_COUNT 0) 0.

(** [slice::partition_point]: the length of the prefix that satisfies the
    predicate. *)
Fixpoint partition_point (p : N → bool) (l : list N) : nat :=
  match l with
  | [] => 0
  | b :: l' => if p b then S (partition_point p l') else 0
  end%nat.

Definition bucket_index (micros : N) : nat :=
  partition_point (λ bound, bound <? micros) DURATION_BUCKET_BOUNDS_US.

Definition record_micros (h : AtomicDurationHistogram) (micros : N) : AtomicDurationHistogram :=
  MkHistogram (alter (λ n, wrapping_add n 1) (bucket_index micros) (buckets h))
    (wrapping_add (sum_us h) micros).

(** [codec.rs: duration_micros_u64], a [Duration] in nanoseconds. *)
Definition duration_micros_u64 (nanos : N) : N := N.min (nanos / 1000) u64_max.
Definition record (h : AtomicDurationHistogram) (nanos : N) : AtomicDurationHistogram :=
  record_micros h (duration_micros_u64 nanos).

Record DurationHistogramSnapshot := MkSnapshot { bucket_counts : list N; snap_sum_us : N }.
Definition snapshot (h : AtomicDurationHistogram) : DurationHistogramSnapshot :=
  MkSnapshot (buckets h) (sum_us h).

Definition count (s : DurationHistogramSnapshot) : N := foldl wrapping_add 0 (bucket_counts s).

Fixpoint cumulative_go (index : nat) (running : N) (counts : list N) : list (option N * N) :=
  match counts with
  | [] => []
  | c :: counts' =>
      let running := wrapping_add running c in
      (DURATION_BUCKET_BOUNDS_US !! index, running) :: cumulative_go (S index) running counts'
  end.
Definition cumulative (s : DurationHistogramSnapshot) : list (option N * N) :=
  cumulative_go 0 0 (bucket_counts s).

End histogram.
Import histogram.

(** * Buckets *)

Lemma partition_point_le p l : (partition_point p l ≤ length l)%nat.
Proof. induction l as [|b l IH]; cbn; [lia|]. case_match; lia. Qed.

Lemma bucket_index_lt micros : (bucket_index micros < DURATION_BUCKET_COUNT)%nat.
Proof. unfold bucket_index, DURATION_BUCKET_COUNT. pose proof (partition_point_le (λ b, b <? micros) DURATION_BUCKET_BOUNDS_US). lia. Qed.

(** On an ascending list the prefix of smaller bounds is all the smaller bounds. *)
Lemma partition_point_spec micros l i b :
  StronglySorted N.le l → l !! i = Some b →
  (partition_point (λ x, (x <? micros)%N) l ≤ i)%nat ↔ micros ≤ b.
Proof.
  intros Hs. revert i; induction Hs as [|x l Hs IH Hx]; intros i Hi; [done|]. cbn [partition_point].
  destruct (x <? micros) eqn:E; [apply N.ltb_lt in E|apply N.ltb_ge in E].
  - destruct i as [|i]; cbn in Hi; [injection Hi as <-; split; lia|]. rewrite <- (IH i Hi). lia.
  - split; [|lia]. intros _. destruct i as [|i]; cbn in Hi; [by injection Hi as <-|].
    rewrite Forall_forall in Hx. pose proof (Hx b (list_elem_of_lookup_2 _ _ _ Hi)). lia.
Qed.

Lemma bounds_sorted : StronglySorted N.le DURATION_BUCKET_BOUNDS_US.
Proof. repeat (constructor; [|repeat constructor; lia]). constructor. Qed.

Lemma bucket_index_spec micros i b :
  DURATION_BUCKET_BOUNDS_US !! i = Some b → (bucket_index micros ≤ i)%nat ↔ micros ≤ b.
Proof. apply partition_point_spec, bounds_sorted. Qed.

(** Prometheus [le] semantics: a bucket holds exactly the observations above the
    previous bound and up to and including its own, and every observation has one
    of the eighteen buckets. *)
Theorem bucket_le_semantics (micros : N) (i : nat) :
  (bucket_index micros < DURATION_BUCKET_COUNT)%nat ∧
  (bucket_index micros = i ↔
    (i ≤ length DURATION_BUCKET_BOUNDS_US)%nat ∧
    (∀ b, DURATION_BUCKET_BOUNDS_US !! i = Some b → micros ≤ b) ∧
    (∀ j b, (j < i)%nat → DURATION_BUCKET_BOUNDS_US !! j = Some b → b < micros)).
Proof.
  split; [apply bucket_index_lt|]. split.
  - intros <-. split; [apply partition_point_le|]. split.
    + intros b Hb. by apply (bucket_index_spec _ _ b Hb).
    + intros j b Hj Hb. apply N.lt_nge. rewrite <- (bucket_index_spec _ _ b Hb). lia.
  - intros (Hi & Hle & Hlt). apply Nat.le_antisymm.
    + destruct (DURATION_BUCKET_BOUNDS_US !! i) as [b|] eqn:E.
      * apply (bucket_index_spec _ _ b E). by apply Hle.
      * apply lookup_ge_None in E. pose proof (bucket_index_lt micros). unfold DURATION_BUCKET_COUNT in *. lia.
    + destruct i as [|j]; [lia|]. apply Nat.lt_nge. intros Hj.
      destruct (lookup_lt_is_Some_2 DURATION_BUCKET_BOUNDS_US j) as [b Hb]; [lia|].
      specialize (Hlt j b ltac:(lia) Hb). assert (micros ≤ b); [|lia].
      apply (bucket_index_spec _ _ b Hb). lia.
Qed.

(** * Recording *)

(** The number of observations with a bucket index of at most [i]. *)
Definition observed_upto (i : nat) (ms : list N) : N :=
  N.of_nat (length (filter (λ m, bucket_index m ≤ i)%nat ms)).
Definition observed_at (i : nat) (ms : list N) : N :=
  N.of_nat (length (filter (λ m, bucket_index m = i) ms)).

Lemma observed_upto_succ i ms : observed_upto (S i) ms = observed_upto i ms + observed_at (S i) ms.
Proof.
  unfold observed_upto, observed_at. induction ms as [|m ms IH]; [done|].
  rewrite !filter_cons. repeat case_decide; cbn [length]; lia.
Qed.
Lemma observed_upto_0 ms : observed_upto 0 ms = observed_at 0 ms.
Proof.
  unfold observed_upto, observed_at. induction ms as [|m ms IH]; [done|].
  rewrite !filter_cons. repeat case_decide; cbn [length]; lia.
Qed.
Lemma observed_upto_le i ms : observed_upto i ms ≤ N.of_nat (length ms).
Proof. unfold observed_upto. pose proof (length_filter (λ m, bucket_index m ≤ i)%nat ms). lia. Qed.

Lemma buckets_after ms :
  u64_ok (N.of_nat (length ms)) →
  let h := foldl record_micros histogram_default ms in
  length (buckets h) = DURATION_BUCKET_COUNT ∧
  ∀ i, (i < DURATION_BUCKET_COUNT)%nat → buckets h !! i = Some (observed_at i ms).
Proof.
  cbv zeta. induction ms as [|m ms IH] using rev_ind; intros Hu.
  { cbn [foldl histogram_default buckets]. rewrite length_replicate. split; [done|].
    intros i Hi. by rewrite lookup_replicate_2. }
  rewrite length_app in Hu. cbn [length] in Hu.
  destruct IH as [Hlen Hbk]; [unfold u64_ok in *; lia|].
  rewrite foldl_app. cbn [foldl record_micros buckets]. rewrite length_alter. split; [done|].
  intros i Hi. unfold observed_at. rewrite filter_app, length_app.
  specialize (Hbk i Hi). unfold observed_at in Hbk.
  assert (length (filter (λ m, bucket_index m = i) ms) ≤ length ms)%nat by apply length_filter.
  destruct (decide (bucket_index m = i)) as [<-|Hne].
  - rewrite list_lookup_alter_eq, Hbk. cbn [fmap option_fmap option_map].
    rewrite filter_cons_True, filter_nil by done. cbn [length].
    rewrite wrapping_add_small by (unfold u64_ok in *; lia). f_equal. lia.
  - rewrite list_lookup_alter_ne, Hbk by done.
    rewrite filter_cons_False, filter_nil by done. cbn [length]. f_equal. lia.
Qed.

(** The running total before bucket [index]. *)
Definition running_before (index : nat) (ms : list N) : N :=
  match index with O => 0 | S i => observed_upto i ms end.

Lemma running_step ms index :
  u64_ok (N.of_nat (length ms)) →
  wrapping_add (running_before index ms) (observed_at index ms) = observed_upto index ms.
Proof.
  intros Hu. rewrite wrapping_add_small.
  - destruct index as [|i]; cbn [running_before]; [by rewrite observed_upto_0|by rewrite observed_upto_succ].
  - pose proof (observed_upto_le index ms). unfold u64_ok in *.
    destruct index as [|i]; cbn [running_before];
      [rewrite observed_upto_0 in *; lia|rewrite observed_upto_succ in *; lia].
Qed.

Lemma cumulative_go_spec ms n index :
  u64_ok (N.of_nat (length ms)) →
  cumulative_go index (running_before index ms) ((λ i, observed_at i ms) <$> seq index n)
  = (λ i, (DURATION_BUCKET_BOUNDS_US !! i, observed_upto i ms)) <$> seq index n.
Proof.
  intros Hu. revert index; induction n as [|n IH]; intros index; [done|].
  cbn [seq fmap list_fmap cumulative_go]. cbv zeta. rewrite running_step by done.
  f_equal. apply (IH (S index)).
Qed.

Lemma count_go_spec ms n index :
  u64_ok (N.of_nat (length ms)) →
  foldl wrapping_add (running_before index ms) ((λ i, observed_at i ms) <$> seq index n)
  = running_before (index + n) ms.
Proof.
  intros Hu. revert index; induction n as [|n IH]; intros index; [by rewrite Nat.add_0_r|].
  cbn [seq fmap list_fmap foldl]. rewrite running_step by done.
  etrans; [apply (IH (S index))|f_equal; lia].
Qed.

Lemma buckets_list ms :
  u64_ok (N.of_nat (length ms)) →
  buckets (foldl record_micros histogram_default ms)
  = (λ i, observed_at i ms) <$> seq 0 DURATION_BUCKET_COUNT.
Proof.
  intros Hu. destruct (buckets_after ms Hu) as [Hlen Hbk]. apply list_eq. intros i.
  rewrite list_lookup_fmap. destruct (decide (i < DURATION_BUCKET_COUNT)%nat) as [Hi|Hi].
  - rewrite Hbk, lookup_seq_lt by done. done.
  - rewrite lookup_ge_None_2 by lia. by rewrite lookup_seq_ge by lia.
Qed.

Lemma sum_after ms h :
  u64_ok (sum_us h + nsum ms) → sum_us (foldl record_micros h ms) = sum_us h + nsum ms.
Proof.
  revert h; induction ms as [|m ms IH]; intros h Hu; cbn [foldl nsum] in *; [lia|].
  assert (sum_us (record_micros h m) = sum_us h + m) as Hm.
  { cbn. apply wrapping_add_small. unfold u64_ok in *. lia. }
  rewrite IH; rewrite Hm; [lia|]. unfold u64_ok in *. lia.
Qed.

(** The exported histogram is the distribution of what was recorded: whatever the
    order of the recordings, the cumulative count at each bound is the number of
    observations not above it, the [+Inf] count and [count] are the number of
    observations, and the sum is their sum, as long as neither overflows a
    word. *)
Theorem histogram_exact (ms ms' : list N)
    (Hn : u64_ok (N.of_nat (length ms))) (Hs : u64_ok (nsum ms)) (Hperm : ms' ≡ₚ ms) :
  let s := snapshot (foldl record_micros histogram_default ms') in
  cumulative s =
    ((λ b, (Some b, N.of_nat (length (filter (λ m, (m ≤ b)%N) ms)))) <$> DURATION_BUCKET_BOUNDS_US)
      ++ [(None, N.of_nat (length ms))] ∧
  count s = N.of_nat (length ms) ∧ snap_sum_us s = nsum ms.
Proof.
  cbv zeta. unfold snapshot, cumulative, count. cbn [bucket_counts snap_sum_us].
  assert (length ms' = length ms) as Hlen by (by rewrite Hperm).
  rewrite buckets_list by (by rewrite Hlen).
  assert (observed_upto 17 ms' = N.of_nat (length ms)) as Hall.
  { unfold observed_upto. rewrite <- Hlen. f_equal. clear. induction ms' as [|m l IH]; [done|].
    rewrite filter_cons_True; [cbn [length]; by rewrite IH|].
    pose proof (bucket_index_lt m). unfold DURATION_BUCKET_COUNT in *. cbn in *. lia. }
  assert (∀ i b, DURATION_BUCKET_BOUNDS_US !! i = Some b →
    observed_upto i ms' = N.of_nat (length (filter (λ m, (m ≤ b)%N) ms))) as Hb.
  { intros i b Hi. unfold observed_upto. rewrite <- Hperm. f_equal. f_equal.
    apply list_filter_iff. intros m. by apply bucket_index_spec. }
  split; [|split].
  - change 0 with (running_before 0 ms') at 1. rewrite cumulative_go_spec by (by rewrite Hlen).
    unfold DURATION_BUCKET_COUNT. rewrite seq_S, fmap_app. f_equal.
    + apply list_eq. intros i. rewrite !list_lookup_fmap.
      destruct (DURATION_BUCKET_BOUNDS_US !! i) as [b|] eqn:E.
      * pose proof (lookup_lt_Some _ _ _ E). rewrite lookup_seq_lt by done. cbn.
        by rewrite (Hb i b E), E.
      * apply lookup_ge_None in E. by rewrite lookup_seq_ge by done.
    + cbn. by rewrite Hall.
  - change 0 with (running_before 0 ms') at 1. rewrite count_go_spec by (by rewrite Hlen). exact Hall.
  - rewrite sum_after; cbn [sum_us histogram_default]; by rewrite (nsum_perm _ _ Hperm).
Qed.

Lemma histogram_exact_witness :
  count (snapshot (foldl record_micros histogram_default [100; 7; 30000001])) = 3.
Proof.
  destruct (histogram_exact [7; 100; 30000001] [100; 7; 30000001]) as (_ & H & _).
  - unfold u64_ok, u64_max. cbn. lia.
  - unfold u64_ok, u64_max. cbn. lia.
  - apply perm_swap.
  - exact H.
Defined.
