(* ===== verification/Kv.v ===== *)
(** The storage interface.  SlateDB is a dependency, so the kernel's code is
    parameterised by a class of its operations; [SlateDbLaws] states the
    documented behaviour the kernel relies on, and [Mem] is a reference store
    that satisfies it.  The module also holds the state of a shard as the write
    path sees it and the state-and-error monad its operations run in. *)

From S2P Require Import Prelude Text Errors Model.

Local Open Scope N_scope.

(** * SlateDB *)

(** A scan yields its entries one at a time, and any step may fail.
    [db_close_reason] is the handle's status: open, or closed and whether it was
    fenced by another writer. *)
Abbreviation Items := (list (result SlateErrorKind (string * string))).

Class SlateDb : Type := {
  Db : Type;
  Txn : Type;
  Snap : Type;
  db_get : Db → string → result SlateErrorKind (option string);
  db_scan_prefix : Db → string → option string → Items;
  db_seq : Db → N;
  db_close_reason : Db → option bool;
  db_refresh_manifest : Db → Db * result SlateErrorKind unit;
  db_begin : Db → Db * result SlateErrorKind Txn;
  db_snapshot : Db → result SlateErrorKind Snap;
  snap_seq : Snap → N;
  snap_get : Snap → string → result SlateErrorKind (option string);
  snap_scan_prefix : Snap → string → option string → option string → Items;
  txn_seqnum : Txn → N;
  txn_mark_read : Txn → string → result SlateErrorKind Txn;
  txn_get : Txn → string → result SlateErrorKind (option string);
  txn_scan_prefix : Txn → string → Items;
  txn_put : Txn → string → string → result SlateErrorKind Txn;
  txn_delete : Txn → string → result SlateErrorKind Txn;
  txn_commit : Db → Txn → bool → N → Db * result SlateErrorKind (option N);
}.

(** What a scan of a key-value state returns: the entries under the prefix whose
    remaining key lies in the half-open range, in key order. *)
Definition in_subrange (lo hi : option string) (suffix : string) : bool :=
  match lo with Some l => bool_decide (key_le l suffix) | None => true end &&
  match hi with Some h => negb (bool_decide (key_le h suffix)) | None => true end.

Definition in_scan (prefix : string) (lo hi : option string) (key : string) : bool :=
  match strip_prefix prefix key with
  | Some suffix => in_subrange lo hi suffix
  | None => false
  end.

Definition view_scan (v : gmap string string) (prefix : string) (lo hi : option string) :
  list (string * string) :=
  filter (λ kv, in_scan prefix lo hi kv.1 = true) (btree_iter v).

(** A run of items is faithful to a list of entries when it is the list, or a
    failure after some of it. *)
Definition items_of (items : Items) (entries : list (string * string)) : Prop :=
  items = Ok <$> entries ∨ ∃ n e, items = (Ok <$> take n entries) ++ [Err e].

(** The laws: reads answer from the state they read, a transaction sees its own
    writes over the state it began in, and a commit that holds a write installs
    the transaction's state at the requested sequence.  A failed commit left the
    state alone or, unless it reports a conflict, may have been applied.
    [txn_dirty] holds of a transaction with a buffered write. *)
Class SlateDbLaws {S : SlateDb} : Type := {
  db_view : Db → gmap string string;
  txn_view : Txn → gmap string string;
  snap_view : Snap → gmap string string;
  txn_dirty : Txn → Prop;
  get_law d k v : db_get d k = Ok v → v = db_view d !! k;
  scan_law d p lo : items_of (db_scan_prefix d p lo) (view_scan (db_view d) p lo None);
  snapshot_law d n : db_snapshot d = Ok n → snap_seq n ≤ db_seq d;
  snap_get_law n k v : snap_get n k = Ok v → v = snap_view n !! k;
  snap_scan_law n p lo hi :
    items_of (snap_scan_prefix n p lo hi) (view_scan (snap_view n) p lo hi);
  begin_law d d' t : db_begin d = (d', Ok t) →
    txn_view t = db_view d' ∧ txn_seqnum t = db_seq d';
  mark_read_law t k t' : txn_mark_read t k = Ok t' →
    txn_view t' = txn_view t ∧ txn_seqnum t' = txn_seqnum t;
  txn_get_law t k v : txn_get t k = Ok v → v = txn_view t !! k;
  txn_scan_law t p : items_of (txn_scan_prefix t p) (view_scan (txn_view t) p None None);
  put_law t k v t' : txn_put t k v = Ok t' →
    txn_view t' = <[k := v]> (txn_view t) ∧ txn_seqnum t' = txn_seqnum t ∧ txn_dirty t';
  delete_law t k t' : txn_delete t k = Ok t' →
    txn_view t' = delete k (txn_view t) ∧ txn_seqnum t' = txn_seqnum t ∧ txn_dirty t';
  commit_ok_law d t b q d' h : txn_commit d t b q = (d', Ok h) → txn_dirty t →
    db_view d' = txn_view t ∧ db_seq d' = q;
  commit_err_law d t b q d' e : txn_commit d t b q = (d', Err e) →
    db_view d' = db_view d ∨
    db_view d' = txn_view t ∧ is_retryable_write_conflict (Slate e) = false;
}.
Arguments SlateDbLaws S : clear implicits.

(** ** The reference store *)

Record MemDb := MkMemDb { mem_view : gmap string string; mem_seq : N }.

Definition Mem : SlateDb := {|
  Db := MemDb;
  Txn := MemDb;
  Snap := MemDb;
  db_get d k := Ok (mem_view d !! k);
  db_scan_prefix d p lo := Ok <$> view_scan (mem_view d) p lo None;
  db_seq := mem_seq;
  db_close_reason _ := None;
  db_refresh_manifest d := (d, Ok tt);
  db_begin d := (d, Ok d);
  db_snapshot d := Ok d;
  snap_seq := mem_seq;
  snap_get d k := Ok (mem_view d !! k);
  snap_scan_prefix d p lo hi := Ok <$> view_scan (mem_view d) p lo hi;
  txn_seqnum := mem_seq;
  txn_mark_read t k := Ok t;
  txn_get t k := Ok (mem_view t !! k);
  txn_scan_prefix t p := Ok <$> view_scan (mem_view t) p None None;
  txn_put t k v := Ok (MkMemDb (<[k := v]> (mem_view t)) (mem_seq t));
  txn_delete t k := Ok (MkMemDb (delete k (mem_view t)) (mem_seq t));
  txn_commit d t _ q := (MkMemDb (mem_view t) q, Ok (Some q));
|}.

#[export] Instance Mem_laws : SlateDbLaws Mem.
Proof.
  refine {| db_view := (mem_view : @Db Mem → _); txn_view := (mem_view : @Txn Mem → _);
    snap_view := (mem_view : @Snap Mem → _); txn_dirty := λ _, True |};
    cbn; intros; simplify_eq/=; auto; try (by left); try apply N.le_refl; naive_solver.
Defined.

(** * The shard *)

Inductive GraphWriteAuthority : Type := ReadOnly | Promotable | Writer.
Inductive GraphIndexPolicy : Type := Full | OutboundOnly.

Definition write_reverse_index (p : GraphIndexPolicy) : bool :=
  match p with Full => true | OutboundOnly => false end.

(** The pacing of writer re-opens, in nanoseconds. *)
Record WriterReopenGate := MkGate { not_before : option N; backoff : N }.
Definition FENCE_BACKOFF_FLOOR : N := 1000000000.
Definition MAX_FENCE_BACKOFF : N := 60000000000.
Definition gate_default : WriterReopenGate := MkGate None FENCE_BACKOFF_FLOOR.
Definition note_fence (now heartbeat_interval : N) (g : WriterReopenGate) : WriterReopenGate :=
  MkGate (Some (now + heartbeat_interval)) FENCE_BACKOFF_FLOOR.
Definition note_failure (now : N) (g : WriterReopenGate) : WriterReopenGate :=
  let b := N.min (backoff g * 2) MAX_FENCE_BACKOFF in MkGate (Some (now + b)) b.
Definition note_success (g : WriterReopenGate) : WriterReopenGate :=
  MkGate None FENCE_BACKOFF_FLOOR.
Definition remaining (now : N) (g : WriterReopenGate) : option N :=
  nb ← not_before g; if now <? nb then Some (nb - now) else None.

(** The counters the modelled paths move; durations are not modelled. *)
Record OpMetrics := MkOpMetrics {
  write_attempts : N; write_commits : N; write_retries : N; backpressure_waits : N;
  gc_jobs_started : N; artifact_publish_batches : N; artifact_records_published : N;
  gc_jobs_completed : N; gc_keys_deleted : N }.

(** A counting semaphore: permits left, and whether it was closed. *)
Record Gate := MkOpGate { permits : N; closed : bool }.

Section shard.
Context {S : SlateDb}.

Record Shard := MkShard {
  sh_db : Db;
  sh_writer : bool;
  sh_authority : GraphWriteAuthority;
  sh_policy : GraphIndexPolicy;
  sh_await_durable : bool;
  sh_floor : gset string;
  sh_reopen_gate : WriterReopenGate;
  sh_heartbeat_interval : N;
  sh_now : N;
  sh_reader_refresh_generation : N;
  sh_write_gate : Gate;
  sh_gc_gate : Gate;
  sh_metrics : OpMetrics }.

Definition set_db (d : Db) (s : Shard) : Shard :=
  MkShard d (sh_writer s) (sh_authority s) (sh_policy s) (sh_await_durable s) (sh_floor s)
    (sh_reopen_gate s) (sh_heartbeat_interval s) (sh_now s) (sh_reader_refresh_generation s)
    (sh_write_gate s) (sh_gc_gate s) (sh_metrics s).
Definition set_writer (w : bool) (s : Shard) : Shard :=
  MkShard (sh_db s) w (sh_authority s) (sh_policy s) (sh_await_durable s) (sh_floor s)
    (sh_reopen_gate s) (sh_heartbeat_interval s) (sh_now s) (sh_reader_refresh_generation s)
    (sh_write_gate s) (sh_gc_gate s) (sh_metrics s).
Definition set_floor (f : gset string) (s : Shard) : Shard :=
  MkShard (sh_db s) (sh_writer s) (sh_authority s) (sh_policy s) (sh_await_durable s) f
    (sh_reopen_gate s) (sh_heartbeat_interval s) (sh_now s) (sh_reader_refresh_generation s)
    (sh_write_gate s) (sh_gc_gate s) (sh_metrics s).
Definition set_gate (g : WriterReopenGate) (s : Shard) : Shard :=
  MkShard (sh_db s) (sh_writer s) (sh_authority s) (sh_policy s) (sh_await_durable s) (sh_floor s)
    g (sh_heartbeat_interval s) (sh_now s) (sh_reader_refresh_generation s)
    (sh_write_gate s) (sh_gc_gate s) (sh_metrics s).
Definition set_generation (n : N) (s : Shard) : Shard :=
  MkShard (sh_db s) (sh_writer s) (sh_authority s) (sh_policy s) (sh_await_durable s) (sh_floor s)
    (sh_reopen_gate s) (sh_heartbeat_interval s) (sh_now s) n (sh_write_gate s) (sh_gc_gate s) (sh_metrics s).
Definition set_metrics (m : OpMetrics) (s : Shard) : Shard :=
  MkShard (sh_db s) (sh_writer s) (sh_authority s) (sh_policy s) (sh_await_durable s) (sh_floor s)
    (sh_reopen_gate s) (sh_heartbeat_interval s) (sh_now s) (sh_reader_refresh_generation s)
    (sh_write_gate s) (sh_gc_gate s) m.

(** A shard with an open transaction. *)
Record Tx := MkTx { tx_shard : Shard; tx_txn : Txn }.
End shard.
Arguments Shard S : clear implicits.
Arguments Tx S : clear implicits.

(** * The monad

    A computation over a mutable state: the state survives an error, as the
    shard does. *)

Definition SM (W A : Type) : Type := W → W * Result A.

Global Instance sm_mret W : MRet (SM W) := λ _ a s, (s, Ok a).
Global Instance sm_mbind W : MBind (SM W) := λ _ _ f m s,
  match m s with (s', Ok a) => f a s' | (s', Err e) => (s', Err e) end.
Global Instance sm_fmap W : FMap (SM W) := λ _ _ f m s,
  match m s with (s', Ok a) => (s', Ok (f a)) | (s', Err e) => (s', Err e) end.

Definition fails {W A} (e : GraphError) : SM W A := λ s, (s, Err e).
Definition lift {W A} (r : Result A) : SM W A := λ s, (s, r).
Definition gets {W A} (f : W → A) : SM W A := λ s, (s, Ok (f s)).
Definition modify {W} (f : W → W) : SM W unit := λ s, (f s, Ok tt).

(** [?] on a SlateDB result. *)
Definition slate {A} (r : result SlateErrorKind A) : Result A := map_err Slate r.

(** [for x in l { f(x)?; }]. *)
Fixpoint for_each {W A} (f : A → SM W unit) (l : list A) : SM W unit :=
  match l with
  | [] => mret tt
  | a :: l' => f a ;; for_each f l'
  end.

(** A scan loop: [while let Some(kv) = iter.next().await?], with [break]. *)
Inductive Flow (B : Type) : Type := Continue (b : B) | Break (b : B).
Arguments Continue {B} b.
Arguments Break {B} b.

Fixpoint scan_loop {B} (f : B → string * string → Result (Flow B)) (acc : B) (items : Items) :
  Result B :=
  match items with
  | [] => Ok acc
  | Err e :: _ => Err (Slate e)
  | Ok kv :: items' =>
      match f acc kv with
      | Ok (Continue acc') => scan_loop f acc' items'
      | Ok (Break acc') => Ok acc'
      | Err e => Err e
      end
  end.
