(* ===== verification/ShardTxn.v ===== *)
(** [codec.rs] (transaction reads) and [shard/write.rs]: the transactions that
    insert and delete an edge, from opening the transaction to its commit, and
    the retry loop around them.  Reads and writes go through the [SlateDb]
    interface. *)

From S2P Require Import Prelude Text Errors Model Namespace Keys Codec CodecRecords Kv.

Local Open Scope N_scope.

Section txn.
Context {S : SlateDb}.

(** * Access to the transaction and the shard *)

(** A transaction operation that may fail in the store. *)
Definition t_update (f : Txn → result SlateErrorKind Txn) : SM (Tx S) unit := λ x,
  match f (tx_txn x) with
  | Ok t => (MkTx (tx_shard x) t, Ok tt)
  | Err e => (x, Err (Slate e))
  end.
Definition t_read {A} (f : Txn → result SlateErrorKind A) : SM (Tx S) A := λ x,
  (x, slate (f (tx_txn x))).
Definition t_put (k v : string) : SM (Tx S) unit := t_update (λ t, txn_put t k v).
Definition t_delete (k : string) : SM (Tx S) unit := t_update (λ t, txn_delete t k).
Definition t_seqnum : SM (Tx S) N := gets (λ x, txn_seqnum (tx_txn x)).
Definition t_scan {B} (prefix : string) (f : B → string * string → Result (Flow B)) (acc : B) :
  SM (Tx S) B := λ x, (x, scan_loop f acc (txn_scan_prefix (tx_txn x) prefix)).

Definition read_txn_remote (key : string) : SM (Tx S) (option string) :=
  t_update (λ t, txn_mark_read t key) ;; t_read (λ t, txn_get t key).

(** Reads of the shard's own store, outside the transaction. *)
Definition read_remote (key : string) : SM (Shard S) (option string) :=
  λ s, (s, slate (db_get (sh_db s) key)).
Definition scan_remote_prefix {B} (prefix : string) (f : B → string * string → Result (Flow B))
  (acc : B) : SM (Shard S) B := λ s, (s, scan_loop f acc (db_scan_prefix (sh_db s) prefix None)).

(** Run a shard operation inside a transaction. *)
Definition on_shard {A} (m : SM (Shard S) A) : SM (Tx S) A := λ x,
  let '(s, r) := m (tx_shard x) in (MkTx s (tx_txn x), r).

(** [self.db.writer()?.begin(SerializableSnapshot).await?], then the body; the
    transaction is dropped with it. *)
Definition writer : SM (Shard S) unit := λ s,
  if sh_writer s then (s, Ok tt) else (s, Err ReadOnlyShardStorage).
Definition in_txn {A} (body : SM (Tx S) A) : SM (Shard S) A := λ s,
  match db_begin (sh_db s) with
  | (d, Ok t) => let '(x, r) := body (MkTx (set_db d s) t) in (tx_shard x, r)
  | (d, Err e) => (set_db d s, Err (Slate e))
  end.
Definition with_txn {A} (body : SM (Tx S) A) : SM (Shard S) A := writer ;; in_txn body.

Definition next_epoch_txn (cell_id : string) : SM (Tx S) StorageSequence :=
  seq ← t_seqnum;
  lift (ok_or (checked_add seq 1)
    (CorruptValue ("cell/" +:+ cell_id +:+ "/storage_sequence") "SlateDB storage sequence overflow")).

Definition commit_txn_strict_with_sequence (await_durable : bool) : SM (Tx S) (option N) := λ x,
  match checked_add (txn_seqnum (tx_txn x)) 1 with
  | None => (x, Err (CorruptValue "storage_sequence" "SlateDB storage sequence overflow"))
  | Some sequence =>
      let '(d, r) := txn_commit (sh_db (tx_shard x)) (tx_txn x) await_durable sequence in
      (MkTx (set_db d (tx_shard x)) (tx_txn x), slate r)
  end.
Definition commit_txn_strict (await_durable : bool) : SM (Tx S) unit :=
  commit_txn_strict_with_sequence await_durable ;; mret tt.
Definition commit_txn_traced : SM (Tx S) unit :=
  await_durable ← gets (λ x, sh_await_durable (tx_shard x)); commit_txn_strict await_durable.

(** * Authority *)

Definition writes_reverse_index (s : Shard S) : bool := write_reverse_index (sh_policy s).

Definition ensure_write_authority (cell_id operation : string) : SM (Shard S) unit :=
  a ← gets sh_authority;
  match a with
  | ReadOnly => fails (WriteRequiresWriter operation cell_id)
  | Promotable | Writer => writer
  end.

Definition validate_write_fence_txn (cell_id operation : string) : SM (Tx S) unit :=
  (if bool_decide (operation = "drop_cell") then mret tt
   else
     dropped ← read_txn_remote (keys.cell_drop_marker cell_id);
     pending ← (match dropped with
                | Some _ => mret (Some "")
                | None => read_txn_remote (keys.cell_drop_pending_marker cell_id)
                end);
     match pending with
     | Some _ => fails (CellDropped operation cell_id)
     | None => mret tt
     end) ;;
  on_shard (ensure_write_authority cell_id operation).

(** A handle SlateDB has closed is dropped; a fence also arms the re-open gate. *)
Definition clear_closed_writer (s : Shard S) : Shard S :=
  match sh_writer s, db_close_reason (sh_db s) with
  | true, Some fenced =>
      let s := set_writer false s in
      let s := set_generation (wrapping_add (sh_reader_refresh_generation s) 1) s in
      if fenced
      then set_gate (note_fence (sh_now s) (sh_heartbeat_interval s) (sh_reopen_gate s)) s
      else s
  | _, _ => s
  end.

(** A fenced refresh drops the handle; any other failure leaves it in place. *)
Definition refresh_manifest : SM (Shard S) unit := λ s,
  match db_refresh_manifest (sh_db s) with
  | (d, Ok _) => (set_gate (note_success (sh_reopen_gate s)) (set_db d s), Ok tt)
  | (d, Err (SlateClosed true)) =>
      (clear_closed_writer (set_db d s), Err (Slate (SlateClosed true)))
  | (d, Err e) => (set_db d s, Err (Slate e))
  end.
Definition refresh_writer_fence : SM (Shard S) unit := writer ;; refresh_manifest.

Definition acquire_local_write_guard (cell_id operation : string) : SM (Shard S) unit :=
  lift (validate_component "cell_id" cell_id) ;;
  lift (validate_component "operation" operation) ;;
  refresh_writer_fence.

Definition bump_attempts (m : OpMetrics) : OpMetrics :=
  MkOpMetrics (wrapping_add (write_attempts m) 1) (write_commits m) (write_retries m)
    (backpressure_waits m) (gc_jobs_started m) (artifact_publish_batches m)
    (artifact_records_published m) (gc_jobs_completed m) (gc_keys_deleted m).
Definition bump_commits (m : OpMetrics) : OpMetrics :=
  MkOpMetrics (write_attempts m) (wrapping_add (write_commits m) 1) (write_retries m)
    (backpressure_waits m) (gc_jobs_started m) (artifact_publish_batches m)
    (artifact_records_published m) (gc_jobs_completed m) (gc_keys_deleted m).
Definition bump_retries (m : OpMetrics) : OpMetrics :=
  MkOpMetrics (write_attempts m) (write_commits m) (wrapping_add (write_retries m) 1)
    (backpressure_waits m) (gc_jobs_started m) (artifact_publish_batches m)
    (artifact_records_published m) (gc_jobs_completed m) (gc_keys_deleted m).
Definition bump_waits (m : OpMetrics) : OpMetrics :=
  MkOpMetrics (write_attempts m) (write_commits m) (write_retries m)
    (wrapping_add (backpressure_waits m) 1) (gc_jobs_started m) (artifact_publish_batches m)
    (artifact_records_published m) (gc_jobs_completed m) (gc_keys_deleted m).
Definition bump_gc_jobs (m : OpMetrics) : OpMetrics :=
  MkOpMetrics (write_attempts m) (write_commits m) (write_retries m) (backpressure_waits m)
    (wrapping_add (gc_jobs_started m) 1) (artifact_publish_batches m) (artifact_records_published m)
    (gc_jobs_completed m) (gc_keys_deleted m).
Definition bump_published (records : N) (m : OpMetrics) : OpMetrics :=
  MkOpMetrics (write_attempts m) (write_commits m) (write_retries m) (backpressure_waits m)
    (gc_jobs_started m) (wrapping_add (artifact_publish_batches m) 1)
    (wrapping_add (artifact_records_published m) records) (gc_jobs_completed m) (gc_keys_deleted m).
Definition bump_gc_completed (deleted_keys : N) (m : OpMetrics) : OpMetrics :=
  MkOpMetrics (write_attempts m) (write_commits m) (write_retries m) (backpressure_waits m)
    (gc_jobs_started m) (artifact_publish_batches m) (artifact_records_published m)
    (wrapping_add (gc_jobs_completed m) 1) (wrapping_add (gc_keys_deleted m) deleted_keys).
Definition on_metrics (f : OpMetrics → OpMetrics) : SM (Shard S) unit :=
  modify (λ s, set_metrics (f (sh_metrics s)) s).

(** Waiting for a permit ends with one, or with the gate closed. *)
Definition acquire_operation_permit (operation : string) (gate : Shard S → Gate) :
  SM (Shard S) unit :=
  g ← gets gate;
  (if permits g =? 0 then on_metrics bump_waits else mret tt) ;;
  if closed g
  then fails (CorruptValue ("backpressure/" +:+ operation)
                "operation gate closed: semaphore closed")
  else mret tt.
Definition acquire_graph_write_permit (operation : string) : SM (Shard S) unit :=
  on_metrics bump_attempts ;; acquire_operation_permit operation sh_write_gate.
Definition acquire_gc_permit (operation : string) : SM (Shard S) unit :=
  on_metrics bump_gc_jobs ;; acquire_operation_permit operation sh_gc_gate.
End txn.
