(* ===== verification/SegmentReads.v ===== *)
(** Reads of the outbound adjacency: point records, trusted segments and their
    tombstones.  [codec.rs] reads them inside a write transaction and
    [shard/query.rs] through a storage snapshot; the loop bodies are shared. *)

From S2P Require Import Prelude Text Errors Model Namespace Keys Codec CodecRecords Kv ShardTxn.

Local Open Scope N_scope.

(** * Loop bodies *)

Definition entry_key (kv : string * string) : string := from_utf8_lossy kv.1.

(** Destinations of the point records. *)
Definition out_record_step (neighbors : gset VertexId) (kv : string * string) :
  Result (Flow (gset VertexId)) :=
  record ← decode_edge_record (entry_key kv) kv.2;
  Ok (Continue ({[er_dst record]} ∪ neighbors)).
Definition in_record_step (neighbors : gset VertexId) (kv : string * string) :
  Result (Flow (gset VertexId)) :=
  record ← decode_edge_record (entry_key kv) kv.2;
  Ok (Continue ({[er_src record]} ∪ neighbors)).

(** Tombstones no newer than the read epoch. *)
Definition tombstone_step (scan cell_id edge_type : string) (src : VertexId)
  (read_epoch : StorageSequence) (tombstones : gmap VertexId StorageSequence)
  (kv : string * string) : Result (Flow (gmap VertexId StorageSequence)) :=
  let key := entry_key kv in
  '(key_cell_id, key_edge_type, key_src, dst) ← parse_out_edge_segment_tombstone_key key;
  if bool_decide (key_cell_id = cell_id) && bool_decide (key_edge_type = edge_type) &&
     (key_src =? src)
  then
    epoch ← decode_u64 key kv.2;
    Ok (Continue (if epoch <=? read_epoch then <[dst := epoch]> tombstones else tombstones))
  else corrupt key ("segment tombstone identity does not match " +:+ scan +:+ " prefix").

(** The newest segment that still shows each destination. *)
Definition segment_dst_step (sequence : StorageSequence) (tombstones : gmap VertexId StorageSequence)
  (edges : gmap VertexId StorageSequence) (dst : VertexId) : gmap VertexId StorageSequence :=
  if segment_edge_visible sequence (tombstones !! dst)
  then <[dst := match edges !! dst with Some current => N.max current sequence | None => sequence end]> edges
  else edges.

(** A segment scan stops at the first segment newer than the read epoch. *)
Definition segment_loop_step {B} (visit : B → OutEdgeSegment → Flow B) (read_epoch : StorageSequence)
  (acc : B) (kv : string * string) : Result (Flow B) :=
  segment ← decode_out_edge_segment (entry_key kv) kv.2;
  Ok (if read_epoch <? oes_storage_sequence segment then Break acc else visit acc segment).

Definition segment_edges_step (tombstones : gmap VertexId StorageSequence) :
  StorageSequence → gmap VertexId StorageSequence → string * string →
  Result (Flow (gmap VertexId StorageSequence)) :=
  segment_loop_step (λ edges segment,
    Continue (foldl (segment_dst_step (oes_storage_sequence segment) tombstones) edges
                (oes_destinations segment))).

Definition segment_neighbors_step (tombstones : gmap VertexId StorageSequence) :
  StorageSequence → gset VertexId → string * string → Result (Flow (gset VertexId)) :=
  segment_loop_step (λ neighbors segment,
    Continue (foldl (λ ns dst,
        if segment_edge_visible (oes_storage_sequence segment) (tombstones !! dst)
        then {[dst]} ∪ ns else ns) neighbors (oes_destinations segment))).

Definition segment_exists_step (dst : VertexId) (tombstone_epoch : option StorageSequence) :
  StorageSequence → bool → string * string → Result (Flow bool) :=
  segment_loop_step (λ found segment,
    if existsb (λ candidate, (candidate =? dst) &&
         segment_edge_visible (oes_storage_sequence segment) tombstone_epoch)
         (oes_destinations segment)
    then Break true else Continue found).

Definition segment_records_step :
  StorageSequence → list (StorageSequence * EdgeRecord) → string * string →
  Result (Flow (list (StorageSequence * EdgeRecord))) :=
  segment_loop_step (λ edges segment,
    Continue (edges ++ ((λ dst, (oes_storage_sequence segment,
      MkEdgeRecord (oes_cell_id segment) (oes_edge_type segment) (oes_src segment) dst))
      <$> oes_destinations segment))).

(** * Reads inside a transaction *)

Section txn_reads.
Context {S : SlateDb}.

Definition out_segment_edges_for_src_txn (cell_id edge_type : string) (src : VertexId)
  (read_epoch : StorageSequence) : SM (Tx S) (gmap VertexId StorageSequence) :=
  tombstones ← t_scan (keys.out_segment_tombstone_src_prefix cell_id edge_type src)
    (tombstone_step "scan" cell_id edge_type src read_epoch) ∅;
  t_scan (keys.out_segment_src_prefix cell_id edge_type src)
    (segment_edges_step tombstones read_epoch) ∅.

Definition out_segment_neighbors_for_src_txn (cell_id edge_type : string) (src : VertexId)
  (read_epoch : StorageSequence) : SM (Tx S) (gset VertexId) :=
  edges ← out_segment_edges_for_src_txn cell_id edge_type src read_epoch;
  mret (dom edges).

Definition out_neighbors_for_src_txn (cell_id edge_type : string) (src : VertexId)
  (read_epoch : StorageSequence) : SM (Tx S) (gset VertexId) :=
  neighbors ← t_scan (keys.out_prefix cell_id edge_type src) out_record_step ∅;
  more ← out_segment_neighbors_for_src_txn cell_id edge_type src read_epoch;
  mret (neighbors ∪ more).

Definition edge_epoch_at_txn (cell_id edge_type : string) (src dst : VertexId)
  (read_epoch : StorageSequence) : SM (Tx S) (option StorageSequence) :=
  let edge_key := keys.out_edge cell_id edge_type src dst in
  value ← read_txn_remote edge_key;
  match value with
  | Some value => lift (decode_edge_record edge_key value) ;; mret (Some read_epoch)
  | None =>
      edges ← out_segment_edges_for_src_txn cell_id edge_type src read_epoch;
      mret (edges !! dst)
  end.

Definition read_counter_txn (key : string) : SM (Tx S) N :=
  value ← read_txn_remote key;
  match value with
  | Some value => lift (decode_u64 key value)
  | None => mret 0
  end.

(** * Reads of the shard's store *)

Definition out_segment_tombstone_epoch_at (cell_id edge_type : string) (src dst : VertexId)
  (read_epoch : StorageSequence) : SM (Shard S) (option StorageSequence) :=
  let key := keys.out_segment_tombstone cell_id edge_type src dst in
  value ← read_remote key;
  match value with
  | None => mret None
  | Some value =>
      epoch ← lift (decode_u64 key value);
      mret (if epoch <=? read_epoch then Some epoch else None)
  end.

(** The query budget is absent on the paths modelled here. *)
Definition scan_out_segments_for_src_at (cell_id edge_type : string) (src : VertexId)
  (read_epoch : StorageSequence) : SM (Shard S) (list (StorageSequence * EdgeRecord)) :=
  scan_remote_prefix (keys.out_segment_src_prefix cell_id edge_type src)
    (segment_records_step read_epoch) [].

Definition out_segment_edge_record_at (cell_id edge_type : string) (src dst : VertexId)
  (read_epoch : StorageSequence) : SM (Shard S) (option (StorageSequence * EdgeRecord)) :=
  tombstone_epoch ← out_segment_tombstone_epoch_at cell_id edge_type src dst read_epoch;
  records ← scan_out_segments_for_src_at cell_id edge_type src read_epoch;
  mret (foldl (λ latest r,
    if (er_dst r.2 =? dst) && segment_edge_visible r.1 tombstone_epoch then Some r else latest)
    None records).

(** * Reads of a storage snapshot *)

Definition edge_exists_in_storage_snapshot (snapshot : Snap) (cell_id edge_type : string)
  (src dst : VertexId) (topology_sequence : StorageSequence) : Result bool :=
  _ ← validate_component "cell_id" cell_id;
  _ ← validate_component "edge_type" edge_type;
  point ← slate (snap_get snapshot (keys.out_edge cell_id edge_type src dst));
  match point with
  | Some _ => Ok true
  | None =>
      let tombstone_key := keys.out_segment_tombstone cell_id edge_type src dst in
      value ← slate (snap_get snapshot tombstone_key);
      tombstone_epoch ← (match value with
        | Some value =>
            epoch ← decode_u64 tombstone_key value;
            Ok (if epoch <=? topology_sequence then Some epoch else None)
        | None => Ok None
        end);
      scan_loop (segment_exists_step dst tombstone_epoch topology_sequence) false
        (snap_scan_prefix snapshot (keys.out_segment_src_prefix cell_id edge_type src) None None)
  end.

Definition degree_for_cache_admission (snapshot : Snap) (key : string) : Result N :=
  value ← slate (snap_get snapshot key);
  match value with Some value => decode_u64 key value | None => Ok u64_max end.

Definition out_neighbors_in_storage_snapshot (snapshot : Snap) (cell_id edge_type : string)
  (src : VertexId) (topology_sequence : StorageSequence) : Result (list VertexId) :=
  _ ← validate_component "cell_id" cell_id;
  _ ← validate_component "edge_type" edge_type;
  _ ← degree_for_cache_admission snapshot (keys.degree_out cell_id edge_type src);
  neighbors ← scan_loop out_record_step ∅
    (snap_scan_prefix snapshot (keys.out_prefix cell_id edge_type src) None None);
  tombstones ← scan_loop (tombstone_step "snapshot" cell_id edge_type src topology_sequence) ∅
    (snap_scan_prefix snapshot (keys.out_segment_tombstone_src_prefix cell_id edge_type src) None None);
  neighbors ← scan_loop (segment_neighbors_step tombstones topology_sequence) neighbors
    (snap_scan_prefix snapshot (keys.out_segment_src_prefix cell_id edge_type src) None None);
  Ok (bset_iter neighbors).

Definition out_degree_in_storage_snapshot (snapshot : Snap) (cell_id edge_type : string)
  (src : VertexId) : Result N :=
  _ ← validate_component "cell_id" cell_id;
  _ ← validate_component "edge_type" edge_type;
  let key := keys.degree_out cell_id edge_type src in
  value ← slate (snap_get snapshot key);
  match value with Some value => decode_u64 key value | None => Ok 0 end.

Definition in_neighbors_in_storage_snapshot (snapshot : Snap) (cell_id edge_type : string)
  (dst : VertexId) : Result (list VertexId) :=
  _ ← validate_component "cell_id" cell_id;
  _ ← validate_component "edge_type" edge_type;
  _ ← degree_for_cache_admission snapshot (keys.degree_in cell_id edge_type dst);
  neighbors ← scan_loop in_record_step ∅
    (snap_scan_prefix snapshot (keys.in_prefix cell_id edge_type dst) None None);
  Ok (bset_iter neighbors).
End txn_reads.
