(* ===== verification/ShardWrite.v ===== *)
(** [shard/write.rs]: inserting and deleting an edge.  Each handler is one
    serializable transaction: fence check, idempotent replay, the reads that
    decide the outcome, the writes (records, counters, metadata indexes, the
    change log) and the commit; [write_edge] and [delete_edge] retry it on a
    storage conflict. *)

From S2P Require Import Prelude Text Errors Model Namespace Keys Codec CodecRecords Kv ShardTxn SegmentReads.

Local Open Scope N_scope.

(** * Metadata *)

Definition validate_vertex_metadata (metadata : VertexMetadata) : Result unit :=
  _ ← foldM (λ _ label, validate_component "label" label) tt (bset_iter (vm_labels metadata));
  foldM (λ _ property, validate_component "property" property) tt
    (btree_keys (vm_properties metadata)).
Definition validate_edge_metadata (metadata : EdgeMetadata) : Result unit :=
  foldM (λ _ property, validate_component "property" property) tt
    (btree_keys (emd_properties metadata)).

Definition merge_vertex_metadata (previous requested : VertexMetadata) : VertexMetadata :=
  MkVertexMetadata (vm_labels previous ∪ vm_labels requested)
    (vm_properties requested ∪ vm_properties previous).
Definition merge_edge_metadata (previous requested : EdgeMetadata) : EdgeMetadata :=
  MkEdgeMetadata (emd_properties requested ∪ emd_properties previous).

Record EdgeMetadataTarget := MkTarget {
  tg_cell_id : string; tg_edge_type : string; tg_src : VertexId; tg_dst : VertexId }.

Definition target_of (m : EdgeMutation) : EdgeMetadataTarget :=
  MkTarget (em_cell_id m) (em_edge_type m) (em_src m) (em_dst m).

Section write.
Context {S : SlateDb}.

Definition put_vertex_metadata_indexes_txn (cell_id : string) (vertex_id : VertexId)
  (metadata : VertexMetadata) : SM (Tx S) unit :=
  for_each (λ label, t_put (keys.vertex_label cell_id label vertex_id) (encode_u64 vertex_id))
    (bset_iter (vm_labels metadata)) ;;
  for_each (λ p, t_put (keys.vertex_property_index cell_id p.1
      (encode_vertex_property_value_key p.2) vertex_id) (encode_u64 vertex_id))
    (btree_iter (vm_properties metadata)).

Definition delete_vertex_metadata_indexes_txn (cell_id : string) (vertex_id : VertexId)
  (metadata : VertexMetadata) : SM (Tx S) unit :=
  for_each (λ label, t_delete (keys.vertex_label cell_id label vertex_id))
    (bset_iter (vm_labels metadata)) ;;
  for_each (λ p, t_delete (keys.vertex_property_index cell_id p.1
      (encode_vertex_property_value_key p.2) vertex_id))
    (btree_iter (vm_properties metadata)).

Definition apply_vertex_metadata_update_txn (cell_id : string) (vertex_id : VertexId)
  (previous next : VertexMetadata) (_epoch : StorageSequence) : SM (Tx S) unit :=
  lift (validate_vertex_metadata next) ;;
  let vertex_key := keys.vertex cell_id vertex_id in
  delete_vertex_metadata_indexes_txn cell_id vertex_id previous ;;
  if bool_decide (vm_labels next = ∅) && bool_decide (vm_properties next = ∅)
  then t_delete vertex_key
  else t_put vertex_key (encode_vertex_metadata next) ;;
       put_vertex_metadata_indexes_txn cell_id vertex_id next.

Definition edge_property_index_key (target : EdgeMetadataTarget)
  (p : string * VertexPropertyValue) : string :=
  keys.edge_property_index (tg_cell_id target) (tg_edge_type target) p.1
    (encode_vertex_property_value_key p.2) (tg_src target) (tg_dst target).

Definition put_edge_metadata_indexes_txn (target : EdgeMetadataTarget) (metadata : EdgeMetadata) :
  SM (Tx S) unit :=
  for_each (λ p, t_put (edge_property_index_key target p) (encode_u64 (tg_dst target)))
    (btree_iter (emd_properties metadata)).
Definition delete_edge_metadata_indexes_txn (target : EdgeMetadataTarget)
  (metadata : EdgeMetadata) : SM (Tx S) unit :=
  for_each (λ p, t_delete (edge_property_index_key target p))
    (btree_iter (emd_properties metadata)).

Definition edge_metadata_key (target : EdgeMetadataTarget) : string :=
  keys.edge_metadata (tg_cell_id target) (tg_edge_type target) (tg_src target) (tg_dst target).

Definition apply_edge_metadata_update_txn (target : EdgeMetadataTarget)
  (previous next : EdgeMetadata) (_epoch : StorageSequence) : SM (Tx S) unit :=
  lift (validate_edge_metadata next) ;;
  delete_edge_metadata_indexes_txn target previous ;;
  if bool_decide (emd_properties next = ∅)
  then t_delete (edge_metadata_key target)
  else t_put (edge_metadata_key target) (encode_edge_metadata next) ;;
       put_edge_metadata_indexes_txn target next.

Definition read_vertex_metadata (key : string) : SM (Tx S) VertexMetadata :=
  value ← read_txn_remote key;
  match value with
  | Some value => lift (decode_vertex_metadata key value)
  | None => mret VertexMetadata_default
  end.
Definition read_edge_metadata (key : string) : SM (Tx S) EdgeMetadata :=
  value ← read_txn_remote key;
  match value with
  | Some value => lift (decode_edge_metadata key value)
  | None => mret EdgeMetadata_default
  end.

(** * The change log *)

Definition xlog_value (exists_ : bool) : string :=
  String (if exists_ then Ascii.ascii_of_N 1 else Ascii.ascii_of_N 0) "".

Definition floor_token (cell_id edge_type : string) : string := cell_id +:+ "/" +:+ edge_type.

(** The first change logged for a pair sets the coverage floor.  Only a floor
    seen in storage is remembered. *)
Definition ensure_xlog_floor (cell_id edge_type : string) (epoch : StorageSequence) :
  SM (Tx S) unit :=
  ensured ← gets (λ x, sh_floor (tx_shard x));
  if bool_decide (floor_token cell_id edge_type ∈ ensured) then mret tt
  else
    let low_key := keys.xlog_low_water cell_id edge_type in
    low ← read_txn_remote low_key;
    match low with
    | Some _ => on_shard (modify (λ s,
        set_floor ({[floor_token cell_id edge_type]} ∪ sh_floor s) s))
    | None => t_put low_key (encode_u64 epoch)
    end.

Definition mark_topology_change_txn (cell_id edge_type : string) (epoch : StorageSequence)
  (changes : list (VertexId * VertexId * bool)) : SM (Tx S) unit :=
  t_put (keys.matrix_dirty cell_id edge_type) (encode_u64 epoch) ;;
  t_put (keys.adjacency_generation cell_id edge_type) (encode_u64 epoch) ;;
  match changes with
  | [] => mret tt
  | _ :: _ =>
      ensure_xlog_floor cell_id edge_type epoch ;;
      for_each (λ c, t_put (keys.xlog_entry cell_id edge_type epoch c.1.1 c.1.2) (xlog_value c.2))
        changes
  end.

(** * Relationships of a deleted edge *)

Definition relationship_step (records : list RelationshipRecord) (kv : string * string) :
  Result (Flow (list RelationshipRecord)) :=
  record ← decode_relationship_record (entry_key kv) kv.2;
  Ok (Continue (records ++ [record])).

Definition live_relationships_for_edge_txn (cell_id edge_type : string) (src dst : VertexId)
  (_read_epoch : StorageSequence) : SM (Tx S) (list RelationshipRecord) :=
  t_scan (keys.relationship_edge_prefix cell_id edge_type src dst) relationship_step [].

Definition delete_relationship_property_indexes_txn (record : RelationshipRecord)
  (metadata : EdgeMetadata) : SM (Tx S) unit :=
  for_each (λ p, t_delete (keys.relationship_property_index (rr_cell_id record)
      (rr_edge_type record) p.1 (encode_vertex_property_value_key p.2) (rr_src record)
      (rr_dst record) (rr_relationship_id record)))
    (btree_iter (emd_properties metadata)).

Definition delete_relationship_record_txn (record : RelationshipRecord) : SM (Tx S) unit :=
  t_delete (keys.relationship (rr_cell_id record) (rr_edge_type record) (rr_src record)
    (rr_dst record) (rr_relationship_id record)) ;;
  t_delete (keys.relationship_id (rr_cell_id record) (rr_relationship_id record)) ;;
  delete_relationship_property_indexes_txn record (rr_metadata record).

Definition delete_relationships_for_structural_edge_txn (m : EdgeMutation)
  (read_epoch : StorageSequence) : SM (Tx S) N :=
  relationships ← live_relationships_for_edge_txn (em_cell_id m) (em_edge_type m) (em_src m)
    (em_dst m) read_epoch;
  for_each delete_relationship_record_txn relationships ;;
  t_delete (keys.relationship_count (em_cell_id m) (em_edge_type m) (em_src m) (em_dst m)) ;;
  mret (N.of_nat (length relationships)).

(** * Inserting an edge *)

(** The vertices whose metadata the request changes. *)
Fixpoint changed_vertex_metadata (cell_id : string) (updates : list (VertexId * VertexMetadata)) :
  SM (Tx S) (list (VertexId * VertexMetadata * VertexMetadata)) :=
  match updates with
  | [] => mret []
  | (vertex_id, requested) :: updates =>
      previous ← read_vertex_metadata (keys.vertex cell_id vertex_id);
      let next := merge_vertex_metadata previous requested in
      rest ← changed_vertex_metadata cell_id updates;
      mret (if bool_decide (previous = next) then rest else (vertex_id, previous, next) :: rest)
  end.

Definition out_edge_key (m : EdgeMutation) : string :=
  keys.out_edge (em_cell_id m) (em_edge_type m) (em_src m) (em_dst m).
Definition in_edge_key (m : EdgeMutation) : string :=
  keys.in_edge (em_cell_id m) (em_edge_type m) (em_dst m) (em_src m).
Definition canonical_edge_key (m : EdgeMutation) : string :=
  keys.edge (em_cell_id m) (em_edge_type m) (em_src m) (em_dst m).
Definition out_degree_key (m : EdgeMutation) : string :=
  keys.degree_out (em_cell_id m) (em_edge_type m) (em_src m).
Definition in_degree_key (m : EdgeMutation) : string :=
  keys.degree_in (em_cell_id m) (em_edge_type m) (em_dst m).
Definition record_of (m : EdgeMutation) : EdgeRecord :=
  MkEdgeRecord (em_cell_id m) (em_edge_type m) (em_src m) (em_dst m).

Definition put_commit_idempotency (m : EdgeMutation) (result : CommitResult) : SM (Tx S) unit :=
  t_put (keys.idempotency (em_cell_id m) "create" (em_idempotency_key m))
    (encode_commit_idempotency m result).

(** [counter + 1] on a [u64] that holds a degree. *)
Definition insert_edge_records_txn (m : EdgeMutation) (epoch : StorageSequence) : SM (Tx S) unit :=
  let edge_value := encode_edge_record (record_of m) in
  mark_topology_change_txn (em_cell_id m) (em_edge_type m) epoch [(em_src m, em_dst m, true)] ;;
  out_degree ← read_counter_txn (out_degree_key m);
  reverse ← gets (λ x, writes_reverse_index (tx_shard x));
  in_degree ← (if reverse : bool then n ← read_counter_txn (in_degree_key m); mret (Some n)
               else mret None);
  t_put (out_edge_key m) edge_value ;;
  (if reverse : bool then t_put (in_edge_key m) edge_value else mret tt) ;;
  t_put (out_degree_key m) (encode_u64 (wrapping_add out_degree 1)) ;;
  match in_degree with
  | Some n => t_put (in_degree_key m) (encode_u64 (wrapping_add n 1))
  | None => mret tt
  end.

Definition write_edge_body (m : EdgeMutation) (metadata_updates : list (VertexId * VertexMetadata))
  (edge_metadata : EdgeMetadata) (operation : string) : SM (Tx S) CommitResult :=
  validate_write_fence_txn (em_cell_id m) operation ;;
  let idem_key := keys.idempotency (em_cell_id m) "create" (em_idempotency_key m) in
  replay ← read_txn_remote idem_key;
  match replay with
  | Some value => lift (decode_commit_idempotency idem_key m value)
  | None =>
      current_epoch ← t_seqnum;
      existing_edge_epoch ← edge_epoch_at_txn (em_cell_id m) (em_edge_type m) (em_src m) (em_dst m)
        current_epoch;
      changed_metadata ← changed_vertex_metadata (em_cell_id m) metadata_updates;
      previous_edge_metadata ← read_edge_metadata (edge_metadata_key (target_of m));
      let next_edge_metadata := merge_edge_metadata previous_edge_metadata edge_metadata in
      let edge_metadata_changed := negb (bool_decide (previous_edge_metadata = next_edge_metadata)) in
      let unchanged := bool_decide (changed_metadata = []) && negb edge_metadata_changed in
      match existing_edge_epoch, unchanged with
      | Some existing_epoch, true =>
          let result := MkCommitResult existing_epoch true in
          put_commit_idempotency m result ;; commit_txn_traced ;; mret result
      | _, _ =>
          epoch ← lift (ok_or (checked_add current_epoch 1)
                          (CorruptValue "storage_sequence" "epoch overflow"));
          let result := MkCommitResult epoch (bool_decide (is_Some existing_edge_epoch)) in
          for_each (λ c, apply_vertex_metadata_update_txn (em_cell_id m) c.1.1 c.1.2 c.2 epoch)
            changed_metadata ;;
          (if edge_metadata_changed
           then apply_edge_metadata_update_txn (target_of m) previous_edge_metadata
                  next_edge_metadata epoch
           else mret tt) ;;
          match existing_edge_epoch with
          | Some _ => mret tt
          | None => insert_edge_records_txn m epoch
          end ;;
          put_commit_idempotency m result ;; commit_txn_traced ;; mret result
      end
  end.

Definition write_edge_txn_locked_with_metadata (m : EdgeMutation)
  (metadata_updates : list (VertexId * VertexMetadata)) (edge_metadata : EdgeMetadata)
  (operation : string) : SM (Shard S) CommitResult :=
  with_txn (write_edge_body m metadata_updates edge_metadata operation).

Definition write_edge_txn_locked (m : EdgeMutation) : SM (Shard S) CommitResult :=
  write_edge_txn_locked_with_metadata m [] EdgeMetadata_default "write_edge".

Definition write_edge_txn (m : EdgeMutation) : SM (Shard S) CommitResult :=
  acquire_local_write_guard (em_cell_id m) "write_edge" ;; write_edge_txn_locked m.

(** * Deleting an edge *)

Definition put_delete_idempotency (m : EdgeMutation) (result : DeleteResult) : SM (Tx S) unit :=
  t_put (keys.idempotency (em_cell_id m) "delete" (em_idempotency_key m))
    (encode_delete_idempotency m result).

Definition finish_delete (m : EdgeMutation) (result : DeleteResult) : SM (Tx S) DeleteResult :=
  put_delete_idempotency m result ;; commit_txn_traced ;; mret result.

(** Metadata and relationships that go with the structural edge. *)
Definition clear_edge_attachments_txn (m : EdgeMutation) (previous : EdgeMetadata)
  (epoch read_epoch : StorageSequence) : SM (Tx S) unit :=
  delete_relationships_for_structural_edge_txn m read_epoch ;;
  if bool_decide (emd_properties previous = ∅) then mret tt
  else apply_edge_metadata_update_txn (target_of m) previous EdgeMetadata_default epoch.

(** The edge has no point record: it may live in a trusted segment, which is
    hidden with a tombstone. *)
Definition delete_segment_edge (m : EdgeMutation) : SM (Tx S) DeleteResult :=
  current_epoch ← t_seqnum;
  reverse ← gets (λ x, writes_reverse_index (tx_shard x));
  segment_edge ← (if reverse : bool then mret None
    else on_shard (out_segment_edge_record_at (em_cell_id m) (em_edge_type m) (em_src m) (em_dst m)
                     current_epoch));
  match segment_edge with
  | None => finish_delete m (MkDeleteResult current_epoch false)
  | Some (segment_sequence, _) =>
      let tombstone_key := keys.out_segment_tombstone (em_cell_id m) (em_edge_type m) (em_src m)
        (em_dst m) in
      value ← read_txn_remote tombstone_key;
      hidden ← (match value with
        | Some value =>
            tombstone_epoch ← lift (decode_u64 tombstone_key value);
            mret (negb (segment_edge_visible segment_sequence (Some tombstone_epoch)))
        | None => mret false
        end);
      if hidden : bool then finish_delete m (MkDeleteResult current_epoch false)
      else
        epoch ← lift (ok_or (checked_add current_epoch 1)
                        (CorruptValue "storage_sequence" "epoch overflow"));
        mark_topology_change_txn (em_cell_id m) (em_edge_type m) epoch
          [(em_src m, em_dst m, false)] ;;
        out_degree ← read_counter_txn (out_degree_key m);
        previous_edge_metadata ← read_edge_metadata (edge_metadata_key (target_of m));
        clear_edge_attachments_txn m previous_edge_metadata epoch current_epoch ;;
        t_put tombstone_key (encode_u64 epoch) ;;
        t_put (out_degree_key m) (encode_u64 (saturating_sub out_degree 1)) ;;
        finish_delete m (MkDeleteResult epoch true)
  end.

Definition delete_point_edge (m : EdgeMutation) (existing : string) : SM (Tx S) DeleteResult :=
  lift (decode_edge_record (out_edge_key m) existing) ;;
  epoch ← next_epoch_txn (em_cell_id m);
  mark_topology_change_txn (em_cell_id m) (em_edge_type m) epoch [(em_src m, em_dst m, false)] ;;
  out_degree ← read_counter_txn (out_degree_key m);
  reverse ← gets (λ x, writes_reverse_index (tx_shard x));
  in_degree ← (if reverse : bool then n ← read_counter_txn (in_degree_key m); mret (Some n)
               else mret None);
  previous_edge_metadata ← read_edge_metadata (edge_metadata_key (target_of m));
  clear_edge_attachments_txn m previous_edge_metadata epoch (saturating_sub epoch 1) ;;
  t_delete (canonical_edge_key m) ;;
  t_delete (out_edge_key m) ;;
  t_delete (in_edge_key m) ;;
  t_put (out_degree_key m) (encode_u64 (saturating_sub out_degree 1)) ;;
  match in_degree with
  | Some n => t_put (in_degree_key m) (encode_u64 (saturating_sub n 1))
  | None => mret tt
  end ;;
  finish_delete m (MkDeleteResult epoch true).

Definition delete_edge_body (m : EdgeMutation) : SM (Tx S) DeleteResult :=
  validate_write_fence_txn (em_cell_id m) "delete_edge" ;;
  let idem_key := keys.idempotency (em_cell_id m) "delete" (em_idempotency_key m) in
  replay ← read_txn_remote idem_key;
  match replay with
  | Some value => lift (decode_delete_idempotency idem_key m value)
  | None =>
      existing ← read_txn_remote (out_edge_key m);
      match existing with
      | None => delete_segment_edge m
      | Some existing => delete_point_edge m existing
      end
  end.

Definition delete_edge_txn_locked (m : EdgeMutation) : SM (Shard S) DeleteResult :=
  with_txn (delete_edge_body m).

Definition delete_edge_txn (m : EdgeMutation) : SM (Shard S) DeleteResult :=
  acquire_local_write_guard (em_cell_id m) "delete_edge" ;; delete_edge_txn_locked m.

(** * The retry loop *)

Definition GRAPH_TXN_MAX_RETRIES : nat := 32.

(** [attempts] is what is left of the budget: a conflict is retried while another
    attempt remains, and any other outcome is returned. *)
Fixpoint txn_retry_loop {A} (attempt : SM (Shard S) A) (attempts : nat) : SM (Shard S) A :=
  match attempts with
  | O => fails (RetryExhausted "graph transaction" (N.of_nat GRAPH_TXN_MAX_RETRIES))
  | Datatypes.S attempts => λ s,
      match attempt s with
      | (s', Ok a) => (on_metrics bump_commits ;; mret a) s'
      | (s', Err e) =>
          if is_retryable_write_conflict e && negb (attempts =? 0)%nat
          then (on_metrics bump_retries ;; txn_retry_loop attempt attempts) s'
          else (s', Err e)
      end
  end.

Definition routed_write {A} (m : EdgeMutation) (operation : string) (attempt : SM (Shard S) A) :
  SM (Shard S) A :=
  lift (validate_component "cell_id" (em_cell_id m)) ;;
  lift (validate_component "edge_type" (em_edge_type m)) ;;
  lift (validate_component "idempotency_key" (em_idempotency_key m)) ;;
  ensure_write_authority (em_cell_id m) operation ;;
  acquire_graph_write_permit operation ;;
  txn_retry_loop attempt GRAPH_TXN_MAX_RETRIES.

Definition write_edge (m : EdgeMutation) : SM (Shard S) CommitResult :=
  routed_write m "write_edge" (write_edge_txn m).
Definition delete_edge (m : EdgeMutation) : SM (Shard S) DeleteResult :=
  routed_write m "delete_edge" (delete_edge_txn m).
End write.
