(* ===== verification/ShardRefine.v ===== *)
(** The write transactions against any lawful store: each attempt either fails
    in the store, or does exactly what it does on the reference store from the
    state its transaction began in.  The functional theorems are then proved on
    the reference store. *)

From S2P Require Import Prelude Text Errors Model Namespace Keys Codec CodecRecords Kv ShardTxn SegmentReads ShardWrite.

Local Open Scope N_scope.

(** A scan that fails part-way agrees with the full scan up to there. *)
Lemma scan_loop_items {B} (f : B → string * string → Result (Flow B)) acc items entries :
  items_of items entries →
  scan_loop f acc items = scan_loop f acc (Ok <$> entries) ∨
  ∃ k, scan_loop f acc items = Err (Slate k).
Proof.
  intros [->|(n & e & ->)]; [by left|].
  revert acc entries; induction n as [|n IH]; intros acc entries.
  { right. by exists e. }
  destruct entries as [|kv entries]; [right; by exists e|].
  rewrite firstn_cons, !fmap_cons, <- app_comm_cons. cbn [scan_loop].
  destruct (f acc kv) as [[acc'|acc']|err]; [apply IH|by left..].
Qed.

Section refine.
Context {S : SlateDb} {L : SlateDbLaws S}.

(** * Abstraction *)

Definition abs_db (d : @Db S) : @Db Mem := MkMemDb (db_view d) (db_seq d).
Definition abs_txn (t : @Txn S) : @Txn Mem := MkMemDb (txn_view t) (txn_seqnum t).
Definition abs (s : Shard S) : Shard Mem :=
  MkShard (S := Mem) (abs_db (sh_db s)) (sh_writer s) (sh_authority s) (sh_policy s)
    (sh_await_durable s) (sh_floor s) (sh_reopen_gate s) (sh_heartbeat_interval s) (sh_now s)
    (sh_reader_refresh_generation s) (sh_write_gate s) (sh_gc_gate s) (sh_metrics s).
Definition absx (x : Tx S) : Tx Mem := MkTx (S := Mem) (abs (tx_shard x)) (abs_txn (tx_txn x)).

Definition tx_view (x : Tx S) : gmap string string := db_view (sh_db (tx_shard x)).

(** What runs before the commit: the store's state does not move. *)
Definition ref_r {A} (m : SM (Tx S) A) (mp : SM (Tx Mem) A) : Prop := ∀ x,
  sh_db (tx_shard (m x).1) = sh_db (tx_shard x) ∧
  match m x with
  | (x', Ok a) => mp (absx x) = (absx x', Ok a)
  | (x', Err e) => mp (absx x) = (absx x', Err e) ∨ ∃ k, e = Slate k
  end.

(** A run that ends with the commit: a reported failure left the state alone or,
    when it is no conflict, may have installed the result. *)
Definition ref_c {A} (m : SM (Tx S) A) (mp : SM (Tx Mem) A) : Prop := ∀ x,
  match m x with
  | (x', Ok a) => mp (absx x) = (absx x', Ok a)
  | (x', Err e) =>
      (mp (absx x) = (absx x', Err e) ∧ tx_view x' = tx_view x) ∨
      ∃ k, e = Slate k ∧
        (tx_view x' = tx_view x ∨
         is_retryable_write_conflict e = false ∧
         ∃ y a, mp (absx x) = (y, Ok a) ∧ tx_view x' = mem_view (sh_db (tx_shard y)))
  end.

Lemma ref_r_c {A} (m : SM (Tx S) A) mp : ref_r m mp → ref_c m mp.
Proof.
  intros H x. specialize (H x) as [Hdb H]. destruct (m x) as [x' [a|e]]; [done|]. cbn in Hdb.
  assert (tx_view x' = tx_view x) as Hv by (unfold tx_view; by rewrite Hdb).
  destruct H as [H|[k ->]]; [by left|]. right. exists k. eauto.
Qed.

Lemma ref_ret {A} (a : A) : ref_r (mret a) (mret a).
Proof. intros x. done. Qed.
Lemma ref_fails {A} e : ref_r (A := A) (fails e) (fails e).
Proof. intros x. cbn. eauto. Qed.
Lemma ref_lift {A} (r : Result A) : ref_r (lift r) (lift r).
Proof. intros x. unfold lift. cbn. destruct r; eauto. Qed.
Lemma ref_gets {A} (f : Tx S → A) (g : Tx Mem → A) :
  (∀ x, f x = g (absx x)) → ref_r (gets f) (gets g).
Proof. intros H x. unfold gets. cbn. by rewrite H. Qed.

Lemma ref_bind {A B} (m : SM (Tx S) A) mp (f : A → SM (Tx S) B) fp :
  ref_r m mp → (∀ a, ref_r (f a) (fp a)) → ref_r (m ≫= f) (mp ≫= fp).
Proof.
  intros Hm Hf x. specialize (Hm x) as [Hdb Hm]. unfold mbind, sm_mbind.
  destruct (m x) as [x1 [a|e]]; cbn in Hdb.
  - rewrite Hm. specialize (Hf a x1) as [Hdb' Hf]. rewrite Hdb in Hdb'. split; [done|]. exact Hf.
  - split; [done|]. destruct Hm as [->|Hk]; eauto.
Qed.

Lemma ref_bind_c {A B} (m : SM (Tx S) A) mp (f : A → SM (Tx S) B) fp :
  ref_r m mp → (∀ a, ref_c (f a) (fp a)) → ref_c (m ≫= f) (mp ≫= fp).
Proof.
  intros Hm Hf x. specialize (Hm x) as [Hdb Hm]. unfold mbind, sm_mbind.
  destruct (m x) as [x1 [a|e]]; cbn in Hdb.
  - rewrite Hm. specialize (Hf a x1).
    assert (tx_view x1 = tx_view x) as Hv by (unfold tx_view; by rewrite Hdb).
    by rewrite Hv in Hf.
  - assert (tx_view x1 = tx_view x) as Hv by (unfold tx_view; by rewrite Hdb).
    destruct Hm as [->|[k ->]]; [by left|]. right. exists k. eauto.
Qed.

Lemma ref_for_each {A} (f : A → SM (Tx S) unit) (g : A → SM (Tx Mem) unit) l :
  (∀ a, ref_r (f a) (g a)) → ref_r (for_each f l) (for_each g l).
Proof.
  intros H. induction l as [|a l IH]; [apply ref_ret|]. cbn. by apply ref_bind.
Qed.

(** * The primitives *)

Lemma ref_put k v : ref_r (t_put k v) (t_put k v).
Proof.
  intros x. unfold t_put, t_update. destruct (txn_put (tx_txn x) k v) as [t|e] eqn:E; cbn; [|eauto].
  apply put_law in E as (Hv & Hq & _). unfold absx. cbn. by rewrite <- Hv, <- Hq.
Qed.
Lemma ref_delete k : ref_r (t_delete k) (t_delete k).
Proof.
  intros x. unfold t_delete, t_update. destruct (txn_delete (tx_txn x) k) as [t|e] eqn:E; cbn; [|eauto].
  apply delete_law in E as (Hv & Hq & _). unfold absx. cbn. by rewrite <- Hv, <- Hq.
Qed.
Lemma ref_seqnum : ref_r t_seqnum t_seqnum.
Proof. by apply ref_gets. Qed.
Lemma ref_scan {B} p (f : B → string * string → Result (Flow B)) acc :
  ref_r (t_scan p f acc) (t_scan p f acc).
Proof.
  intros x. unfold t_scan. cbn. split; [done|].
  destruct (scan_loop_items f acc _ _ (txn_scan_law (tx_txn x) p)) as [->|[k ->]]; [|eauto].
  destruct (scan_loop f acc (Ok <$> view_scan (txn_view (tx_txn x)) p None None)); eauto.
Qed.
Lemma ref_read k : ref_r (read_txn_remote k) (read_txn_remote k).
Proof.
  unfold read_txn_remote. apply ref_bind.
  - intros x. unfold t_update. destruct (txn_mark_read (tx_txn x) k) as [t|e] eqn:E; cbn; [|eauto].
    apply mark_read_law in E as [Hv Hq]. unfold absx, abs_txn. cbn. by rewrite Hv, Hq.
  - intros _ x. unfold t_read. cbn. split; [done|].
    destruct (txn_get (tx_txn x) k) as [v|e] eqn:E; cbn; [|eauto].
    by apply txn_get_law in E as ->.
Qed.

(** A write followed by the commit and the answer. *)
Lemma ref_put_commit {A} k v (a : A) :
  ref_c (t_put k v ;; commit_txn_traced ;; mret a) (t_put k v ;; commit_txn_traced ;; mret a).
Proof.
  intros x. unfold t_put, t_update, mbind, sm_mbind.
  destruct (txn_put (tx_txn x) k v) as [t|e] eqn:E; [|right; exists e; eauto].
  apply put_law in E as (Hv & Hq & Hd).
  unfold commit_txn_traced, commit_txn_strict, commit_txn_strict_with_sequence, gets, mret, sm_mret.
  cbn. unfold mbind, sm_mbind. cbn. rewrite Hq.
  destruct (checked_add (txn_seqnum (tx_txn x)) 1) as [q|] eqn:Eq; cbn.
  2: { left. split; [|done]. unfold absx, abs_txn. cbn. by rewrite Hv, Hq. }
  destruct (txn_commit (sh_db (tx_shard x)) t (sh_await_durable (tx_shard x)) q)
    as [d' [h|e]] eqn:Ec; cbn.
  - apply commit_ok_law in Ec as [Hd' Hq']; [|done].
    unfold absx, abs, abs_db, abs_txn, set_db. cbn. by rewrite Hd', Hq', Hv, Hq.
  - right. exists e. split; [done|]. apply commit_err_law in Ec as [Hd'|[Hd' Hr]].
    + left. unfold tx_view. cbn. exact Hd'.
    + right. split; [done|]. eexists _, a. split; [reflexivity|].
      unfold tx_view. cbn. by rewrite Hd', Hv.
Qed.

Lemma ref_on_shard {A} (m : SM (Shard S) A) (mp : SM (Shard Mem) A) :
  (∀ s, sh_db (m s).1 = sh_db s ∧
    match m s with
    | (s', Ok a) => mp (abs s) = (abs s', Ok a)
    | (s', Err e) => mp (abs s) = (abs s', Err e) ∨ ∃ k, e = Slate k
    end) → ref_r (on_shard m) (on_shard mp).
Proof.
  intros H x. unfold on_shard. specialize (H (tx_shard x)) as [Hdb H].
  destruct (m (tx_shard x)) as [s' [a|e]]; cbn in *; (split; [done|]).
  - by rewrite H.
  - destruct H as [->|Hk]; [by left|by right].
Qed.

(** * The operations *)

Create HintDb refine.

Ltac ref_step :=
  match goal with
  | |- ref_r (_ ≫= _) (_ ≫= _) => apply ref_bind; [|intros ?]
  | |- ref_r (mret _) (mret _) => apply ref_ret
  | |- ref_r (fails _) (fails _) => apply ref_fails
  | |- ref_r (lift _) (lift _) => apply ref_lift
  | |- ref_r (t_put _ _) (t_put _ _) => apply ref_put
  | |- ref_r (t_delete _) (t_delete _) => apply ref_delete
  | |- ref_r t_seqnum t_seqnum => apply ref_seqnum
  | |- ref_r (t_scan _ _ _) (t_scan _ _ _) => apply ref_scan
  | |- ref_r (read_txn_remote _) (read_txn_remote _) => apply ref_read
  | |- ref_r (for_each _ _) (for_each _ _) => apply ref_for_each; intros ?
  | |- ref_r (gets _) (gets _) => apply ref_gets; done
  | |- ref_r (match ?o with _ => _ end) (match ?o with _ => _ end) => destruct o
  | |- ref_r (let '(_, _) := ?o in _) (let '(_, _) := ?o in _) => destruct o
  | |- ref_c (_ ;; commit_txn_traced ;; _) _ => apply ref_put_commit
  | |- ref_c (_ ≫= _) (_ ≫= _) => apply ref_bind_c; [|intros ?]
  | |- ref_c (match ?o with _ => _ end) (match ?o with _ => _ end) => destruct o
  | |- ref_c (let '(_, _) := ?o in _) (let '(_, _) := ?o in _) => destruct o
  | |- ref_c (lift _) (lift _) => apply ref_r_c
  | |- ref_c (mret _) (mret _) => apply ref_r_c
  end; cbv zeta.
Ltac ref_auto := repeat first [solve [auto with refine] | ref_step].

Lemma ref_authority c op : ref_r (on_shard (ensure_write_authority c op)) (on_shard (ensure_write_authority c op)).
Proof.
  apply ref_on_shard. intros s. unfold ensure_write_authority, gets, mbind, sm_mbind, writer, fails.
  cbn. destruct (sh_authority s); cbn; [eauto|destruct (sh_writer s); cbn; eauto..].
Qed.
#[local] Hint Resolve ref_authority : refine.

Lemma ref_fence c op : ref_r (validate_write_fence_txn c op) (validate_write_fence_txn c op).
Proof. unfold validate_write_fence_txn. ref_auto. Qed.
Lemma ref_segment_edges c t s q :
  ref_r (out_segment_edges_for_src_txn c t s q) (out_segment_edges_for_src_txn c t s q).
Proof. unfold out_segment_edges_for_src_txn. ref_auto. Qed.
#[local] Hint Resolve ref_fence ref_segment_edges : refine.
Lemma ref_edge_epoch c t s d q : ref_r (edge_epoch_at_txn c t s d q) (edge_epoch_at_txn c t s d q).
Proof. unfold edge_epoch_at_txn. ref_auto. Qed.
Lemma ref_counter k : ref_r (read_counter_txn k) (read_counter_txn k).
Proof. unfold read_counter_txn. ref_auto. Qed.
Lemma ref_vertex_metadata k : ref_r (read_vertex_metadata k) (read_vertex_metadata k).
Proof. unfold read_vertex_metadata. ref_auto. Qed.
Lemma ref_edge_metadata k : ref_r (read_edge_metadata k) (read_edge_metadata k).
Proof. unfold read_edge_metadata. ref_auto. Qed.
#[local] Hint Resolve ref_edge_epoch ref_counter ref_vertex_metadata ref_edge_metadata : refine.

Lemma ref_changed_metadata c ups : ref_r (changed_vertex_metadata c ups) (changed_vertex_metadata c ups).
Proof. induction ups as [|[v r] ups IH]; cbn [changed_vertex_metadata]; ref_auto. Qed.
Lemma ref_apply_vertex c v p n q :
  ref_r (apply_vertex_metadata_update_txn c v p n q) (apply_vertex_metadata_update_txn c v p n q).
Proof.
  unfold apply_vertex_metadata_update_txn, delete_vertex_metadata_indexes_txn,
    put_vertex_metadata_indexes_txn. ref_auto.
Qed.
Lemma ref_apply_edge t p n q :
  ref_r (apply_edge_metadata_update_txn t p n q) (apply_edge_metadata_update_txn t p n q).
Proof.
  unfold apply_edge_metadata_update_txn, delete_edge_metadata_indexes_txn,
    put_edge_metadata_indexes_txn. ref_auto.
Qed.
Lemma ref_floor c t q : ref_r (ensure_xlog_floor c t q) (ensure_xlog_floor c t q).
Proof.
  unfold ensure_xlog_floor. ref_auto. apply ref_on_shard. intros sh. unfold modify. done.
Qed.
#[local] Hint Resolve ref_changed_metadata ref_apply_vertex ref_apply_edge ref_floor : refine.
Lemma ref_mark c t q l : ref_r (mark_topology_change_txn c t q l) (mark_topology_change_txn c t q l).
Proof. unfold mark_topology_change_txn. ref_auto. Qed.
#[local] Hint Resolve ref_mark : refine.
Lemma ref_relationships m q :
  ref_r (delete_relationships_for_structural_edge_txn m q)
        (delete_relationships_for_structural_edge_txn m q).
Proof.
  unfold delete_relationships_for_structural_edge_txn, live_relationships_for_edge_txn,
    delete_relationship_record_txn, delete_relationship_property_indexes_txn. ref_auto.
Qed.
Lemma ref_insert m q : ref_r (insert_edge_records_txn m q) (insert_edge_records_txn m q).
Proof. unfold insert_edge_records_txn. ref_auto. Qed.
#[local] Hint Resolve ref_relationships ref_insert : refine.

Lemma ref_store_record c t s d q :
  ref_r (on_shard (out_segment_edge_record_at c t s d q)) (on_shard (out_segment_edge_record_at c t s d q)).
Proof.
  apply ref_on_shard. intros x.
  unfold out_segment_edge_record_at, out_segment_tombstone_epoch_at, read_remote,
    scan_out_segments_for_src_at, scan_remote_prefix, mbind, sm_mbind, lift, mret, sm_mret. cbn.
  destruct (db_get (sh_db x) (keys.out_segment_tombstone c t s d)) as [v|e] eqn:E; cbn; [|eauto].
  apply get_law in E as ->.
  pose proof (scan_loop_items (segment_records_step q) [] _ _
    (scan_law (sh_db x) (keys.out_segment_src_prefix c t s) None)) as Hs.
  destruct (db_view (sh_db x) !! _) as [v|]; cbn; [destruct (decode_u64 _ v); cbn; [|eauto]|];
    (destruct Hs as [->|[k ->]]; [|cbn; eauto]);
    by destruct (scan_loop (segment_records_step q) [] (Ok <$> _)); cbn; eauto.
Qed.
#[local] Hint Resolve ref_store_record : refine.

Lemma ref_write_body m ups em op : ref_c (write_edge_body m ups em op) (write_edge_body m ups em op).
Proof.
  unfold write_edge_body, put_commit_idempotency. ref_auto.
Qed.

Lemma ref_clear m p q q' : ref_r (clear_edge_attachments_txn m p q q') (clear_edge_attachments_txn m p q q').
Proof. unfold clear_edge_attachments_txn. ref_auto. Qed.
#[local] Hint Resolve ref_clear : refine.

Lemma ref_delete_body m : ref_c (delete_edge_body m) (delete_edge_body m).
Proof.
  unfold delete_edge_body, delete_segment_edge, delete_point_edge, finish_delete,
    put_delete_idempotency, next_epoch_txn. ref_auto.
Qed.

(** * Whole transactions *)

(** What a run on a store owes the reference store: [base] is the shard as the
    transaction found it, with whatever other writers committed before it began. *)
Definition refines_reference {A} (m : SM (Shard S) A) (mp : SM (Shard Mem) A) : Prop := ∀ s,
  sh_writer s = true →
  let d := (db_begin (sh_db s)).1 in let base := set_db d s in
  match m s with
  | (s', Ok a) => mp (abs base) = (abs s', Ok a)
  | (s', Err e) =>
      (mp (abs base) = (abs s', Err e) ∧ db_view (sh_db s') = db_view d) ∨
      ∃ k, e = Slate k ∧
        (db_view (sh_db s') = db_view d ∨
         is_retryable_write_conflict e = false ∧
         ∃ y a, mp (abs base) = (y, Ok a) ∧ db_view (sh_db s') = mem_view (sh_db y))
  end.

Lemma with_txn_mem {A} (mp : SM (Tx Mem) A) d s :
  sh_writer s = true →
  with_txn mp (abs (set_db d s)) =
  let '(x, r) := mp (MkTx (S := Mem) (abs (set_db d s)) (abs_db d)) in (tx_shard x, r).
Proof. intros Hw. unfold with_txn, mbind, sm_mbind, writer, in_txn. cbn. by rewrite Hw. Qed.

Lemma with_txn_refines {A} (m : SM (Tx S) A) mp :
  ref_c m mp → refines_reference (with_txn m) (with_txn mp).
Proof.
  intros H s Hw. destruct (db_begin (sh_db s)) as [d r] eqn:E. cbv zeta. cbn [fst].
  rewrite with_txn_mem by exact Hw.
  unfold with_txn, mbind, sm_mbind, writer, in_txn. rewrite Hw, E.
  destruct r as [t|e]; [|right; exists e; eauto].
  apply begin_law in E as [Hv Hq]. specialize (H (MkTx (set_db d s) t)).
  assert (absx (MkTx (set_db d s) t) = MkTx (S := Mem) (abs (set_db d s)) (abs_db d)) as Hx
    by (unfold absx, abs_txn, abs_db; cbn; by rewrite Hv, Hq).
  rewrite Hx in H.
  destruct (m (MkTx (set_db d s) t)) as [x' [a|e]].
  - by rewrite H.
  - destruct H as [[H Hs]|(k & -> & H)]; [left; by rewrite H|].
    right. exists k. split; [done|]. destruct H as [H|(Hr & y & a & Hy & Hs)]; [by left|].
    right. split; [done|]. rewrite Hy. eexists (tx_shard y), a. eauto.
Qed.
End refine.

(** * The retry loop *)

Section retry.
Context {S : SlateDb} {A : Type} (attempt : SM (Shard S) A).

(** [n] attempts in a row that end in a storage conflict, each counted. *)
Inductive conflicts : nat → Shard S → Shard S → Prop :=
  | conflicts_0 s : conflicts 0 s s
  | conflicts_S n s s1 e s' : attempt s = (s1, Err e) → is_retryable_write_conflict e = true →
      conflicts n (set_metrics (bump_retries (sh_metrics s1)) s1) s' →
      conflicts (Datatypes.S n) s s'.

Definition retryable (r : Result A) : bool :=
  match r with Err e => is_retryable_write_conflict e | Ok _ => false end.

(** The shard after the last attempt: a success counts a commit. *)
Definition settle (p : Shard S * Result A) : Shard S * Result A :=
  match p with
  | (s, Ok a) => (set_metrics (bump_commits (sh_metrics s)) s, Ok a)
  | (s, Err e) => (s, Err e)
  end.

Lemma txn_retry_loop_spec (attempts : nat) (s : Shard S) :
  ∃ n s1, (n ≤ attempts)%nat ∧ conflicts n s s1 ∧
    txn_retry_loop attempt (Datatypes.S attempts) s = settle (attempt s1) ∧
    (n = attempts ∨ retryable (attempt s1).2 = false).
Proof.
  revert s; induction attempts as [|k IH]; intros s; cbn [txn_retry_loop].
  - exists O, s. split; [lia|]. split; [constructor|]. split; [|by left].
    destruct (attempt s) as [s' [a|e]]; [done|]. by rewrite andb_false_r.
  - destruct (attempt s) as [s' [a|e]] eqn:E.
    { exists O, s. rewrite E. split; [lia|]. split; [constructor|]. split; [done|by right]. }
    destruct (is_retryable_write_conflict e) eqn:Er.
    + destruct (IH (set_metrics (bump_retries (sh_metrics s')) s')) as (n & s1 & Hn & Hc & Hl & Hd).
      exists (Datatypes.S n), s1. split; [lia|]. split; [by econstructor|]. split; [exact Hl|].
      destruct Hd as [->|Hd]; [by left|by right].
    + exists O, s. rewrite E. split; [lia|]. split; [constructor|]. split; [done|by right].
Qed.
End retry.

(** C13: a conflicted write is retried at most thirty-one times and is applied at
    most once.  The retry loop always ends with the outcome of its last attempt;
    every earlier attempt ended in a storage conflict, and an attempt that
    reports a conflict leaves the stored state as its transaction found it.  Only
    the thirty-second attempt's conflict reaches the caller. *)
Theorem retry_applies_once {S : SlateDb} {L : SlateDbLaws S} (m : EdgeMutation) (s : Shard S) :
  (∃ n s1, (n < GRAPH_TXN_MAX_RETRIES)%nat ∧
    conflicts (write_edge_txn m) n s s1 ∧
    txn_retry_loop (write_edge_txn m) GRAPH_TXN_MAX_RETRIES s = settle (write_edge_txn m s1) ∧
    (n = 31%nat ∨ retryable (write_edge_txn m s1).2 = false)) ∧
  (∀ s1 s2 e, write_edge_txn_locked m s1 = (s2, Err e) → is_retryable_write_conflict e = true →
    db_view (sh_db s2) = db_view (sh_db s1) ∨
    db_view (sh_db s2) = db_view (db_begin (sh_db s1)).1).
Proof.
  split.
  - destruct (txn_retry_loop_spec (write_edge_txn m) 31 s) as (n & s1 & Hn & Hc & Hl & Hd).
    exists n, s1. split; [unfold GRAPH_TXN_MAX_RETRIES; lia|]. eauto.
  - intros s1 s2 e He Hr. destruct (sh_writer s1) eqn:Ew.
    + right. pose proof (with_txn_refines _ _ (ref_write_body m [] EdgeMetadata_default "write_edge")
        s1 Ew) as H. cbv zeta in H.
      change (with_txn _ s1) with (write_edge_txn_locked m s1) in H. rewrite He in H.
      destruct H as [[_ H]|(k & -> & [H|[H _]])]; [done|done|]. by rewrite H in Hr.
    + left. unfold write_edge_txn_locked, write_edge_txn_locked_with_metadata, with_txn, writer in He.
      unfold mbind, sm_mbind in He. rewrite Ew in He. by injection He as <- _.
Qed.
