(* ===== verification/ShardMem.v ===== *)
(** Execution of the write transactions on the reference store: which keys each
    step can touch, and what a successful run did. *)

From S2P Require Import Prelude Text TextFacts Errors Model Namespace Keys KeysFacts Codec CodecFacts CodecRecords CodecRecordFacts Kv ShardTxn SegmentReads ShardWrite ShardRefine.
From Stdlib Require Import Ascii.

Local Open Scope N_scope.

(** * Key families

    The third segment of a cell's key names what it stores. *)

Definition family (k : string) : option (string * string) :=
  match split chr_slash k with
  | p :: c :: f :: _ => if bool_decide (p = "cell") then Some (c, f) else None
  | _ => None
  end.

Lemma family_cell c f rest :
  name_ok c → name_ok f → family ("cell/" +:+ c +:+ "/" +:+ f +:+ "/" +:+ rest) = Some (c, f).
Proof.
  intros Hc Hf. unfold family.
  change ("cell/" +:+ c +:+ "/" +:+ f +:+ "/" +:+ rest)
    with ("cell" +:+ String chr_slash (c +:+ String chr_slash (f +:+ String chr_slash rest))).
  by rewrite (split_cons _ "cell"), (split_cons _ c), (split_cons _ f) by done.
Qed.

Lemma family_ne k1 k2 : family k1 ≠ family k2 → k1 ≠ k2.
Proof. congruence. Qed.

Lemma render_eq k1 k2 : key_wf k1 → key_wf k2 → render k1 = render k2 → k1 = k2.
Proof.
  intros H1 H2 E. apply segs_inj; [done..|].
  rewrite <- (split_render k1), <- (split_render k2) by done. by rewrite E.
Qed.
Lemma render_ne k1 k2 : key_wf k1 → key_wf k2 → k1 ≠ k2 → render k1 ≠ render k2.
Proof. intros H1 H2 Hne E. by apply Hne, render_eq. Qed.

(** Keys the adjacency, its counters and its change log live under, and the
    markers of dropped cells, which no edge transaction writes. *)
Definition topo_families : list string := ["e"; "cnt"; "xlog"; "seg"; "meta"].
Definition marker (k : string) : Prop := head (split chr_slash k) = Some "graph".
Definition topo (k : string) : Prop :=
  (∃ c f, family k = Some (c, f) ∧ f ∈ topo_families) ∨ marker k.

Lemma topo_cell c f rest :
  name_ok c → f ∈ topo_families → topo ("cell/" +:+ c +:+ "/" +:+ f +:+ "/" +:+ rest).
Proof.
  intros Hc Hf. left. exists c, f. split; [|done]. apply family_cell; [done|].
  unfold topo_families in Hf. set_unfold in Hf. destruct_or?; subst; done.
Qed.

Lemma not_topo_cell c f rest :
  name_ok c → name_ok f → f ∉ topo_families → ¬ topo ("cell/" +:+ c +:+ "/" +:+ f +:+ "/" +:+ rest).
Proof.
  intros Hc Hf Hn [(c' & f' & E & Hin)|E].
  - rewrite family_cell in E by done. injection E as -> ->. done.
  - unfold marker in E.
    change ("cell/" +:+ c +:+ "/" +:+ f +:+ "/" +:+ rest)
      with ("cell" +:+ String chr_slash (c +:+ String chr_slash (f +:+ String chr_slash rest))) in E.
    by rewrite (split_cons _ "cell") in E.
Qed.

Lemma marker_drop c : marker (keys.cell_drop_marker c) ∧ marker (keys.cell_drop_pending_marker c).
Proof.
  unfold marker, keys.cell_drop_marker, keys.cell_drop_pending_marker.
  change ("graph/drop/cell/" +:+ c) with ("graph" +:+ String chr_slash ("drop/cell/" +:+ c)).
  change ("graph/drop/pending/" +:+ c) with ("graph" +:+ String chr_slash ("drop/pending/" +:+ c)).
  by rewrite !(split_cons _ "graph") by done.
Qed.
Lemma family_topo k c f : family k = Some (c, f) → f ∈ topo_families → topo k.
Proof. intros. left. by exists c, f. Qed.
Lemma family_not_marker k p : family k = Some p → ¬ marker k.
Proof.
  unfold family, marker. destruct (split chr_slash k) as [|a [|b [|d l]]]; try done.
  case_bool_decide; [|done]. intros _ [=]. congruence.
Qed.

(** * Running on the reference store *)

Abbreviation MTx := (Tx Mem).
Definition xview (x : MTx) : gmap string string := mem_view (tx_txn x).
Definition xseq (x : MTx) : N := mem_seq (tx_txn x).

Definition upd (f : gmap string string → gmap string string) (x : MTx) : MTx :=
  MkTx (S := Mem) (tx_shard x) (MkMemDb (f (xview x)) (xseq x)).

Lemma run_put k v (x : MTx) : t_put k v x = (upd <[k := v]> x, Ok tt).
Proof. done. Qed.
Lemma run_delete k (x : MTx) : t_delete k x = (upd (delete k) x, Ok tt).
Proof. done. Qed.
Lemma run_read k (x : MTx) : read_txn_remote k x = (x, Ok (xview x !! k)).
Proof. by destruct x as [sh [v q]]. Qed.
Lemma run_seqnum (x : MTx) : t_seqnum x = (x, Ok (xseq x)).
Proof. done. Qed.

Lemma bind_run {W A B} (m : SM W A) (f : A → SM W B) x x' a :
  m x = (x', Ok a) → (m ≫= f) x = f a x'.
Proof. intros E. unfold mbind, sm_mbind. by rewrite E. Qed.

Lemma bind_inv {W A B} (m : SM W A) (f : A → SM W B) x x' b :
  (m ≫= f) x = (x', Ok b) → ∃ x1 a, m x = (x1, Ok a) ∧ f a x1 = (x', Ok b).
Proof.
  unfold mbind, sm_mbind. destruct (m x) as [x1 [a|e]]; [|done]. eauto.
Qed.

Lemma lift_inv {W A} (r : Result A) (x x' : W) a : lift r x = (x', Ok a) → x' = x ∧ r = Ok a.
Proof. unfold lift. by intros [= -> ->]. Qed.
Lemma mret_inv {W A} (b a : A) (x x' : W) : (mret b : SM W A) x = (x', Ok a) → x' = x ∧ a = b.
Proof. unfold mret, sm_mret. by intros [= -> ->]. Qed.

(** A step that moves nothing but keys outside the adjacency. *)
Definition side_effect {A} (m : SM MTx A) : Prop := ∀ x,
  tx_shard (m x).1 = tx_shard x ∧ xseq (m x).1 = xseq x ∧
  ∀ k, topo k → xview (m x).1 !! k = xview x !! k.

Lemma side_bind {A B} (m : SM MTx A) (f : A → SM MTx B) :
  side_effect m → (∀ x x' a, m x = (x', Ok a) → side_effect (f a)) → side_effect (m ≫= f).
Proof.
  intros Hm Hf x. specialize (Hm x) as (Hs & Hq & Hk).
  destruct (m x) as [x1 [a|e]] eqn:E.
  - rewrite (bind_run _ _ _ _ _ E). destruct (Hf x x1 a E x1) as (Hs' & Hq' & Hk').
    cbn in *. repeat split; [congruence..|]. intros k Ht. by rewrite Hk', Hk.
  - unfold mbind, sm_mbind. rewrite E. done.
Qed.

Lemma side_id {A} (m : SM MTx A) : (∀ x, (m x).1 = x) → side_effect m.
Proof. intros H x. by rewrite H. Qed.

Lemma side_put k v : ¬ topo k → side_effect (t_put k v).
Proof.
  intros Hk x. rewrite run_put. cbn. repeat split. intros k' Hk'.
  apply lookup_insert_ne. naive_solver.
Qed.
Lemma side_delete k : ¬ topo k → side_effect (t_delete k).
Proof.
  intros Hk x. rewrite run_delete. cbn. repeat split. intros k' Hk'.
  apply lookup_delete_ne. naive_solver.
Qed.
Lemma side_for_each {A} (f : A → SM MTx unit) l :
  Forall (λ a, side_effect (f a)) l → side_effect (for_each f l).
Proof.
  induction 1 as [|a l Ha _ IH]; [by apply side_id|]. cbn. apply side_bind; [done|]. auto.
Qed.

(** ** What successful steps tell *)

Lemma fence_inv c op (x x' : MTx) u :
  validate_write_fence_txn c op x = (x', Ok u) → x' = x.
Proof.
  intros (x1 & a & E1 & E2)%bind_inv.
  assert (x1 = x) as ->.
  { case_bool_decide; [by apply mret_inv in E1 as [-> _]|].
    rewrite (bind_run _ _ _ _ _ (run_read _ _)) in E1. apply bind_inv in E1 as (x2 & p & E3 & E4).
    assert (x2 = x) as ->.
    { destruct (xview x !! _); [by apply mret_inv in E3 as [-> _]|]. rewrite run_read in E3. by injection E3. }
    destruct p; [done|]. by apply mret_inv in E4 as [-> _]. }
  unfold on_shard in E2. destruct (ensure_write_authority c op (tx_shard x)) as [s r] eqn:E.
  assert (s = tx_shard x) as ->.
  { unfold ensure_write_authority, gets, mbind, sm_mbind, writer, fails in E.
    destruct (sh_authority (tx_shard x)), (sh_writer (tx_shard x)); by inversion E. }
  injection E2 as <- _. by destruct x.
Qed.

Lemma counter_run k (x : MTx) :
  read_counter_txn k x =
    (x, match xview x !! k with Some v => decode_u64 k v | None => Ok 0 end).
Proof.
  unfold read_counter_txn. rewrite (bind_run _ _ _ _ _ (run_read _ _)). by destruct (xview x !! k).
Qed.

Lemma edge_metadata_run k (x : MTx) :
  read_edge_metadata k x =
    (x, match xview x !! k with
        | Some v => decode_edge_metadata k v | None => Ok EdgeMetadata_default end).
Proof.
  unfold read_edge_metadata. rewrite (bind_run _ _ _ _ _ (run_read _ _)). by destruct (xview x !! k).
Qed.

Lemma commit_run (x : MTx) x' u :
  commit_txn_traced x = (x', Ok u) →
  checked_add (xseq x) 1 = Some (xseq x + 1) ∧
  x' = MkTx (S := Mem) (set_db (S := Mem) (MkMemDb (xview x) (xseq x + 1)) (tx_shard x)) (tx_txn x).
Proof.
  unfold commit_txn_traced, commit_txn_strict, commit_txn_strict_with_sequence, gets, mbind, sm_mbind.
  cbn. fold (xseq x). destruct (checked_add (xseq x) 1) as [q|] eqn:E; [|done].
  apply checked_add_some in E as E'. destruct E' as [-> _]. cbn. intros [= <- _]. done.
Qed.

(** The change log write of a single change. *)
Definition floor_view (ensured : gset string) (c t : string) (q : N) (v : gmap string string) :
  gmap string string :=
  if bool_decide (floor_token c t ∈ ensured) then v
  else match v !! keys.xlog_low_water c t with
       | Some _ => v
       | None => <[keys.xlog_low_water c t := encode_u64 q]> v
       end.
Definition marked_view (ensured : gset string) (c t : string) (q s d : N) (b : bool)
  (v : gmap string string) : gmap string string :=
  <[keys.xlog_entry c t q s d := xlog_value b]>
    (floor_view ensured c t q
      (<[keys.adjacency_generation c t := encode_u64 q]>
        (<[keys.matrix_dirty c t := encode_u64 q]> v))).
(** The floor cache after it: only a floor seen in storage is added. *)
Definition marked_floor (ensured : gset string) (c t : string) (v : gmap string string) : gset string :=
  match v !! keys.xlog_low_water c t with
  | Some _ => {[floor_token c t]} ∪ ensured
  | None => ensured
  end.

Lemma set_floor_same (s : Shard Mem) : set_floor (sh_floor s) s = s.
Proof. by destruct s. Qed.

Lemma floor_run c t q (x : MTx) :
  ensure_xlog_floor c t q x =
    (upd (floor_view (sh_floor (tx_shard x)) c t q)
      (MkTx (set_floor (if bool_decide (floor_token c t ∈ sh_floor (tx_shard x))
                        then sh_floor (tx_shard x)
                        else marked_floor (sh_floor (tx_shard x)) c t (xview x)) (tx_shard x))
         (tx_txn x)), Ok tt).
Proof.
  destruct x as [sh [v n]]. unfold ensure_xlog_floor, floor_view, marked_floor, gets.
  unfold mbind at 1, sm_mbind at 1. cbn [tx_shard tx_txn]. case_bool_decide as Hin.
  { unfold upd, mret, sm_mret, xview, xseq. cbn [tx_shard tx_txn mem_view mem_seq].
    by rewrite set_floor_same. }
  rewrite (bind_run _ _ _ _ _ (run_read _ _)). unfold xview. cbn [tx_shard tx_txn mem_view].
  unfold upd, xview, xseq. cbn [tx_shard tx_txn mem_view mem_seq].
  destruct (v !! keys.xlog_low_water c t) as [w|] eqn:E.
  - done.
  - rewrite run_put, set_floor_same. done.
Qed.

Lemma mark_run c t q s d b (x : MTx) :
  ∃ fl, mark_topology_change_txn c t q [(s, d, b)] x =
    (upd (marked_view (sh_floor (tx_shard x)) c t q s d b)
       (MkTx (set_floor fl (tx_shard x)) (tx_txn x)), Ok tt) ∧
    (fl = sh_floor (tx_shard x) ∨
     fl = marked_floor (sh_floor (tx_shard x)) c t
       (<[keys.adjacency_generation c t := encode_u64 q]>
         (<[keys.matrix_dirty c t := encode_u64 q]> (xview x)))).
Proof.
  unfold mark_topology_change_txn, marked_view.
  rewrite (bind_run _ _ _ _ _ (run_put _ _ _)), (bind_run _ _ _ _ _ (run_put _ _ _)).
  rewrite (bind_run _ _ _ _ _ (floor_run _ _ _ _)).
  unfold for_each. rewrite (bind_run _ _ _ _ _ (run_put _ _ _)).
  unfold mret, sm_mret, upd, xview, xseq. cbn [tx_shard tx_txn mem_view mem_seq].
  case_bool_decide; eauto.
Qed.

(** ** Attachments are off the adjacency *)

Lemma relationship_key_cell key r :
  parse_relationship_record_key key = Ok r → name_ok (rr_cell_id r).
Proof.
  unfold parse_relationship_record_key, corrupt. intros H.
  destruct (split chr_slash key) as [|p0 [|c [|p2 [|t [|s [|d [|rid [|]]]]]]]]; try done.
  destruct (lit p0 "cell" && lit p2 "rel"); [|done]. res_inv.
  match goal with
  | E : validate_component "cell_id" c = Ok ?u |- _ => destruct u; apply validate_component_ok in E
  end. by apply component_ok_slash.
Qed.

Lemma relationship_record_cell key value r :
  decode_relationship_record key value = Ok r → name_ok (rr_cell_id r).
Proof.
  unfold decode_relationship_record, corrupt. intros H. res_inv.
  destruct (lines x) as [|l ls]; [done|]. case_bool_decide; [|done]. res_inv.
  apply (foldM_ind (λ r, name_ok (rr_cell_id r))) in H; [done|by eapply relationship_key_cell|].
  clear H. intros acc a acc' _ Hacc H.
  destruct (split chr_tab a) as [|k [|n [|e [|]]]]; try done. case_bool_decide; [|done].
  by res_inv.
Qed.

Ltac not_topo_in f :=
  apply (not_topo_cell _ f); [assumption|reflexivity|unfold topo_families; set_solver].
Ltac not_topo :=
  first [ not_topo_in "rel" | not_topo_in "rel_id" | not_topo_in "rel_count" | not_topo_in "rprop_idx"
        | not_topo_in "eprop_idx" | not_topo_in "emeta" | not_topo_in "idem" | not_topo_in "edge" ].

Lemma side_delete_record r : name_ok (rr_cell_id r) → side_effect (delete_relationship_record_txn r).
Proof.
  intros Hc. unfold delete_relationship_record_txn, delete_relationship_property_indexes_txn.
  repeat (apply side_bind; [apply side_delete; not_topo|intros _ _ _ _]).
  apply side_for_each, Forall_forall. intros p _. apply side_delete; not_topo.
Qed.

Lemma scan_id {B} p (f : B → string * string → Result (Flow B)) acc (x : MTx) :
  (t_scan p f acc x).1 = x.
Proof. done. Qed.

Lemma scan_loop_ind {B} (P : B → Prop) (f : B → string * string → Result (Flow B)) acc items b :
  P acc →
  (∀ acc kv r, P acc → f acc kv = Ok r → match r with Continue acc' | Break acc' => P acc' end) →
  scan_loop f acc items = Ok b → P b.
Proof.
  intros Hacc Hf. revert acc Hacc. induction items as [|[kv|e] items IH]; intros acc Hacc; cbn;
    [by intros [= <-]| |done].
  destruct (f acc kv) as [[acc'|acc']|e] eqn:E; [|intros [= <-]|done].
  - apply IH. by apply (Hf acc kv (Continue acc')).
  - by apply (Hf acc kv (Break acc')).
Qed.

Lemma side_relationships m q :
  name_ok (em_cell_id m) → side_effect (delete_relationships_for_structural_edge_txn m q).
Proof.
  intros Hc. unfold delete_relationships_for_structural_edge_txn.
  apply side_bind; [by apply side_id|]. intros x x' records E.
  apply side_bind.
  - apply side_for_each. unfold live_relationships_for_edge_txn, t_scan in E. injection E as _ E.
    revert E. apply scan_loop_ind; [constructor|]. unfold relationship_step. intros acc kv r Hacc H.
    res_inv. apply Forall_app. split; [done|]. constructor; [|constructor].
    apply side_delete_record. by eapply relationship_record_cell.
  - intros _ _ _ _. apply side_bind; [apply side_delete; not_topo|intros _ _ _ _]. by apply side_id.
Qed.

Lemma side_apply_edge target previous next q :
  name_ok (tg_cell_id target) → side_effect (apply_edge_metadata_update_txn target previous next q).
Proof.
  intros Hc. unfold apply_edge_metadata_update_txn, delete_edge_metadata_indexes_txn,
    put_edge_metadata_indexes_txn, edge_metadata_key.
  apply side_bind; [by apply side_id|intros _ _ _ _].
  apply side_bind; [|intros _ _ _ _].
  { apply side_for_each, Forall_forall. intros p _. apply side_delete. unfold edge_property_index_key. not_topo. }
  case_bool_decide; [apply side_delete; not_topo|].
  apply side_bind; [apply side_put; not_topo|intros _ _ _ _].
  apply side_for_each, Forall_forall. intros p _. apply side_put. unfold edge_property_index_key. not_topo.
Qed.

Lemma side_clear m p q q' :
  name_ok (em_cell_id m) → side_effect (clear_edge_attachments_txn m p q q').
Proof.
  intros Hc. unfold clear_edge_attachments_txn.
  apply side_bind; [by apply side_relationships|intros _ _ _ _].
  case_bool_decide; [by apply side_id|]. by apply side_apply_edge.
Qed.

Lemma side_vertex_metadata c v p n q :
  name_ok c → side_effect (apply_vertex_metadata_update_txn c v p n q).
Proof.
  intros Hc. unfold apply_vertex_metadata_update_txn, delete_vertex_metadata_indexes_txn,
    put_vertex_metadata_indexes_txn.
  apply side_bind; [by apply side_id|intros _ _ _ _].
  apply side_bind; [|intros _ _ _ _].
  { apply side_bind; [|intros _ _ _ _]; apply side_for_each, Forall_forall; intros a _;
      apply side_delete; first [not_topo_in "vlabel"|not_topo_in "vprop_idx"]. }
  case_match; [apply side_delete; not_topo_in "vertex"|].
  apply side_bind; [apply side_put; not_topo_in "vertex"|intros _ _ _ _].
  apply side_bind; [|intros _ _ _ _]; apply side_for_each, Forall_forall; intros a _;
    apply side_put; first [not_topo_in "vlabel"|not_topo_in "vprop_idx"].
Qed.

Lemma dirty_form c t :
  keys.matrix_dirty c t = "cell/" +:+ c +:+ "/" +:+ "meta" +:+ "/" +:+ "matrix_dirty/" +:+ t.
Proof. unfold keys.matrix_dirty, keys.matrix_dirty_prefix. rewrite !app_assoc. reflexivity. Qed.

Ltac topo_in f :=
  apply (topo_cell _ f); [assumption|unfold topo_families; set_solver].
Ltac topo_key :=
  unfold out_edge_key, in_edge_key, out_degree_key, in_degree_key; rewrite ?dirty_form;
  first [ topo_in "e" | topo_in "cnt" | topo_in "xlog" | topo_in "meta" | topo_in "seg" ].

(** * Telling keys apart *)

Ltac reify_key k :=
  lazymatch k with
  | keys.cell_drop_marker ?c => constr:(KCellDropMarker c)
  | keys.cell_drop_pending_marker ?c => constr:(KCellDropPending c)
  | keys.matrix_dirty ?c ?t => constr:(KMatrixDirty c t)
  | keys.adjacency_generation ?c ?t => constr:(KAdjacencyGeneration c t)
  | keys.xlog_entry ?c ?t ?q ?s ?d => constr:(KXlogEntry c t q s d)
  | keys.xlog_low_water ?c ?t => constr:(KXlogLowWater c t)
  | keys.idempotency ?c ?op ?i => constr:(KIdempotency c op i)
  | keys.edge ?c ?t ?s ?d => constr:(KEdge c t s d)
  | keys.out_edge ?c ?t ?s ?d => constr:(KOutEdge c t s d)
  | keys.in_edge ?c ?t ?d ?s => constr:(KInEdge c t d s)
  | keys.out_segment ?c ?t ?s ?q ?i => constr:(KOutSegment c t s q i)
  | keys.out_segment_tombstone ?c ?t ?s ?d => constr:(KOutSegmentTombstone c t s d)
  | keys.edge_metadata ?c ?t ?s ?d => constr:(KEdgeMetadata c t s d)
  | keys.degree_out ?c ?t ?s => constr:(KDegreeOut c t s)
  | keys.degree_in ?c ?t ?s => constr:(KDegreeIn c t s)
  | keys.vertex ?c ?v => constr:(KVertex c v)
  end.

Ltac key_ne :=
  unfold out_edge_key, in_edge_key, canonical_edge_key, out_degree_key, in_degree_key in *;
  lazymatch goal with
  | |- ?a ≠ ?b =>
      let ka := reify_key a in let kb := reify_key b in
      change (render ka ≠ render kb); apply render_ne;
      [cbn; unfold name_ok; solve [auto 10 with hydra]|
       cbn; unfold name_ok; solve [auto 10 with hydra]|
       first [discriminate | congruence | let E := fresh in intros E; injection E; intros; subst; naive_solver]]
  end.
Ltac key_look :=
  repeat first [ rewrite lookup_insert_eq | rewrite lookup_delete_eq
               | rewrite lookup_insert_ne by key_ne | rewrite lookup_delete_ne by key_ne ].

(** * What a committed edge transaction did *)

Definition counter_is (v : gmap string string) (k : string) (n : N) : Prop :=
  match v !! k with Some val => decode_u64 k val = Ok n | None => n = 0 end.

Definition changed_keys (m : EdgeMutation) (q : N) : list string :=
  [out_edge_key m; in_edge_key m; out_degree_key m; in_degree_key m;
   keys.xlog_entry (em_cell_id m) (em_edge_type m) q (em_src m) (em_dst m);
   keys.matrix_dirty (em_cell_id m) (em_edge_type m);
   keys.adjacency_generation (em_cell_id m) (em_edge_type m);
   keys.xlog_low_water (em_cell_id m) (em_edge_type m)].

(** The edge exists afterwards iff [b]; everything the adjacency keeps about it
    moved together, and nothing else of the adjacency moved. *)
Record edge_effect (m : EdgeMutation) (b : bool) (ensured : gset string)
  (v : gmap string string) (q : N) (v' : gmap string string) : Prop := {
  ee_seq : u64_ok (q + 1);
  ee_out : v' !! out_edge_key m = if b then Some edge_record_value else None;
  ee_in : v' !! in_edge_key m = if b then Some edge_record_value else None;
  ee_out_degree : ∃ n, counter_is v (out_degree_key m) n ∧
    v' !! out_degree_key m = Some (encode_u64 (if b then wrapping_add n 1 else saturating_sub n 1));
  ee_in_degree : ∃ n, counter_is v (in_degree_key m) n ∧
    v' !! in_degree_key m = Some (encode_u64 (if b then wrapping_add n 1 else saturating_sub n 1));
  ee_log : v' !! keys.xlog_entry (em_cell_id m) (em_edge_type m) (q + 1) (em_src m) (em_dst m)
    = Some (xlog_value b);
  ee_low : v' !! keys.xlog_low_water (em_cell_id m) (em_edge_type m) =
    floor_view ensured (em_cell_id m) (em_edge_type m) (q + 1) v
      !! keys.xlog_low_water (em_cell_id m) (em_edge_type m);
  ee_generation : v' !! keys.adjacency_generation (em_cell_id m) (em_edge_type m)
    = Some (encode_u64 (q + 1)) ∧
    v' !! keys.matrix_dirty (em_cell_id m) (em_edge_type m) = Some (encode_u64 (q + 1));
  ee_rest : ∀ k, topo k → k ∉ changed_keys m (q + 1) → v' !! k = v !! k;
}.

(** A transaction that left the adjacency alone. *)
Definition quiet (v v' : gmap string string) : Prop := ∀ k, topo k → v' !! k = v !! k.

Lemma counter_of k (v : gmap string string) n :
  (match v !! k with Some val => decode_u64 k val | None => Ok 0 end) = Ok n → counter_is v k n.
Proof. unfold counter_is. destruct (v !! k); [done|]. by intros [= <-]. Qed.

Lemma counter_is_ext v v' k n : v !! k = v' !! k → counter_is v k n → counter_is v' k n.
Proof. unfold counter_is. by intros ->. Qed.

(** The floor cache gains at most the pair, and only when its floor is stored. *)
Definition floor_step (c t : string) (v : gmap string string) (fl fl' : gset string) : Prop :=
  fl' = fl ∨ is_Some (v !! keys.xlog_low_water c t) ∧ fl' = {[floor_token c t]} ∪ fl.

Lemma mutation_cell m : mutation_ok m → component_ok (em_cell_id m) = true.
Proof. by intros (? & ? & ? & ?). Qed.
Lemma mutation_type m : mutation_ok m → component_ok (em_edge_type m) = true.
Proof. by intros (? & ? & ? & ?). Qed.
Lemma mutation_src m : mutation_ok m → u64_ok (em_src m).
Proof. by intros (? & ? & ? & ?). Qed.
Lemma mutation_dst m : mutation_ok m → u64_ok (em_dst m).
Proof. by intros (? & ? & ? & ?). Qed.
#[export] Hint Resolve mutation_cell mutation_type mutation_src mutation_dst : hydra.

Section effects.
Context (m : EdgeMutation) (Hm : mutation_ok m).


Lemma cell_name : name_ok (em_cell_id m).
Proof. by apply component_ok_slash, mutation_cell. Qed.

Lemma mark_inv q b (x x' : MTx) u :
  mark_topology_change_txn (em_cell_id m) (em_edge_type m) q [(em_src m, em_dst m, b)] x = (x', Ok u) →
  ∃ fl, floor_step (em_cell_id m) (em_edge_type m) (xview x) (sh_floor (tx_shard x)) fl ∧
  x' = upd (marked_view (sh_floor (tx_shard x)) (em_cell_id m) (em_edge_type m) q (em_src m) (em_dst m) b)
       (MkTx (set_floor fl (tx_shard x)) (tx_txn x)).
Proof.
  destruct (mark_run (em_cell_id m) (em_edge_type m) q (em_src m) (em_dst m) b x) as (fl & -> & Hfl).
  intros [= <- _]. exists fl. split; [|done]. destruct Hfl as [->| ->]; [by left|].
  unfold marked_floor, floor_step. key_look.
  destruct (xview x !! keys.xlog_low_water _ _); [right|left]; eauto.
Qed.

(** Lookups in the view after the change-log write. *)
Lemma marked_lookup fl q b v k :
  u64_ok q →
  k ≠ keys.xlog_entry (em_cell_id m) (em_edge_type m) q (em_src m) (em_dst m) →
  k ≠ keys.matrix_dirty (em_cell_id m) (em_edge_type m) →
  k ≠ keys.adjacency_generation (em_cell_id m) (em_edge_type m) →
  k ≠ keys.xlog_low_water (em_cell_id m) (em_edge_type m) →
  marked_view fl (em_cell_id m) (em_edge_type m) q (em_src m) (em_dst m) b v !! k = v !! k.
Proof.
  intros Hq H1 H2 H3 H4. unfold marked_view, floor_view. rewrite lookup_insert_ne by done.
  case_bool_decide; [by rewrite !lookup_insert_ne by done|].
  destruct (_ !! keys.xlog_low_water _ _); by rewrite !lookup_insert_ne by done.
Qed.

Lemma marked_log fl q b v :
  marked_view fl (em_cell_id m) (em_edge_type m) q (em_src m) (em_dst m) b v
    !! keys.xlog_entry (em_cell_id m) (em_edge_type m) q (em_src m) (em_dst m) = Some (xlog_value b).
Proof. unfold marked_view. apply lookup_insert_eq. Qed.

Lemma marked_low fl q b v :
  u64_ok q →
  marked_view fl (em_cell_id m) (em_edge_type m) q (em_src m) (em_dst m) b v
    !! keys.xlog_low_water (em_cell_id m) (em_edge_type m) =
  floor_view fl (em_cell_id m) (em_edge_type m) q v
    !! keys.xlog_low_water (em_cell_id m) (em_edge_type m).
Proof.
  intros Hq. unfold marked_view, floor_view. key_look. case_bool_decide; key_look; [done|].
  destruct (v !! keys.xlog_low_water _ _) eqn:E; key_look; [by rewrite E|done].
Qed.

Lemma marked_generation fl q b v :
  u64_ok q →
  marked_view fl (em_cell_id m) (em_edge_type m) q (em_src m) (em_dst m) b v
    !! keys.adjacency_generation (em_cell_id m) (em_edge_type m) = Some (encode_u64 q) ∧
  marked_view fl (em_cell_id m) (em_edge_type m) q (em_src m) (em_dst m) b v
    !! keys.matrix_dirty (em_cell_id m) (em_edge_type m) = Some (encode_u64 q).
Proof.
  intros Hq. unfold marked_view, floor_view. key_look.
  case_bool_decide; key_look; [done|]. destruct (v !! keys.xlog_low_water _ _); key_look; done.
Qed.

(** The record writes of an insertion, and of a deletion. *)
Definition put_records (n1 n2 : N) (v : gmap string string) : gmap string string :=
  <[in_degree_key m := encode_u64 (wrapping_add n2 1)]>
    (<[out_degree_key m := encode_u64 (wrapping_add n1 1)]>
      (<[in_edge_key m := edge_record_value]> (<[out_edge_key m := edge_record_value]> v))).
Definition drop_records (n1 n2 : N) (v : gmap string string) : gmap string string :=
  <[in_degree_key m := encode_u64 (saturating_sub n2 1)]>
    (<[out_degree_key m := encode_u64 (saturating_sub n1 1)]>
      (delete (in_edge_key m) (delete (out_edge_key m) (delete (canonical_edge_key m) v)))).

Lemma insert_inv q (x x' : MTx) u :
  u64_ok q → sh_policy (tx_shard x) = Full →
  insert_edge_records_txn m q x = (x', Ok u) →
  ∃ fl n1 n2, floor_step (em_cell_id m) (em_edge_type m) (xview x) (sh_floor (tx_shard x)) fl ∧
    counter_is (xview x) (out_degree_key m) n1 ∧ counter_is (xview x) (in_degree_key m) n2 ∧
    x' = upd (λ v, put_records n1 n2 (marked_view (sh_floor (tx_shard x)) (em_cell_id m)
           (em_edge_type m) q (em_src m) (em_dst m) true v))
         (MkTx (set_floor fl (tx_shard x)) (tx_txn x)).
Proof.
  intros Hq Hpol (x1 & [] & (fl & Hfl & ->)%mark_inv & H)%bind_inv.
  exists fl. apply bind_inv in H as (x2 & n1 & E1 & H). rewrite counter_run in E1.
  injection E1 as <- E1. apply counter_of in E1.
  apply bind_inv in H as (x3 & b & E2 & H). unfold gets, writes_reverse_index in E2.
  cbn [tx_shard upd] in E2.
  replace (sh_policy (set_floor fl (tx_shard x))) with Full in E2 by (by rewrite <- Hpol).
  injection E2 as <- <-. cbn iota in H.
  apply bind_inv in H as (x4 & on & E3 & H). apply bind_inv in E3 as (x5 & n2 & E3 & E4).
  rewrite counter_run in E3. injection E3 as <- E3. apply counter_of in E3.
  apply mret_inv in E4 as [-> ->].
  repeat rewrite (bind_run _ _ _ _ _ (run_put _ _ _)) in H. rewrite run_put in H.
  injection H as <- _. exists n1, n2. split; [done|].
  split; [|split; [|reflexivity]].
  - eapply counter_is_ext; [|exact E1]. apply marked_lookup; done || key_ne.
  - eapply counter_is_ext; [|exact E3]. apply marked_lookup; done || key_ne.
Qed.

Lemma idem_not_topo op i : ¬ topo (keys.idempotency (em_cell_id m) op i).
Proof. pose proof cell_name. not_topo. Qed.

Lemma changed_topo q k : k ∈ changed_keys m q → topo k.
Proof.
  pose proof cell_name. unfold changed_keys. rewrite !elem_of_cons, elem_of_nil.
  intros [->|[->|[->|[->|[->|[->|[->|[->|[]]]]]]]]]; topo_key.
Qed.

Lemma canonical_not_topo : ¬ topo (canonical_edge_key m).
Proof. pose proof cell_name. unfold canonical_edge_key. not_topo. Qed.

Lemma put_effect fl q n1 n2 v w op i val :
  u64_ok (q + 1) → quiet v w →
  counter_is w (out_degree_key m) n1 → counter_is w (in_degree_key m) n2 →
  edge_effect m true fl v q
    (<[keys.idempotency (em_cell_id m) op i := val]>
      (put_records n1 n2 (marked_view fl (em_cell_id m) (em_edge_type m) (q + 1) (em_src m) (em_dst m)
         true w))).
Proof.
  intros Hq Hw H1 H2. pose proof cell_name as Hn.
  assert (∀ k n, k ∈ changed_keys m (q + 1) → counter_is w k n → counter_is v k n) as Hc.
  { intros k n Hk. apply counter_is_ext. by apply Hw, (changed_topo (q + 1)). }
  assert (∀ k, k ∈ changed_keys m (q + 1) → keys.idempotency (em_cell_id m) op i ≠ k) as Hi.
  { intros k Hk <-. by apply (idem_not_topo op i), (changed_topo (q + 1)). }
  unfold put_records. split; try done.
  all: try (rewrite lookup_insert_ne by (apply Hi; unfold changed_keys; set_solver)).
  1-2: key_look; done.
  1-2: eexists; split; [apply Hc; [unfold changed_keys; set_solver|eassumption]|key_look; done].
  - key_look. apply marked_log.
  - key_look. rewrite marked_low by done. unfold floor_view. case_bool_decide.
    + apply Hw. topo_key.
    + rewrite (Hw (keys.xlog_low_water _ _)) by topo_key.
      destruct (v !! keys.xlog_low_water _ _) eqn:E; [|by rewrite !lookup_insert_eq].
      rewrite Hw by topo_key. done.
  - split; rewrite ?lookup_insert_ne by (apply Hi; unfold changed_keys; set_solver);
      key_look; by apply marked_generation.
  - intros k Hk Hnot. unfold changed_keys in Hnot.
    rewrite !not_elem_of_cons in Hnot. destruct_and!.
    rewrite lookup_insert_ne by (intros <-; by apply (idem_not_topo op i)).
    rewrite !lookup_insert_ne by done. rewrite marked_lookup by done. by apply Hw.
Qed.

Lemma drop_effect fl q n1 n2 v w op i val :
  u64_ok (q + 1) →
  quiet (marked_view fl (em_cell_id m) (em_edge_type m) (q + 1) (em_src m) (em_dst m) false v) w →
  counter_is v (out_degree_key m) n1 → counter_is v (in_degree_key m) n2 →
  edge_effect m false fl v q
    (<[keys.idempotency (em_cell_id m) op i := val]> (drop_records n1 n2 w)).
Proof.
  intros Hq Hw H1 H2. pose proof cell_name as Hn.
  assert (∀ k, k ∈ changed_keys m (q + 1) → keys.idempotency (em_cell_id m) op i ≠ k) as Hi.
  { intros k Hk <-. by apply (idem_not_topo op i), (changed_topo (q + 1)). }
  unfold drop_records. split; try done.
  all: try (rewrite lookup_insert_ne by (apply Hi; unfold changed_keys; set_solver)).
  1-2: key_look; done.
  1-2: eexists; split; [eassumption|key_look; done].
  - key_look. rewrite Hw by topo_key. apply marked_log.
  - key_look. rewrite Hw by topo_key. by apply marked_low.
  - split; rewrite ?lookup_insert_ne by (apply Hi; unfold changed_keys; set_solver);
      key_look; rewrite Hw by topo_key; by apply marked_generation.
  - intros k Hk Hnot. unfold changed_keys in Hnot.
    rewrite !not_elem_of_cons in Hnot. destruct_and!.
    rewrite lookup_insert_ne by (intros <-; by apply (idem_not_topo op i)).
    rewrite !lookup_insert_ne by done. rewrite !lookup_delete_ne by
      first [done | intros <-; by apply canonical_not_topo].
    rewrite Hw by done. by apply marked_lookup.
Qed.

(** ** Cells without segments *)

Definition no_segments (c : string) (v : gmap string string) : Prop :=
  ∀ k, family k = Some (c, "seg") → v !! k = None.

Lemma no_segments_quiet c v v' : no_segments c v → quiet v v' → no_segments c v'.
Proof.
  intros Hs Hq k Hk. rewrite Hq; [by apply Hs|].
  eapply family_topo; [done|]. unfold topo_families. set_solver.
Qed.

Lemma view_scan_nil v p lo hi :
  (∀ suffix, v !! (p +:+ suffix) = None) → view_scan v p lo hi = [].
Proof.
  intros H. unfold view_scan. apply elem_of_nil_inv.
  intros [k val] (Hin & Hk%elem_of_btree_iter)%list_elem_of_filter. revert Hin. unfold in_scan. cbn. destruct (strip_prefix p k) as [suffix|] eqn:E; [|done].
  apply strip_prefix_Some in E. subst. by rewrite H in Hk.
Qed.

Lemma no_segment_entries c t s v :
  name_ok c → no_segments c v →
  view_scan v (keys.out_segment_tombstone_src_prefix c t s) None None = [] ∧
  view_scan v (keys.out_segment_src_prefix c t s) None None = [].
Proof.
  intros Hc Hs. split; apply view_scan_nil; intros suffix; apply Hs.
  - unfold keys.out_segment_tombstone_src_prefix. rewrite !app_assoc.
    exact (family_cell c "seg" ("tomb/out/" +:+ t +:+ "/" +:+ pad20 s +:+ "/" +:+ suffix) Hc eq_refl).
  - unfold keys.out_segment_src_prefix. rewrite !app_assoc.
    exact (family_cell c "seg" ("out/" +:+ t +:+ "/" +:+ pad20 s +:+ "/" +:+ suffix) Hc eq_refl).
Qed.

Lemma edge_epoch_inv q (x x' : MTx) o :
  no_segments (em_cell_id m) (xview x) →
  edge_epoch_at_txn (em_cell_id m) (em_edge_type m) (em_src m) (em_dst m) q x = (x', Ok o) →
  x' = x ∧ match xview x !! out_edge_key m with
           | Some val => val = edge_record_value ∧ o = Some q
           | None => o = None end.
Proof.
  intros Hs. unfold edge_epoch_at_txn. rewrite (bind_run _ _ _ _ _ (run_read _ _)).
  change (keys.out_edge (em_cell_id m) (em_edge_type m) (em_src m) (em_dst m)) with (out_edge_key m).
  destruct (xview x !! out_edge_key m) as [val|].
  - intros (x1 & r & [-> Hd]%lift_inv & [-> ->]%mret_inv)%bind_inv. split; [done|].
    unfold decode_edge_record in Hd. case_bool_decide; [done|discriminate].
  - unfold out_segment_edges_for_src_txn, t_scan. cbn [txn_scan_prefix Mem].
    destruct (no_segment_entries (em_cell_id m) (em_edge_type m) (em_src m) (xview x) cell_name Hs)
      as [E1 E2]. unfold xview in E1, E2. unfold mbind, sm_mbind. rewrite E1. cbn [fmap list_fmap scan_loop].
    rewrite E2. cbn [fmap list_fmap scan_loop]. intros [= <- <-]. by rewrite lookup_empty.
Qed.

Lemma changed_metadata_inv c ups (x x' : MTx) r :
  changed_vertex_metadata c ups x = (x', Ok r) → x' = x.
Proof.
  revert r; induction ups as [|[vid req] ups IH]; intros r; cbn [changed_vertex_metadata].
  { by intros [-> _]%mret_inv. }
  intros (x1 & p & E1 & (x2 & l & E2 & [-> _]%mret_inv)%bind_inv)%bind_inv.
  unfold read_vertex_metadata in E1. rewrite (bind_run _ _ _ _ _ (run_read _ _)) in E1.
  assert (x1 = x) as ->.
  { destruct (xview x !! _); [by apply lift_inv in E1 as [-> _]|by apply mret_inv in E1 as [-> _]]. }
  by eapply IH.
Qed.

(** ** Whole bodies *)

Lemma finish_inv {A} k val (r r' : A) (x x' : MTx) :
  (t_put k val ;; commit_txn_traced ;; mret r) x = (x', Ok r') →
  r' = r ∧ u64_ok (xseq x + 1) ∧
  tx_shard x' = set_db (S := Mem) (MkMemDb (<[k := val]> (xview x)) (xseq x + 1)) (tx_shard x).
Proof.
  rewrite (bind_run _ _ _ _ _ (run_put _ _ _)).
  intros (x1 & u & [Hq ->]%commit_run & [-> ->]%mret_inv)%bind_inv.
  apply checked_add_some in Hq as [_ Hq]. done.
Qed.

Lemma side_inv {A} (n : SM MTx A) (x x' : MTx) a :
  side_effect n → n x = (x', Ok a) →
  tx_shard x' = tx_shard x ∧ xseq x' = xseq x ∧ quiet (xview x) (xview x').
Proof. intros H E. specialize (H x). by rewrite E in H. Qed.

Definition create_key : string := keys.idempotency (em_cell_id m) "create" (em_idempotency_key m).
Definition delete_key : string := keys.idempotency (em_cell_id m) "delete" (em_idempotency_key m).

(** A successful run of a body on [x]: nothing, or one commit at the next
    sequence with what it stored. *)
Definition committed (x x' : MTx) (v' : gmap string string) (fl' : gset string) : Prop :=
  u64_ok (xseq x + 1) ∧
  tx_shard x' = set_db (S := Mem) (MkMemDb v' (xseq x + 1)) (set_floor fl' (tx_shard x)).

Lemma quiet_idem v w op val :
  quiet v w → quiet v (<[keys.idempotency (em_cell_id m) op (em_idempotency_key m) := val]> w).
Proof.
  intros Hq k Hk. rewrite lookup_insert_ne; [by apply Hq|].
  intros <-. by eapply idem_not_topo.
Qed.

Lemma write_body_inv ups em op (x x' : MTx) r :
  sh_policy (tx_shard x) = Full → no_segments (em_cell_id m) (xview x) →
  write_edge_body m ups em op x = (x', Ok r) →
  (x' = x ∧ ∃ val, xview x !! create_key = Some val ∧
     decode_commit_idempotency create_key m val = Ok r) ∨
  ∃ v' fl', committed x x' v' fl' ∧ xview x !! create_key = None ∧
    v' !! create_key = Some (encode_commit_idempotency m r) ∧ u64_ok (cr_epoch r) ∧
    (xview x !! out_edge_key m = Some edge_record_value ∧ quiet (xview x) v' ∧
       fl' = sh_floor (tx_shard x) ∧ cr_already_existed r = true ∨
     xview x !! out_edge_key m = None ∧ r = MkCommitResult (xseq x + 1) false ∧
       edge_effect m true (sh_floor (tx_shard x)) (xview x) (xseq x) v' ∧
       floor_step (em_cell_id m) (em_edge_type m) (xview x) (sh_floor (tx_shard x)) fl').
Proof.
  intros Hpol Hseg (x1 & [] & ->%fence_inv & H)%bind_inv. cbv zeta in H. fold create_key in H.
  rewrite (bind_run _ _ _ _ _ (run_read _ _)) in H.
  destruct (xview x !! create_key) as [val|] eqn:Ei.
  { apply lift_inv in H as [-> H]. left. eauto. }
  right. rewrite (bind_run _ _ _ _ _ (run_seqnum _)) in H.
  apply bind_inv in H as (x1 & o & [-> Ho]%(edge_epoch_inv _ _ _ _ Hseg) & H).
  apply bind_inv in H as (x1 & ch & ->%changed_metadata_inv & H).
  apply bind_inv in H as (x1 & prev & E & H). rewrite edge_metadata_run in E. injection E as <- _.
  assert (∀ epoch (k : SM MTx CommitResult), (* the edge exists, or its records are written *)
    (for_each (λ c, apply_vertex_metadata_update_txn (em_cell_id m) c.1.1 c.1.2 c.2 epoch) ch ;;
     (if negb (bool_decide (prev = merge_edge_metadata prev em))
      then apply_edge_metadata_update_txn (target_of m) prev (merge_edge_metadata prev em) epoch
      else mret tt) ;; k) x = (x', Ok r) →
    ∃ x1, tx_shard x1 = tx_shard x ∧ xseq x1 = xseq x ∧ quiet (xview x) (xview x1) ∧
      k x1 = (x', Ok r)) as Hmeta.
  { intros epoch k (x1 & [] & E1 & (x2 & [] & E2 & Hk)%bind_inv)%bind_inv. exists x2.
    apply side_inv in E1 as (Hs1 & Hq1 & Hv1).
    2: { apply side_for_each, Forall_forall. intros c _. apply side_vertex_metadata, cell_name. }
    apply side_inv in E2 as (Hs2 & Hq2 & Hv2).
    2: { case_match; [apply side_apply_edge, cell_name|by apply side_id]. }
    repeat split; [congruence..| |done]. intros j Hj. by rewrite Hv2, Hv1. }
  destruct (xview x !! out_edge_key m) as [val|] eqn:Eo.
  - destruct Ho as [-> ->]. destruct (bool_decide (ch = []) && _).
    + apply finish_inv in H as (-> & Hq & Hx).
      exists (<[create_key := encode_commit_idempotency m (MkCommitResult (xseq x) true)]> (xview x)).
      eexists. split; [split; [done|rewrite set_floor_same; exact Hx]|]. split; [done|].
      split; [apply lookup_insert_eq|]. split; [cbn; unfold u64_ok in *; lia|].
      left. repeat split. by apply quiet_idem.
    + apply bind_inv in H as (x1 & epoch & [-> Hep]%lift_inv & H).
      apply Hmeta in H as (x1 & Hs1 & Hq1 & Hv1 & H).
      rewrite (bind_run _ _ x1 x1 tt) in H by done. apply finish_inv in H as (-> & Hq & Hx).
      eexists _, _. split; [split; [by rewrite <- Hq1|rewrite set_floor_same, <- Hq1, <- Hs1; exact Hx]|].
      split; [done|]. split; [apply lookup_insert_eq|]. apply ok_or_ok, checked_add_some in Hep as [-> Hep].
      split; [done|]. left. repeat split. by apply quiet_idem.
  - rewrite Ho in H. apply bind_inv in H as (x1 & epoch & [-> Hep]%lift_inv & H).
    apply ok_or_ok, checked_add_some in Hep as [-> Hep].
    apply Hmeta in H as (x1 & Hs1 & Hq1 & Hv1 & H).
    apply bind_inv in H as (x2 & [] & Hins & H).
    apply insert_inv in Hins as (fl & n1 & n2 & Hfl & H1 & H2 & ->); [|done|by rewrite Hs1].
    apply finish_inv in H as (-> & Hq & Hx). cbn [xseq upd tx_txn mem_seq] in Hx, Hq.
    change (mem_seq (tx_txn x1)) with (xseq x1) in *.
    eexists _, fl. split; [split; [by rewrite <- Hq1|rewrite <- Hq1, <- Hs1; exact Hx]|].
    split; [done|]. split; [apply lookup_insert_eq|]. split; [done|]. right. split; [done|]. split; [done|].
    rewrite Hs1 in *. split; [by apply put_effect|].
    destruct Hfl as [->|[Hl ->]]; [by left|right].
    split; [|done]. rewrite <- (Hv1 (keys.xlog_low_water _ _)); [done|].
    pose proof cell_name. topo_key.
Qed.

Lemma finish_delete_inv (res r : DeleteResult) (x x' : MTx) :
  finish_delete m res x = (x', Ok r) →
  r = res ∧ u64_ok (xseq x + 1) ∧
  tx_shard x' = set_db (S := Mem) (MkMemDb (<[delete_key := encode_delete_idempotency m res]> (xview x))
                          (xseq x + 1)) (tx_shard x).
Proof. apply finish_inv. Qed.

(** Under the full index policy an edge without a point record is reported as
    absent. *)
Lemma delete_segment_inv (x x' : MTx) r :
  sh_policy (tx_shard x) = Full →
  delete_segment_edge m x = (x', Ok r) →
  r = MkDeleteResult (xseq x) false ∧ u64_ok (xseq x + 1) ∧
  tx_shard x' = set_db (S := Mem) (MkMemDb (<[delete_key := encode_delete_idempotency m r]> (xview x))
                          (xseq x + 1)) (tx_shard x).
Proof.
  intros Hpol. unfold delete_segment_edge. rewrite (bind_run _ _ _ _ _ (run_seqnum _)).
  unfold gets, writes_reverse_index. unfold mbind at 1, sm_mbind at 1. rewrite Hpol. cbn [write_reverse_index].
  intros H. rewrite (bind_run _ _ x x None) in H by done. by apply finish_delete_inv in H as (-> & ? & ?).
Qed.

Lemma delete_point_inv existing (x x' : MTx) r :
  sh_policy (tx_shard x) = Full →
  delete_point_edge m existing x = (x', Ok r) →
  ∃ v' fl', committed x x' v' fl' ∧ r = MkDeleteResult (xseq x + 1) true ∧
    v' !! delete_key = Some (encode_delete_idempotency m r) ∧
    edge_effect m false (sh_floor (tx_shard x)) (xview x) (xseq x) v' ∧
    floor_step (em_cell_id m) (em_edge_type m) (xview x) (sh_floor (tx_shard x)) fl'.
Proof.
  intros Hpol. unfold delete_point_edge.
  intros (x1 & rec & [-> _]%lift_inv & H)%bind_inv.
  apply bind_inv in H as (x1 & epoch & E & H). unfold next_epoch_txn in E.
  rewrite (bind_run _ _ _ _ _ (run_seqnum _)) in E. apply lift_inv in E as [-> E].
  apply ok_or_ok, checked_add_some in E as [-> Hq].
  apply bind_inv in H as (x1 & [] & (fl & Hfl & ->)%mark_inv & H).
  apply bind_inv in H as (x2 & n1 & E1 & H). rewrite counter_run in E1.
  injection E1 as <- E1. apply counter_of in E1.
  apply bind_inv in H as (x3 & b & E2 & H). unfold gets, writes_reverse_index in E2.
  cbn [tx_shard upd] in E2.
  replace (sh_policy (set_floor fl (tx_shard x))) with Full in E2 by (by rewrite <- Hpol).
  injection E2 as <- <-. cbn iota in H.
  apply bind_inv in H as (x4 & on & E3 & H). apply bind_inv in E3 as (x5 & n2 & E3 & E4).
  rewrite counter_run in E3. injection E3 as <- E3. apply counter_of in E3.
  apply mret_inv in E4 as [-> ->].
  apply bind_inv in H as (x4 & prev & E4 & H). rewrite edge_metadata_run in E4. injection E4 as <- _.
  apply bind_inv in H as (x4 & [] & E4 & H).
  apply side_inv in E4 as (Hs & Hq4 & Hv); [|apply side_clear, cell_name].
  repeat rewrite (bind_run _ _ _ _ _ (run_delete _ _)) in H.
  repeat rewrite (bind_run _ _ _ _ _ (run_put _ _ _)) in H.
  apply finish_delete_inv in H as (-> & Hq' & Hx).
  cbn [xseq upd tx_txn mem_seq tx_shard] in Hx, Hq'. change (mem_seq (tx_txn x4)) with (xseq x4) in *.
  cbn [upd xseq tx_txn mem_seq] in Hq4. change (mem_seq (tx_txn x)) with (xseq x) in *.
  rewrite Hq4 in *. cbn [tx_shard upd] in Hs. rewrite Hs in Hx.
  eexists _, fl. split; [split; [done|exact Hx]|]. split; [done|].
  split; [apply lookup_insert_eq|]. split; [|done].
  apply drop_effect; [done|exact Hv|eapply counter_is_ext; [|exact E1]|eapply counter_is_ext; [|exact E3]];
    apply marked_lookup; done || key_ne.
Qed.

Lemma delete_body_inv (x x' : MTx) r :
  sh_policy (tx_shard x) = Full →
  delete_edge_body m x = (x', Ok r) →
  (x' = x ∧ ∃ val, xview x !! delete_key = Some val ∧
     decode_delete_idempotency delete_key m val = Ok r) ∨
  ∃ v' fl', committed x x' v' fl' ∧ xview x !! delete_key = None ∧
    v' !! delete_key = Some (encode_delete_idempotency m r) ∧
    (xview x !! out_edge_key m = None ∧ r = MkDeleteResult (xseq x) false ∧
       quiet (xview x) v' ∧ fl' = sh_floor (tx_shard x) ∨
     is_Some (xview x !! out_edge_key m) ∧ r = MkDeleteResult (xseq x + 1) true ∧
       edge_effect m false (sh_floor (tx_shard x)) (xview x) (xseq x) v' ∧
       floor_step (em_cell_id m) (em_edge_type m) (xview x) (sh_floor (tx_shard x)) fl').
Proof.
  intros Hpol (x1 & [] & ->%fence_inv & H)%bind_inv. cbv zeta in H. fold delete_key in H.
  rewrite (bind_run _ _ _ _ _ (run_read _ _)) in H.
  destruct (xview x !! delete_key) as [val|] eqn:Ei.
  { apply lift_inv in H as [-> H]. left. eauto. }
  right. rewrite (bind_run _ _ _ _ _ (run_read _ _)) in H.
  destruct (xview x !! out_edge_key m) as [val|] eqn:Eo.
  - apply delete_point_inv in H as (v' & fl' & Hc & Hr & Hi & He & Hf); [|done].
    exists v', fl'. repeat split; try apply Hc; [done|]. right. eauto.
  - apply delete_segment_inv in H as (Hr & Hq & Hx); [|done].
    eexists _, _. split; [split; [done|rewrite set_floor_same; exact Hx]|]. split; [done|].
    split; [apply lookup_insert_eq|]. left. repeat split; [done|]. by apply quiet_idem.
Qed.
End effects.
