(* ===== verification/ShardInv.v ===== *)
(** The adjacency invariants of a cell on the reference store, kept by every
    [write_edge] and [delete_edge], whatever they answer: degree counters count,
    the two directions agree, and the change log tells exactly what changed. *)

From S2P Require Import Prelude Text TextFacts Errors Model Namespace Keys KeysFacts Codec CodecFacts CodecRecords CodecRecordFacts Kv ShardTxn SegmentReads ShardWrite ShardRefine ShardMem.

Local Open Scope N_scope.

(** * From a body to the handler *)

Abbreviation MShard := (Shard Mem).
Definition sview (s : MShard) : gmap string string := mem_view (sh_db s).
Definition sseq (s : MShard) : N := mem_seq (sh_db s).

(** What a handler changes of the shard that the invariants read. *)
Definition same_store (s s' : MShard) : Prop :=
  sview s' = sview s ∧ sseq s' = sseq s ∧ sh_policy s' = sh_policy s.

Lemma with_txn_inv {A} (body : SM MTx A) (s s' : MShard) r :
  with_txn body s = (s', r) →
  s' = s ∨ ∃ x', body (MkTx (S := Mem) s (sh_db s)) = (x', r) ∧ s' = tx_shard x'.
Proof.
  unfold with_txn, mbind, sm_mbind, writer, in_txn. destruct (sh_writer s); [|intros [= <- _]; by left].
  cbn [db_begin Mem]. replace (set_db (S := Mem) (sh_db s) s) with s by (by destruct s).
  destruct (body (MkTx s (sh_db s))) as [x' r'] eqn:E. intros [= <- <-]. eauto.
Qed.

(** On the reference store nothing before the commit moves the store, and a body
    that fails has not moved it; no step changes the policy. *)
Definition still {A} (n : SM MTx A) : Prop := ∀ x,
  sh_db (tx_shard (n x).1) = sh_db (tx_shard x) ∧ sh_policy (tx_shard (n x).1) = sh_policy (tx_shard x).
Definition still_err {A} (n : SM MTx A) : Prop := ∀ x x' e, n x = (x', Err e) →
  sh_db (tx_shard x') = sh_db (tx_shard x) ∧ sh_policy (tx_shard x') = sh_policy (tx_shard x).

Lemma still_bind {A B} (n : SM MTx A) (f : A → SM MTx B) :
  still n → (∀ a, still (f a)) → still (n ≫= f).
Proof.
  intros Hn Hf x. specialize (Hn x) as [H1 H2]. unfold mbind, sm_mbind.
  destruct (n x) as [x1 [a|e]]; [|done]. specialize (Hf a x1) as [H3 H4]. cbn in *. split; congruence.
Qed.
Lemma still_bind_err {A B} (n : SM MTx A) (f : A → SM MTx B) :
  still n → (∀ a, still_err (f a)) → still_err (n ≫= f).
Proof.
  intros Hn Hf x x' e. specialize (Hn x) as [H1 H2]. unfold mbind, sm_mbind.
  destruct (n x) as [x1 [a|e1]]; cbn in *; [|intros [= <- _]; done].
  intros E. specialize (Hf a x1 x' e E) as [H3 H4]. split; congruence.
Qed.
Lemma still_for_each {A} (f : A → SM MTx unit) l : (∀ a, still (f a)) → still (for_each f l).
Proof. intros H. induction l as [|a l IH]; [done|]. cbn. by apply still_bind. Qed.
Lemma still_still_err {A} (n : SM MTx A) : still n → still_err n.
Proof. intros H x x' e E. specialize (H x). by rewrite E in H. Qed.
Lemma still_read k : still (read_txn_remote k).
Proof. intros x. by rewrite run_read. Qed.
Lemma still_on_shard {A} (n : SM MShard A) :
  (∀ s, sh_db (n s).1 = sh_db s ∧ sh_policy (n s).1 = sh_policy s) → still (on_shard n).
Proof. intros H x. unfold on_shard. specialize (H (tx_shard x)). by destruct (n (tx_shard x)). Qed.
Lemma still_commit {A} k v (a : A) : still_err (t_put k v ;; commit_txn_traced ;; mret a).
Proof.
  intros x x' e. rewrite (bind_run _ _ _ _ _ (run_put _ _ _)).
  unfold commit_txn_traced, commit_txn_strict, commit_txn_strict_with_sequence, gets, mbind, sm_mbind.
  cbn. destruct (checked_add _ 1); [done|]. cbn. intros [= <- _]. done.
Qed.

Create HintDb still.
Ltac still_step :=
  match goal with
  | |- still (_ ≫= _) => apply still_bind; [|intros ?]
  | |- still (read_txn_remote _) => apply still_read
  | |- still (for_each _ _) => apply still_for_each; intros ?
  | |- still (on_shard _) => apply still_on_shard; intros ?
  | |- still (match ?o with _ => _ end) => destruct o
  | |- still _ => solve [intros ?; done]
  | |- still_err (_ ;; commit_txn_traced ;; _) => apply still_commit
  | |- still_err (_ ≫= _) => apply still_bind_err; [|intros ?]
  | |- still_err (match ?o with _ => _ end) => destruct o
  | |- still_err _ => apply still_still_err
  end; cbv zeta.
Ltac still_auto := repeat first [solve [auto with still] | still_step].

Lemma still_authority c op : still (on_shard (ensure_write_authority c op)).
Proof.
  apply still_on_shard. intros s. unfold ensure_write_authority, gets, mbind, sm_mbind, writer, fails.
  destruct (sh_authority s), (sh_writer s); done.
Qed.
#[export] Hint Resolve still_authority : still.
Lemma still_floor c t q : still (ensure_xlog_floor c t q).
Proof. unfold ensure_xlog_floor. still_auto; done. Qed.
#[export] Hint Resolve still_floor : still.
Lemma still_changed c ups : still (changed_vertex_metadata c ups).
Proof.
  induction ups as [|[v r] ups IH]; cbn [changed_vertex_metadata]; unfold read_vertex_metadata; still_auto.
Qed.
#[export] Hint Resolve still_changed : still.
Lemma still_store c t s d q : still (on_shard (out_segment_edge_record_at c t s d q)).
Proof.
  apply still_on_shard. intros x.
  unfold out_segment_edge_record_at, out_segment_tombstone_epoch_at, read_remote,
    scan_out_segments_for_src_at, scan_remote_prefix, mbind, sm_mbind, lift, mret, sm_mret. cbn.
  destruct (mem_view (sh_db x) !! _); cbn; [destruct (decode_u64 _ _); cbn; [|done]|];
    by destruct (scan_loop _ _ _).
Qed.
#[export] Hint Resolve still_store : still.

Lemma write_body_still m ups em op : still_err (write_edge_body m ups em op).
Proof.
  unfold write_edge_body, put_commit_idempotency, validate_write_fence_txn, edge_epoch_at_txn,
    out_segment_edges_for_src_txn, read_edge_metadata, insert_edge_records_txn,
    mark_topology_change_txn, read_counter_txn, apply_vertex_metadata_update_txn,
    apply_edge_metadata_update_txn, delete_vertex_metadata_indexes_txn,
    put_vertex_metadata_indexes_txn, delete_edge_metadata_indexes_txn, put_edge_metadata_indexes_txn.
  still_auto.
Qed.

Lemma delete_body_still m : still_err (delete_edge_body m).
Proof.
  unfold delete_edge_body, delete_segment_edge, delete_point_edge, finish_delete,
    put_delete_idempotency, validate_write_fence_txn, next_epoch_txn, read_edge_metadata,
    mark_topology_change_txn, read_counter_txn, clear_edge_attachments_txn,
    delete_relationships_for_structural_edge_txn, live_relationships_for_edge_txn,
    delete_relationship_record_txn, delete_relationship_property_indexes_txn,
    apply_edge_metadata_update_txn, delete_edge_metadata_indexes_txn, put_edge_metadata_indexes_txn.
  still_auto.
Qed.

Lemma attempts_same {A} (attempt : SM MShard A) n s s1 (P : MShard → MShard → Prop) :
  (∀ s, P s s) → (∀ a b c, P a b → P b c → P a c) →
  (∀ s s' e, attempt s = (s', Err e) → P s s') → (∀ s f, P s (set_metrics f s)) →
  conflicts attempt n s s1 → P s s1.
Proof.
  intros Hr Ht He Hm. induction 1 as [s|n s s1 e s' E _ _ IH]; [done|].
  eapply Ht; [by eapply He|]. eapply Ht; [apply Hm|done].
Qed.

Lemma with_txn_ok {A} (body : SM MTx A) (s s' : MShard) a :
  with_txn body s = (s', Ok a) →
  ∃ x', body (MkTx (S := Mem) s (sh_db s)) = (x', Ok a) ∧ s' = tx_shard x'.
Proof.
  unfold with_txn, mbind, sm_mbind, writer, in_txn. destruct (sh_writer s); [|done].
  cbn [db_begin Mem]. replace (set_db (S := Mem) (sh_db s) s) with s by (by destruct s).
  destruct (body (MkTx s (sh_db s))) as [x' r'] eqn:E. intros [= <- ->]. eauto.
Qed.

(** ** The outcome of a handler *)

Inductive outcome (m : EdgeMutation) (s s' : MShard) : Prop :=
  | outcome_quiet : quiet (sview s) (sview s') → sseq s ≤ sseq s' →
      (u64_ok (sseq s) → u64_ok (sseq s')) → sh_policy s' = sh_policy s → outcome m s s'
  | outcome_edge (b : bool) fl : mutation_ok m →
      edge_effect m b fl (sview s) (sseq s) (sview s') → sseq s' = sseq s + 1 →
      (is_Some (sview s !! out_edge_key m) ↔ b = false) → sh_policy s' = sh_policy s →
      outcome m s s'.

Lemma outcome_same m s s' : same_store s s' → outcome m s s'.
Proof.
  intros (Hv & Hq & Hp). apply outcome_quiet; [|lia|congruence|done]. intros k _. by rewrite Hv.
Qed.
Lemma same_outcome m s s1 s' : same_store s s1 → outcome m s1 s' → outcome m s s'.
Proof.
  intros (Hv & Hq & Hp) [Hqu Hle Hok Hpol|b fl Hm He Hseq Hpre Hpol].
  - rewrite Hv, Hq, Hp in *. by apply outcome_quiet.
  - rewrite Hv, Hq, Hp in *. by eapply outcome_edge.
Qed.
Lemma outcome_same_r m s s1 s' : outcome m s s1 → same_store s1 s' → outcome m s s'.
Proof.
  intros [Hqu Hle Hok Hpol|b fl Hm He Hseq Hpre Hpol] (Hv & Hq & Hp).
  - rewrite <- Hv, <- Hq in *. apply outcome_quiet; [done..|congruence].
  - rewrite <- Hv, <- Hq in *. eapply outcome_edge; [done..|congruence].
Qed.

Lemma same_refl s : same_store s s. Proof. done. Qed.
Lemma same_trans s1 s2 s3 : same_store s1 s2 → same_store s2 s3 → same_store s1 s3.
Proof. intros (? & ? & ?) (? & ? & ?). repeat split; congruence. Qed.

(** Handlers see cells under the full index policy and without segments. *)
Definition plain_cell (m : EdgeMutation) (s : MShard) : Prop :=
  sh_policy s = Full ∧ no_segments (em_cell_id m) (sview s).

Definition attempt_ok {A} (m : EdgeMutation) (attempt : SM MShard A) : Prop :=
  ∀ s s' r, plain_cell m s → attempt s = (s', r) →
  match r with Ok _ => outcome m s s' | Err _ => same_store s s' end.

Lemma locked_err {A} (body : SM MTx A) s s' e :
  still_err body → with_txn body s = (s', Err e) → same_store s s'.
Proof.
  intros Hst [->|(x' & E & ->)]%with_txn_inv; [done|].
  destruct (Hst _ _ _ E) as [Hd Hp]. cbn in Hd, Hp. unfold same_store, sview, sseq. by rewrite Hd.
Qed.

Lemma guard_same c op (s s' : MShard) r :
  acquire_local_write_guard c op s = (s', r) → same_store s s'.
Proof.
  unfold acquire_local_write_guard, refresh_writer_fence, refresh_manifest, writer, lift, mbind, sm_mbind.
  destruct (validate_component "cell_id" c), (validate_component "operation" op);
    try (intros [= <- _]; done).
  destruct (sh_writer s); cbn; by intros [= <- _].
Qed.

Lemma committed_store x x' v' fl :
  committed x x' v' fl →
  sview (tx_shard x') = v' ∧ sseq (tx_shard x') = xseq x + 1 ∧
  sh_policy (tx_shard x') = sh_policy (tx_shard x) ∧ u64_ok (xseq x + 1).
Proof. intros [Hq Hx]. unfold sview, sseq. by rewrite Hx. Qed.

Lemma quiet_outcome m (s : MShard) x' v' fl :
  committed (MkTx (S := Mem) s (sh_db s)) x' v' fl → quiet (sview s) v' → outcome m s (tx_shard x').
Proof.
  intros (Hv & Hq & Hp & Ho)%committed_store Hqu. cbn in Hp, Hq, Ho.
  apply outcome_quiet; [by rewrite Hv|rewrite Hq; unfold xseq, sseq; cbn; lia|by rewrite Hq|done].
Qed.

Lemma edge_outcome m b fl fl' (s : MShard) x' v' :
  mutation_ok m → committed (MkTx (S := Mem) s (sh_db s)) x' v' fl' →
  edge_effect m b fl (sview s) (sseq s) v' → (is_Some (sview s !! out_edge_key m) ↔ b = false) →
  outcome m s (tx_shard x').
Proof.
  intros Hm (Hv & Hq & Hp & Ho)%committed_store He Hpre. cbn in Hp, Hq.
  eapply (outcome_edge m s _ b fl); [done|by rewrite Hv|by rewrite Hq|done|done].
Qed.

Lemma locked_write_ok m ups em op :
  mutation_ok m → attempt_ok m (write_edge_txn_locked_with_metadata m ups em op).
Proof.
  intros Hm s s' [r|e] [Hpol Hseg] E.
  - apply with_txn_inv in E as [->|(x' & E & ->)]; [by apply outcome_same|].
    apply (write_body_inv m Hm) in E; [|done..].
    destruct E as [[-> _]|(v' & fl' & Hc & _ & _ & _ & [(_ & Hq & _ & _)|(Ho & _ & He & _)])].
    + by apply outcome_same.
    + by eapply quiet_outcome.
    + eapply edge_outcome; [done|exact Hc|exact He|]. change (sview s !! out_edge_key m = None) in Ho.
      rewrite Ho. split; [by intros [? [=]]|done].
  - eapply locked_err; [apply write_body_still|exact E].
Qed.

Lemma locked_delete_ok m : mutation_ok m → attempt_ok m (delete_edge_txn_locked m).
Proof.
  intros Hm s s' [r|e] [Hpol Hseg] E.
  - apply with_txn_inv in E as [->|(x' & E & ->)]; [by apply outcome_same|].
    apply (delete_body_inv m Hm) in E; [|done..].
    destruct E as [[-> _]|(v' & fl' & Hc & _ & _ & [(_ & _ & Hq & _)|(Ho & _ & He & _)])].
    + by apply outcome_same.
    + by eapply quiet_outcome.
    + eapply edge_outcome; [done|exact Hc|exact He|]. by split.
  - eapply locked_err; [apply delete_body_still|exact E].
Qed.

Lemma plain_same m s s' : same_store s s' → plain_cell m s → plain_cell m s'.
Proof. intros (Hv & _ & Hp) [H1 H2]. unfold plain_cell. by rewrite Hv, Hp. Qed.

Lemma guarded_ok {A} m c op (attempt : SM MShard A) :
  attempt_ok m attempt → attempt_ok m (acquire_local_write_guard c op ;; attempt).
Proof.
  intros H s s' r Hp. unfold mbind, sm_mbind.
  destruct (acquire_local_write_guard c op s) as [s1 [u|e]] eqn:E.
  - apply guard_same in E. intros E'.
    specialize (H s1 s' r (plain_same _ _ _ E Hp) E'). destruct r.
    + by eapply same_outcome.
    + by eapply same_trans.
  - intros [= <- <-]. by eapply guard_same.
Qed.

Lemma conflicts_same {A} m (attempt : SM MShard A) n s s1 :
  attempt_ok m attempt → plain_cell m s → conflicts attempt n s s1 → same_store s s1.
Proof.
  intros Ha Hp Hc. revert Hp. induction Hc as [s|k s s2 e s1 E _ Hc IH]; intros Hp; [done|].
  pose proof (Ha _ _ _ Hp E) as H2. cbn in H2.
  eapply same_trans; [exact H2|]. apply IH. by eapply plain_same.
Qed.

Lemma retry_ok {A} m (attempt : SM MShard A) n s s' r :
  attempt_ok m attempt → plain_cell m s →
  txn_retry_loop attempt (Datatypes.S n) s = (s', r) → outcome m s s'.
Proof.
  intros Ha Hp E. destruct (txn_retry_loop_spec attempt n s) as (k & s1 & _ & Hc & Hl & _).
  rewrite Hl in E. clear Hl. pose proof (conflicts_same _ _ _ _ _ Ha Hp Hc) as Hs.
  pose proof (plain_same _ _ _ Hs Hp) as Hp1.
  destruct (attempt s1) as [s2 [a|e]] eqn:E1; injection E as <- <-;
    pose proof (Ha _ _ _ Hp1 E1) as H2; cbn in H2.
  - eapply same_outcome; [exact Hs|]. by eapply outcome_same_r.
  - apply outcome_same. by eapply same_trans.
Qed.

Lemma validate_ok_inv w v u : validate_component w v = Ok u → component_ok v = true.
Proof. destruct u. apply validate_component_ok. Qed.

Lemma routed_ok {A} m op (attempt : SM MShard A) s s' r :
  (mutation_ok m → attempt_ok m attempt) → u64_ok (em_src m) → u64_ok (em_dst m) →
  plain_cell m s → routed_write m op attempt s = (s', r) → outcome m s s'.
Proof.
  intros Ha Hs Hd Hp. unfold routed_write, lift, mbind at 1, sm_mbind at 1.
  destruct (validate_component "cell_id" (em_cell_id m)) as [u|] eqn:E1; [|intros [= <- _]; by apply outcome_same].
  unfold mbind at 1, sm_mbind at 1.
  destruct (validate_component "edge_type" (em_edge_type m)) as [u2|] eqn:E2; [|intros [= <- _]; by apply outcome_same].
  apply validate_ok_inv in E1, E2.
  unfold mbind at 1, sm_mbind at 1. destruct (validate_component "idempotency_key" _) as [u3|];
    [|intros [= <- _]; by apply outcome_same].
  unfold mbind at 1, sm_mbind at 1.
  destruct (ensure_write_authority (em_cell_id m) op s) as [s1 [u4|e]] eqn:E4.
  2: { intros [= <- _]. apply outcome_same. unfold ensure_write_authority, gets, mbind, sm_mbind, writer, fails in E4.
       destruct (sh_authority s), (sh_writer s); injection E4 as <- _; done. }
  assert (s1 = s) as ->.
  { unfold ensure_write_authority, gets, mbind, sm_mbind, writer, fails in E4.
    destruct (sh_authority s), (sh_writer s); by inversion E4. }
  unfold mbind at 1, sm_mbind at 1.
  destruct (acquire_graph_write_permit op s) as [s2 r2] eqn:E5.
  assert (same_store s s2) as Hs2.
  { unfold acquire_graph_write_permit, acquire_operation_permit, on_metrics, modify, gets, fails,
      mbind, sm_mbind in E5. cbn in E5. destruct (permits _ =? 0), (closed _); cbn in E5; injection E5 as <- _; done. }
  destruct r2 as [u5|e]; [|intros [= <- _]; by apply outcome_same].
  intros E6. eapply same_outcome; [exact Hs2|].
  eapply retry_ok; [|by eapply plain_same|exact E6]. apply Ha. done.
Qed.

Lemma write_edge_outcome m s s' r :
  u64_ok (em_src m) → u64_ok (em_dst m) → plain_cell m s → write_edge m s = (s', r) → outcome m s s'.
Proof.
  apply routed_ok. intros Hm. apply guarded_ok. by apply locked_write_ok.
Qed.
Lemma delete_edge_outcome m s s' r :
  u64_ok (em_src m) → u64_ok (em_dst m) → plain_cell m s → delete_edge m s = (s', r) → outcome m s s'.
Proof. apply routed_ok. intros Hm. apply guarded_ok. by apply locked_delete_ok. Qed.

(** * Steps *)

(** Any edge write or delete, on any cell, whatever it answers. *)
Inductive step (s s' : MShard) : Prop :=
  | step_write m r : u64_ok (em_src m) → u64_ok (em_dst m) → write_edge m s = (s', r) → step s s'
  | step_delete m r : u64_ok (em_src m) → u64_ok (em_dst m) → delete_edge m s = (s', r) → step s s'.

Definition plain (s : MShard) : Prop := sh_policy s = Full ∧ ∀ c, no_segments c (sview s).

Lemma step_outcome s s' : plain s → step s s' → ∃ m, outcome m s s'.
Proof.
  intros [Hp Hs] [m r H1 H2 E|m r H1 H2 E]; exists m;
    [eapply write_edge_outcome|eapply delete_edge_outcome]; try done; by split.
Qed.


Lemma family_other c f rest p :
  name_ok c → name_ok f → Some (c, f) ≠ p →
  family ("cell/" +:+ c +:+ "/" +:+ f +:+ "/" +:+ rest) ≠ p.
Proof. intros. by rewrite family_cell. Qed.

Lemma changed_keys_family m q k c :
  mutation_ok m → k ∈ changed_keys m q → family k ≠ Some (c, "seg").
Proof.
  intros Hm. pose proof (cell_name m Hm) as Hc. unfold changed_keys, out_edge_key, in_edge_key, out_degree_key, in_degree_key.
  rewrite !elem_of_cons, elem_of_nil, dirty_form.
  intros [->|[->|[->|[->|[->|[->|[->|[->|[]]]]]]]]];
    first [ apply (family_other _ "e"); done | apply (family_other _ "cnt"); done
          | apply (family_other _ "xlog"); done | apply (family_other _ "meta"); done ].
Qed.

Lemma outcome_plain m s s' : plain s → outcome m s s' → plain s'.
Proof.
  intros [Hp Hs] [Hq _ _ Hpol|b fl Hm He Hseq _ Hpol]; (split; [congruence|]); intros c k Hk.
  - rewrite Hq; [by eapply Hs|]. eapply family_topo; [done|]. unfold topo_families. set_solver.
  - rewrite (ee_rest _ _ _ _ _ _ He); [by eapply Hs| |].
    + eapply family_topo; [done|]. unfold topo_families. set_solver.
    + intros Hin. by eapply changed_keys_family.
Qed.

(** * Degrees and directions *)

(** [n] vertices satisfy [P]. *)
Definition counts (P : N → Prop) (n : N) : Prop :=
  ∃ X : gset N, (∀ d, d ∈ X ↔ u64_ok d ∧ P d) ∧ N.of_nat (size X) = n.

Lemma counts_ext (P Q : N → Prop) n : (∀ d, u64_ok d → P d ↔ Q d) → counts P n → counts Q n.
Proof. intros H (X & HX & Hn). exists X. split; [|done]. intros d. rewrite HX. naive_solver. Qed.

Lemma counts_insert (P Q : N → Prop) d n :
  u64_ok d → ¬ P d → (∀ x, u64_ok x → Q x ↔ P x ∨ x = d) → counts P n → counts Q (n + 1).
Proof.
  intros Hd HP HQ (X & HX & <-). exists ({[d]} ∪ X). split.
  - intros x. rewrite elem_of_union, elem_of_singleton, HX. naive_solver.
  - rewrite size_union by (set_solver). rewrite size_singleton. lia.
Qed.
Lemma counts_delete (P Q : N → Prop) d n :
  u64_ok d → P d → (∀ x, u64_ok x → Q x ↔ P x ∧ x ≠ d) → counts P n → counts Q (n - 1).
Proof.
  intros Hd HP HQ (X & HX & <-). exists (X ∖ {[d]}). split.
  - intros x. rewrite elem_of_difference, elem_of_singleton, HX. naive_solver.
  - rewrite size_difference by (set_solver). rewrite size_singleton. lia.
Qed.

Lemma counter_is_fun v k n1 n2 : counter_is v k n1 → counter_is v k n2 → n1 = n2.
Proof. unfold counter_is. destruct (v !! k); [|by intros -> ->]. intros E1 E2. congruence. Qed.
Lemma counter_is_word v k n : u64_ok n → v !! k = Some (encode_u64 n) → counter_is v k n.
Proof. intros Hn E. unfold counter_is. rewrite E. by apply encode_decode_u64. Qed.

Section cell.
Context (c t : string) (Hc : component_ok c = true) (Ht : component_ok t = true).

Definition edge_at (v : gmap string string) (s d : N) : Prop := is_Some (v !! keys.out_edge c t s d).

(** The adjacency of one edge type: both directions hold the same edges, with the
    one record value, and the two degree counters count them. *)
Record adjacency_ok (v : gmap string string) (q : N) : Prop := {
  ao_value : ∀ s d val, u64_ok s → u64_ok d →
    v !! keys.out_edge c t s d = Some val → val = edge_record_value;
  ao_reverse : ∀ s d, u64_ok s → u64_ok d →
    v !! keys.in_edge c t d s = v !! keys.out_edge c t s d;
  ao_out : ∀ s, u64_ok s → ∃ n, counter_is v (keys.degree_out c t s) n ∧ counts (edge_at v s) n ∧ n ≤ q;
  ao_in : ∀ d, u64_ok d → ∃ n, counter_is v (keys.degree_in c t d) n ∧
    counts (λ s, edge_at v s d) n ∧ n ≤ q;
}.

#[local] Hint Resolve Hc Ht : hydra.
#[local] Lemma Hname : name_ok c. Proof. by apply component_ok_slash. Qed.

(** The adjacency reads the edge and counter families of its cell only. *)
Lemma adjacency_ext v v' q q' :
  (∀ k f, family k = Some (c, f) → f = "e" ∨ f = "cnt" → v' !! k = v !! k) → q ≤ q' →
  adjacency_ok v q → adjacency_ok v' q'.
Proof.
  intros Hq Hle [H1 H2 H3 H4]. pose proof Hname as Hn.
  assert (∀ s d, v' !! keys.out_edge c t s d = v !! keys.out_edge c t s d) as Ho.
  { intros. apply (Hq _ "e"); [apply (family_cell c "e" _ Hn eq_refl)|by left]. }
  assert (∀ s d, v' !! keys.in_edge c t s d = v !! keys.in_edge c t s d) as Hi.
  { intros. apply (Hq _ "e"); [apply (family_cell c "e" _ Hn eq_refl)|by left]. }
  assert (∀ k r, k = "cell/" +:+ c +:+ "/" +:+ "cnt" +:+ "/" +:+ r → v' !! k = v !! k) as Hd.
  { intros k r ->. apply (Hq _ "cnt"); [apply (family_cell c "cnt" _ Hn eq_refl)|by right]. }
  split.
  - intros s d val. rewrite Ho. apply H1.
  - intros s d Hs Hd'. rewrite Ho, Hi. by apply H2.
  - intros s Hs. destruct (H3 s Hs) as (n & Hn1 & Hn2 & Hn3). exists n. split; [|split; [|lia]].
    + eapply counter_is_ext; [symmetry; by eapply Hd|done].
    + eapply counts_ext; [|exact Hn2]. intros d _. unfold edge_at. by rewrite Ho.
  - intros s Hs. destruct (H4 s Hs) as (n & Hn1 & Hn2 & Hn3). exists n. split; [|split; [|lia]].
    + eapply counter_is_ext; [symmetry; by eapply Hd|done].
    + eapply counts_ext; [|exact Hn2]. intros d _. unfold edge_at. by rewrite Ho.
Qed.

Lemma adjacency_quiet v v' q q' : quiet v v' → q ≤ q' → adjacency_ok v q → adjacency_ok v' q'.
Proof.
  intros Hq. apply adjacency_ext. intros k f Hk Hf. apply Hq. eapply family_topo; [exact Hk|].
  unfold topo_families. destruct Hf as [->| ->]; set_solver.
Qed.

(** ** A committed edge change *)

Section effect.
Context (m : EdgeMutation) (Hm : mutation_ok m) (b : bool) (fl : gset string).
Context (v : gmap string string) (q : N) (v' : gmap string string).
Context (He : edge_effect m b fl v q v').

#[local] Lemma next_ok : u64_ok (q + 1).
Proof. apply He. Qed.
#[local] Hint Resolve next_ok : hydra.

Definition same_pair : Prop := c = em_cell_id m ∧ t = em_edge_type m.
#[local] Instance same_pair_dec : Decision same_pair := _.

Ltac untouched :=
  pose proof Hname; apply (ee_rest _ _ _ _ _ _ He); [topo_key|];
  unfold changed_keys; rewrite !not_elem_of_cons; repeat split; [key_ne..|apply not_elem_of_nil].

Lemma effect_out s d :
  u64_ok s → u64_ok d →
  v' !! keys.out_edge c t s d =
    if decide (same_pair ∧ s = em_src m ∧ d = em_dst m)
    then (if b then Some edge_record_value else None) else v !! keys.out_edge c t s d.
Proof.
  intros Hs Hd. unfold same_pair. case_decide as E.
  - destruct E as ([-> ->] & -> & ->). apply (ee_out _ _ _ _ _ _ He).
  - untouched.
Qed.
Lemma effect_in s d :
  u64_ok s → u64_ok d →
  v' !! keys.in_edge c t d s =
    if decide (same_pair ∧ s = em_src m ∧ d = em_dst m)
    then (if b then Some edge_record_value else None) else v !! keys.in_edge c t d s.
Proof.
  intros Hs Hd. unfold same_pair. case_decide as E.
  - destruct E as ([-> ->] & -> & ->). apply (ee_in _ _ _ _ _ _ He).
  - untouched.
Qed.
Lemma effect_degree_out s :
  u64_ok s → ¬ (same_pair ∧ s = em_src m) →
  v' !! keys.degree_out c t s = v !! keys.degree_out c t s.
Proof. intros Hs Hne. unfold same_pair in Hne. untouched. Qed.
Lemma effect_degree_in d :
  u64_ok d → ¬ (same_pair ∧ d = em_dst m) →
  v' !! keys.degree_in c t d = v !! keys.degree_in c t d.
Proof. intros Hd Hne. unfold same_pair in Hne. untouched. Qed.
Lemma effect_log sq s d :
  u64_ok sq → u64_ok s → u64_ok d →
  v' !! keys.xlog_entry c t sq s d =
    if decide (same_pair ∧ sq = q + 1 ∧ s = em_src m ∧ d = em_dst m)
    then Some (xlog_value b) else v !! keys.xlog_entry c t sq s d.
Proof.
  intros Hq Hs Hd. unfold same_pair. case_decide as E.
  - destruct E as ([-> ->] & -> & -> & ->). apply (ee_log _ _ _ _ _ _ He).
  - untouched.
Qed.

Lemma effect_edge s d :
  u64_ok s → u64_ok d →
  edge_at v' s d ↔
    if decide (same_pair ∧ s = em_src m ∧ d = em_dst m) then b = true else edge_at v s d.
Proof.
  intros Hs Hd. unfold edge_at. rewrite effect_out by done. case_decide; [|done].
  destruct b; split; solve [done | eauto | by intros [? [=]]].
Qed.

(** A counter that was the size of a set is the size of the changed set. *)
Lemma effect_counter k (P Q : N → Prop) x :
  u64_ok x → (P x ↔ b = false) →
  (∀ y, u64_ok y → Q y ↔ (if decide (y = x) then b = true else P y)) →
  (∃ n, counter_is v k n ∧
     v' !! k = Some (encode_u64 (if b then wrapping_add n 1 else saturating_sub n 1))) →
  (∃ n, counter_is v k n ∧ counts P n ∧ n ≤ q) →
  ∃ n, counter_is v' k n ∧ counts Q n ∧ n ≤ q + 1.
Proof.
  intros Hx HP HQ (n & Hn & Hk) (n' & Hn' & Hcnt & Hle).
  rewrite (counter_is_fun _ _ _ _ Hn Hn') in *. clear n Hn. rename n' into n.
  pose proof (ee_seq _ _ _ _ _ _ He) as Hseq. destruct b.
  - exists (n + 1). rewrite wrapping_add_small in Hk by (unfold u64_ok in *; lia).
    split; [apply counter_is_word; [unfold u64_ok in *; lia|done]|]. split; [|lia].
    eapply counts_insert; [exact Hx| | |exact Hcnt].
    + intros ?. by apply HP in H as [=].
    + intros y Hy. rewrite HQ by done. case_decide; naive_solver.
  - exists (n - 1). split; [apply counter_is_word; [unfold u64_ok in *; lia|done]|]. split; [|lia].
    eapply counts_delete; [exact Hx|by apply HP| |exact Hcnt].
    intros y Hy. rewrite HQ by done. case_decide; naive_solver.
Qed.

Lemma adjacency_effect :
  (is_Some (v !! out_edge_key m) ↔ b = false) → adjacency_ok v q → adjacency_ok v' (q + 1).
Proof.
  intros Hpre [H1 H2 H3 H4]. split.
  - intros s d val Hs Hd. rewrite effect_out by done. case_decide; [|by apply H1].
    destruct b; [by intros [= <-]|done].
  - intros s d Hs Hd. rewrite effect_out, effect_in by done. case_decide; [done|by apply H2].
  - intros s Hs. destruct (decide (same_pair ∧ s = em_src m)) as [[[E1 E2] ->]|Hne].
    + apply (effect_counter _ (edge_at v (em_src m)) _ (em_dst m)); [auto with hydra|..].
      * unfold edge_at. rewrite E1, E2. exact Hpre.
      * intros y Hy. rewrite effect_edge by done. unfold same_pair. repeat case_decide; naive_solver.
      * rewrite E1, E2. apply (ee_out_degree _ _ _ _ _ _ He).
      * by apply H3.
    + destruct (H3 s Hs) as (n & Hn1 & Hn2 & Hn3). exists n. split; [|split; [|lia]].
      * eapply counter_is_ext; [symmetry; by apply effect_degree_out|done].
      * eapply counts_ext; [|exact Hn2]. intros d Hd. rewrite effect_edge by done.
        case_decide; naive_solver.
  - intros d Hd. destruct (decide (same_pair ∧ d = em_dst m)) as [[[E1 E2] ->]|Hne].
    + apply (effect_counter _ (λ s, edge_at v s (em_dst m)) _ (em_src m)); [auto with hydra|..].
      * unfold edge_at. rewrite E1, E2. exact Hpre.
      * intros y Hy. rewrite effect_edge by done. unfold same_pair. repeat case_decide; naive_solver.
      * rewrite E1, E2. apply (ee_in_degree _ _ _ _ _ _ He).
      * by apply H4.
    + destruct (H4 d Hd) as (n & Hn1 & Hn2 & Hn3). exists n. split; [|split; [|lia]].
      * eapply counter_is_ext; [symmetry; by apply effect_degree_in|done].
      * eapply counts_ext; [|exact Hn2]. intros s Hs. rewrite effect_edge by done.
        case_decide; naive_solver.
Qed.
End effect.

(** * The change log *)

Lemma log_prefix_split suffix :
  split chr_slash (keys.xlog_type_prefix c t +:+ suffix)
  = "cell" :: c :: "xlog" :: t :: split chr_slash suffix.
Proof.
  unfold keys.xlog_type_prefix. rewrite !app_assoc.
  change ("cell/" +:+ c +:+ "/xlog/" +:+ t +:+ "/" +:+ suffix)
    with ("cell" +:+ String chr_slash (c +:+ String chr_slash ("xlog" +:+ String chr_slash
           (t +:+ String chr_slash suffix)))).
  rewrite (split_cons _ "cell"), (split_cons _ c), (split_cons _ "xlog"), (split_cons _ t); auto with hydra.
Qed.

Lemma log_prefix_family k :
  starts_with (keys.xlog_type_prefix c t) k = true → family k = Some (c, "xlog").
Proof.
  unfold starts_with. destruct (strip_prefix _ k) as [suffix|] eqn:E; [|done].
  intros _. apply strip_prefix_Some in E as ->. unfold family. by rewrite log_prefix_split.
Qed.
Lemma log_prefix_topo k : starts_with (keys.xlog_type_prefix c t) k = true → topo k.
Proof. intros H%log_prefix_family. eapply family_topo; [done|]. unfold topo_families. set_solver. Qed.

Lemma log_prefix_pair c' t' sq s d :
  component_ok c' = true → component_ok t' = true → u64_ok sq → u64_ok s → u64_ok d →
  starts_with (keys.xlog_type_prefix c t) (keys.xlog_entry c' t' sq s d) = true → c = c' ∧ t = t'.
Proof.
  intros Hc' Ht' Hq Hs Hd. unfold starts_with.
  destruct (strip_prefix _ _) as [suffix|] eqn:E; [|done]. intros _.
  apply strip_prefix_Some in E. apply (f_equal (split chr_slash)) in E.
  rewrite log_prefix_split in E.
  change (keys.xlog_entry c' t' sq s d) with (render (KXlogEntry c' t' sq s d)) in E.
  rewrite split_render in E by (cbn; unfold name_ok; auto 10 with hydra). cbn [segs] in E. by simplify_eq.
Qed.

(** Every entry of the pair names a commit no later than the store's sequence. *)
Definition log_wf (v : gmap string string) (q : N) : Prop := ∀ k val,
  starts_with (keys.xlog_type_prefix c t) k = true → v !! k = Some val →
  ∃ sq s d b, k = keys.xlog_entry c t sq s d ∧ val = xlog_value b ∧
    sq ≤ q ∧ u64_ok sq ∧ u64_ok s ∧ u64_ok d.

(** Since the state [v0] at sequence [q0], the last entry of an edge says whether
    it exists; an edge with no entry is as it was. *)
Definition last_entry (v : gmap string string) (q0 s d sq : N) (b : bool) : Prop :=
  q0 < sq ∧ u64_ok sq ∧ v !! keys.xlog_entry c t sq s d = Some (xlog_value b) ∧
  ∀ sq', sq < sq' → u64_ok sq' → v !! keys.xlog_entry c t sq' s d = None.
Definition no_entry (v : gmap string string) (q0 s d : N) : Prop :=
  ∀ sq, q0 < sq → u64_ok sq → v !! keys.xlog_entry c t sq s d = None.
Definition log_tells (v0 : gmap string string) (q0 : N) (v : gmap string string) : Prop := ∀ s d,
  u64_ok s → u64_ok d →
  (∃ sq b, last_entry v q0 s d sq b ∧ (edge_at v s d ↔ b = true)) ∨
  (no_entry v q0 s d ∧ (edge_at v s d ↔ edge_at v0 s d)).

Lemma log_prefix_self sq s d : starts_with (keys.xlog_type_prefix c t) (keys.xlog_entry c t sq s d) = true.
Proof.
  unfold starts_with. replace (keys.xlog_entry c t sq s d)
    with (keys.xlog_type_prefix c t +:+ (pad20 sq +:+ "/" +:+ pad20 s +:+ "/" +:+ pad20 d)).
  - by rewrite (proj2 (strip_prefix_Some _ _ _) eq_refl).
  - unfold keys.xlog_type_prefix, keys.xlog_entry. by rewrite !app_assoc.
Qed.

Lemma log_entry_inj sq s d sq' s' d' :
  u64_ok sq → u64_ok s → u64_ok d → u64_ok sq' → u64_ok s' → u64_ok d' →
  keys.xlog_entry c t sq s d = keys.xlog_entry c t sq' s' d' → sq = sq' ∧ s = s' ∧ d = d'.
Proof.
  intros Hq Hs Hd Hq' Hs' Hd' E.
  apply (render_eq (KXlogEntry c t sq s d) (KXlogEntry c t sq' s' d')) in E;
    [by simplify_eq|cbn; unfold name_ok; auto 10 with hydra..].
Qed.

Lemma log_no_later v q sq s d :
  log_wf v q → q < sq → u64_ok sq → u64_ok s → u64_ok d → v !! keys.xlog_entry c t sq s d = None.
Proof.
  intros Hwf Hlt Hq Hs Hd. apply eq_None_not_Some. intros [val Hv].
  apply Hwf in Hv as (sq' & s' & d' & b & E & _ & Hle & Hq' & Hs' & Hd'); [|apply log_prefix_self].
  apply log_entry_inj in E as (-> & _ & _); [lia|done..].
Qed.

Lemma log_tells_refl v q : log_wf v q → log_tells v q v.
Proof. intros Hwf s d Hs Hd. right. split; [|done]. intros sq Hlt Hq. by eapply log_no_later. Qed.

Lemma log_quiet v0 q0 v q v' q' :
  quiet v v' → q ≤ q' → log_wf v q → log_tells v0 q0 v → log_wf v' q' ∧ log_tells v0 q0 v'.
Proof.
  intros Hq Hle Hwf Ht0. pose proof Hname as Hn. split.
  - intros k val Hk Hv. rewrite Hq in Hv by (by apply log_prefix_topo).
    destruct (Hwf _ _ Hk Hv) as (sq & s & d & b & ? & ? & ? & ?). exists sq, s, d, b. destruct_and!. split_and!; try done; lia.
  - assert (∀ sq s d, v' !! keys.xlog_entry c t sq s d = v !! keys.xlog_entry c t sq s d) as Hl
      by (intros; apply Hq; topo_key).
    assert (∀ s d, edge_at v' s d ↔ edge_at v s d) as Heq
      by (intros; unfold edge_at; rewrite Hq by topo_key; done).
    intros s d Hs Hd. destruct (Ht0 s d Hs Hd) as [(sq & b & (H1 & H2 & H3 & H4) & H5)|[H1 H2]].
    + left. exists sq, b. split; [|by rewrite Heq]. repeat split; [done..|by rewrite Hl|].
      intros. rewrite Hl. by apply H4.
    + right. split; [|by rewrite Heq]. intros sq ? ?. rewrite Hl. by apply H1.
Qed.

Lemma log_effect m b fl v0 q0 v q v' :
  mutation_ok m → edge_effect m b fl v q v' → q0 ≤ q →
  log_wf v q → log_tells v0 q0 v → log_wf v' (q + 1) ∧ log_tells v0 q0 v'.
Proof.
  intros Hm He Hq0 Hwf Ht0. pose proof Hname as Hn. pose proof (ee_seq _ _ _ _ _ _ He) as Hseq.
  assert (log_wf v' (q + 1)) as Hwf'.
  { intros k val Hk Hv.
    destruct (decide (k ∈ changed_keys m (q + 1))) as [Hin|Hnot].
    - pose proof (log_prefix_family k Hk) as Hf. pose proof (cell_name m Hm) as Hcn.
      revert Hin. unfold changed_keys. rewrite !elem_of_cons, elem_of_nil.
      assert (∀ f, name_ok f → f ≠ "xlog" → ∀ rest,
        k = "cell/" +:+ em_cell_id m +:+ "/" +:+ f +:+ "/" +:+ rest → False) as Hno.
      { intros f Hfo Hne rest ->. rewrite family_cell in Hf by done. by simplify_eq. }
      intros [E|[E|[E|[E|[E|[E|[E|[E|[]]]]]]]]].
      5: { subst k. apply log_prefix_pair in Hk as [-> ->]; [|auto with hydra..].
           rewrite (ee_log _ _ _ _ _ _ He) in Hv. injection Hv as <-.
           exists (q + 1), (em_src m), (em_dst m), b. split_and!; auto with hydra; lia. }
      all: exfalso; rewrite ?dirty_form in E;
        first [ apply (Hno "e" eq_refl ltac:(done) _ E) | apply (Hno "cnt" eq_refl ltac:(done) _ E)
              | apply (Hno "meta" eq_refl ltac:(done) _ E) ].
    - rewrite (ee_rest _ _ _ _ _ _ He) in Hv by (done || by apply log_prefix_topo).
      destruct (Hwf _ _ Hk Hv) as (sq & s & d & b' & ? & ? & ? & ?).
      exists sq, s, d, b'. destruct_and!. split_and!; try done; lia. }
  split; [done|]. intros s d Hs Hd.
  destruct (decide (same_pair m ∧ s = em_src m ∧ d = em_dst m)) as [[Hp [-> ->]]|Hne].
  - left. exists (q + 1), b. split; [split; [lia|split; [done|split]]|].
    + rewrite (effect_log m Hm b fl v q v' He) by auto with hydra. rewrite decide_True by done. done.
    + intros sq' Hlt Hok. apply (log_no_later v' (q + 1)); auto with hydra.
    + rewrite (effect_edge m Hm b fl v q v' He) by auto with hydra. by rewrite decide_True by done.
  - assert (∀ sq, u64_ok sq → v' !! keys.xlog_entry c t sq s d = v !! keys.xlog_entry c t sq s d) as Hl.
    { intros sq Hok. rewrite (effect_log m Hm b fl v q v' He) by auto with hydra.
      rewrite decide_False; [done|]. naive_solver. }
    assert (edge_at v' s d ↔ edge_at v s d) as Heq.
    { rewrite (effect_edge m Hm b fl v q v' He) by done. by rewrite decide_False by done. }
    destruct (Ht0 s d Hs Hd) as [(sq & b' & (H1 & H2 & H3 & H4) & H5)|[H1 H2]].
    + left. exists sq, b'. split; [|by rewrite Heq]. repeat split; [done..|by rewrite Hl|].
      intros. rewrite Hl by done. by apply H4.
    + right. split; [|by rewrite Heq]. intros sq ? ?. rewrite Hl by done. by apply H1.
Qed.
End cell.
