(* ===== verification/Sparse.v ===== *)
(** [sparse_kernel/mod.rs] and the compiled representation of
    [sparse_kernel/graphblas.rs]: adjacency search over ordered maps, the CSC
    form of an adjacency and its checks, and search over the compiled CSC.  The
    SuiteSparse matrix product behind the third kernel is foreign code. *)

From S2P Require Import Prelude Text Errors Model.

Local Open Scope N_scope.

Module sparse.

(** [BTreeMap<VertexId, BTreeSet<VertexId>>]. *)
Abbreviation Adjacency := (gmap VertexId (gset VertexId)).

(** A [usize] that indexes a vector is a [nat].  Indexing out of bounds panics;
    [at_] is total, and the lemmas of [SparseFacts] that use it carry the bounds. *)
Definition at_ {A} `{Inhabited A} (l : list A) (i : nat) : A := l !!! i.

(** * Vertex ordinals *)

(** [slice::binary_search] of the standard library: narrow [base] to the last
    element not above [x], then test it.  Each round at least halves [size]. *)
Fixpoint search_base (l : list VertexId) (x : VertexId) (fuel base size : nat) : nat :=
  match fuel with
  | O => base
  | S fuel =>
      if (size <=? 1)%nat then base
      else
        let half := (size / 2)%nat in
        let mid := (base + half)%nat in
        search_base l x fuel (if x <? at_ l mid then base else mid) (size - half)
  end.

Definition binary_search (l : list VertexId) (x : VertexId) : option nat :=
  if (length l =? 0)%nat then None
  else let base := search_base l x (length l) 0 (length l) in
       if at_ l base =? x then Some base else None.

(** * CSC form *)

Record GraphBlasCsc := MkCsc {
  csc_vertices : list VertexId; csc_pointers : list N; csc_indices : list N }.

Definition GRAPHBLAS_INDEX_MAX : N := N.shiftl 1 60 - 1.

Definition canonical_error (reason : string) : GraphError := SparseKernel "CanonicalAdjacency" reason.
Definition suite_error (reason : string) : GraphError := SparseKernel "SuiteSparseGraphBlas" reason.
Definition compact_error (reason : string) : GraphError := SparseKernel "CompactCsc" reason.

(** [indices.get(start..end)]. *)
Definition get_range {A} (l : list A) (s e : nat) : option (list A) :=
  if (s <=? e)%nat && (e <=? length l)%nat then Some (take (e - s) (drop s l)) else None.

Definition destination_vertex (c : GraphBlasCsc) (destination : N) : Result VertexId :=
  ok_or (csc_vertices c !! N.to_nat destination)
    (canonical_error ("destination ordinal " +:+ dec destination +:+ " is out of bounds")).

Definition add_row (c : GraphBlasCsc) (adjacency : Adjacency) (p : nat * VertexId) : Result Adjacency :=
  let '(source_ordinal, source) := p in
  let s := N.to_nat (at_ (csc_pointers c) source_ordinal) in
  let e := N.to_nat (at_ (csc_pointers c) (S source_ordinal)) in
  row ← ok_or (get_range (csc_indices c) s e)
          (canonical_error ("source row " +:+ dec (N.of_nat source_ordinal) +:+ " exceeds the index array"));
  match row with
  | [] => Ok adjacency
  | _ =>
      neighbors ← foldM (λ ns d, v ← destination_vertex c d; Ok ({[v]} ∪ ns)) (∅ : gset VertexId) row;
      Ok (<[source := neighbors]> adjacency)
  end.

Definition to_adjacency (c : GraphBlasCsc) : Result Adjacency :=
  if negb (length (csc_pointers c) =? S (length (csc_vertices c)))%nat
  then Err (canonical_error "pointer count does not match the vertex dictionary")
  else foldM (add_row c) ∅ (imap pair (csc_vertices c)).

Definition limit_reason (n : nat) : string :=
  dec (N.of_nat n) +:+ " local vertices exceed GraphBLAS index limit".

Definition graphblas_vertices_from_adjacency (adjacency : Adjacency) : Result (list VertexId) :=
  let vertices := foldl (λ vs p, foldl (λ vs d, {[d]} ∪ vs) ({[p.1]} ∪ vs) (bset_iter p.2))
                    (∅ : gset VertexId) (btree_iter adjacency) in
  if GRAPHBLAS_INDEX_MAX <? N.of_nat (size vertices)
  then Err (suite_error (limit_reason (size vertices)))
  else Ok (bset_iter vertices).

Definition csc_vertex_ordinal (vertices : list VertexId) (vertex : VertexId) (role : string) : Result nat :=
  ok_or (binary_search vertices vertex)
    (suite_error ("missing CSC ordinal for " +:+ role +:+ " vertex " +:+ dec vertex)).

(** [last().copied().unwrap_or(0)]. *)
Definition last_or_zero (l : list N) : N := default 0 (last l).

(** [pointers[i] += n]. *)
Definition bump (i : nat) (n : N) (l : list N) : list N := <[i := at_ l i + n]> l.

(** [for idx in 1..len { pointers[idx] += pointers[idx - 1] }]. *)
Definition prefix_sums (pointers : list N) : list N :=
  foldl (λ ps idx, bump idx (at_ ps (idx - 1)%nat) ps) pointers (seq 1 (length pointers - 1)).

(** [indices[*offset] = value; *offset += 1]. *)
Definition place (st : list N * list N) (row : nat) (value : N) : list N * list N :=
  let '(indices, offsets) := st in
  (<[N.to_nat (at_ offsets row) := value]> indices, bump row 1 offsets).

Definition graphblas_csc_from_adjacency (adjacency : Adjacency) : Result GraphBlasCsc :=
  vertices ← graphblas_vertices_from_adjacency adjacency;
  counts ← foldM (λ ps p,
             src_ordinal ← csc_vertex_ordinal vertices p.1 "source";
             Ok (bump (S src_ordinal) (N.of_nat (size p.2)) ps))
           (replicate (S (length vertices)) 0) (btree_iter adjacency);
  let pointers := prefix_sums counts in
  placed ← foldM (λ st p,
             src_ordinal ← csc_vertex_ordinal vertices p.1 "source";
             foldM (λ st dst,
               dst_ordinal ← csc_vertex_ordinal vertices dst "destination";
               Ok (place st src_ordinal (N.of_nat dst_ordinal))) st (bset_iter p.2))
           (replicate (N.to_nat (last_or_zero pointers)) 0, take (length vertices) pointers)
           (btree_iter adjacency);
  Ok (MkCsc vertices pointers placed.1).

(** ** Checks *)

(** [windows(2)] all satisfy [P]. *)
Fixpoint windows_all (P : N → N → bool) (l : list N) : bool :=
  match l with
  | a :: (b :: _) as l' => P a b && windows_all P l'
  | _ => true
  end.

Definition validate_csc (c : GraphBlasCsc) : Result () :=
  let vertices := csc_vertices c in
  let pointers := csc_pointers c in
  let indices := csc_indices c in
  if GRAPHBLAS_INDEX_MAX <? N.of_nat (length vertices)
  then Err (suite_error (limit_reason (length vertices)))
  else if negb (length pointers =? length vertices + 1)%nat
  then Err (suite_error ("CSC pointer count " +:+ dec (N.of_nat (length pointers))
              +:+ " does not match vertex count " +:+ dec (N.of_nat (length vertices))))
  else if negb (bool_decide (head pointers = Some 0))
  then Err (suite_error "CSC first pointer must be zero")
  else if negb (windows_all N.leb pointers)
  then Err (suite_error "CSC pointers must be monotonic")
  else if negb (N.to_nat (last_or_zero pointers) =? length indices)%nat
  then Err (suite_error ("CSC edge count " +:+ dec (last_or_zero pointers)
              +:+ " does not match index count " +:+ dec (N.of_nat (length indices))))
  else match list_find (λ index, N.of_nat (length vertices) ≤ index) indices with
       | Some (_, index) =>
           Err (suite_error ("CSC row index " +:+ dec index
              +:+ " exceeds dimension " +:+ dec (N.of_nat (length vertices))))
       | None =>
           if negb (windows_all N.ltb vertices)
           then Err (suite_error "CSC vertices must be sorted and unique")
           else Ok tt
       end.

(** The same checks for parts held as [u32], without the index limit. *)
Definition validate_compact_u32_csc (vertices : list VertexId) (pointers indices : list N) : Result () :=
  if negb (length pointers =? length vertices + 1)%nat
  then Err (compact_error ("CSC pointer count " +:+ dec (N.of_nat (length pointers))
              +:+ " does not match vertex count " +:+ dec (N.of_nat (length vertices))))
  else if negb (bool_decide (head pointers = Some 0))
  then Err (compact_error "CSC first pointer must be zero")
  else if negb (windows_all N.leb pointers)
  then Err (compact_error "CSC pointers must be monotonic")
  else if negb (N.to_nat (last_or_zero pointers) =? length indices)%nat
  then Err (compact_error ("CSC edge count " +:+ dec (last_or_zero pointers)
              +:+ " does not match index count " +:+ dec (N.of_nat (length indices))))
  else match list_find (λ index, N.of_nat (length vertices) ≤ index) indices with
       | Some (_, index) =>
           Err (compact_error ("CSC row index " +:+ dec index
              +:+ " exceeds dimension " +:+ dec (N.of_nat (length vertices))))
       | None =>
           if negb (windows_all N.ltb vertices)
           then Err (compact_error "CSC vertices must be sorted and unique")
           else Ok tt
       end.

(** * The compiled matrix *)

Inductive SparseKernelBackend : Type := AdjacencyKernel | CompactCsc | SuiteSparse.
Global Instance SparseKernelBackend_eq_dec : EqDecision SparseKernelBackend.
Proof. solve_decision. Defined.

Record SparseTraversal := MkTraversal {
  st_vertices : list VertexId; st_edge_visits : N; st_backend : SparseKernelBackend }.
Record SparseTraversalCount := MkTraversalCount {
  tc_vertices : N; tc_edge_visits : N; tc_backend : SparseKernelBackend }.

(** Ordinals are held in 32 bits when they all fit. *)
Inductive CompactOrdinalVec : Type :=
  | U32 (values : list N)
  | U64 (values : list N).

Definition u32_max : N := 4294967295.
Definition as_u32 (n : N) : N := n mod 4294967296.

Definition from_u64 (values : list N) : CompactOrdinalVec :=
  if forallb (λ value, value <=? u32_max) values then U32 (as_u32 <$> values) else U64 values.
Definition from_u32 (values : list N) : CompactOrdinalVec := U32 values.
Definition ov_get (v : CompactOrdinalVec) (index : nat) : nat :=
  match v with U32 values | U64 values => N.to_nat (at_ values index) end.
Definition ov_len (v : CompactOrdinalVec) : nat :=
  match v with U32 values | U64 values => length values end.

Record CompiledCompactCscMatrix := MkCompact {
  m_vertices : list VertexId; m_pointers : CompactOrdinalVec; m_indices : CompactOrdinalVec }.

Definition from_csc (c : GraphBlasCsc) : CompiledCompactCscMatrix :=
  MkCompact (csc_vertices c) (from_u64 (csc_pointers c)) (from_u64 (csc_indices c)).
Definition from_u32_parts (vertices : list VertexId) (pointers indices : list N) : CompiledCompactCscMatrix :=
  MkCompact vertices (from_u32 pointers) (from_u32 indices).

Definition dimension (m : CompiledCompactCscMatrix) : nat := length (m_vertices m).
Definition ordinal (m : CompiledCompactCscMatrix) (vertex : VertexId) : option nat :=
  binary_search (m_vertices m) vertex.
Definition pointer (m : CompiledCompactCscMatrix) (ordinal : nat) : nat := ov_get (m_pointers m) ordinal.
Definition neighbor (m : CompiledCompactCscMatrix) (index : nat) : nat := ov_get (m_indices m) index.
Definition degree (m : CompiledCompactCscMatrix) (ordinal : nat) : N :=
  N.of_nat (pointer m (S ordinal) - pointer m ordinal).
Definition vertex_degree (m : CompiledCompactCscMatrix) (vertex : VertexId) : N :=
  match ordinal m vertex with Some o => degree m o | None => 0 end.
(** The half-open range of a row, as the indices an iterator yields. *)
Definition neighbor_range (m : CompiledCompactCscMatrix) (ordinal : nat) : list nat :=
  seq (pointer m ordinal) (pointer m (S ordinal) - pointer m ordinal).

Definition compact_contains_edge (m : CompiledCompactCscMatrix) (src dst : VertexId) : bool :=
  match ordinal m src, ordinal m dst with
  | Some src_ordinal, Some dst_ordinal =>
      existsb (λ index, (neighbor m index =? dst_ordinal)%nat) (neighbor_range m src_ordinal)
  | _, _ => false
  end.

Definition neighbors (m : CompiledCompactCscMatrix) (vertex : VertexId) : list VertexId :=
  match ordinal m vertex with
  | None => []
  | Some o => (λ index, at_ (m_vertices m) (neighbor m index)) <$> neighbor_range m o
  end.

Definition neighbors_intersecting (m : CompiledCompactCscMatrix) (vertex : VertexId)
  (allowed : gset VertexId) : list VertexId :=
  match ordinal m vertex with
  | None => []
  | Some o => filter (λ v, v ∈ allowed)
                ((λ index, at_ (m_vertices m) (neighbor m index)) <$> neighbor_range m o)
  end.

Definition transpose (m : CompiledCompactCscMatrix) : CompiledCompactCscMatrix :=
  let dim := dimension m in
  let counts := foldl (λ ps index, bump (S (neighbor m index)) 1 ps)
                  (replicate (S dim) 0) (seq 0 (ov_len (m_indices m))) in
  let pointers := prefix_sums counts in
  let placed := foldl (λ st src,
                  foldl (λ st index, place st (neighbor m index) (N.of_nat src)) st (neighbor_range m src))
                (replicate (ov_len (m_indices m)) 0, take dim pointers) (seq 0 dim) in
  MkCompact (m_vertices m) (from_u64 pointers) (from_u64 placed.1).

(** ** Search *)

(** [sort_unstable] then [dedup] of ordinals. *)
Fixpoint dedup (l : list nat) : list nat :=
  match l with
  | a :: (b :: _) as l' => if (a =? b)%nat then dedup l' else a :: dedup l'
  | _ => l
  end.
Definition start_ordinals (m : CompiledCompactCscMatrix) (starts : list VertexId) : list nat :=
  dedup (merge_sort le (omap (ordinal m) starts)).

Definition compact_empty_traversal : SparseTraversal := MkTraversal [] 0 CompactCsc.

(** One destination of the frontier: new ones are marked with the depth and
    pushed.  [skip] is the test on the vertices seen before, if any. *)
Definition push_next (dim : nat) (marker : N) (skip : nat → bool) (st : list N * list nat) (dst : nat) :
  list N * list nat :=
  let '(next_seen, next) := st in
  if (dim <=? dst)%nat || skip dst || (at_ next_seen dst =? marker) then st
  else (<[dst := marker]> next_seen, next ++ [dst]).

Definition scan_source (m : CompiledCompactCscMatrix) (marker : N) (skip : nat → bool)
  (st : N * (list N * list nat)) (src : nat) : N * (list N * list nat) :=
  (saturating_add st.1 (degree m src),
   foldl (λ ns index, push_next (dimension m) marker skip ns (neighbor m index)) st.2
     (neighbor_range m src)).

Definition scan_frontier (m : CompiledCompactCscMatrix) (marker : N) (skip : nat → bool)
  (edge_visits : N) (next_seen : list N) (frontier : list nat) : N * (list N * list nat) :=
  foldl (scan_source m marker skip) (edge_visits, (next_seen, [])) frontier.

Definition mark_all (bitmap : list bool) (l : list nat) : list bool :=
  foldl (λ b o, <[o := true]> b) bitmap l.

(** The loop of [expand]; [hops] rounds are left, [depth] is the next. *)
Fixpoint expand_rounds (m : CompiledCompactCscMatrix) (hops : nat) (depth : N)
  (seen : list bool) (next_seen : list N) (frontier : list nat) (edge_visits : N) : list bool * N :=
  match hops with
  | O => (seen, edge_visits)
  | S hops =>
      let '(edge_visits, (next_seen, next)) :=
        scan_frontier m depth (at_ seen) edge_visits next_seen frontier in
      match next with
      | [] => (seen, edge_visits)
      | _ => expand_rounds m hops (depth + 1) (mark_all seen next) next_seen next edge_visits
      end
  end.

(** The ordinals set in a bitmap, ascending. *)
Definition ordinals_of (bitmap : list bool) : list nat :=
  omap (λ p, if p.2 : bool then Some p.1 else None) (imap pair bitmap).

Definition compact_expand (m : CompiledCompactCscMatrix) (starts : list VertexId) (hops : N) :
  Result SparseTraversal :=
  if (hops =? 0) || (dimension m =? 0)%nat || (length starts =? 0)%nat then Ok compact_empty_traversal
  else
    let start_ords := start_ordinals m starts in
    match start_ords with
    | [] => Ok compact_empty_traversal
    | _ =>
        let start_seen := mark_all (replicate (dimension m) false) start_ords in
        let '(seen, edge_visits) :=
          expand_rounds m (N.to_nat hops) 1 start_seen (replicate (dimension m) 0) start_ords 0 in
        Ok (MkTraversal
              (at_ (m_vertices m) <$> filter (λ o, at_ start_seen o = false) (ordinals_of seen))
              edge_visits CompactCsc)
    end.

Fixpoint range_rounds (m : CompiledCompactCscMatrix) (min_hops : N) (hops : nat) (depth : N)
  (result_seen : list bool) (next_seen : list N) (frontier : list nat) (edge_visits : N) :
  list bool * N :=
  match hops with
  | O => (result_seen, edge_visits)
  | S hops =>
      let '(edge_visits, (next_seen, next)) :=
        scan_frontier m depth (λ _, false) edge_visits next_seen frontier in
      let result_seen := if min_hops <=? depth then mark_all result_seen next else result_seen in
      match next with
      | [] => (result_seen, edge_visits)
      | _ => range_rounds m min_hops hops (depth + 1) result_seen next_seen next edge_visits
      end
  end.

Definition expand_range_bitmap (m : CompiledCompactCscMatrix) (starts : list VertexId)
  (min_hops max_hops : N) : Result (list bool * N) :=
  if (max_hops <? min_hops) || (dimension m =? 0)%nat || (length starts =? 0)%nat then Ok ([], 0)
  else
    let frontier := start_ordinals m starts in
    match frontier with
    | [] => Ok ([], 0)
    | _ =>
        let none := replicate (dimension m) false in
        let result_seen := if min_hops =? 0 then mark_all none frontier else none in
        Ok (range_rounds m min_hops (N.to_nat max_hops) 1 result_seen
              (replicate (dimension m) 0) frontier 0)
    end.

Definition expand_range_ordinals (m : CompiledCompactCscMatrix) (starts : list VertexId)
  (min_hops max_hops : N) : Result (list nat * N) :=
  '(result_seen, edge_visits) ← expand_range_bitmap m starts min_hops max_hops;
  Ok (ordinals_of result_seen, edge_visits).

Definition compact_expand_range (m : CompiledCompactCscMatrix) (starts : list VertexId)
  (min_hops max_hops : N) : Result SparseTraversal :=
  '(vertices, edge_visits) ← expand_range_ordinals m starts min_hops max_hops;
  Ok (MkTraversal (at_ (m_vertices m) <$> vertices) edge_visits CompactCsc).

Definition compact_expand_range_count (m : CompiledCompactCscMatrix) (starts : list VertexId)
  (min_hops max_hops : N) : Result SparseTraversalCount :=
  '(result_seen, edge_visits) ← expand_range_bitmap m starts min_hops max_hops;
  Ok (MkTraversalCount (N.of_nat (length (filter Is_true result_seen))) edge_visits CompactCsc).

(** ** The artifact and its kernels *)

(** The native replicas of a SuiteSparse artifact are foreign; what the
    traversals read of them is the canonical matrix they were built from. *)
Record CompiledGraphBlasMatrix := MkCompiled {
  canonical_out : CompiledCompactCscMatrix; compiled_kernel_of : SparseKernelBackend; edge_count : nat }.

Definition compiled_kernel (requested : SparseKernelBackend) : SparseKernelBackend :=
  match requested with
  | SuiteSparse => SuiteSparse
  | AdjacencyKernel | CompactCsc => CompactCsc
  end.

Section compile.
(** Starting the library and building the native matrices, which may fail. *)
Context (build_native : GraphBlasCsc → Result ()).

Definition new_from_csc (c : GraphBlasCsc) (kernel : SparseKernelBackend) : Result CompiledGraphBlasMatrix :=
  _ ← validate_csc c;
  let kernel := compiled_kernel kernel in
  let out := from_csc c in
  if bool_decide (kernel = CompactCsc) then Ok (MkCompiled out kernel (length (csc_indices c)))
  else _ ← build_native c; Ok (MkCompiled out kernel (length (csc_indices c))).

(** The same, moving the parts of [c] instead of copying them. *)
Definition new_from_csc_owned (c : GraphBlasCsc) (kernel : SparseKernelBackend) :
  Result CompiledGraphBlasMatrix :=
  _ ← validate_csc c;
  let kernel := compiled_kernel kernel in
  if bool_decide (kernel = CompactCsc) then Ok (MkCompiled (from_csc c) kernel (length (csc_indices c)))
  else new_from_csc c kernel.

Definition compile_new (adjacency : Adjacency) (kernel : SparseKernelBackend) : Result CompiledGraphBlasMatrix :=
  c ← graphblas_csc_from_adjacency adjacency; new_from_csc c kernel.

Definition new_from_compact_u32 (vertices : list VertexId) (pointers indices : list N)
  (kernel : SparseKernelBackend) : Result CompiledGraphBlasMatrix :=
  _ ← validate_compact_u32_csc vertices pointers indices;
  let kernel := compiled_kernel kernel in
  if bool_decide (kernel = CompactCsc)
  then Ok (MkCompiled (from_u32_parts vertices pointers indices) kernel (length indices))
  else new_from_csc_owned (MkCsc vertices pointers indices) kernel.
End compile.

Section traverse.
(** The traversals of a locked native replica. *)
Context (native_expand : CompiledGraphBlasMatrix → list VertexId → N → Result SparseTraversal).
Context (native_expand_range : CompiledGraphBlasMatrix → list VertexId → N → N → Result SparseTraversal).

Definition compiled_expand (c : CompiledGraphBlasMatrix) (starts : list VertexId) (hops : N) :
  Result SparseTraversal :=
  if bool_decide (compiled_kernel_of c = CompactCsc) then compact_expand (canonical_out c) starts hops
  else native_expand c starts hops.

Definition compiled_expand_range (c : CompiledGraphBlasMatrix) (starts : list VertexId)
  (min_hops max_hops : N) : Result SparseTraversal :=
  if bool_decide (compiled_kernel_of c = CompactCsc)
  then compact_expand_range (canonical_out c) starts min_hops max_hops
  else native_expand_range c starts min_hops max_hops.
End traverse.

Definition contains_edge (c : CompiledGraphBlasMatrix) (src dst : VertexId) : bool :=
  compact_contains_edge (canonical_out c) src dst.
Definition out_neighbors (c : CompiledGraphBlasMatrix) (vertex : VertexId) : list VertexId :=
  neighbors (canonical_out c) vertex.
(** [canonical_in] is filled on first use and read from then on. *)
Definition in_neighbors (c : CompiledGraphBlasMatrix) (vertex : VertexId) : list VertexId :=
  neighbors (transpose (canonical_out c)) vertex.
Definition out_degree (c : CompiledGraphBlasMatrix) (vertex : VertexId) : N :=
  vertex_degree (canonical_out c) vertex.
Definition in_degree (c : CompiledGraphBlasMatrix) (vertex : VertexId) : N :=
  vertex_degree (transpose (canonical_out c)) vertex.
Definition out_neighbors_intersecting (c : CompiledGraphBlasMatrix) (vertex : VertexId)
  (allowed : gset VertexId) : list VertexId := neighbors_intersecting (canonical_out c) vertex allowed.
Definition in_neighbors_intersecting (c : CompiledGraphBlasMatrix) (vertex : VertexId)
  (allowed : gset VertexId) : list VertexId :=
  neighbors_intersecting (transpose (canonical_out c)) vertex allowed.

(** * The adjacency kernel *)

(** [edge_visits += n] wraps in a release build. *)
Definition visit_neighbors (st : N * (gset VertexId * gset VertexId)) (ns : gset VertexId) :
  N * (gset VertexId * gset VertexId) :=
  (wrapping_add st.1 (N.of_nat (size ns)),
   foldl (λ '(seen, next) dst, if bool_decide (dst ∈ seen) then (seen, next)
                               else ({[dst]} ∪ seen, {[dst]} ∪ next)) st.2 (bset_iter ns)).

Fixpoint rust_rounds (adjacency : Adjacency) (hops : nat) (frontier seen : gset VertexId)
  (edge_visits : N) : gset VertexId * N :=
  match hops with
  | O => (seen, edge_visits)
  | S hops =>
      let '(edge_visits, (seen, next)) :=
        foldl (λ st src, match adjacency !! src with
                         | Some ns => visit_neighbors st ns
                         | None => st
                         end) (edge_visits, (seen, ∅)) (bset_iter frontier) in
      if bool_decide (next = ∅) then (seen, edge_visits)
      else rust_rounds adjacency hops next seen edge_visits
  end.

Definition expand_rust (adjacency : Adjacency) (starts : list VertexId) (hops : N) : SparseTraversal :=
  let start_set : gset VertexId := list_to_set starts in
  let '(seen, edge_visits) := rust_rounds adjacency (N.to_nat hops) start_set start_set 0 in
  MkTraversal (filter (λ v, v ∉ start_set) (bset_iter seen)) edge_visits AdjacencyKernel.

End sparse.
