(* ===== verification/Overlay.v ===== *)
(** [shard/topology_tail.rs]: the topology changes a compiled index does not
    hold.  The overlay and its application to neighbour sets and traversals, the
    topology entries of a WAL file, and the cache of parsed files. *)

From S2P Require Import Prelude Text Errors Model Keys Codec CodecRecords Sparse.

Local Open Scope N_scope.

Module overlay.

(** * The overlay *)

Record GraphTopologyOverlay := MkOverlay { states : gmap VertexId (gmap VertexId bool) }.
Definition default : GraphTopologyOverlay := MkOverlay ∅.

Definition destinations (o : GraphTopologyOverlay) (src : VertexId) : gmap VertexId bool :=
  match states o !! src with Some ds => ds | None => ∅ end.

Definition set (o : GraphTopologyOverlay) (src dst : VertexId) (exists_ : bool) :
  GraphTopologyOverlay :=
  MkOverlay (<[src := <[dst := exists_]> (destinations o src)]> (states o)).

Definition state (o : GraphTopologyOverlay) (src dst : VertexId) : option bool :=
  ds ← states o !! src; ds !! dst.

Definition entries (o : GraphTopologyOverlay) : list (VertexId * VertexId * bool) :=
  btree_iter (states o) ≫= λ p, (λ q, (p.1, q.1, q.2)) <$> btree_iter p.2.

Definition usize_as_u64 (n : nat) : N := N.min (N.of_nat n) u64_max.

Definition apply_in_neighbors (o : GraphTopologyOverlay) (dst : VertexId) (neighbors : gset VertexId) :
  N * gset VertexId :=
  (usize_as_u64 (size (states o)),
   foldl (λ ns p, match p.2 !! dst with
                  | None => ns
                  | Some true => {[p.1]} ∪ ns
                  | Some false => ns ∖ {[p.1]}
                  end) neighbors (btree_iter (states o))).

Definition apply_out_neighbors (o : GraphTopologyOverlay) (src : VertexId) (neighbors : gset VertexId) :
  N * gset VertexId :=
  match states o !! src with
  | None => (0, neighbors)
  | Some ds =>
      (usize_as_u64 (size ds),
       foldl (λ ns p, if p.2 : bool then {[p.1]} ∪ ns else ns ∖ {[p.1]}) neighbors (btree_iter ds))
  end.

(** * Traversal

    One round expands the frontier over the compiled matrix, then applies the
    overlay's changes to the frontier's edges. *)

Import sparse.

Section expand.
(** The expansion of a SuiteSparse artifact is foreign. *)
Context (native_expand : CompiledGraphBlasMatrix → list VertexId → N → Result SparseTraversal).

(** The edge test of the traversal: the overlay's word, else the matrix's. *)
Definition effective (compiled : CompiledGraphBlasMatrix) (o : GraphTopologyOverlay) (src dst : VertexId) : bool :=
  match state o src dst with Some b => b | None => contains_edge compiled src dst end.

Definition apply_change (compiled : CompiledGraphBlasMatrix) (o : GraphTopologyOverlay)
  (frontier : list VertexId) (next : gset VertexId) (change : VertexId * bool) : gset VertexId :=
  let '(dst, exists_) := change in
  if exists_ : bool then {[dst]} ∪ next
  else if bool_decide (dst ∈ next) &&
          negb (existsb (λ candidate, effective compiled o candidate dst) frontier)
       then next ∖ {[dst]} else next.

Definition apply_source (compiled : CompiledGraphBlasMatrix) (o : GraphTopologyOverlay)
  (frontier : list VertexId) (acc : N * gset VertexId) (src : VertexId) : N * gset VertexId :=
  match states o !! src with
  | None => acc
  | Some changes =>
      (saturating_add acc.1 (usize_as_u64 (size changes)),
       foldl (apply_change compiled o frontier) acc.2 (btree_iter changes))
  end.

Definition expand_hop (compiled : CompiledGraphBlasMatrix) (o : GraphTopologyOverlay)
  (frontier : gset VertexId) (edge_visits : N) : Result (N * gset VertexId) :=
  let values := bset_iter frontier in
  base ← compiled_expand native_expand compiled values 1;
  Ok (foldl (apply_source compiled o values)
        (saturating_add edge_visits (st_edge_visits base), list_to_set (st_vertices base)) values).

(** [hops] is the number of hops left, [hop] the one to run. *)
Fixpoint expand_hops (compiled : CompiledGraphBlasMatrix) (o : GraphTopologyOverlay) (min_hops : N)
  (hops : nat) (hop : N) (frontier reachable : gset VertexId) (edge_visits : N) :
  Result (N * gset VertexId) :=
  match hops with
  | O => Ok (edge_visits, reachable)
  | S hops =>
      if bool_decide (frontier = ∅) then Ok (edge_visits, reachable)
      else
        '(edge_visits, next) ← expand_hop compiled o frontier edge_visits;
        let reachable := if min_hops <=? hop then next ∪ reachable else reachable in
        expand_hops compiled o min_hops hops (hop + 1) next reachable edge_visits
  end.

Definition expand_range_with_overlay (compiled : CompiledGraphBlasMatrix) (o : GraphTopologyOverlay)
  (starts : list VertexId) (min_hops max_hops : N) : Result SparseTraversal :=
  '(edge_visits, reachable) ←
    expand_hops compiled o min_hops (N.to_nat max_hops) 1 (list_to_set starts) ∅ 0;
  Ok (MkTraversal (bset_iter reachable) edge_visits (compiled_kernel_of compiled)).
End expand.

(** * WAL files *)

Record GraphIndexGeneration := MkGeneration {
  gen_cell_id : string; gen_edge_type : string; gen_base_sequence : StorageSequence;
  gen_last_wal_id : N; gen_edge_count : N; gen_checksum : N; gen_generation : string }.

Inductive WalTopologyEntryDecoded : Type :=
  | WalEdge (src dst : VertexId)
  | WalCorrupt (key reason : string).

Record WalTopologyEntry := MkWalEntry {
  wal_cell_id : string; wal_edge_type : string; wal_seq : N; wal_decoded : WalTopologyEntryDecoded }.

Definition affected_edge_for (e : WalTopologyEntry) (g : GraphIndexGeneration)
  (read_sequence : StorageSequence) : Result (option (VertexId * VertexId)) :=
  if (wal_seq e <=? gen_base_sequence g) || (read_sequence <? wal_seq e)
     || negb (bool_decide (wal_cell_id e = gen_cell_id g))
     || negb (bool_decide (wal_edge_type e = gen_edge_type g))
  then Ok None
  else match wal_decoded e with
       | WalEdge src dst => Ok (Some (src, dst))
       | WalCorrupt key reason => Err (CorruptValue key reason)
       end.

(** Decoding a key or a value only fails with [CorruptValue]; the text of any
    other error is a parameter. *)
Section collect.
Context (error_to_string : GraphError → string).

Definition corrupt_wal_topology_entry (cell_id edge_type fallback_key : string) (seq : N)
  (error : GraphError) : WalTopologyEntry :=
  let '(key, reason) := match error with
    | CorruptValue key reason => (key, reason)
    | error => (fallback_key, error_to_string error)
    end in
  MkWalEntry cell_id edge_type seq (WalCorrupt key reason).

Definition push_wal_topology_edge (parsed : list WalTopologyEntry)
  (cell_id edge_type key src dst : string) (seq : N) : list WalTopologyEntry :=
  let decoded := s ← parse_u64 key src "src"; d ← parse_u64 key dst "dst"; Ok (s, d) in
  parsed ++ [match decoded with
             | Ok (s, d) => MkWalEntry cell_id edge_type seq (WalEdge s d)
             | Err error => corrupt_wal_topology_entry cell_id edge_type key seq error
             end].

(** A WAL value is bytes, or a tombstone. *)
Definition collect_wal_topology_entry (key : string) (value : option string) (seq : N)
  (parsed : list WalTopologyEntry) : list WalTopologyEntry :=
  match from_utf8 key with
  | Err _ => parsed
  | Ok key =>
      match split chr_slash key with
      | [p0; cell; p2; p3; edge_type; src; dst] =>
          if lit p0 "cell" && lit p2 "e" && lit p3 "out"
          then push_wal_topology_edge parsed cell edge_type key src dst seq else parsed
      | [p0; cell; p2; p3; p4; p5; p6; p7] =>
          if lit p0 "cell" && lit p2 "seg" && lit p3 "tomb" && lit p4 "out"
          then push_wal_topology_edge parsed cell p5 key p6 p7 seq
          else if lit p0 "cell" && lit p2 "seg" && lit p3 "out" then
            match value with
            | None => parsed
            | Some value =>
                match decode_out_edge_segment key value with
                | Ok segment =>
                    parsed ++ ((λ dst, MkWalEntry cell p4 seq (WalEdge (oes_src segment) dst))
                               <$> oes_destinations segment)
                | Err error => parsed ++ [corrupt_wal_topology_entry cell p4 key seq error]
                end
            end
          else parsed
      | _ => parsed
      end
  end.
End collect.

(** * The cache of parsed files *)

Definition WAL_TAIL_CACHE_MAX_ENTRIES : N := 65536.

Record WalTailFileCache := MkWalCache {
  files : gmap N (list WalTopologyEntry); total_entries : N }.
Definition wal_cache_default : WalTailFileCache := MkWalCache ∅ 0.

Definition wal_get (c : WalTailFileCache) (wal_id : N) : option (list WalTopologyEntry) :=
  files c !! wal_id.

Definition file_len (l : list WalTopologyEntry) : N := N.of_nat (length l).

(** Pop the smallest id until the total fits; each round removes a file. *)
Fixpoint evict_loop (fuel : nat) (c : WalTailFileCache) : WalTailFileCache :=
  match fuel with
  | O => c
  | S fuel =>
      if total_entries c <=? WAL_TAIL_CACHE_MAX_ENTRIES then c
      else match btree_iter (files c) with
           | [] => c
           | (id, evicted) :: _ =>
               evict_loop fuel (MkWalCache (delete id (files c))
                                  (saturating_sub (total_entries c) (file_len evicted)))
           end
  end.

Definition wal_insert (c : WalTailFileCache) (wal_id : N) (es : list WalTopologyEntry) :
  WalTailFileCache :=
  if WAL_TAIL_CACHE_MAX_ENTRIES <? file_len es then c
  else
    let total := match files c !! wal_id with
                 | Some previous => saturating_sub (total_entries c) (file_len previous)
                 | None => total_entries c
                 end in
    let c' := MkWalCache (<[wal_id := es]> (files c)) (saturating_add total (file_len es)) in
    evict_loop (S (size (files c'))) c'.

End overlay.
