(* ===== verification/Xlog.v ===== *)
(** [shard/xlog.rs] and the write batches of [shard/maintenance.rs]: deriving the
    topology change since an index generation from the change log, and collecting
    the entries a published generation has made dead. *)

From S2P Require Import Prelude Text Errors Model Namespace Keys Codec CodecRecords Kv ShardTxn SegmentReads ShardWrite Overlay.

Local Open Scope N_scope.

(** * Entries *)

Definition xlog_component (key name : string) (components : list string) :
  Result (N * list string) :=
  match components with
  | [] => corrupt key ("xlog key missing numeric " +:+ name)
  | value :: rest =>
      match parse_u64_text value with
      | Ok n => Ok (n, rest)
      | Err _ => corrupt key ("xlog key missing numeric " +:+ name)
      end
  end.

Definition parse_xlog_entry_key (prefix key : string) :
  Result (StorageSequence * VertexId * VertexId) :=
  suffix ← ok_or (strip_prefix prefix key) (CorruptValue key "xlog key does not match scan prefix");
  '(sequence, components) ← xlog_component key "sequence" (split chr_slash suffix);
  '(src, components) ← xlog_component key "src" components;
  '(dst, components) ← xlog_component key "dst" components;
  match components with
  | [] => Ok (sequence, src, dst)
  | _ :: _ => corrupt key "xlog key has trailing components"
  end.

Definition decode_xlog_exists (key value : string) : Result bool :=
  if bool_decide (value = xlog_value false) then Ok false
  else if bool_decide (value = xlog_value true) then Ok true
  else corrupt key "xlog value must be a single 0/1 existence byte".

(** * The delta of an incremental build *)

Inductive XlogDelta : Type :=
  | XlogComplete (o : overlay.GraphTopologyOverlay)
  | XlogUninitialized
  | XlogCoverageGap (low_water : StorageSequence).

Definition xlog_delta_step (prefix : string) (o : overlay.GraphTopologyOverlay)
  (kv : string * string) : Result (Flow overlay.GraphTopologyOverlay) :=
  let key := entry_key kv in
  '(_, src, dst) ← parse_xlog_entry_key prefix key;
  exists_ ← decode_xlog_exists key kv.2;
  Ok (Continue (overlay.set o src dst exists_)).

Inductive GraphWriteOp : Type := WPut (key value : string) | WDelete (key : string).
Definition GraphWriteBatch : Type := list GraphWriteOp.

Section xlog.
Context {S : SlateDb}.

Definition xlog_delta_since (snapshot : Snap) (previous : overlay.GraphIndexGeneration)
  (base_sequence : StorageSequence) (cell_id edge_type : string) : Result XlogDelta :=
  let low_key := keys.xlog_low_water cell_id edge_type in
  value ← slate (snap_get snapshot low_key);
  match value with
  | None => Ok XlogUninitialized
  | Some value =>
      low_water ← decode_u64 low_key value;
      let from := saturating_add (overlay.gen_base_sequence previous) 1 in
      if from <? low_water then Ok (XlogCoverageGap low_water)
      else
        let prefix := keys.xlog_type_prefix cell_id edge_type in
        let upper := saturating_add base_sequence 1 in
        o ← scan_loop (xlog_delta_step prefix) overlay.default
              (snap_scan_prefix snapshot prefix (Some (pad20 from)) (Some (pad20 upper)));
        Ok (XlogComplete o)
  end.

(** * Write batches *)

Definition record_graph_batch_commit (operation : string) (record_count : nat) : SM (Shard S) unit :=
  if bool_decide (operation = "build_matrix_tiles")
  then on_metrics (bump_published (N.of_nat record_count))
  else mret tt.

Definition apply_op (op : GraphWriteOp) : SM (Tx S) unit :=
  match op with WPut key value => t_put key value | WDelete key => t_delete key end.

Definition write_graph_batch_txn (cell_id operation : string) (batch : GraphWriteBatch) :
  SM (Shard S) unit :=
  with_txn (
    validate_write_fence_txn cell_id operation ;;
    for_each apply_op batch ;;
    commit_txn_traced).

Fixpoint batch_retry_loop (attempt committed : SM (Shard S) unit) (attempts : nat) :
  SM (Shard S) unit :=
  match attempts with
  | O => fails (RetryExhausted "graph transaction" (N.of_nat GRAPH_TXN_MAX_RETRIES))
  | Datatypes.S attempts => λ s,
      match attempt s with
      | (s', Ok _) => committed s'
      | (s', Err e) =>
          if is_retryable_write_conflict e && negb (attempts =? 0)%nat
          then (on_metrics bump_retries ;; batch_retry_loop attempt committed attempts) s'
          else (s', Err e)
      end
  end.

Definition write_graph_batch_strict (cell_id operation : string) (batch : GraphWriteBatch) :
  SM (Shard S) unit :=
  lift (validate_component "cell_id" cell_id) ;;
  match batch with
  | [] => mret tt
  | _ :: _ =>
      batch_retry_loop (write_graph_batch_txn cell_id operation batch)
        (record_graph_batch_commit operation (length batch)) GRAPH_TXN_MAX_RETRIES
  end.

Definition write_graph_batch_strict_with_cell_lock (cell_id operation : string)
  (batch : GraphWriteBatch) : SM (Shard S) unit :=
  match batch with
  | [] => mret tt
  | _ :: _ =>
      acquire_local_write_guard cell_id operation ;; write_graph_batch_strict cell_id operation batch
  end.

(** * Garbage collection *)

Definition XLOG_GC_MAX_DELETES : N := 100000.

Record GcScan := MkGcScan { dead_keys : list string; last_sequence : StorageSequence; capped : bool }.

Definition gc_step (prefix : string) (gc_through : StorageSequence) (acc : GcScan)
  (kv : string * string) : Result (Flow GcScan) :=
  let key := entry_key kv in
  '(sequence, _, _) ← parse_xlog_entry_key prefix key;
  Ok (if gc_through <? sequence then Break acc
      else
        let dead := dead_keys acc ++ [key] in
        if XLOG_GC_MAX_DELETES <=? N.of_nat (length dead)
        then Break (MkGcScan dead sequence true)
        else Continue (MkGcScan dead sequence false)).

Definition ensure_cell_readable (cell_id operation : string) : SM (Shard S) unit :=
  lift (validate_component "cell_id" cell_id) ;;
  dropped ← read_remote (keys.cell_drop_marker cell_id);
  pending ← (match dropped with
             | Some _ => mret (Some "")
             | None => read_remote (keys.cell_drop_pending_marker cell_id)
             end);
  match pending with
  | Some _ => fails (CellDropped operation cell_id)
  | None => mret tt
  end.

Definition snapshot_seq : SM (Shard S) StorageSequence := λ sh,
  (sh, slate (db_snapshot (sh_db sh)) ≫= λ n, Ok (snap_seq n)).
Definition current_epoch (cell_id : string) : SM (Shard S) StorageSequence :=
  lift (validate_component "cell_id" cell_id) ;;
  ensure_cell_readable cell_id "current_epoch" ;;
  snapshot_seq.

Definition gc_operation : string := "gc_topology_changelog".

(** An absent floor is repaired at the current epoch. *)
Definition repair_floor (cell_id edge_type : string) : SM (Shard S) N :=
  repaired ← current_epoch cell_id;
  write_graph_batch_strict_with_cell_lock cell_id gc_operation
    [WPut (keys.xlog_low_water cell_id edge_type) (encode_u64 repaired)] ;;
  mret 0.

Definition gc_batch (low_key : string) (low_water gc_through : StorageSequence) (scan : GcScan) :
  GraphWriteBatch :=
  let next_low := if capped scan then last_sequence scan else saturating_add gc_through 1 in
  (WDelete <$> dead_keys scan) ++
  (if low_water <? next_low then [WPut low_key (encode_u64 next_low)] else []).

Definition gc_scan (prefix : string) (low_water gc_through : StorageSequence) :
  SM (Shard S) GcScan := λ sh,
  (sh, scan_loop (gc_step prefix gc_through) (MkGcScan [] low_water false)
         (db_scan_prefix (sh_db sh) prefix (Some (pad20 low_water)))).

Definition gc_topology_changelog_to (generation : overlay.GraphIndexGeneration) : SM (Shard S) N :=
  let cell_id := overlay.gen_cell_id generation in
  let edge_type := overlay.gen_edge_type generation in
  ensure_write_authority cell_id gc_operation ;;
  acquire_gc_permit gc_operation ;;
  let low_key := keys.xlog_low_water cell_id edge_type in
  low ← read_remote low_key;
  match low with
  | None => repair_floor cell_id edge_type
  | Some value =>
      low_water ← lift (decode_u64 low_key value);
      let gc_through := overlay.gen_base_sequence generation in
      if gc_through <? low_water then mret 0
      else
        let prefix := keys.xlog_type_prefix cell_id edge_type in
        scan ← gc_scan prefix low_water gc_through;
        match dead_keys scan with
        | [] => mret 0
        | _ :: _ =>
            write_graph_batch_strict_with_cell_lock cell_id gc_operation
              (gc_batch low_key low_water gc_through scan) ;;
            mret (N.of_nat (length (dead_keys scan)))
        end
  end.

Section gc.
Context (current_graph_index : string → string → Result (option overlay.GraphIndexGeneration)).

(** The published generation is read from the object store. *)
Definition gc_topology_changelog (cell_id edge_type : string) : SM (Shard S) N :=
  lift (validate_component "cell_id" cell_id) ;;
  lift (validate_component "edge_type" edge_type) ;;
  open ← gets sh_writer;
  if negb open then mret 0
  else
    generation ← lift (current_graph_index cell_id edge_type);
    match generation with
    | None => mret 0
    | Some generation => gc_topology_changelog_to generation
    end.
End gc.
End xlog.
