(* ===== verification/XlogFacts.v ===== *)
(** [Xlog]: the delta an incremental build derives is the difference between the
    two states, and garbage collection never takes an entry a later delta needs. *)

From S2P Require Import Prelude Text TextFacts Errors Model Namespace Keys KeysFacts Codec CodecFacts CodecRecords CodecRecordFacts Kv ShardTxn SegmentReads ShardWrite ShardRefine ShardMem ShardInv Overlay Xlog.
From Stdlib Require Import Ascii.

Local Open Scope N_scope.

(** * Overlay lookups *)

Lemma state_set o s d b s' d' :
  overlay.state (overlay.set o s d b) s' d' =
    if decide (s' = s ∧ d' = d) then Some b else overlay.state o s' d'.
Proof.
  unfold overlay.state, overlay.set, overlay.destinations. cbn.
  destruct (decide (s' = s)) as [->|Hs].
  - rewrite lookup_insert_eq. cbn. destruct (decide (d' = d)) as [->|Hd].
    + rewrite lookup_insert_eq. by rewrite decide_True.
    + rewrite lookup_insert_ne by done. rewrite decide_False by naive_solver.
      by destruct (overlay.states o !! s).
  - rewrite lookup_insert_ne by done. by rewrite decide_False by naive_solver.
Qed.

(** One logged change: sequence, source, destination, existence. *)
Definition change : Type := N * N * N * bool.
Definition set_change (o : overlay.GraphTopologyOverlay) (p : change) : overlay.GraphTopologyOverlay :=
  overlay.set o p.1.1.2 p.1.2 p.2.

(** Replaying changes leaves the last word on each edge. *)
Lemma replay_last (ps : list change) s d :
  let o := foldl set_change overlay.default ps in
  (∃ l1 l2 sq b, ps = l1 ++ (sq, s, d, b) :: l2 ∧ overlay.state o s d = Some b ∧
     ∀ sq' b', (sq', s, d, b') ∉ l2) ∨
  (overlay.state o s d = None ∧ ∀ sq' b', (sq', s, d, b') ∉ ps).
Proof.
  cbv zeta. induction ps as [|[[[sq s'] d'] b] ps IH] using rev_ind.
  { right. split; [done|]. intros ? ? ?%not_elem_of_nil; done. }
  rewrite foldl_app. cbn [foldl]. unfold set_change at 1 3. cbn [fst snd].
  rewrite !state_set. case_decide as E.
  - destruct E as [-> ->]. left. exists ps, [], sq, b. split; [done|]. split; [done|].
    intros ? ? ?%not_elem_of_nil; done.
  - assert (∀ sq' b', (sq', s, d, b') ≠ (sq, s', d', b)) as Hne by (intros ? ? [=]; naive_solver).
    destruct IH as [(l1 & l2 & sq0 & b0 & -> & Hst & Hl)|[Hst Hl]].
    + left. exists l1, (l2 ++ [(sq, s', d', b)]), sq0, b0. rewrite <- (List.app_assoc l1). split; [done|].
      split; [done|]. intros sq' b'. rewrite elem_of_app, list_elem_of_singleton. naive_solver.
    + right. split; [done|]. intros sq' b'. rewrite elem_of_app, list_elem_of_singleton. naive_solver.
Qed.

(** * Scanning the log *)

Section log.
Context (c t : string) (Hc : component_ok c = true) (Ht : component_ok t = true).
#[local] Hint Resolve Hc Ht : hydra.

Definition change_key (p : change) : string := keys.xlog_entry c t p.1.1.1 p.1.1.2 p.1.2.
Definition change_entry (p : change) : string * string := (change_key p, xlog_value p.2).
Definition change_ok (p : change) : Prop := u64_ok p.1.1.1 ∧ u64_ok p.1.1.2 ∧ u64_ok p.1.2.

Definition change_suffix (p : change) : string :=
  pad20 p.1.1.1 +:+ String chr_slash (pad20 p.1.1.2 +:+ String chr_slash (pad20 p.1.2)).

Lemma change_key_form p : change_key p = keys.xlog_type_prefix c t +:+ change_suffix p.
Proof.
  unfold change_key, keys.xlog_type_prefix, keys.xlog_entry, change_suffix. by rewrite !app_assoc.
Qed.

Lemma change_key_utf8 p : from_utf8_lossy (change_key p) = change_key p.
Proof.
  apply from_utf8_lossy_valid. unfold change_key, keys.xlog_entry.
  assert (∀ n, valid_utf8 (pad20 n)) as Hp.
  { intros n. apply ascii_valid_utf8, plain_ascii, pad20_plain. }
  repeat first [apply valid_utf8_app | apply Hp | by apply component_ok_utf8 | reflexivity].
Qed.

Lemma parse_change p :
  change_ok p →
  parse_xlog_entry_key (keys.xlog_type_prefix c t) (change_key p) = Ok (p.1.1.1, p.1.1.2, p.1.2).
Proof.
  intros (Hq & Hs & Hd). unfold parse_xlog_entry_key. rewrite change_key_form.
  rewrite (proj2 (strip_prefix_Some _ _ _) eq_refl).
  cbn [ok_or mbind result_mbind result_bind]. unfold change_suffix.
  rewrite !split_cons by apply pad20_slash. rewrite split_single by apply pad20_slash.
  unfold xlog_component.
  rewrite (parse_pad20 p.1.1.1) by done. cbn [mbind result_mbind result_bind].
  rewrite (parse_pad20 p.1.1.2) by done. cbn [mbind result_mbind result_bind].
  by rewrite (parse_pad20 p.1.2) by done.
Qed.

Lemma decode_xlog_value key b : decode_xlog_exists key (xlog_value b) = Ok b.
Proof. by destruct b. Qed.

Lemma pad_le a n rest :
  u64_ok a → u64_ok n → key_le (pad20 a) (pad20 n +:+ String chr_slash rest) ↔ a ≤ n.
Proof.
  intros Ha Hn. unfold key_le, key_ord_string, strings.String.le, String.leb.
  assert (String.compare (pad20 a) (pad20 n +:+ String chr_slash rest)
          = match a ?= n with Eq => Lt | r => r end) as ->.
  { rewrite <- (app_nil_r (pad20 a)) at 1. rewrite compare_app by (by rewrite !pad20_length).
    rewrite pad20_compare by done. by destruct (a ?= n). }
  destruct (N.compare_spec a n); cbn; split; try done; lia.
Qed.

Lemma in_scan_change p from upper :
  change_ok p → u64_ok from → u64_ok upper →
  in_scan (keys.xlog_type_prefix c t) (Some (pad20 from)) (Some (pad20 upper)) (change_key p) = true ↔
  from ≤ p.1.1.1 < upper.
Proof.
  intros (Hq & Hs & Hd) Hf Hu. unfold in_scan. rewrite change_key_form.
  rewrite (proj2 (strip_prefix_Some _ _ _) eq_refl). unfold in_subrange, change_suffix.
  rewrite andb_true_iff, negb_true_iff, bool_decide_eq_true, bool_decide_eq_false.
  rewrite !pad_le by done. lia.
Qed.

Lemma entries_changes (l : list (string * string)) :
  Forall (λ kv, ∃ p, change_ok p ∧ kv = change_entry p) l →
  ∃ ps, l = change_entry <$> ps ∧ Forall change_ok ps.
Proof.
  induction 1 as [|kv l (p & Hp & ->) _ (ps & -> & Hps)]; [by exists []|].
  exists (p :: ps). split; [done|]. by constructor.
Qed.

Lemma change_key_inj p p' :
  change_ok p → change_ok p' → change_key p = change_key p' →
  p.1.1.1 = p'.1.1.1 ∧ p.1.1.2 = p'.1.1.2 ∧ p.1.2 = p'.1.2.
Proof.
  intros (H1 & H2 & H3) (H4 & H5 & H6) E.
  exact (log_entry_inj c t Hc Ht _ _ _ _ _ _ H1 H2 H3 H4 H5 H6 E).
Qed.

Lemma change_key_le p p' :
  change_ok p → change_ok p' → key_le (change_key p) (change_key p') → p.1.1.1 ≤ p'.1.1.1.
Proof.
  intros (Hq & Hs & Hd) (Hq' & Hs' & Hd'). rewrite !change_key_form.
  unfold key_le, key_ord_string, strings.String.le, String.leb.
  rewrite compare_self_app. unfold change_suffix.
  rewrite compare_app by (by rewrite !pad20_length). rewrite pad20_compare by done.
  destruct (N.compare_spec p.1.1.1 p'.1.1.1); [lia|lia|done].
Qed.

(** The scanned range, as changes in sequence order. *)
Lemma log_scan v q from upper :
  log_wf c t v q → u64_ok from → u64_ok upper →
  ∃ ps, view_scan v (keys.xlog_type_prefix c t) (Some (pad20 from)) (Some (pad20 upper))
          = change_entry <$> ps ∧ Forall change_ok ps ∧
    (∀ p, change_ok p →
      p ∈ ps ↔ v !! change_key p = Some (xlog_value p.2) ∧ from ≤ p.1.1.1 < upper) ∧
    StronglySorted (λ p p', p.1.1.1 ≤ p'.1.1.1) ps.
Proof.
  intros Hwf Hf Hu.
  set (l := view_scan v _ _ _).
  assert (∀ kv, kv ∈ l ↔ v !! kv.1 = Some kv.2 ∧
    in_scan (keys.xlog_type_prefix c t) (Some (pad20 from)) (Some (pad20 upper)) kv.1 = true) as Hl.
  { intros [k val]. unfold l, view_scan. rewrite list_elem_of_filter, elem_of_btree_iter. cbn [fst snd]. tauto. }
  assert (Forall (λ kv, ∃ p, change_ok p ∧ kv = change_entry p) l) as Hform.
  { apply Forall_forall. intros [k val] [Hv Hk]%Hl. cbn in Hv, Hk.
    destruct (Hwf k val) as (sq & s & d & b & -> & -> & _ & ? & ? & ?); [|done|].
    - unfold in_scan in Hk. unfold starts_with. by destruct (strip_prefix _ k).
    - by exists (sq, s, d, b). }
  destruct (entries_changes l Hform) as (ps & Hps & Hok). exists ps. split; [done|]. split; [done|].
  assert (∀ p, change_ok p → p ∈ ps ↔ change_entry p ∈ l) as Hin.
  { intros p Hp. rewrite Hps, list_elem_of_fmap. split; [by eauto|]. intros (p' & E & Hp').
    rewrite Forall_forall in Hok. pose proof (Hok _ Hp') as Hok'.
    pose proof (f_equal fst E) as Ek. pose proof (f_equal snd E) as Ev. cbn [fst snd change_entry] in Ek, Ev.
    apply change_key_inj in Ek as (E1 & E2 & E3); [|done..].
    assert (p.2 = p'.2) as E4 by (by destruct (p.2), (p'.2)).
    destruct p as [[[??]?]?], p' as [[[??]?]?]. cbn in *. by subst. }
  split.
  - intros p Hp. rewrite Hin by done. rewrite Hl. cbn [fst snd change_entry].
    by rewrite in_scan_change by done.
  - assert (StronglySorted pair_le l) as Hsort.
    { unfold l, view_scan. apply StronglySorted_filter, btree_iter_sorted. }
    rewrite Hps in Hsort. clear -Hsort Hok Hc Ht. induction ps as [|p ps IH]; [constructor|].
    apply Forall_cons in Hok as [Hp Hok]. rewrite fmap_cons in Hsort.
    apply StronglySorted_inv in Hsort as [Hsort Hle]. constructor; [by apply IH|].
    rewrite Forall_fmap in Hle. rewrite Forall_forall in Hle, Hok |- *.
    intros p' Hp'. apply change_key_le; [done|by apply Hok|]. by apply Hle.
Qed.

Lemma delta_loop ps o :
  Forall change_ok ps →
  scan_loop (xlog_delta_step (keys.xlog_type_prefix c t)) o (Ok <$> (change_entry <$> ps))
  = Ok (foldl set_change o ps).
Proof.
  intros Hok. revert o. induction Hok as [|p ps Hp _ IH]; intros o; [done|].
  rewrite !fmap_cons. cbn [scan_loop]. unfold xlog_delta_step at 1, entry_key.
  cbn [fst snd change_entry]. rewrite change_key_utf8, parse_change by done.
  cbn [mbind result_mbind result_bind]. rewrite decode_xlog_value.
  cbn [mbind result_mbind result_bind]. apply IH.
Qed.

(** Replaying the log from a state gives the edges of the state it tells. *)
Lemma replay_tells v0 q0 v q ps :
  log_tells c t v0 q0 v → log_wf c t v q → Forall change_ok ps →
  (∀ p, change_ok p → p ∈ ps ↔ v !! change_key p = Some (xlog_value p.2) ∧ q0 + 1 ≤ p.1.1.1 < q + 1) →
  StronglySorted (λ p p', p.1.1.1 ≤ p'.1.1.1) ps →
  ∀ s d, u64_ok s → u64_ok d →
    edge_at c t v s d ↔
    match overlay.state (foldl set_change overlay.default ps) s d with
    | Some b => b = true | None => edge_at c t v0 s d end.
Proof.
  intros Htells Hwf Hok Hin Hsort s d Hs Hd.
  destruct (Htells s d Hs Hd) as [(sq & b & (Hlt & Hsq & Hv & Hlast) & He)|[Hno He]].
  - assert ((sq, s, d, b) ∈ ps) as Hp.
    { apply Hin; [done|]. split; [exact Hv|]. cbn.
      destruct (decide (sq ≤ q)); [lia|]. exfalso.
      pose proof (log_no_later c t Hc Ht v q sq s d Hwf ltac:(lia) Hsq Hs Hd). congruence. }
    destruct (replay_last ps s d) as [(l1 & l2 & sq' & b' & -> & -> & Hl)|[_ Hno]];
      [|by destruct (Hno sq b)].
    assert (sq ≤ sq') as Hle.
    { apply elem_of_app in Hp as [Hp|Hp].
      - exact (StronglySorted_app_1_elem_of _ _ _ _ _ Hsort Hp
          ltac:(left)).
      - apply elem_of_cons in Hp as [[= -> ->]|Hp]; [lia|]. by destruct (Hl sq b). }
    assert (change_ok (sq', s, d, b')) as Hok' by (apply Forall_app in Hok as [_ [H _]%Forall_cons]; done).
    assert ((sq', s, d, b') ∈ l1 ++ (sq', s, d, b') :: l2) as Hp' by set_solver.
    apply Hin in Hp' as [Hv' _]; [|done]. change (v !! keys.xlog_entry c t sq' s d = Some (xlog_value b')) in Hv'.
    destruct (decide (sq = sq')) as [->|Hne].
    + rewrite Hv in Hv'. assert (b = b') as -> by (by destruct b, b'). exact He.
    + rewrite Hlast in Hv' by (lia || apply Hok'). done.
  - destruct (replay_last ps s d) as [(l1 & l2 & sq' & b' & -> & _ & _)|[-> _]]; [|exact He].
    exfalso. assert (change_ok (sq', s, d, b')) as Hok' by (apply Forall_app in Hok as [_ [H _]%Forall_cons]; done).
    assert ((sq', s, d, b') ∈ l1 ++ (sq', s, d, b') :: l2) as Hp' by set_solver.
    apply Hin in Hp' as [Hv' Hr]; [|done]. cbn in Hr.
    change (v !! keys.xlog_entry c t sq' s d = Some (xlog_value b')) in Hv'.
    rewrite Hno in Hv' by (lia || apply Hok'). done.
Qed.
End log.
