(* ===== verification/History.v ===== *)
(** The history of a cell on the reference store: what holds after any sequence of
    edge writes, edge deletes and change-log collections.  The adjacency stays
    consistent, and the change log rebuilds the present from an index generation. *)

From stdpp Require Import relations.
From S2P Require Import Prelude Text TextFacts Errors Model Namespace Keys KeysFacts Codec CodecFacts CodecRecords CodecRecordFacts Kv ShardTxn SegmentReads ShardWrite ShardRefine ShardMem ShardInv Overlay Xlog XlogFacts.

Local Open Scope N_scope.

(** * What a garbage collection can do *)

Definition gc_target (g : overlay.GraphIndexGeneration) (k : string) : Prop :=
  starts_with (keys.xlog_type_prefix (overlay.gen_cell_id g) (overlay.gen_edge_type g)) k = true ∧
  ∃ sq s d, parse_xlog_entry_key
    (keys.xlog_type_prefix (overlay.gen_cell_id g) (overlay.gen_edge_type g)) k = Ok (sq, s, d) ∧
    sq ≤ overlay.gen_base_sequence g.

Definition gc_low (g : overlay.GraphIndexGeneration) : string :=
  keys.xlog_low_water (overlay.gen_cell_id g) (overlay.gen_edge_type g).

(** Only entries the generation already holds are deleted, and a stored floor
    only moves to a sequence the generation already holds or the one after it. *)
Definition collected (g : overlay.GraphIndexGeneration) (v v' : gmap string string) : Prop :=
  (∀ k, k ≠ gc_low g → v' !! k = v !! k ∨ v' !! k = None ∧ gc_target g k) ∧
  (is_Some (v !! gc_low g) → v' !! gc_low g = v !! gc_low g ∨
     ∃ n, v' !! gc_low g = Some (encode_u64 n) ∧ u64_ok n ∧ n ≤ overlay.gen_base_sequence g + 1).

Lemma low_family c t : component_ok c = true → family (keys.xlog_low_water c t) = Some (c, "meta").
Proof. intros Hc. apply (family_cell c "meta" ("xlog_low/" +:+ t)); [by apply component_ok_slash|done]. Qed.

(** A write batch on the reference store. *)
Definition run_op (v : gmap string string) (op : GraphWriteOp) : gmap string string :=
  match op with WPut k value => <[k := value]> v | WDelete k => delete k v end.

Lemma ops_run l (x : MTx) :
  for_each apply_op l x = (upd (λ v, foldl run_op v l) x, Ok tt).
Proof.
  revert x. induction l as [|op l IH]; intros x.
  - cbn. unfold upd. by destruct x as [? [? ?]].
  - cbn [for_each]. destruct op; cbn [apply_op].
    + rewrite (bind_run _ _ _ _ _ (run_put _ _ _)), IH. done.
    + rewrite (bind_run _ _ _ _ _ (run_delete _ _)), IH. done.
Qed.

Lemma still_ops l : still (for_each apply_op l).
Proof. apply still_for_each. intros [] x; done. Qed.

Lemma still_commit_only : still_err (commit_txn_traced : SM MTx unit).
Proof.
  intros x x' e. unfold commit_txn_traced, commit_txn_strict, commit_txn_strict_with_sequence, gets,
    mbind, sm_mbind. cbn. destruct (checked_add _ 1); [done|]. cbn. intros [= <- _]. done.
Qed.

(** One attempt at a batch: nothing, or the batch at the next sequence. *)
Lemma batch_attempt c op l (s s' : MShard) r :
  write_graph_batch_txn c op l s = (s', r) →
  match r with
  | Err _ => same_store s s'
  | Ok _ => sview s' = foldl run_op (sview s) l ∧ sseq s' = sseq s + 1 ∧
            sh_policy s' = sh_policy s ∧ u64_ok (sseq s + 1)
  end.
Proof.
  intros E. destruct r as [u|e].
  - apply with_txn_ok in E as (x' & E1 & ->).
    apply bind_inv in E1 as (x1 & [] & ->%fence_inv & E1).
    rewrite (bind_run _ _ _ _ _ (ops_run _ _)) in E1. apply commit_run in E1 as [Hq ->].
    apply checked_add_some in Hq as [_ Hq]. done.
  - eapply locked_err; [|exact E]. unfold validate_write_fence_txn.
    repeat first [solve [auto with still] | apply still_commit_only | apply still_ops | still_step].
Qed.

(** What a batch did, by its answer. *)
Definition applied (l : list GraphWriteOp) (s s' : MShard) : Prop :=
  sview s' = foldl run_op (sview s) l ∧ sseq s' = sseq s + 1 ∧
  sh_policy s' = sh_policy s ∧ u64_ok (sseq s + 1).
Definition batch_outcome {A} (l : list GraphWriteOp) (s s' : MShard) (r : Result A) : Prop :=
  match r with Ok _ => applied l s s' | Err _ => same_store s s' end.

Lemma applied_after l (s s1 s' : MShard) : same_store s s1 → applied l s1 s' → applied l s s'.
Proof. intros (Hv & Hq & Hp). unfold applied. by rewrite Hv, Hq, Hp. Qed.

Lemma batch_loop c op l n k (s s' : MShard) r :
  batch_retry_loop (write_graph_batch_txn c op l) (record_graph_batch_commit op k) n s = (s', r) →
  batch_outcome l s s' r.
Proof.
  revert s. induction n as [|n IH]; intros s; cbn [batch_retry_loop].
  { by intros [= <- <-]. }
  destruct (write_graph_batch_txn c op l s) as [s1 [u|e]] eqn:E; apply batch_attempt in E.
  - unfold record_graph_batch_commit, on_metrics, modify. destruct E as (Hv & Hq & Hp & Ho).
    case_bool_decide; by intros [= <- <-].
  - destruct (is_retryable_write_conflict e && _); [|by intros [= <- <-]].
    unfold mbind, sm_mbind, on_metrics, modify. intros H. apply IH in H.
    assert (same_store s (set_metrics (bump_retries (sh_metrics s1)) s1)) as Hs by done.
    destruct r; [by eapply applied_after|by eapply same_trans].
Qed.

(** The collection's batch, under the cell's write guard. *)
Lemma locked_batch c op l (s s' : MShard) r :
  write_graph_batch_strict_with_cell_lock c op l s = (s', r) → same_store s s' ∨ applied l s s'.
Proof.
  unfold write_graph_batch_strict_with_cell_lock. destruct l as [|o l]; [intros [= <- _]; by left|].
  unfold mbind, sm_mbind. destruct (acquire_local_write_guard c op s) as [s1 [u|e]] eqn:E;
    apply guard_same in E; [|intros [= <- _]; by left].
  unfold write_graph_batch_strict, lift, mbind, sm_mbind.
  destruct (validate_component "cell_id" c); [|intros [= <- _]; by left].
  intros H. apply batch_loop in H.
  destruct r; [right; by eapply applied_after|left; by eapply same_trans].
Qed.

(** * Garbage collection *)

Lemma gc_scan_targets g items low scan :
  u64_ok (overlay.gen_base_sequence g) →
  scan_loop (gc_step (keys.xlog_type_prefix (overlay.gen_cell_id g) (overlay.gen_edge_type g))
    (overlay.gen_base_sequence g)) (MkGcScan [] low false) items = Ok scan →
  Forall (gc_target g) (dead_keys scan) ∧
  (capped scan = true → last_sequence scan ≤ overlay.gen_base_sequence g).
Proof.
  intros Hg. apply (scan_loop_ind (λ scan, Forall (gc_target g) (dead_keys scan) ∧
    (capped scan = true → last_sequence scan ≤ overlay.gen_base_sequence g))); [by split|].
  intros acc kv r [Hacc Hcap]. unfold gc_step.
  destruct (parse_xlog_entry_key _ (entry_key kv)) as [[[sq s] d]|] eqn:E; cbn; [|done].
  assert (sq ≤ overlay.gen_base_sequence g → gc_target g (entry_key kv)) as Hk.
  { intros Hle. split; [|by exists sq, s, d]. unfold starts_with.
    unfold parse_xlog_entry_key in E. by destruct (Text.strip_prefix _ (entry_key kv)). }
  destruct (_ <? sq) eqn:Hlt; [by intros [= <-]|]. apply N.ltb_ge in Hlt.
  assert (Forall (gc_target g) (dead_keys acc ++ [entry_key kv])) as Hf.
  { apply Forall_app. split; [done|]. constructor; [by apply Hk|constructor]. }
  case_match; intros [= <-]; by split.
Qed.

Lemma run_deletes ks v k :
  foldl run_op v (WDelete <$> ks) !! k = if decide (k ∈ ks) then None else v !! k.
Proof.
  revert v. induction ks as [|k' ks IH]; intros v; [by rewrite decide_False by set_solver|].
  cbn [fmap list_fmap foldl run_op]. rewrite IH. destruct (decide (k = k')) as [->|Hne].
  - rewrite lookup_delete_eq. rewrite (decide_True (P := k' ∈ k' :: ks)) by set_solver. by case_decide.
  - rewrite lookup_delete_ne by done. repeat case_decide; set_solver.
Qed.

Lemma low_not_target g : component_ok (overlay.gen_cell_id g) = true →
  component_ok (overlay.gen_edge_type g) = true → ¬ gc_target g (gc_low g).
Proof.
  intros Hc Ht [H _]. apply log_prefix_family in H; [|done..].
  unfold gc_low in H. rewrite low_family in H by done. by simplify_eq.
Qed.

Lemma batch_collected g low scan v :
  component_ok (overlay.gen_cell_id g) = true → component_ok (overlay.gen_edge_type g) = true →
  u64_ok (overlay.gen_base_sequence g) → Forall (gc_target g) (dead_keys scan) →
  (capped scan = true → last_sequence scan ≤ overlay.gen_base_sequence g) →
  collected g v (foldl run_op v (gc_batch (gc_low g) low (overlay.gen_base_sequence g) scan)).
Proof.
  intros Hc Ht Hg Hf Hcap. unfold gc_batch. rewrite foldl_app. rewrite Forall_forall in Hf.
  assert (gc_low g ∉ dead_keys scan) as Hlow by (intros ?%Hf; by eapply low_not_target).
  set (next := if capped scan then _ else _).
  assert (u64_ok next ∧ next ≤ overlay.gen_base_sequence g + 1) as [Hn1 Hn2].
  { unfold next, saturating_add, u64_ok in *. destruct (capped scan); [specialize (Hcap eq_refl)|]; lia. }
  split.
  - intros k Hk. assert (foldl run_op v (WDelete <$> dead_keys scan) !! k = v !! k ∨
      foldl run_op v (WDelete <$> dead_keys scan) !! k = None ∧ gc_target g k) as H.
    { rewrite run_deletes. case_decide; [right; by auto|by left]. }
    case_match; cbn [foldl run_op]; [|exact H]. by rewrite lookup_insert_ne.
  - intros _. case_match; cbn [foldl run_op].
    + right. exists next. by rewrite lookup_insert_eq.
    + left. rewrite run_deletes. by rewrite decide_False.
Qed.

Lemma readable_same c op (s s' : MShard) r : ensure_cell_readable c op s = (s', r) → s' = s.
Proof.
  unfold ensure_cell_readable, lift, mbind, sm_mbind, mret, sm_mret, fails, read_remote. cbn.
  destruct (validate_component _ _); [|by intros [= <- _]].
  destruct (mem_view _ !! keys.cell_drop_marker _); cbn; [by intros [= <- _]|].
  by destruct (mem_view _ !! _); intros [= <- _].
Qed.

Lemma gate_same op (s s' : MShard) r : acquire_gc_permit op s = (s', r) → same_store s s'.
Proof.
  unfold acquire_gc_permit, acquire_operation_permit, on_metrics, modify, gets, fails, mbind, sm_mbind.
  cbn. destruct (permits _ =? 0), (closed _); cbn; by intros [= <- _].
Qed.

Lemma authority_same c op (s s' : MShard) r : ensure_write_authority c op s = (s', r) → s' = s.
Proof.
  unfold ensure_write_authority, gets, mbind, sm_mbind, writer, fails.
  by destruct (sh_authority s), (sh_writer s); intros [= <- _].
Qed.

(** A collection, whatever it answers. *)
Definition gc_outcome (g : overlay.GraphIndexGeneration) (s s' : MShard) : Prop :=
  same_store s s' ∨
  (collected g (sview s) (sview s') ∧ sseq s' = sseq s + 1 ∧ sh_policy s' = sh_policy s ∧
   u64_ok (sseq s + 1)).

Lemma outcome_after g (s s1 s' : MShard) : same_store s s1 → gc_outcome g s1 s' → gc_outcome g s s'.
Proof.
  intros Hs [H|(H1 & H2 & H3 & H4)]; [left; by eapply same_trans|right].
  destruct Hs as (Hv & Hq & Hp). rewrite <- Hv, <- Hq, <- Hp. done.
Qed.

Lemma repair_outcome g (s s' : MShard) r :
  sview s !! gc_low g = None →
  repair_floor (overlay.gen_cell_id g) (overlay.gen_edge_type g) s = (s', r) → gc_outcome g s s'.
Proof.
  intros Hnone. unfold repair_floor, mbind, sm_mbind.
  destruct (current_epoch (overlay.gen_cell_id g) s) as [s1 [n|e]] eqn:E.
  all: assert (s1 = s) as -> by
    (revert E; unfold current_epoch, lift, mbind, sm_mbind;
     destruct (validate_component _ _); [|by intros [= <- _]];
     destruct (ensure_cell_readable _ _ s) as [s2 [u|e2]] eqn:E2; apply readable_same in E2 as ->;
     [|by intros [= <- _]]; unfold snapshot_seq; by intros [= <- _]).
  2: { intros [= <- _]. by left. }
  destruct (write_graph_batch_strict_with_cell_lock _ _ _ s) as [s2 r2] eqn:E2.
  apply locked_batch in E2. assert (gc_outcome g s s2) as H.
  { destruct E2 as [H|(H1 & H2 & H3 & H4)]; [by left|right]. split; [|done]. rewrite H1. split.
    - intros k Hk. left. cbn [foldl run_op]. by rewrite lookup_insert_ne.
    - rewrite Hnone. by intros [? [=]]. }
  destruct r2; intros [= <- _]; exact H.
Qed.

Lemma gc_to_outcome g (s s' : MShard) r :
  component_ok (overlay.gen_cell_id g) = true → component_ok (overlay.gen_edge_type g) = true →
  u64_ok (overlay.gen_base_sequence g) →
  gc_topology_changelog_to g s = (s', r) → gc_outcome g s s'.
Proof.
  intros Hc Ht Hg. unfold gc_topology_changelog_to. cbv zeta. fold (gc_low g).
  unfold mbind at 1, sm_mbind at 1.
  destruct (ensure_write_authority _ _ s) as [s1 [u|e]] eqn:E1; apply authority_same in E1 as ->;
    [|intros [= <- _]; by left].
  unfold mbind at 1, sm_mbind at 1.
  destruct (acquire_gc_permit _ s) as [s1 [u1|e]] eqn:E1; apply gate_same in E1;
    [|intros [= <- _]; by left].
  intros H. eapply outcome_after; [exact E1|]. clear E1. revert H.
  unfold mbind at 1, sm_mbind at 1, read_remote. cbn [db_get Mem slate map_err].
  change (mem_view (sh_db s1)) with (sview s1).
  destruct (sview s1 !! gc_low g) as [value|] eqn:El; [|by apply repair_outcome].
  unfold lift at 1, mbind at 1, sm_mbind at 1.
  destruct (decode_u64 (gc_low g) value) as [low|]; [|intros [= <- _]; by left].
  destruct (_ <? low); [intros [= <- _]; by left|].
  unfold gc_scan. unfold mbind at 1, sm_mbind at 1.
  destruct (scan_loop _ _ _) as [scan|] eqn:Es; [|intros [= <- _]; by left].
  apply gc_scan_targets in Es as [Hf Hcap]; [|done].
  destruct (dead_keys scan) as [|k0 ks] eqn:Ek; [intros [= <- _]; by left|].
  unfold mbind, sm_mbind.
  destruct (write_graph_batch_strict_with_cell_lock _ _ _ s1) as [s2 r2] eqn:E2.
  apply locked_batch in E2. assert (gc_outcome g s1 s2) as H.
  { destruct E2 as [H|(H1 & H2 & H3 & H4)]; [by left|right]. split; [|done]. rewrite H1.
    apply batch_collected; [done..|by rewrite Ek|done]. }
  destruct r2; intros [= <- _]; exact H.
Qed.

(** * Preservation by a collection *)

Section pair.
Context (c t : string) (Hc : component_ok c = true) (Ht : component_ok t = true).
#[local] Hint Resolve Hc Ht : hydra.
#[local] Lemma Hname' : name_ok c. Proof. by apply component_ok_slash. Qed.

(** A key of another family than the change log and its floor is kept. *)
Lemma collected_other g v v' k f :
  component_ok (overlay.gen_cell_id g) = true → component_ok (overlay.gen_edge_type g) = true →
  collected g v v' → family k = Some (c, f) → f ≠ "xlog" → f ≠ "meta" → v' !! k = v !! k.
Proof.
  intros Hgc Hgt [H _] Hk Hf1 Hf2. destruct (H k) as [E|[_ [E _]]]; [|exact E|].
  - intros ->. unfold gc_low in Hk. rewrite low_family in Hk by done. by simplify_eq.
  - apply log_prefix_family in E; [|done..]. congruence.
Qed.

Lemma collected_adjacency g v v' q q' :
  component_ok (overlay.gen_cell_id g) = true → component_ok (overlay.gen_edge_type g) = true →
  collected g v v' → q ≤ q' → adjacency_ok c t v q → adjacency_ok c t v' q'.
Proof.
  intros Hgc Hgt Hcol. apply adjacency_ext; [done..|]. intros k f Hk Hf.
  eapply (collected_other g v v' k f); try done; by destruct Hf as [->| ->].
Qed.

Lemma collected_edge g v v' s d :
  component_ok (overlay.gen_cell_id g) = true → component_ok (overlay.gen_edge_type g) = true →
  collected g v v' → edge_at c t v' s d ↔ edge_at c t v s d.
Proof.
  intros Hgc Hgt Hcol. unfold edge_at.
  rewrite (collected_other g v v' (keys.out_edge c t s d) "e"); try done.
  apply (family_cell c "e" _ Hname' eq_refl).
Qed.

(** A collected entry of the pair is one the generation holds. *)
Lemma target_entry g sq s d :
  component_ok (overlay.gen_cell_id g) = true → component_ok (overlay.gen_edge_type g) = true →
  u64_ok sq → u64_ok s → u64_ok d → gc_target g (keys.xlog_entry c t sq s d) →
  c = overlay.gen_cell_id g ∧ t = overlay.gen_edge_type g ∧ sq ≤ overlay.gen_base_sequence g.
Proof.
  intros Hgc Hgt Hq Hs Hd [H1 (sq' & s' & d' & H2 & Hle)].
  apply log_prefix_pair in H1 as [E1 E2]; [|done..].
  rewrite E1, E2 in H2. split; [done|]. split; [done|].
  change (keys.xlog_entry c t sq s d) with (change_key c t (sq, s, d, true)) in H2.
  rewrite (parse_change c t) in H2 by done. cbn in H2. by simplify_eq.
Qed.

Lemma entry_not_low g sq s d :
  component_ok (overlay.gen_cell_id g) = true → component_ok (overlay.gen_edge_type g) = true →
  u64_ok sq → u64_ok s → u64_ok d → keys.xlog_entry c t sq s d ≠ gc_low g.
Proof. intros. unfold gc_low. key_ne. Qed.

Lemma collected_entry g v v' sq s d :
  component_ok (overlay.gen_cell_id g) = true → component_ok (overlay.gen_edge_type g) = true →
  u64_ok sq → u64_ok s → u64_ok d → overlay.gen_base_sequence g < sq → collected g v v' →
  v' !! keys.xlog_entry c t sq s d = v !! keys.xlog_entry c t sq s d.
Proof.
  intros Hgc Hgt Hq Hs Hd Hlt [H _].
  destruct (H (keys.xlog_entry c t sq s d)) as [E|[_ Htg]]; [by apply entry_not_low|done|].
  apply target_entry in Htg as (_ & _ & Hle); [lia|done..].
Qed.

Lemma collected_log g v0 q0 v q v' :
  component_ok (overlay.gen_cell_id g) = true → component_ok (overlay.gen_edge_type g) = true →
  collected g v v' → overlay.gen_base_sequence g ≤ q0 →
  log_wf c t v q → log_tells c t v0 q0 v → log_wf c t v' (q + 1) ∧ log_tells c t v0 q0 v'.
Proof.
  intros Hgc Hgt Hcol Hle Hwf Htells. split.
  - intros k val Hk Hv. assert (k ≠ gc_low g) as Hlow.
    { intros ->. apply log_prefix_family in Hk; [|done..]. unfold gc_low in Hk.
      rewrite low_family in Hk by done. by simplify_eq. }
    destruct (proj1 Hcol k Hlow) as [E|[E _]]; rewrite E in Hv; [|done].
    destruct (Hwf k val Hk Hv) as (sq & s & d & b & ? & ? & ? & ?). exists sq, s, d, b.
    destruct_and!. split_and!; try done; lia.
  - intros s d Hs Hd.
    assert (∀ sq, q0 < sq → u64_ok sq →
      v' !! keys.xlog_entry c t sq s d = v !! keys.xlog_entry c t sq s d) as Hl.
    { intros sq Hlt Hq. eapply collected_entry; try done. lia. }
    pose proof (collected_edge g v v' s d Hgc Hgt Hcol) as He.
    destruct (Htells s d Hs Hd) as [(sq & b & (H1 & H2 & H3 & H4) & H5)|[H1 H2]].
    + left. exists sq, b. split; [|by rewrite He]. split; [done|]. split; [done|].
      split; [by rewrite Hl|]. intros. rewrite Hl by (done || lia). by apply H4.
    + right. split; [|by rewrite He]. intros sq ? ?. rewrite Hl by done. by apply H1.
Qed.

(** ** The floor *)

(** A stored floor at most one past [q0]: deltas from [q0] on are covered. *)
Definition floor_le (q0 : N) (v : gmap string string) : Prop :=
  ∃ n, v !! keys.xlog_low_water c t = Some (encode_u64 n) ∧ u64_ok n ∧ n ≤ q0 + 1.

Lemma outcome_floor m q0 (s s' : MShard) :
  outcome m s s' → floor_le q0 (sview s) → floor_le q0 (sview s').
Proof.
  pose proof Hname' as Hn. unfold floor_le. intros [Hq _ _ _|b fl Hm He _ _ _] (n & Hl & Hn1 & Hn2).
  - exists n. split; [|done]. rewrite Hq; [done|]. topo_key.
  - exists n. split; [|done]. destruct (decide (c = em_cell_id m ∧ t = em_edge_type m)) as [[-> ->]|Hne].
    + rewrite (ee_low _ _ _ _ _ _ He). unfold floor_view. case_bool_decide; [done|]. by rewrite Hl.
    + pose proof (ee_seq _ _ _ _ _ _ He). rewrite (ee_rest _ _ _ _ _ _ He); [done|topo_key|].
      unfold changed_keys. rewrite !not_elem_of_cons. repeat split; [key_ne..|apply not_elem_of_nil].
Qed.

Lemma collected_floor g q0 v v' :
  component_ok (overlay.gen_cell_id g) = true → component_ok (overlay.gen_edge_type g) = true →
  overlay.gen_base_sequence g ≤ q0 → collected g v v' → floor_le q0 v → floor_le q0 v'.
Proof.
  intros Hgc Hgt Hle [H1 H2] (n & Hl & Hn1 & Hn2).
  destruct (decide (keys.xlog_low_water c t = gc_low g)) as [E|Hne].
  - destruct H2 as [E2|(n' & E2 & Hn' & Hle')]; [by rewrite <- E, Hl| |].
    + exists n. by rewrite E, E2, <- E.
    + exists n'. rewrite E. split; [done|]. split; [done|]. lia.
  - destruct (H1 _ Hne) as [E|[_ [E _]]]; [exists n; by rewrite E|].
    apply log_prefix_family in E; [|done..]. rewrite low_family in E by done. by simplify_eq.
Qed.
End pair.

(** * Histories *)

(** What the published index may say: a generation of some pair, no newer than [q0]. *)
Definition publishes (q0 : N)
  (index : string → string → Result (option overlay.GraphIndexGeneration)) : Prop :=
  ∀ c t g, index c t = Ok (Some g) →
    component_ok (overlay.gen_cell_id g) = true ∧ component_ok (overlay.gen_edge_type g) = true ∧
    u64_ok (overlay.gen_base_sequence g) ∧ overlay.gen_base_sequence g ≤ q0.

(** One event on a shard, on any cell and whatever it answers: an edge write, an
    edge delete, or a collection of the change log up to a published generation. *)
Inductive event (q0 : N) (s s' : MShard) : Prop :=
  | event_edge : step s s' → event q0 s s'
  | event_gc index c t r : publishes q0 index →
      gc_topology_changelog index c t s = (s', r) → event q0 s s'.

Lemma event_outcome q0 s s' :
  plain s → event q0 s s' →
  (∃ m, outcome m s s') ∨
  ∃ g, component_ok (overlay.gen_cell_id g) = true ∧ component_ok (overlay.gen_edge_type g) = true ∧
    overlay.gen_base_sequence g ≤ q0 ∧ collected g (sview s) (sview s') ∧ sseq s' = sseq s + 1 ∧
    sh_policy s' = sh_policy s ∧ u64_ok (sseq s + 1).
Proof.
  intros Hp [H|index c t r Hi H]; [left; by apply step_outcome|]. revert H.
  assert (∀ s1, s1 = s → (∃ m, outcome m s s1)) as Hs.
  { intros s1 ->. exists (Build_EdgeMutation c t 0 0 c). by apply outcome_same. }
  unfold gc_topology_changelog, lift, mbind, sm_mbind, gets.
  destruct (validate_component "cell_id" c); [|intros [= <- _]; left; by apply Hs].
  destruct (validate_component "edge_type" t); [|intros [= <- _]; left; by apply Hs].
  destruct (sh_writer s); cbn [negb]; [|intros [= <- _]; left; by apply Hs].
  destruct (index c t) as [[g|]|] eqn:E; [|intros [= <- _]; left; by apply Hs..].
  apply Hi in E as (Hc & Ht & Hu & Hle). intros H. apply gc_to_outcome in H; [|done..].
  destruct H as [H|(H1 & H2 & H3 & H4)]; [left|right].
  - exists (Build_EdgeMutation c t 0 0 c). by apply outcome_same.
  - exists g. done.
Qed.

Lemma collected_plain g (s s' : MShard) :
  component_ok (overlay.gen_cell_id g) = true → component_ok (overlay.gen_edge_type g) = true →
  plain s → collected g (sview s) (sview s') → sh_policy s' = sh_policy s → plain s'.
Proof.
  intros Hc Ht [Hp Hs] Hcol Hpol. split; [congruence|]. intros c k Hk.
  rewrite (collected_other c g (sview s) (sview s') k "seg"); try done. by apply (Hs c).
Qed.

(** What one event keeps, given what holds before it. *)
Section keep.
Context (c t : string) (Hc : component_ok c = true) (Ht : component_ok t = true).
Context (q0 : N) (v0 : gmap string string).

Record sound (s : MShard) : Prop := {
  so_plain : plain s;
  so_seq : q0 ≤ sseq s;
  so_wf : log_wf c t (sview s) (sseq s);
  so_tells : log_tells c t v0 q0 (sview s);
}.

Lemma event_plain_seq s s' : plain s → event q0 s s' → plain s' ∧ sseq s ≤ sseq s'.
Proof.
  intros Hp [[m Hm]|(g & Hgc & Hgt & _ & Hcol & Hq & Hpol & _)]%event_outcome; [| |done].
  - split; [by eapply outcome_plain|]. destruct Hm; lia.
  - split; [by eapply collected_plain|]. lia.
Qed.

Lemma event_adjacency s s' :
  plain s → event q0 s s' →
  adjacency_ok c t (sview s) (sseq s) → adjacency_ok c t (sview s') (sseq s').
Proof.
  intros Hp He Ha. destruct (event_plain_seq s s' Hp He) as [_ Hle].
  apply event_outcome in He as [[m [Hq _ _ _|b fl Hm Hef Hseq Hpre _]]|(g & Hgc & Hgt & _ & Hcol & _)];
    [| | |done].
  - eapply adjacency_quiet; done.
  - rewrite Hseq. eapply adjacency_effect; done.
  - by eapply collected_adjacency.
Qed.

Lemma event_sound s s' : event q0 s s' → sound s → sound s'.
Proof.
  intros He [Hp Hq Hwf Htells]. destruct (event_plain_seq s s' Hp He) as [Hp' Hle].
  apply event_outcome in He
    as [[m [Hqu _ _ _|b fl Hm Hef Hseq _ _]]|(g & Hgc & Hgt & Hg & Hcol & Hseq & _)]; [| | |done].
  - destruct (log_quiet c t Hc Ht v0 q0 _ _ _ (sseq s') Hqu Hle Hwf Htells). split; try done; lia.
  - rewrite Hseq in *. destruct (log_effect c t Hc Ht m b fl v0 q0 _ _ _ Hm Hef Hq Hwf Htells).
    split; rewrite ?Hseq; try done; lia.
  - destruct (collected_log c t Hc Ht g v0 q0 _ _ _ Hgc Hgt Hcol Hg Hwf Htells).
    split; rewrite ?Hseq; try done; lia.
Qed.

Lemma event_floor s s' : plain s → event q0 s s' → floor_le c t q0 (sview s) → floor_le c t q0 (sview s').
Proof.
  intros Hp He. apply event_outcome in He as [[m Hm]|(g & Hgc & Hgt & Hg & Hcol & _)]; [| |done].
  - by eapply outcome_floor.
  - by eapply collected_floor.
Qed.
End keep.

(** ** A concrete shard *)

Definition empty_shard : MShard :=
  MkShard (S := Mem) (MkMemDb ∅ 0) true Writer Full true ∅ gate_default 0 0 0
    (MkOpGate 1 false) (MkOpGate 1 false) (MkOpMetrics 0 0 0 0 0 0 0 0 0).
Definition sample_edge (src dst : N) (key : string) : EdgeMutation :=
  Build_EdgeMutation "c1" "knows" src dst key.
(** One edge, and the same edge deleted. *)
Definition one_edge : MShard := (write_edge (sample_edge 1 2 "k1") empty_shard).1.
Definition no_edge : MShard := (delete_edge (sample_edge 1 2 "k2") one_edge).1.

Lemma empty_plain : plain empty_shard.
Proof. split; [done|]. intros c k _. apply lookup_empty. Qed.

Lemma one_edge_event q0 : event q0 empty_shard one_edge.
Proof.
  apply event_edge, (step_write _ _ (sample_edge 1 2 "k1") (write_edge (sample_edge 1 2 "k1") empty_shard).2);
    [done..|]. apply surjective_pairing.
Qed.
Lemma no_edge_event q0 : event q0 one_edge no_edge.
Proof.
  apply event_edge, (step_delete _ _ (sample_edge 1 2 "k2") (delete_edge (sample_edge 1 2 "k2") one_edge).2);
    [done..|]. apply surjective_pairing.
Qed.

(** ** Adjacency *)

Lemma adjacency_empty c t q : adjacency_ok c t ∅ q.
Proof.
  split.
  - intros s d val _ _. by rewrite lookup_empty.
  - intros. by rewrite !lookup_empty.
  - intros s _. exists 0. unfold counter_is. rewrite lookup_empty. split; [done|]. split; [|lia].
    exists ∅. split; [|done]. intros d. unfold edge_at. rewrite lookup_empty. split; [set_solver|].
    intros [_ [? [=]]].
  - intros d _. exists 0. unfold counter_is. rewrite lookup_empty. split; [done|]. split; [|lia].
    exists ∅. split; [|done]. intros s. unfold edge_at. rewrite lookup_empty. split; [set_solver|].
    intros [_ [? [=]]].
Qed.

Lemma log_wf_empty c t q : log_wf c t ∅ q.
Proof. intros k val _. by rewrite lookup_empty. Qed.

(** C1: the adjacency of every cell and edge type stays consistent.  From a
    consistent store (an empty one is), after any sequence of edge writes, edge
    deletes and change-log collections on any cells, each answering whatever it
    does: the outbound and the inbound index hold the same edges under the one
    record value, and the two degree counters of every vertex are the number of
    its edges, so no increment has wrapped and no decrement has saturated. *)
Theorem adjacency_history (c t : string) (q0 : N) (s0 s : MShard)
  (Hc : component_ok c = true) (Ht : component_ok t = true) (Hp : plain s0)
  (Ha : adjacency_ok c t (sview s0) (sseq s0)) (Hr : rtc (event q0) s0 s) :
  plain s ∧ adjacency_ok c t (sview s) (sseq s).
Proof.
  induction Hr as [s|s0 s1 s He _ IH]; [done|]. apply IH.
  - by apply (event_plain_seq q0 s0 s1).
  - by eapply event_adjacency.
Qed.

Lemma adjacency_history_witness :
  adjacency_ok "c1" "knows" (sview no_edge) (sseq no_edge) ∧
  sview one_edge !! keys.degree_out "c1" "knows" 1 = Some (encode_u64 1) ∧
  sview no_edge !! keys.degree_out "c1" "knows" 1 = Some (encode_u64 0).
Proof.
  split; [|split; vm_compute; reflexivity].
  apply (adjacency_history "c1" "knows" 0 empty_shard no_edge eq_refl eq_refl empty_plain).
  - apply adjacency_empty.
  - eapply rtc_l; [apply one_edge_event|]. eapply rtc_l; [apply no_edge_event|]. apply rtc_refl.
Defined.

(** ** The change log *)

Lemma events_sound c t q0 v0 s0 s :
  component_ok c = true → component_ok t = true →
  rtc (event q0) s0 s → sound c t q0 v0 s0 → sound c t q0 v0 s.
Proof. intros Hc Ht. induction 1; [done|]. intros. by eauto using event_sound. Qed.

Lemma events_floor c t q0 v0 s0 s :
  component_ok c = true → component_ok t = true → rtc (event q0) s0 s → sound c t q0 v0 s0 →
  floor_le c t q0 (sview s0) → floor_le c t q0 (sview s).
Proof.
  intros Hc Ht. induction 1 as [|s0 s1 s He _ IH]; [done|]. intros Hs Hf.
  apply IH; [by eapply event_sound|]. eapply event_floor; [done|done|apply Hs|done|done].
Qed.

Lemma sound_init c t s0 :
  component_ok c = true → component_ok t = true →
  plain s0 → log_wf c t (sview s0) (sseq s0) → sound c t (sseq s0) (sview s0) s0.
Proof. intros. split; [done|lia|done|]. by apply log_tells_refl. Qed.

(** The scan and the replay of a delta. *)
Lemma sound_delta c t q0 v0 (s : MShard) :
  component_ok c = true → component_ok t = true →
  sound c t q0 v0 s → u64_ok (sseq s + 1) →
  ∃ o, scan_loop (xlog_delta_step (keys.xlog_type_prefix c t)) overlay.default
         (snap_scan_prefix (SlateDb := Mem) (sh_db s) (keys.xlog_type_prefix c t)
            (Some (pad20 (saturating_add q0 1))) (Some (pad20 (saturating_add (sseq s) 1)))) = Ok o ∧
  ∀ x d, u64_ok x → u64_ok d →
    edge_at c t (sview s) x d ↔
    match overlay.state o x d with Some b => b = true | None => edge_at c t v0 x d end.
Proof.
  intros Hc Ht [_ Hq Hwf Htells] Hok.
  assert (saturating_add q0 1 = q0 + 1 ∧ saturating_add (sseq s) 1 = sseq s + 1) as [-> ->]
    by (unfold saturating_add, u64_ok in *; lia).
  destruct (log_scan c t Hc Ht (sview s) (sseq s) (q0 + 1) (sseq s + 1) Hwf
    ltac:(unfold u64_ok in *; lia) Hok) as (ps & Hps & Hpok & Hin & Hsort).
  exists (foldl set_change overlay.default ps). split.
  - cbn [snap_scan_prefix Mem]. change (mem_view (sh_db s)) with (sview s). rewrite Hps.
    by apply delta_loop.
  - by apply (replay_tells c t Hc Ht v0 q0 (sview s) (sseq s)).
Qed.

(** Deriving the delta since a generation: it succeeds above the floor, and a
    complete one turns the generation's edges into the present ones. *)
Section delta.
Context (c t : string) (s0 s : MShard) (g : overlay.GraphIndexGeneration).
Context (Hc : component_ok c = true) (Ht : component_ok t = true) (Hp : plain s0).
Context (Hwf : log_wf c t (sview s0) (sseq s0)) (Hr : rtc (event (sseq s0)) s0 s).
Context (Hg : overlay.gen_base_sequence g = sseq s0) (Hq : u64_ok (sseq s + 1)).

Lemma delta_since_complete : floor_le c t (sseq s0) (sview s0) →
  ∃ o, xlog_delta_since (S := Mem) (sh_db s) g (sseq s) c t = Ok (XlogComplete o).
Proof.
  pose proof (sound_init c t s0 Hc Ht Hp Hwf) as H0.
  pose proof (events_sound c t _ _ _ _ Hc Ht Hr H0) as H1.
  destruct (sound_delta c t _ _ s Hc Ht H1 Hq) as (o & Ho & _).
  unfold xlog_delta_since. cbn [snap_get Mem slate map_err mbind result_mbind result_bind].
  change (mem_view (sh_db s)) with (sview s). rewrite Hg.
  intros Hf. apply (events_floor c t _ _ _ _ Hc Ht Hr H0) in Hf as (n & -> & Hn1 & Hn2).
  rewrite encode_decode_u64 by done. cbn [mbind result_mbind result_bind].
  assert ((saturating_add (sseq s0) 1 <? n) = false) as ->.
  { apply N.ltb_ge. pose proof (so_seq _ _ _ _ _ H1). unfold saturating_add, u64_ok in *. lia. }
  rewrite Ho. by exists o.
Qed.

Lemma delta_since_tells o : xlog_delta_since (S := Mem) (sh_db s) g (sseq s) c t = Ok (XlogComplete o) →
  ∀ x d, u64_ok x → u64_ok d →
    edge_at c t (sview s) x d ↔
    match overlay.state o x d with Some b => b = true | None => edge_at c t (sview s0) x d end.
Proof.
  pose proof (events_sound c t _ _ _ _ Hc Ht Hr (sound_init c t s0 Hc Ht Hp Hwf)) as H1.
  destruct (sound_delta c t _ _ s Hc Ht H1 Hq) as (o' & Ho & Hex).
  unfold xlog_delta_since. cbn [snap_get Mem slate map_err mbind result_mbind result_bind].
  change (mem_view (sh_db s)) with (sview s). rewrite Hg. intros H. destruct (sview s !! _); [|done].
  destruct (decode_u64 _ _); [|done]. cbn [mbind result_mbind result_bind] in H.
  destruct (_ <? _); [done|]. rewrite Ho in H. injection H as <-. exact Hex.
Qed.
End delta.

(** C2: the change log rebuilds the present from an index generation.  Take the
    store an index generation was built from and any later store reached by edge
    writes, edge deletes and collections up to generations no newer than that
    one.  If the log's coverage floor is at most one past the generation's
    sequence, deriving the delta succeeds; and whenever it reports a complete
    delta, an edge exists now exactly when the delta says so, or says nothing
    and the edge existed then. *)
Theorem changelog_delta_exact (c t : string) (s0 s : MShard) (g : overlay.GraphIndexGeneration)
  (Hc : component_ok c = true) (Ht : component_ok t = true) (Hp : plain s0)
  (Hwf : log_wf c t (sview s0) (sseq s0)) (Hr : rtc (event (sseq s0)) s0 s)
  (Hg : overlay.gen_base_sequence g = sseq s0) (Hq : u64_ok (sseq s + 1)) :
  (floor_le c t (sseq s0) (sview s0) →
    ∃ o, xlog_delta_since (S := Mem) (sh_db s) g (sseq s) c t = Ok (XlogComplete o)) ∧
  (∀ o, xlog_delta_since (S := Mem) (sh_db s) g (sseq s) c t = Ok (XlogComplete o) →
    ∀ x d, u64_ok x → u64_ok d →
      edge_at c t (sview s) x d ↔
      match overlay.state o x d with Some b => b = true | None => edge_at c t (sview s0) x d end).
Proof.
  split; [by apply delta_since_complete with (1 := Hc)|]. by apply delta_since_tells.
Qed.

Lemma changelog_delta_exact_witness :
  ∃ o, xlog_delta_since (S := Mem) (sh_db no_edge)
         (overlay.MkGeneration "c1" "knows" (sseq one_edge) 0 0 0 "g1") (sseq no_edge) "c1" "knows"
       = Ok (XlogComplete o) ∧
  (edge_at "c1" "knows" (sview no_edge) 1 2 ↔
   match overlay.state o 1 2 with Some b => b = true | None => edge_at "c1" "knows" (sview one_edge) 1 2 end) ∧
  overlay.state o 1 2 = Some false.
Proof.
  assert (plain one_edge) as Hp by apply (event_plain_seq 0 _ _ empty_plain (one_edge_event 0)).
  assert (log_wf "c1" "knows" (sview one_edge) (sseq one_edge)) as Hwf.
  { eapply so_wf, event_sound; [done|done|apply (one_edge_event (sseq empty_shard))|].
    apply sound_init; [done|done|apply empty_plain|apply log_wf_empty]. }
  destruct (changelog_delta_exact "c1" "knows" one_edge no_edge
    (overlay.MkGeneration "c1" "knows" (sseq one_edge) 0 0 0 "g1") eq_refl eq_refl Hp Hwf
    (rtc_once _ _ (no_edge_event _)) eq_refl) as [H1 H2].
  { vm_compute. discriminate. }
  destruct H1 as [o Ho].
  { exists 1. split; [vm_compute; reflexivity|]. split; [done|]. vm_compute. discriminate. }
  exists o. split; [exact Ho|]. split; [apply (H2 o Ho); done|].
  assert (Ok (overlay.state o 1 2) = Ok (E := GraphError) (Some false)) as E; [|by injection E].
  change (Ok (overlay.state o 1 2)) with
    ((λ d, match d with XlogComplete o => overlay.state o 1 2 | _ => None end) <$>
       (Ok (E := GraphError) (XlogComplete o))). rewrite <- Ho. vm_compute. reflexivity.
Defined.
