(* ===== verification/EdgeTxns.v ===== *)
(** The edge transactions on any store that obeys the interface's laws: what a
    transaction has done to the stored state when it answers, by its answer. *)

From S2P Require Import Prelude Text Errors Model Namespace Keys Codec CodecRecords CodecRecordFacts Kv ShardTxn ShardWrite ShardRefine ShardMem ShardInv History.

Local Open Scope N_scope.

(** * What an answer says

    Of the state [v] at sequence [q] the transaction began in, with the pairs whose
    floor the shard knows to be stored, and the state [v'] at [q'] it leaves. *)

Definition write_done (m : EdgeMutation) (ensured : gset string) (v : gmap string string) (q : N)
  (v' : gmap string string) (q' : N) (r : CommitResult) : Prop :=
  (v' = v ∧ q' = q ∧ ∃ val, v !! create_key m = Some val ∧ decode_commit_idempotency (create_key m) m val = Ok r) ∨
  (v !! create_key m = None ∧ v' !! create_key m = Some (encode_commit_idempotency m r) ∧ q' = q + 1 ∧ u64_ok q' ∧
   (v !! out_edge_key m = Some edge_record_value ∧ quiet v v' ∧ cr_already_existed r = true ∨
    v !! out_edge_key m = None ∧ r = MkCommitResult q' false ∧ edge_effect m true ensured v q v')).

Definition delete_done (m : EdgeMutation) (ensured : gset string) (v : gmap string string) (q : N)
  (v' : gmap string string) (q' : N) (r : DeleteResult) : Prop :=
  (v' = v ∧ q' = q ∧ ∃ val, v !! delete_key m = Some val ∧ decode_delete_idempotency (delete_key m) m val = Ok r) ∨
  (v !! delete_key m = None ∧ v' !! delete_key m = Some (encode_delete_idempotency m r) ∧ q' = q + 1 ∧ u64_ok q' ∧
   (v !! out_edge_key m = None ∧ r = MkDeleteResult q false ∧ quiet v v' ∨
    is_Some (v !! out_edge_key m) ∧ r = MkDeleteResult q' true ∧ edge_effect m false ensured v q v')).

(** A success has done it; a failure has done nothing, or, when it is no conflict
    and is of the commit, all of it. *)
Definition answered {S : SlateDb} {L : SlateDbLaws S} {A}
  (done : gset string → gmap string string → N → gmap string string → N → A → Prop) (s s' : Shard S) (r : Result A) : Prop :=
  let d := (db_begin (sh_db s)).1 in
  let v := db_view d in let v' := db_view (sh_db s') in
  match r with
  | Ok a => done (sh_floor s) v (db_seq d) v' (db_seq (sh_db s')) a
  | Err e => v' = v ∨ is_retryable_write_conflict e = false ∧ ∃ q' a, done (sh_floor s) v (db_seq d) v' q' a
  end.

(** From the reference store to any. *)
Lemma answered_refined {S : SlateDb} {L : SlateDbLaws S} {A} (m : SM (Shard S) A) (body : SM (Tx Mem) A)
  (done : gset string → gmap string string → N → gmap string string → N → A → Prop) (s s' : Shard S) r :
  refines_reference m (with_txn body) → sh_writer s = true →
  (∀ x' a, body (MkTx (S := Mem) (abs (set_db (db_begin (sh_db s)).1 s)) (abs_db (db_begin (sh_db s)).1)) = (x', Ok a) →
     done (sh_floor s) (db_view (db_begin (sh_db s)).1) (db_seq (db_begin (sh_db s)).1)
       (sview (tx_shard x')) (sseq (tx_shard x')) a) →
  m s = (s', r) → answered done s s' r.
Proof.
  intros Href Hw Hbody E. specialize (Href s Hw). cbv zeta in Href. rewrite E in Href. unfold answered.
  destruct r as [a|e].
  - apply with_txn_ok in Href as (x' & Hx & Es). apply Hbody in Hx. by rewrite <- Es in Hx.
  - destruct Href as [[_ Hv]|(k & -> & [Hv|(Hr & y & a & Hy & Hv)])]; [by left..|right]. split; [done|].
    apply with_txn_ok in Hy as (x' & Hx & ->). apply Hbody in Hx. exists (sseq (tx_shard x')), a. by rewrite Hv.
Qed.

Section edge.
Context (m : EdgeMutation) (Hm : mutation_ok m).

Lemma write_body_done ups em op (x x' : MTx) r : sh_policy (tx_shard x) = Full → no_segments (em_cell_id m) (xview x) →
  sh_db (tx_shard x) = tx_txn x → write_edge_body m ups em op x = (x', Ok r) →
  write_done m (sh_floor (tx_shard x)) (xview x) (xseq x) (sview (tx_shard x')) (sseq (tx_shard x')) r.
Proof.
  intros Hpol Hseg Edb H. apply (write_body_inv m Hm) in H; [|done..].
  destruct H as [[-> Hi]|(v' & fl' & Hc & Hk & Hk' & _ & H)].
  - left. unfold sview, sseq. by rewrite Edb.
  - right. apply committed_store in Hc as (-> & -> & _ & Hq). split_and!; [done..|].
    destruct H as [(He & Hqu & _ & Hr)|(He & Hr & Hef & _)]; [by left|by right].
Qed.

Lemma delete_body_done (x x' : MTx) r : sh_policy (tx_shard x) = Full →
  sh_db (tx_shard x) = tx_txn x → delete_edge_body m x = (x', Ok r) →
  delete_done m (sh_floor (tx_shard x)) (xview x) (xseq x) (sview (tx_shard x')) (sseq (tx_shard x')) r.
Proof.
  intros Hpol Edb H. apply (delete_body_inv m Hm) in H; [|done..].
  destruct H as [[-> Hi]|(v' & fl' & Hc & Hk & Hk' & H)].
  - left. unfold sview, sseq. by rewrite Edb.
  - right. apply committed_store in Hc as (-> & -> & _ & Hq). split_and!; [done..|].
    destruct H as [(He & Hr & Hqu & _)|(He & Hr & Hef & _)]; [by left|by right].
Qed.
End edge.

(** C12: what one transaction on an edge does, on any store that obeys the
    interface's laws, in a cell without segments.  When it answers, it has either
    found the request's own record and repeats its answer on the state as it was;
    or it has stored that answer under the request's key at the next sequence, and:
    an edge that was there is reported so and the adjacency left alone; a new one is
    in both indexes under the one record value, both degrees one more, the change
    logged at that sequence and the matrix marked, with nothing else of the
    adjacency changed; and so the other way round for a delete.  When it fails, the
    stored state is the one it began in, unless the error is no conflict and the
    commit was applied after all. *)
Theorem edge_txns_exact {S : SlateDb} {L : SlateDbLaws S} (m : EdgeMutation)
  (updates : list (VertexId * VertexMetadata)) (metadata : EdgeMetadata) (operation : string) (s s' : Shard S)
  (Hm : mutation_ok m) (Hw : sh_writer s = true) (Hpol : sh_policy s = Full)
  (Hseg : no_segments (em_cell_id m) (db_view (db_begin (sh_db s)).1)) :
  (∀ r, write_edge_txn_locked_with_metadata m updates metadata operation s = (s', r) → answered (write_done m) s s' r) ∧
  (∀ r, delete_edge_txn_locked m s = (s', r) → answered (delete_done m) s s' r).
Proof.
  split; intros r; (eapply answered_refined; [apply with_txn_refines|done|]).
  - apply ref_write_body.
  - intros x' a Hx. by apply (write_body_done m Hm) in Hx.
  - apply ref_delete_body.
  - intros x' a Hx. by apply (delete_body_done m Hm) in Hx.
Qed.

Lemma answer_of {A} (m : SM MShard A) s a : (m s).2 = Ok a → ∃ s', m s = (s', Ok a).
Proof. intros <-. exists (m s).1. apply surjective_pairing. Qed.

(** A new edge, and its deletion. *)
Lemma edge_txns_exact_witness :
  (∃ s' : MShard, write_edge_txn_locked_with_metadata (sample_edge 1 2 "k1") [] EdgeMetadata_default "write_edge" empty_shard
     = (s', Ok (MkCommitResult 1 false)) ∧
   edge_effect (sample_edge 1 2 "k1") true ∅ ∅ 0 (sview s')) ∧
  (∃ s' : MShard, delete_edge_txn_locked (sample_edge 1 2 "k2") one_edge = (s', Ok (MkDeleteResult 2 true)) ∧
   edge_effect (sample_edge 1 2 "k2") false (sh_floor one_edge) (sview one_edge) (sseq one_edge) (sview s')).
Proof.
  assert (∀ k, mutation_ok (sample_edge 1 2 k)) as Hm by (intros k; split_and!; vm_compute; done).
  split.
  - pose proof (answer_of (write_edge_txn_locked_with_metadata (sample_edge 1 2 "k1") [] EdgeMetadata_default "write_edge")
      empty_shard (MkCommitResult 1 false) ltac:(by vm_compute)) as [s' E].
    destruct (edge_txns_exact (L := Mem_laws) (sample_edge 1 2 "k1") [] EdgeMetadata_default "write_edge" empty_shard s'
      (Hm "k1") eq_refl eq_refl (proj2 empty_plain _)) as [H _].
    exists s'. split; [exact E|]. specialize (H _ E). clear E.
    destruct H as [(_ & _ & val & Hv & _)|(_ & _ & _ & _ & [(Hv & _)|(_ & _ & He)])]; [discriminate Hv..|exact He].
  - pose proof (answer_of (delete_edge_txn_locked (sample_edge 1 2 "k2")) one_edge (MkDeleteResult 2 true)
      ltac:(by vm_compute)) as [s' E].
    assert (sh_writer one_edge = true) as Hw by by vm_compute.
    pose proof (proj1 (event_plain_seq 0 _ _ empty_plain (one_edge_event 0))) as [Hpol Hseg].
    assert (sview one_edge !! delete_key (sample_edge 1 2 "k2") = None) as Hn by by vm_compute.
    generalize dependent one_edge. intros s E Hw Hpol Hseg Hn. exists s'. split; [exact E|].
    destruct (edge_txns_exact (L := Mem_laws) (sample_edge 1 2 "k2") [] EdgeMetadata_default "write_edge" s s'
      (Hm "k2") Hw Hpol (Hseg _)) as [_ H].
    destruct (H _ E) as [(_ & _ & val & Hv & _)|(_ & _ & _ & _ & [(_ & [=] & _)|(_ & _ & He)])]; [|exact He].
    change (sview s !! delete_key (sample_edge 1 2 "k2") = Some val) in Hv. congruence.
Defined.
