(* ===== verification/AdjacencyReads.v ===== *)
(** What a reader sees after any history: neighbours, degrees and edge existence
    read through a storage snapshot all tell the same edges. *)

From stdpp Require Import relations.
From S2P Require Import Prelude Text TextFacts Errors Model Namespace Keys KeysFacts Codec CodecFacts CodecRecords CodecRecordFacts Kv ShardTxn SegmentReads ShardWrite ShardRefine ShardMem ShardInv Overlay Xlog XlogFacts History.

Local Open Scope N_scope.

(** * The edge family holds edge records only *)

Definition edges_wf (c : string) (v : gmap string string) : Prop := ∀ k val,
  family k = Some (c, "e") → v !! k = Some val →
  ∃ t s d, component_ok t = true ∧ u64_ok s ∧ u64_ok d ∧ val = edge_record_value ∧
    (k = keys.out_edge c t s d ∨ k = keys.in_edge c t d s).

(** A loop that collects one vertex per record. *)
Lemma scan_records (step : gset N → string * string → Result (Flow (gset N))) (key : N → string) xs acc :
  (∀ acc x, u64_ok x → step acc (key x, edge_record_value) = Ok (Continue ({[x]} ∪ acc))) →
  Forall u64_ok xs →
  scan_loop step acc (Ok <$> ((λ x, (key x, edge_record_value)) <$> xs)) = Ok (list_to_set xs ∪ acc).
Proof.
  intros Hstep Hxs. revert acc. induction Hxs as [|x xs Hx _ IH]; intros acc.
  { cbn. f_equal. set_solver. }
  rewrite !fmap_cons. cbn [scan_loop]. rewrite Hstep, IH by done. f_equal. set_solver.
Qed.

Section cell.
Context (c : string) (Hc : component_ok c = true).
#[local] Hint Resolve Hc : hydra.
Lemma cell_is_name : name_ok c. Proof. by apply component_ok_slash. Qed.

Lemma edges_wf_ext v v' :
  (∀ k, family k = Some (c, "e") → v' !! k = v !! k) → edges_wf c v → edges_wf c v'.
Proof. intros H Hwf k val Hk Hv. rewrite H in Hv by done. by apply (Hwf k). Qed.

Lemma edges_wf_effect m b fl v q v' :
  mutation_ok m → edge_effect m b fl v q v' → edges_wf c v → edges_wf c v'.
Proof.
  intros Hm He Hwf k val Hk Hv. pose proof (cell_name m Hm) as Hcn.
  destruct (decide (k ∈ changed_keys m (q + 1))) as [Hin|Hnot].
  2: { rewrite (ee_rest _ _ _ _ _ _ He) in Hv; [by apply (Hwf k)| |done].
       eapply family_topo; [exact Hk|]. unfold topo_families. set_solver. }
  assert (∀ f rest, name_ok f → k = "cell/" +:+ em_cell_id m +:+ "/" +:+ f +:+ "/" +:+ rest →
    em_cell_id m = c ∧ f = "e") as Hf.
  { intros f rest Hfo ->. rewrite family_cell in Hk by done. by simplify_eq. }
  assert (∀ key, k = key → em_cell_id m = c → v' !! key = (if b then Some edge_record_value else None) →
    key = out_edge_key m ∨ key = in_edge_key m →
    ∃ t s d, component_ok t = true ∧ u64_ok s ∧ u64_ok d ∧ val = edge_record_value ∧
      (k = keys.out_edge c t s d ∨ k = keys.in_edge c t d s)) as Hgo.
  { intros key -> <- Hv' Hkey. rewrite Hv in Hv'. destruct b; [|done].
    exists (em_edge_type m), (em_src m), (em_dst m). split; [apply Hm|]. split; [apply Hm|].
    split; [apply Hm|]. split; [congruence|]. exact Hkey. }
  revert Hin. unfold changed_keys. rewrite !elem_of_cons, elem_of_nil.
  intros [E|[E|[E|[E|[E|[E|[E|[E|[]]]]]]]]].
  1,2: apply (Hgo _ E); [apply (Hf "e" _ eq_refl E)|apply He|by auto].
  all: exfalso; rewrite ?dirty_form in E;
    first [ by destruct (Hf "cnt" _ eq_refl E) | by destruct (Hf "xlog" _ eq_refl E)
          | by destruct (Hf "meta" _ eq_refl E) ].
Qed.

Lemma event_edges_wf q0 s s' :
  plain s → event q0 s s' → edges_wf c (sview s) → edges_wf c (sview s').
Proof.
  intros Hp He. apply event_outcome in He
    as [[m [Hq _ _ _|b fl Hm Hef _ _ _]]|(g & Hgc & Hgt & _ & Hcol & _)]; [| | |done].
  - apply edges_wf_ext. intros k Hk. apply Hq. eapply family_topo; [exact Hk|].
    unfold topo_families. set_solver.
  - by eapply edges_wf_effect.
  - apply edges_wf_ext. intros k Hk.
    by apply (collected_other c g (sview s) (sview s') k "e").
Qed.

(** * Scanning one vertex *)

Section vertex.
Context (v : gmap string string) (Hwf : edges_wf c v).

(** [key x] runs over the records under one scan prefix, for the [x] that are [ok]. *)
Definition scan_of {X} (ok : X → Prop) (p : Prefix) (key : X → string) : Prop :=
  prefix_wf p ∧ (∃ rest, prefix_render p = "cell/" +:+ c +:+ "/" +:+ "e" +:+ "/" +:+ rest) ∧
  (∀ x, starts_with (prefix_render p) (key x) = true) ∧
  (∀ t' s d, component_ok t' = true → u64_ok s → u64_ok d →
    (covers p (KOutEdge c t' s d) → ∃ x, ok x ∧ keys.out_edge c t' s d = key x) ∧
    (covers p (KInEdge c t' d s) → ∃ x, ok x ∧ keys.in_edge c t' d s = key x)).

Lemma scan_edges {X} (ok : X → Prop) p key :
  scan_of ok p key → (∀ x y, ok x → ok y → key x = key y → x = y) →
  ∃ xs, view_scan v (prefix_render p) None None = (λ x, (key x, edge_record_value)) <$> xs ∧
    ∀ x, x ∈ xs ↔ ok x ∧ is_Some (v !! key x).
Proof.
  intros (Hp & [rest Hpre] & Hself & Hcov) Hinj.
  set (l := view_scan v _ _ _).
  assert (∀ kv, kv ∈ l ↔ v !! kv.1 = Some kv.2 ∧ starts_with (prefix_render p) kv.1 = true) as Hl.
  { intros [k val]. unfold l, view_scan. rewrite list_elem_of_filter, elem_of_btree_iter. cbn [fst snd].
    unfold in_scan, starts_with, in_subrange. destruct (Text.strip_prefix _ k); cbn; naive_solver. }
  assert (Forall (λ kv, ∃ x, ok x ∧ kv = (key x, edge_record_value)) l) as Hform.
  { apply Forall_forall. intros [k val] [Hv Hk]%Hl. cbn [fst snd] in Hv, Hk.
    assert (family k = Some (c, "e")) as Hfam.
    { unfold starts_with in Hk. destruct (Text.strip_prefix _ k) as [suffix|] eqn:E; [|done].
      apply strip_prefix_Some in E as ->. rewrite Hpre, !app_assoc.
      apply (family_cell c "e" (rest +:+ suffix) cell_is_name eq_refl). }
    destruct (Hwf k val Hfam Hv) as (t' & s & d & Ht' & Hs & Hd & -> & Hkey).
    assert (component_ok t' = true) as Ht'' by done. pose proof (component_ok_slash _ Ht') as Hts.
    destruct Hkey as [-> | ->].
    - change (keys.out_edge c t' s d) with (render (KOutEdge c t' s d)) in Hk.
      apply scan_prefix_covers in Hk; [|done|cbn; pose proof cell_is_name; auto].
      destruct (proj1 (Hcov t' s d Ht' Hs Hd) Hk) as (x & Hx & ->). by exists x.
    - change (keys.in_edge c t' d s) with (render (KInEdge c t' d s)) in Hk.
      apply scan_prefix_covers in Hk; [|done|cbn; pose proof cell_is_name; auto].
      destruct (proj2 (Hcov t' s d Ht' Hs Hd) Hk) as (x & Hx & ->). by exists x. }
  assert (∃ xs, l = (λ x, (key x, edge_record_value)) <$> xs ∧ Forall ok xs) as (xs & -> & Hxs).
  { clear Hl. induction Hform as [|kv l' (x & Hx & ->) _ (xs & -> & Hxs)]; [by exists []|].
    exists (x :: xs). split; [done|by constructor]. }
  exists xs. split; [done|]. intros x. rewrite Forall_forall in Hxs. split.
  - intros Hx. split; [by apply Hxs|].
    destruct (proj1 (Hl (key x, edge_record_value))) as [H _]; [|by eexists].
    apply list_elem_of_fmap. by exists x.
  - intros [Hx [val Hv]]. assert ((key x, val) ∈ (λ x, (key x, edge_record_value)) <$> xs) as Hin
      by (apply Hl; split; [exact Hv|apply Hself]).
    apply list_elem_of_fmap in Hin as (y & E & Hy).
    assert (x = y) as -> by (apply Hinj; [done|by apply Hxs|exact (f_equal fst E)]). done.
Qed.
End vertex.

(** ** The records decode *)

Lemma record_key_utf8 k : (∃ f rest, k = "cell/" +:+ c +:+ "/" +:+ f +:+ "/" +:+ rest ∧ valid_utf8 f ∧
  valid_utf8 rest) → entry_key (k, edge_record_value) = k.
Proof.
  intros (f & rest & -> & Hf & Hr). apply from_utf8_lossy_valid. cbn [fst].
  repeat first [apply valid_utf8_app | assumption | by apply component_ok_utf8 | reflexivity].
Qed.

Context (t : string) (Ht : component_ok t = true).
#[local] Hint Resolve Ht : hydra.

Lemma pad_utf8 n : valid_utf8 (pad20 n).
Proof. apply ascii_valid_utf8, plain_ascii, pad20_plain. Qed.

Lemma out_step s acc x :
  u64_ok s → u64_ok x →
  out_record_step acc (keys.out_edge c t s x, edge_record_value) = Ok (Continue ({[x]} ∪ acc)).
Proof.
  intros Hs Hx. unfold out_record_step. rewrite record_key_utf8.
  - unfold decode_edge_record. cbn [snd]. rewrite bool_decide_eq_true_2 by done.
    by rewrite parse_out_edge_key.
  - exists "e", ("out/" +:+ t +:+ "/" +:+ pad20 s +:+ "/" +:+ pad20 x).
    split; [reflexivity|]. split; [reflexivity|].
    repeat first [apply valid_utf8_app | apply pad_utf8 | by apply component_ok_utf8 | reflexivity].
Qed.
Lemma in_step d acc x :
  u64_ok d → u64_ok x →
  in_record_step acc (keys.in_edge c t d x, edge_record_value) = Ok (Continue ({[x]} ∪ acc)).
Proof.
  intros Hd Hx. unfold in_record_step. rewrite record_key_utf8.
  - unfold decode_edge_record. cbn [snd]. rewrite bool_decide_eq_true_2 by done.
    by rewrite parse_in_edge_key.
  - exists "e", ("in/" +:+ t +:+ "/" +:+ pad20 d +:+ "/" +:+ pad20 x).
    split; [reflexivity|]. split; [reflexivity|].
    repeat first [apply valid_utf8_app | apply pad_utf8 | by apply component_ok_utf8 | reflexivity].
Qed.

Lemma out_scan_of s : u64_ok s → scan_of u64_ok (POut c t s) (keys.out_edge c t s).
Proof.
  intros Hs. pose proof cell_is_name as Hn. pose proof (component_ok_slash _ Ht) as Htn. split; [done|].
  split; [by exists ("out/" +:+ t +:+ "/" +:+ pad20 s +:+ "/")|]. split.
  - intros x. unfold keys.out_edge, prefix_render, keys.out_prefix, starts_with.
    replace ("cell/" +:+ c +:+ "/e/out/" +:+ t +:+ "/" +:+ pad20 s +:+ "/" +:+ pad20 x)
      with (("cell/" +:+ c +:+ "/e/out/" +:+ t +:+ "/" +:+ pad20 s +:+ "/") +:+ pad20 x)
      by (by rewrite !app_assoc).
    by rewrite (proj2 (strip_prefix_Some _ _ _) eq_refl).
  - intros t' s' d Ht' Hs' Hd. cbn [covers]. split; [|done]. intros (_ & -> & ->). by exists d.
Qed.
Lemma in_scan_of d : u64_ok d → scan_of u64_ok (PIn c t d) (keys.in_edge c t d).
Proof.
  intros Hs. pose proof cell_is_name as Hn. pose proof (component_ok_slash _ Ht) as Htn. split; [done|].
  split; [by exists ("in/" +:+ t +:+ "/" +:+ pad20 d +:+ "/")|]. split.
  - intros x. unfold keys.in_edge, prefix_render, keys.in_prefix, starts_with.
    replace ("cell/" +:+ c +:+ "/e/in/" +:+ t +:+ "/" +:+ pad20 d +:+ "/" +:+ pad20 x)
      with (("cell/" +:+ c +:+ "/e/in/" +:+ t +:+ "/" +:+ pad20 d +:+ "/") +:+ pad20 x)
      by (by rewrite !app_assoc).
    by rewrite (proj2 (strip_prefix_Some _ _ _) eq_refl).
  - intros t' s' d' Ht' Hs' Hd. cbn [covers]. split; [done|]. intros (_ & -> & ->). by exists s'.
Qed.

Lemma out_key_inj s x y : u64_ok s → u64_ok x → u64_ok y → keys.out_edge c t s x = keys.out_edge c t s y → x = y.
Proof.
  intros Hs Hx Hy E. apply (render_eq (KOutEdge c t s x) (KOutEdge c t s y)) in E;
    [by simplify_eq|cbn; unfold name_ok; auto 10 with hydra..].
Qed.
Lemma in_key_inj s x y : u64_ok s → u64_ok x → u64_ok y → keys.in_edge c t s x = keys.in_edge c t s y → x = y.
Proof.
  intros Hs Hx Hy E. apply (render_eq (KInEdge c t s x) (KInEdge c t s y)) in E;
    [by simplify_eq|cbn; unfold name_ok; auto 10 with hydra..].
Qed.
End cell.

(** * What the snapshot reads return *)

Lemma counts_size (P : N → Prop) n (X : gset N) :
  counts P n → (∀ x, x ∈ X ↔ u64_ok x ∧ P x) → n = N.of_nat (length (bset_iter X)).
Proof.
  intros (Y & HY & <-) HX. rewrite bset_iter_length. f_equal. f_equal. apply set_eq. intros x.
  by rewrite HX, HY.
Qed.

Section reads.
Context (c t : string) (Hc : component_ok c = true) (Ht : component_ok t = true).
Context (v : gmap string string) (n q : N) (Ha : adjacency_ok c t v n).
Context (Hw : edges_wf c v) (Hs : no_segments c v).
#[local] Abbreviation db := (MkMemDb v n).

Lemma admission_ok k m : counter_is v k m → ∃ r, degree_for_cache_admission (S := Mem) db k = Ok r.
Proof.
  unfold counter_is, degree_for_cache_admission. cbn. destruct (v !! k); cbn; [by eauto|by eexists].
Qed.
Lemma degree_read x m :
  counter_is v (keys.degree_out c t x) m →
  out_degree_in_storage_snapshot (S := Mem) db c t x = Ok m.
Proof.
  unfold counter_is, out_degree_in_storage_snapshot. rewrite !validate_component_true by done. cbn.
  destruct (v !! _); cbn; [done|by intros ->].
Qed.

Lemma out_read x : u64_ok x → ∃ X : gset N,
  out_neighbors_in_storage_snapshot (S := Mem) db c t x q = Ok (bset_iter X) ∧
  ∀ y, y ∈ X ↔ u64_ok y ∧ edge_at c t v x y.
Proof.
  intros Hx. destruct (scan_edges c Hc v Hw u64_ok _ _ (out_scan_of c Hc t Ht x Hx)
    (λ a b, out_key_inj c Hc t Ht x a b Hx)) as (xs & Hscan & Hxs).
  exists (list_to_set xs). split; [|intros y; rewrite elem_of_list_to_set; apply Hxs].
  destruct (ao_out _ _ _ _ Ha x Hx) as (m & Hm & _).
  unfold out_neighbors_in_storage_snapshot. rewrite !validate_component_true by done.
  cbn [mbind result_mbind result_bind]. destruct (admission_ok _ _ Hm) as [r ->].
  cbn [mbind result_mbind result_bind snap_scan_prefix Mem mem_view].
  cbn [prefix_render] in Hscan. rewrite Hscan, (scan_records out_record_step (keys.out_edge c t x) xs ∅).
  - destruct (no_segment_entries c t x v (component_ok_slash _ Hc) Hs) as [-> ->].
    cbn. by rewrite (right_id_L ∅ (∪)).
  - intros. by apply out_step.
  - apply Forall_forall. intros y Hy. by apply Hxs.
Qed.

Lemma in_read x : u64_ok x → ∃ X : gset N,
  in_neighbors_in_storage_snapshot (S := Mem) db c t x = Ok (bset_iter X) ∧
  ∀ y, y ∈ X ↔ u64_ok y ∧ edge_at c t v y x.
Proof.
  intros Hx. destruct (scan_edges c Hc v Hw u64_ok _ _ (in_scan_of c Hc t Ht x Hx)
    (λ a b, in_key_inj c Hc t Ht x a b Hx)) as (xs & Hscan & Hxs).
  exists (list_to_set xs). split.
  2: { intros y. rewrite elem_of_list_to_set, Hxs. unfold edge_at.
       split; intros [Hy He]; (split; [done|]).
       - by rewrite <- (ao_reverse _ _ _ _ Ha y x Hy Hx).
       - by rewrite (ao_reverse _ _ _ _ Ha y x Hy Hx). }
  destruct (ao_in _ _ _ _ Ha x Hx) as (m & Hm & _).
  unfold in_neighbors_in_storage_snapshot. rewrite !validate_component_true by done.
  cbn [mbind result_mbind result_bind]. destruct (admission_ok _ _ Hm) as [r ->].
  cbn [mbind result_mbind result_bind snap_scan_prefix Mem mem_view].
  cbn [prefix_render] in Hscan. rewrite Hscan, (scan_records in_record_step (keys.in_edge c t x) xs ∅).
  - cbn. by rewrite (right_id_L ∅ (∪)).
  - intros. by apply in_step.
  - apply Forall_forall. intros y Hy. by apply Hxs.
Qed.

Lemma exists_read x y : u64_ok x → u64_ok y →
  edge_exists_in_storage_snapshot (S := Mem) db c t x y q = Ok (bool_decide (edge_at c t v x y)).
Proof.
  intros Hx Hy. unfold edge_exists_in_storage_snapshot. rewrite !validate_component_true by done.
  cbn. unfold edge_at. destruct (v !! keys.out_edge c t x y) eqn:E; cbn; [done|].
  assert (v !! keys.out_segment_tombstone c t x y = None) as ->.
  { apply Hs. unfold keys.out_segment_tombstone.
    apply (family_cell c "seg" ("tomb/out/" +:+ t +:+ "/" +:+ pad20 x +:+ "/" +:+ pad20 y)
      (component_ok_slash _ Hc) eq_refl). }
  cbn. destruct (no_segment_entries c t x v (component_ok_slash _ Hc) Hs) as [_ ->]. cbn.
  done.
Qed.
End reads.

Lemma events_adjacency c t q0 s0 s :
  component_ok c = true → component_ok t = true → rtc (event q0) s0 s → plain s0 →
  adjacency_ok c t (sview s0) (sseq s0) → edges_wf c (sview s0) →
  plain s ∧ adjacency_ok c t (sview s) (sseq s) ∧ edges_wf c (sview s).
Proof.
  intros Hc Ht. induction 1 as [s|s0 s1 s He _ IH]; [done|]. intros Hp Ha Hw. apply IH.
  - by apply (event_plain_seq q0 s0 s1).
  - by eapply event_adjacency.
  - by eapply event_edges_wf.
Qed.

(** C16: every read tells the same graph.  After any sequence of edge writes, edge
    deletes and change-log collections from a consistent store, a snapshot read
    of a vertex's outbound or inbound neighbours succeeds and returns, in
    ascending order and without repetition, exactly the vertices an edge joins
    it to; its stored degree is the number of its outbound neighbours; and the
    existence test of an edge answers whether the neighbour list holds it. *)
Theorem snapshot_reads_agree (c t : string) (q0 q : N) (s0 s : MShard) (x : N)
  (Hc : component_ok c = true) (Ht : component_ok t = true) (Hp : plain s0)
  (Ha : adjacency_ok c t (sview s0) (sseq s0)) (Hw : edges_wf c (sview s0))
  (Hr : rtc (event q0) s0 s) (Hx : u64_ok x) :
  ∃ outs ins,
    out_neighbors_in_storage_snapshot (S := Mem) (sh_db s) c t x q = Ok outs ∧
    in_neighbors_in_storage_snapshot (S := Mem) (sh_db s) c t x = Ok ins ∧
    out_degree_in_storage_snapshot (S := Mem) (sh_db s) c t x = Ok (N.of_nat (length outs)) ∧
    StronglySorted key_le outs ∧ NoDup outs ∧ StronglySorted key_le ins ∧ NoDup ins ∧
    (∀ y, y ∈ outs ↔ u64_ok y ∧ edge_at c t (sview s) x y) ∧
    (∀ y, y ∈ ins ↔ u64_ok y ∧ edge_at c t (sview s) y x) ∧
    ∀ y, u64_ok y →
      edge_exists_in_storage_snapshot (S := Mem) (sh_db s) c t x y q = Ok (bool_decide (y ∈ outs)).
Proof.
  destruct (events_adjacency c t q0 s0 s Hc Ht Hr Hp Ha Hw) as ([_ Hs] & Ha' & Hw').
  assert (sh_db s = MkMemDb (sview s) (sseq s)) as -> by (unfold sview, sseq; by destruct (sh_db s)).
  destruct (out_read c t Hc Ht _ _ q Ha' Hw' (Hs c) x Hx) as (X & HX & HX').
  destruct (in_read c t Hc Ht _ _ Ha' Hw' x Hx) as (Y & HY & HY').
  exists (bset_iter X), (bset_iter Y). split; [done|]. split; [done|]. split.
  { destruct (ao_out _ _ _ _ Ha' x Hx) as (m & Hm & Hcnt & _).
    rewrite (degree_read c t Hc Ht _ _ x m Hm). f_equal. by eapply counts_size. }
  split; [apply bset_iter_sorted|]. split; [apply bset_iter_nodup|].
  split; [apply bset_iter_sorted|]. split; [apply bset_iter_nodup|].
  split; [intros y; by rewrite elem_of_bset_iter|]. split; [intros y; by rewrite elem_of_bset_iter|].
  intros y Hy. rewrite (exists_read c t Hc Ht _ _ q (Hs c) x y) by done. f_equal.
  apply bool_decide_ext. rewrite elem_of_bset_iter, HX'. naive_solver.
Qed.

Lemma snapshot_reads_agree_witness :
  out_neighbors_in_storage_snapshot (S := Mem) (sh_db one_edge) "c1" "knows" 1 1 = Ok [2] ∧
  ∃ outs, out_neighbors_in_storage_snapshot (S := Mem) (sh_db one_edge) "c1" "knows" 1 1 = Ok outs ∧
    edge_exists_in_storage_snapshot (S := Mem) (sh_db one_edge) "c1" "knows" 1 2 1
      = Ok (bool_decide (2 ∈ outs)).
Proof.
  split; [vm_compute; reflexivity|].
  destruct (snapshot_reads_agree "c1" "knows" 0 1 empty_shard one_edge 1 eq_refl eq_refl empty_plain
    (adjacency_empty _ _ _)) as (outs & ins & H1 & _ & _ & _ & _ & _ & _ & _ & _ & H2).
  - intros k val _ H. change (sview empty_shard) with (∅ : gmap string string) in H. by rewrite lookup_empty in H.
  - eapply rtc_once, one_edge_event.
  - unfold u64_ok, u64_max. lia.
  - exists outs. split; [exact H1|]. apply H2. unfold u64_ok, u64_max. lia.
Defined.
