(* ===== verification/Replay.v ===== *)
(** Exactly once: a request that succeeded, sent again, gets the same answer and
    changes nothing. *)

From S2P Require Import Prelude Text TextFacts Errors Model Namespace Keys KeysFacts Codec CodecFacts CodecRecords CodecRecordFacts Kv ShardTxn SegmentReads ShardWrite ShardRefine ShardMem ShardInv Overlay Xlog XlogFacts History.

Local Open Scope N_scope.

(** * The fence *)

(** A cell that accepts writes: an open writer, the authority, no drop marker. *)
Definition writable (c : string) (s : MShard) (v : gmap string string) : Prop :=
  sh_writer s = true ∧ sh_authority s ≠ ReadOnly ∧
  v !! keys.cell_drop_marker c = None ∧ v !! keys.cell_drop_pending_marker c = None.

Lemma fence_writable c op (x x' : MTx) u :
  op ≠ "drop_cell" → validate_write_fence_txn c op x = (x', Ok u) → writable c (tx_shard x) (xview x).
Proof.
  intros Hop. unfold validate_write_fence_txn. rewrite bool_decide_eq_false_2 by done.
  intros (x1 & [] & E1 & E2)%bind_inv. rewrite (bind_run _ _ _ _ _ (run_read _ _)) in E1.
  apply bind_inv in E1 as (x2 & p & E3 & E4).
  destruct (xview x !! keys.cell_drop_marker c) eqn:Ed.
  { apply mret_inv in E3 as [-> ->]. done. }
  rewrite run_read in E3. injection E3 as <- <-.
  destruct (xview x !! keys.cell_drop_pending_marker c) eqn:Ep; [done|].
  apply mret_inv in E4 as [-> _].
  unfold on_shard in E2. destruct (ensure_write_authority c op (tx_shard x)) as [s r] eqn:E.
  unfold ensure_write_authority, gets, mbind, sm_mbind, writer, fails in E.
  unfold writable. destruct (sh_authority (tx_shard x)), (sh_writer (tx_shard x)); simplify_eq; done.
Qed.

Lemma fence_run c op (x : MTx) :
  writable c (tx_shard x) (xview x) → validate_write_fence_txn c op x = (x, Ok tt).
Proof.
  intros (Hw & Ha & Hd & Hp). unfold validate_write_fence_txn.
  rewrite (bind_run _ _ x x tt).
  - unfold on_shard, ensure_write_authority, gets, mbind, sm_mbind, writer. destruct x as [s t]. cbn in *.
    destruct (sh_authority s); [done| |]; cbn; by rewrite Hw.
  - case_bool_decide; [done|]. rewrite (bind_run _ _ _ _ _ (run_read _ _)), Hd.
    rewrite (bind_run _ _ _ _ _ (run_read _ _)), Hp. done.
Qed.

(** * The handler around a transaction *)

Section handler.
Context {R : Type} (m : EdgeMutation) (op : string) (body : SM MTx R).
Context (key : string) (decode : string → Result R).

Definition attempt : SM MShard R := acquire_local_write_guard (em_cell_id m) op ;; with_txn body.

(** A stored answer to the request. *)
Definition answered (v : gmap string string) (r : R) : Prop :=
  ∃ val, v !! key = Some val ∧ decode val = Ok r.

(** What the handler needs of its body: a success leaves the answer stored and the
    cell writable, and a stored answer is returned without a change. *)
Definition body_answers : Prop := ∀ (x x' : MTx) r,
  sh_policy (tx_shard x) = Full → no_segments (em_cell_id m) (xview x) → sh_db (tx_shard x) = tx_txn x →
  body x = (x', Ok r) →
  writable (em_cell_id m) (tx_shard x') (sview (tx_shard x')) ∧ answered (sview (tx_shard x')) r.
Definition body_replays : Prop := ∀ (x : MTx) r,
  writable (em_cell_id m) (tx_shard x) (xview x) → answered (xview x) r → body x = (x, Ok r).

Lemma routed_inv (s s' : MShard) r :
  routed_write m op attempt s = (s', Ok r) →
  component_ok (em_cell_id m) = true ∧ component_ok (em_edge_type m) = true ∧
  component_ok (em_idempotency_key m) = true ∧
  ∃ s0 n sk sk', same_store s s0 ∧ conflicts attempt n s0 sk ∧ attempt sk = (sk', Ok r) ∧
    s' = set_metrics (bump_commits (sh_metrics sk')) sk'.
Proof.
  unfold routed_write, lift.
  intros (s1 & u1 & E1 & H)%bind_inv. injection E1 as <- E1. apply validate_ok_inv in E1.
  apply bind_inv in H as (s1 & u2 & E2 & H). injection E2 as <- E2. apply validate_ok_inv in E2.
  apply bind_inv in H as (s1 & u3 & E3 & H). injection E3 as <- E3. apply validate_ok_inv in E3.
  apply bind_inv in H as (s1 & u4 & E4 & H). apply authority_same in E4 as ->.
  apply bind_inv in H as (s1 & u5 & E5 & H).
  split; [done|]. split; [done|]. split; [done|].
  destruct (txn_retry_loop_spec attempt 31 s1) as (n & sk & _ & Hc & Hl & _).
  change GRAPH_TXN_MAX_RETRIES with 32%nat in H. rewrite Hl in H.
  destruct (attempt sk) as [sk' [a|e]] eqn:Ek; [|done]. injection H as <- <-.
  exists s1, n, sk, sk'. split; [|done].
  unfold acquire_graph_write_permit, acquire_operation_permit, on_metrics, modify, gets, fails,
    mbind, sm_mbind in E5. cbn in E5. destruct (permits _ =? 0), (closed _); cbn in E5; try discriminate E5; injection E5 as <- _; done.
Qed.

Lemma routed_run (s : MShard) :
  component_ok (em_cell_id m) = true → component_ok (em_edge_type m) = true →
  component_ok (em_idempotency_key m) = true →
  sh_writer s = true → sh_authority s ≠ ReadOnly →
  ∃ mt, routed_write m op attempt s =
    if closed (sh_write_gate s)
    then (set_metrics mt s, Err (CorruptValue ("backpressure/" +:+ op) "operation gate closed: semaphore closed"))
    else txn_retry_loop attempt GRAPH_TXN_MAX_RETRIES (set_metrics mt s).
Proof.
  intros H1 H2 H3 Hw Ha. unfold routed_write, lift. rewrite !validate_component_true by done.
  rewrite (bind_run _ _ s s tt), (bind_run _ _ s s tt), (bind_run _ _ s s tt) by done.
  rewrite (bind_run _ _ s s tt).
  2: { unfold ensure_write_authority, gets, mbind, sm_mbind, writer.
       destruct (sh_authority s); [done| |]; cbn; by rewrite Hw. }
  unfold acquire_graph_write_permit, acquire_operation_permit, on_metrics, modify, gets, fails, mbind, sm_mbind.
  cbn -[txn_retry_loop]. destruct (permits _ =? 0), (closed _); cbn -[txn_retry_loop]; by eexists.
Qed.

Lemma attempt_run (s : MShard) r :
  component_ok (em_cell_id m) = true → component_ok op = true → body_replays →
  writable (em_cell_id m) s (sview s) → answered (sview s) r →
  attempt s = (set_gate (note_success (sh_reopen_gate s)) s, Ok r).
Proof.
  intros Hc Hop Hrep Hw Hans. unfold attempt.
  rewrite (bind_run _ _ s (set_gate (note_success (sh_reopen_gate s)) s) tt).
  2: { unfold acquire_local_write_guard, refresh_writer_fence, refresh_manifest, writer, lift, mbind, sm_mbind.
       rewrite !validate_component_true by done. rewrite (proj1 Hw). cbn. by destruct s. }
  unfold with_txn, mbind, sm_mbind, writer, in_txn. cbn [sh_writer set_gate]. rewrite (proj1 Hw).
  cbn [db_begin Mem]. set (s1 := set_gate _ s).
  assert (set_db (S := Mem) (sh_db s1) s1 = s1) as -> by (by destruct s).
  rewrite (Hrep (MkTx s1 (sh_db s1)) r); [done|exact Hw|exact Hans].
Qed.

Lemma attempt_answers (s s' : MShard) r :
  body_answers → plain_cell m s → attempt s = (s', Ok r) →
  writable (em_cell_id m) s' (sview s') ∧ answered (sview s') r.
Proof.
  intros Hb Hp (s1 & u & E1 & (x' & E & ->)%with_txn_ok)%bind_inv.
  apply guard_same in E1. destruct (plain_same _ _ _ E1 Hp) as [Hpol Hseg].
  eapply (Hb (MkTx (S := Mem) s1 (sh_db s1)) x' r Hpol Hseg eq_refl E).
Qed.

(** The second call of a request that succeeded. *)
Lemma routed_twice (s s1 : MShard) r :
  attempt_ok m attempt → component_ok op = true → body_answers → body_replays → plain_cell m s →
  routed_write m op attempt s = (s1, Ok r) →
  ∃ s2, same_store s1 s2 ∧ routed_write m op attempt s1 =
    (s2, if closed (sh_write_gate s1)
         then Err (CorruptValue ("backpressure/" +:+ op) "operation gate closed: semaphore closed")
         else Ok r).
Proof.
  intros Ha Hop Hb Hrep Hp (H1 & H2 & H3 & s0 & n & sk & sk' & Hs & Hc & E & ->)%routed_inv.
  pose proof (plain_same _ _ _ Hs Hp) as Hp0.
  pose proof (plain_same _ _ _ (conflicts_same _ _ _ _ _ Ha Hp0 Hc) Hp0) as Hpk.
  destruct (attempt_answers sk sk' r Hb Hpk E) as [Hw Hans].
  destruct (routed_run (set_metrics (bump_commits (sh_metrics sk')) sk') H1 H2 H3 (proj1 Hw)
    (proj1 (proj2 Hw))) as [mt ->].
  destruct (closed _); [eexists; split; [|reflexivity]; done|].
  change GRAPH_TXN_MAX_RETRIES with (Datatypes.S 31). cbn [txn_retry_loop].
  erewrite attempt_run; [|done|done|done|exact Hw|exact Hans].
  eexists. split; [|reflexivity]. done.
Qed.
End handler.

(** * The two handlers *)

Lemma marker_kept m b fl (v v' : gmap string string) q k :
  mutation_ok m → edge_effect m b fl v q v' → marker k → v' !! k = v !! k.
Proof.
  intros Hm He Hk. apply (ee_rest _ _ _ _ _ _ He); [by right|].
  intros Hin. pose proof (cell_name m Hm) as Hn. revert Hk. revert Hin. unfold changed_keys.
  rewrite !elem_of_cons, elem_of_nil.
  assert (∀ f rest, name_ok f → k = "cell/" +:+ em_cell_id m +:+ "/" +:+ f +:+ "/" +:+ rest → ¬ marker k) as Hf.
  { intros f rest Hfo ->. eapply family_not_marker. by apply family_cell. }
  intros [E|[E|[E|[E|[E|[E|[E|[E|[]]]]]]]]]; rewrite ?dirty_form in E;
    first [ apply (Hf "e" _ eq_refl E) | apply (Hf "cnt" _ eq_refl E) | apply (Hf "xlog" _ eq_refl E)
          | apply (Hf "meta" _ eq_refl E) ].
Qed.

(** A commit that kept the markers keeps the cell writable. *)
Lemma committed_writable c (x x' : MTx) v' fl' :
  committed x x' v' fl' → writable c (tx_shard x) (xview x) →
  (∀ k, marker k → v' !! k = xview x !! k) → writable c (tx_shard x') (sview (tx_shard x')).
Proof.
  intros [_ Hx] (H1 & H2 & H3 & H4) Hk. unfold writable, sview. rewrite Hx. cbn.
  destruct (marker_drop c) as [Hm1 Hm2]. rewrite !Hk by done. done.
Qed.

Lemma same_edge_refl m : same_edge m m = true.
Proof. unfold same_edge, lit. rewrite !bool_decide_eq_true_2, !N.eqb_refl by done. done. Qed.

Section edge.
Context (m : EdgeMutation) (Hm : mutation_ok m).

Lemma commit_answer r : u64_ok (cr_epoch r) →
  decode_commit_idempotency (create_key m) m (encode_commit_idempotency m r) = Ok r.
Proof.
  intros Hr. pose proof Hm as (Hc & Ht & Hs & Hd). destruct r as [epoch b]. cbn [cr_epoch] in Hr.
  unfold decode_commit_idempotency, encode_commit_idempotency. cbn [cr_epoch cr_already_existed].
  open_record; run_decoder. rewrite ensure_same_edge by done. rewrite same_edge_refl. run_decoder. done.
Qed.
Lemma delete_answer r : u64_ok (dr_epoch r) →
  decode_delete_idempotency (delete_key m) m (encode_delete_idempotency m r) = Ok r.
Proof.
  intros Hr. pose proof Hm as (Hc & Ht & Hs & Hd). destruct r as [epoch b]. cbn [dr_epoch] in Hr.
  unfold decode_delete_idempotency, encode_delete_idempotency. cbn [dr_epoch dr_deleted].
  open_record; run_decoder. rewrite ensure_same_edge by done. rewrite same_edge_refl. run_decoder. done.
Qed.

Lemma write_answers ups em :
  body_answers m (write_edge_body m ups em "write_edge") (create_key m) (decode_commit_idempotency (create_key m) m).
Proof.
  intros x x' r Hpol Hseg Hdb E.
  assert (writable (em_cell_id m) (tx_shard x) (xview x)) as Hw.
  { unfold write_edge_body in E. apply bind_inv in E as (x1 & u & E & _). eapply fence_writable; [|exact E]. done. }
  apply (write_body_inv m Hm) in E; [|done..].
  destruct E as [[-> Hval]|(v' & fl' & Hc & _ & Hk & Hep & Hcase)].
  - unfold answered, sview. rewrite Hdb. done.
  - split.
    + eapply committed_writable; [done|done|]. intros k Hmk.
      destruct Hcase as [(_ & Hq & _)|(_ & _ & He & _)]; [apply Hq; by right|by apply (marker_kept m _ _ _ _ _ _ Hm He)].
    + exists (encode_commit_idempotency m r). destruct Hc as [_ Hx]. unfold sview. rewrite Hx. cbn.
      split; [done|]. by apply commit_answer.
Qed.
Lemma write_replays ups em :
  body_replays m (write_edge_body m ups em "write_edge") (create_key m) (decode_commit_idempotency (create_key m) m).
Proof.
  intros x r Hw (val & Hv & Hd). unfold write_edge_body.
  rewrite (bind_run _ _ _ _ _ (fence_run _ _ _ Hw)). cbv zeta. fold (create_key m).
  rewrite (bind_run _ _ _ _ _ (run_read _ _)), Hv. unfold lift. by rewrite Hd.
Qed.

Lemma delete_answers :
  body_answers m (delete_edge_body m) (delete_key m) (decode_delete_idempotency (delete_key m) m).
Proof.
  intros x x' r Hpol Hseg Hdb E.
  assert (writable (em_cell_id m) (tx_shard x) (xview x)) as Hw.
  { unfold delete_edge_body in E. apply bind_inv in E as (x1 & u & E & _). eapply fence_writable; [|exact E]. done. }
  apply (delete_body_inv m Hm) in E; [|done].
  destruct E as [[-> Hval]|(v' & fl' & Hc & _ & Hk & Hcase)].
  - unfold answered, sview. rewrite Hdb. done.
  - split.
    + eapply committed_writable; [done|done|]. intros k Hmk.
      destruct Hcase as [(_ & _ & Hq & _)|(_ & _ & He & _)]; [apply Hq; by right|by apply (marker_kept m _ _ _ _ _ _ Hm He)].
    + exists (encode_delete_idempotency m r). destruct Hc as [Hq Hx]. unfold sview. rewrite Hx. cbn.
      split; [done|]. apply delete_answer.
      destruct Hcase as [(_ & -> & _)|(_ & -> & _)]; cbn; [unfold u64_ok in *; lia|done].
Qed.
Lemma delete_replays :
  body_replays m (delete_edge_body m) (delete_key m) (decode_delete_idempotency (delete_key m) m).
Proof.
  intros x r Hw (val & Hv & Hd). unfold delete_edge_body.
  rewrite (bind_run _ _ _ _ _ (fence_run _ _ _ Hw)). cbv zeta. fold (delete_key m).
  rewrite (bind_run _ _ _ _ _ (run_read _ _)), Hv. unfold lift. by rewrite Hd.
Qed.
End edge.

Lemma routed_names {A} m op (att : SM MShard A) s s' r :
  routed_write m op att s = (s', Ok r) →
  component_ok (em_cell_id m) = true ∧ component_ok (em_edge_type m) = true.
Proof.
  unfold routed_write, lift.
  intros (s1 & u1 & E1 & H)%bind_inv. injection E1 as <- E1. apply validate_ok_inv in E1.
  apply bind_inv in H as (s1 & u2 & E2 & H). injection E2 as <- E2. by apply validate_ok_inv in E2.
Qed.

(** C17: edge writes and deletes are applied exactly once.  A request that
    succeeded and is sent again, under the same idempotency key, on the store it
    left, gets the answer it got the first time, with the original epoch and
    outcome, and leaves the stored state, its sequence and the index policy
    untouched; only a closed write gate can refuse it. *)
Theorem edge_requests_exactly_once (m : EdgeMutation) (s s1 : MShard)
  (Hp : plain_cell m s) (Hsrc : u64_ok (em_src m)) (Hdst : u64_ok (em_dst m)) :
  let refused op := CorruptValue ("backpressure/" +:+ op) "operation gate closed: semaphore closed" in
  (∀ r, write_edge m s = (s1, Ok r) → ∃ s2, same_store s1 s2 ∧
     write_edge m s1 = (s2, if closed (sh_write_gate s1) then Err (refused "write_edge") else Ok r)) ∧
  (∀ r, delete_edge m s = (s1, Ok r) → ∃ s2, same_store s1 s2 ∧
     delete_edge m s1 = (s2, if closed (sh_write_gate s1) then Err (refused "delete_edge") else Ok r)).
Proof.
  cbv zeta. split; intros r E; destruct (routed_names _ _ _ _ _ _ E) as [Hc Ht];
    assert (mutation_ok m) as Hm by done.
  - eapply (routed_twice m "write_edge" (write_edge_body m [] EdgeMetadata_default "write_edge"));
      [|done|by apply write_answers|apply write_replays|done|exact E].
    apply guarded_ok. by apply locked_write_ok.
  - eapply (routed_twice m "delete_edge" (delete_edge_body m));
      [|done|by apply delete_answers|apply delete_replays|done|exact E].
    apply guarded_ok. by apply locked_delete_ok.
Qed.

Lemma edge_requests_exactly_once_witness :
  ∃ s2, same_store one_edge s2 ∧
    write_edge (sample_edge 1 2 "k1") one_edge = (s2, Ok (MkCommitResult 1 false)).
Proof.
  destruct (edge_requests_exactly_once (sample_edge 1 2 "k1") empty_shard one_edge) as [H _].
  - split; [done|]. apply empty_plain.
  - unfold u64_ok, u64_max. cbn. lia.
  - unfold u64_ok, u64_max. cbn. lia.
  - destruct (H (MkCommitResult 1 false)) as (s2 & Hs & E); [vm_compute; reflexivity|].
    exists s2. split; [exact Hs|]. exact E.
Defined.
