(* ===== verification/Compaction.v ===== *)
(** Compaction of outbound adjacency segments ([shard/maintenance.rs]) and the
    reads of a cell through a snapshot of its store ([shard/query.rs],
    [core/snapshot.rs]).  The trusted segments of a vertex up to an epoch become
    one segment of the destinations still visible, and the tombstones up to that
    epoch go.  Lanes and guards inside a process, which [renew] and [release] leave
    alone, are not part of the state. *)

From S2P Require Import Prelude Text Errors Model Namespace Keys Codec CodecRecords Kv ShardTxn SegmentReads ShardWrite Overlay Xlog.

Local Open Scope N_scope.

Module compaction.

(** [MatrixArtifact] of [engine.rs]; which one is the latest is the engine's answer. *)
Record MatrixArtifact := MkArtifact {
  ma_cell_id : string; ma_edge_type : string; ma_base_epoch : StorageSequence; ma_tile_size : N;
  ma_out_tiles : N; ma_transpose_tiles : N; ma_edge_count : N }.

Section compaction.
Context {S : SlateDb}.

(** * Reads through a snapshot *)

Record GraphSnapshot := MkSnapshot { gs_cell_id : string; gs_read_epoch : StorageSequence; gs_storage : Snap }.

Definition snapshot (cell_id : string) : SM (Shard S) GraphSnapshot :=
  lift (validate_component "cell_id" cell_id) ;;
  sh ← gets id;
  storage ← lift (slate (db_snapshot (sh_db sh)));
  mret (MkSnapshot cell_id (snap_seq storage) storage).

Definition read_in {A} (operation cell_id edge_type : string) (read : GraphSnapshot → Result A) : SM (Shard S) A :=
  lift (validate_component "cell_id" cell_id) ;;
  lift (validate_component "edge_type" edge_type) ;;
  ensure_cell_readable cell_id operation ;;
  n ← snapshot cell_id;
  lift (read n).

Definition edge_exists (cell_id edge_type : string) (src dst : VertexId) : SM (Shard S) bool :=
  read_in "edge_exists" cell_id edge_type (λ n,
    edge_exists_in_storage_snapshot (gs_storage n) (gs_cell_id n) edge_type src dst (gs_read_epoch n)).
Definition out_neighbors (cell_id edge_type : string) (src : VertexId) : SM (Shard S) (list VertexId) :=
  read_in "out_neighbors" cell_id edge_type (λ n,
    out_neighbors_in_storage_snapshot (gs_storage n) (gs_cell_id n) edge_type src (gs_read_epoch n)).
Definition out_degree (cell_id edge_type : string) (src : VertexId) : SM (Shard S) N :=
  read_in "out_degree" cell_id edge_type (λ n,
    out_degree_in_storage_snapshot (gs_storage n) (gs_cell_id n) edge_type src).

(** * Compaction *)

Record SegmentCompactionRequest := MkCompaction {
  sc_cell_id : string; sc_edge_type : string; sc_src : VertexId;
  sc_compacted_through_epoch : StorageSequence; sc_idempotency_key : string }.

(** The segments up to the epoch, under their keys, and how many edges they hold. *)
Definition source_step (compacted_through_epoch : StorageSequence)
  (acc : list (string * OutEdgeSegment) * N) (kv : string * string) :
  Result (Flow (list (string * OutEdgeSegment) * N)) :=
  let key := entry_key kv in
  segment ← decode_out_edge_segment key kv.2;
  Ok (if compacted_through_epoch <? oes_storage_sequence segment then Break acc
      else Continue (acc.1 ++ [(key, segment)],
                     saturating_add acc.2 (N.of_nat (length (oes_destinations segment))))).

(** The tombstones of the vertex up to now, with their keys. *)
Definition compacted_tombstone_step (cell_id edge_type : string) (src : VertexId) (current_epoch : StorageSequence)
  (tombstones : gmap VertexId (StorageSequence * string)) (kv : string * string) :
  Result (Flow (gmap VertexId (StorageSequence * string))) :=
  let key := entry_key kv in
  '(key_cell_id, key_edge_type, key_src, dst) ← parse_out_edge_segment_tombstone_key key;
  if bool_decide (key_cell_id = cell_id) && bool_decide (key_edge_type = edge_type) && (key_src =? src)
  then
    epoch ← decode_u64 key kv.2;
    Ok (Continue (if epoch <=? current_epoch then <[dst := (epoch, key)]> tombstones else tombstones))
  else corrupt key "segment tombstone identity does not match scan prefix".

Definition live_step (compacted_through_epoch : StorageSequence) (tombstones : gmap VertexId (StorageSequence * string))
  (sequence : StorageSequence) (live : gmap VertexId StorageSequence) (dst : VertexId) : gmap VertexId StorageSequence :=
  let tombstone_epoch :=
    t ← tombstones !! dst; if (t.1 <=? compacted_through_epoch) then Some t.1 else None in
  if segment_edge_visible sequence tombstone_epoch
  then <[dst := match live !! dst with Some existing => N.max existing sequence | None => sequence end]> live
  else live.

Definition live_destinations (compacted_through_epoch : StorageSequence)
  (tombstones : gmap VertexId (StorageSequence * string)) (source_segments : list (string * OutEdgeSegment)) :
  list VertexId :=
  btree_keys (foldl (λ live p,
      foldl (live_step compacted_through_epoch tombstones (oes_storage_sequence p.2)) live (oes_destinations p.2))
    ∅ source_segments).

(** The batch, and what it did. *)
Definition compaction_batch (r : SegmentCompactionRequest) (source_segments : list (string * OutEdgeSegment))
  (input_edges : N) (tombstones : gmap VertexId (StorageSequence * string)) (current_degree : N) :
  GraphWriteBatch * SegmentCompactionResult :=
  let through := sc_compacted_through_epoch r in
  let compacted_destinations := live_destinations through tombstones source_segments in
  let dead := filter (λ p : VertexId * (StorageSequence * string), (p.2.1 <=? through) = true) (btree_iter tombstones) in
  let result := MkSegmentCompactionResult through
    (N.of_nat (length source_segments)) (N.of_nat (length source_segments)) (N.of_nat (length dead))
    input_edges (N.of_nat (length compacted_destinations)) in
  let batch :=
    (WDelete <$> source_segments.*1) ++
    (WDelete <$> (dead.*2).*2) ++
    match compacted_destinations with
    | [] => []
    | _ :: _ =>
        [WPut (keys.out_segment (sc_cell_id r) (sc_edge_type r) (sc_src r) through
                 ("compact-" +:+ sc_idempotency_key r))
           (encode_out_edge_segment_records compacted_destinations)]
    end ++
    [WPut (keys.degree_out (sc_cell_id r) (sc_edge_type r) (sc_src r)) (encode_u64 current_degree);
     WPut (keys.idempotency (sc_cell_id r) (segment_compaction_idempotency_operation (sc_edge_type r) (sc_src r))
             (sc_idempotency_key r))
       (encode_segment_compaction_idempotency (sc_idempotency_key r) result)] in
  (batch, result).

Definition operation : string := "compact_out_adjacency_segments".

Context (latest_matrix_artifact : string → string → StorageSequence → Result (option MatrixArtifact)).

Definition compact_fresh (r : SegmentCompactionRequest) : SM (Shard S) SegmentCompactionResult :=
  let c := sc_cell_id r in
  let t := sc_edge_type r in
  let through := sc_compacted_through_epoch r in
  let prefix := keys.out_segment_src_prefix c t (sc_src r) in
  current ← current_epoch c;
  if current <? through then fails (SnapshotAhead c through current)
  else
    artifact ← lift (latest_matrix_artifact c t through);
    match artifact with
    | None => lift (corrupt prefix "cannot compact adjacency segments without a matrix artifact")
    | Some artifact =>
        if negb (ma_base_epoch artifact =? through)
        then lift (corrupt prefix ("latest matrix artifact is at epoch " +:+ dec (ma_base_epoch artifact)
                                   +:+ ", expected " +:+ dec through))
        else
          neighbors ← out_neighbors c t (sc_src r);
          let current_degree := N.of_nat (length neighbors) in
          '(source_segments, input_edges) ← scan_remote_prefix prefix (source_step through) ([], 0);
          tombstones ← scan_remote_prefix (keys.out_segment_tombstone_src_prefix c t (sc_src r))
                         (compacted_tombstone_step c t (sc_src r) current) ∅;
          let '(batch, result) := compaction_batch r source_segments input_edges tombstones current_degree in
          write_graph_batch_strict c operation batch ;;
          on_metrics (bump_gc_completed
            (saturating_add (scr_deleted_segment_keys result) (scr_deleted_tombstone_keys result))) ;;
          mret result
    end.

Definition compact_out_adjacency_segments_locked (r : SegmentCompactionRequest) : SM (Shard S) SegmentCompactionResult :=
  let idem_key := keys.idempotency (sc_cell_id r)
    (segment_compaction_idempotency_operation (sc_edge_type r) (sc_src r)) (sc_idempotency_key r) in
  replay ← read_remote idem_key;
  match replay with
  | Some value =>
      lift (decode_segment_compaction_idempotency idem_key (sc_idempotency_key r) (sc_compacted_through_epoch r) value)
  | None => compact_fresh r
  end.

Definition compact_out_adjacency_segments (r : SegmentCompactionRequest) : SM (Shard S) SegmentCompactionResult :=
  lift (validate_component "cell_id" (sc_cell_id r)) ;;
  lift (validate_component "edge_type" (sc_edge_type r)) ;;
  lift (validate_component "idempotency_key" (sc_idempotency_key r)) ;;
  ensure_write_authority (sc_cell_id r) operation ;;
  acquire_gc_permit operation ;;
  acquire_local_write_guard (sc_cell_id r) operation ;;
  compact_out_adjacency_segments_locked r.
End compaction.
End compaction.
