(* ===== verification/SegmentFacts.v ===== *)
(** Segments and tombstones of a cell: what the scans of a vertex's segments see,
    and what the snapshot reads return when it has some. *)

From S2P Require Import Prelude Text TextFacts Errors Model Namespace Keys KeysFacts Codec CodecFacts CodecRecords CodecRecordFacts Kv ShardTxn SegmentReads ShardWrite ShardRefine ShardMem.

Local Open Scope N_scope.

(** * Scans of a view *)

Lemma in_scan_starts p lo hi k : in_scan p lo hi k = true → starts_with p k = true.
Proof. unfold in_scan, starts_with. by destruct (strip_prefix p k). Qed.

Lemma elem_of_view_scan v p lo hi k val :
  (k, val) ∈ view_scan v p lo hi ↔ in_scan p lo hi k = true ∧ v !! k = Some val.
Proof. unfold view_scan. by rewrite list_elem_of_filter, elem_of_btree_iter. Qed.
Lemma view_scan_sorted v p lo hi : StronglySorted pair_le (view_scan v p lo hi).
Proof. apply StronglySorted_filter, btree_iter_sorted. Qed.
Lemma view_scan_nodup v p lo hi : NoDup (view_scan v p lo hi).
Proof. apply NoDup_filter. eapply NoDup_fmap_1, btree_iter_nodup. Qed.

(** A scan depends on the keys under its prefix only. *)
Lemma view_scan_ext v v' p lo hi :
  (∀ k, starts_with p k = true → v' !! k = v !! k) → view_scan v' p lo hi = view_scan v p lo hi.
Proof.
  intros H. assert (∀ k val, (k, val) ∈ view_scan v' p lo hi ↔ (k, val) ∈ view_scan v p lo hi) as Hin.
  { intros k val. rewrite !elem_of_view_scan. split; intros [Hk Hv]; (split; [done|]);
      by rewrite <- Hv, H by (by eapply in_scan_starts). }
  apply (StronglySorted_unique_strong (pair_le (V := string))).
  - intros [k1 v1] [k2 v2] [_ H1]%Hin%elem_of_view_scan [_ H2]%elem_of_view_scan L1 L2.
    pose proof (anti_symm (key_le (K := string)) k1 k2 L1 L2) as E. cbn in E. subst k2.
    by simplify_eq.
  - apply view_scan_sorted.
  - apply view_scan_sorted.
  - apply NoDup_Permutation; [apply view_scan_nodup..|]. intros [k val]. apply Hin.
Qed.

(** When every entry under a prefix is the record of some [x], the scan lists those
    records in the order of their keys. *)
Lemma view_scan_form {X} (ok : X → Prop) (key value : X → string) v p :
  (∀ k val, starts_with p k = true → v !! k = Some val → ∃ x, ok x ∧ k = key x ∧ val = value x) →
  (∀ x, ok x → starts_with p (key x) = true) →
  (∀ x y, ok x → ok y → key x = key y → value x = value y → x = y) →
  ∃ xs, view_scan v p None None = (λ x, (key x, value x)) <$> xs ∧ NoDup xs ∧
    StronglySorted (λ x y, key_le (key x) (key y)) xs ∧
    ∀ x, x ∈ xs ↔ ok x ∧ v !! key x = Some (value x).
Proof.
  intros Hform Hself Hinj.
  assert (∃ xs, view_scan v p None None = (λ x, (key x, value x)) <$> xs ∧ Forall ok xs) as (xs & E & Hok).
  { assert (Forall (λ kv, ∃ x, ok x ∧ kv = (key x, value x)) (view_scan v p None None)) as H.
    { apply Forall_forall. intros [k val] [Hk Hv]%elem_of_view_scan. apply in_scan_starts in Hk.
      destruct (Hform k val Hk Hv) as (x & Hx & -> & ->). by exists x. }
    induction H as [|kv l (x & Hx & ->) _ (xs & -> & Hxs)]; [by exists []|].
    exists (x :: xs). split; [done|by constructor]. }
  exists xs. split; [done|]. split.
  { eapply NoDup_fmap_1. rewrite <- E. apply view_scan_nodup. } split.
  { pose proof (view_scan_sorted v p None None) as Hs. rewrite E in Hs. clear -Hs.
    induction xs as [|x xs IH]; [constructor|]. rewrite fmap_cons in Hs. apply StronglySorted_inv in Hs as [Hs Hx].
    constructor; [by apply IH|]. rewrite Forall_fmap in Hx. exact Hx. }
  rewrite Forall_forall in Hok. intros x. split.
  - intros Hx. split; [by apply Hok|]. eapply (elem_of_view_scan v p None None). rewrite E.
    apply list_elem_of_fmap. by exists x.
  - intros [Hx Hv]. assert ((key x, value x) ∈ view_scan v p None None) as Hin.
    { apply elem_of_view_scan. split; [|done]. pose proof (Hself x Hx) as H. unfold starts_with in H.
      unfold in_scan. by destruct (strip_prefix p (key x)). }
    rewrite E in Hin. apply list_elem_of_fmap in Hin as (y & [= E1 E2] & Hy).
    by rewrite (Hinj x y Hx (Hok y Hy) E1 E2).
Qed.

Lemma StronglySorted_weaken {X} (R R' : relation X) l :
  StronglySorted R l → (∀ a b, a ∈ l → b ∈ l → R a b → R' a b) → StronglySorted R' l.
Proof.
  induction 1 as [|a l Hl IH Ha]; intros H; [constructor|]. rewrite Forall_forall in Ha. constructor.
  - apply IH. intros a' b Ha' Hb. apply H; by apply list_elem_of_further.
  - apply Forall_forall. intros b Hb. apply H; [apply list_elem_of_here|by apply list_elem_of_further|by apply Ha].
Qed.

(** ** Loops over sorted records *)

(** A loop that stops at the first record past a bound visits those within it. *)
Lemma scan_loop_bounded {X B} (rank : X → N) (entry : X → string * string) (q : N)
  (f : B → string * string → Result (Flow B)) (g : B → X → B) xs acc :
  StronglySorted (λ x y, rank x ≤ rank y) xs →
  (∀ acc x, x ∈ xs → f acc (entry x) = Ok (if q <? rank x then Break acc else Continue (g acc x))) →
  scan_loop f acc (Ok <$> (entry <$> xs)) = Ok (foldl g acc (filter (λ x, rank x ≤ q) xs)).
Proof.
  intros Hs. revert acc. induction Hs as [|x xs Hs IH Hx]; intros acc H; [done|].
  cbn [fmap list_fmap scan_loop]. rewrite H by set_solver. destruct (q <? rank x) eqn:E.
  - apply N.ltb_lt in E. rewrite filter_cons_False by lia. f_equal.
    replace (filter (λ x, rank x ≤ q) xs) with ([] : list X); [done|]. symmetry.
    apply elem_of_nil_inv. intros y [Hy1 Hy2]%list_elem_of_filter. rewrite Forall_forall in Hx.
    specialize (Hx y Hy2). cbn in Hx. lia.
  - apply N.ltb_ge in E. rewrite filter_cons_True by done. cbn [foldl]. apply IH. intros. apply H. set_solver.
Qed.

(** The same with a search that stops at its first hit. *)
Lemma scan_loop_search {X} (rank : X → N) (entry : X → string * string) (q : N) (hit : X → bool)
  (f : bool → string * string → Result (Flow bool)) xs acc :
  StronglySorted (λ x y, rank x ≤ rank y) xs →
  (∀ acc x, x ∈ xs → f acc (entry x) =
     Ok (if q <? rank x then Break acc else if hit x then Break true else Continue acc)) →
  scan_loop f acc (Ok <$> (entry <$> xs)) = Ok (acc || existsb hit (filter (λ x, rank x ≤ q) xs)).
Proof.
  intros Hs. revert acc. induction Hs as [|x xs Hs IH Hx]; intros acc H; [cbn; by rewrite orb_false_r|].
  cbn [fmap list_fmap scan_loop]. rewrite H by set_solver. destruct (q <? rank x) eqn:E.
  - apply N.ltb_lt in E. rewrite filter_cons_False by lia. f_equal.
    replace (filter (λ x, rank x ≤ q) xs) with ([] : list X); [cbn; by rewrite orb_false_r|]. symmetry.
    apply elem_of_nil_inv. intros y [Hy1 Hy2]%list_elem_of_filter. rewrite Forall_forall in Hx.
    specialize (Hx y Hy2). cbn in Hx. lia.
  - apply N.ltb_ge in E. rewrite filter_cons_True by done. cbn [existsb].
    destruct (hit x); [cbn; by rewrite orb_true_r|]. cbn [orb]. apply IH. intros. apply H. set_solver.
Qed.

(** A loop every step of which continues is the fold. *)
Lemma scan_loop_fold {X B} (entry : X → string * string) (f : B → string * string → Result (Flow B))
  (g : B → X → B) xs acc :
  (∀ acc x, x ∈ xs → f acc (entry x) = Ok (Continue (g acc x))) →
  scan_loop f acc (Ok <$> (entry <$> xs)) = Ok (foldl g acc xs).
Proof.
  revert acc. induction xs as [|x xs IH]; intros acc H; [done|].
  cbn [fmap list_fmap scan_loop foldl]. rewrite H by set_solver. apply IH. intros. apply H. set_solver.
Qed.

(** * The segment records of a cell *)

Lemma encode_u64_same a b : u64_ok a → u64_ok b → encode_u64 a = encode_u64 b → a = b.
Proof.
  intros Ha Hb E. pose proof (encode_decode_u64 "" a Ha) as D. rewrite E, (encode_decode_u64 "" b Hb) in D.
  by injection D as ->.
Qed.

Record Segment := MkSegment { sg_sequence : N; sg_id : string; sg_destinations : list VertexId }.
Definition segment_key (c t : string) (x : VertexId) (e : Segment) : string :=
  keys.out_segment c t x (sg_sequence e) (sg_id e).
Definition segment_value (e : Segment) : string := encode_out_edge_segment_records (sg_destinations e).
Definition segment_ok (n : N) (e : Segment) : Prop :=
  u64_ok (sg_sequence e) ∧ sg_sequence e ≤ n ∧ component_ok (sg_id e) = true ∧ destinations_ok (sg_destinations e).

(** What a cell stores under its segment family up to a sequence. *)
Definition segments_wf (c : string) (v : gmap string string) (n : N) : Prop := ∀ k val,
  family k = Some (c, "seg") → v !! k = Some val →
  (∃ t x e, component_ok t = true ∧ u64_ok x ∧ segment_ok n e ∧ k = segment_key c t x e ∧ val = segment_value e) ∨
  (∃ t x d e, component_ok t = true ∧ u64_ok x ∧ u64_ok d ∧ u64_ok e ∧ e ≤ n ∧
     k = keys.out_segment_tombstone c t x d ∧ val = encode_u64 e).

Section vertex.
Context (c t : string) (x : VertexId) (Hc : component_ok c = true) (Ht : component_ok t = true) (Hx : u64_ok x).

(** The tombstone of a destination, as of a sequence. *)
Definition tombstone (v : gmap string string) (d : VertexId) : option N :=
  val ← v !! keys.out_segment_tombstone c t x d;
  result_ok (decode_u64 (keys.out_segment_tombstone c t x d) val).
Definition tombstone_at (v : gmap string string) (q : N) (d : VertexId) : option N :=
  e ← tombstone v d; if e <=? q then Some e else None.

(** A destination shown by a segment. *)
Definition segment_shows (v : gmap string string) (n q : N) (d : VertexId) : Prop :=
  ∃ e, segment_ok n e ∧ v !! segment_key c t x e = Some (segment_value e) ∧ sg_sequence e ≤ q ∧
    d ∈ sg_destinations e ∧ segment_edge_visible (sg_sequence e) (tombstone_at v q d) = true.

#[local] Lemma Hcn : name_ok c. Proof. by apply component_ok_slash. Qed.
#[local] Lemma Htn : name_ok t. Proof. by apply component_ok_slash. Qed.
#[local] Hint Resolve Hcn Htn Hx component_ok_slash : core.

Lemma seg_wf_key t' x' n e : component_ok t' = true → u64_ok x' → segment_ok n e →
  key_wf (KOutSegment c t' x' (sg_sequence e) (sg_id e)).
Proof.
  intros Ht'%component_ok_slash Hx' (H1 & _ & H2%component_ok_slash & _). by repeat split; auto.
Qed.
Lemma segment_key_wf n e : segment_ok n e → key_wf (KOutSegment c t x (sg_sequence e) (sg_id e)).
Proof. intros (H1 & _ & H2 & _). apply component_ok_slash in H2. by repeat split; auto. Qed.
Lemma tombstone_key_wf d : u64_ok d → key_wf (KOutSegmentTombstone c t x d).
Proof. by repeat split; auto. Qed.

Lemma segment_key_family e : family (segment_key c t x e) = Some (c, "seg").
Proof.
  unfold segment_key, keys.out_segment.
  exact (family_cell c "seg" ("out/" +:+ t +:+ "/" +:+ pad20 x +:+ "/" +:+ pad20 (sg_sequence e) +:+ "/" +:+ sg_id e) Hcn eq_refl).
Qed.
Lemma tombstone_key_family d : family (keys.out_segment_tombstone c t x d) = Some (c, "seg").
Proof.
  unfold keys.out_segment_tombstone.
  exact (family_cell c "seg" ("tomb/out/" +:+ t +:+ "/" +:+ pad20 x +:+ "/" +:+ pad20 d) Hcn eq_refl).
Qed.

Lemma seg_prefix_family p k : (∃ rest, p = "cell/" +:+ c +:+ "/" +:+ "seg" +:+ "/" +:+ rest) →
  starts_with p k = true → family k = Some (c, "seg").
Proof.
  intros [rest ->] H. unfold starts_with in H. destruct (strip_prefix _ k) as [suffix|] eqn:E; [|done].
  apply strip_prefix_Some in E as ->. rewrite !app_assoc.
  apply (family_cell c "seg" (rest +:+ suffix) Hcn eq_refl).
Qed.

(** Keys are UTF-8. *)
Lemma pad_utf8' m : valid_utf8 (pad20 m).
Proof. apply ascii_valid_utf8, plain_ascii, pad20_plain. Qed.
Lemma segment_entry_key n e val : segment_ok n e → entry_key (segment_key c t x e, val) = segment_key c t x e.
Proof.
  intros (_ & _ & H & _). apply from_utf8_lossy_valid. cbn [fst]. unfold segment_key, keys.out_segment.
  repeat first [apply valid_utf8_app | apply pad_utf8' | by apply component_ok_utf8 | reflexivity].
Qed.
Lemma tombstone_entry_key d val :
  entry_key (keys.out_segment_tombstone c t x d, val) = keys.out_segment_tombstone c t x d.
Proof.
  apply from_utf8_lossy_valid. cbn [fst]. unfold keys.out_segment_tombstone.
  repeat first [apply valid_utf8_app | apply pad_utf8' | by apply component_ok_utf8 | reflexivity].
Qed.

Lemma segment_key_order n e e' : segment_ok n e → segment_ok n e' →
  key_le (segment_key c t x e) (segment_key c t x e') → sg_sequence e ≤ sg_sequence e'.
Proof.
  intros (H1 & _) (H2 & _) Hle. apply N.le_ngt. intros Hlt.
  assert (String.compare (segment_key c t x e) (segment_key c t x e') = Gt) as E.
  { unfold segment_key, keys.out_segment. rewrite !compare_self_app.
    rewrite compare_app by (by rewrite !pad20_length). rewrite pad20_compare by done.
    by rewrite (proj2 (N.compare_gt_iff _ _) Hlt). }
  change (String.le (segment_key c t x e) (segment_key c t x e')) in Hle.
  unfold String.le, String.leb in Hle. by rewrite E in Hle.
Qed.

(** ** Their scans *)

Definition segment_entry (e : Segment) : string * string := (segment_key c t x e, segment_value e).
Definition tombstone_entry (p : N * N) : string * string := (keys.out_segment_tombstone c t x p.1, encode_u64 p.2).
Definition tombstone_ok (p : N * N) : Prop := u64_ok p.1 ∧ u64_ok p.2.

Lemma segments_scan v n : segments_wf c v n → ∃ es,
  view_scan v (keys.out_segment_src_prefix c t x) None None = segment_entry <$> es ∧ NoDup es ∧
  StronglySorted (λ e e', sg_sequence e ≤ sg_sequence e') es ∧
  ∀ e, e ∈ es ↔ segment_ok n e ∧ v !! segment_key c t x e = Some (segment_value e).
Proof.
  intros Hwf. destruct (view_scan_form (segment_ok n) (segment_key c t x) segment_value v (keys.out_segment_src_prefix c t x))
    as (es & E & Hnd & Hs & Hes).
  - intros k val Hk Hv. assert (family k = Some (c, "seg")) as Hf.
    { eapply seg_prefix_family; [|exact Hk]. by exists ("out/" +:+ t +:+ "/" +:+ pad20 x +:+ "/"). }
    destruct (Hwf k val Hf Hv) as [(t' & x' & e & Ht' & Hx' & He & -> & ->)
      |(t' & x' & d & e & Ht' & Hx' & Hd & He & _ & -> & ->)].
    + change (starts_with (prefix_render (POutSegmentSrc c t x))
        (render (KOutSegment c t' x' (sg_sequence e) (sg_id e))) = true) in Hk.
      apply scan_prefix_covers in Hk; [|by repeat split; auto|by apply (seg_wf_key t' x' n)].
      destruct Hk as (_ & -> & ->). by exists e.
    + change (starts_with (prefix_render (POutSegmentSrc c t x)) (render (KOutSegmentTombstone c t' x' d)) = true) in Hk.
      apply scan_prefix_covers in Hk; [done|by repeat split; auto|repeat split; auto; by apply component_ok_slash].
  - intros e He. change (starts_with (prefix_render (POutSegmentSrc c t x))
      (render (KOutSegment c t x (sg_sequence e) (sg_id e))) = true).
    apply scan_prefix_covers; [by repeat split; auto|by eapply segment_key_wf|done].
  - intros e e' He He' E1 E2.
    apply (render_eq (KOutSegment c t x (sg_sequence e) (sg_id e)) (KOutSegment c t x (sg_sequence e') (sg_id e')))
      in E1; [|by eapply segment_key_wf..].
    assert (sg_destinations e = sg_destinations e') as E3.
    { pose proof (decode_segment_encoded c t x _ _ _ Hc Ht (proj1 (proj2 (proj2 He))) Hx (proj1 He) (proj2 (proj2 (proj2 He)))) as D1.
      pose proof (decode_segment_encoded c t x _ _ _ Hc Ht (proj1 (proj2 (proj2 He))) Hx (proj1 He) (proj2 (proj2 (proj2 He')))) as D2.
      unfold segment_value in E2. rewrite E2 in D1. rewrite D1 in D2. injection D2 as D2. exact D2. }
    destruct e, e'. cbn in *. by simplify_eq.
  - exists es. split; [exact E|]. split; [done|]. split; [|exact Hes].
    eapply StronglySorted_weaken; [exact Hs|]. intros e e' [He _]%Hes [He' _]%Hes.
    by eapply segment_key_order.
Qed.

Lemma tombstones_scan v n : segments_wf c v n → ∃ ds,
  view_scan v (keys.out_segment_tombstone_src_prefix c t x) None None = tombstone_entry <$> ds ∧ NoDup ds.*1 ∧
  ∀ d e, (d, e) ∈ ds ↔ u64_ok d ∧ u64_ok e ∧ v !! keys.out_segment_tombstone c t x d = Some (encode_u64 e).
Proof.
  intros Hwf. destruct (view_scan_form tombstone_ok (λ p, keys.out_segment_tombstone c t x p.1) (λ p, encode_u64 p.2) v
    (keys.out_segment_tombstone_src_prefix c t x)) as (ds & E & Hnd & _ & Hds).
  - intros k val Hk Hv. assert (family k = Some (c, "seg")) as Hf.
    { eapply seg_prefix_family; [|exact Hk]. by exists ("tomb/out/" +:+ t +:+ "/" +:+ pad20 x +:+ "/"). }
    destruct (Hwf k val Hf Hv) as [(t' & x' & e & Ht' & Hx' & He & -> & ->)
      |(t' & x' & d & e & Ht' & Hx' & Hd & He & _ & -> & ->)].
    + change (starts_with (prefix_render (PTombstoneSrc c t x))
        (render (KOutSegment c t' x' (sg_sequence e) (sg_id e))) = true) in Hk.
      apply scan_prefix_covers in Hk; [done|by repeat split; auto|by apply (seg_wf_key t' x' n)].
    + change (starts_with (prefix_render (PTombstoneSrc c t x)) (render (KOutSegmentTombstone c t' x' d)) = true) in Hk.
      apply scan_prefix_covers in Hk; [|by repeat split; auto|repeat split; auto; by apply component_ok_slash].
      destruct Hk as (_ & -> & ->). by exists (d, e).
  - intros [d e] [Hd _]. change (starts_with (prefix_render (PTombstoneSrc c t x)) (render (KOutSegmentTombstone c t x d)) = true).
    apply scan_prefix_covers; [by repeat split; auto|by apply tombstone_key_wf|done].
  - intros [d e] [d' e'] [Hd He] [Hd' He'] E1 E2. cbn [fst snd] in *.
    apply (render_eq (KOutSegmentTombstone c t x d) (KOutSegmentTombstone c t x d')) in E1; [|by apply tombstone_key_wf..].
    injection E1 as ->. f_equal. by apply encode_u64_same.
  - exists ds. split; [exact E|]. split.
    + apply NoDup_fmap_2_strong; [|done]. intros [d e] [d' e'] [[_ He] H1]%Hds [[_ He'] H2]%Hds. cbn [fst snd] in *.
      intros <-. f_equal. rewrite H1 in H2. apply (inj Some) in H2. by apply encode_u64_same.
    + intros d e. rewrite Hds. unfold tombstone_ok. cbn [fst snd]. tauto.
Qed.

(** The tombstones a scan of the epoch [q] collects. *)
Lemma collect_tombstones {A} (h : N * N → A) q (ds : list (N * N)) (acc : gmap N A) d a :
  NoDup ds.*1 → (∀ p, p ∈ ds → acc !! p.1 = None) →
  foldl (λ m p, if p.2 <=? q then <[p.1 := h p]> m else m) acc ds !! d = Some a ↔
  acc !! d = Some a ∨ ∃ e, (d, e) ∈ ds ∧ e ≤ q ∧ a = h (d, e).
Proof.
  revert acc. induction ds as [|[d' e'] ds IH]; intros acc Hnd Hacc.
  { cbn. split; [by left|]. intros [?|(? & []%elem_of_nil & _)]; done. }
  rewrite fmap_cons, NoDup_cons in Hnd. destruct Hnd as [Hd' Hnd]. cbn [foldl fst snd].
  assert (∀ e, (d', e) ∉ ds) as Hd'' by (intros e He; apply Hd', list_elem_of_fmap; by exists (d', e)).
  pose proof (Hacc (d', e') (list_elem_of_here _ _)) as Hn. cbn in Hn.
  destruct (e' <=? q) eqn:Eq; [apply N.leb_le in Eq|apply N.leb_gt in Eq]; rewrite IH; try done.
  - destruct (decide (d = d')) as [->|Hne].
    + rewrite lookup_insert_eq. split.
      * intros [[= <-]|(e & He & _)]; [|by destruct (Hd'' e)]. right. exists e'. split; [apply list_elem_of_here|done].
      * intros [Ha|(e & [[= ->]|He]%elem_of_cons & _ & ->)]; [congruence|by left|by destruct (Hd'' e)].
    + rewrite lookup_insert_ne by done. split; (intros [?|(e & He & ?)]; [by left|right; exists e; split; [|done]]).
      * by apply list_elem_of_further.
      * apply elem_of_cons in He as [[= ? ?]|?]; [done|done].
  - intros [d2 e2] Hp. cbn [fst]. rewrite lookup_insert_ne; [by apply (Hacc (d2, e2)), list_elem_of_further|].
    intros ->. by destruct (Hd'' e2).
  - split; (intros [?|(e & He & ? & ?)]; [by left|right; exists e; split; [|done]]).
    * by apply list_elem_of_further.
    * apply elem_of_cons in He as [[= -> ->]|?]; [lia|done].
  - intros p Hp. by apply Hacc, list_elem_of_further.
Qed.

Lemma tombstone_at_Some v n q d e : segments_wf c v n → u64_ok d →
  tombstone_at v q d = Some e ↔ v !! keys.out_segment_tombstone c t x d = Some (encode_u64 e) ∧ u64_ok e ∧ e ≤ q.
Proof.
  intros Hwf Hd. unfold tombstone_at, tombstone. destruct (v !! keys.out_segment_tombstone c t x d) as [val|] eqn:E; cbn; [|naive_solver].
  assert (∃ e, u64_ok e ∧ val = encode_u64 e) as (e' & He' & ->).
  { destruct (Hwf _ _ (tombstone_key_family d) E) as [(t' & x' & e' & Ht' & Hx' & He & Ek & ->)|(t' & x' & d' & e' & H)]; [|naive_solver].
    apply (render_eq (KOutSegmentTombstone c t x d) (KOutSegment c t' x' (sg_sequence e') (sg_id e'))) in Ek; [done|by apply tombstone_key_wf|].
    by apply (seg_wf_key t' x' n). }
  rewrite encode_decode_u64 by done. cbn. destruct (e' <=? q) eqn:Eq; [apply N.leb_le in Eq|apply N.leb_gt in Eq].
  - split; [intros [= ->]; done|]. intros (E'%(inj Some) & He & _). apply encode_u64_same in E' as ->; done.
  - split; [done|]. intros (E'%(inj Some) & He & ?). apply encode_u64_same in E' as ->; [lia|done..].
Qed.

Lemma tombstone_step_run scan q m p : tombstone_ok p →
  tombstone_step scan c t x q m (tombstone_entry p) = Ok (Continue (if p.2 <=? q then <[p.1 := p.2]> m else m)).
Proof.
  intros [Hd He]. unfold tombstone_step, tombstone_entry. rewrite tombstone_entry_key. cbv zeta.
  rewrite parse_tombstone_key by done. cbn [mbind result_mbind result_bind snd].
  rewrite !bool_decide_eq_true_2, N.eqb_refl by done. cbn [andb]. by rewrite encode_decode_u64 by done.
Qed.

Lemma tombstones_read v n scan q : segments_wf c v n → ∃ m,
  scan_loop (tombstone_step scan c t x q) ∅
    (Ok <$> view_scan v (keys.out_segment_tombstone_src_prefix c t x) None None) = Ok m ∧
  ∀ d, u64_ok d → m !! d = tombstone_at v q d.
Proof.
  intros Hwf. destruct (tombstones_scan v n Hwf) as (ds & -> & Hnd & Hds).
  eexists. split.
  - apply (scan_loop_fold tombstone_entry _ (λ m p, if p.2 <=? q then <[p.1 := p.2]> m else m)).
    intros m [d e] (Hd & He & _)%Hds. by apply tombstone_step_run.
  - intros d Hd. apply option_eq. intros e. rewrite collect_tombstones, (tombstone_at_Some v n) by done.
    rewrite lookup_empty. split.
    + intros [?|(e' & (_ & He & Hv)%Hds & Hle & ->)]; done.
    + intros (Hv & He & Hle). right. exists e. split; [by apply Hds|done].
Qed.

(** ** Reads of segments *)

Definition shown (v : gmap string string) (q : N) (e : Segment) (d : VertexId) : Prop :=
  d ∈ sg_destinations e ∧ segment_edge_visible (sg_sequence e) (tombstone_at v q d) = true.

Lemma segment_decode n e : segment_ok n e →
  decode_out_edge_segment (entry_key (segment_entry e)) (segment_entry e).2
  = Ok (MkOutEdgeSegment c t x (sg_sequence e) (sg_destinations e)).
Proof.
  intros He. unfold segment_entry. rewrite (segment_entry_key n) by done. destruct He as (? & _ & ? & ?).
  by apply decode_segment_encoded.
Qed.

Lemma segment_dst_ok n e d : segment_ok n e → d ∈ sg_destinations e → u64_ok d.
Proof. intros (_ & _ & _ & H & _) Hd. rewrite Forall_forall in H. by apply H. Qed.

Lemma neighbors_fold (P : VertexId → bool) l (ns : gset VertexId) y :
  y ∈ foldl (λ ns d, if P d then {[d]} ∪ ns else ns) ns l ↔ y ∈ ns ∨ y ∈ l ∧ P y = true.
Proof.
  revert ns. induction l as [|d l IH]; intros ns; cbn [foldl]; [set_solver|].
  rewrite IH, elem_of_cons. destruct (P d) eqn:E; rewrite ?elem_of_union, ?elem_of_singleton.
  - split; [intros [[->|?]|[? ?]]|intros [?|[[->|?] ?]]]; auto.
  - split; [intros [?|[? ?]]|intros [?|[[->|?] ?]]]; auto. congruence.
Qed.

Lemma segments_read v n q m ns : segments_wf c v n → (∀ d, u64_ok d → m !! d = tombstone_at v q d) → ∃ X,
  scan_loop (segment_neighbors_step m q) ns
    (Ok <$> view_scan v (keys.out_segment_src_prefix c t x) None None) = Ok X ∧
  ∀ y, y ∈ X ↔ y ∈ ns ∨ segment_shows v n q y.
Proof.
  intros Hwf Hm. destruct (segments_scan v n Hwf) as (es & -> & _ & Hs & Hes).
  eexists. split.
  - apply (scan_loop_bounded sg_sequence segment_entry q _ (λ ns e, foldl (λ ns d,
      if segment_edge_visible (sg_sequence e) (m !! d) then {[d]} ∪ ns else ns) ns (sg_destinations e))); [done|].
    intros ns' e [He _]%Hes. unfold segment_neighbors_step, segment_loop_step.
    rewrite (segment_decode n) by done. cbn [mbind result_mbind result_bind oes_storage_sequence oes_destinations].
    by destruct (q <? _).
  - intros y. assert (∀ l, (∀ e, e ∈ l → segment_ok n e) → y ∈ foldl (λ ns e, foldl (λ ns d,
      if segment_edge_visible (sg_sequence e) (m !! d) then {[d]} ∪ ns else ns) ns (sg_destinations e)) ns l
      ↔ y ∈ ns ∨ ∃ e, e ∈ l ∧ shown v q e y) as H.
    { intros l. revert ns. induction l as [|e l IH]; intros ns Hl; cbn [foldl].
      { split; [by left|]. by intros [?|(? & []%elem_of_nil & _)]. }
      assert (segment_ok n e) as He by (apply Hl, list_elem_of_here).
      rewrite IH by (intros; apply Hl; by apply list_elem_of_further).
      rewrite (neighbors_fold (λ d, segment_edge_visible (sg_sequence e) (m !! d))). unfold shown. setoid_rewrite elem_of_cons.
      assert (y ∈ sg_destinations e → m !! y = tombstone_at v q y) as Hy
        by (intros ?; apply Hm; by eapply segment_dst_ok).
      split; [intros [[?|[Hd Hv]]|(e' & ? & ?)]|intros [?|(e' & [->|?] & Hd & Hv)]]; [by left| | |by do 2 left| |right; eauto].
      - right. exists e. split; [by left|]. by rewrite <- Hy.
      - right. exists e'. split; [by right|done].
      - left. right. by rewrite Hy. }
    rewrite H by (intros e [_ [He _]%Hes]%list_elem_of_filter; done). unfold segment_shows, shown.
    apply or_iff_compat_l. split.
    + intros (e & [Hle [He Hv]%Hes]%list_elem_of_filter & Hd & Hvis). by exists e.
    + intros (e & He & Hv & Hle & Hd & Hvis). exists e. rewrite list_elem_of_filter, Hes. done.
Qed.

#[local] Abbreviation mem v n := (MkMemDb v n).

(** The neighbours a snapshot read returns: the point records, and what segments show. *)
Lemma out_neighbors_read v n n0 q : segments_wf c v n → ∃ X : gset VertexId,
  (∀ y, y ∈ X ↔ segment_shows v n q y) ∧
  out_neighbors_in_storage_snapshot (S := Mem) (mem v n0) c t x q =
    (_ ← degree_for_cache_admission (S := Mem) (mem v n0) (keys.degree_out c t x);
     points ← scan_loop out_record_step ∅ (Ok <$> view_scan v (keys.out_prefix c t x) None None);
     Ok (bset_iter (points ∪ X))).
Proof.
  intros Hwf. destruct (tombstones_read v n "snapshot" q Hwf) as (m & Em & Hm).
  destruct (segments_read v n q m ∅ Hwf Hm) as (X & _ & HX).
  exists X. split; [intros y; rewrite HX; split; [by intros [?%elem_of_empty|?]|by right]|].
  unfold out_neighbors_in_storage_snapshot. rewrite !validate_component_true by done.
  cbn [mbind result_mbind result_bind snap_scan_prefix Mem mem_view].
  destruct (degree_for_cache_admission _ _); [|done]. cbn [mbind result_mbind result_bind].
  destruct (scan_loop out_record_step _ _) as [points|]; [|done]. cbn [mbind result_mbind result_bind].
  rewrite Em. cbn [mbind result_mbind result_bind].
  destruct (segments_read v n q m points Hwf Hm) as (X' & -> & HX'). cbn [mbind result_mbind result_bind].
  do 2 f_equal. apply set_eq. intros y. rewrite HX', elem_of_union, HX. set_solver.
Qed.

Lemma edge_exists_read v n n0 q d : segments_wf c v n → u64_ok d → ∃ b,
  (b = true ↔ segment_shows v n q d) ∧
  edge_exists_in_storage_snapshot (S := Mem) (mem v n0) c t x d q =
    Ok (bool_decide (is_Some (v !! keys.out_edge c t x d)) || b).
Proof.
  intros Hwf Hd. destruct (segments_scan v n Hwf) as (es & Es & _ & Hs & Hes).
  set (hit := λ e, existsb (λ y, (y =? d) && segment_edge_visible (sg_sequence e) (tombstone_at v q d)) (sg_destinations e)).
  exists (existsb hit (filter (λ e, sg_sequence e ≤ q) es)). split.
  { rewrite existsb_exists. unfold segment_shows. split.
    - intros (e & Hin & Hhit). apply list_elem_of_In, list_elem_of_filter in Hin as [Hle [He Hv]%Hes].
      apply existsb_exists in Hhit as (y & Hy & [->%N.eqb_eq Hvis]%andb_prop). exists e.
      split_and!; try done. by apply list_elem_of_In.
    - intros (e & He & Hv & Hle & Hdst & Hvis). exists e. split.
      + apply list_elem_of_In, list_elem_of_filter. by rewrite Hes.
      + apply existsb_exists. exists d. split; [by apply list_elem_of_In|]. by rewrite N.eqb_refl, Hvis. }
  unfold edge_exists_in_storage_snapshot. rewrite !validate_component_true by done.
  cbn [mbind result_mbind result_bind snap_get snap_scan_prefix Mem mem_view slate map_err].
  destruct (v !! keys.out_edge c t x d) as [val|] eqn:E; [by rewrite bool_decide_eq_true_2|].
  rewrite bool_decide_eq_false_2 by (by intros []). cbn [orb].
  assert (∃ r, (match v !! keys.out_segment_tombstone c t x d with
    | Some value => epoch ← decode_u64 (keys.out_segment_tombstone c t x d) value;
        Ok (if epoch <=? q then Some epoch else None)
    | None => Ok None end : Result (option N)) = Ok r ∧ r = tombstone_at v q d) as (r & -> & ->).
  { destruct (v !! keys.out_segment_tombstone c t x d) as [val|] eqn:Ev.
    - destruct (Hwf _ _ (tombstone_key_family d) Ev) as [(t' & x' & e' & Ht' & Hx' & He & Ek & ->)|(t' & x' & d' & e' & _ & _ & _ & He & _ & _ & ->)].
      + apply (render_eq (KOutSegmentTombstone c t x d) (KOutSegment c t' x' (sg_sequence e') (sg_id e'))) in Ek;
          [done|by apply tombstone_key_wf|by apply (seg_wf_key t' x' n)].
      + unfold tombstone_at, tombstone. rewrite Ev. cbn [mbind option_bind result_mbind result_bind].
        rewrite encode_decode_u64 by done. cbn. by eexists.
    - unfold tombstone_at, tombstone. rewrite Ev. by eexists. }
  cbn [mbind result_mbind result_bind]. rewrite Es.
  rewrite (scan_loop_search sg_sequence segment_entry q hit); [done|done|].
  intros acc e [He _]%Hes. unfold segment_exists_step, segment_loop_step.
  rewrite (segment_decode n) by done. cbn [mbind result_mbind result_bind oes_storage_sequence oes_destinations].
  destruct (q <? _); [done|]. unfold hit. by destruct (existsb _ _).
Qed.
End vertex.
