(* ===== verification/CompactionFacts.v ===== *)
(** Compaction on the reference store: the batch it writes, and that no read of the
    cell changes by it. *)

From S2P Require Import Prelude Text TextFacts Errors Model Namespace Keys KeysFacts Codec CodecFacts CodecRecords CodecRecordFacts Kv ShardTxn SegmentReads ShardWrite ShardRefine ShardMem ShardInv Overlay Xlog XlogFacts History SegmentFacts Compaction.

Local Open Scope N_scope.
Import compaction.

(** * The batch *)

Section batch.
Context (r : SegmentCompactionRequest) (v : gmap string string) (n : N).
#[local] Abbreviation c := (sc_cell_id r).
#[local] Abbreviation t := (sc_edge_type r).
#[local] Abbreviation x := (sc_src r).
#[local] Abbreviation through := (sc_compacted_through_epoch r).
#[local] Abbreviation i := (sc_idempotency_key r).
Context (Hc : component_ok c = true) (Ht : component_ok t = true) (Hi : component_ok i = true) (Hx : u64_ok x).
Context (Hwf : segments_wf c v n) (Hn : u64_ok n) (Hle : through ≤ n).

Definition source_of (e : Segment) : string * OutEdgeSegment :=
  (segment_key c t x e, MkOutEdgeSegment c t x (sg_sequence e) (sg_destinations e)).

Lemma sources_run : ∃ es inputs,
  scan_loop (source_step through) ([], 0) (Ok <$> view_scan v (keys.out_segment_src_prefix c t x) None None)
    = Ok (source_of <$> es, inputs) ∧
  ∀ e, e ∈ es ↔ segment_ok n e ∧ v !! segment_key c t x e = Some (segment_value e) ∧ sg_sequence e ≤ through.
Proof.
  destruct (segments_scan c t x Hc Ht Hx v n Hwf) as (es & -> & _ & Hs & Hes).
  set (g := λ (acc : list (string * OutEdgeSegment) * N) e,
    (acc.1 ++ [source_of e], saturating_add acc.2 (N.of_nat (length (sg_destinations e))))).
  set (l := filter (λ e, sg_sequence e ≤ through) es).
  exists l, (foldl g ([], 0) l).2. split.
  - rewrite (scan_loop_bounded sg_sequence (segment_entry c t x) through _ g); [|done|].
    + fold l. f_equal. rewrite (surjective_pairing (foldl g ([], 0) l)) at 1. f_equal.
      assert (∀ acc, (foldl g acc l).1 = acc.1 ++ (source_of <$> l)) as H; [|by rewrite H].
      clear. induction l as [|e l IH]; intros acc; cbn [foldl]; [by rewrite fmap_nil, (right_id_L [] (++))|].
      rewrite IH. unfold g. cbn [fst]. by rewrite fmap_cons, <- (assoc_L (++)).
    + intros acc e [He _]%Hes. unfold source_step. cbv zeta. rewrite (segment_decode c t x Hc Ht Hx n) by done.
      cbn [mbind result_mbind result_bind oes_storage_sequence oes_destinations].
      destruct (through <? _); [done|]. unfold g, source_of, segment_entry.
      by rewrite (segment_entry_key c t x Hc Ht n) by done.
  - intros e. unfold l. rewrite list_elem_of_filter, Hes. tauto.
Qed.

Lemma tombs_run : ∃ m,
  scan_loop (compacted_tombstone_step c t x n) ∅
    (Ok <$> view_scan v (keys.out_segment_tombstone_src_prefix c t x) None None) = Ok m ∧
  ∀ d p, m !! d = Some p ↔ u64_ok d ∧ tombstone_at c t x v n d = Some p.1 ∧ p.2 = keys.out_segment_tombstone c t x d.
Proof.
  destruct (tombstones_scan c t x Hc Ht Hx v n Hwf) as (ds & -> & Hnd & Hds).
  eexists. split.
  - apply (scan_loop_fold (tombstone_entry c t x) _ (λ m p, if p.2 <=? n
      then <[p.1 := (p.2, keys.out_segment_tombstone c t x p.1)]> m else m)).
    intros m [d e] (Hd & He & _)%Hds. unfold compacted_tombstone_step, tombstone_entry.
    rewrite tombstone_entry_key by done. cbv zeta. rewrite parse_tombstone_key by done.
    cbn [mbind result_mbind result_bind fst snd].
    rewrite !bool_decide_eq_true_2, N.eqb_refl by done. cbn [andb].
    by rewrite encode_decode_u64 by done.
  - intros d p. rewrite (collect_tombstones (λ p, (p.2, keys.out_segment_tombstone c t x p.1))) by done.
    rewrite lookup_empty. split.
    + intros [?|(e & (Hd & He & Hv)%Hds & Hle' & ->)]; [done|]. split; [done|]. split; [|done].
      by apply (tombstone_at_Some c t x Hc Ht Hx v n).
    + intros (Hd & (Hv & He & Hle')%(tombstone_at_Some c t x Hc Ht Hx v n) & Hp); [|done..].
      right. exists p.1. split; [by apply Hds|]. split; [done|]. destruct p; cbn in *; by subst.
Qed.

(** ** The destinations kept *)

Definition visible (q : N) (ts : gmap VertexId (StorageSequence * string)) (e : Segment) (d : VertexId) : Prop :=
  segment_edge_visible (sg_sequence e) (t ← ts !! d; if t.1 <=? q then Some t.1 else None) = true.

Lemma live_step_run q ts e ds live d :
  is_Some (foldl (live_step q ts (sg_sequence e)) live ds !! d) ↔ is_Some (live !! d) ∨ d ∈ ds ∧ visible q ts e d.
Proof.
  revert live. induction ds as [|d' ds IH]; intros live; cbn [foldl]; [set_solver|].
  rewrite IH, elem_of_cons. unfold live_step at 1. cbv zeta.
  destruct (segment_edge_visible _ _) eqn:Ev.
  - destruct (decide (d = d')) as [->|Hne].
    + rewrite lookup_insert_eq. split; [right|left; by eexists]. split; [by left|done].
    + rewrite lookup_insert_ne by done. tauto.
  - split; [tauto|]. intros [?|[[->|?] Hv]]; [by left| |by right].
    unfold visible in Hv. by rewrite Ev in Hv.
Qed.

Lemma live_elem q ts es d :
  d ∈ live_destinations q ts (source_of <$> es) ↔ ∃ e, e ∈ es ∧ d ∈ sg_destinations e ∧ visible q ts e d.
Proof.
  unfold live_destinations. rewrite elem_of_btree_keys, foldl_fmap. cbn [source_of snd oes_storage_sequence oes_destinations].
  set (f := λ live e, _).
  assert (∀ live, is_Some (foldl f live es !! d) ↔
    is_Some (live !! d) ∨ ∃ e, e ∈ es ∧ d ∈ sg_destinations e ∧ visible q ts e d) as ->.
  2: { rewrite lookup_empty. split; [intros [[? [=]]|?]; done|by right]. }
  induction es as [|e es IH]; intros live; cbn [foldl].
  { split; [by left|]. by intros [?|(? & []%elem_of_nil & _)]. }
  rewrite IH. unfold f at 1. rewrite live_step_run. setoid_rewrite elem_of_cons. split.
  - intros [[?|[? ?]]|(e' & ? & ?)]; [by left|right..]; [exists e; tauto|exists e'; tauto].
  - intros [?|(e' & [->|?] & ?)]; [by do 2 left|by left; right|right; by exists e'].
Qed.

(** ** The store after the batch *)

Context (es : list Segment) (ts : gmap VertexId (StorageSequence * string)) (inputs degree : N).
Context (Hes : ∀ e, e ∈ es ↔ segment_ok n e ∧ v !! segment_key c t x e = Some (segment_value e) ∧ sg_sequence e ≤ through).
Context (Hts : ∀ d p, ts !! d = Some p ↔
  u64_ok d ∧ tombstone_at c t x v n d = Some p.1 ∧ p.2 = keys.out_segment_tombstone c t x d).

Definition live : list VertexId := live_destinations through ts (source_of <$> es).
Definition merged : Segment := MkSegment through ("compact-" +:+ i) live.
Definition batch : list GraphWriteOp := (compaction_batch r (source_of <$> es) inputs ts degree).1.
Definition after : gmap string string := foldl run_op v batch.

Lemma visible_at e d : u64_ok d →
  visible through ts e d ↔ segment_edge_visible (sg_sequence e) (tombstone_at c t x v through d) = true.
Proof.
  intros Hd. unfold visible.
  replace (t ← ts !! d; if t.1 <=? through then Some t.1 else None) with (tombstone_at c t x v through d); [done|].
  apply option_eq. intros e1. rewrite (tombstone_at_Some c t x Hc Ht Hx v n) by done. split.
  - intros (Hv & He & Hle1). rewrite (proj2 (Hts d (e1, keys.out_segment_tombstone c t x d))); cbn.
    + by rewrite (proj2 (N.leb_le _ _) Hle1).
    + split; [done|]. split; [|done]. apply (tombstone_at_Some c t x Hc Ht Hx v n); [done..|].
      split; [done|]. split; [done|lia].
  - destruct (ts !! d) as [p|] eqn:E; cbn; [|done]. destruct (p.1 <=? through) eqn:El; [|done].
    intros [= <-]. apply N.leb_le in El. apply Hts in E as (_ & E & _).
    apply (tombstone_at_Some c t x Hc Ht Hx v n) in E as (? & ? & _); done.
Qed.

Lemma live_shows d : d ∈ live ↔ segment_shows c t x v n through d.
Proof.
  unfold live. rewrite live_elem. unfold segment_shows. split.
  - intros (e & (He & Hv & Hle1)%Hes & Hd & Hvis). exists e. split_and!; try done.
    apply visible_at; [by eapply segment_dst_ok|done].
  - intros (e & He & Hv & Hle1 & Hd & Hvis). exists e. rewrite Hes. split_and!; try done.
    apply visible_at; [by eapply segment_dst_ok|done].
Qed.

Definition dead : list string :=
  (filter (λ p : VertexId * (StorageSequence * string), (p.2.1 <=? through) = true) (btree_iter ts)).*2.*2.
Definition idem_key : string := keys.idempotency c (segment_compaction_idempotency_operation t x) i.

Lemma dead_elem k : k ∈ dead ↔ ∃ d e, u64_ok d ∧ u64_ok e ∧ e ≤ through ∧
  k = keys.out_segment_tombstone c t x d ∧ v !! k = Some (encode_u64 e).
Proof.
  unfold dead. rewrite list_elem_of_fmap. setoid_rewrite list_elem_of_fmap. setoid_rewrite list_elem_of_filter. split.
  - intros (p & -> & [d p'] & -> & Hle1%N.leb_le & (Hd & Ht1 & Hk)%elem_of_btree_iter%Hts).
    apply (tombstone_at_Some c t x Hc Ht Hx v n) in Ht1 as (Hv & He & _); [|done..]. cbn [fst snd] in *.
    exists d, p'.1. by rewrite Hk.
  - intros (d & e & Hd & He & Hle1 & -> & Hv). exists (e, keys.out_segment_tombstone c t x d). split; [done|].
    exists (d, (e, keys.out_segment_tombstone c t x d)). split; [done|]. split; [by apply N.leb_le|].
    apply elem_of_btree_iter, Hts. split; [done|]. split; [|done].
    apply (tombstone_at_Some c t x Hc Ht Hx v n); [done..|]. split; [done|]. split; [done|]. cbn. lia.
Qed.


Lemma after_run k : after !! k =
  if decide (k = idem_key) then
    Some (encode_segment_compaction_idempotency i (compaction_batch r (source_of <$> es) inputs ts degree).2)
  else if decide (k = keys.degree_out c t x) then Some (encode_u64 degree)
  else if decide (live ≠ [] ∧ k = segment_key c t x merged) then Some (segment_value merged)
  else if decide (k ∈ (segment_key c t x <$> es) ++ dead) then None else v !! k.
Proof.
  set (res := (compaction_batch r (source_of <$> es) inputs ts degree).2).
  unfold after, batch, compaction_batch. cbv zeta. cbn [fst]. rewrite (assoc_L (++)), !foldl_app. fold dead.
  assert (foldl run_op (foldl run_op v (WDelete <$> (source_of <$> es).*1)) (WDelete <$> dead) =
    foldl run_op v (WDelete <$> ((segment_key c t x <$> es) ++ dead))) as ->.
  { rewrite <- foldl_app, fmap_app. do 2 f_equal. by rewrite <- !list_fmap_compose. }
  cbn [foldl run_op]. fold idem_key. change (encode_segment_compaction_idempotency i _) with
    (encode_segment_compaction_idempotency i res). clearbody res.
  destruct (decide (k = idem_key)) as [->|H1]; [by rewrite lookup_insert_eq|]. rewrite lookup_insert_ne by done.
  destruct (decide (k = keys.degree_out c t x)) as [->|H2]; [by rewrite lookup_insert_eq|]. rewrite lookup_insert_ne by done.
  change (keys.out_segment c t x through ("compact-" +:+ i)) with (segment_key c t x merged).
  change (encode_out_edge_segment_records _) with (segment_value merged). fold live.
  destruct (decide (live ≠ [] ∧ k = segment_key c t x merged)) as [[H3 ->]|H3].
  - destruct live as [|? ?] eqn:El; [done|]. cbn [foldl run_op]. by rewrite lookup_insert_eq.
  - rewrite <- run_deletes. destruct live as [|? ?] eqn:El; [done|]. cbn [foldl run_op].
    rewrite lookup_insert_ne; [done|]. intros <-. by apply H3.
Qed.

Context (Hfit : u64_ok (N.of_nat (length live) * 8)).

Lemma merged_ok : segment_ok n merged.
Proof.
  split; [unfold merged, u64_ok in *; cbn; lia|]. split; [done|]. split.
  - cbn. unfold component_ok in *. apply andb_prop in Hi as [_ H]. by rewrite str_forall_app, H.
  - split; [|done]. apply Forall_forall. intros d (e & He & _ & _ & Hd & _)%live_shows. by eapply segment_dst_ok.
Qed.

Lemma idem_family : family idem_key = Some (c, "idem").
Proof.
  exact (family_cell c "idem" (segment_compaction_idempotency_operation t x +:+ "/" +:+ i) (component_ok_slash c Hc) eq_refl).
Qed.
Lemma degree_family : family (keys.degree_out c t x) = Some (c, "cnt").
Proof. exact (family_cell c "cnt" ("out/" +:+ t +:+ "/" +:+ pad20 x) (component_ok_slash c Hc) eq_refl). Qed.

Lemma after_seg k : family k = Some (c, "seg") → after !! k =
  if decide (live ≠ [] ∧ k = segment_key c t x merged) then Some (segment_value merged)
  else if decide (k ∈ (segment_key c t x <$> es) ++ dead) then None else v !! k.
Proof.
  intros Hk. rewrite after_run, (decide_False (P := k = idem_key)) by (intros ->; by rewrite idem_family in Hk).
  by rewrite (decide_False (P := k = keys.degree_out c t x)) by (intros ->; by rewrite degree_family in Hk).
Qed.

(** Other records than those of the batch stay. *)
Lemma after_other k f : family k = Some (c, f) → f ≠ "seg" → f ≠ "idem" → k ≠ keys.degree_out c t x → after !! k = v !! k.
Proof.
  intros Hk H1 H2 H3. rewrite after_run, decide_False, decide_False; [|done|].
  2: { intros ->. rewrite idem_family in Hk. congruence. }
  rewrite decide_False, decide_False; [done|..].
  - intros [(e & -> & _)%list_elem_of_fmap|(d & e & _ & _ & _ & -> & _)%dead_elem]%elem_of_app.
    + rewrite segment_key_family in Hk by done. congruence.
    + rewrite tombstone_key_family in Hk by done. congruence.
  - intros [_ ->]. rewrite segment_key_family in Hk by done. congruence.
Qed.

Lemma segment_key_inj t' x' e e' : component_ok t' = true → u64_ok x' → segment_ok n e → segment_ok n e' →
  segment_key c t' x' e = segment_key c t x e' →
  t' = t ∧ x' = x ∧ sg_sequence e = sg_sequence e' ∧ sg_id e = sg_id e'.
Proof.
  intros Ht' Hx' He He' E.
  apply (render_eq (KOutSegment c t' x' (sg_sequence e) (sg_id e)) (KOutSegment c t x (sg_sequence e') (sg_id e'))) in E;
    [by injection E|by apply (seg_wf_key c Hc t' x' n)|by apply (seg_wf_key c Hc t x n)].
Qed.
Lemma segment_not_tombstone t' x' e t2 x2 d : component_ok t' = true → u64_ok x' → segment_ok n e →
  component_ok t2 = true → u64_ok x2 → u64_ok d → segment_key c t' x' e ≠ keys.out_segment_tombstone c t2 x2 d.
Proof.
  intros Ht' Hx' He Ht2 Hx2 Hd E.
  apply (render_eq (KOutSegment c t' x' (sg_sequence e) (sg_id e)) (KOutSegmentTombstone c t2 x2 d)) in E;
    [done|by apply (seg_wf_key c Hc t' x' n)|by apply tombstone_key_wf].
Qed.
Lemma segment_value_inj e e' : segment_ok n e → segment_ok n e' → segment_value e = segment_value e' →
  sg_destinations e = sg_destinations e'.
Proof.
  intros (H1 & _ & H2 & H3) (_ & _ & _ & H4) E.
  pose proof (decode_segment_encoded c t x _ _ _ Hc Ht H2 Hx H1 H3) as D1.
  pose proof (decode_segment_encoded c t x _ _ _ Hc Ht H2 Hx H1 H4) as D2.
  unfold segment_value in E. rewrite E, D2 in D1. injection D1 as D1. done.
Qed.

(** The segments after: the merged one, and those the batch left. *)
Lemma after_segment t' x' e : component_ok t' = true → u64_ok x' → segment_ok n e →
  after !! segment_key c t' x' e = Some (segment_value e) ↔
  (t' = t ∧ x' = x ∧ live ≠ [] ∧ e = merged) ∨
  (¬ (t' = t ∧ x' = x ∧ sg_sequence e ≤ through) ∧ v !! segment_key c t' x' e = Some (segment_value e)).
Proof.
  intros Ht' Hx' He. rewrite after_seg by (by apply segment_key_family).
  destruct (decide (live ≠ [] ∧ _)) as [[Hl E]|Hnew].
  - apply segment_key_inj in E as (-> & -> & E1 & E2); [|done..|exact merged_ok]. split.
    + intros E%(inj Some). left. split; [done|]. split; [done|]. split; [done|].
      apply segment_value_inj in E; [|exact merged_ok|done]. destruct e. cbn in *. by subst.
    + intros [(_ & _ & _ & ->)|[H _]]; [done|]. exfalso. apply H. rewrite E1. done.
  - destruct (decide (_ ∈ _)) as [Hin|Hin].
    + assert (t' = t ∧ x' = x ∧ sg_sequence e ≤ through) as Hd.
      { apply elem_of_app in Hin as [(e' & E & (He' & _ & Hle1)%Hes)%list_elem_of_fmap|(d & e1 & Hd & He1 & _ & E & _)%dead_elem].
        - apply segment_key_inj in E as (-> & -> & E1 & _); [|done..]. by rewrite E1.
        - by apply segment_not_tombstone in E. }
      split; [done|]. intros [(-> & -> & Hl & ->)|[H _]]; [|done]. exfalso. by apply Hnew.
    + split.
      * intros Hv. right. split; [|done]. intros (-> & -> & Hle1). apply Hin, elem_of_app. left.
        apply list_elem_of_fmap. exists e. by rewrite Hes.
      * intros [(-> & -> & Hl & ->)|[_ H]]; [|done]. exfalso. by apply Hnew.
Qed.

Lemma after_tombstone t' x' d e : component_ok t' = true → u64_ok x' → u64_ok d → u64_ok e →
  after !! keys.out_segment_tombstone c t' x' d = Some (encode_u64 e) ↔
  v !! keys.out_segment_tombstone c t' x' d = Some (encode_u64 e) ∧ ¬ (t' = t ∧ x' = x ∧ e ≤ through).
Proof.
  intros Ht' Hx' Hd He. rewrite after_seg by (by apply tombstone_key_family).
  rewrite decide_False.
  2: { intros [_ E]. symmetry in E. by apply (segment_not_tombstone t x merged t' x' d Ht Hx merged_ok Ht' Hx' Hd) in E. }
  destruct (decide (_ ∈ _)) as [Hin|Hin].
  - split; [done|]. intros [Hv H]. exfalso.
    apply elem_of_app in Hin as [(e' & E & (He' & _ & Hle1)%Hes)%list_elem_of_fmap|(d' & e1 & Hd' & He1 & Hle1 & E & Hv')%dead_elem].
    + symmetry in E. by apply segment_not_tombstone in E.
    + rewrite Hv in Hv'. apply (inj Some), encode_u64_same in Hv' as ->; [|done..].
      apply (render_eq (KOutSegmentTombstone c t' x' d) (KOutSegmentTombstone c t x d')) in E;
        [injection E as -> -> _; by apply H|by apply tombstone_key_wf..].
  - split; [|by intros [? _]]. intros Hv. split; [done|]. intros (-> & -> & Hle1). apply Hin, elem_of_app. right.
    apply dead_elem. by exists d, e.
Qed.

Lemma after_wf : segments_wf c after n.
Proof.
  intros k val Hk. rewrite after_seg by done. destruct (decide (live ≠ [] ∧ _)) as [[_ ->]|_].
  - intros [= <-]. left. exists t, x, merged. split; [done|]. split; [done|]. by split; [exact merged_ok|].
  - destruct (decide _); [done|]. by apply Hwf.
Qed.

Lemma visible_iff s w y t' q d : segment_edge_visible s (tombstone_at c t' y w q d) = true ↔
  ∀ e, tombstone_at c t' y w q d = Some e → e < s.
Proof.
  unfold segment_edge_visible. destruct (tombstone_at _ _ _ _ _ _) as [e|]; [|naive_solver].
  rewrite N.ltb_lt. naive_solver.
Qed.

Lemma tombstone_after t' y q d e : component_ok t' = true → u64_ok y → u64_ok d →
  tombstone_at c t' y after q d = Some e ↔ tombstone_at c t' y v q d = Some e ∧ ¬ (t' = t ∧ y = x ∧ e ≤ through).
Proof.
  intros Ht' Hy Hd. rewrite (tombstone_at_Some c t' y Hc Ht' Hy after n) by (done || exact after_wf).
  rewrite (tombstone_at_Some c t' y Hc Ht' Hy v n) by done. split.
  - intros (Hv & He & Hle1). apply after_tombstone in Hv as [? ?]; done.
  - intros [(Hv & He & Hle1) H]. split; [|done]. by apply after_tombstone.
Qed.

(** Nothing a read at the epoch or later shows is lost or gained. *)
Lemma shows_after t' y q d : component_ok t' = true → u64_ok y → through ≤ q →
  segment_shows c t' y after n q d ↔ segment_shows c t' y v n q d.
Proof.
  intros Ht' Hy Hq. unfold segment_shows. setoid_rewrite visible_iff. split.
  - intros (e & He & [(-> & -> & Hl & ->)|[Hold Hv]]%after_segment & Hle1 & Hd & Hvis); [| |done..].
    + cbn [merged sg_sequence sg_destinations] in *. apply live_shows in Hd.
      destruct Hd as (e & He' & Hv & Hle2 & Hd & Hvis'). exists e. assert (u64_ok d) as Hdo by (by eapply segment_dst_ok).
      rewrite visible_iff in Hvis'. split_and!; [done..|lia|done|]. intros e1 He1.
      destruct (decide (e1 ≤ through)) as [Hle3|Hle3].
      * apply Hvis'. apply (tombstone_at_Some c t x Hc Ht Hx v n) in He1 as (? & ? & _); [|done..].
        by apply (tombstone_at_Some c t x Hc Ht Hx v n).
      * exfalso. apply Hle3. apply N.lt_le_incl, Hvis. apply tombstone_after; [done..|]. split; [done|]. tauto.
    + exists e. split_and!; try done. intros e1 He1. destruct (decide (t' = t ∧ y = x ∧ e1 ≤ through)) as [(-> & -> & Hle3)|Hno].
      * assert (¬ sg_sequence e ≤ through) by tauto. lia.
      * apply Hvis, tombstone_after; [done|done|by eapply segment_dst_ok|done].
  - intros (e & He & Hv & Hle1 & Hd & Hvis). assert (u64_ok d) as Hdo by (by eapply segment_dst_ok).
    destruct (decide (t' = t ∧ y = x ∧ sg_sequence e ≤ through)) as [(-> & -> & Hle3)|Hno].
    + assert (d ∈ live) as Hlive.
      { apply live_shows. exists e. split_and!; try done. apply visible_iff. intros e1 He1. apply Hvis.
        apply (tombstone_at_Some c t x Hc Ht Hx v n) in He1 as (? & ? & ?); [|done..].
        apply (tombstone_at_Some c t x Hc Ht Hx v n); [done..|]. split_and!; [done..|lia]. }
      exists merged. split; [exact merged_ok|]. split.
      { apply after_segment; [done..|exact merged_ok|]. left. split_and!; try done. intros E. rewrite E in Hlive. by apply elem_of_nil in Hlive. }
      split; [done|]. split; [done|]. intros e1 [He1 H]%tombstone_after; [|done..].
      apply Hvis in He1. exfalso. apply H. split_and!; [done..|lia].
    + exists e. split; [done|]. split; [by apply after_segment; [..|right]|]. split_and!; try done.
      intros e1 [He1 _]%tombstone_after; [|done..]. by apply Hvis.
Qed.

Context (Hdegree : u64_ok degree) (n0 n1 : N).
#[local] Abbreviation before_db := (MkMemDb v n0).
#[local] Abbreviation after_db := (MkMemDb after n1).

Lemma degree_after t' y : component_ok t' = true → u64_ok y →
  (∃ k, degree_for_cache_admission (S := Mem) before_db (keys.degree_out c t x) = Ok k) →
  ((_ ← degree_for_cache_admission (S := Mem) after_db (keys.degree_out c t' y); Ok tt) : Result unit) =
   (_ ← degree_for_cache_admission (S := Mem) before_db (keys.degree_out c t' y); Ok tt).
Proof.
  intros Ht' Hy [k Hk]. unfold degree_for_cache_admission in *. cbn [snap_get Mem mem_view] in *.
  destruct (decide (t' = t ∧ y = x)) as [[-> ->]|Hne].
  - rewrite Hk. rewrite after_run, decide_False, decide_True; [|done|].
    2: { intros E. pose proof degree_family as F. by rewrite E, idem_family in F. }
    cbn [slate map_err mbind result_mbind result_bind]. by rewrite encode_decode_u64.
  - rewrite (after_other _ "cnt"); [done|..|done|done|].
    + exact (family_cell c "cnt" ("out/" +:+ t' +:+ "/" +:+ pad20 y) (component_ok_slash c Hc) eq_refl).
    + intros E. apply (render_eq (KDegreeOut c t' y) (KDegreeOut c t x)) in E.
      * injection E as -> ->. by apply Hne.
      * repeat split; [by apply component_ok_slash..|done].
      * repeat split; [by apply component_ok_slash..|done].
Qed.

Lemma edges_after k : family k = Some (c, "e") → after !! k = v !! k.
Proof. intros H. apply (after_other k "e"); [done..|]. intros ->. by rewrite degree_family in H. Qed.
Lemma edge_prefix_family rest k :
  starts_with ("cell/" +:+ c +:+ "/e/" +:+ rest) k = true → family k = Some (c, "e").
Proof.
  intros H. unfold starts_with in H. destruct (strip_prefix _ k) as [suffix|] eqn:E; [|done].
  apply strip_prefix_Some in E as ->. rewrite !app_assoc.
  exact (family_cell c "e" (rest +:+ suffix) (component_ok_slash c Hc) eq_refl).
Qed.

Lemma out_neighbors_after t' y q : component_ok t' = true → u64_ok y → through ≤ q →
  (∃ k, degree_for_cache_admission (S := Mem) before_db (keys.degree_out c t x) = Ok k) →
  out_neighbors_in_storage_snapshot (S := Mem) after_db c t' y q =
  out_neighbors_in_storage_snapshot (S := Mem) before_db c t' y q.
Proof.
  intros Ht' Hy Hq Hk. pose proof (degree_after t' y Ht' Hy Hk) as Hdeg.
  destruct (out_neighbors_read c t' y Hc Ht' Hy v n n0 q Hwf) as (X & HX & ->).
  destruct (out_neighbors_read c t' y Hc Ht' Hy after n n1 q after_wf) as (X' & HX' & ->).
  assert (X' = X) as ->.
  { apply set_eq. intros d. rewrite HX', HX. by apply shows_after. }
  rewrite (view_scan_ext v after (keys.out_prefix c t' y)).
  2: { intros k Hk'. apply edges_after, (edge_prefix_family ("out/" +:+ t' +:+ "/" +:+ pad20 y +:+ "/")). exact Hk'. }
  revert Hdeg. destruct (degree_for_cache_admission (S := Mem) after_db (keys.degree_out c t' y)),
    (degree_for_cache_admission (S := Mem) before_db (keys.degree_out c t' y));
    cbn [mbind result_mbind result_bind]; first [done | by intros [= ->]].
Qed.

Lemma edge_exists_after t' y q d : component_ok t' = true → u64_ok y → u64_ok d → through ≤ q →
  edge_exists_in_storage_snapshot (S := Mem) after_db c t' y d q =
  edge_exists_in_storage_snapshot (S := Mem) before_db c t' y d q.
Proof.
  intros Ht' Hy Hd Hq.
  destruct (edge_exists_read c t' y Hc Ht' Hy v n n0 q d Hwf Hd) as (b & Hb & ->).
  destruct (edge_exists_read c t' y Hc Ht' Hy after n n1 q d after_wf Hd) as (b' & Hb' & ->).
  rewrite edges_after by (exact (family_cell c "e" ("out/" +:+ t' +:+ "/" +:+ pad20 y +:+ "/" +:+ pad20 d) (component_ok_slash c Hc) eq_refl)).
  do 2 f_equal. apply eq_true_iff_eq. rewrite Hb, Hb'. by apply shows_after.
Qed.

Lemma in_neighbors_after t' y : component_ok t' = true → u64_ok y →
  in_neighbors_in_storage_snapshot (S := Mem) after_db c t' y =
  in_neighbors_in_storage_snapshot (S := Mem) before_db c t' y.
Proof.
  intros Ht' Hy. unfold in_neighbors_in_storage_snapshot, degree_for_cache_admission.
  cbn [snap_get snap_scan_prefix Mem mem_view].
  rewrite (view_scan_ext v after (keys.in_prefix c t' y)).
  2: { intros k Hk'. apply edges_after, (edge_prefix_family ("in/" +:+ t' +:+ "/" +:+ pad20 y +:+ "/")). exact Hk'. }
  rewrite (after_other (keys.degree_in c t' y) "cnt"); [done|..|done|done|].
  - exact (family_cell c "cnt" ("in/" +:+ t' +:+ "/" +:+ pad20 y) (component_ok_slash c Hc) eq_refl).
  - intros E. apply (render_eq (KDegreeIn c t' y) (KDegreeOut c t x)) in E; [done|..];
      (repeat split; [by apply component_ok_slash..|done]).
Qed.
End batch.

(** * The operation *)

Lemma shard_db (s : MShard) : sh_db s = MkMemDb (sview s) (sseq s).
Proof. unfold sview, sseq. by destruct (sh_db s). Qed.

Lemma snapshot_read {A} op c t (read : GraphSnapshot (S := Mem) → Result A) (s s' : MShard) res :
  read_in op c t read s = (s', res) →
  s' = s ∧ ∀ a, res = Ok a → read (MkSnapshot (S := Mem) c (sseq s) (sh_db s)) = Ok a.
Proof.
  unfold read_in, snapshot, lift, gets, mbind, sm_mbind, mret, sm_mret. 
  destruct (validate_component "cell_id" c) eqn:E1; [|by intros [= <- <-]].
  destruct (validate_component "edge_type" t); [|by intros [= <- <-]].
  destruct (ensure_cell_readable c op s) as [s1 [u|e]] eqn:E2; apply readable_same in E2 as ->; [|by intros [= <- <-]].
  cbn. by intros [= <- <-].
Qed.

Lemma epoch_read c (s s' : MShard) res :
  current_epoch c s = (s', res) → s' = s ∧ ∀ a, res = Ok a → a = sseq s.
Proof.
  unfold current_epoch, lift, gets, mbind, sm_mbind, mret, sm_mret.
  destruct (validate_component _ _); [|by (intros [= <- <-]; split; [done|intros ? [=]])].
  destruct (ensure_cell_readable _ _ s) as [s1 [u|e]] eqn:E2; apply readable_same in E2 as ->; [|by intros [= <- <-]].
  unfold snapshot_seq. cbn. intros [= <- <-]. split; [done|]. by intros b [= <-].
Qed.

Lemma strict_batch c op l (s s' : MShard) r : component_ok c = true → l ≠ [] →
  write_graph_batch_strict c op l s = (s', r) → batch_outcome l s s' r.
Proof.
  intros Hc Hl. unfold write_graph_batch_strict, lift, mbind, sm_mbind. rewrite validate_component_true by done.
  destruct l; [done|]. apply batch_loop.
Qed.

Lemma batch_nonempty r es inputs ts degree : (compaction_batch r es inputs ts degree).1 ≠ [].
Proof.
  intros E%(f_equal length). revert E. unfold compaction_batch. cbv zeta. cbn [fst]. rewrite !length_app. cbn [length]. lia.
Qed.

(** What one compaction did: nothing, or its batch. *)
Section outcome.
Context (latest : string → string → StorageSequence → Result (option MatrixArtifact)) (r : SegmentCompactionRequest).
#[local] Abbreviation c := (sc_cell_id r).
#[local] Abbreviation t := (sc_edge_type r).
#[local] Abbreviation x := (sc_src r).
#[local] Abbreviation through := (sc_compacted_through_epoch r).

Definition compacted_store (s s' : MShard) (res : Result SegmentCompactionResult) : Prop :=
  component_ok c = true ∧ component_ok t = true ∧ component_ok (sc_idempotency_key r) = true ∧ through ≤ sseq s ∧
  ∃ es ts inputs l,
    (∀ e, e ∈ es ↔ segment_ok (sseq s) e ∧ sview s !! segment_key c t x e = Some (segment_value e) ∧ sg_sequence e ≤ through) ∧
    (∀ d p, ts !! d = Some p ↔
       u64_ok d ∧ tombstone_at c t x (sview s) (sseq s) d = Some p.1 ∧ p.2 = keys.out_segment_tombstone c t x d) ∧
    out_neighbors_in_storage_snapshot (S := Mem) (sh_db s) c t x (sseq s) = Ok l ∧
    applied (batch r es ts inputs (N.of_nat (length l))) s s' ∧
    res = Ok (compaction_batch r (source_of r <$> es) inputs ts (N.of_nat (length l))).2.

Definition compaction_result (s s' : MShard) (res : Result SegmentCompactionResult) : Prop :=
  (same_store s s' ∧ (sview s !! idem_key r = None → ∃ e, res = Err e)) ∨ compacted_store s s' res.

#[local] Ltac nothing := unfold lift, corrupt, fails; intros [= <- <-]; left; split; [done|intros _; by eexists].

Lemma fresh_result (s s' : MShard) res :
  component_ok c = true → component_ok t = true → component_ok (sc_idempotency_key r) = true →
  u64_ok x → segments_wf c (sview s) (sseq s) →
  compact_fresh latest r s = (s', res) → compaction_result s s' res.
Proof.
  intros Hc Ht Hi Hx Hwf. unfold compact_fresh. cbv zeta. unfold mbind at 1, sm_mbind at 1.
  destruct (current_epoch c s) as [s1 [n|e]] eqn:E; apply epoch_read in E as [-> Hn];
    [|nothing]. rewrite (Hn n eq_refl). clear Hn n.
  destruct (sseq s <? through) eqn:El; [nothing|]. apply N.ltb_ge in El.
  unfold lift at 1, mbind at 1, sm_mbind at 1.
  destruct (latest c t through) as [[artifact|]|e]; [|nothing..].
  unfold lift at 1. destruct (ma_base_epoch artifact =? through); cbn [negb]; [|nothing].
  unfold mbind at 1, sm_mbind at 1.
  destruct (out_neighbors c t x s) as [s1 [l|e]] eqn:E; apply snapshot_read in E as [-> Hl];
    [|nothing].
  specialize (Hl l eq_refl). cbn [gs_storage gs_cell_id gs_read_epoch] in Hl.
  destruct (sources_run r (sview s) (sseq s) Hc Ht Hx Hwf) as (es & ins & Es & Hes).
  destruct (tombs_run r (sview s) (sseq s) Hc Ht Hx Hwf) as (ts & Ets & Hts).
  unfold mbind at 1, sm_mbind at 1, scan_remote_prefix at 1. cbn [db_scan_prefix Mem].
  change (mem_view (sh_db s)) with (sview s). rewrite Es.
  unfold mbind at 1, sm_mbind at 1, scan_remote_prefix at 1. cbn [db_scan_prefix Mem].
  change (mem_view (sh_db s)) with (sview s). rewrite Ets.
  rewrite (surjective_pairing (compaction_batch _ _ _ _ _)).
  unfold mbind at 1, sm_mbind at 1.
  destruct (write_graph_batch_strict c operation _ s) as [s1 [u|e]] eqn:E;
    apply strict_batch in E; [|done|apply batch_nonempty| |done|apply batch_nonempty].
  - unfold on_metrics, modify, mbind, sm_mbind, mret, sm_mret. intros [= <- <-]. right.
    split_and!; [done..|]. by exists es, ts, ins, l.
  - nothing.
Qed.

Lemma locked_result (s s' : MShard) res :
  component_ok c = true → component_ok t = true → component_ok (sc_idempotency_key r) = true →
  u64_ok x → segments_wf c (sview s) (sseq s) →
  compact_out_adjacency_segments_locked latest r s = (s', res) → compaction_result s s' res.
Proof.
  intros Hc Ht Hi Hx Hwf. unfold compact_out_adjacency_segments_locked. cbv zeta. fold (idem_key r).
  unfold mbind at 1, sm_mbind at 1, read_remote. cbn [db_get Mem slate map_err].
  change (mem_view (sh_db s)) with (sview s).
  destruct (sview s !! idem_key r) as [value|] eqn:Ev; [|by apply fresh_result].
  unfold lift. intros [= <- <-]. left. split; [done|]. by rewrite Ev.
Qed.

Lemma compaction_run (s s' : MShard) res :
  u64_ok x → segments_wf c (sview s) (sseq s) →
  compact_out_adjacency_segments latest r s = (s', res) → compaction_result s s' res.
Proof.
  intros Hx Hwf. unfold compact_out_adjacency_segments, lift, mbind, sm_mbind.
  destruct (validate_component "cell_id" c) as [[]|] eqn:Hc; [apply validate_ok_inv in Hc|nothing].
  destruct (validate_component "edge_type" t) as [[]|] eqn:Ht; [apply validate_ok_inv in Ht|nothing].
  destruct (validate_component "idempotency_key" _) as [[]|] eqn:Hi; [apply validate_ok_inv in Hi|nothing].
  destruct (ensure_write_authority c operation s) as [s1 [u|e]] eqn:E1; apply authority_same in E1 as ->; [|nothing].
  destruct (acquire_gc_permit operation s) as [s1 [u1|e]] eqn:E1; apply gate_same in E1.
  2: { intros [= <- <-]. left. split; [done|intros _; by eexists]. }
  destruct (acquire_local_write_guard c operation s1) as [s2 [u2|e]] eqn:E2; apply guard_same in E2;
    pose proof (same_trans _ _ _ E1 E2) as Hs.
  2: { intros [= <- <-]. left. split; [done|intros _; by eexists]. }
  intros H. pose proof Hs as (Hv & Hq & Hp).
  apply locked_result in H; [|done..|by rewrite Hv, Hq].
  destruct H as [[H1 H2]|(H1 & H2 & H3 & H4 & es & ts & inputs & l & H5 & H6 & H7 & H8 & H9)].
  - left. split; [exact (same_trans _ _ _ Hs H1)|by rewrite <- Hv].
  - right. split_and!; [done..|by rewrite <- Hq|]. exists es, ts, inputs, l.
    rewrite <- Hv, <- Hq. split_and!; [done..| |exact (applied_after _ _ _ _ Hs H8)|done].
    by rewrite !shard_db, Hv, Hq in *.
Qed.
End outcome.

(** * What a compaction keeps and what it changes *)

Lemma segments_weaken c v n n' : n ≤ n' → segments_wf c v n → segments_wf c v n'.
Proof.
  intros Hle H k val Hk Hv. destruct (H k val Hk Hv) as [(t & x & e & Ht & Hx & He & Hrest)|(t & x & d & e & Ht & Hx & Hd & He & Hle1 & Hrest)].
  - left. exists t, x, e. destruct He as (H1 & H2 & H3). split; [done|]. split; [done|]. split; [|done].
    split; [done|]. split; [lia|done].
  - right. exists t, x, d, e. repeat (split; [done|]). split; [lia|done].
Qed.

(** A neighbour list whose encoding has a 64-bit length. *)
Definition list_fits (s : MShard) (r : SegmentCompactionRequest) (q : N) : Prop := ∀ l,
  out_neighbors_in_storage_snapshot (S := Mem) (sh_db s) (sc_cell_id r) (sc_edge_type r) (sc_src r) q = Ok l →
  u64_ok (N.of_nat (length l) * 8).

Section effect.
Context (r : SegmentCompactionRequest) (s s' : MShard) (res : Result SegmentCompactionResult).
#[local] Abbreviation c := (sc_cell_id r).
#[local] Abbreviation t := (sc_edge_type r).
#[local] Abbreviation x := (sc_src r).
#[local] Abbreviation through := (sc_compacted_through_epoch r).
Context (Hx : u64_ok x) (Hn : u64_ok (sseq s)) (Hwf : segments_wf c (sview s) (sseq s)).
Context (Hfit : list_fits s r through) (Hfit' : list_fits s r (sseq s)).

Lemma out_neighbors_degree q l :
  out_neighbors_in_storage_snapshot (S := Mem) (sh_db s) c t x q = Ok l →
  ∃ k, degree_for_cache_admission (S := Mem) (sh_db s) (keys.degree_out c t x) = Ok k.
Proof.
  unfold out_neighbors_in_storage_snapshot.
  destruct (validate_component "cell_id" c); [|done]. destruct (validate_component "edge_type" t); [|done].
  cbn [mbind result_mbind result_bind]. destruct (degree_for_cache_admission _ _) as [k|]; [by exists k|done].
Qed.

Lemma live_fits es ts q l : component_ok c = true → component_ok t = true → component_ok (sc_idempotency_key r) = true → through ≤ sseq s →
  (∀ e, e ∈ es ↔ segment_ok (sseq s) e ∧ sview s !! segment_key c t x e = Some (segment_value e) ∧ sg_sequence e ≤ through) →
  (∀ d p, ts !! d = Some p ↔
     u64_ok d ∧ tombstone_at c t x (sview s) (sseq s) d = Some p.1 ∧ p.2 = keys.out_segment_tombstone c t x d) →
  out_neighbors_in_storage_snapshot (S := Mem) (sh_db s) c t x q = Ok l →
  u64_ok (N.of_nat (length (live r es ts)) * 8).
Proof.
  intros Hc Ht Hi Hle Hes Hts Hl. assert (∃ l', out_neighbors_in_storage_snapshot (S := Mem) (sh_db s) c t x through = Ok l' ∧
    ∀ d, d ∈ live r es ts → d ∈ l') as (l' & Hl' & Hsub).
  { revert Hl. rewrite shard_db.
    destruct (out_neighbors_read c t x Hc Ht Hx (sview s) (sseq s) (sseq s) q Hwf) as (X & HX & ->).
    destruct (out_neighbors_read c t x Hc Ht Hx (sview s) (sseq s) (sseq s) through Hwf) as (X' & HX' & ->).
    destruct (degree_for_cache_admission _ _); [|done]. cbn [mbind result_mbind result_bind].
    destruct (scan_loop out_record_step _ _) as [points|]; [|done]. cbn [mbind result_mbind result_bind]. intros _.
    eexists. split; [done|]. intros d Hd. apply elem_of_bset_iter, elem_of_union_r, HX'.
    by apply (live_shows r (sview s) (sseq s) Hc Ht Hi Hx Hwf Hn Hle es ts Hes Hts). }
  specialize (Hfit l' Hl'). assert (length (live r es ts) ≤ length l')%nat as H.
  { apply submseteq_length, NoDup_submseteq; [apply btree_keys_nodup|exact Hsub]. }
  unfold u64_ok in *. lia.
Qed.
End effect.

(** C7: compaction is invisible to readers.  Whatever the call answers, the cell's
    segments stay well formed, and every vertex of every edge type reads the same
    neighbours, in both directions, and the same edges, before and after it, at any
    epoch from the compacted one on. *)
Theorem compaction_keeps_reads (latest : string → string → StorageSequence → Result (option MatrixArtifact))
    (r : SegmentCompactionRequest) (s s' : MShard) (res : Result SegmentCompactionResult)
    (Hx : u64_ok (sc_src r)) (Hn : u64_ok (sseq s)) (Hwf : segments_wf (sc_cell_id r) (sview s) (sseq s))
    (Hfit : list_fits s r (sc_compacted_through_epoch r)) (Hfit' : list_fits s r (sseq s))
    (Hrun : compact_out_adjacency_segments latest r s = (s', res)) :
  segments_wf (sc_cell_id r) (sview s') (sseq s') ∧
  ∀ t y q, component_ok t = true → u64_ok y → sc_compacted_through_epoch r ≤ q →
    out_neighbors_in_storage_snapshot (S := Mem) (sh_db s') (sc_cell_id r) t y q =
      out_neighbors_in_storage_snapshot (S := Mem) (sh_db s) (sc_cell_id r) t y q ∧
    in_neighbors_in_storage_snapshot (S := Mem) (sh_db s') (sc_cell_id r) t y =
      in_neighbors_in_storage_snapshot (S := Mem) (sh_db s) (sc_cell_id r) t y ∧
    ∀ d, u64_ok d → edge_exists_in_storage_snapshot (S := Mem) (sh_db s') (sc_cell_id r) t y d q =
      edge_exists_in_storage_snapshot (S := Mem) (sh_db s) (sc_cell_id r) t y d q.
Proof.
  pose proof (compaction_run latest r s s' _ Hx Hwf Hrun) as [[(Hv & Hq & _) _]|Hcase].
  { rewrite !shard_db, Hv, Hq. done. }
  destruct Hcase as (Hc & Ht & Hi & Hle & es & ts & inputs & l & Hes & Hts & Hl & (Hv & Hq & _ & Hn') & _).
  change (foldl _ _ _) with (after r (sview s) es ts inputs (N.of_nat (length l))) in Hv.
  pose proof (live_fits r s Hx Hn Hwf Hfit es ts _ l Hc Ht Hi Hle Hes Hts Hl) as Hlive.
  destruct (out_neighbors_degree r s _ l Hl) as [k Hk]. specialize (Hfit' l Hl).
  rewrite shard_db in Hk. rewrite !shard_db, Hv, Hq. split.
  { eapply (segments_weaken _ _ (sseq s)); [lia|]. by apply after_wf. }
  intros t y q Ht' Hy Hle'. split; [|split].
  - eapply out_neighbors_after; try done; [unfold u64_ok in *; lia|by exists k].
  - by eapply in_neighbors_after.
  - intros d Hd. by eapply edge_exists_after.
Qed.

(** C8: compaction compacts.  A first successful call leaves the vertex at most one
    segment up to the epoch, at the epoch and under the request's name, that holds
    exactly the destinations the old segments showed there; no tombstone up to the
    epoch stays; and the stored degree is the number of neighbours read. *)
Theorem compaction_compacts (latest : string → string → StorageSequence → Result (option MatrixArtifact))
    (r : SegmentCompactionRequest) (s s' : MShard) (result : SegmentCompactionResult)
    (Hx : u64_ok (sc_src r)) (Hn : u64_ok (sseq s)) (Hwf : segments_wf (sc_cell_id r) (sview s) (sseq s))
    (Hfit : list_fits s r (sc_compacted_through_epoch r)) (Hfit' : list_fits s r (sseq s))
    (Hnew : sview s !! idem_key r = None)
    (Hrun : compact_out_adjacency_segments latest r s = (s', Ok result)) :
  (∀ e, segment_ok (sseq s) e →
     sview s' !! segment_key (sc_cell_id r) (sc_edge_type r) (sc_src r) e = Some (segment_value e) →
     sg_sequence e ≤ sc_compacted_through_epoch r →
     sg_sequence e = sc_compacted_through_epoch r ∧ sg_id e = "compact-" +:+ sc_idempotency_key r ∧
     ∀ d, d ∈ sg_destinations e ↔
       segment_shows (sc_cell_id r) (sc_edge_type r) (sc_src r) (sview s) (sseq s) (sc_compacted_through_epoch r) d) ∧
  (∀ d e, u64_ok d → u64_ok e →
     sview s' !! keys.out_segment_tombstone (sc_cell_id r) (sc_edge_type r) (sc_src r) d = Some (encode_u64 e) →
     sc_compacted_through_epoch r < e) ∧
  ∃ l, out_neighbors_in_storage_snapshot (S := Mem) (sh_db s') (sc_cell_id r) (sc_edge_type r) (sc_src r) (sseq s) = Ok l ∧
    out_degree_in_storage_snapshot (S := Mem) (sh_db s') (sc_cell_id r) (sc_edge_type r) (sc_src r) = Ok (N.of_nat (length l)).
Proof.
  pose proof (compaction_run latest r s s' _ Hx Hwf Hrun) as [[_ H]|Hcase]; [by apply H in Hnew as [? [=]]|].
  destruct Hcase as (Hc & Ht & Hi & Hle & es & ts & inputs & l & Hes & Hts & Hl & (Hv & Hq & _ & Hn') & _).
  change (foldl _ _ _) with (after r (sview s) es ts inputs (N.of_nat (length l))) in Hv.
  pose proof (live_fits r s Hx Hn Hwf Hfit es ts _ l Hc Ht Hi Hle Hes Hts Hl) as Hlive.
  destruct (out_neighbors_degree r s _ l Hl) as [k Hk]. specialize (Hfit' l Hl).
  assert (u64_ok (N.of_nat (length l))) as Hlen by (unfold u64_ok in *; lia).
  rewrite shard_db in Hk, Hl. rewrite !shard_db, Hv, Hq. split; [|split].
  - intros e (He1 & _ & He3) He' Hle1.
    assert (segment_ok (sseq s) e) as He by (split; [done|]; split; [lia|done]).
    apply (after_segment r _ (sseq s)) in He' as [(_ & _ & _ & ->)|[H _]]; [|by destruct H|done..].
    cbn. split; [done|]. split; [done|]. intros d. by apply live_shows.
  - intros d e Hd He He'. apply (after_tombstone r _ (sseq s)) in He' as [_ H]; [|done..]. apply N.lt_nge. tauto.
  - exists l. split; [rewrite <- Hl; by eapply out_neighbors_after; [..|exists k]|].
    unfold out_degree_in_storage_snapshot. rewrite !validate_component_true by done.
    cbn [mbind result_mbind result_bind snap_get Mem mem_view]. rewrite after_run, decide_False, decide_True; [|done|].
    + cbn [slate map_err mbind result_mbind result_bind]. by rewrite encode_decode_u64.
    + intros E. pose proof (degree_family r Hc) as F. by rewrite E, idem_family in F.
Qed.

(** ** A concrete vertex: three segments, one deleted destination, compacted at 2 *)

Definition sample_segments : list Segment := [MkSegment 1 "w1" [2; 3]; MkSegment 2 "w2" [4]; MkSegment 3 "w3" [5]].
Definition sample_view : gmap string string := list_to_map (
  (segment_entry "c1" "knows" 1 <$> sample_segments) ++ [(keys.out_segment_tombstone "c1" "knows" 1 3, encode_u64 2)]).
Definition segmented_shard : MShard :=
  MkShard (S := Mem) (MkMemDb sample_view 3) true Writer Full true ∅ gate_default 0 0 0
    (MkOpGate 1 false) (MkOpGate 1 false) (MkOpMetrics 0 0 0 0 0 0 0 0 0).
Definition sample_compaction : SegmentCompactionRequest := MkCompaction "c1" "knows" 1 2 "k1".
Definition sample_artifact : string → string → StorageSequence → Result (option MatrixArtifact) :=
  λ cell_id edge_type epoch, Ok (Some (MkArtifact cell_id edge_type epoch 64 1 1 3)).
Definition compacted_run : MShard * Result SegmentCompactionResult :=
  compact_out_adjacency_segments sample_artifact sample_compaction segmented_shard.

Lemma sample_wf : segments_wf "c1" sample_view 3.
Proof.
  intros k val _ H%elem_of_list_to_map_2. apply elem_of_app in H as [H|H].
  - left. apply list_elem_of_fmap in H as (e & [= -> ->] & He). exists "knows", 1, e.
    split; [done|]. split; [done|]. split; [|done].
    repeat (apply elem_of_cons in He as [->|He]); [| | |by apply elem_of_nil in He];
      (split; [done|]; split; [done|]; split; [done|]; split; [by repeat constructor|done]).
  - right. apply elem_of_cons in H as [[= -> ->]|H]; [|by apply elem_of_nil in H].
    by exists "knows", 1, 3, 2.
Qed.

Lemma sample_read q : q = 2 ∨ q = 3 →
  out_neighbors_in_storage_snapshot (S := Mem) (sh_db segmented_shard) "c1" "knows" 1 q = Ok (if q =? 2 then [2; 4] else [2; 4; 5]).
Proof. intros [->| ->]; vm_compute; reflexivity. Qed.

Lemma sample_fits q : q = 2 ∨ q = 3 → list_fits segmented_shard sample_compaction q.
Proof.
  intros Hq l. change (sc_cell_id _) with "c1". change (sc_edge_type _) with "knows". change (sc_src _) with 1.
  rewrite sample_read by done. intros [= <-]. by destruct (q =? 2).
Qed.

Lemma compaction_keeps_reads_witness :
  out_neighbors_in_storage_snapshot (S := Mem) (sh_db segmented_shard) "c1" "knows" 1 3 = Ok [2; 4; 5] ∧
  out_neighbors_in_storage_snapshot (S := Mem) (sh_db compacted_run.1) "c1" "knows" 1 3 =
  out_neighbors_in_storage_snapshot (S := Mem) (sh_db segmented_shard) "c1" "knows" 1 3.
Proof.
  split; [by apply (sample_read 3); right|].
  refine (proj1 (proj2 (compaction_keeps_reads sample_artifact sample_compaction segmented_shard compacted_run.1 compacted_run.2
    _ _ sample_wf (sample_fits 2 _) (sample_fits 3 _) (surjective_pairing _)) "knows" 1 3 _ _ _));
    [done|done|by left|by right|done|done|done].
Defined.

Lemma compaction_compacts_witness :
  compacted_run.2 = Ok (MkSegmentCompactionResult 2 2 2 1 3 2) ∧
  ∃ l, out_neighbors_in_storage_snapshot (S := Mem) (sh_db compacted_run.1) "c1" "knows" 1 3 = Ok l ∧
    out_degree_in_storage_snapshot (S := Mem) (sh_db compacted_run.1) "c1" "knows" 1 = Ok (N.of_nat (length l)).
Proof.
  assert (compacted_run.2 = Ok (MkSegmentCompactionResult 2 2 2 1 3 2)) as Hok by (vm_compute; reflexivity).
  split; [exact Hok|].
  refine (proj2 (proj2 (compaction_compacts sample_artifact sample_compaction segmented_shard compacted_run.1
    (MkSegmentCompactionResult 2 2 2 1 3 2) _ _ sample_wf (sample_fits 2 (or_introl eq_refl))
    (sample_fits 3 (or_intror eq_refl)) _ _)));
    [done|done|vm_compute; reflexivity|by rewrite <- Hok, <- surjective_pairing].
Defined.
