(* ===== verification/SparseFacts.v ===== *)
(** [Sparse]: binary search finds ordinals, the two-pass builds of a CSC place
    every edge in its row, and the checks on a CSC bound every access. *)

From S2P Require Import Prelude Text Errors Model Sparse.

Local Open Scope N_scope.

Import sparse.

(** * Total indexing *)

Lemma at_lookup {A} `{Inhabited A} (l : list A) i x : l !! i = Some x → at_ l i = x.
Proof. intros H'. unfold at_. by apply list_lookup_total_correct. Qed.
Lemma at_some {A} `{Inhabited A} (l : list A) i : (i < length l)%nat → l !! i = Some (at_ l i).
Proof. intros Hi. unfold at_. by apply list_lookup_lookup_total_lt. Qed.
Lemma at_insert_eq {A} `{Inhabited A} (l : list A) i x : (i < length l)%nat → at_ (<[i := x]> l) i = x.
Proof. intros Hi. unfold at_. by apply list_lookup_total_insert_eq. Qed.
Lemma at_insert_ne {A} `{Inhabited A} (l : list A) i j x : i ≠ j → at_ (<[i := x]> l) j = at_ l j.
Proof. intros Hi. unfold at_. by apply list_lookup_total_insert_ne. Qed.
Lemma at_insert {A} `{Inhabited A} (l : list A) i j x : (i < length l)%nat →
  at_ (<[i := x]> l) j = if decide (i = j) then x else at_ l j.
Proof. intros Hi. case_decide as E; [subst; by apply at_insert_eq|by apply at_insert_ne]. Qed.
Lemma at_replicate {A} `{Inhabited A} n (x : A) i : (i < n)%nat → at_ (replicate n x) i = x.
Proof. intros Hi. apply at_lookup. by apply lookup_replicate_2. Qed.
Lemma at_take {A} `{Inhabited A} (l : list A) n i : (i < n)%nat → at_ (take n l) i = at_ l i.
Proof. intros Hi. unfold at_. by rewrite !list_lookup_total_alt, lookup_take_lt. Qed.

Lemma filter_all {A} (P : A → Prop) `{∀ x, Decision (P x)} (l : list A) :
  (∀ x, x ∈ l → P x) → filter P l = l.
Proof.
  induction l as [|x l IH]; intros Hl; [done|].
  rewrite filter_cons_True by set_solver. f_equal. apply IH. set_solver.
Qed.

(** * Binary search *)

Section sorted.
Context (l : list VertexId) (Hl : StronglySorted N.lt l).

Lemma sorted_lookup_lt i j x y : l !! i = Some x → l !! j = Some y → (i < j)%nat → x < y.
Proof.
  revert i j. induction Hl as [|a l' _ IH Ha]; intros i j Hi Hj Hij; [done|].
  destruct j as [|j]; [lia|]. destruct i as [|i]; cbn in *.
  - injection Hi as ->. rewrite Forall_forall in Ha. by apply Ha, list_elem_of_lookup_2 with j.
  - apply (IH ltac:(by apply StronglySorted_inv in Hl as [? _]) i j); [done|done|lia].
Qed.

Lemma sorted_lookup_inj i j x : l !! i = Some x → l !! j = Some x → i = j.
Proof.
  intros Hi Hj. destruct (lt_eq_lt_dec i j) as [[H|H]|H]; [|done|];
    eapply sorted_lookup_lt in H; eauto; lia.
Qed.

(** The range still searched holds every index of [x]. *)
Lemma search_base_spec x fuel : ∀ base size, (size ≤ S fuel)%nat → (1 ≤ size)%nat →
  (base + size ≤ length l)%nat →
  let b := search_base l x fuel base size in
  (b < length l)%nat ∧
  ∀ i, l !! i = Some x → (base ≤ i < base + size)%nat → i = b.
Proof.
  induction fuel as [|fuel IH]; intros base size Hf H1 Hlen; cbn [search_base]; cbv zeta.
  { split; [lia|]. intros. lia. }
  destruct (Nat.leb_spec size 1); [split; [lia|]; intros; lia|].
  assert (1 ≤ size / 2)%nat by (apply Nat.div_le_lower_bound; lia).
  assert (2 * (size / 2) ≤ size)%nat by (apply Nat.Div0.mul_div_le).
  assert (base + size / 2 < length l)%nat as Hmid%at_some by lia.
  set (half := (size / 2)%nat) in *. cbv zeta.
  destruct (N.ltb_spec x (at_ l (base + half))) as [Hlt|Hge].
  - destruct (IH base (size - half)%nat) as [Hb Hall]; [lia..|]. split; [done|].
    intros i Hi Hr. apply Hall; [done|].
    assert (i < base + half)%nat; [|lia].
    apply Nat.nle_gt. intros Hle.
    destruct (decide (i = base + half)%nat) as [->|Hne].
    + rewrite Hmid in Hi. injection Hi as Hi. lia.
    + pose proof (sorted_lookup_lt (base + half) i _ _ Hmid Hi). lia.
  - destruct (IH (base + half)%nat (size - half)%nat) as [Hb Hall]; [lia..|]. split; [done|].
    intros i Hi Hr. apply Hall; [done|].
    assert (base + half ≤ i)%nat; [|lia].
    apply Nat.nlt_ge. intros Hle.
    pose proof (sorted_lookup_lt i (base + half) _ _ Hi Hmid Hle). lia.
Qed.

Lemma binary_search_spec x i : binary_search l x = Some i ↔ l !! i = Some x.
Proof.
  unfold binary_search. destruct (Nat.eqb_spec (length l) 0) as [H0|H0].
  { destruct l; [|done]. by rewrite lookup_nil. }
  destruct (search_base_spec x (length l) 0 (length l)) as [Hb Hall]; [lia..|]. cbv zeta in *.
  split.
  - destruct (N.eqb_spec (at_ l (search_base l x (length l) 0 (length l))) x) as [E|]; [|done].
    intros [= <-]. rewrite <- E at 2. by apply at_some.
  - intros Hi. assert (i < length l)%nat by (by eapply lookup_lt_Some).
    specialize (Hall i Hi ltac:(lia)). subst i. by rewrite (at_lookup _ _ _ Hi), N.eqb_refl.
Qed.

Lemma binary_search_elem x : x ∈ l ↔ ∃ i, binary_search l x = Some i.
Proof. rewrite list_elem_of_lookup. by setoid_rewrite binary_search_spec. Qed.
End sorted.

Lemma sorted_lt_nodup (l : list N) : StronglySorted N.lt l → NoDup l.
Proof.
  intros Hl. apply NoDup_alt. intros i j x Hi Hj. by eapply sorted_lookup_inj.
Qed.

Lemma bset_iter_strict (s : gset N) : StronglySorted N.lt (bset_iter s).
Proof.
  pose proof (bset_iter_sorted s) as Hs. pose proof (bset_iter_nodup s) as Hn.
  induction (bset_iter s) as [|x l IH]; [constructor|].
  apply StronglySorted_inv in Hs as [Hs Hx]. apply NoDup_cons in Hn as [Hx' Hn].
  constructor; [by apply IH|]. rewrite Forall_forall in *. intros y Hy. specialize (Hx y Hy).
  assert (x ≠ y) by congruence. unfold key_le, key_ord_N in Hx. lia.
Qed.

Lemma strict_ext (l1 l2 : list N) : StronglySorted N.lt l1 → StronglySorted N.lt l2 →
  (∀ x, x ∈ l1 ↔ x ∈ l2) → l1 = l2.
Proof.
  assert (∀ l, StronglySorted N.lt l → StronglySorted key_le l) as Hle.
  { induction 1 as [|x l _ IH Hx]; constructor; [done|].
    eapply Forall_impl; [exact Hx|]. intros y Hy. unfold key_le, key_ord_N. lia. }
  intros H1 H2. apply sorted_nodup_ext; auto using sorted_lt_nodup.
Qed.

Lemma seq_sorted s k : StronglySorted lt (seq s k).
Proof.
  revert s. induction k as [|k IH]; intros s; constructor; [apply IH|].
  apply Forall_forall. intros x. rewrite elem_of_seq. lia.
Qed.

(** * Adjacent comparisons *)

Lemma windows_sorted (R : relation N) `{!Transitive R} P l :
  (∀ a b, P a b = true ↔ R a b) → windows_all P l = true ↔ StronglySorted R l.
Proof.
  intros HP. split.
  - intros Hw. apply Sorted_StronglySorted; [done|]. induction l as [|a l IH]; [constructor|].
    destruct l as [|b l]; [repeat constructor|].
    cbn in Hw. apply andb_true_iff in Hw as [Hab Hw]. constructor; [by apply IH|].
    constructor. by apply HP.
  - induction l as [|a l IH]; intros Hs; [done|]. apply StronglySorted_inv in Hs as [Hs Ha].
    destruct l as [|b l]; [done|]. cbn [windows_all]. apply andb_true_iff. split; [|by apply IH].
    apply HP. by apply Forall_inv in Ha.
Qed.

Lemma windows_lt l : windows_all N.ltb l = true ↔ StronglySorted N.lt l.
Proof. apply (windows_sorted N.lt). intros. apply N.ltb_lt. Qed.
Lemma windows_le l : windows_all N.leb l = true ↔ StronglySorted N.le l.
Proof. apply (windows_sorted N.le). intros. apply N.leb_le. Qed.

(** * The counting passes

    Both builds of a CSC count the entries of each row, sum the counts into
    pointers, then write each entry at its row's next offset. *)

Lemma bump_length i n l : length (bump i n l) = length l.
Proof. apply length_insert. Qed.
Lemma at_bump i n l j : (i < length l)%nat →
  at_ (bump i n l) j = if decide (i = j) then at_ l j + n else at_ l j.
Proof. intros Hi. unfold bump. rewrite at_insert by done. case_decide; [by subst|done]. Qed.

(** The sum of the first [k] elements. *)
Fixpoint sum_to (l : list N) (k : nat) : N :=
  match k with O => 0 | S k => sum_to l k + at_ l k end.

Lemma prefix_sums_length l : length (prefix_sums l) = length l.
Proof.
  unfold prefix_sums. generalize (seq 1 (length l - 1)). intros js.
  revert l. induction js as [|j js IH]; intros l; [done|]. cbn. by rewrite IH, bump_length.
Qed.

Lemma prefix_sums_at l i : (i < length l)%nat → at_ (prefix_sums l) i = sum_to l (S i).
Proof.
  unfold prefix_sums. assert (∀ k, (k ≤ length l - 1)%nat →
    let ps := foldl (λ ps idx, bump idx (at_ ps (idx - 1)%nat) ps) l (seq 1 k) in
    length ps = length l ∧ ∀ i, (i < length l)%nat →
    at_ ps i = if decide (i ≤ k)%nat then sum_to l (S i) else at_ l i) as Hk.
  { induction k as [|k IH]; intros Hk.
    - split; [done|]. intros j Hj. cbn. case_decide; [|done].
      replace j with 0%nat by lia. cbn. lia.
    - cbv zeta in *. rewrite seq_S, foldl_app. cbn [foldl].
      destruct IH as [Hlen Hat]; [lia|]. split; [by rewrite bump_length|].
      intros j Hj. rewrite at_bump by lia. rewrite !Hat by lia.
      replace (1 + k - 1)%nat with k by lia.
      repeat case_decide; try lia; subst; try done.
      cbn [sum_to Nat.add]. lia. }
  intros Hi. destruct (Hk (length l - 1)%nat) as [_ Hat]; [lia|]. cbv zeta in Hat.
  rewrite Hat by done. case_decide; [done|lia].
Qed.

Lemma last_at (l : list N) n : length l = S n → last_or_zero l = at_ l n.
Proof.
  intros Hl. unfold last_or_zero. rewrite last_lookup, Hl. cbn [pred].
  by rewrite at_some by lia.
Qed.

Section bucket.
(** [n] rows; the entries, in the order they are written. *)
Context (n : nat) (items : list (nat * N)).
Context (Hitems : ∀ p, p ∈ items → (p.1 < n)%nat).

Definition bucket (its : list (nat * N)) (r : nat) : list N := snd <$> filter (λ p, p.1 = r) its.

Lemma bucket_app l1 l2 r : bucket (l1 ++ l2) r = bucket l1 r ++ bucket l2 r.
Proof. unfold bucket. by rewrite filter_app, fmap_app. Qed.
Lemma bucket_one r v r' : bucket [(r, v)] r' = if decide (r = r') then [v] else [].
Proof. unfold bucket. rewrite filter_cons. cbn. case_decide; done. Qed.

(** The counts, one cell to the right of their row. *)
Definition counts_ok (counts : list N) : Prop :=
  length counts = S n ∧ at_ counts 0 = 0 ∧
  ∀ r, (r < n)%nat → at_ counts (S r) = N.of_nat (length (bucket items r)).

(** Where row [r] starts. *)
Fixpoint base (r : nat) : nat :=
  match r with O => O | S r => base r + length (bucket items r) end.

Lemma base_mono r r' : (r ≤ r')%nat → (base r ≤ base r')%nat.
Proof. induction 1; cbn; lia. Qed.

Lemma pointers_base counts r : counts_ok counts → (r ≤ n)%nat →
  at_ (prefix_sums counts) r = N.of_nat (base r).
Proof.
  intros (Hlen & H0 & Hc) Hr. rewrite prefix_sums_at by lia.
  induction r as [|r IH]; [cbn; by rewrite H0|].
  change (sum_to counts (S r) + at_ counts (S r) = N.of_nat (base (S r))).
  rewrite IH, Hc by lia. cbn [base]. lia.
Qed.

Lemma base_total : base n = length items.
Proof.
  assert (∀ k, base k = length (filter (λ p, p.1 < k)%nat items)) as Hk.
  { induction k as [|k IH].
    - cbn. symmetry. apply length_zero_iff_nil. clear Hitems.
      induction items as [|p its IHi]; [done|]. rewrite filter_cons, decide_False by lia. done.
    - cbn [base]. rewrite IH. clear IH Hitems. unfold bucket. rewrite length_fmap.
      induction items as [|p its IHi]; [done|]. rewrite !filter_cons.
      repeat case_decide; cbn; lia. }
  rewrite Hk. f_equal. by apply filter_all.
Qed.

(** After the entries [done], each row holds its share and its offset is past it. *)
Definition placed (done : list (nat * N)) (st : list N * list N) : Prop :=
  length st.1 = length items ∧ length st.2 = n ∧
  ∀ r, (r < n)%nat → at_ st.2 r = N.of_nat (base r + length (bucket done r)) ∧
    ∀ k x, bucket done r !! k = Some x → st.1 !! (base r + k)%nat = Some x.

Lemma place_step don r v rest st :
  items = don ++ (r, v) :: rest → placed don st → placed (don ++ [(r, v)]) (place st r v).
Proof.
  intros Heq (Hl1 & Hl2 & Hat). destruct st as [ix off]. cbn [fst snd] in *.
  assert (r < n)%nat as Hr by (apply (Hitems (r, v)); rewrite Heq; set_solver).
  destruct (Hat r Hr) as [Hoff Hrow]. unfold place. cbn [fst snd].
  rewrite Hoff, Nat2N.id.
  assert (∀ r', (r' < n)%nat → (base r' + length (bucket don r') +
      (if decide (r' = r) then 1 else 0) ≤ base (S r'))%nat) as Hfit.
  { intros r' Hr'. cbn [base]. rewrite Heq, bucket_app, length_app.
    change ((r, v) :: rest) with ([(r, v)] ++ rest). rewrite bucket_app, length_app, bucket_one.
    repeat case_decide; subst; cbn; lia. }
  assert (base (S r) ≤ length items)%nat as Hend.
  { rewrite <- base_total. apply base_mono. lia. }
  split; [cbn; by rewrite length_insert|]. split; [cbn; by rewrite bump_length|].
  intros r' Hr'. destruct (Hat r' Hr') as [Hoff' Hrow']. cbn [fst snd]. rewrite at_bump by lia.
  rewrite bucket_app, bucket_one. pose proof (Hfit r Hr) as Hf. pose proof (Hfit r' Hr') as Hf'.
  rewrite decide_True in Hf by done. split.
  - rewrite length_app. destruct (decide (r = r')) as [->|Hne]; cbn; lia.
  - intros k x. destruct (decide (r = r')) as [->|Hne].
    + intros [Hk|[Hk Hv]]%lookup_app_Some.
      * rewrite list_lookup_insert_ne by (apply lookup_lt_Some in Hk; lia). by apply Hrow.
      * apply list_lookup_singleton_Some in Hv as [Hk0 ->].
        replace (base r' + k)%nat with (base r' + length (bucket don r'))%nat by lia.
        apply list_lookup_insert_eq. lia.
    + rewrite app_nil_r. intros Hk. pose proof (lookup_lt_Some _ _ _ Hk).
      rewrite list_lookup_insert_ne; [by apply Hrow'|].
      destruct (lt_eq_lt_dec r r') as [[Hlt|]|Hlt]; [|done|].
      * pose proof (base_mono (S r) r' ltac:(lia)). lia.
      * pose proof (base_mono (S r') r ltac:(lia)). rewrite decide_False in Hf' by lia. lia.
Qed.

Lemma place_all st : placed [] st →
  placed items (foldl (λ st p, place st p.1 p.2) st items).
Proof.
  intros H0. assert (∀ rest don st, items = don ++ rest → placed don st →
    placed items (foldl (λ st p, place st p.1 p.2) st rest)) as Hgen; [|by apply (Hgen items [])].
  induction rest as [|[r v] rest IH]; intros don st' Heq Hst.
  - rewrite app_nil_r in Heq. by subst.
  - cbn [foldl]. apply (IH (don ++ [(r, v)])).
    + by rewrite <- app_assoc.
    + cbn [fst snd]. by apply (place_step _ _ _ rest).
Qed.

(** The two passes: the pointers are the bases, and the slice of the indices
    between two pointers is the row's entries in order. *)
Lemma build_spec counts : counts_ok counts →
  let pointers := prefix_sums counts in
  let st := foldl (λ st p, place st p.1 p.2)
              (replicate (length items) 0, take n pointers) items in
  length pointers = S n ∧ length st.1 = length items ∧
  (∀ r, (r ≤ n)%nat → at_ pointers r = N.of_nat (base r)) ∧
  ∀ r, (r < n)%nat → take (base (S r) - base r) (drop (base r) st.1) = bucket items r.
Proof.
  intros Hc. cbv zeta. pose proof Hc as (Hlen & _).
  assert (length (prefix_sums counts) = S n) as Hpl by (by rewrite prefix_sums_length).
  assert (placed items (foldl (λ st p, place st p.1 p.2)
     (replicate (length items) 0, take n (prefix_sums counts)) items)) as (H1 & H2 & Hat).
  { apply place_all. split; [apply length_replicate|]. cbn [fst snd].
    split; [rewrite length_take; lia|].
    intros r Hr. rewrite at_take, (pointers_base counts) by (done || lia).
    split; [cbn; f_equal; lia|]. by intros k x. }
  split; [done|]. split; [done|]. split; [intros; by apply pointers_base|].
  intros r Hr. destruct (Hat r Hr) as [_ Hrow].
  assert (base (S r) ≤ length items)%nat as Hend.
  { rewrite <- base_total. apply base_mono. lia. }
  cbn [base] in *. replace (base r + length (bucket items r) - base r)%nat
    with (length (bucket items r)) by lia.
  apply list_eq_same_length with (n := length (bucket items r)); [done| |].
  - rewrite length_take, length_drop. lia.
  - intros k x y Hk Hx Hy. rewrite lookup_take_lt, lookup_drop in Hx by done.
    apply Hrow in Hy. congruence.
Qed.
End bucket.
