(* ===== verification/SparseBuild.v ===== *)
(** [Sparse]: what the compiled matrices hold.  A validated CSC gives a matrix
    whose rows are within its dictionary; the CSC of an adjacency has the
    adjacency's rows and reads back as it; a transpose reverses every edge. *)

From S2P Require Import Prelude Text Errors Model Sparse SparseFacts.

Local Open Scope N_scope.

Import sparse.

(** * Rows *)

Lemma from_u64_get l i : ov_get (from_u64 l) i = N.to_nat (at_ l i).
Proof.
  unfold from_u64. destruct (forallb _ l) eqn:E; [|done]. cbn.
  assert (as_u32 <$> l = l) as ->; [|done].
  rewrite forallb_forall in E. rewrite <- (list_fmap_id l) at 2. apply list_fmap_ext.
  intros j x Hx. unfold as_u32, u32_max in *. apply N.mod_small.
  specialize (E x ltac:(by apply list_elem_of_In, list_elem_of_lookup_2 with j)).
  apply N.leb_le in E. cbn. lia.
Qed.
Lemma from_u64_len l : ov_len (from_u64 l) = length l.
Proof. unfold from_u64. destruct (forallb _ l); [apply length_fmap|done]. Qed.

Lemma at_seq {A} `{Inhabited A} (l : list A) s k : (s + k ≤ length l)%nat →
  at_ l <$> seq s k = take k (drop s l).
Proof.
  intros Hk. apply list_eq_same_length with (n := k); [rewrite length_take, length_drop; lia| |].
  - by rewrite length_fmap, length_seq.
  - intros i x y Hi Hx Hy. rewrite lookup_take_lt, lookup_drop in Hy by done.
    rewrite list_lookup_fmap, lookup_seq_lt in Hx by done. cbn in Hx.
    rewrite (at_lookup _ _ _ Hy) in Hx. congruence.
Qed.

(** The ordinals a row names. *)
Definition row (m : CompiledCompactCscMatrix) (o : nat) : list nat := neighbor m <$> neighbor_range m o.

(** A matrix that can be searched. *)
Record wf (m : CompiledCompactCscMatrix) : Prop := {
  wf_sorted : StronglySorted N.lt (m_vertices m);
  wf_row : ∀ o d, (o < dimension m)%nat → d ∈ row m o → (d < dimension m)%nat }.

Lemma ordinal_spec m v o : wf m → ordinal m v = Some o ↔ m_vertices m !! o = Some v.
Proof. intros Hm. by apply binary_search_spec, wf_sorted. Qed.
Lemma ordinal_lt m v o : wf m → ordinal m v = Some o → (o < dimension m)%nat.
Proof. intros Hm Ho%ordinal_spec; [|done]. by eapply lookup_lt_Some. Qed.

(** The vertices a vertex's row names. *)
Lemma neighbors_row m v : wf m →
  neighbors m v = match ordinal m v with Some o => at_ (m_vertices m) <$> row m o | None => [] end.
Proof.
  intros Hm. unfold neighbors, row. destruct (ordinal m v); [|done]. by rewrite <- list_fmap_compose.
Qed.

(** The edge test agrees with the neighbour list. *)
Lemma contains_neighbors m s d : wf m → compact_contains_edge m s d = true ↔ d ∈ neighbors m s.
Proof.
  intros Hm. rewrite neighbors_row by done. unfold compact_contains_edge.
  destruct (ordinal m s) as [os|] eqn:Es; [|split; [done|set_solver]].
  pose proof (ordinal_lt _ _ _ Hm Es) as Hlt.
  assert (∀ o, (existsb (λ index, (neighbor m index =? o)%nat) (neighbor_range m os) = true) ↔ o ∈ row m os)
    as Hex.
  { intros o. rewrite existsb_exists. unfold row. rewrite list_elem_of_fmap.
    setoid_rewrite Nat.eqb_eq. setoid_rewrite list_elem_of_In. naive_solver. }
  rewrite list_elem_of_fmap. destruct (ordinal m d) as [od|] eqn:Ed.
  - apply ordinal_spec in Ed; [|done]. rewrite Hex. split.
    + intros Hod. exists od. split; [|done]. symmetry. by apply at_lookup.
    + intros (o & -> & Ho). pose proof (wf_row _ Hm _ _ Hlt Ho) as Ho'.
      apply at_some in Ho'. by rewrite (sorted_lookup_inj _ (wf_sorted _ Hm) _ _ _ Ed Ho').
  - split; [done|]. intros (o & -> & Ho). pose proof (wf_row _ Hm _ _ Hlt Ho) as Ho'.
    apply at_some, (ordinal_spec m) in Ho'; [|done]. congruence.
Qed.

(** ** Validated forms *)

Definition csc_ok (vertices : list VertexId) (pointers indices : list N) : Prop :=
  length pointers = S (length vertices) ∧ StronglySorted N.le pointers ∧
  last_or_zero pointers = N.of_nat (length indices) ∧
  (∀ i, i ∈ indices → i < N.of_nat (length vertices)) ∧ StronglySorted N.lt vertices.

Lemma find_none_bound n (l : list N) :
  list_find (λ index, N.of_nat n ≤ index) l = None ↔ ∀ i, i ∈ l → i < N.of_nat n.
Proof. rewrite list_find_None, Forall_forall. setoid_rewrite N.nle_gt. done. Qed.

Ltac check_step :=
  match goal with
  | |- context [if negb ?b then _ else _] => destruct b eqn:?; cbn [negb]; [|done]
  | |- context [if ?b then _ else _] => destruct b eqn:?; [done|]
  end.

Lemma validate_csc_ok c : validate_csc c = Ok () →
  csc_ok (csc_vertices c) (csc_pointers c) (csc_indices c).
Proof.
  unfold validate_csc. cbv zeta. repeat check_step.
  destruct (list_find _ _) as [[]|] eqn:Ef; [done|]. check_step. intros _.
  rewrite find_none_bound in Ef.
  repeat match goal with
  | H : (_ =? _)%nat = true |- _ => apply Nat.eqb_eq in H
  | H : windows_all N.leb _ = true |- _ => apply windows_le in H
  | H : windows_all N.ltb _ = true |- _ => apply windows_lt in H
  end. unfold csc_ok. repeat split; [lia|done|lia|done|done].
Qed.

Lemma validate_compact_ok vs ps ixs : validate_compact_u32_csc vs ps ixs = Ok () → csc_ok vs ps ixs.
Proof.
  unfold validate_compact_u32_csc. repeat check_step.
  destruct (list_find _ _) as [[]|] eqn:Ef; [done|]. check_step. intros _.
  rewrite find_none_bound in Ef.
  repeat match goal with
  | H : (_ =? _)%nat = true |- _ => apply Nat.eqb_eq in H
  | H : windows_all N.leb _ = true |- _ => apply windows_le in H
  | H : windows_all N.ltb _ = true |- _ => apply windows_lt in H
  end. unfold csc_ok. repeat split; [lia|done|lia|done|done].
Qed.

Lemma sorted_at_le l i j : StronglySorted N.le l → (i ≤ j < length l)%nat → at_ l i ≤ at_ l j.
Proof.
  intros Hs. revert i j. induction Hs as [|a l _ IH Ha]; intros i j Hij; [cbn in Hij; lia|].
  destruct i as [|i], j as [|j]; cbn in *; [apply N.le_refl| |lia|].
  - rewrite Forall_forall in Ha. apply Ha. apply list_elem_of_lookup_2 with j, at_some. lia.
  - apply IH. lia.
Qed.

(** The rows of a checked form are slices of its indices. *)
Section rows.
Context (m : CompiledCompactCscMatrix) (ps ixs : list N).
Context (Hp : ∀ i, ov_get (m_pointers m) i = N.to_nat (at_ ps i)).
Context (Hi : ∀ i, ov_get (m_indices m) i = N.to_nat (at_ ixs i)).

Lemma row_slice o s k : N.to_nat (at_ ps o) = s → N.to_nat (at_ ps (S o)) = (s + k)%nat →
  (s + k ≤ length ixs)%nat → row m o = N.to_nat <$> take k (drop s ixs).
Proof.
  intros Hs Hk Hlen. unfold row, neighbor_range, pointer. rewrite !Hp, Hs, Hk.
  replace (s + k - s)%nat with k by lia. rewrite <- at_seq by done.
  rewrite <- list_fmap_compose. apply list_fmap_ext. intros. unfold neighbor. by rewrite Hi.
Qed.

Lemma csc_ok_wf : csc_ok (m_vertices m) ps ixs → wf m.
Proof.
  intros (Hlen & Hle & Hlast & Hbound & Hs). split; [done|].
  unfold dimension. intros o d Ho Hd.
  assert (at_ ps o ≤ at_ ps (S o)) by (apply sorted_at_le; [done|lia]).
  assert (at_ ps (S o) ≤ at_ ps (length (m_vertices m))) by (apply sorted_at_le; [done|lia]).
  rewrite (last_at _ (length (m_vertices m))) in Hlast by done.
  rewrite (row_slice o (N.to_nat (at_ ps o)) (N.to_nat (at_ ps (S o) - at_ ps o))) in Hd by lia.
  apply list_elem_of_fmap in Hd as (x & -> & Hx%elem_of_take).
  destruct Hx as (i & Hx & _). rewrite lookup_drop in Hx.
  apply list_elem_of_lookup_2, Hbound in Hx. lia.
Qed.
End rows.

Lemma from_csc_wf c : validate_csc c = Ok () → wf (from_csc c).
Proof.
  intros Hc. apply (csc_ok_wf _ (csc_pointers c) (csc_indices c)); [apply from_u64_get..|].
  by apply validate_csc_ok.
Qed.

Lemma from_u32_wf vs ps ixs : validate_compact_u32_csc vs ps ixs = Ok () → wf (from_u32_parts vs ps ixs).
Proof.
  intros Hc. apply (csc_ok_wf _ ps ixs); [done..|]. by apply validate_compact_ok.
Qed.

(** * The CSC of an adjacency *)

Definition nbrs (adj : Adjacency) (v : VertexId) : gset VertexId := default ∅ (adj !! v).

Definition vertex_of (adj : Adjacency) (v : VertexId) : Prop :=
  ∃ s ns, adj !! s = Some ns ∧ (v = s ∨ v ∈ ns).

Lemma nbrs_vertex adj v d : d ∈ nbrs adj v → vertex_of adj d.
Proof.
  unfold nbrs. destruct (adj !! v) eqn:Ev; [|by intros ?%not_elem_of_empty].
  unfold vertex_of. eauto.
Qed.

Lemma vertices_fold (l : list (VertexId * gset VertexId)) (acc : gset VertexId) v :
  v ∈ foldl (λ vs p, foldl (λ vs d, {[d]} ∪ vs) ({[p.1]} ∪ vs) (bset_iter p.2)) acc l ↔
  v ∈ acc ∨ ∃ p, p ∈ l ∧ (v = p.1 ∨ v ∈ p.2).
Proof.
  revert acc. induction l as [|p l IH]; intros acc; cbn [foldl].
  { set_solver. }
  rewrite IH, foldl_union_singleton. setoid_rewrite elem_of_cons.
  rewrite !elem_of_union, elem_of_list_to_set, elem_of_bset_iter, elem_of_singleton. naive_solver.
Qed.

Lemma vertices_spec adj vs : graphblas_vertices_from_adjacency adj = Ok vs →
  StronglySorted N.lt vs ∧ ∀ v, v ∈ vs ↔ vertex_of adj v.
Proof.
  unfold graphblas_vertices_from_adjacency. cbv zeta. destruct (_ <? _); [done|]. intros [= <-].
  split; [apply bset_iter_strict|]. intros v. rewrite elem_of_bset_iter, vertices_fold.
  unfold vertex_of. split.
  - intros [?|([s ns] & Hp & Hv)]; [set_solver|]. apply elem_of_btree_iter in Hp. eauto.
  - intros (s & ns & Hs & Hv). right. exists (s, ns). by rewrite elem_of_btree_iter.
Qed.

Section build.
Context (adj : Adjacency) (vs : list VertexId).
Context (Hs : StronglySorted N.lt vs) (Hvs : ∀ v, v ∈ vs ↔ vertex_of adj v).

Definition ord (v : VertexId) : nat := default O (binary_search vs v).

Lemma ord_lookup v : vertex_of adj v → vs !! ord v = Some v.
Proof.
  intros Hv. apply Hvs, (binary_search_elem _ Hs) in Hv as [i Hi]. unfold ord. rewrite Hi.
  by apply binary_search_spec in Hi.
Qed.
Lemma ord_lt v : vertex_of adj v → (ord v < length vs)%nat.
Proof. intros Hv%ord_lookup. by eapply lookup_lt_Some. Qed.
Lemma ord_inj u v : vertex_of adj u → vertex_of adj v → ord u = ord v → u = v.
Proof. intros Hu%ord_lookup Hv%ord_lookup E. rewrite E in Hu. congruence. Qed.
Lemma ordinal_ok v role : vertex_of adj v → csc_vertex_ordinal vs v role = Ok (ord v).
Proof.
  intros Hv. apply Hvs, (binary_search_elem _ Hs) in Hv as [i Hi].
  unfold csc_vertex_ordinal, ord. by rewrite Hi.
Qed.
Lemma source_vertex p : p ∈ btree_iter adj → vertex_of adj p.1.
Proof. destruct p. rewrite elem_of_btree_iter. unfold vertex_of. eauto. Qed.
Lemma target_vertex p d : p ∈ btree_iter adj → d ∈ p.2 → vertex_of adj d.
Proof. destruct p. rewrite elem_of_btree_iter. unfold vertex_of. eauto. Qed.

(** The entries in the order the second pass writes them. *)
Definition row_items (p : VertexId * gset VertexId) : list (nat * N) :=
  (λ d, (ord p.1, N.of_nat (ord d))) <$> bset_iter p.2.
Definition adj_items (l : list (VertexId * gset VertexId)) : list (nat * N) := l ≫= row_items.

Lemma items_bound p : p ∈ adj_items (btree_iter adj) → (p.1 < length vs)%nat.
Proof.
  unfold adj_items, row_items. rewrite list_elem_of_bind. intros (q & Hq & Hin).
  apply list_elem_of_fmap in Hq as (d & -> & _). cbn. by apply ord_lt, source_vertex.
Qed.

Lemma row_bucket p r : bucket (row_items p) r =
  if decide (ord p.1 = r) then (λ d, N.of_nat (ord d)) <$> bset_iter p.2 else [].
Proof.
  unfold row_items, bucket. induction (bset_iter p.2) as [|d l IH]; [by case_decide|].
  rewrite fmap_cons, filter_cons. cbn [fst]. rewrite fmap_cons in *.
  case_decide; cbn; by rewrite IH.
Qed.

(** A row's share of the entries. *)
Lemma items_bucket v : vertex_of adj v →
  bucket (adj_items (btree_iter adj)) (ord v) = (λ d, N.of_nat (ord d)) <$> bset_iter (nbrs adj v).
Proof.
  intros Hv. assert (∀ l, l ⊆ btree_iter adj → NoDup l.*1 →
    bucket (adj_items l) (ord v) =
      match list_find (λ p, p.1 = v) l with
      | Some (_, p) => (λ d, N.of_nat (ord d)) <$> bset_iter p.2
      | None => []
      end) as Hl.
  { induction l as [|p l IH]; intros Hsub Hn; [done|].
    apply NoDup_cons in Hn as [Hp Hn]. unfold adj_items in *.
    rewrite bind_cons, bucket_app, row_bucket, IH by (done || set_solver). cbn [list_find].
    destruct (decide (p.1 = v)) as [<-|Hne].
    - rewrite decide_True by done.
      destruct (list_find (λ q, q.1 = p.1) l) as [[i q]|] eqn:Ef; [|apply app_nil_r].
      apply list_find_Some in Ef as (Hq & E & _). exfalso. apply Hp. rewrite <- E.
      apply list_elem_of_fmap_2. by eapply list_elem_of_lookup_2.
    - rewrite decide_False.
      + by destruct (list_find _ l) as [[i q]|].
      + intros E. apply Hne, ord_inj; [apply source_vertex; set_solver|done|done]. }
  rewrite Hl by (done || apply btree_iter_nodup). unfold nbrs.
  destruct (list_find (λ p, p.1 = v) (btree_iter adj)) as [[i [s ns]]|] eqn:Ef.
  - apply list_find_Some in Ef as (Hq & E & _). cbn in E. subst s.
    apply list_elem_of_lookup_2, elem_of_btree_iter in Hq. by rewrite Hq.
  - apply list_find_None in Ef. rewrite Forall_forall in Ef.
    destruct (adj !! v) eqn:Ev; [|done]. apply elem_of_btree_iter in Ev. by apply Ef in Ev.
Qed.

(** The first pass counts each row. *)
Definition count_row (ps : list N) (p : VertexId * gset VertexId) : list N :=
  bump (S (ord p.1)) (N.of_nat (size p.2)) ps.

Lemma count_all : counts_ok (length vs) (adj_items (btree_iter adj))
  (foldl count_row (replicate (S (length vs)) 0) (btree_iter adj)).
Proof.
  assert (∀ l, l ⊆ btree_iter adj → counts_ok (length vs) (adj_items l)
    (foldl count_row (replicate (S (length vs)) 0) l)) as H; [|by apply H].
  intros l. induction l as [|p l IH] using rev_ind; intros Hsub.
  - cbn [foldl]. split; [apply length_replicate|]. split; [done|].
    intros r Hr. rewrite at_replicate by lia. done.
  - destruct IH as (Hlen & H0 & Hc); [set_solver|]. rewrite foldl_app. cbn [foldl].
    set (cs := foldl count_row _ l) in *. unfold count_row.
    assert (ord p.1 < length vs)%nat by (apply ord_lt, source_vertex; set_solver).
    split; [by rewrite bump_length|]. split; [by rewrite at_bump, decide_False by lia|].
    intros r Hr. rewrite at_bump by lia. rewrite Hc by done.
    unfold adj_items. rewrite bind_app, bind_cons, app_nil_r, bucket_app, length_app, row_bucket.
    destruct (decide (ord p.1 = r)) as [->|Hne].
    + rewrite decide_True, length_fmap, bset_iter_length by done. unfold adj_items. lia.
    + rewrite decide_False by lia. cbn. unfold adj_items. lia.
Qed.

(** Once there is a dictionary, neither pass fails. *)
Lemma build_eq : graphblas_vertices_from_adjacency adj = Ok vs →
  let pointers := prefix_sums (foldl count_row (replicate (S (length vs)) 0) (btree_iter adj)) in
  graphblas_csc_from_adjacency adj = Ok (MkCsc vs pointers
    (foldl (λ st q, place st q.1 q.2)
       (replicate (N.to_nat (last_or_zero pointers)) 0, take (length vs) pointers)
       (adj_items (btree_iter adj))).1).
Proof.
  intros Hv. cbv zeta. unfold graphblas_csc_from_adjacency. rewrite Hv. cbn [mbind result_mbind result_bind].
  rewrite (foldM_total _ count_row).
  2: { intros acc p Hp. rewrite ordinal_ok by (by apply source_vertex). done. }
  cbn [mbind result_mbind result_bind]. cbv zeta.
  rewrite (foldM_total _ (λ st p, foldl (λ st q, place st q.1 q.2) st (row_items p))).
  2: { intros acc p Hp. rewrite ordinal_ok by (by apply source_vertex).
       cbn [mbind result_mbind result_bind]. unfold row_items. rewrite foldl_fmap.
       apply foldM_total. intros acc' d Hd. apply elem_of_bset_iter in Hd.
       rewrite ordinal_ok by (by eapply target_vertex). done. }
  cbn [mbind result_mbind result_bind]. repeat f_equal.
  generalize (btree_iter adj). intros l. match goal with |- _ _ ?st _ = _ => generalize st end.
  induction l as [|p l IH]; intros st; [done|]. cbn [foldl]. rewrite IH.
  unfold adj_items. by rewrite bind_cons, foldl_app.
Qed.

Lemma build_total : graphblas_vertices_from_adjacency adj = Ok vs →
  ∃ c, graphblas_csc_from_adjacency adj = Ok c.
Proof. intros Hv. rewrite (build_eq Hv). by eexists. Qed.

(** The CSC the build returns. *)
Lemma build_rows c :
  graphblas_vertices_from_adjacency adj = Ok vs → graphblas_csc_from_adjacency adj = Ok c →
  csc_vertices c = vs ∧ length (csc_pointers c) = S (length vs) ∧
  length (csc_indices c) = base (adj_items (btree_iter adj)) (length vs) ∧
  (∀ r, (r ≤ length vs)%nat → at_ (csc_pointers c) r = N.of_nat (base (adj_items (btree_iter adj)) r)) ∧
  ∀ r, (r < length vs)%nat →
    take (base (adj_items (btree_iter adj)) (S r) - base (adj_items (btree_iter adj)) r)
      (drop (base (adj_items (btree_iter adj)) r) (csc_indices c)) = bucket (adj_items (btree_iter adj)) r.
Proof.
  intros Hv. rewrite (build_eq Hv). intros [= <-]. cbn [csc_vertices csc_pointers csc_indices].
  pose proof count_all as Hc. set (counts := foldl count_row _ _) in *.
  pose proof (build_spec (length vs) (adj_items (btree_iter adj)) items_bound counts Hc)
    as (Hpl & Hil & Hp & Hr). cbv zeta in *.
  assert (N.to_nat (last_or_zero (prefix_sums counts)) = length (adj_items (btree_iter adj))) as Hlast.
  { rewrite (last_at _ (length vs)), Hp, Nat2N.id by done. apply base_total, items_bound. }
  rewrite Hlast. repeat split; try done. rewrite Hil. symmetry. apply base_total, items_bound.
Qed.
End build.

(** Every position below the total is in a row. *)
Lemma base_cover items n i : (i < base items n)%nat →
  ∃ r, (r < n)%nat ∧ (base items r ≤ i < base items (S r))%nat.
Proof.
  induction n as [|n IH]; cbn [base]; intros Hi; [lia|].
  destruct (decide (i < base items n)%nat) as [H|H].
  - destruct (IH H) as (r & Hr & Hb). exists r. split; [lia|done].
  - exists n. split; [lia|]. cbn [base]. lia.
Qed.

Lemma at_step_sorted (l : list N) :
  (∀ i, (S i < length l)%nat → at_ l i ≤ at_ l (S i)) → StronglySorted N.le l.
Proof.
  intros Hl. apply Sorted_StronglySorted; [intros ???; lia|].
  induction l as [|a l IH]; constructor.
  - apply IH. intros i Hi. apply (Hl (S i)). cbn. lia.
  - destruct l as [|b l]; constructor. apply (Hl 0%nat). cbn. lia.
Qed.

Lemma base_sorted items n ps : length ps = S n →
  (∀ r, (r ≤ n)%nat → at_ ps r = N.of_nat (base items r)) → StronglySorted N.le ps.
Proof.
  intros Hlen Hps. apply at_step_sorted. intros i Hi. rewrite !Hps by lia.
  pose proof (base_mono items i (S i)). lia.
Qed.

(** ** What the build stores *)

(** [c] is the CSC of [adj]: its dictionary and its rows. *)
Record csc_of (adj : Adjacency) (c : GraphBlasCsc) : Prop := {
  co_sorted : StronglySorted N.lt (csc_vertices c);
  co_vertices : ∀ v, v ∈ csc_vertices c ↔ vertex_of adj v;
  co_valid : validate_csc c = Ok ();
  co_range : ∀ r v, csc_vertices c !! r = Some v →
    get_range (csc_indices c) (N.to_nat (at_ (csc_pointers c) r)) (N.to_nat (at_ (csc_pointers c) (S r)))
    = Some ((λ d, N.of_nat (ord (csc_vertices c) d)) <$> bset_iter (nbrs adj v)) }.

Lemma get_range_take {A} (l : list A) s e : (s ≤ e ≤ length l)%nat →
  get_range l s e = Some (take (e - s) (drop s l)).
Proof.
  intros [H1 H2]. unfold get_range.
  by rewrite (proj2 (Nat.leb_le _ _) H1), (proj2 (Nat.leb_le _ _) H2).
Qed.

Lemma validate_intro c : (N.of_nat (length (csc_vertices c)) ≤ GRAPHBLAS_INDEX_MAX) →
  csc_ok (csc_vertices c) (csc_pointers c) (csc_indices c) → at_ (csc_pointers c) 0 = 0 →
  validate_csc c = Ok ().
Proof.
  intros Hmax (Hlen & Hle & Hlast & Hb & Hs) H0. unfold validate_csc. cbv zeta.
  rewrite (proj2 (N.ltb_ge _ _) Hmax).
  replace (length (csc_pointers c) =? length (csc_vertices c) + 1)%nat with true
    by (symmetry; apply Nat.eqb_eq; lia). cbn [negb].
  rewrite bool_decide_eq_true_2.
  2: { rewrite head_lookup, at_some by lia. by rewrite H0. }
  rewrite (proj2 (windows_le _) Hle). cbn [negb].
  rewrite Hlast, Nat2N.id, Nat.eqb_refl. cbn [negb].
  rewrite (proj2 (find_none_bound _ _) Hb), (proj2 (windows_lt _) Hs). done.
Qed.

Lemma build_csc_of adj c : graphblas_csc_from_adjacency adj = Ok c → csc_of adj c.
Proof.
  intros Hc. destruct (graphblas_vertices_from_adjacency adj) as [vs|] eqn:Hv;
    [|unfold graphblas_csc_from_adjacency in Hc; by rewrite Hv in Hc].
  pose proof (vertices_spec _ _ Hv) as [Hs Hvs].
  destruct (build_rows adj vs Hs Hvs c Hv Hc) as (E & Hpl & Hil & Hp & Hr).
  set (items := adj_items vs (btree_iter adj)) in *.
  assert (∀ r v, vs !! r = Some v →
    bucket items r = (λ d, N.of_nat (ord vs d)) <$> bset_iter (nbrs adj v)) as Hbucket.
  { intros r v Hrv. assert (vertex_of adj v) as Hvv by (apply Hvs; by eapply list_elem_of_lookup_2).
    rewrite <- items_bucket by done. f_equal.
    pose proof (ord_lookup adj vs Hs Hvs v Hvv). by eapply sorted_lookup_inj. }
  split; rewrite ?E; try done.
  - apply validate_intro; rewrite ?E.
    + unfold graphblas_vertices_from_adjacency in Hv. cbv zeta in Hv.
      destruct (N.ltb_spec GRAPHBLAS_INDEX_MAX
        (N.of_nat (size (foldl (λ vs p, foldl (λ vs d, {[d]} ∪ vs) ({[p.1]} ∪ vs) (bset_iter p.2))
                    (∅ : gset VertexId) (btree_iter adj))))); [done|].
      injection Hv as <-. by rewrite bset_iter_length.
    + repeat split; [done|by eapply base_sorted| | |done].
      * by rewrite (last_at _ (length vs)), Hp, Hil.
      * intros i [j Hj]%list_elem_of_lookup. pose proof (lookup_lt_Some _ _ _ Hj) as Hlt.
        rewrite Hil in Hlt. apply base_cover in Hlt as (r & Hrn & Hb).
        destruct (lookup_lt_is_Some_2 vs r Hrn) as [v Hrv].
        assert (i ∈ bucket items r) as Hin.
        { rewrite <- Hr by done. apply elem_of_take. exists (j - base items r)%nat.
          rewrite lookup_drop. replace (base items r + (j - base items r))%nat with j by lia.
          split; [done|lia]. }
        rewrite (Hbucket r v) in Hin by done. apply list_elem_of_fmap in Hin as (d & -> & Hd%elem_of_bset_iter).
        assert (vertex_of adj d) as Hdv.
        { unfold nbrs in Hd. destruct (adj !! v) eqn:Ev; [|set_solver]. unfold vertex_of. eauto. }
        pose proof (ord_lt adj vs Hs Hvs d Hdv). lia.
    + by rewrite Hp by lia.
  - intros r v Hrv. pose proof (lookup_lt_Some _ _ _ Hrv) as Hlt.
    rewrite !Hp, !Nat2N.id by lia. rewrite get_range_take.
    + by rewrite Hr, (Hbucket r v) by done.
    + rewrite Hil. split; apply base_mono; lia.
Qed.

(** ** Reading the rows back *)

Section read.
Context (adj : Adjacency) (c : GraphBlasCsc) (Hc : csc_of adj c).

Lemma csc_vertex_of r v : csc_vertices c !! r = Some v → vertex_of adj v.
Proof. intros Hr. apply (co_vertices _ _ Hc). by eapply list_elem_of_lookup_2. Qed.

Lemma row_of r v : csc_vertices c !! r = Some v →
  row (from_csc c) r = ord (csc_vertices c) <$> bset_iter (nbrs adj v).
Proof.
  intros Hr. pose proof (co_range _ _ Hc r v Hr) as Hrange. unfold get_range in Hrange.
  destruct (_ <=? _)%nat eqn:E1; [|done]. destruct (_ <=? length _)%nat eqn:E2; [|done].
  apply Nat.leb_le in E1, E2. injection Hrange as Hrange.
  rewrite (row_slice (from_csc c) (csc_pointers c) (csc_indices c) (from_u64_get _) (from_u64_get _) r _
             (N.to_nat (at_ (csc_pointers c) (S r)) - N.to_nat (at_ (csc_pointers c) r)) eq_refl) by lia.
  rewrite Hrange, <- list_fmap_compose. apply list_fmap_ext. intros. cbn. lia.
Qed.

(** Reading one vertex's row: only vertices with neighbours are stored. *)
Definition store_row (acc : Adjacency) (v : VertexId) : Adjacency :=
  if bool_decide (nbrs adj v = ∅) then acc else <[v := nbrs adj v]> acc.

Lemma add_row_ok r v acc : csc_vertices c !! r = Some v →
  add_row c acc (r, v) = Ok (store_row acc v).
Proof.
  intros Hr. unfold add_row, store_row. rewrite (co_range _ _ Hc r v Hr). cbn [ok_or mbind result_mbind result_bind].
  assert (foldM (λ ns d, v ← destination_vertex c d; Ok ({[v]} ∪ ns)) (∅ : gset VertexId)
    ((λ d, N.of_nat (ord (csc_vertices c) d)) <$> bset_iter (nbrs adj v)) = Ok (nbrs adj v)) as Hns.
  { rewrite foldM_fmap, (foldM_total _ (λ ns d, {[d]} ∪ ns)).
    - f_equal. rewrite foldl_union_singleton. apply set_eq. intros x.
      rewrite elem_of_union, elem_of_list_to_set, elem_of_bset_iter. set_solver.
    - intros ns d Hd%elem_of_bset_iter%nbrs_vertex. unfold destination_vertex.
      rewrite Nat2N.id, (ord_lookup adj _ (co_sorted _ _ Hc) (co_vertices _ _ Hc)) by done. done. }
  destruct (bset_iter (nbrs adj v)) as [|d l] eqn:Es; cbn [fmap list_fmap].
  - rewrite bool_decide_eq_true_2; [done|]. apply set_eq. intros x.
    rewrite <- elem_of_bset_iter, Es. set_solver.
  - rewrite bool_decide_eq_false_2.
    + cbn [fmap list_fmap] in Hns. by rewrite Hns.
    + intros E. assert (d ∈ nbrs adj v) as Hd by (rewrite <- elem_of_bset_iter, Es; set_solver).
      rewrite E in Hd. set_solver.
Qed.

Lemma read_fold l acc k :
  foldl store_row acc l !! k
  = if bool_decide (k ∈ l) && negb (bool_decide (nbrs adj k = ∅)) then Some (nbrs adj k) else acc !! k.
Proof.
  revert acc. induction l as [|v l IH]; intros acc; [done|]. cbn [foldl]. rewrite IH.
  unfold store_row. destruct (decide (k = v)) as [->|Hne].
  - rewrite (bool_decide_eq_true_2 (v ∈ v :: l)) by set_solver.
    destruct (bool_decide (nbrs adj v = ∅)); rewrite ?andb_false_r, ?andb_true_r; cbn; [done|].
    rewrite lookup_insert_eq. by destruct (bool_decide (v ∈ l)).
  - rewrite (bool_decide_ext (k ∈ v :: l) (k ∈ l)) by set_solver.
    destruct (bool_decide (k ∈ l) && _); [done|].
    destruct (bool_decide (nbrs adj v = ∅)); [done|]. by rewrite lookup_insert_ne.
Qed.

Lemma foldl_imap_pair {A B} (g : B → A → B) (f : nat → nat) acc l :
  foldl (λ a p, g a p.2) acc (imap (λ i x, (f i, x)) l) = foldl g acc l.
Proof. revert f acc. induction l as [|x l IH]; intros f acc; [done|]. apply (IH (f ∘ S)). Qed.

Lemma to_adjacency_of : to_adjacency c = Ok (filter (λ p, p.2 ≠ ∅) adj).
Proof.
  unfold to_adjacency. pose proof (validate_csc_ok _ (co_valid _ _ Hc)) as (-> & _).
  rewrite Nat.eqb_refl. cbn [negb].
  rewrite (foldM_total _ (λ acc p, store_row acc p.2)).
  2: { intros acc [r v] Hp. apply add_row_ok.
       apply list_elem_of_lookup in Hp as [i Hi]. rewrite list_lookup_imap in Hi.
       apply fmap_Some in Hi as (v' & Hv' & [= -> ->]). done. }
  f_equal. trans (foldl store_row ∅ (csc_vertices c)); [apply (foldl_imap_pair store_row id)|].
  apply map_eq. intros k. rewrite read_fold, lookup_empty.
  assert (nbrs adj k ≠ ∅ → k ∈ csc_vertices c) as Hk.
  { intros Hne. apply (co_vertices _ _ Hc). unfold nbrs in Hne.
    destruct (adj !! k) eqn:E; [|done]. unfold vertex_of. eauto. }
  destruct (adj !! k) as [ns|] eqn:E.
  - assert (nbrs adj k = ns) as Hns by (unfold nbrs; by rewrite E). rewrite Hns in *.
    destruct (decide (ns = ∅)) as [Hempty|Hne].
    + rewrite (bool_decide_eq_true_2 (ns = ∅)), andb_false_r by done. symmetry.
      apply map_lookup_filter_None. right. intros x Hx. rewrite E in Hx. injection Hx as <-. cbn. tauto.
    + rewrite (bool_decide_eq_true_2 (k ∈ _)), (bool_decide_eq_false_2 (ns = ∅)) by auto. cbn.
      symmetry. by apply map_lookup_filter_Some.
  - assert (nbrs adj k = ∅) as -> by (unfold nbrs; by rewrite E).
    rewrite (bool_decide_eq_true_2 (∅ = ∅)), andb_false_r by done. symmetry.
    apply map_lookup_filter_None. by left.
Qed.

Lemma neighbors_of v : neighbors (from_csc c) v = bset_iter (nbrs adj v).
Proof.
  pose proof (from_csc_wf c (co_valid _ _ Hc)) as Hm. rewrite neighbors_row by done.
  destruct (ordinal (from_csc c) v) as [o|] eqn:Eo.
  - apply ordinal_spec in Eo; [|done]. rewrite (row_of o v), <- list_fmap_compose by done.
    rewrite <- (list_fmap_id (bset_iter _)) at 2. apply list_fmap_ext.
    intros i d Hd. cbn. apply at_lookup.
    apply (ord_lookup adj _ (co_sorted _ _ Hc) (co_vertices _ _ Hc)).
    apply (nbrs_vertex adj v), elem_of_bset_iter. by eapply list_elem_of_lookup_2.
  - assert (nbrs adj v = ∅) as ->; [|done].
    destruct (decide (nbrs adj v = ∅)) as [|Hne]; [done|]. exfalso.
    assert (vertex_of adj v) as Hv.
    { unfold nbrs in Hne. destruct (adj !! v) eqn:E; [|done]. unfold vertex_of. eauto. }
    apply (co_vertices _ _ Hc), (binary_search_elem _ (co_sorted _ _ Hc)) in Hv as [i Hi].
    unfold ordinal in Eo. cbn [from_csc m_vertices] in Eo. congruence.
Qed.
End read.

(** * The transpose *)

(** The rows tile the indices. *)
Record tiled (m : CompiledCompactCscMatrix) : Prop := {
  ti_first : pointer m 0 = 0%nat;
  ti_step : ∀ o, (o < dimension m)%nat → (pointer m o ≤ pointer m (S o))%nat;
  ti_last : pointer m (dimension m) = ov_len (m_indices m) }.

Lemma from_csc_tiled c : validate_csc c = Ok () → tiled (from_csc c).
Proof.
  intros Hv. pose proof (validate_csc_ok c Hv) as (Hlen & Hle & Hlast & _).
  split; unfold pointer, dimension, from_csc; cbn [m_pointers m_vertices m_indices].
  - unfold validate_csc in Hv. cbv zeta in Hv. revert Hv. do 2 (check_step).
    case_bool_decide as Hh; [|done]. intros _. rewrite from_u64_get. rewrite head_lookup in Hh. by rewrite (at_lookup _ _ _ Hh).
  - intros o Ho. pose proof (sorted_at_le (csc_pointers c) o (S o) Hle ltac:(lia)).
    rewrite !from_u64_get. lia.
  - rewrite from_u64_get, from_u64_len, <- (last_at _ _ Hlen), Hlast. lia.
Qed.

Section transpose.
Context (m : CompiledCompactCscMatrix) (Hw : wf m) (Ht : tiled m).

Definition row_entries (src : nat) : list (nat * N) :=
  (λ index, (neighbor m index, N.of_nat src)) <$> neighbor_range m src.
Definition entries_of (srcs : list nat) : list (nat * N) := srcs ≫= row_entries.

Lemma tiling k : (k ≤ dimension m)%nat → seq 0 k ≫= neighbor_range m = seq 0 (pointer m k).
Proof.
  induction k as [|k IH]; intros Hk; [by rewrite ti_first|].
  rewrite seq_S, bind_app, IH by lia. cbn [Nat.add]. rewrite bind_cons, app_nil_r.
  unfold neighbor_range. pose proof (ti_step m Ht k ltac:(lia)).
  replace (pointer m (S k)) with (pointer m k + (pointer m (S k) - pointer m k))%nat at 2 by lia.
  by rewrite seq_app.
Qed.

Lemma entries_neighbors l : (entries_of l).*1 = neighbor m <$> (l ≫= neighbor_range m).
Proof.
  unfold entries_of. induction l as [|s l IH]; [done|].
  rewrite !bind_cons, !fmap_app, IH. f_equal. unfold row_entries. by rewrite <- list_fmap_compose.
Qed.

Lemma entries_bound p : p ∈ entries_of (seq 0 (dimension m)) → (p.1 < dimension m)%nat.
Proof.
  unfold entries_of, row_entries. rewrite list_elem_of_bind. intros (s & Hp & Hs).
  rewrite elem_of_seq in Hs. apply list_elem_of_fmap in Hp as (i & -> & Hi). cbn.
  apply (wf_row m Hw s); [lia|]. unfold row. by apply list_elem_of_fmap_2.
Qed.

(** Counting one at a time. *)
Lemma count_each n its : (∀ p, p ∈ its → (p.1 < n)%nat) →
  counts_ok n its (foldl (λ ps r, bump (S r) 1 ps) (replicate (S n) 0) its.*1).
Proof.
  induction its as [|[r v] its IH] using rev_ind; intros Hb.
  - split; [apply length_replicate|]. split; [done|].
    intros r Hr. cbn [foldl fmap list_fmap]. by rewrite at_replicate by lia.
  - destruct IH as (Hlen & H0 & Hc); [set_solver|]. rewrite fmap_app, foldl_app. cbn [foldl fmap list_fmap fst].
    set (cs := foldl _ _ _) in *. assert (r < n)%nat by (apply (Hb (r, v)); set_solver).
    split; [by rewrite bump_length|]. split; [by rewrite at_bump, decide_False by lia|].
    intros r' Hr'. rewrite at_bump by lia. rewrite Hc, bucket_app, length_app, bucket_one by done.
    destruct (decide (r = r')) as [->|Hne].
    + rewrite decide_True by done. cbn. lia.
    + rewrite decide_False by lia. cbn. lia.
Qed.

(** A row of the transpose lists the sources whose row names it. *)
Lemma transpose_row r : (r < dimension m)%nat → (∀ o, (o < dimension m)%nat → NoDup (row m o)) →
  row (transpose m) r = filter (λ src, r ∈ row m src) (seq 0 (dimension m)).
Proof.
  intros Hr Hn. unfold transpose. cbv zeta.
  set (items := entries_of (seq 0 (dimension m))).
  assert (neighbor m <$> seq 0 (ov_len (m_indices m)) = items.*1) as Hits.
  { unfold items. by rewrite entries_neighbors, tiling, ti_last. }
  assert (ov_len (m_indices m) = length items) as Hlen.
  { rewrite <- (length_fmap fst items), <- Hits, length_fmap. by rewrite length_seq. }
  assert (foldl (λ ps index, bump (S (neighbor m index)) 1 ps) (replicate (S (dimension m)) 0)
    (seq 0 (ov_len (m_indices m))) = foldl (λ ps r, bump (S r) 1 ps) (replicate (S (dimension m)) 0) items.*1)
    as ->.
  { rewrite <- Hits. by rewrite foldl_fmap. }
  assert (∀ l st, foldl (λ st src, foldl (λ st index, place st (neighbor m index) (N.of_nat src)) st
    (neighbor_range m src)) st l = foldl (λ st p, place st p.1 p.2) st (entries_of l)) as Hfold.
  { induction l as [|s l IH]; intros st; [done|]. cbn [foldl]. rewrite IH. unfold entries_of.
    rewrite bind_cons, foldl_app. f_equal. unfold row_entries. by rewrite foldl_fmap. }
  rewrite Hfold. fold items. clear Hfold. rewrite Hlen.
  pose proof (build_spec (dimension m) items entries_bound _ (count_each _ items entries_bound))
    as (Hpl & Hil & Hp & Hrow). cbv zeta in *.
  set (cs := foldl _ (replicate (S (dimension m)) 0) items.*1) in *. set (ps := prefix_sums cs) in *.
  set (st := foldl _ (_, _) items) in *.
  rewrite (row_slice (MkCompact _ (from_u64 ps) (from_u64 st.1)) ps st.1 (from_u64_get _) (from_u64_get _) r (base items r)
             (base items (S r) - base items r)).
  - rewrite Hrow by done. unfold items, entries_of. assert (∀ s, s ∈ seq 0 (dimension m) → (s < dimension m)%nat) as Hl.
    { intros s. rewrite elem_of_seq. lia. }
    revert Hl. generalize (seq 0 (dimension m)). intros l Hl.
    induction l as [|s l IH]; [done|].
    rewrite bind_cons, bucket_app, fmap_app, filter_cons, IH by set_solver.
    assert (bucket (row_entries s) r = if decide (r ∈ row m s) then [N.of_nat s] else []) as ->.
    { unfold row_entries. specialize (Hn s (Hl s ltac:(set_solver))). unfold row in *.
      induction (neighbor_range m s) as [|i is_ IHi]; [done|].
      apply NoDup_cons in Hn as [Hi Hn]. rewrite fmap_cons.
      change ((neighbor m i, N.of_nat s) :: ?x) with ([(neighbor m i, N.of_nat s)] ++ x).
      rewrite bucket_app, bucket_one, IHi by done.
      destruct (decide (neighbor m i = r)) as [<-|Hne].
      - rewrite decide_False, decide_True by set_solver. done.
      - destruct (decide (r ∈ neighbor m <$> is_)).
        + rewrite decide_True by set_solver. done.
        + rewrite decide_False by set_solver. done. }
    case_decide; cbn; [by rewrite Nat2N.id|done].
  - rewrite Hp, Nat2N.id by lia. done.
  - rewrite Hp, Nat2N.id by lia. pose proof (base_mono items r (S r)). lia.
  - pose proof (base_mono items r (S r)). pose proof (base_mono items (S r) (dimension m)).
    pose proof (base_total (dimension m) items entries_bound). lia.
Qed.
End transpose.

Section reverse.
Context (adj : Adjacency) (c : GraphBlasCsc) (Hc : csc_of adj c).

Definition sources (v : VertexId) : gset VertexId := dom (filter (λ p, v ∈ p.2) adj).

Lemma elem_of_sources v s : s ∈ sources v ↔ v ∈ nbrs adj s.
Proof.
  unfold sources, nbrs. rewrite elem_of_dom. unfold is_Some. setoid_rewrite map_lookup_filter_Some. cbn.
  destruct (adj !! s); cbn; [naive_solver|]. split; [naive_solver|set_solver].
Qed.

Lemma rows_nodup o : (o < dimension (from_csc c))%nat → NoDup (row (from_csc c) o).
Proof.
  intros Ho. destruct (lookup_lt_is_Some_2 _ _ Ho) as [v Hv].
  rewrite (row_of adj c Hc o v Hv). apply NoDup_fmap_2_strong; [|apply bset_iter_nodup].
  intros x y Hx%elem_of_bset_iter%nbrs_vertex Hy%elem_of_bset_iter%nbrs_vertex.
  by apply (ord_inj adj _ (co_sorted _ _ Hc) (co_vertices _ _ Hc)).
Qed.

Lemma transpose_row_of v o : ordinal (from_csc c) v = Some o →
  row (transpose (from_csc c)) o = filter (λ s, o ∈ row (from_csc c) s) (seq 0 (dimension (from_csc c))).
Proof.
  intros Ho. pose proof (from_csc_wf c (co_valid _ _ Hc)) as Hm. apply transpose_row.
  - done.
  - apply from_csc_tiled, (co_valid _ _ Hc).
  - by eapply ordinal_lt.
  - intros s. apply rows_nodup.
Qed.

Lemma transpose_wf : wf (transpose (from_csc c)).
Proof.
  pose proof (from_csc_wf c (co_valid _ _ Hc)) as Hm. split; [apply (wf_sorted _ Hm)|].
  intros o d Ho. destruct (lookup_lt_is_Some_2 (csc_vertices c) o Ho) as [v Hv].
  rewrite (transpose_row_of v o) by (by apply (ordinal_spec (from_csc c) v o Hm)).
  intros [_ Hd]%list_elem_of_filter. rewrite elem_of_seq in Hd. unfold dimension in *. cbn in *. lia.
Qed.

Lemma at_sorted_map l : StronglySorted lt l → (∀ o, o ∈ l → (o < length (csc_vertices c))%nat) →
  StronglySorted N.lt (at_ (csc_vertices c) <$> l).
Proof.
  induction 1 as [|o l _ IH Ho]; intros Hl; [constructor|].
  cbn [fmap list_fmap]. constructor; [apply IH; set_solver|].
  apply Forall_fmap, Forall_forall. intros o' Ho'. rewrite Forall_forall in Ho. cbn.
  apply (sorted_lookup_lt _ (co_sorted _ _ Hc) o o'); [apply at_some; set_solver..|by apply Ho].
Qed.


Lemma in_neighbors_of v : neighbors (transpose (from_csc c)) v = bset_iter (sources v).
Proof.
  pose proof (from_csc_wf c (co_valid _ _ Hc)) as Hm.
  rewrite neighbors_row by apply transpose_wf.
  change (ordinal (transpose (from_csc c)) v) with (ordinal (from_csc c) v).
  destruct (ordinal (from_csc c) v) as [o|] eqn:Eo.
  - rewrite (transpose_row_of v o Eo). cbn [transpose m_vertices from_csc].
    pose proof Eo as Ho. apply ordinal_spec in Ho; [|done].
    apply strict_ext; [|apply bset_iter_strict|].
    + apply at_sorted_map; [apply StronglySorted_filter, seq_sorted|].
      intros s [_ Hs]%list_elem_of_filter. rewrite elem_of_seq in Hs. unfold dimension in Hs. cbn in Hs. lia.
    + intros u. rewrite elem_of_bset_iter, elem_of_sources, list_elem_of_fmap.
      setoid_rewrite list_elem_of_filter. setoid_rewrite elem_of_seq. split.
      * intros (s & -> & Hin & Hs). destruct (lookup_lt_is_Some_2 (csc_vertices c) s) as [u Hu].
        { unfold dimension in Hs. cbn in Hs. lia. }
        rewrite (at_lookup _ _ _ Hu). rewrite (row_of adj c Hc s u Hu) in Hin.
        apply list_elem_of_fmap in Hin as (d & Ed & Hd%elem_of_bset_iter).
        pose proof (ord_lookup adj _ (co_sorted _ _ Hc) (co_vertices _ _ Hc) d (nbrs_vertex adj u d Hd)) as Hod.
        rewrite <- Ed in Hod. cbn in Ho. congruence.
      * intros Hv. assert (vertex_of adj u) as Hu.
        { unfold nbrs in Hv. destruct (adj !! u) eqn:E; [|set_solver]. unfold vertex_of. eauto. }
        pose proof (ord_lookup adj _ (co_sorted _ _ Hc) (co_vertices _ _ Hc) u Hu) as Hou.
        exists (ord (csc_vertices c) u). split; [by rewrite (at_lookup _ _ _ Hou)|]. split.
        -- rewrite (row_of adj c Hc _ u Hou). apply list_elem_of_fmap. exists v.
           split; [|by apply elem_of_bset_iter]. cbn in Ho.
           eapply sorted_lookup_inj; [apply (co_sorted _ _ Hc)|exact Ho|].
           apply (ord_lookup adj _ (co_sorted _ _ Hc) (co_vertices _ _ Hc)). by eapply nbrs_vertex.
        -- apply lookup_lt_Some in Hou. unfold dimension. cbn. lia.
  - symmetry. assert (sources v = ∅) as ->; [|done]. apply set_eq. intros u. rewrite elem_of_sources.
    split; [|set_solver]. intros Hv%nbrs_vertex. exfalso.
    apply (co_vertices _ _ Hc), (binary_search_elem _ (co_sorted _ _ Hc)) in Hv as [i Hi].
    unfold ordinal in Eo. cbn [from_csc m_vertices] in Eo. congruence.
Qed.
End reverse.

Lemma degree_row m o : degree m o = N.of_nat (length (row m o)).
Proof. unfold degree, row, neighbor_range. by rewrite length_fmap, length_seq. Qed.

Lemma vertex_degree_neighbors m v : vertex_degree m v = N.of_nat (length (neighbors m v)).
Proof.
  unfold vertex_degree, neighbors. destruct (ordinal m v); [|done].
  rewrite degree_row. unfold row. by rewrite !length_fmap.
Qed.

Lemma intersecting_neighbors m v allowed :
  neighbors_intersecting m v allowed = filter (λ u, u ∈ allowed) (neighbors m v).
Proof. unfold neighbors_intersecting, neighbors. by destruct (ordinal m v). Qed.

(** Every compiled form starts from the canonical CSC. *)
Lemma compile_canonical build_native adj kernel c : compile_new build_native adj kernel = Ok c →
  ∃ csc, graphblas_csc_from_adjacency adj = Ok csc ∧ canonical_out c = from_csc csc.
Proof.
  unfold compile_new. intros (csc & Hcsc & Hn)%bind_ok. exists csc. split; [done|].
  unfold new_from_csc in Hn. apply bind_ok in Hn as ([] & _ & Hn). cbv zeta in Hn.
  case_bool_decide; [by injection Hn as <-|]. apply bind_ok in Hn as ([] & _ & Hn). by injection Hn as <-.
Qed.

Lemma new_from_csc_wf build_native csc kernel c :
  new_from_csc build_native csc kernel = Ok c → wf (canonical_out c).
Proof.
  unfold new_from_csc. intros ([] & Hv & Hn)%bind_ok. cbv zeta in Hn.
  case_bool_decide.
  - injection Hn as <-. by apply from_csc_wf.
  - apply bind_ok in Hn as ([] & _ & Hn). injection Hn as <-. by apply from_csc_wf.
Qed.

(** * Claims *)

(** The CSC form of an adjacency loses nothing but rows without neighbours.
    Building it fails only when there are more vertices than GraphBLAS indexes;
    otherwise its dictionary is, ascending, every source and every neighbour, it
    passes its own validation, and reading it back gives the adjacency without
    its empty rows. *)
Theorem csc_roundtrip (adj : Adjacency) :
  match graphblas_csc_from_adjacency adj with
  | Ok c => StronglySorted N.lt (csc_vertices c) ∧ (∀ v, v ∈ csc_vertices c ↔ vertex_of adj v) ∧
            validate_csc c = Ok () ∧ to_adjacency c = Ok (filter (λ p, p.2 ≠ ∅) adj)
  | Err e => ∃ vs : gset VertexId, (∀ v, v ∈ vs → vertex_of adj v) ∧
            GRAPHBLAS_INDEX_MAX < N.of_nat (size vs) ∧ e = suite_error (limit_reason (size vs))
  end.
Proof.
  destruct (graphblas_csc_from_adjacency adj) as [c|e] eqn:Hc.
  - pose proof (build_csc_of adj c Hc) as H. split; [apply H|]. split; [apply H|].
    split; [apply H|]. by apply to_adjacency_of.
  - destruct (graphblas_vertices_from_adjacency adj) as [vs|e'] eqn:Hv.
    + exfalso. pose proof (vertices_spec adj vs Hv) as [Hs Hvs].
      destruct (build_total adj vs Hs Hvs Hv) as [c Hc']. congruence.
    + unfold graphblas_csc_from_adjacency in Hc. rewrite Hv in Hc. injection Hc as <-.
      unfold graphblas_vertices_from_adjacency in Hv. cbv zeta in Hv.
      set (s := foldl _ _ _) in Hv. destruct (N.ltb_spec GRAPHBLAS_INDEX_MAX (N.of_nat (size s))); [|done].
      injection Hv as <-. exists s. split; [|done]. unfold s. intros v [?|([u ns] & Hp & Hv)]%vertices_fold.
      * set_solver.
      * apply elem_of_btree_iter in Hp. unfold vertex_of. eauto.
Qed.

(** A compiled matrix answers every neighbourhood question as the adjacency
    it was compiled from.  Whichever kernel it is compiled for, the edge test is
    membership in a vertex's neighbours; the out-neighbours are its neighbours,
    ascending; the in-neighbours, read from the transpose, are exactly the
    vertices it is a neighbour of, ascending; the degrees are their numbers; and
    the intersections keep what is allowed. *)
Theorem compiled_matrix_exact (build_native : GraphBlasCsc → Result ()) (adj : Adjacency)
  (kernel : SparseKernelBackend) (c : CompiledGraphBlasMatrix)
  (Hc : compile_new build_native adj kernel = Ok c) :
  (∀ s d, contains_edge c s d = bool_decide (d ∈ nbrs adj s)) ∧
  (∀ v, out_neighbors c v = bset_iter (nbrs adj v) ∧ in_neighbors c v = bset_iter (sources adj v)) ∧
  (∀ v u, u ∈ sources adj v ↔ v ∈ nbrs adj u) ∧
  (∀ v, out_degree c v = N.of_nat (size (nbrs adj v)) ∧ in_degree c v = N.of_nat (size (sources adj v))) ∧
  (∀ v allowed, out_neighbors_intersecting c v allowed = filter (λ u, u ∈ allowed) (bset_iter (nbrs adj v)) ∧
     in_neighbors_intersecting c v allowed = filter (λ u, u ∈ allowed) (bset_iter (sources adj v))).
Proof.
  destruct (compile_canonical _ _ _ _ Hc) as (csc & Hcsc & Ho). pose proof (build_csc_of adj csc Hcsc) as H.
  unfold contains_edge, out_neighbors, in_neighbors, out_degree, in_degree,
    out_neighbors_intersecting, in_neighbors_intersecting. rewrite Ho.
  split; [|split; [|split; [|split]]].
  - intros s d. apply eq_bool_prop_intro. rewrite bool_decide_spec, Is_true_true.
    rewrite contains_neighbors by (by apply from_csc_wf, (co_valid _ _ H)).
    by rewrite (neighbors_of adj csc H), elem_of_bset_iter.
  - intros v. split; [by apply neighbors_of|by apply in_neighbors_of].
  - intros v u. by apply (elem_of_sources adj csc).
  - intros v. rewrite !vertex_degree_neighbors, (neighbors_of adj csc H), (in_neighbors_of adj csc H).
    by rewrite !bset_iter_length.
  - intros v allowed. rewrite !intersecting_neighbors, (neighbors_of adj csc H), (in_neighbors_of adj csc H).
    done.
Qed.

Definition diamond : Adjacency := {[ 1 := {[2; 3]}; 2 := {[3]} ]}.

Lemma compiled_matrix_exact_witness :
  ∃ c, compile_new (λ _, Ok ()) diamond CompactCsc = Ok c ∧ in_neighbors c 3 = [1; 2].
Proof.
  destruct (compile_new (λ _, Ok ()) diamond CompactCsc) as [c|] eqn:E; [|discriminate E].
  exists c. split; [done|].
  pose proof (compiled_matrix_exact (λ _, Ok ()) diamond CompactCsc c E) as (_ & H & _).
  destruct (H 3) as [_ ->]. vm_compute. done.
Defined.
