(* ===== verification/SparseSearch.v ===== *)
(** [Sparse]: the searches over a compiled matrix return exactly the vertices
    that walks of the asked lengths reach, and the adjacency kernel agrees. *)

From stdpp Require Import relations.
From S2P Require Import Prelude Text Errors Model Sparse SparseFacts SparseBuild.

Local Open Scope N_scope.

Import sparse.

(** * Breadth-first search

    The two fixed-hop searches keep the set [seen] of what was reached and the
    [frontier] whose successors were not looked at yet. *)

Lemma nsteps_first {A} (R : relation A) n x z : nsteps R (S n) x z → ∃ y, R x y ∧ nsteps R n y z.
Proof. inversion 1; subst. eauto. Qed.

Section bfs.
Context {A : Type} (R : relation A) (start : A → Prop).

(** Reached by a walk of at most [k] steps. *)
Definition reach (k : nat) (d : A) : Prop := ∃ n s, (n ≤ k)%nat ∧ start s ∧ nsteps R n s d.
(** Reached by a walk of exactly [k] steps. *)
Definition level (k : nat) (d : A) : Prop := ∃ s, start s ∧ nsteps R k s d.

Lemma reach_0 d : reach 0 d ↔ start d.
Proof.
  split; [intros (n & s & Hn & Hs & Hw)|intros Hd; exists 0%nat, d; split; [lia|]; split; [done|constructor]].
  destruct n; [|lia]. by inversion Hw; subst.
Qed.

Lemma level_0 d : level 0 d ↔ start d.
Proof.
  split; [intros (s & Hs & Hw); by inversion Hw; subst|]. intros Hd. exists d. split; [done|constructor].
Qed.

Lemma level_S k d : level (S k) d ↔ ∃ x, level k x ∧ R x d.
Proof.
  split.
  - intros (s & Hs & Hw). apply nsteps_inv_r in Hw as (x & Hw & Hx). exists x. split; [by exists s|done].
  - intros (x & (s & Hs & Hw) & Hx). exists s. split; [done|]. by eapply nsteps_r.
Qed.

Lemma reach_level k d : reach k d ↔ ∃ n, (n ≤ k)%nat ∧ level n d.
Proof. unfold reach, level. naive_solver. Qed.

Lemma reach_S k d : reach (S k) d ↔ reach k d ∨ ∃ x, reach k x ∧ R x d.
Proof.
  rewrite !reach_level. setoid_rewrite reach_level. split.
  - intros (n & Hn & Hl). destruct (decide (n ≤ k)%nat); [left; eauto|].
    destruct n as [|n]; [lia|]. apply level_S in Hl as (x & Hx & HR). right. exists x.
    split; [|done]. exists n. split; [lia|done].
  - intros [(n & Hn & Hl)|(x & (n & Hn & Hl) & HR)].
    + exists n. split; [lia|done].
    + exists (S n). split; [lia|]. apply level_S. eauto.
Qed.

Record bfs (k : nat) (seen frontier : A → Prop) : Prop := {
  bfs_seen : ∀ d, seen d ↔ reach k d;
  bfs_frontier : ∀ d, frontier d → seen d;
  bfs_closed : ∀ x d, seen x → R x d → frontier x ∨ seen d }.

Lemma bfs_start : bfs 0 start start.
Proof. split; [intros; by rewrite reach_0|done|by left]. Qed.

Lemma bfs_step k seen frontier next seen' : bfs k seen frontier →
  (∀ d, seen d ∨ ¬ seen d) →
  (∀ d, next d ↔ (∃ s, frontier s ∧ R s d) ∧ ¬ seen d) →
  (∀ d, seen' d ↔ seen d ∨ next d) → bfs (S k) seen' next.
Proof.
  intros [Hseen Hf Hcl] Hdec Hnext Hseen'.
  assert (∀ x d, seen x → R x d → seen' d) as Hsucc.
  { intros x d Hx HR. apply Hseen'. destruct (Hdec d) as [|Hd]; [by left|].
    destruct (Hcl x d Hx HR) as [Hfx|]; [|done]. right. apply Hnext. eauto. }
  split.
  - intros d. rewrite reach_S. setoid_rewrite <- Hseen. split.
    + rewrite Hseen', Hnext. intros [?|[(s & Hs & HR) _]]; [by left|]. right. exists s. eauto.
    + intros [Hd|(x & Hx & HR)]; [apply Hseen'; by left|by eapply Hsucc].
  - intros d Hd. apply Hseen'. by right.
  - intros x d Hx HR. apply Hseen' in Hx as [Hx|Hx]; [right; by eapply Hsucc|by left].
Qed.

(** With nothing left to look at, longer walks reach nothing new. *)
Lemma bfs_done k seen frontier j : bfs k seen frontier →
  (∀ d, seen d ∨ ¬ seen d) → (∀ d, ¬ ((∃ s, frontier s ∧ R s d) ∧ ¬ seen d)) →
  ∀ d, seen d ↔ reach (k + j) d.
Proof.
  intros [Hseen Hf Hcl] Hdec Hnone. induction j as [|j IH]; intros d; [by rewrite Nat.add_0_r|].
  rewrite Nat.add_succ_r, reach_S. setoid_rewrite <- IH. split; [by left|].
  intros [?|(x & Hx & HR)]; [done|]. destruct (Hcl x d Hx HR) as [Hfx|]; [|done].
  destruct (Hdec d) as [|Hd]; [done|]. exfalso. apply (Hnone d). eauto.
Qed.

Lemma level_empty k j : (∀ d, ¬ level k d) → ∀ d, ¬ level (k + j) d.
Proof.
  intros H. induction j as [|j IH]; intros d; [by rewrite Nat.add_0_r|].
  rewrite Nat.add_succ_r, level_S. intros (x & Hx & _). by eapply IH.
Qed.
End bfs.

(** * Bitmaps and ordinals *)

Lemma mark_all_length b l : length (mark_all b l) = length b.
Proof. unfold mark_all. revert b. induction l as [|o l IH]; intros b; [done|]. cbn. by rewrite IH, length_insert. Qed.

Lemma mark_all_at b l d : (∀ o, o ∈ l → (o < length b)%nat) →
  at_ (mark_all b l) d = true ↔ at_ b d = true ∨ d ∈ l.
Proof.
  unfold mark_all. revert b. induction l as [|o l IH]; intros b Hl; cbn [foldl]; [set_solver|].
  rewrite IH by (intros; rewrite length_insert; set_solver).
  rewrite at_insert by set_solver. case_decide; set_solver.
Qed.

Lemma ordinals_filter b : ordinals_of b = filter (λ o, at_ b o = true) (seq 0 (length b)).
Proof.
  unfold ordinals_of. assert (∀ f (g : nat → nat), (∀ i x, b !! i = Some x → f (g i) = x) →
    omap (λ p, if p.2 : bool then Some p.1 else None) (imap (λ i x, (g i, x)) b) =
    filter (λ o, f o = true) (g <$> seq 0 (length b))) as H.
  { induction b as [|x b IH]; intros f g Hf; [done|].
    cbn [imap length seq omap list_omap fmap list_fmap snd fst].
    rewrite <- fmap_S_seq, <- list_fmap_compose.
    specialize (IH f (g ∘ S) (λ i y Hy, Hf (S i) y Hy)). rewrite filter_cons, (Hf 0%nat x eq_refl).
    destruct x; cbn; f_equal; exact IH. }
  rewrite <- (list_fmap_id (seq 0 (length b))).
  apply (H (at_ b) id). intros i x Hx. by apply at_lookup.
Qed.

Lemma elem_of_ordinals b o : o ∈ ordinals_of b ↔ (o < length b)%nat ∧ at_ b o = true.
Proof. rewrite ordinals_filter, list_elem_of_filter, elem_of_seq. intuition lia. Qed.

Lemma ordinals_sorted b : StronglySorted lt (ordinals_of b).
Proof. rewrite ordinals_filter. apply StronglySorted_filter, seq_sorted. Qed.

Lemma elem_of_dedup l o : o ∈ dedup l ↔ o ∈ l.
Proof.
  induction l as [|a l IH]; [done|]. destruct l as [|b l]; [done|]. cbn [dedup] in *.
  destruct (Nat.eqb_spec a b) as [->|]; rewrite ?elem_of_cons, IH, !elem_of_cons; naive_solver.
Qed.

Lemma elem_of_starts m starts o :
  o ∈ start_ordinals m starts ↔ ∃ s, s ∈ starts ∧ ordinal m s = Some o.
Proof. unfold start_ordinals. by rewrite elem_of_dedup, merge_sort_Permutation, list_elem_of_omap. Qed.

(** * One scan of a frontier *)

Section scan.
Context (m : CompiledCompactCscMatrix) (marker : N) (skip : nat → bool).

Lemma scan_frontier_flat ev ns frontier :
  (scan_frontier m marker skip ev ns frontier).2 =
  foldl (push_next (dimension m) marker skip) (ns, []) (frontier ≫= row m).
Proof.
  unfold scan_frontier. assert (∀ l ev st, (foldl (scan_source m marker skip) (ev, st) l).2 =
    foldl (push_next (dimension m) marker skip) st (l ≫= row m)) as H; [|apply H].
  induction l as [|s l IH]; intros ev' st; [done|].
  cbn [foldl]. rewrite (surjective_pairing (scan_source m marker skip (ev', st) s)), IH, bind_cons, foldl_app.
  f_equal. unfold scan_source, row. cbn [snd]. by rewrite foldl_fmap.
Qed.

(** After the destinations [don]: the new ones are listed once, and marked. *)
Record pushed (ns0 : list N) (don : list nat) (st : list N * list nat) : Prop := {
  pu_len : length st.1 = dimension m;
  pu_nodup : NoDup st.2;
  pu_next : ∀ d, d ∈ st.2 ↔ d ∈ don ∧ skip d = false;
  pu_mark : ∀ d, (d < dimension m)%nat → at_ st.1 d = if decide (d ∈ st.2) then marker else at_ ns0 d }.

Lemma push_all ns0 dsts : length ns0 = dimension m →
  (∀ d, (d < dimension m)%nat → at_ ns0 d ≠ marker) → (∀ d, d ∈ dsts → (d < dimension m)%nat) →
  pushed ns0 dsts (foldl (push_next (dimension m) marker skip) (ns0, []) dsts).
Proof.
  intros Hlen Hfresh. induction dsts as [|d dsts IH] using rev_ind; intros Hd.
  { split; cbn; [done|constructor|set_solver|]. intros. by rewrite decide_False by set_solver. }
  destruct IH as [H1 H2 H3 H4]; [set_solver|]. rewrite foldl_app. cbn [foldl].
  destruct (foldl _ _ dsts) as [ns next]. cbn [fst snd] in *. unfold push_next.
  assert (d < dimension m)%nat as Hlt by set_solver.
  rewrite (proj2 (Nat.leb_gt _ _) Hlt). cbn [orb].
  destruct (skip d) eqn:Es; [|rewrite H4 by done; case_decide as Hin].
  - split; [done..| |done]. intros x. rewrite H3, elem_of_app, list_elem_of_singleton. intuition congruence.
  - rewrite N.eqb_refl. cbn. split; [done..| |done].
    intros x. rewrite H3, elem_of_app, list_elem_of_singleton. naive_solver.
  - rewrite (proj2 (N.eqb_neq _ _) (Hfresh d Hlt)). cbn. split; cbn [fst snd].
    + by rewrite length_insert.
    + apply NoDup_app. split; [done|]. split; [set_solver|]. apply NoDup_singleton.
    + intros x. rewrite !elem_of_app, !list_elem_of_singleton, H3. naive_solver.
    + intros x Hx. rewrite at_insert by lia. rewrite H4 by done.
      repeat case_decide; set_solver.
Qed.

Lemma scan_frontier_spec ev ns frontier : wf m → length ns = dimension m →
  (∀ d, (d < dimension m)%nat → at_ ns d ≠ marker) → (∀ o, o ∈ frontier → (o < dimension m)%nat) →
  ∃ ev' ns' next, scan_frontier m marker skip ev ns frontier = (ev', (ns', next)) ∧
    length ns' = dimension m ∧ NoDup next ∧
    (∀ d, (d < dimension m)%nat → at_ ns' d = marker ∨ at_ ns' d = at_ ns d) ∧
    (∀ d, d ∈ next → (d < dimension m)%nat) ∧
    ∀ d, d ∈ next ↔ (∃ s, s ∈ frontier ∧ d ∈ row m s) ∧ skip d = false.
Proof.
  intros Hw Hlen Hfresh Hf. destruct (scan_frontier m marker skip ev ns frontier) as [ev' [ns' next]] eqn:E.
  exists ev', ns', next. split; [done|].
  assert (∀ d, d ∈ frontier ≫= row m ↔ ∃ s, s ∈ frontier ∧ d ∈ row m s) as Hin.
  { intros d. rewrite list_elem_of_bind. naive_solver. }
  pose proof (push_all ns (frontier ≫= row m) Hlen Hfresh) as [H1 H2 H3 H4].
  { intros d (s & Hs & Hd)%Hin. apply (wf_row m Hw s); auto. }
  rewrite <- (scan_frontier_flat ev), E in *. cbn [fst snd] in *.
  split; [done|]. split; [done|]. split; [|split].
  - intros d Hd. rewrite H4 by done. case_decide; auto.
  - intros d [(s & Hs & Hd)%Hin _]%H3. apply (wf_row m Hw s); auto.
  - intros d. by rewrite H3, Hin.
Qed.
End scan.

(** * The rounds *)

Section rounds.
Context (m : CompiledCompactCscMatrix) (Hw : wf m).

(** One step between ordinals. *)
Definition orow (o d : nat) : Prop := (o < dimension m)%nat ∧ d ∈ row m o.
Definition marked (b : list bool) (d : nat) : Prop := (d < dimension m)%nat ∧ at_ b d = true.

Lemma marked_dec b d : marked b d ∨ ¬ marked b d.
Proof. unfold marked. destruct (decide (d < dimension m)%nat), (at_ b d); naive_solver. Qed.

Lemma marked_all b l d : length b = dimension m → (∀ o, o ∈ l → (o < dimension m)%nat) →
  marked (mark_all b l) d ↔ marked b d ∨ d ∈ l.
Proof.
  intros Hb Hl. unfold marked. rewrite mark_all_at by (intros; rewrite Hb; auto). split; [tauto|].
  intros [?|Hd]; [tauto|]. split; [by apply Hl|by right].
Qed.

Lemma expand_rounds_spec (start : nat → Prop) hops : ∀ depth k seen ns frontier ev,
  length seen = dimension m → length ns = dimension m →
  (∀ d, (d < dimension m)%nat → at_ ns d < depth) →
  bfs orow start k (marked seen) (λ o, o ∈ frontier) →
  ∃ seen' ev', expand_rounds m hops depth seen ns frontier ev = (seen', ev') ∧
    length seen' = dimension m ∧ ∀ d, marked seen' d ↔ reach orow start (k + hops) d.
Proof.
  induction hops as [|hops IH]; intros depth k seen ns frontier ev Hseen Hns Hmark Hb; cbn [expand_rounds].
  { exists seen, ev. split; [done|]. split; [done|]. intros d. rewrite Nat.add_0_r. apply Hb. }
  destruct (scan_frontier_spec m depth (at_ seen) ev ns frontier Hw Hns)
    as (ev' & ns' & next & -> & Hns' & _ & Hmark' & Hnlt & Hnext).
  { intros d Hd. specialize (Hmark d Hd). lia. }
  { intros o Ho. by apply (bfs_frontier _ _ _ _ _ Hb) in Ho as [? _]. }
  assert (∀ d, d ∈ next ↔ (∃ s, s ∈ frontier ∧ orow s d) ∧ ¬ marked seen d) as Hn.
  { intros d. rewrite Hnext. unfold orow, marked. split.
    - intros [(s & Hs & Hd) Hsk]. split; [|intros [_ H]; congruence].
      exists s. split; [done|]. split; [|done]. by apply (bfs_frontier _ _ _ _ _ Hb) in Hs as [? _].
    - intros [(s & Hs & Hlt & Hd) Hsk]. split; [eauto|]. apply not_true_is_false. intros H. apply Hsk.
      split; [|done]. by apply (wf_row m Hw s). }
  destruct next as [|x next].
  { exists seen, ev'. split; [done|]. split; [done|].
    apply (bfs_done _ _ _ _ _ _ Hb (marked_dec seen)). intros d Hd. apply Hn in Hd. set_solver. }
  set (nx := x :: next) in *.
  destruct (IH (depth + 1) (S k) (mark_all seen nx) ns' nx ev') as (seen' & ev'' & -> & Hl & Hr).
  - by rewrite mark_all_length.
  - done.
  - intros d Hd. specialize (Hmark d Hd). destruct (Hmark' d Hd) as [->| ->]; lia.
  - apply (bfs_step _ _ _ _ _ _ _ Hb (marked_dec seen) Hn). intros d. by apply marked_all.
  - exists seen', ev''. split; [done|]. split; [done|]. intros d. rewrite Hr.
    by replace (S k + hops)%nat with (k + S hops)%nat by lia.
Qed.

Lemma range_rounds_spec (start : nat → Prop) min_hops hops : ∀ k result ns frontier ev,
  length result = dimension m → length ns = dimension m →
  (∀ d, (d < dimension m)%nat → at_ ns d < N.of_nat (S k)) →
  (∀ d, start d → (d < dimension m)%nat) →
  (∀ d, d ∈ frontier ↔ level orow start k d) →
  ∃ result' ev', range_rounds m min_hops hops (N.of_nat (S k)) result ns frontier ev = (result', ev') ∧
    length result' = dimension m ∧
    ∀ d, marked result' d ↔ marked result d ∨
      ∃ n, (k < n ≤ k + hops)%nat ∧ min_hops ≤ N.of_nat n ∧ level orow start n d.
Proof.
  induction hops as [|hops IH]; intros k result ns frontier ev Hres Hns Hmark Hst Hf; cbn [range_rounds].
  { exists result, ev. split; [done|]. split; [done|]. intros d. split; [by left|].
    intros [?|(n & Hn & _)]; [done|lia]. }
  assert (∀ j d, level orow start j d → (d < dimension m)%nat) as Hlt.
  { intros [|j] d; [rewrite level_0; auto|]. rewrite level_S. intros (x & _ & Hx & Hd).
    by apply (wf_row m Hw x). }
  destruct (scan_frontier_spec m (N.of_nat (S k)) (λ _, false) ev ns frontier Hw Hns)
    as (ev' & ns' & next & -> & Hns' & _ & Hmark' & Hnlt & Hnext).
  { intros d Hd. specialize (Hmark d Hd). lia. }
  { intros o Ho%Hf. by eapply Hlt. }
  assert (∀ d, d ∈ next ↔ level orow start (S k) d) as Hn.
  { intros d. rewrite Hnext, level_S. unfold orow. setoid_rewrite Hf. split.
    - intros [(s & Hs & Hd) _]. exists s. split; [done|]. split; [by eapply Hlt|done].
    - intros (s & Hs & _ & Hd). split; [eauto|done]. }
  set (result1 := if min_hops <=? N.of_nat (S k) then mark_all result next else result).
  assert (length result1 = dimension m) as Hres1.
  { unfold result1. destruct (_ <=? _); [by rewrite mark_all_length|done]. }
  assert (∀ d, marked result1 d ↔ marked result d ∨
    (min_hops ≤ N.of_nat (S k) ∧ level orow start (S k) d)) as Hm1.
  { intros d. unfold result1. destruct (N.leb_spec min_hops (N.of_nat (S k))) as [Hle|Hgt].
    - rewrite marked_all, Hn by done. tauto.
    - split; [by left|]. intros [?|[? _]]; [done|lia]. }
  assert (∀ d, (∃ n, (k < n ≤ k + S hops)%nat ∧ min_hops ≤ N.of_nat n ∧ level orow start n d) ↔
    (min_hops ≤ N.of_nat (S k) ∧ level orow start (S k) d) ∨
    ∃ n, (S k < n ≤ S k + hops)%nat ∧ min_hops ≤ N.of_nat n ∧ level orow start n d) as Hsplit.
  { intros d. split.
    - intros (n & Hkn & Hmin & Hl). destruct (decide (n = S k)) as [->|Hne]; [by left|].
      right. exists n. split; [lia|done].
    - intros [[Hmin Hl]|(n & Hkn & Hmin & Hl)]; [exists (S k)|exists n]; (split; [lia|done]). }
  destruct next as [|x next].
  { exists result1, ev'. split; [done|]. split; [done|]. intros d. rewrite Hm1, Hsplit.
    split; [tauto|]. intros [?|[?|(n & Hkn & Hmin & Hl)]]; [tauto|tauto|]. exfalso.
    revert Hl. replace n with (S k + (n - S k))%nat by lia. apply level_empty.
    intros d' Hd'%Hn. set_solver. }
  set (nx := x :: next) in *. replace (N.of_nat (S k) + 1) with (N.of_nat (S (S k))) by lia.
  destruct (IH (S k) result1 ns' nx ev') as (result' & ev'' & -> & Hl & Hr); [done..| |done|done|].
  { intros d Hd. specialize (Hmark d Hd). destruct (Hmark' d Hd) as [->| ->]; lia. }
  exists result', ev''. split; [done|]. split; [done|]. intros d. rewrite Hr, Hm1, Hsplit. tauto.
Qed.
End rounds.

(** * From ordinals to vertices *)

Section vertices.
Context (m : CompiledCompactCscMatrix) (Hw : wf m).
#[local] Abbreviation edge := (λ s d, compact_contains_edge m s d = true).

Lemma edge_orow s os d : ordinal m s = Some os →
  compact_contains_edge m s d = true ↔ ∃ od, ordinal m d = Some od ∧ orow m os od.
Proof.
  intros Hs. pose proof (ordinal_lt m s os Hw Hs) as Hlt.
  rewrite contains_neighbors, neighbors_row, Hs by done. rewrite list_elem_of_fmap. unfold orow. split.
  - intros (o & -> & Ho). exists o. split; [|done]. apply ordinal_spec; [done|].
    apply at_some. by apply (wf_row m Hw os).
  - intros (od & Hd & _ & Hr). exists od. split; [|done]. apply ordinal_spec in Hd; [|done].
    symmetry. by apply at_lookup.
Qed.

Lemma walk_orow n s os d : ordinal m s = Some os →
  nsteps edge n s d ↔ ∃ od, ordinal m d = Some od ∧ nsteps (orow m) n os od.
Proof.
  revert s os. induction n as [|n IH]; intros s os Hs.
  - split.
    + intros Hn. inversion Hn; subst. exists os. split; [done|constructor].
    + intros (od & Hd & Hn). inversion Hn; subst.
      apply ordinal_spec in Hs, Hd; [|done..]. assert (s = d) as -> by congruence. constructor.
  - split.
    + intros (x & Hx & Hn)%nsteps_first. apply (edge_orow s os) in Hx as (ox & Hox & Hx); [|done].
      apply (IH x ox Hox) in Hn as (od & Hd & Hn). exists od. split; [done|]. by econstructor.
    + intros (od & Hd & Hn). apply nsteps_first in Hn as (ox & Hx & Hn).
      assert (ox < dimension m)%nat as Hox%at_some by (apply (wf_row m Hw os); apply Hx).
      apply (ordinal_spec m) in Hox; [|done]. econstructor.
      * apply (edge_orow s os); [done|]. exists ox. split; [exact Hox|done].
      * apply (IH _ ox Hox). eauto.
Qed.

(** A vertex outside the dictionary has no walk but the empty one. *)
Lemma walk_outside n s d : ordinal m s = None → nsteps edge (S n) s d → False.
Proof.
  intros Hs (x & Hx & _)%nsteps_first. unfold compact_contains_edge in Hx. by rewrite Hs in Hx.
Qed.

Lemma level_vertices starts n d :
  (∃ s, s ∈ starts ∧ nsteps edge n s d ∧ is_Some (ordinal m s)) ↔
  ∃ od, ordinal m d = Some od ∧ level (orow m) (λ o, o ∈ start_ordinals m starts) n od.
Proof.
  unfold level. setoid_rewrite elem_of_starts. split.
  - intros (s & Hs & Hn & os & Hos). destruct (proj1 (walk_orow n s os d Hos) Hn) as (od & Hd & Ho).
    exists od. split; [done|]. exists os. split; [by exists s|done].
  - intros (od & Hd & os & (s & Hs & Hos) & Hn). exists s. split; [done|]. split; [|by eexists].
    apply (walk_orow n s os d Hos). eauto.
Qed.

(** The vertices of a list of ordinals. *)
Lemma elem_of_ordinal_vertices (l : list nat) d : (∀ o, o ∈ l → (o < dimension m)%nat) →
  d ∈ at_ (m_vertices m) <$> l ↔ ∃ o, ordinal m d = Some o ∧ o ∈ l.
Proof.
  intros Hl. rewrite list_elem_of_fmap. split.
  - intros (o & -> & Ho). exists o. split; [|done]. apply ordinal_spec; [done|]. by apply at_some, Hl.
  - intros (o & Hd & Ho). exists o. split; [|done]. apply ordinal_spec in Hd; [|done].
    symmetry. by apply at_lookup.
Qed.

Lemma ordinal_vertices_sorted (l : list nat) : (∀ o, o ∈ l → (o < dimension m)%nat) → StronglySorted lt l →
  StronglySorted N.lt (at_ (m_vertices m) <$> l).
Proof.
  intros Hl Hs. induction Hs as [|o l _ IH Ho]; [constructor|].
  cbn [fmap list_fmap]. constructor; [apply IH; set_solver|].
  apply Forall_fmap, Forall_forall. intros o' Ho'. rewrite Forall_forall in Ho. cbn.
  apply (sorted_lookup_lt _ (wf_sorted m Hw) o o'); [apply at_some, Hl; set_solver..|by apply Ho].
Qed.

Lemma starts_lt starts o : o ∈ start_ordinals m starts → (o < dimension m)%nat.
Proof. rewrite elem_of_starts. intros (s & _ & Hs). by eapply ordinal_lt. Qed.

Lemma no_starts starts : dimension m = 0%nat ∨ length starts = 0%nat ∨ start_ordinals m starts = [] →
  ∀ s, s ∈ starts → ordinal m s = None.
Proof.
  intros H s Hs. destruct (ordinal m s) as [o|] eqn:Eo; [|done]. exfalso.
  destruct H as [H|[H|H]].
  - pose proof (ordinal_lt m s o Hw Eo). lia.
  - destruct starts; [set_solver|done].
  - assert (o ∈ start_ordinals m starts) as Hin by (apply elem_of_starts; eauto).
    rewrite H in Hin. set_solver.
Qed.
End vertices.

(** * Fixed-hop expansion *)

Definition edge_of (m : CompiledCompactCscMatrix) : relation VertexId :=
  λ s d, compact_contains_edge m s d = true.

Lemma compact_expand_spec m starts hops : wf m →
  ∃ t, compact_expand m starts hops = Ok t ∧ st_backend t = CompactCsc ∧
    StronglySorted N.lt (st_vertices t) ∧
    ∀ d, (d ∈ st_vertices t) ↔ (d ∉ starts) ∧ reach (edge_of m) (λ s, s ∈ starts) (N.to_nat hops) d.
Proof.
  intros Hw. unfold compact_expand.
  assert (∀ t, t = compact_empty_traversal → (∀ d, d ∉ starts →
      ¬ reach (edge_of m) (λ s, s ∈ starts) (N.to_nat hops) d) →
    st_backend t = CompactCsc ∧ StronglySorted N.lt (st_vertices t) ∧
    ∀ d, (d ∈ st_vertices t) ↔ (d ∉ starts) ∧ reach (edge_of m) (λ s, s ∈ starts) (N.to_nat hops) d) as Hempty.
  { intros t -> Hno. split; [done|]. split; [constructor|]. intros d. cbn. set_solver. }
  assert ((∀ s, s ∈ starts → ordinal m s = None) → ∀ d, d ∉ starts →
    ¬ reach (edge_of m) (λ s, s ∈ starts) (N.to_nat hops) d) as Hout.
  { intros Hs d Hd ([|n] & s & Hn & Hin & Hwk); [inversion Hwk; by subst|].
    by eapply walk_outside; [apply Hs|]. }
  destruct ((hops =? 0) || (dimension m =? 0)%nat || (length starts =? 0)%nat) eqn:E0.
  { eexists. split; [done|]. apply Hempty; [done|]. intros d Hd.
    apply orb_true_iff in E0 as [[E0|E0]%orb_true_iff|E0].
    - apply N.eqb_eq in E0 as ->. rewrite reach_0. done.
    - apply Hout; [|done]. apply no_starts; [done|]. left. by apply Nat.eqb_eq.
    - apply Hout; [|done]. apply no_starts; [done|]. right. left. by apply Nat.eqb_eq. }
  cbv zeta. destruct (start_ordinals m starts) as [|o0 os] eqn:Es.
  { eexists. split; [done|]. apply Hempty; [done|]. apply Hout, no_starts; auto. }
  clear Hempty Hout. rewrite <- Es. clear E0.
  set (ords := start_ordinals m starts). set (none := replicate (dimension m) false).
  assert (length none = dimension m) as Hnone by apply length_replicate.
  assert (∀ o, o ∈ ords → (o < dimension m)%nat) as Hlt by (intros; by eapply starts_lt).
  assert (∀ d, marked m (mark_all none ords) d ↔ d ∈ ords) as Hstart.
  { intros d. rewrite marked_all by done. split; [|by right]. intros [[Hd Hat]|?]; [|done].
    unfold none in Hat. rewrite at_replicate in Hat by done. done. }
  destruct (expand_rounds_spec m Hw (λ o, o ∈ ords) (N.to_nat hops) 1 0 (mark_all none ords)
    (replicate (dimension m) 0) ords 0) as (seen & ev & -> & Hlen & Hseen).
  - by rewrite mark_all_length.
  - apply length_replicate.
  - intros d Hd. rewrite at_replicate by done. lia.
  - split; [intros d; by rewrite Hstart, reach_0|intros d; by rewrite Hstart|].
    intros x d Hx%Hstart _. by left.
  - eexists. split; [done|]. cbn [st_vertices st_backend]. split; [done|].
    assert (∀ o, o ∈ filter (λ o, at_ (mark_all none ords) o = false) (ordinals_of seen) ↔
      marked m seen o ∧ o ∉ ords) as Hin.
    { intros o. rewrite list_elem_of_filter, elem_of_ordinals, Hlen. unfold marked in *.
      specialize (Hstart o). rewrite <- Hstart, <- not_true_iff_false. tauto. }
    split.
    + apply ordinal_vertices_sorted; [done| |apply StronglySorted_filter, ordinals_sorted].
      intros o [[Ho _] _]%Hin. done.
    + intros d. rewrite (elem_of_ordinal_vertices m Hw) by (intros o [[Ho _] _]%Hin; done).
      setoid_rewrite Hin. setoid_rewrite Hseen.
      setoid_rewrite reach_level. cbn [Nat.add]. split.
      * intros (o & Ho & (n & Hn & Hl) & Hno). split.
        { intros Hd. apply Hno. apply elem_of_starts. eauto. }
        exists n. split; [done|].
        destruct (proj2 (level_vertices m Hw starts n d)) as (s & Hs & Hk & _); [by exists o|].
        exists s. done.
      * intros (Hd & n & Hn & s & Hs & Hk). destruct n as [|n]; [inversion Hk; by subst|].
        destruct (ordinal m s) as [os'|] eqn:Eos; [|exfalso; by eapply walk_outside].
        destruct (proj1 (level_vertices m Hw starts (S n) d)) as (o & Ho & Hl).
        { exists s. split; [done|]. split; [done|]. by rewrite Eos. }
        exists o. split; [done|]. split; [by exists (S n)|].
        intros (s' & Hs' & Ho')%elem_of_starts. apply Hd. apply ordinal_spec in Ho, Ho'; [|done..].
        by assert (d = s') as -> by congruence.
Qed.

(** * Hop ranges *)

(** Reached by a walk whose length is in the range; the empty walk counts only
    from vertices of the dictionary. *)
Definition in_range (m : CompiledCompactCscMatrix) (starts : list VertexId) (min_hops max_hops : N)
  (d : VertexId) : Prop :=
  ∃ n s, min_hops ≤ N.of_nat n ≤ max_hops ∧ s ∈ starts ∧ nsteps (edge_of m) n s d ∧
    (n = 0%nat → d ∈ m_vertices m).

Lemma in_range_level m starts min_hops max_hops d : wf m →
  in_range m starts min_hops max_hops d ↔ ∃ o n, ordinal m d = Some o ∧
    min_hops ≤ N.of_nat n ≤ max_hops ∧ level (orow m) (λ o, o ∈ start_ordinals m starts) n o.
Proof.
  intros Hw. unfold in_range. split.
  - intros (n & s & Hn & Hs & Hk & H0).
    assert (is_Some (ordinal m s)) as Hsome.
    { destruct (ordinal m s) as [os|] eqn:Es; [by eexists|]. exfalso. destruct n as [|n].
      - inversion Hk; subst. specialize (H0 eq_refl).
        apply (binary_search_elem _ (wf_sorted m Hw)) in H0 as [i Hi]. unfold ordinal in Es. congruence.
      - by eapply walk_outside. }
    destruct (proj1 (level_vertices m Hw starts n d)) as (o & Ho & Hl); [by exists s|].
    exists o, n. done.
  - intros (o & n & Ho & Hn & Hl).
    destruct (proj2 (level_vertices m Hw starts n d)) as (s & Hs & Hk & _); [by exists o|].
    exists n, s. split; [done|]. split; [done|]. split; [done|]. intros _.
    apply (binary_search_elem _ (wf_sorted m Hw)). by exists o.
Qed.

Lemma range_bitmap_spec m starts min_hops max_hops : wf m →
  ∃ b ev, expand_range_bitmap m starts min_hops max_hops = Ok (b, ev) ∧
    (length b ≤ dimension m)%nat ∧
    ∀ o, o ∈ ordinals_of b ↔ ∃ n, min_hops ≤ N.of_nat n ≤ max_hops ∧
      level (orow m) (λ o, o ∈ start_ordinals m starts) n o.
Proof.
  intros Hw. unfold expand_range_bitmap.
  assert (start_ordinals m starts = [] → ∀ o n, ¬ level (orow m) (λ o, o ∈ start_ordinals m starts) n o) as Hnil.
  { intros -> o n (s & Hs & _). set_solver. }
  assert (dimension m = 0%nat ∨ length starts = 0%nat → start_ordinals m starts = []) as Hnone.
  { intros H. destruct (start_ordinals m starts) as [|o os] eqn:Es; [done|]. exfalso.
    assert (o ∈ start_ordinals m starts) as (s & Hs & Ho)%elem_of_starts by (rewrite Es; set_solver).
    rewrite (no_starts m Hw starts ltac:(tauto) s Hs) in Ho. done. }
  destruct ((max_hops <? min_hops) || (dimension m =? 0)%nat || (length starts =? 0)%nat) eqn:E0.
  { eexists [], _. split; [done|]. split; [cbn; lia|]. intros o. cbn. split; [set_solver|].
    intros (n & Hn & Hl). exfalso. apply orb_true_iff in E0 as [[E0|E0]%orb_true_iff|E0].
    - apply N.ltb_lt in E0. lia.
    - eapply Hnil; [|exact Hl]. apply Hnone. left. by apply Nat.eqb_eq.
    - eapply Hnil; [|exact Hl]. apply Hnone. right. by apply Nat.eqb_eq. }
  cbv zeta. destruct (start_ordinals m starts) as [|o0 os] eqn:Es.
  { eexists [], _. split; [done|]. split; [cbn; lia|]. intros o. cbn. split; [set_solver|].
    intros (n & Hn & Hl). exfalso. by eapply Hnil. }
  rewrite <- Es. clear Hnil Hnone E0.
  set (ords := start_ordinals m starts). set (none := replicate (dimension m) false).
  assert (length none = dimension m) as Hlen by apply length_replicate.
  assert (∀ o, o ∈ ords → (o < dimension m)%nat) as Hlt by (intros; by eapply starts_lt).
  assert (∀ d, ¬ marked m none d) as Hno.
  { intros d [Hd Hat]. unfold none in Hat. by rewrite at_replicate in Hat. }
  set (result := if min_hops =? 0 then mark_all none ords else none).
  assert (length result = dimension m) as Hres.
  { unfold result. destruct (_ =? _); [by rewrite mark_all_length|done]. }
  assert (∀ d, marked m result d ↔ min_hops = 0 ∧ d ∈ ords) as Hstart.
  { intros d. unfold result. destruct (N.eqb_spec min_hops 0) as [->|].
    - rewrite marked_all by done. specialize (Hno d). tauto.
    - specialize (Hno d). tauto. }
  destruct (range_rounds_spec m Hw (λ o, o ∈ ords) min_hops (N.to_nat max_hops) 0 result
    (replicate (dimension m) 0) ords 0) as (b & ev & Hr & Hlb & Hb).
  - done.
  - apply length_replicate.
  - intros d Hd. rewrite at_replicate by done. lia.
  - done.
  - intros d. by rewrite level_0.
  - change (N.of_nat 1) with 1 in Hr. rewrite Hr.
    exists b, ev. split; [done|]. split; [lia|]. intros o.
    rewrite elem_of_ordinals, Hlb. fold (marked m b o). rewrite Hb, Hstart. split.
    + intros [[-> Ho]|(n & Hn & Hmin & Hl)].
      * exists 0%nat. split; [lia|]. by rewrite level_0.
      * exists n. split; [lia|done].
    + intros ([|n] & Hn & Hl).
      * left. rewrite level_0 in Hl. split; [lia|done].
      * right. exists (S n). split; [lia|]. split; [lia|done].
Qed.

Lemma compact_expand_range_spec m starts min_hops max_hops : wf m →
  ∃ t, compact_expand_range m starts min_hops max_hops = Ok t ∧ st_backend t = CompactCsc ∧
    StronglySorted N.lt (st_vertices t) ∧
    ∀ d, d ∈ st_vertices t ↔ in_range m starts min_hops max_hops d.
Proof.
  intros Hw. unfold compact_expand_range, expand_range_ordinals.
  destruct (range_bitmap_spec m starts min_hops max_hops Hw) as (b & ev & -> & Hlen & Hb).
  cbn [mbind result_mbind result_bind]. eexists. split; [done|]. cbn. split; [done|].
  assert (∀ o, o ∈ ordinals_of b → (o < dimension m)%nat) as Hlt by (intros o [? _]%elem_of_ordinals; lia).
  split; [by apply ordinal_vertices_sorted; [..|apply ordinals_sorted]|].
  intros d. rewrite (elem_of_ordinal_vertices m Hw), in_range_level by done. setoid_rewrite Hb. naive_solver.
Qed.

(** The bits counted are the ordinals listed. *)
Lemma count_bitmap b : length (filter Is_true b) = length (ordinals_of b).
Proof.
  unfold ordinals_of. assert (∀ g : nat → nat, length (filter Is_true b) =
    length (omap (λ p, if p.2 : bool then Some p.1 else None) (imap (λ i x, (g i, x)) b))) as H;
    [|apply (H id)].
  induction b as [|x b IH]; intros g; [done|]. rewrite filter_cons. cbn [imap omap list_omap fst snd].
  specialize (IH (g ∘ S)).
  destruct x; [rewrite decide_True by done; cbn; f_equal|rewrite decide_False by (by intros [])]; exact IH.
Qed.

(** The pushed-down count is the number of vertices the expansion returns. *)
Lemma range_count_spec m starts min_hops max_hops t c :
  compact_expand_range m starts min_hops max_hops = Ok t →
  compact_expand_range_count m starts min_hops max_hops = Ok c →
  tc_vertices c = N.of_nat (length (st_vertices t)) ∧ tc_edge_visits c = st_edge_visits t.
Proof.
  unfold compact_expand_range, compact_expand_range_count, expand_range_ordinals.
  destruct (expand_range_bitmap m starts min_hops max_hops) as [[b ev]|e]; [|done]. cbn.
  intros [= <-] [= <-]. cbn. by rewrite length_fmap, count_bitmap.
Qed.

(** * The adjacency kernel *)

Section rust.
Context (adj : Adjacency).
#[local] Abbreviation R := (λ s d, d ∈ nbrs adj s).

Lemma visit_spec st ns : let r := (visit_neighbors st ns).2 in
  (∀ d, d ∈ r.1 ↔ d ∈ st.2.1 ∨ d ∈ ns) ∧ (∀ d, d ∈ r.2 ↔ d ∈ st.2.2 ∨ d ∈ ns ∧ d ∉ st.2.1).
Proof.
  cbv zeta. unfold visit_neighbors. cbn [snd].
  assert (∀ l st, let r := foldl (λ '(seen, next) dst, if bool_decide (dst ∈ seen) then (seen, next)
      else ({[dst]} ∪ seen, {[dst]} ∪ next)) (st : gset VertexId * gset VertexId) l in
    (∀ d, d ∈ r.1 ↔ d ∈ st.1 ∨ d ∈ l) ∧ (∀ d, d ∈ r.2 ↔ d ∈ st.2 ∨ d ∈ l ∧ d ∉ st.1)) as H.
  { induction l as [|x l IH]; intros [seen next]; cbn [foldl]; [cbn; set_solver|].
    cbv zeta in *. destruct (bool_decide_reflect (x ∈ seen)) as [Hx|Hx];
      destruct (IH (seen, next)) as [H1 H2]; destruct (IH ({[x]} ∪ seen, {[x]} ∪ next)) as [H3 H4];
      cbn [fst snd] in *; split; intros d; rewrite ?H1, ?H2, ?H3, ?H4, ?elem_of_cons;
      destruct (decide (d = x)); set_solver. }
  destruct (H (bset_iter ns) st.2) as [H1 H2].
  split; intros d; rewrite ?H1, ?H2, elem_of_bset_iter; done.
Qed.

Lemma rust_round ev seen frontier : ∃ ev' seen' next,
  foldl (λ st src, match adj !! src with Some ns => visit_neighbors st ns | None => st end)
    (ev, (seen, ∅)) (bset_iter frontier) = (ev', (seen', next)) ∧
  (∀ d, d ∈ next ↔ (∃ s, s ∈ frontier ∧ R s d) ∧ d ∉ seen) ∧ ∀ d, d ∈ seen' ↔ d ∈ seen ∨ d ∈ next.
Proof.
  assert (∀ l st, st.2.2 ⊆ st.2.1 →
    let r := (foldl (λ st src, match adj !! src with Some ns => visit_neighbors st ns | None => st end) st l).2 in
    (∀ d, d ∈ r.1 ↔ d ∈ st.2.1 ∨ ∃ s, s ∈ l ∧ R s d) ∧
    (∀ d, d ∈ r.2 ↔ d ∈ st.2.2 ∨ (∃ s, s ∈ l ∧ R s d) ∧ d ∉ st.2.1)) as H.
  { induction l as [|s l IH]; intros st Hsub; cbn [foldl]; [cbn; set_solver|].
    assert (∀ d, (∃ s', s' ∈ s :: l ∧ R s' d) ↔ R s d ∨ ∃ s', s' ∈ l ∧ R s' d) as Hcons by set_solver.
    cbv zeta in *. setoid_rewrite Hcons. unfold nbrs at 1 3. destruct (adj !! s) as [ns|]; cbn [default].
    - destruct (visit_spec st ns) as [H1 H2]. cbv zeta in H1, H2.
      destruct (IH (visit_neighbors st ns)) as [H3 H4]; [set_solver|].
      split; intros d; rewrite ?H3, ?H4, ?H1, ?H2; [tauto|].
      destruct (decide (d ∈ st.2.1)), (decide (d ∈ ns)); tauto.
    - destruct (IH st Hsub) as [H3 H4]. split; intros d; rewrite ?H3, ?H4; set_solver. }
  destruct (foldl _ _ (bset_iter frontier)) as [ev' [seen' next]] eqn:E.
  exists ev', seen', next. split; [done|].
  destruct (H (bset_iter frontier) (ev, (seen, ∅))) as [H1 H2]; [set_solver|].
  rewrite E in H1, H2. cbn [fst snd] in *. setoid_rewrite elem_of_bset_iter in H1.
  setoid_rewrite elem_of_bset_iter in H2. split; intros d; rewrite ?H1, ?H2; [set_solver|].
  destruct (decide (d ∈ seen)); set_solver.
Qed.

Lemma rust_rounds_spec (start : gset VertexId) hops : ∀ k frontier seen ev,
  bfs R (λ s, s ∈ start) k (λ d, d ∈ seen) (λ d, d ∈ frontier) →
  ∀ d, d ∈ (rust_rounds adj hops frontier seen ev).1 ↔ reach R (λ s, s ∈ start) (k + hops) d.
Proof.
  induction hops as [|hops IH]; intros k frontier seen ev Hb d; cbn [rust_rounds].
  { rewrite Nat.add_0_r. apply Hb. }
  destruct (rust_round ev seen frontier) as (ev' & seen' & next & -> & Hn & Hs).
  assert (∀ d : VertexId, d ∈ seen ∨ ¬ d ∈ seen) as Hdec by (intros x; destruct (decide (x ∈ seen)); auto).
  case_bool_decide as Hempty.
  - cbn [fst]. rewrite Hs, Hempty. rewrite (bfs_done _ _ _ _ _ (S hops) Hb Hdec); [set_solver|].
    intros x Hx%Hn. set_solver.
  - rewrite (IH (S k)).
    + by replace (S k + hops)%nat with (k + S hops)%nat by lia.
    + by apply (bfs_step _ _ _ _ _ _ _ Hb Hdec).
Qed.

Lemma expand_rust_spec starts hops :
  StronglySorted N.lt (st_vertices (expand_rust adj starts hops)) ∧
  ∀ d, d ∈ st_vertices (expand_rust adj starts hops) ↔
    (d ∉ starts) ∧ reach R (λ s, s ∈ starts) (N.to_nat hops) d.
Proof.
  unfold expand_rust. cbv zeta.
  pose proof (rust_rounds_spec (list_to_set starts) (N.to_nat hops) 0 (list_to_set starts)
    (list_to_set starts) 0) as H.
  destruct (rust_rounds _ _ _ _ _) as [seen ev]. cbn [st_vertices fst] in *.
  split; [apply StronglySorted_filter, bset_iter_strict|]. intros d.
  rewrite list_elem_of_filter, elem_of_bset_iter, H, elem_of_list_to_set.
  - unfold reach. by setoid_rewrite elem_of_list_to_set.
  - split; [intros x; by rewrite reach_0|done|by left].
Qed.
End rust.

(** * Claims *)

(** C18: searching a compiled matrix finds exactly what walks reach.  Over any CSC
    that passes validation, the fixed-hop expansion succeeds and returns,
    strictly ascending, the vertices outside the starts that a walk of at most
    [hops] edges reaches; the ranged expansion returns those a walk of
    [min_hops] to [max_hops] edges ends in, starts included (a walk of no edges
    only from a vertex of the dictionary); and the pushed-down count is the
    number of vertices the ranged expansion returns. *)
Theorem compact_search_exact (c : GraphBlasCsc) (starts : list VertexId) (hops min_hops max_hops : N)
  (Hc : validate_csc c = Ok ()) :
  let m := from_csc c in
  (∃ t, compact_expand m starts hops = Ok t ∧ StronglySorted N.lt (st_vertices t) ∧
     ∀ d, (d ∈ st_vertices t) ↔ (d ∉ starts) ∧ reach (edge_of m) (λ s, s ∈ starts) (N.to_nat hops) d) ∧
  (∃ t n, compact_expand_range m starts min_hops max_hops = Ok t ∧
     compact_expand_range_count m starts min_hops max_hops = Ok n ∧
     StronglySorted N.lt (st_vertices t) ∧ tc_vertices n = N.of_nat (length (st_vertices t)) ∧
     ∀ d, d ∈ st_vertices t ↔ in_range m starts min_hops max_hops d).
Proof.
  cbv zeta. pose proof (from_csc_wf c Hc) as Hw. split.
  - destruct (compact_expand_spec (from_csc c) starts hops Hw) as (t & Ht & _ & Hs & Hd). eauto.
  - destruct (compact_expand_range_spec (from_csc c) starts min_hops max_hops Hw) as (t & Ht & _ & Hs & Hd).
    destruct (compact_expand_range_count (from_csc c) starts min_hops max_hops) as [n|e] eqn:Hn.
    + exists t, n. destruct (range_count_spec _ _ _ _ _ _ Ht Hn) as [Hlen _]. done.
    + exfalso. unfold compact_expand_range, expand_range_ordinals, compact_expand_range_count in *.
      by destruct (expand_range_bitmap _ _ _ _) as [[]|].
Qed.

Definition diamond_csc : GraphBlasCsc := MkCsc [1; 2; 3] [0; 2; 3; 3] [1; 2; 2].

Lemma compact_search_exact_witness :
  validate_csc diamond_csc = Ok () ∧ ∃ t, compact_expand_range (from_csc diamond_csc) [1] 2 2 = Ok t ∧
    3 ∈ st_vertices t ∧ StronglySorted N.lt (st_vertices t).
Proof.
  assert (validate_csc diamond_csc = Ok ()) as Hv by reflexivity. split; [exact Hv|].
  destruct (compact_search_exact diamond_csc [1] 0 2 2 Hv) as (_ & t & n & Ht & _ & Hs & _ & Hd).
  exists t. split; [exact Ht|]. split; [|exact Hs]. apply Hd. exists 2%nat, 1.
  split; [lia|]. split; [by left|]. split; [|done].
  apply nsteps_l with 2; [reflexivity|]. apply nsteps_l with 3; [reflexivity|constructor].
Defined.

(** C19: the compiled kernel agrees with the adjacency kernel.  Whatever an
    adjacency compiles to for the compact kernel, expanding any starts over any
    number of hops returns the same list of vertices as the search over the
    adjacency itself. *)
Theorem kernels_agree (build_native : GraphBlasCsc → Result ())
  (native_expand : CompiledGraphBlasMatrix → list VertexId → N → Result SparseTraversal)
  (adj : Adjacency) (c : CompiledGraphBlasMatrix) (starts : list VertexId) (hops : N)
  (Hc : compile_new build_native adj CompactCsc = Ok c) :
  ∃ t, compiled_expand native_expand c starts hops = Ok t ∧
    st_vertices t = st_vertices (expand_rust adj starts hops).
Proof.
  destruct (compile_canonical _ _ _ _ Hc) as (csc & Hcsc & Ho). pose proof (build_csc_of adj csc Hcsc) as H.
  assert (compiled_kernel_of c = CompactCsc) as Hk.
  { unfold compile_new in Hc. rewrite Hcsc in Hc. cbn in Hc. unfold new_from_csc in Hc.
    rewrite (co_valid _ _ H) in Hc. cbn in Hc. by injection Hc as <-. }
  pose proof (from_csc_wf csc (co_valid _ _ H)) as Hw.
  unfold compiled_expand. rewrite bool_decide_eq_true_2, Ho by done.
  destruct (compact_expand_spec (from_csc csc) starts hops Hw) as (t & -> & _ & Hs & Hd).
  exists t. split; [done|]. destruct (expand_rust_spec adj starts hops) as [Hs' Hd'].
  apply strict_ext; [done..|]. intros d. rewrite Hd, Hd'.
  assert (∀ n s d, nsteps (edge_of (from_csc csc)) n s d ↔ nsteps (λ s d, d ∈ nbrs adj s) n s d) as Heq.
  { assert (∀ s d, edge_of (from_csc csc) s d ↔ d ∈ nbrs adj s) as He.
    { intros s x. unfold edge_of. by rewrite contains_neighbors, (neighbors_of adj csc H), elem_of_bset_iter. }
    intros n s x. split; induction 1; econstructor; try done; by apply He. }
  unfold reach. by setoid_rewrite Heq.
Qed.

Lemma kernels_agree_witness :
  ∃ c t, compile_new (λ _, Ok ()) diamond CompactCsc = Ok c ∧
    compiled_expand (λ _ _ _, Ok compact_empty_traversal) c [1] 2 = Ok t ∧ st_vertices t = [2; 3].
Proof.
  destruct (compile_new (λ _, Ok ()) diamond CompactCsc) as [c|] eqn:E; [|discriminate E].
  destruct (kernels_agree (λ _, Ok ()) (λ _ _ _, Ok compact_empty_traversal) diamond c [1] 2 E)
    as (t & Ht & Hv).
  exists c, t. split; [done|]. split; [exact Ht|]. rewrite Hv. vm_compute. done.
Defined.
