(* ===== verification/OverlayFacts.v ===== *)
(** [Overlay]: the overlay changes neighbour sets and traversals exactly as the
    edges it names, and the cache of parsed WAL files stays within its budget. *)

From stdpp Require Import relations.
From S2P Require Import Prelude Text Errors Model Keys Codec CodecRecords Sparse SparseFacts SparseBuild SparseSearch Overlay.

Local Open Scope N_scope.

Import sparse overlay.

(** * Neighbour sets *)

Lemma state_lookup o s d : state o s d = destinations o s !! d.
Proof. unfold state, destinations. by destruct (states o !! s). Qed.

(** * One hop *)

(** What the documentation of the kernels says of a native artifact: its
    expansion returns the vertices the compact kernel returns. *)
Definition native_agrees
  (native_expand : CompiledGraphBlasMatrix → list VertexId → N → Result SparseTraversal)
  (c : CompiledGraphBlasMatrix) : Prop :=
  ∀ starts hops, st_vertices <$> native_expand c starts hops
    = st_vertices <$> compact_expand (canonical_out c) starts hops.

Section hop.
Context (native_expand : CompiledGraphBlasMatrix → list VertexId → N → Result SparseTraversal).
Context (c : CompiledGraphBlasMatrix) (o : GraphTopologyOverlay).
Context (Hw : wf (canonical_out c)) (Hn : native_agrees native_expand c).

#[local] Abbreviation edge := (effective c o).

(** The kernel's one-hop expansion leaves the frontier out. *)
Lemma kernel_hop frontier : ∃ t, compiled_expand native_expand c frontier 1 = Ok t ∧
  ∀ d, (d ∈ st_vertices t) ↔ (d ∉ frontier) ∧ ∃ s, s ∈ frontier ∧ contains_edge c s d = true.
Proof.
  assert (∃ t, compiled_expand native_expand c frontier 1 = Ok t ∧ ∃ t',
    compact_expand (canonical_out c) frontier 1 = Ok t' ∧ st_vertices t = st_vertices t') as (t & Ht & t' & Ht' & E).
  { unfold compiled_expand. destruct (compact_expand_spec (canonical_out c) frontier 1 Hw) as (t' & Ht' & _).
    case_bool_decide; [by exists t'; eauto|]. specialize (Hn frontier 1). rewrite Ht' in Hn.
    destruct (native_expand c frontier 1) as [t|]; [|done]. injection Hn as E. eauto 6. }
  exists t. split; [done|]. intros d. rewrite E.
  destruct (compact_expand_spec (canonical_out c) frontier 1 Hw) as (t'' & Ht'' & _ & _ & Hd).
  rewrite Ht' in Ht''. injection Ht'' as <-. rewrite Hd. change (N.to_nat 1) with 1%nat.
  rewrite reach_S. setoid_rewrite reach_0. unfold edge_of. unfold contains_edge. naive_solver.
Qed.

Definition targets (frontier : list VertexId) (d : VertexId) : bool :=
  existsb (λ s, edge s d) frontier.

Lemma targets_true frontier d : targets frontier d = true ↔ ∃ s, s ∈ frontier ∧ edge s d = true.
Proof. unfold targets. rewrite existsb_exists. by setoid_rewrite list_elem_of_In. Qed.

(** A target is never dropped and once named stays; a vertex that is no target is
    never added and goes when it is named. *)
Lemma changes_fold frontier (l : list (VertexId * bool)) next d :
  (∀ d', (d', true) ∈ l → targets frontier d' = true) →
  d ∈ foldl (apply_change c o frontier) next l ↔
  if targets frontier d then d ∈ next ∨ (d, true) ∈ l else d ∈ next ∧ (d, false) ∉ l.
Proof.
  revert next. induction l as [|[x b] l IH]; intros next Hl; cbn [foldl].
  { destruct (targets frontier d); set_solver. }
  rewrite IH by set_solver. clear IH. fold (targets frontier x). unfold apply_change at 1 2.
  fold (targets frontier x). destruct b.
  - pose proof (Hl x ltac:(set_solver)) as Hx. destruct (targets frontier d) eqn:E.
    + rewrite elem_of_union, elem_of_singleton, elem_of_cons. naive_solver.
    + rewrite elem_of_union, elem_of_singleton, elem_of_cons.
      assert (d ≠ x) by congruence. naive_solver.
  - destruct (decide (d = x)) as [->|Hne].
    + destruct (targets frontier x) eqn:E; cbn [negb]; rewrite ?andb_false_r, ?andb_true_r.
      * rewrite elem_of_cons. naive_solver.
      * case_bool_decide; set_solver.
    + assert (d ∈ (if bool_decide (x ∈ next) && negb (targets frontier x) then next ∖ {[x]} else next)
              ↔ d ∈ next) as Hx by (case_match; set_solver).
      destruct (targets frontier d); rewrite Hx, elem_of_cons; naive_solver.
Qed.

Lemma sources_fold frontier l acc :
  (foldl (apply_source c o frontier) acc l).2 =
  foldl (apply_change c o frontier) acc.2 (l ≫= λ s, btree_iter (destinations o s)).
Proof.
  revert acc. induction l as [|s l IH]; intros acc; [done|].
  cbn [foldl]. rewrite IH. rewrite bind_cons, foldl_app. f_equal.
  unfold apply_source, destinations. by destruct (states o !! s).
Qed.

(** A vertex of the frontier is only found again through an edge the overlay adds. *)
Definition hop_to (frontier : VertexId → Prop) (d : VertexId) : Prop :=
  (∃ s, frontier s ∧ edge s d = true) ∧
  (¬ frontier d ∨ ∃ s, frontier s ∧ state o s d = Some true).

Lemma expand_hop_exact frontier visits : ∃ visits' next,
  expand_hop native_expand c o frontier visits = Ok (visits', next) ∧
  ∀ d, d ∈ next ↔ hop_to (λ s, s ∈ frontier) d.
Proof.
  unfold expand_hop. cbv zeta. destruct (kernel_hop (bset_iter frontier)) as (t & -> & Ht).
  cbn [mbind result_mbind result_bind].
  set (fr := bset_iter frontier) in *. destruct (foldl _ _ fr) as [visits' next] eqn:E.
  exists visits', next. split; [done|].
  apply (f_equal snd) in E. rewrite sources_fold in E. cbn [snd] in E. subst next. intros d.
  assert (∀ x b, (x, b) ∈ fr ≫= (λ s, btree_iter (destinations o s)) ↔
    ∃ s, s ∈ fr ∧ state o s x = Some b) as Hin.
  { intros x b. rewrite list_elem_of_bind. setoid_rewrite elem_of_btree_iter.
    setoid_rewrite state_lookup. naive_solver. }
  assert (∀ s, s ∈ fr ↔ s ∈ frontier) as Hfr by (intros; apply elem_of_bset_iter).
  unfold hop_to. setoid_rewrite <- Hfr.
  rewrite changes_fold.
  2: { intros x (s & Hs & Hst)%Hin. apply targets_true. exists s. unfold effective. by rewrite Hst. }
  destruct (targets fr d) eqn:E; rewrite elem_of_list_to_set, Ht, Hin.
  - pose proof E as (s & Hs & He)%targets_true. split.
    + intros [[Hd _]|Hnamed]; (split; [by exists s|tauto]).
    + intros [_ [Hd|Hnamed]]; [|by right]. unfold effective in He.
      destruct (state o s d) as [[]|] eqn:Est; [|done|]; [by right; exists s|].
      left. split; [done|]. by exists s.
  - assert (∀ s, s ∈ fr → edge s d = false) as Hno.
    { intros s Hs. apply not_true_is_false. intros He. apply not_true_iff_false in E. apply E.
      apply targets_true. eauto. }
    split; [|intros [(s & Hs & He) _]; by rewrite Hno in He].
    intros [[_ (s & Hs & He)] Hf]. exfalso. apply Hf. exists s. split; [done|].
    specialize (Hno s Hs). unfold effective in Hno. destruct (state o s d) as [[]|]; [done|done|congruence].
Qed.
End hop.

(** * Several hops *)

Section hops.
Context (native_expand : CompiledGraphBlasMatrix → list VertexId → N → Result SparseTraversal).
Context (c : CompiledGraphBlasMatrix) (o : GraphTopologyOverlay).

(** The frontier after [n] hops. *)
Fixpoint hop_level (starts : VertexId → Prop) (n : nat) (d : VertexId) : Prop :=
  match n with
  | O => starts d
  | S n => hop_to c o (hop_level starts n) d
  end.

(** The edges in effect. *)
Definition effective_edge : relation VertexId := λ s d, effective c o s d = true.

Lemma hop_to_ext P Q d : (∀ x, P x ↔ Q x) → hop_to c o P d ↔ hop_to c o Q d.
Proof. intros H. unfold hop_to. by setoid_rewrite H. Qed.

Lemma hop_level_ext P Q n d : (∀ x, P x ↔ Q x) → hop_level P n d ↔ hop_level Q n d.
Proof. intros H. revert d. induction n as [|n IH]; intros d; [apply H|]. by apply hop_to_ext. Qed.

(** Every hop follows edges in effect. *)
Lemma hop_level_walk starts n d : hop_level starts n d → level effective_edge starts n d.
Proof.
  revert d. induction n as [|n IH]; intros d; [by rewrite level_0|]. cbn [hop_level].
  intros [(s & Hs & He) _]. apply level_S. exists s. split; [by apply IH|done].
Qed.

(** No unchanged edge joins two vertices that walks of one length reach. *)
Definition levels_apart (starts : VertexId → Prop) : Prop :=
  ∀ n s d, level effective_edge starts n s → level effective_edge starts n d →
    effective c o s d = true → state o s d = Some true.

Lemma walk_hop_level starts n d : levels_apart starts → (∀ x, starts x ∨ ¬ starts x) →
  hop_level starts n d ↔ level effective_edge starts n d.
Proof.
  intros Hap Hdec. split; [apply hop_level_walk|]. revert d.
  induction n as [|n IH]; intros d; [by rewrite level_0|].
  intros (s & Hs & He)%level_S. cbn [hop_level]. split.
  - exists s. split; [by apply IH|done].
  - destruct (state o s d) as [[]|] eqn:Est; [right; exists s; split; [by apply IH|done]| |].
    all: left; intros Hd; apply hop_level_walk in Hd; specialize (Hap n s d Hs Hd He); congruence.
Qed.

Context (Hw : wf (canonical_out c)) (Hn : native_agrees native_expand c).

Lemma expand_hops_exact (starts : VertexId → Prop) min_hops hops : ∀ k frontier reachable visits,
  (∀ d, d ∈ frontier ↔ hop_level starts k d) →
  ∃ visits' result,
    expand_hops native_expand c o min_hops hops (N.of_nat (S k)) frontier reachable visits
      = Ok (visits', result) ∧
    ∀ d, d ∈ result ↔ d ∈ reachable ∨
      ∃ n, (k < n ≤ k + hops)%nat ∧ min_hops ≤ N.of_nat n ∧ hop_level starts n d.
Proof.
  induction hops as [|hops IH]; intros k frontier reachable visits Hf; cbn [expand_hops].
  { eexists _, _. split; [done|]. intros d. split; [by left|]. intros [?|(n & Hk & _)]; [done|lia]. }
  case_bool_decide as Hempty.
  { eexists _, _. split; [done|]. intros d. split; [by left|].
    intros [?|(n & Hk & _ & Hl)]; [done|]. exfalso. subst frontier.
    assert (∀ j x, ¬ hop_level starts (k + j) x) as Hnone.
    { induction j as [|j IHj]; intros x; [rewrite Nat.add_0_r, <- Hf; set_solver|].
      rewrite Nat.add_succ_r. intros [(s & Hs & _) _]. by apply IHj in Hs. }
    apply (Hnone (n - k)%nat d). by replace (k + (n - k))%nat with n by lia. }
  destruct (expand_hop_exact native_expand c o Hw Hn frontier visits) as (visits1 & next & -> & Hnext).
  cbn [mbind result_mbind result_bind].
  assert (∀ d, d ∈ next ↔ hop_level starts (S k) d) as Hlevel.
  { intros d. rewrite Hnext. by apply hop_to_ext. }
  replace (N.of_nat (S k) + 1) with (N.of_nat (S (S k))) by lia.
  destruct (IH (S k) next (if min_hops <=? N.of_nat (S k) then next ∪ reachable else reachable) visits1 Hlevel)
    as (visits' & result & -> & Hres).
  exists visits', result. split; [done|]. intros d. rewrite Hres. clear Hres IH.
  assert (d ∈ (if min_hops <=? N.of_nat (S k) then next ∪ reachable else reachable) ↔
    d ∈ reachable ∨ (min_hops ≤ N.of_nat (S k) ∧ hop_level starts (S k) d)) as ->.
  { destruct (N.leb_spec min_hops (N.of_nat (S k))); [rewrite elem_of_union, Hlevel; tauto|].
    split; [tauto|]. intros [?|[? _]]; [done|lia]. }
  split.
  - intros [[?|[Hm Hl]]|(n & Hk & Hm & Hl)]; [tauto|right; exists (S k)|right; exists n]; (split; [lia|done]).
  - intros [?|(n & Hk & Hm & Hl)]; [tauto|]. destruct (decide (n = S k)) as [->|]; [tauto|].
    right. exists n. split; [lia|done].
Qed.

Lemma expand_range_spec starts min_hops max_hops :
  ∃ t, expand_range_with_overlay native_expand c o starts min_hops max_hops = Ok t ∧
    StronglySorted N.lt (st_vertices t) ∧
    ∀ d, d ∈ st_vertices t ↔ ∃ n, (1 ≤ n)%nat ∧ min_hops ≤ N.of_nat n ≤ max_hops ∧
      hop_level (λ s, s ∈ starts) n d.
Proof.
  unfold expand_range_with_overlay.
  destruct (expand_hops_exact (λ s, s ∈ starts) min_hops (N.to_nat max_hops) 0 (list_to_set starts) ∅ 0)
    as (visits & result & Hr & Hres).
  { intros d. by rewrite elem_of_list_to_set. }
  change (N.of_nat 1) with 1 in Hr. rewrite Hr. cbn [mbind result_mbind result_bind].
  eexists. split; [done|]. cbn [st_vertices]. split; [apply bset_iter_strict|].
  intros d. rewrite elem_of_bset_iter, Hres. split.
  - intros [?|(n & Hk & Hm & Hl)]; [set_solver|]. exists n. split; [lia|]. split; [lia|done].
  - intros (n & Hk & Hm & Hl). right. exists n. split; [lia|]. split; [lia|done].
Qed.
End hops.

(** C20: what a traversal over a compiled matrix and an overlay returns.  It
    succeeds and returns, strictly ascending, the vertices of the frontiers
    [min_hops] to [max_hops] hops away, where a hop follows the edges in effect
    but finds a vertex of the frontier it leaves only through an edge the overlay
    adds.  So everything it returns is the end of a walk of that many effective
    edges; and when no unchanged edge joins two vertices reached by walks of one
    length, it returns exactly the ends of those walks. *)
Theorem overlay_traversal_exact (build_native : GraphBlasCsc → Result ())
  (native_expand : CompiledGraphBlasMatrix → list VertexId → N → Result SparseTraversal)
  (csc : GraphBlasCsc) (kernel : SparseKernelBackend) (c : CompiledGraphBlasMatrix)
  (o : GraphTopologyOverlay) (starts : list VertexId) (min_hops max_hops : N)
  (Hc : new_from_csc build_native csc kernel = Ok c) (Hn : native_agrees native_expand c) :
  ∃ t, expand_range_with_overlay native_expand c o starts min_hops max_hops = Ok t ∧
    StronglySorted N.lt (st_vertices t) ∧
    (∀ d, d ∈ st_vertices t ↔ ∃ n, (1 ≤ n)%nat ∧ min_hops ≤ N.of_nat n ≤ max_hops ∧
      hop_level c o (λ s, s ∈ starts) n d) ∧
    (∀ n d, hop_level c o (λ s, s ∈ starts) n d → level (effective_edge c o) (λ s, s ∈ starts) n d) ∧
    (levels_apart c o (λ s, s ∈ starts) → ∀ d, d ∈ st_vertices t ↔
      ∃ n, (1 ≤ n)%nat ∧ min_hops ≤ N.of_nat n ≤ max_hops ∧
        level (effective_edge c o) (λ s, s ∈ starts) n d).
Proof.
  pose proof (new_from_csc_wf _ _ _ _ Hc) as Hw.
  destruct (expand_range_spec native_expand c o Hw Hn starts min_hops max_hops) as (t & Ht & Hs & Hd).
  exists t. split; [done|]. split; [done|]. split; [done|]. split; [intros; by apply hop_level_walk|].
  intros Hap d. rewrite Hd. assert (∀ x : VertexId, x ∈ starts ∨ ¬ x ∈ starts) as Hdec.
  { intros x. destruct (decide (x ∈ starts)); auto. }
  by setoid_rewrite (walk_hop_level c o (λ s, s ∈ starts) _ _ Hap Hdec).
Qed.

(** The compact kernel as the native one. *)
Definition as_compact (c : CompiledGraphBlasMatrix) (starts : list VertexId) (hops : N) :
  Result SparseTraversal := compact_expand (canonical_out c) starts hops.

Lemma overlay_traversal_exact_witness : ∃ c t,
  new_from_csc (λ _, Ok ()) diamond_csc SuiteSparse = Ok c ∧
  expand_range_with_overlay as_compact c (set default 2 3 false) [1] 1 3 = Ok t ∧ st_vertices t = [2; 3].
Proof.
  destruct (new_from_csc (λ _, Ok ()) diamond_csc SuiteSparse) as [c|] eqn:E; [|discriminate E].
  destruct (overlay_traversal_exact (λ _, Ok ()) as_compact diamond_csc SuiteSparse c (set default 2 3 false)
    [1] 1 3 E) as (t & Ht & _ & _); [by intros starts hops|].
  exists c, t. split; [done|]. split; [exact Ht|]. injection E as <-. vm_compute in Ht. by injection Ht as <-.
Defined.

(** On an example: the ranged traversal with an overlay is not the ranged traversal without
    one, even when the overlay is empty.  On the edges 1 to 2, 1 to 3 and 2 to 3,
    exactly two hops from 1 reach 3 over the compiled matrix; over the same matrix
    with an empty overlay they reach nothing, because the walk through 2 ends in a
    vertex of the frontier it leaves. *)
Example overlay_traversal_loses
  (native_expand : CompiledGraphBlasMatrix → list VertexId → N → Result SparseTraversal)
  (native_expand_range : CompiledGraphBlasMatrix → list VertexId → N → N → Result SparseTraversal) :
  ∃ c, new_from_csc (λ _, Ok ()) diamond_csc CompactCsc = Ok c ∧
    st_vertices <$> compiled_expand_range native_expand_range c [1] 2 2 = Ok [3] ∧
    st_vertices <$> expand_range_with_overlay native_expand c default [1] 2 2 = Ok [].
Proof. eexists. split; [reflexivity|]. split; vm_compute; reflexivity. Qed.

(** * The cache of parsed files *)

Definition file_weight (l : list WalTopologyEntry) : N := file_len l.

(** The books balance: the total is what the cached files hold. *)
Definition wal_books (c : WalTailFileCache) : Prop := total_entries c = wsum file_weight (files c).
Definition wal_ok (c : WalTailFileCache) : Prop :=
  wal_books c ∧ total_entries c ≤ WAL_TAIL_CACHE_MAX_ENTRIES.

Lemma btree_head {V} (m : gmap N V) p l :
  btree_iter m = p :: l → m !! p.1 = Some p.2 ∧ ∀ k, is_Some (m !! k) → p.1 ≤ k.
Proof.
  intros E. split.
  - apply elem_of_btree_iter. rewrite E. destruct p. left.
  - intros k [v Hk]. apply (elem_of_btree_iter m) in Hk. rewrite E in Hk.
    pose proof (btree_iter_sorted m) as Hs. rewrite E in Hs. apply StronglySorted_inv in Hs as [_ Hs].
    rewrite Forall_forall in Hs. apply elem_of_cons in Hk as [Hk|Hk].
    + by rewrite <- Hk.
    + by apply Hs in Hk.
Qed.

(** What eviction leaves: files with an id below some bound are gone, the others
    are as they were. *)
Definition evicted_below (c c' : WalTailFileCache) : Prop := ∃ b,
  ∀ id, files c' !! id = if id <? b then None else files c !! id.

Lemma evict_loop_spec fuel c :
  (size (files c) < fuel)%nat → wal_books c →
  let c' := evict_loop fuel c in wal_ok c' ∧ evicted_below c c' ∧
  (total_entries c ≤ WAL_TAIL_CACHE_MAX_ENTRIES → c' = c) ∧
  (∀ id l, files c !! id = Some l → file_len l ≤ WAL_TAIL_CACHE_MAX_ENTRIES →
     (∀ id', is_Some (files c !! id') → id' ≤ id) → files c' !! id = Some l).
Proof.
  cbv zeta. revert c. induction fuel as [|fuel IH]; intros c Hfuel Hb; [lia|]. cbn [evict_loop].
  destruct (N.leb_spec (total_entries c) WAL_TAIL_CACHE_MAX_ENTRIES) as [Hle|Hgt].
  { split; [by split|]. split; [|by split]. exists 0. intros id. by destruct (N.ltb_spec id 0); [lia|]. }
  destruct (btree_iter (files c)) as [|[id evicted] rest] eqn:E.
  { apply btree_iter_nil_inv in E. unfold wal_books in Hb. rewrite E, wsum_empty in Hb. lia. }
  apply btree_head in E as [Hid Hmin]. cbn [fst snd] in Hid, Hmin.
  set (c1 := MkWalCache _ _).
  assert (wal_books c1) as Hb1.
  { unfold wal_books, c1. cbn [files total_entries]. unfold wal_books in Hb.
    rewrite (wsum_delete _ _ _ _ Hid) in Hb. unfold saturating_sub, file_weight in *. lia. }
  destruct (IH c1) as (Hok & (b & Hev) & Hsame & Hkeep); [|exact Hb1|].
  { unfold c1. cbn [files]. rewrite map_size_delete, Hid. cbn.
    assert (size (files c) ≠ 0%nat) by (apply (map_size_ne_0_lookup_2 _ id); by exists evicted). lia. }
  split; [done|]. split; [|split; [lia|]].
  - exists (N.max b (id + 1)). intros k. rewrite Hev. unfold c1. cbn [files].
    destruct (N.ltb_spec k b); destruct (N.ltb_spec k (N.max b (id + 1))); try lia; [done| |].
    + destruct (decide (k = id)) as [->|Hne]; [by rewrite lookup_delete_eq|].
      rewrite lookup_delete_ne by done. destruct (files c !! k) eqn:Ek; [|done].
      specialize (Hmin k). rewrite Ek in Hmin. specialize (Hmin ltac:(by eexists)). lia.
    + rewrite lookup_delete_ne by lia. done.
  - intros k l Hk Hl Hmax. destruct (decide (k = id)) as [->|Hne].
    + exfalso. rewrite Hid in Hk. injection Hk as ->.
      assert (delete id (files c) = ∅) as Hempty.
      { apply map_empty. intros j. destruct (decide (j = id)) as [->|Hj]; [apply lookup_delete_eq|].
        rewrite lookup_delete_ne by done. destruct (files c !! j) eqn:Ej; [|done].
        pose proof (Hmin j). pose proof (Hmax j). rewrite Ej in *.
        exfalso. apply Hj, N.le_antisymm; eauto. }
      unfold wal_books in Hb. rewrite (wsum_delete _ _ _ _ Hid), Hempty, wsum_empty in Hb.
      unfold file_weight in Hb. lia.
    + apply Hkeep; [unfold c1; cbn; by rewrite lookup_delete_ne|done|].
      unfold c1. cbn [files]. intros j Hj. apply Hmax. destruct (decide (j = id)) as [->|Hji].
      * by exists evicted.
      * by rewrite lookup_delete_ne in Hj.
Qed.

(** The cache of parsed WAL files keeps to its budget.  After any insertion
    into a cache whose total is what its files hold and within the budget, the
    same is true again; the only files that went are those below some WAL id;
    a file over the whole budget is not cached and changes nothing; and a file
    within it that is the newest is cached. *)
Theorem wal_cache_bounded (c : WalTailFileCache) (id : N) (es : list WalTopologyEntry) (Hc : wal_ok c) :
  let c' := wal_insert c id es in
  wal_ok c' ∧
  (WAL_TAIL_CACHE_MAX_ENTRIES < file_len es → c' = c) ∧
  (file_len es ≤ WAL_TAIL_CACHE_MAX_ENTRIES →
     (∃ b, ∀ k, wal_get c' k = if k <? b then None
                else if k =? id then Some es else wal_get c k) ∧
     ((∀ k, is_Some (wal_get c k) → k ≤ id) → wal_get c' id = Some es)).
Proof.
  cbv zeta. destruct Hc as [Hb Hle]. unfold wal_insert.
  destruct (N.ltb_spec WAL_TAIL_CACHE_MAX_ENTRIES (file_len es)) as [Hbig|Hfit].
  { split; [by split|]. split; [done|]. intros. lia. }
  cbv zeta. set (c1 := MkWalCache _ _).
  assert (wal_books c1) as Hb1.
  { unfold wal_books, c1. cbn [files total_entries]. unfold wal_books in Hb.
    unfold WAL_TAIL_CACHE_MAX_ENTRIES in *. destruct (files c !! id) as [previous|] eqn:Ep.
    - rewrite <- insert_delete_eq, wsum_insert by apply lookup_delete_eq.
      rewrite (wsum_delete _ _ _ _ Ep) in Hb.
      unfold saturating_add, saturating_sub, file_weight, u64_max in *. lia.
    - rewrite wsum_insert by done. unfold saturating_add, file_weight, u64_max in *. lia. }
  destruct (evict_loop_spec (S (size (files c1))) c1 (Nat.lt_succ_diag_r _) Hb1) as (Hok & (b & Hev) & _ & Hkeep).
  split; [done|]. split; [lia|]. intros _. split.
  - exists b. intros k. unfold wal_get. rewrite Hev. destruct (k <? b); [done|]. unfold c1. cbn [files].
    destruct (N.eqb_spec k id) as [->|Hne]; [apply lookup_insert_eq|by rewrite lookup_insert_ne].
  - intros Hmax. apply Hkeep; [apply lookup_insert_eq|done|].
    intros k. unfold c1. cbn [files]. destruct (decide (k = id)) as [->|Hne]; [lia|].
    rewrite lookup_insert_ne by done. apply Hmax.
Qed.

Lemma wal_cache_bounded_witness :
  wal_get (wal_insert wal_cache_default 7 [MkWalEntry "c" "t" 1 (WalEdge 1 2)]) 7
  = Some [MkWalEntry "c" "t" 1 (WalEdge 1 2)].
Proof.
  apply (wal_cache_bounded wal_cache_default 7 [MkWalEntry "c" "t" 1 (WalEdge 1 2)]).
  - split; [reflexivity|]. vm_compute. discriminate.
  - vm_compute. discriminate.
  - intros k [l H]. discriminate H.
Defined.
