(* ===== verification/IndexStore.v ===== *)
(** [engine/index_store.rs] with the helpers of [engine.rs] and
    [engine/artifact_build.rs] it uses: generations of a graph index in an object
    store.  Reading the canonical adjacency of a snapshot, the byte formats of a
    generation and of its manifest, the full and the incremental build, the
    publication by conditional writes, and the collection of old generations. *)

From Stdlib Require Import Ascii.
From S2P Require Import Prelude Text Errors Model Namespace Keys Codec CodecRecords Kv ShardTxn SegmentReads Sparse Overlay Xlog.

Local Open Scope N_scope.

Module index.

Import sparse.

Definition INDEX_MANIFEST_MAGIC : string := "hydradb-index-current-v1".
Definition INDEX_CSC_MAGIC : string := "hydradb-index-csc-v1" +:+ nul.
Definition INDEX_PUBLISH_ATTEMPTS : nat := 8.

Inductive GraphIndexBuildPath : Type :=
  | PathFull (edges : N)
  | PathIncremental (delta_edges : N)
  | PathCurrent.

(** * The canonical adjacency of a snapshot *)

Record MatrixRows := MkRows { rows : gmap VertexId (list VertexId); raw_edges : N; live_edges : N }.
Definition no_rows : MatrixRows := MkRows ∅ 0 0.

Definition push (r : MatrixRows) (src dst : VertexId) : MatrixRows :=
  MkRows (<[src := default [] (rows r !! src) ++ [dst]]> (rows r)) (saturating_add (raw_edges r) 1)
    (live_edges r).

(** [sort_unstable] then [dedup]. *)
Fixpoint dedup_vertices (l : list VertexId) : list VertexId :=
  match l with
  | a :: (b :: _) as l' => if a =? b then dedup_vertices l' else a :: dedup_vertices l'
  | _ => l
  end.

Definition normalize_row (l : list VertexId) : list VertexId := dedup_vertices (merge_sort N.le l).
Definition normalize (r : MatrixRows) : MatrixRows :=
  let normal := normalize_row <$> rows r in
  MkRows (filter (λ p, p.2 ≠ []) normal) (raw_edges r)
    (foldl (λ n p, saturating_add n (N.of_nat (length p.2))) 0 (btree_iter normal)).

Section scan.
(** [scan_remote_prefix] of the scoped snapshot, and the build limit. *)
Context (scan : string → Items) (max_artifact_build_edges : N).

Definition push_limited (r : MatrixRows) (src dst : VertexId) : Result MatrixRows :=
  let r := push r src dst in
  _ ← ensure_limit "build_matrix_tiles_edges" (raw_edges r) max_artifact_build_edges;
  Ok r.

Definition record_row_step (r : MatrixRows) (kv : string * string) : Result (Flow MatrixRows) :=
  record ← decode_edge_record (entry_key kv) kv.2;
  r ← push_limited r (er_src record) (er_dst record);
  Ok (Continue r).

Definition pair_tombstone_step (cell_id edge_type : string) (base_epoch : StorageSequence)
  (tombstones : gmap (VertexId * VertexId) StorageSequence) (kv : string * string) :
  Result (Flow (gmap (VertexId * VertexId) StorageSequence)) :=
  let key := entry_key kv in
  '(key_cell_id, key_edge_type, src, dst) ← parse_out_edge_segment_tombstone_key key;
  if negb (bool_decide (key_cell_id = cell_id)) || negb (bool_decide (key_edge_type = edge_type))
  then Err (CorruptValue key "segment tombstone identity does not match scan prefix")
  else
    epoch ← decode_u64 key kv.2;
    Ok (Continue (if epoch <=? base_epoch then <[(src, dst) := epoch]> tombstones else tombstones)).

Definition current_out_segment_tombstones (cell_id edge_type : string) (base_epoch : StorageSequence) :
  Result (gmap (VertexId * VertexId) StorageSequence) :=
  scan_loop (pair_tombstone_step cell_id edge_type base_epoch) ∅
    (scan (keys.out_segment_tombstone_edge_type_prefix cell_id edge_type)).

Definition segment_row_step (tombstones : gmap (VertexId * VertexId) StorageSequence)
  (base_epoch : StorageSequence) (r : MatrixRows) (kv : string * string) : Result (Flow MatrixRows) :=
  segment ← decode_out_edge_segment (entry_key kv) kv.2;
  if base_epoch <? oes_storage_sequence segment then Ok (Continue r)
  else
    r ← foldM (λ r dst,
          if segment_edge_visible (oes_storage_sequence segment) (tombstones !! (oes_src segment, dst))
          then push_limited r (oes_src segment) dst else Ok r) r (oes_destinations segment);
    Ok (Continue r).

Definition current_matrix_rows (cell_id edge_type : string) (base_epoch : StorageSequence) :
  Result MatrixRows :=
  r ← scan_loop record_row_step no_rows (scan (keys.out_edge_type_prefix cell_id edge_type));
  tombstones ← current_out_segment_tombstones cell_id edge_type base_epoch;
  scan_loop (segment_row_step tombstones base_epoch) r
    (scan (keys.out_segment_edge_type_prefix cell_id edge_type)).

Definition canonical_adjacency_at (cell_id edge_type : string) (read_epoch : StorageSequence) :
  Result (gmap VertexId (gset VertexId)) :=
  r ← current_matrix_rows cell_id edge_type read_epoch;
  Ok (list_to_set <$> rows (normalize r)).
End scan.

(** * The byte format of a generation *)

(** [u64::to_le_bytes], the least significant byte first. *)
Fixpoint le_go (k : nat) (n : N) : string :=
  match k with O => "" | S k => String (ascii_of_N (n mod 256)) (le_go k (n / 256)) end.
Definition to_le_bytes (n : N) : string := le_go 8 n.
Fixpoint from_le_bytes (s : string) : N :=
  match s with "" => 0 | String c s => byte_of c + 256 * from_le_bytes s end.

(** [value.get(start..end)]. *)
Definition str_range (value : string) (s e : N) : option string :=
  if (s <=? e) && (e <=? strlen value)
  then '(_, rest) ← take_str (N.to_nat s) value;
       '(bytes, _) ← take_str (N.to_nat (e - s)) rest; Some bytes
  else None.

Definition checksum_u64 (hash value : N) : N := fnv_update hash (to_le_bytes value).

Definition graphblas_csc_checksum (c : GraphBlasCsc) : N :=
  let hash := foldl checksum_u64 (checksum_u64 FNV_OFFSET 1) (csc_vertices c) in
  let hash := foldl checksum_u64 (checksum_u64 hash 2) (csc_pointers c) in
  foldl checksum_u64 (checksum_u64 hash 3) (csc_indices c).

Definition validate_graphblas_csc_artifact (key : string) (c : GraphBlasCsc) : Result unit :=
  let vertices := csc_vertices c in
  let pointers := csc_pointers c in
  let indices := csc_indices c in
  if negb (length pointers =? length vertices + 1)%nat
  then corrupt key "CSC pointer count does not match vertex count"
  else if negb (bool_decide (head pointers = Some 0))
  then corrupt key "CSC first pointer must be zero"
  else if negb (windows_all N.leb pointers)
  then corrupt key "CSC pointers must be monotonic"
  else if negb (N.to_nat (last_or_zero pointers) =? length indices)%nat
  then corrupt key "CSC edge count does not match index count"
  else match list_find (λ index, N.of_nat (length vertices) ≤ index) indices with
       | Some (_, index) => corrupt key ("CSC index " +:+ dec index +:+ " exceeds vertex count")
       | None =>
           if negb (windows_all N.ltb vertices)
           then corrupt key "CSC vertices must be sorted and unique"
           else Ok tt
       end.

Definition encode_index_u64s (out : string) (values : list N) : string :=
  foldl (λ out value, out +:+ to_le_bytes value)
    (out +:+ to_le_bytes (N.of_nat (length values))) values.

Definition encode_graph_index_csc (base_sequence last_wal_id checksum : N) (c : GraphBlasCsc) : string :=
  let value := INDEX_CSC_MAGIC +:+ to_le_bytes base_sequence +:+ to_le_bytes last_wal_id
                 +:+ to_le_bytes checksum in
  let value := encode_index_u64s value (csc_vertices c) in
  let value := encode_index_u64s value (csc_pointers c) in
  encode_index_u64s value (csc_indices c).

(** The cursor moves past what was read. *)
Definition decode_index_u64 (key value : string) (cursor : N) (field : string) : Result (N * N) :=
  let end_ := saturating_add cursor 8 in
  bytes ← ok_or (str_range value cursor end_) (CorruptValue key ("truncated " +:+ field));
  Ok (from_le_bytes bytes, end_).

Definition decode_index_u64s (key value : string) (cursor : N) (field : string) : Result (list N * N) :=
  '(len, cursor) ← decode_index_u64 key value cursor field;
  byte_len ← ok_or (checked_mul len 8) (CorruptValue key (field +:+ " byte length overflow"));
  end_ ← ok_or (checked_add cursor byte_len) (CorruptValue key (field +:+ " cursor overflow"));
  bytes ← ok_or (str_range value cursor end_) (CorruptValue key ("truncated " +:+ field));
  Ok (from_le_bytes <$> chunks_exact 8 bytes, end_).

Definition decode_graph_index_csc (key value : string) (expected_sequence expected_wal_id expected_checksum : N) :
  Result GraphBlasCsc :=
  if negb (starts_with INDEX_CSC_MAGIC value) then corrupt key "expected hydradb index CSC v1 payload"
  else
    let cursor := strlen INDEX_CSC_MAGIC in
    '(base_sequence, cursor) ← decode_index_u64 key value cursor "base_sequence";
    '(last_wal_id, cursor) ← decode_index_u64 key value cursor "last_wal_id";
    '(checksum, cursor) ← decode_index_u64 key value cursor "checksum";
    if negb (bool_decide ((base_sequence, last_wal_id, checksum)
                          = (expected_sequence, expected_wal_id, expected_checksum)))
    then corrupt key "index CSC identity does not match manifest"
    else
      '(vertices, cursor) ← decode_index_u64s key value cursor "vertices";
      '(pointers, cursor) ← decode_index_u64s key value cursor "pointers";
      '(indices, cursor) ← decode_index_u64s key value cursor "indices";
      let c := MkCsc vertices pointers indices in
      if negb (cursor =? strlen value) then corrupt key "trailing bytes in index CSC payload"
      else
        _ ← validate_graphblas_csc_artifact key c;
        if negb (graphblas_csc_checksum c =? checksum) then corrupt key "index CSC checksum mismatch"
        else Ok c.

(** ** The manifest *)

Definition encode_graph_index_manifest (m : overlay.GraphIndexGeneration) : string :=
  record_line [INDEX_MANIFEST_MAGIC; overlay.gen_cell_id m; overlay.gen_edge_type m; dec (overlay.gen_base_sequence m);
    dec (overlay.gen_last_wal_id m); dec (overlay.gen_edge_count m); dec (overlay.gen_checksum m); overlay.gen_generation m].

Definition is_ascii_hexdigit (c : ascii) : bool :=
  let b := byte_of c in in_range 48 57 b || in_range 65 70 b || in_range 97 102 b.

Definition decode_graph_index_manifest (key value : string) : Result overlay.GraphIndexGeneration :=
  text ← decode_text key value;
  match record_fields text with
  | [magic; cell_id; edge_type; sequence; wal_id; count; sum; generation] =>
      if negb (bool_decide (magic = INDEX_MANIFEST_MAGIC))
      then corrupt key "expected hydradb index current v1 manifest"
      else
        _ ← validate_component "cell_id" cell_id;
        _ ← validate_component "edge_type" edge_type;
        if negb (strlen generation =? 64) || negb (str_forall is_ascii_hexdigit generation)
        then corrupt key "index generation must be a SHA-256 digest"
        else
          base_sequence ← parse_u64 key sequence "base_sequence";
          last_wal_id ← parse_u64 key wal_id "last_wal_id";
          edge_count ← parse_u64 key count "edge_count";
          checksum ← parse_u64 key sum "checksum";
          Ok (overlay.MkGeneration cell_id edge_type base_sequence last_wal_id edge_count checksum generation)
  | _ => corrupt key "expected hydradb index current v1 manifest"
  end.

Definition is_ascii_digit (c : ascii) : bool := in_range 48 57 (byte_of c).

Definition graph_index_sequence_from_path (key : string) : Result StorageSequence :=
  let file_name := default key (last (split chr_slash key)) in
  match split_once "-"%char file_name with
  | None => corrupt key "index generation key is missing its sequence prefix"
  | Some (sequence, _) =>
      if negb (strlen sequence =? 20) || negb (str_forall is_ascii_digit sequence)
      then corrupt key "index generation sequence must be a 20-digit decimal prefix"
      else parse_u64 key sequence "base_sequence"
  end.

(** * The patch of an incremental build *)

Definition patch_entry (adjacency : Adjacency) (e : VertexId * VertexId * bool) : Adjacency :=
  let '(src, dst, exists_) := e in
  if exists_ : bool then <[src := {[dst]} ∪ default ∅ (adjacency !! src)]> adjacency
  else match adjacency !! src with
       | Some destinations =>
           let destinations := destinations ∖ {[dst]} in
           if bool_decide (destinations = ∅) then delete src adjacency
           else <[src := destinations]> adjacency
       | None => adjacency
       end.

Definition patch (adjacency : Adjacency) (o : overlay.GraphTopologyOverlay) : Adjacency :=
  foldl patch_entry adjacency (overlay.entries o).

(** * The object store

    The errors the code tells apart; [get] returns the version of the object and
    its body, which may fail on its own.  The store is shared, so an operation
    returns the state it left behind. *)

Inductive OsError : Type := OsNotFound | OsAlreadyExists | OsPrecondition | OsOther (error : string).
Record UpdateVersion := MkVersion { e_tag : option string; version : option string }.
Inductive PutMode : Type := PutCreate | PutUpdate (v : UpdateVersion).

Class ObjectStore : Type := {
  Os : Type;
  os_get : Os → string → Os * result OsError (UpdateVersion * result OsError string);
  os_put : Os → string → string → PutMode → Os * result OsError unit;
  os_delete : Os → string → Os * result OsError unit;
  os_list : Os → string → Os * list (result OsError string);
}.

Abbreviation MatrixCacheKey := (string * string * N)%type.

(** What the index operations of a shard move: the object store and the
    generations it remembers. *)
Record Engine {O : ObjectStore} := MkEngine {
  en_os : Os; en_generations : gmap MatrixCacheKey overlay.GraphIndexGeneration }.
Arguments Engine O : clear implicits.
Arguments MkEngine {O} _ _.

Section engine.
Context {Sl : SlateDb} {Ob : ObjectStore}.
(** [Path::from], the display of an object-store error, SHA-256, and the WAL
    position of a snapshot. *)
Context (path_of : string → string) (os_error_text : OsError → string) (sha256 : string → string).
Context (snap_last_wal_id : Snap → option N).
(** The store path of the shard and its build limit. *)
Context (store_path : string) (max_artifact_build_edges : N).

Definition os_into (e : OsError) : GraphError := Errors.ObjectStore (os_error_text e).

Definition sha256_hex (value : string) : string := hex_encode (sha256 value).

Definition graph_index_root : string := store_path +:+ "/_graph_index".
Definition graph_index_manifest_path (cell_id edge_type : string) : string :=
  path_of (graph_index_root +:+ "/" +:+ cell_id +:+ "/" +:+ edge_type +:+ "/current").
Definition graph_index_generation_path (cell_id edge_type : string) (base_sequence : StorageSequence)
  (generation : string) : string :=
  path_of (graph_index_root +:+ "/" +:+ cell_id +:+ "/" +:+ edge_type +:+ "/generations/"
    +:+ pad20 base_sequence +:+ "-" +:+ generation +:+ ".csc").
Definition graph_index_generations_prefix (cell_id edge_type : string) : string :=
  path_of (graph_index_root +:+ "/" +:+ cell_id +:+ "/" +:+ edge_type +:+ "/generations").

(** An object-store call whose failure the caller inspects. *)
Definition os_call {A} (f : Os → Os * A) : SM (Engine Ob) A := λ s,
  let '(o, r) := f (en_os s) in (MkEngine o (en_generations s), Ok r).
Definition remember (key : MatrixCacheKey) (g : overlay.GraphIndexGeneration) : SM (Engine Ob) unit :=
  modify (λ s, MkEngine (en_os s) (<[key := g]> (en_generations s))).

Definition current_graph_index (cell_id edge_type : string) : SM (Engine Ob) (option overlay.GraphIndexGeneration) :=
  lift (validate_component "cell_id" cell_id) ;;
  lift (validate_component "edge_type" edge_type) ;;
  let path := graph_index_manifest_path cell_id edge_type in
  result ← os_call (λ o, os_get o path);
  match result with
  | Err OsNotFound => mret None
  | Err e => fails (os_into e)
  | Ok (_, body) =>
      value ← lift (map_err os_into body);
      manifest ← lift (decode_graph_index_manifest path value);
      if negb (bool_decide (overlay.gen_cell_id manifest = cell_id)) || negb (bool_decide (overlay.gen_edge_type manifest = edge_type))
      then lift (corrupt path "index manifest identity does not match path")
      else mret (Some manifest)
  end.

Definition graph_index_csc (g : overlay.GraphIndexGeneration) : SM (Engine Ob) (option GraphBlasCsc) :=
  let path := graph_index_generation_path (overlay.gen_cell_id g) (overlay.gen_edge_type g) (overlay.gen_base_sequence g)
                (overlay.gen_generation g) in
  result ← os_call (λ o, os_get o path);
  match result with
  | Err OsNotFound | Ok (_, Err OsNotFound) => mret None
  | Err e | Ok (_, Err e) => fails (os_into e)
  | Ok (_, Ok value) =>
      c ← lift (decode_graph_index_csc path value (overlay.gen_base_sequence g) (overlay.gen_last_wal_id g) (overlay.gen_checksum g));
      if negb (N.of_nat (length (csc_indices c)) =? overlay.gen_edge_count g)
      then lift (corrupt path "index edge count does not match manifest")
      else mret (Some c)
  end.

(** A published generation that makes a proposal superfluous. *)
Definition supersedes (published proposed : overlay.GraphIndexGeneration) : bool :=
  (overlay.gen_base_sequence proposed <? overlay.gen_base_sequence published)
  || ((overlay.gen_base_sequence published =? overlay.gen_base_sequence proposed)
      && (overlay.gen_last_wal_id proposed <=? overlay.gen_last_wal_id published)).

(** The attempts that are left to replace the manifest. *)
Fixpoint publish_attempts (attempts : nat) (manifest_path manifest_payload : string)
  (proposed : overlay.GraphIndexGeneration) : SM (Engine Ob) overlay.GraphIndexGeneration :=
  match attempts with
  | O => fails (ConditionalWriteConflict "publish_graph_index" manifest_path)
  | S attempts =>
      current ← os_call (λ o, os_get o manifest_path);
      step ← (match current with
        | Err OsNotFound => mret (inr PutCreate)
        | Err e => fails (os_into e)
        | Ok (version, body) =>
            value ← lift (map_err os_into body);
            published ← lift (decode_graph_index_manifest manifest_path value);
            if supersedes published proposed then mret (inl published)
            else mret (inr (PutUpdate version))
        end);
      match step with
      | inl published => mret published
      | inr mode =>
          put ← os_call (λ o, os_put o manifest_path manifest_payload mode);
          match put with
          | Ok _ => mret proposed
          | Err OsAlreadyExists | Err OsPrecondition | Err OsNotFound =>
              publish_attempts attempts manifest_path manifest_payload proposed
          | Err e => fails (os_into e)
          end
      end
  end.

Definition publish_graph_index (proposed : overlay.GraphIndexGeneration) (payload : string) :
  SM (Engine Ob) overlay.GraphIndexGeneration :=
  let generation_path := graph_index_generation_path (overlay.gen_cell_id proposed) (overlay.gen_edge_type proposed)
                           (overlay.gen_base_sequence proposed) (overlay.gen_generation proposed) in
  put ← os_call (λ o, os_put o generation_path payload PutCreate);
  (match put with
   | Ok _ | Err OsAlreadyExists => mret tt
   | Err e => fails (os_into e)
   end) ;;
  publish_attempts INDEX_PUBLISH_ATTEMPTS (graph_index_manifest_path (overlay.gen_cell_id proposed) (overlay.gen_edge_type proposed))
    (encode_graph_index_manifest proposed) proposed.

(** ** Building *)

(** What the build asks of the shard before it reads: the permit, the refresh of
    the durable reader, the durable WAL position and the snapshot, in this order. *)
Record BuildInputs := MkInputs {
  in_permit : Result unit; in_refresh : Result unit; in_durable_wal_id : Result N; in_snapshot : Result Snap }.

Definition open_build (i : BuildInputs) : SM (Engine Ob) (Snap * N * N) :=
  lift (in_permit i) ;;
  lift (in_refresh i) ;;
  durable_wal_id ← lift (in_durable_wal_id i);
  snapshot ← lift (in_snapshot i);
  mret (snapshot, snap_seq snapshot, default durable_wal_id (snap_last_wal_id snapshot)).

(** The encoding both builds share. *)
Definition encode_generation (cell_id edge_type : string) (base_sequence last_wal_id : N) (adjacency : Adjacency) :
  Result (overlay.GraphIndexGeneration * string) :=
  c ← graphblas_csc_from_adjacency adjacency;
  let edge_count := N.of_nat (length (csc_indices c)) in
  _ ← ensure_limit "build_graph_index_edges" edge_count max_artifact_build_edges;
  let checksum := graphblas_csc_checksum c in
  let payload := encode_graph_index_csc base_sequence last_wal_id checksum c in
  Ok (overlay.MkGeneration cell_id edge_type base_sequence last_wal_id edge_count checksum (sha256_hex payload), payload).

Definition publish_and_remember (cell_id edge_type : string) (manifest : overlay.GraphIndexGeneration) (payload : string) :
  SM (Engine Ob) overlay.GraphIndexGeneration :=
  published ← publish_graph_index manifest payload;
  remember (cell_id, edge_type, overlay.gen_base_sequence published) published ;;
  mret published.

Definition full_generation (snapshot : Snap) (cell_id edge_type : string) (base_sequence last_wal_id : N) :
  Result (overlay.GraphIndexGeneration * string) :=
  adjacency ← canonical_adjacency_at (λ prefix, snap_scan_prefix snapshot prefix None None)
                max_artifact_build_edges cell_id edge_type base_sequence;
  encode_generation cell_id edge_type base_sequence last_wal_id adjacency.

Definition build_graph_index (i : BuildInputs) (cell_id edge_type : string) : SM (Engine Ob) overlay.GraphIndexGeneration :=
  lift (validate_component "cell_id" cell_id) ;;
  lift (validate_component "edge_type" edge_type) ;;
  '(snapshot, base_sequence, last_wal_id) ← open_build i;
  '(manifest, payload) ← lift (full_generation snapshot cell_id edge_type base_sequence last_wal_id);
  publish_and_remember cell_id edge_type manifest payload.

Definition build_graph_index_incremental (i : BuildInputs) (cell_id edge_type : string) :
  SM (Engine Ob) (option (overlay.GraphIndexGeneration * GraphIndexBuildPath)) :=
  lift (validate_component "cell_id" cell_id) ;;
  lift (validate_component "edge_type" edge_type) ;;
  '(snapshot, base_sequence, last_wal_id) ← open_build i;
  previous ← current_graph_index cell_id edge_type;
  match previous with
  | None => mret None
  | Some previous =>
      if base_sequence <=? overlay.gen_base_sequence previous then mret (Some (previous, PathCurrent))
      else
        delta ← lift (xlog_delta_since snapshot previous base_sequence cell_id edge_type);
        match delta with
        | XlogUninitialized | XlogCoverageGap _ => mret None
        | XlogComplete o =>
            c ← graph_index_csc previous;
            match c with
            | None => mret None
            | Some c =>
                adjacency ← lift (to_adjacency c);
                '(manifest, payload) ←
                  lift (encode_generation cell_id edge_type base_sequence last_wal_id (patch adjacency o));
                published ← publish_and_remember cell_id edge_type manifest payload;
                mret (Some (published, PathIncremental (N.of_nat (length (overlay.entries o)))))
            end
        end
  end.

(** The fallback builds from inputs of its own. *)
Definition build_graph_index_auto (i i' : BuildInputs) (cell_id edge_type : string) :
  SM (Engine Ob) (overlay.GraphIndexGeneration * GraphIndexBuildPath) :=
  result ← build_graph_index_incremental i cell_id edge_type;
  match result with
  | Some result => mret result
  | None =>
      generation ← build_graph_index i' cell_id edge_type;
      mret (generation, PathFull (overlay.gen_edge_count generation))
  end.

(** ** Collecting *)

(** Newest first, then by location. *)
Definition older_le : relation (N * string) := λ a b, b.1 < a.1 ∨ a.1 = b.1 ∧ key_le a.2 b.2.
Global Instance older_le_dec : RelDecision older_le.
Proof. intros a b. unfold older_le. apply _. Defined.

Fixpoint collect_older (bound : N) (items : list (result OsError string)) (older : list (N * string)) :
  Result (list (N * string)) :=
  match items with
  | [] => Ok older
  | Err e :: _ => Err (os_into e)
  | Ok location :: items =>
      base_sequence ← graph_index_sequence_from_path location;
      collect_older bound items
        (if base_sequence <? bound then older ++ [(base_sequence, location)] else older)
  end.

Fixpoint delete_each (locations : list string) (deleted : N) : SM (Engine Ob) N :=
  match locations with
  | [] => mret deleted
  | location :: locations =>
      r ← os_call (λ o, os_delete o location);
      match r with
      | Ok _ => delete_each locations (saturating_add deleted 1)
      | Err e => fails (os_into e)
      end
  end.

Definition gc_graph_index_generations (cell_id edge_type : string) (retain_previous : nat) : SM (Engine Ob) N :=
  lift (validate_component "cell_id" cell_id) ;;
  lift (validate_component "edge_type" edge_type) ;;
  current ← current_graph_index cell_id edge_type;
  match current with
  | None => mret 0
  | Some current =>
      items ← os_call (λ o, os_list o (graph_index_generations_prefix cell_id edge_type));
      older ← lift (collect_older (overlay.gen_base_sequence current) items []);
      delete_each (snd <$> drop retain_previous (merge_sort older_le older)) 0
  end.
End engine.

End index.
