(* ===== verification/IndexCodec.v ===== *)
(** [IndexStore]: the byte format of an index generation has exactly one
    encoding, and the manifest reads back. *)

From Stdlib Require Import Ascii.
From S2P Require Import Prelude Text TextFacts Errors Model Namespace Keys Codec CodecFacts CodecRecords CodecRecordFacts Kv Sparse SparseFacts SparseBuild Overlay IndexStore.

Local Open Scope N_scope.

Import sparse index.

(** * Little-endian words *)

Lemma le_go_length k n : String.length (le_go k n) = k.
Proof. revert n. induction k as [|k IH]; intros n; [done|]. cbn. by rewrite IH. Qed.

Lemma from_le_go k n : n < 256 ^ N.of_nat k → from_le_bytes (le_go k n) = n.
Proof.
  revert n. induction k as [|k IH]; intros n Hn; [cbn in *; lia|].
  cbn [le_go from_le_bytes]. rewrite byte_of_ascii by (apply N.mod_lt; lia).
  rewrite IH; [rewrite (N.div_mod n 256) at 3 by lia; lia|].
  apply N.Div0.div_lt_upper_bound. rewrite Nat2N.inj_succ, N.pow_succ_r' in Hn. lia.
Qed.

Lemma from_le_bound s : from_le_bytes s < 256 ^ N.of_nat (String.length s).
Proof.
  induction s as [|c s IH]; [cbn; lia|]. cbn [from_le_bytes String.length].
  rewrite Nat2N.inj_succ, N.pow_succ_r'. pose proof (byte_of_lt c). nia.
Qed.

Lemma le_go_from s : le_go (String.length s) (from_le_bytes s) = s.
Proof.
  induction s as [|c s IH]; [done|]. cbn [from_le_bytes String.length le_go].
  pose proof (byte_of_lt c) as Hc.
  assert ((byte_of c + 256 * from_le_bytes s) mod 256 = byte_of c) as ->.
  { rewrite N.mul_comm, N.Div0.mod_add. by apply N.mod_small. }
  assert ((byte_of c + 256 * from_le_bytes s) / 256 = from_le_bytes s) as ->.
  { rewrite N.mul_comm, N.div_add by lia. rewrite N.div_small by done. lia. }
  rewrite IH. f_equal. unfold byte_of. apply ascii_N_embedding.
Qed.

Lemma from_to_le n : u64_ok n → from_le_bytes (to_le_bytes n) = n.
Proof.
  intros Hn. apply from_le_go. change (256 ^ N.of_nat 8) with u64_size.
  unfold u64_ok, u64_max, u64_size in *. lia.
Qed.
Lemma to_le_length n : String.length (to_le_bytes n) = 8%nat.
Proof. apply le_go_length. Qed.
Lemma to_from_le s : String.length s = 8%nat → to_le_bytes (from_le_bytes s) = s.
Proof. intros H. unfold to_le_bytes. rewrite <- H. apply le_go_from. Qed.
Lemma from_le_ok s : String.length s = 8%nat → u64_ok (from_le_bytes s).
Proof.
  intros H. pose proof (from_le_bound s) as Hb. rewrite H in Hb.
  change (256 ^ N.of_nat 8) with u64_size in Hb. unfold u64_ok, u64_max, u64_size in *. lia.
Qed.

(** * Slices *)

Lemma app_inj_len (a b c d : string) :
  a +:+ b = c +:+ d → String.length a = String.length c → a = c ∧ b = d.
Proof.
  revert c. induction a as [|x a IH]; intros [|y c] E Hl; try done.
  rewrite !app_cons in E. injection E as -> E. injection Hl as Hl. destruct (IH c E Hl) as [-> ->]. done.
Qed.

(** A slice holds at most [isize::MAX] bytes. *)
Definition slice_ok (s : string) : Prop := strlen s < 9223372036854775808.

Lemma strlen_app a b : strlen (a +:+ b) = strlen a + strlen b.
Proof. unfold strlen. rewrite length_app_str. lia. Qed.

Lemma str_range_spec value s e bytes :
  str_range value s e = Some bytes ↔
  ∃ a b, value = a +:+ bytes +:+ b ∧ strlen a = s ∧ strlen bytes + s = e.
Proof.
  unfold str_range. split.
  - destruct (_ && _) eqn:E; [|done]. apply andb_true_iff in E as [H1%N.leb_le H2%N.leb_le].
    intros H. apply bind_Some in H as ([a rest] & Ha & H). apply bind_Some in H as ([bytes' b] & Hb & [= ->]).
    apply take_str_inv in Ha as [-> Ha]. apply take_str_inv in Hb as [-> Hb].
    exists a, b. split; [done|]. unfold strlen. lia.
  - intros (a & b & -> & Ha & He). rewrite !strlen_app.
    rewrite (proj2 (N.leb_le _ _)), (proj2 (N.leb_le _ _)) by lia. cbn [andb].
    rewrite (take_str_app _ a) by (unfold strlen in *; lia). cbn [mbind option_bind].
    rewrite (take_str_app _ bytes) by (unfold strlen in *; lia). done.
Qed.

(** * Words and vectors at a cursor *)

Definition words (l : list N) : string := concat_str (to_le_bytes <$> l).
Definition vector (l : list N) : string := to_le_bytes (N.of_nat (length l)) +:+ words l.

Lemma words_strlen l : strlen (words l) = 8 * N.of_nat (length l).
Proof.
  unfold words, strlen. rewrite (concat_str_length 8).
  - rewrite length_fmap. lia.
  - apply Forall_fmap, Forall_forall. intros. apply to_le_length.
Qed.

Lemma words_app l1 l2 : words (l1 ++ l2) = words l1 +:+ words l2.
Proof.
  unfold words. rewrite fmap_app. induction (to_le_bytes <$> l1) as [|w ws IH]; [done|].
  cbn. by rewrite IH, app_assoc.
Qed.

Lemma encode_vector out l : encode_index_u64s out l = out +:+ vector l.
Proof.
  unfold encode_index_u64s, vector. rewrite <- app_assoc. generalize (out +:+ to_le_bytes (N.of_nat (length l))).
  clear. induction l as [|n l IH]; intros s; [by rewrite app_nil_r|]. cbn [foldl]. rewrite IH.
  change (words (n :: l)) with (to_le_bytes n +:+ words l). by rewrite app_assoc.
Qed.

Lemma vector_length l : strlen (vector l) = 8 + 8 * N.of_nat (length l).
Proof. unfold vector. rewrite strlen_app, words_strlen. unfold strlen. rewrite to_le_length. lia. Qed.

Section cursor.
Context (key value : string) (Hv : slice_ok value).

Lemma decode_word_spec cursor field n cursor' :
  decode_index_u64 key value cursor field = Ok (n, cursor') ↔
  ∃ a b, value = a +:+ to_le_bytes n +:+ b ∧ strlen a = cursor ∧ cursor' = cursor + 8 ∧ u64_ok n.
Proof.
  unfold decode_index_u64. unfold slice_ok in Hv. split.
  - intros (bytes & Hb%ok_or_ok & [= <- <-])%bind_ok. apply str_range_spec in Hb as (a & b & E & Ha & He).
    pose proof (f_equal strlen E) as Hlen. rewrite !strlen_app in Hlen.
    unfold saturating_add in *. destruct (N.min_spec (cursor + 8) u64_max) as [[_ Hm]|[_ Hm]];
      rewrite Hm in *; [|unfold u64_max in *; lia].
    assert (String.length bytes = 8%nat) as H8 by (unfold strlen in *; lia).
    exists a, b. rewrite to_from_le by done. split; [done|]. split; [done|]. split; [done|]. by apply from_le_ok.
  - intros (a & b & E & Ha & -> & Hn). pose proof (f_equal strlen E) as Hlen. rewrite !strlen_app in Hlen.
    assert (strlen (to_le_bytes n) = 8) as H8 by (unfold strlen; by rewrite to_le_length).
    assert (saturating_add cursor 8 = cursor + 8) as -> by (unfold saturating_add, u64_max; lia).
    assert (str_range value cursor (cursor + 8) = Some (to_le_bytes n)) as ->.
    { apply str_range_spec. exists a, b. split; [done|]. split; [done|]. lia. }
    cbn [ok_or mbind result_mbind result_bind]. by rewrite from_to_le.
Qed.

Lemma words_spec bytes n : strlen bytes = 8 * n →
  ∃ l, bytes = words l ∧ length l = N.to_nat n ∧ from_le_bytes <$> chunks_exact 8 bytes = l ∧ Forall u64_ok l.
Proof.
  intros Hlen. destruct (chunks_exact_inv (String.length bytes) 8 bytes) as [Hc Hf];
    [lia|lia|exists (N.to_nat n); unfold strlen in Hlen; lia|].
  fold (chunks_exact 8 bytes) in Hc, Hf. exists (from_le_bytes <$> chunks_exact 8 bytes).
  assert (to_le_bytes <$> (from_le_bytes <$> chunks_exact 8 bytes) = chunks_exact 8 bytes) as Hr.
  { rewrite <- list_fmap_compose. rewrite <- (list_fmap_id (chunks_exact 8 bytes)) at 2.
    apply Forall_fmap_ext_1. eapply Forall_impl; [exact Hf|]. intros. by apply to_from_le. }
  split; [unfold words; by rewrite Hr, Hc|]. split; [|split; [done|]].
  - rewrite length_fmap. assert (strlen (words (from_le_bytes <$> chunks_exact 8 bytes)) = strlen bytes) as H.
    { unfold words. by rewrite Hr, Hc. } rewrite words_strlen, length_fmap, Hlen in H. lia.
  - apply Forall_fmap. eapply Forall_impl; [exact Hf|]. intros. by apply from_le_ok.
Qed.

Lemma words_chunks l : Forall u64_ok l → from_le_bytes <$> chunks_exact 8 (words l) = l.
Proof.
  intros Hl. unfold words. rewrite chunks_exact_concat; [|lia|].
  - rewrite <- list_fmap_compose. rewrite <- (list_fmap_id l) at 2. apply Forall_fmap_ext_1.
    eapply Forall_impl; [exact Hl|]. intros. by apply from_to_le.
  - apply Forall_fmap, Forall_forall. intros. apply to_le_length.
Qed.

Lemma decode_vector_spec cursor field l cursor' :
  decode_index_u64s key value cursor field = Ok (l, cursor') ↔
  ∃ a b, value = a +:+ vector l +:+ b ∧ strlen a = cursor ∧ cursor' = cursor + strlen (vector l) ∧
    Forall u64_ok l.
Proof.
  unfold decode_index_u64s. unfold slice_ok in Hv. rewrite vector_length. split.
  - intros ([n cur] & Hn & H)%bind_ok. apply decode_word_spec in Hn as (a & b & E & Ha & -> & Hn).
    apply bind_ok in H as (byte_len & Hbl%ok_or_ok%checked_mul_inv & H). destruct Hbl as [-> Hbl].
    apply bind_ok in H as (end_ & Hend%ok_or_ok%checked_add_some & H). destruct Hend as [-> Hend].
    apply bind_ok in H as (bytes & Hb%ok_or_ok%str_range_spec & [= <- <-]).
    destruct Hb as (a' & b' & E' & Ha' & Hlen).
    assert (a' = a +:+ to_le_bytes n ∧ b = bytes +:+ b') as [-> ->].
    { rewrite E, <- !(app_assoc a) in E'. symmetry in E'. apply app_inj_len in E' as [-> ->]; [done|].
      unfold strlen in *. rewrite length_app_str, to_le_length. lia. }
    destruct (words_spec bytes n) as (l & -> & Hl & Hr & Hok); [lia|]. rewrite Hr.
    exists a, b'. unfold vector. rewrite Hl, N2Nat.id, E, !app_assoc. split; [done|]. split; [done|].
    split; [|done]. lia.
  - intros (a & b & E & Ha & -> & Hl). pose proof (f_equal strlen E) as Hlen.
    rewrite !strlen_app, vector_length in Hlen.
    assert (decode_index_u64 key value cursor field = Ok (N.of_nat (length l), cursor + 8)) as ->.
    { apply decode_word_spec. exists a, (words l +:+ b). unfold vector in E. rewrite app_assoc in E.
      split; [done|]. split; [done|]. split; [done|]. unfold u64_ok, u64_max. lia. }
    cbn [mbind result_mbind result_bind].
    rewrite checked_mul_ok by (unfold u64_ok, u64_max; lia). cbn [ok_or mbind result_mbind result_bind].
    rewrite (proj2 (checked_add_some _ _ (cursor + 8 + N.of_nat (length l) * 8)))
      by (unfold u64_ok, u64_max; split; [done|lia]).
    cbn [ok_or mbind result_mbind result_bind].
    assert (str_range value (cursor + 8) (cursor + 8 + N.of_nat (length l) * 8) = Some (words l)) as ->.
    { apply str_range_spec. exists (a +:+ to_le_bytes (N.of_nat (length l))), b. unfold vector in E.
      rewrite E, !app_assoc. split; [done|]. rewrite strlen_app, words_strlen. unfold strlen at 2.
      rewrite to_le_length. lia. }
    cbn [ok_or mbind result_mbind result_bind]. rewrite words_chunks by done.
    by replace (cursor + 8 + N.of_nat (length l) * 8) with (cursor + (8 + 8 * N.of_nat (length l))) by lia.
Qed.

Lemma word_at a n b field : value = a +:+ to_le_bytes n +:+ b → u64_ok n →
  decode_index_u64 key value (strlen a) field = Ok (n, strlen (a +:+ to_le_bytes n)).
Proof.
  intros E Hn. apply decode_word_spec. exists a, b. rewrite strlen_app. split; [done|]. split; [done|].
  split; [|done]. unfold strlen at 2. by rewrite to_le_length.
Qed.

Lemma vector_at a l b field : value = a +:+ vector l +:+ b → Forall u64_ok l →
  decode_index_u64s key value (strlen a) field = Ok (l, strlen (a +:+ vector l)).
Proof. intros E Hl. apply decode_vector_spec. exists a, b. by rewrite strlen_app. Qed.
End cursor.

(** * The payload *)

Definition payload (q w sum : N) (c : GraphBlasCsc) : string :=
  INDEX_CSC_MAGIC +:+ to_le_bytes q +:+ to_le_bytes w +:+ to_le_bytes sum
    +:+ vector (csc_vertices c) +:+ vector (csc_pointers c) +:+ vector (csc_indices c).

Lemma encode_payload q w sum c : encode_graph_index_csc q w sum c = payload q w sum c.
Proof. unfold encode_graph_index_csc, payload. cbv zeta. by rewrite !encode_vector, !app_assoc. Qed.

(** A CSC whose numbers are words. *)
Definition csc_words (c : GraphBlasCsc) : Prop :=
  Forall u64_ok (csc_vertices c) ∧ Forall u64_ok (csc_pointers c) ∧ Forall u64_ok (csc_indices c).

Lemma strlen_le n : strlen (to_le_bytes n) = 8.
Proof. unfold strlen. by rewrite to_le_length. Qed.

(** The artifact checks are the kernel's, under other names and without its limit. *)
Lemma validate_artifact_ok key c :
  validate_graphblas_csc_artifact key c = Ok tt ↔
  csc_ok (csc_vertices c) (csc_pointers c) (csc_indices c) ∧ at_ (csc_pointers c) 0 = 0.
Proof.
  unfold validate_graphblas_csc_artifact, csc_ok. cbv zeta. split.
  - repeat check_step. destruct (list_find _ _) as [[]|] eqn:Ef; [done|]. check_step. intros _.
    rewrite find_none_bound in Ef. repeat match goal with
    | H : (_ =? _)%nat = true |- _ => apply Nat.eqb_eq in H
    | H : bool_decide _ = true |- _ => apply bool_decide_eq_true in H
    | H : windows_all N.leb _ = true |- _ => apply windows_le in H
    | H : windows_all N.ltb _ = true |- _ => apply windows_lt in H
    end. repeat split; try done; [lia|lia|].
    apply at_lookup. by rewrite <- head_lookup.
  - intros ((Hlen & Hle & Hlast & Hb & Hs) & H0).
    replace (length (csc_pointers c) =? length (csc_vertices c) + 1)%nat with true
      by (symmetry; apply Nat.eqb_eq; lia). cbn [negb].
    rewrite bool_decide_eq_true_2.
    2: { rewrite head_lookup, at_some by lia. by rewrite H0. }
    rewrite (proj2 (windows_le _) Hle). cbn [negb].
    rewrite Hlast, Nat2N.id, Nat.eqb_refl. cbn [negb].
    rewrite (proj2 (find_none_bound _ _) Hb), (proj2 (windows_lt _) Hs). done.
Qed.

(** What the sender and the receiver of a payload must agree on. *)
Definition payload_of (key value : string) (q w sum : N) (c : GraphBlasCsc) : Prop :=
  value = encode_graph_index_csc q w sum c ∧ u64_ok q ∧ u64_ok w ∧ u64_ok sum ∧ csc_words c ∧
  validate_graphblas_csc_artifact key c = Ok tt ∧ graphblas_csc_checksum c = sum.

Lemma cons_cursor value a x rest b y rest' : value = a +:+ x +:+ rest → value = b +:+ y +:+ rest' →
  strlen b = strlen a + strlen x → b = a +:+ x ∧ rest = y +:+ rest'.
Proof.
  intros -> E Hl. rewrite <- app_assoc in E. apply app_inj_len in E as [-> ->]; [done|].
  unfold strlen in *. rewrite length_app_str. lia.
Qed.

Lemma decode_payload_inv key value q w sum c : slice_ok value →
  decode_graph_index_csc key value q w sum = Ok c → payload_of key value q w sum c.
Proof.
  intros Hv. unfold decode_graph_index_csc. destruct (starts_with _ value) eqn:Em; [|done]. cbn [negb].
  unfold starts_with in Em. destruct (strip_prefix INDEX_CSC_MAGIC value) as [body|] eqn:Eb; [|done].
  apply strip_prefix_Some in Eb as Ev. clear Em Eb.
  intros ([q' c1] & H1 & H)%bind_ok. apply bind_ok in H as ([w' c2] & H2 & H).
  apply bind_ok in H as ([s' c3] & H3 & H).
  case_bool_decide as Heq; [|done]. injection Heq as -> -> ->. cbn [negb] in H.
  apply bind_ok in H as ([vs c4] & H4 & H). apply bind_ok in H as ([ps c5] & H5 & H).
  apply bind_ok in H as ([ixs c6] & H6 & H). cbv zeta in H.
  destruct (N.eqb_spec c6 (strlen value)) as [Hend|]; [|done]. cbn [negb] in H.
  apply bind_ok in H as ([] & Hvalid & H). destruct (N.eqb_spec (graphblas_csc_checksum (MkCsc vs ps ixs)) sum)
    as [Hsum|]; [|done]. cbn [negb] in H. injection H as <-.
  apply (decode_word_spec key value Hv) in H1 as (a1 & b1 & E1 & L1 & -> & Hq).
  apply (decode_word_spec key value Hv) in H2 as (a2 & b2 & E2 & L2 & -> & Hw).
  apply (decode_word_spec key value Hv) in H3 as (a3 & b3 & E3 & L3 & -> & Hs).
  apply (decode_vector_spec key value Hv) in H4 as (a4 & b4 & E4 & L4 & -> & Hvs).
  apply (decode_vector_spec key value Hv) in H5 as (a5 & b5 & E5 & L5 & -> & Hps).
  apply (decode_vector_spec key value Hv) in H6 as (a6 & b6 & E6 & L6 & -> & Hix).
  assert (b6 = "") as ->.
  { pose proof (f_equal strlen E6) as Hl. rewrite !strlen_app in Hl. destruct b6; [done|].
    unfold strlen in *. cbn [String.length] in Hl. lia. }
  assert (a1 = INDEX_CSC_MAGIC ∧ body = to_le_bytes q +:+ b1) as [-> ->].
  { rewrite E1 in Ev. symmetry in Ev. apply app_inj_len in Ev as [-> ->]; [done|]. unfold strlen in L1. lia. }
  destruct (cons_cursor _ _ _ _ _ _ _ E1 E2) as [-> ->]; [rewrite strlen_le; lia|].
  destruct (cons_cursor _ _ _ _ _ _ _ E2 E3) as [-> ->]; [rewrite strlen_le; lia|].
  destruct (cons_cursor _ _ _ _ _ _ _ E3 E4) as [-> ->]; [rewrite strlen_le; lia|].
  destruct (cons_cursor _ _ _ _ _ _ _ E4 E5) as [-> ->]; [lia|].
  destruct (cons_cursor _ _ _ _ _ _ _ E5 E6) as [-> ->]; [lia|].
  split; [|done]. rewrite encode_payload, E6. unfold payload. cbn [csc_vertices csc_pointers csc_indices].
  by rewrite !app_assoc, app_nil_r.
Qed.

Lemma decode_payload_intro key value q w sum c : slice_ok value →
  payload_of key value q w sum c → decode_graph_index_csc key value q w sum = Ok c.
Proof.
  intros Hv (E & Hq & Hw & Hs & (Hvs & Hps & Hix) & Hvalid & Hsum). rewrite encode_payload in E.
  unfold payload in E. unfold decode_graph_index_csc.
  assert (starts_with INDEX_CSC_MAGIC value = true) as -> by (rewrite E; apply starts_with_app).
  cbn [negb]. cbv zeta. generalize dependent INDEX_CSC_MAGIC. intros m E.
  apply bind_ok. eexists (_, _). split; [exact (word_at key value Hv m q _ _ E Hq)|]. cbv beta iota.
  rewrite <- (app_assoc m) in E.
  apply bind_ok. eexists (_, _). split; [exact (word_at key value Hv _ w _ _ E Hw)|]. cbv beta iota.
  rewrite <- (app_assoc _ (to_le_bytes w)) in E.
  apply bind_ok. eexists (_, _). split; [exact (word_at key value Hv _ sum _ _ E Hs)|]. cbv beta iota.
  rewrite bool_decide_eq_true_2 by done. cbn [negb].
  rewrite <- (app_assoc _ (to_le_bytes sum)) in E.
  apply bind_ok. eexists (_, _). split; [exact (vector_at key value Hv _ _ _ _ E Hvs)|]. cbv beta iota.
  rewrite <- (app_assoc _ (vector (csc_vertices c))) in E.
  apply bind_ok. eexists (_, _). split; [exact (vector_at key value Hv _ _ _ _ E Hps)|]. cbv beta iota.
  rewrite <- (app_assoc _ (vector (csc_pointers c))), <- (app_nil_r (vector (csc_indices c))) in E.
  apply bind_ok. eexists (_, _). split; [exact (vector_at key value Hv _ _ _ _ E Hix)|]. cbv beta iota.
  rewrite <- (app_assoc _ (vector (csc_indices c))), app_nil_r in E. rewrite <- E, N.eqb_refl. cbn [negb].
  replace (MkCsc (csc_vertices c) (csc_pointers c) (csc_indices c)) with c by (by destruct c).
  rewrite Hvalid, Hsum, N.eqb_refl. done.
Qed.

(** * The manifest and the object names *)

Definition generation_ok (g : overlay.GraphIndexGeneration) : Prop :=
  component_ok (overlay.gen_cell_id g) = true ∧ component_ok (overlay.gen_edge_type g) = true ∧
  u64_ok (overlay.gen_base_sequence g) ∧ u64_ok (overlay.gen_last_wal_id g) ∧
  u64_ok (overlay.gen_edge_count g) ∧ u64_ok (overlay.gen_checksum g) ∧
  strlen (overlay.gen_generation g) = 64 ∧ str_forall is_ascii_hexdigit (overlay.gen_generation g) = true.

Lemma hexdigit_plain s : str_forall is_ascii_hexdigit s = true → plain s = true.
Proof.
  apply str_forall_mono. intros c.
  destruct c as [[] [] [] [] [] [] [] []]; cbv; try done; intros H; discriminate H.
Qed.

Lemma hex_encode_hexdigit s : str_forall is_ascii_hexdigit (hex_encode s) = true.
Proof.
  assert (∀ n, n < 16 → is_ascii_hexdigit (hex_at n) = true) as Hat.
  { intros n Hn. assert (Forall (λ n, is_ascii_hexdigit (hex_at n) = true) (N.of_nat <$> seq 0 16)) as Hall
      by (cbv; repeat constructor).
    rewrite Forall_forall in Hall. apply Hall, list_elem_of_fmap. exists (N.to_nat n).
    rewrite elem_of_seq. lia. }
  induction s as [|c s IH]; [done|]. cbn [hex_encode]. cbv zeta. cbn [str_forall].
  pose proof (byte_nibbles c) as (H1 & H2 & _). by rewrite !Hat.
Qed.

Lemma manifest_round_trip key g : generation_ok g →
  decode_graph_index_manifest key (encode_graph_index_manifest g) = Ok g.
Proof.
  intros (Hc & Ht & Hq & Hw & Hn & Hs & Hlen & Hhex). unfold decode_graph_index_manifest, encode_graph_index_manifest.
  set (l := [INDEX_MANIFEST_MAGIC; _; _; _; _; _; _; _]).
  destruct (record_line_plain l) as [Hd Hf]; [done| |].
  { repeat constructor; auto using component_plain, dec_plain, hexdigit_plain. }
  rewrite Hd. cbn [mbind result_mbind result_bind]. rewrite Hf. unfold l.
  rewrite bool_decide_eq_true_2, !validate_component_true by done. cbn [negb mbind result_mbind result_bind].
  rewrite Hlen, Hhex. cbn [N.eqb Pos.eqb negb orb]. rewrite !parse_u64_dec by done. by destruct g.
Qed.

Lemma manifest_inv key value g : decode_graph_index_manifest key value = Ok g →
  component_ok (overlay.gen_cell_id g) = true ∧ component_ok (overlay.gen_edge_type g) = true ∧
  strlen (overlay.gen_generation g) = 64 ∧ str_forall is_ascii_hexdigit (overlay.gen_generation g) = true.
Proof.
  unfold decode_graph_index_manifest. intros (text & _ & H)%bind_ok.
  destruct (record_fields text) as [|f0 [|f1 [|f2 [|f3 [|f4 [|f5 [|f6 [|f7 [|]]]]]]]]]; try done.
  case_bool_decide; [|done]. cbn [negb] in H. apply bind_ok in H as ([] & H1%validate_component_ok & H).
  apply bind_ok in H as ([] & H2%validate_component_ok & H).
  destruct (N.eqb_spec (strlen f7) 64); [|done]. destruct (str_forall _ f7) eqn:Hx; [|done]. cbn [negb orb] in H.
  repeat match goal with H : _ ≫= _ = Ok _ |- _ => apply bind_ok in H as (? & _ & H) end.
  injection H as <-. done.
Qed.

Lemma pad20_decimal n : u64_ok n → str_forall is_ascii_digit (pad20 n) = true.
Proof.
  intros Hn. rewrite pad20_fixed by done. apply fixed_go_forall; try done.
  intros x Hx. assert (Forall (λ n, is_ascii_digit (digit_char n) = true) (N.of_nat <$> seq 0 10)) as Hall
    by (cbv; repeat constructor).
  rewrite Forall_forall in Hall. apply Hall, list_elem_of_fmap. exists (N.to_nat x).
  rewrite elem_of_seq. lia.
Qed.

Lemma split_nonempty sep s : split sep s ≠ [].
Proof. induction s as [|c s IH]; [done|]. cbn. case_decide; [done|]. by destruct (split sep s). Qed.

Lemma last_split_app sep a b : free_of sep b = true → last (split sep (a +:+ String sep b)) = Some b.
Proof.
  intros Hb. induction a as [|c a IH].
  - rewrite ?app_nil_l. cbn. rewrite decide_True, (split_single sep b Hb) by done. done.
  - rewrite app_cons. cbn. case_decide.
    + rewrite last_cons, IH. done.
    + destruct (split sep (a +:+ String sep b)) as [|x l] eqn:E; [by apply split_nonempty in E|].
      destruct l as [|y l]; [|exact IH]. cbn in *. exfalso.
      assert (length (split sep (a +:+ String sep b)) ≠ 1%nat) as Hlen; [|by rewrite E in Hlen].
      clear. induction a as [|d a IH].
      * rewrite ?app_nil_l. cbn. rewrite decide_True by done.
        pose proof (split_nonempty sep b). by destruct (split sep b).
      * rewrite app_cons. cbn. case_decide.
        -- cbn. pose proof (split_nonempty sep (a +:+ String sep b)). by destruct (split sep _).
        -- pose proof (split_nonempty sep (a +:+ String sep b)).
           destruct (split sep (a +:+ String sep b)); [done|exact IH].
Qed.

Lemma sequence_of_path dir q generation : u64_ok q → free_of chr_slash generation = true →
  graph_index_sequence_from_path (dir +:+ "/" +:+ pad20 q +:+ "-" +:+ generation +:+ ".csc") = Ok q.
Proof.
  intros Hq Hg. unfold graph_index_sequence_from_path.
  change ("/" +:+ ?x) with (String chr_slash x). rewrite last_split_app.
  2: { change ("-" +:+ ?x) with (String "-"%char x).
       rewrite free_of_app, (plain_slash (pad20 q)) by apply pad20_plain. cbn [andb].
       apply free_of_cons. split; [done|]. by rewrite free_of_app, Hg. }
  cbn [default]. unfold id. change ("-" +:+ ?x) with (String "-"%char x).
  rewrite split_once_app.
  2: { apply (str_forall_free is_ascii_digit); [done|by apply pad20_decimal]. }
  unfold strlen. rewrite pad20_length, pad20_decimal by done. cbn [negb orb N.eqb Pos.eqb N.of_nat Pos.of_succ_nat Pos.succ].
  by apply parse_u64_pad20.
Qed.

(** * Claims *)

(** C24: the payload of an index generation has exactly one encoding.  Decoding
    bytes under an expected sequence, WAL position and checksum gives a CSC
    exactly when the bytes are that CSC's encoding under them, its numbers are
    words, it passes the structural checks and its checksum is the expected one:
    truncated, extended or altered payloads, and payloads of another generation,
    are all rejected. *)
Theorem index_payload_exact (key value : string) (q w sum : N) (c : GraphBlasCsc) (Hv : slice_ok value) :
  decode_graph_index_csc key value q w sum = Ok c ↔
  value = encode_graph_index_csc q w sum c ∧ u64_ok q ∧ u64_ok w ∧ u64_ok sum ∧ csc_words c ∧
  validate_graphblas_csc_artifact key c = Ok tt ∧ graphblas_csc_checksum c = sum.
Proof. split; [by apply decode_payload_inv|by apply decode_payload_intro]. Qed.

Definition sample_csc : GraphBlasCsc := MkCsc [1; 2; 3] [0; 2; 3; 3] [1; 2; 2].

Lemma index_payload_exact_witness :
  decode_graph_index_csc "k" (encode_graph_index_csc 7 3 (graphblas_csc_checksum sample_csc) sample_csc)
    7 3 (graphblas_csc_checksum sample_csc) = Ok sample_csc.
Proof.
  apply index_payload_exact; [vm_compute; reflexivity|]. split; [reflexivity|].
  do 3 (split; [vm_compute; discriminate|]). split.
  - split; [|split]; repeat (constructor; [vm_compute; discriminate|]); constructor.
  - split; vm_compute; reflexivity.
Defined.

(** A manifest names its generation.  A generation with valid identifiers,
    numbers and digest reads back from its manifest; whatever a manifest decodes
    to has valid identifiers and a digest of 64 hexadecimal digits, which the
    digest of any payload is; and the sequence of a generation is read back from
    the name of its object. *)
Theorem index_manifest_round_trip (key dir : string) (g : overlay.GraphIndexGeneration) (Hg : generation_ok g) :
  decode_graph_index_manifest key (encode_graph_index_manifest g) = Ok g ∧
  (∀ value g', decode_graph_index_manifest key value = Ok g' →
     component_ok (overlay.gen_cell_id g') = true ∧ component_ok (overlay.gen_edge_type g') = true ∧
     strlen (overlay.gen_generation g') = 64 ∧
     str_forall is_ascii_hexdigit (overlay.gen_generation g') = true) ∧
  (∀ sha256 payload, strlen (sha256 payload) = 32 →
     strlen (sha256_hex sha256 payload) = 64 ∧ str_forall is_ascii_hexdigit (sha256_hex sha256 payload) = true) ∧
  graph_index_sequence_from_path
    (dir +:+ "/" +:+ pad20 (overlay.gen_base_sequence g) +:+ "-" +:+ overlay.gen_generation g +:+ ".csc")
  = Ok (overlay.gen_base_sequence g).
Proof.
  split; [by apply manifest_round_trip|]. split; [intros value g'; apply manifest_inv|]. split.
  - intros sha256 payload Hlen. unfold sha256_hex. split; [|apply hex_encode_hexdigit].
    unfold strlen in *. rewrite hex_encode_length. lia.
  - apply sequence_of_path; [apply Hg|]. apply plain_slash, hexdigit_plain, Hg.
Qed.

Lemma index_manifest_round_trip_witness :
  let g := overlay.MkGeneration "c1" "knows" 7 3 3 99
    "0123456789abcdef0123456789abcdef0123456789abcdef0123456789abcdef" in
  decode_graph_index_manifest "k" (encode_graph_index_manifest g) = Ok g ∧
  graph_index_sequence_from_path "s/00000000000000000007-0123456789abcdef0123456789abcdef0123456789abcdef0123456789abcdef.csc" = Ok 7.
Proof.
  cbv zeta. destruct (index_manifest_round_trip "k" "s" (overlay.MkGeneration "c1" "knows" 7 3 3 99
    "0123456789abcdef0123456789abcdef0123456789abcdef0123456789abcdef")) as (H1 & _ & _ & H2).
  { repeat split; try reflexivity; vm_compute; discriminate. }
  split; [exact H1|exact H2].
Defined.
