(* ===== verification/IndexPublish.v ===== *)
(** [IndexStore]: what the object store promises, as a class of laws, and what the
    publication and the collection of index generations guarantee on any store
    that keeps them, whatever the store's other clients do between two calls; a
    scripted store that satisfies the laws. *)

From stdpp Require Import relations.
From S2P Require Import Prelude Text TextFacts Errors Model Namespace Keys Codec CodecRecords Kv ShardTxn Overlay IndexStore IndexCodec.

Local Open Scope N_scope.

Import index.

(** * The laws

    A conditional put writes only over the version it names, or over nothing; a
    put that fails may still have been applied.  A version never names two
    contents.  Other clients act between any two calls, as [os_others] says. *)

Definition admits {A B} (mode : PutMode) (current : option (UpdateVersion * B)) (_ : A) : Prop :=
  match mode with
  | PutCreate => current = None
  | PutUpdate v => ∃ value, current = Some (v, value)
  end.

Class ObjectStoreLaws (O : ObjectStore) : Type := {
  os_view : Os → gmap string (UpdateVersion * string);
  os_others : relation Os;
  others_preorder :: PreOrder os_others;
  version_law o o' k v a b : os_others o o' →
    os_view o !! k = Some (v, a) → os_view o' !! k = Some (v, b) → a = b;
  get_law o k o' r : os_get o k = (o', r) → os_others o o' ∧
    match r with
    | Ok (v, Ok value) => os_view o' !! k = Some (v, value)
    | Err OsNotFound => os_view o' !! k = None
    | _ => True
    end;
  put_law o k value mode o' r : os_put o k value mode = (o', r) → ∃ o1, os_others o o1 ∧
    (r ≠ Ok tt ∧ o' = o1 ∨
     admits mode (os_view o1 !! k) value ∧ ∃ v, os_view o' = <[k := (v, value)]> (os_view o1));
  delete_law o k o' r : os_delete o k = (o', r) → ∃ o1, os_others o o1 ∧
    (os_view o' = os_view o1 ∨ os_view o' = delete k (os_view o1));
  list_law o prefix o' r : os_list o prefix = (o', r) → os_others o o';
}.

Lemma bind_os {O : ObjectStore} {A B} (f : Os → Os * A) (k : A → SM (Engine O) B) e o r :
  f (en_os e) = (o, r) → (os_call f ≫= k) e = k r (MkEngine o (en_generations e)).
Proof. unfold os_call, mbind, sm_mbind. by intros ->. Qed.

Lemma pair_result {A B} (p : A * B) b : p.2 = b → p = (p.1, b).
Proof. intros <-. apply surjective_pairing. Qed.

(** * Publication *)

Section publish.
Context {Ob : ObjectStore} {L : ObjectStoreLaws Ob}.
Context (path_of : string → string) (os_error_text : OsError → string) (store_path : string).
Context (c t : string).
#[local] Abbreviation manifest_path := (graph_index_manifest_path path_of store_path c t).
#[local] Abbreviation attempts := (publish_attempts os_error_text).

(** The generation the manifest names. *)
Definition published (o : Os) : option overlay.GraphIndexGeneration :=
  p ← os_view o !! manifest_path; result_ok (decode_graph_index_manifest manifest_path p.2).

(** [b] is at least as recent as [a], by sequence and then by WAL position. *)
Definition recent (a b : overlay.GraphIndexGeneration) : Prop :=
  overlay.gen_base_sequence a < overlay.gen_base_sequence b ∨
  overlay.gen_base_sequence a = overlay.gen_base_sequence b ∧
  overlay.gen_last_wal_id a ≤ overlay.gen_last_wal_id b.
Definition advances (a b : option overlay.GraphIndexGeneration) : Prop :=
  match a with None => True | Some g => ∃ g', b = Some g' ∧ recent g g' end.

#[global] Instance recent_preorder : PreOrder recent.
Proof. unfold recent. split; [intros x|intros x y z]; lia. Qed.
#[global] Instance advances_preorder : PreOrder advances.
Proof.
  split; [intros [g|]; [by exists g|done]|]. intros [a|] b d; [|done]. intros (b' & -> & H1) (d' & -> & H2).
  exists d'. split; [done|by trans b'].
Qed.

Lemma supersedes_recent p g : supersedes p g = true ↔ recent g p.
Proof. unfold supersedes, recent. rewrite orb_true_iff, andb_true_iff, N.ltb_lt, N.eqb_eq, N.leb_le. lia. Qed.
Lemma not_supersedes p g : supersedes p g = false → recent p g.
Proof.
  intros H. destruct (decide (recent g p)) as [Hr|Hr].
  - apply supersedes_recent in Hr. congruence.
  - unfold recent in *. lia.
Qed.

(** The other publishers run the same protocol. *)
Context (Hothers : ∀ o o', os_others o o' → advances (published o) (published o')).
Context (g : overlay.GraphIndexGeneration) (Hg : generation_ok g).
#[local] Abbreviation payload := (encode_graph_index_manifest g).

Lemma published_wrote o o' v :
  os_view o' = <[manifest_path := (v, payload)]> (os_view o) → published o' = Some g.
Proof.
  intros H. unfold published. rewrite H, lookup_insert_eq. cbn. by rewrite manifest_round_trip.
Qed.

(** One conditional replacement of the manifest last seen in [o]. *)
Lemma put_advances o mode o' r :
  match mode with
  | PutCreate => True
  | PutUpdate v => ∃ value p, os_view o !! manifest_path = Some (v, value) ∧
      decode_graph_index_manifest manifest_path value = Ok p ∧ recent p g
  end →
  os_put o manifest_path payload mode = (o', r) →
  advances (published o) (published o') ∧ (r = Ok tt → published o' = Some g).
Proof.
  intros Hmode H. apply put_law in H as (o1 & Ho1 & [[Hr ->]|(Hadm & v & Hw)]).
  - split; [by apply Hothers|done].
  - pose proof (published_wrote _ _ _ Hw) as Hp. split; [|done]. trans (published o1); [by apply Hothers|].
    rewrite Hp. destruct mode as [|v0]; cbn in Hadm.
    + unfold published. by rewrite Hadm.
    + destruct Hmode as (value & p & Hv & Hdec & Hrec), Hadm as [value' Hv'].
      assert (value = value') as <- by (by eapply version_law).
      unfold published. rewrite Hv'. cbn. rewrite Hdec. cbn. by exists g.
Qed.

Definition publish_outcome (o o' : Os) (r : Result overlay.GraphIndexGeneration) : Prop :=
  advances (published o) (published o') ∧
  ∀ p, r = Ok p → advances (Some g) (published o') ∧ recent g p ∧ (p = g ∨ published o' = Some p).

Lemma outcome_later o o1 o' r :
  advances (published o) (published o1) → publish_outcome o1 o' r → publish_outcome o o' r.
Proof. intros H [H1 H2]. split; [by trans (published o1)|done]. Qed.

Lemma attempts_outcome n (e e' : Engine Ob) r :
  attempts n manifest_path payload g e = (e', r) → publish_outcome (en_os e) (en_os e') r.
Proof.
  revert e. induction n as [|n IH]; intros e; cbn [publish_attempts].
  { intros [= <- <-]. split; [done|]. intros p [=]. }
  destruct (os_get (en_os e) manifest_path) as [o1 got] eqn:Eg.
  rewrite (bind_os _ _ _ _ _ Eg). apply get_law in Eg as [Ho1 Hgot].
  apply Hothers in Ho1. intros H. eapply (outcome_later _ o1); [exact Ho1|]. revert H.
  assert (∀ e1 (err : GraphError), en_os e1 = o1 → (e1, Err err) = (e', r) →
    publish_outcome o1 (en_os e') r) as Hfail.
  { intros e1 err <- [= <- <-]. split; [done|]. intros p [=]. }
  (* the replacement, in either mode *)
  assert (∀ mode, match mode with
      | PutCreate => True
      | PutUpdate v => ∃ value p, os_view o1 !! manifest_path = Some (v, value) ∧
          decode_graph_index_manifest manifest_path value = Ok p ∧ recent p g
      end →
    (put ← os_call (λ o, os_put o manifest_path payload mode);
     match put with
     | Ok _ => mret g
     | Err OsAlreadyExists | Err OsPrecondition | Err OsNotFound => attempts n manifest_path payload g
     | Err e => fails (os_into os_error_text e)
     end) (MkEngine o1 (en_generations e)) = (e', r) → publish_outcome o1 (en_os e') r) as Hput.
  { intros mode Hmode. destruct (os_put o1 manifest_path payload mode) as [o2 put] eqn:Ep.
    rewrite (bind_os (λ o, os_put o manifest_path payload mode) _ (MkEngine o1 (en_generations e)) _ _ Ep).
    cbn [en_generations]. apply put_advances in Ep as [Ha Hok]; [|exact Hmode].
    destruct put as [[]|[]]; intros H;
      try (eapply (outcome_later _ o2); [exact Ha|]; by apply IH in H);
      injection H as <- <-; (split; [exact Ha|]); intros p [=].
    subst p. cbn [en_os]. rewrite Hok by done. split; [by exists g|]. split; [done|by left]. }
  destruct got as [[v body]|[]]; cbn [fmap].
  - destruct body as [value|]; [|by apply Hfail]. unfold lift, mbind, sm_mbind. cbn [map_err].
    destruct (decode_graph_index_manifest manifest_path value) as [p|] eqn:Ed; [|by apply Hfail].
    destruct (supersedes p g) eqn:Es.
    + intros [= <- <-]. cbn [en_os]. split; [done|]. intros p' [= <-].
      apply supersedes_recent in Es. assert (published o1 = Some p) as Hp.
      { unfold published. rewrite Hgot. cbn. by rewrite Ed. }
      rewrite Hp. split; [by exists p|]. split; [done|by right].
    + apply Hput. exists value, p. split; [done|]. split; [done|]. by apply not_supersedes.
  - by apply Hput.
  - by apply Hfail.
  - by apply Hfail.
  - by apply Hfail.
Qed.

(** Publishing writes the generation's object first. *)
Lemma publish_advances body (e e' : Engine Ob) r :
  graph_index_generation_path path_of store_path c t (overlay.gen_base_sequence g) (overlay.gen_generation g)
    ≠ manifest_path →
  overlay.gen_cell_id g = c → overlay.gen_edge_type g = t →
  publish_graph_index path_of os_error_text store_path g body e = (e', r) →
  publish_outcome (en_os e) (en_os e') r.
Proof.
  intros Hpath Ec Et. unfold publish_graph_index. rewrite Ec, Et. set (path := graph_index_generation_path _ _ _ _ _ _) in *.
  destruct (os_put (en_os e) path body PutCreate) as [o1 put] eqn:Ep.
  rewrite (bind_os (λ o, os_put o path body PutCreate) _ _ _ _ Ep). apply put_law in Ep as (o0 & Ho0 & Hput).
  assert (advances (published (en_os e)) (published o1)) as Ha.
  { trans (published o0); [by apply Hothers|]. destruct Hput as [[_ ->]|(_ & v & Hw)]; [done|].
    unfold published. by rewrite Hw, lookup_insert_ne by done. }
  assert (∀ e1 (err : GraphError), en_os e1 = o1 → (e1, Err err) = (e', r) →
    publish_outcome (en_os e) (en_os e') r) as Hfail.
  { intros e1 err <- [= <- <-]. split; [exact Ha|]. intros p [=]. }
  destruct put as [[]|[]]; intros H; try (by eapply Hfail; [|exact H]).
  all: eapply (outcome_later _ o1); [exact Ha|]; by apply attempts_outcome in H.
Qed.
End publish.

(** * A store with other publishers

    A map of objects whose version is their content, and a script: before each
    call the script's next foreign publication takes place, by the protocol. *)

Definition Script : Type := list (string * overlay.GraphIndexGeneration).

Definition foreign_publish (objects : gmap string string) (f : string * overlay.GraphIndexGeneration) :
  gmap string string :=
  let '(k, g) := f in
  let value := encode_graph_index_manifest g in
  match decode_graph_index_manifest k value, objects !! k with
  | Ok _, None => <[k := value]> objects
  | Ok g, Some old => match decode_graph_index_manifest k old with
                      | Ok p => if supersedes p g then objects else <[k := value]> objects
                      | Err _ => objects
                      end
  | Err _, _ => objects
  end.

Definition others_act (o : gmap string string * Script) : gmap string string * Script :=
  match o.2 with [] => o | f :: script => (foreign_publish o.1 f, script) end.

#[global] Instance version_eq_dec : EqDecision UpdateVersion.
Proof. solve_decision. Defined.

Definition version_of (value : string) : UpdateVersion := MkVersion (Some value) None.

#[global] Instance Scripted : ObjectStore := {
  Os := gmap string string * Script;
  os_get o k := let o := others_act o in
    (o, match o.1 !! k with Some value => Ok (version_of value, Ok value) | None => Err OsNotFound end);
  os_put o k value mode := let o := others_act o in
    match mode, o.1 !! k with
    | PutCreate, None => ((<[k := value]> o.1, o.2), Ok tt)
    | PutCreate, Some _ => (o, Err OsAlreadyExists)
    | PutUpdate v, Some old =>
        if bool_decide (v = version_of old) then ((<[k := value]> o.1, o.2), Ok tt) else (o, Err OsPrecondition)
    | PutUpdate _, None => (o, Err OsPrecondition)
    end;
  os_delete o k := let o := others_act o in ((delete k o.1, o.2), Ok tt);
  os_list o prefix := let o := others_act o in
    (o, Ok <$> filter (λ k, starts_with prefix k = true) (btree_keys o.1));
}.

Definition foreign : relation (gmap string string) := λ a b, ∃ f, b = foreign_publish a f.
Definition scripted_others : relation (gmap string string * Script) := λ o o', rtc foreign o.1 o'.1.

Lemma others_act_foreign o : scripted_others o (others_act o).
Proof.
  unfold scripted_others, others_act. destruct o as [objects [|f script]]; [by apply rtc_refl|].
  apply rtc_once. by exists f.
Qed.

#[global] Program Instance ScriptedLaws : ObjectStoreLaws Scripted := {
  os_view o := (λ value, (version_of value, value)) <$> o.1;
  os_others := scripted_others;
}.
Next Obligation.
  split; unfold scripted_others; [intros o; apply rtc_refl|intros o1 o2 o3 H1 H2; by etrans].
Qed.
Next Obligation.
  intros o o' k v a b _. cbn. rewrite !lookup_fmap. destruct (o.1 !! k), (o'.1 !! k); try done.
  cbn. unfold version_of. congruence.
Qed.
Next Obligation.
  intros o k o' r [= <- <-]. split; [apply others_act_foreign|]. cbn. rewrite lookup_fmap.
  by destruct (_ !! k).
Qed.
Next Obligation.
  intros o k value mode o' r H. exists (others_act o). split; [apply others_act_foreign|].
  revert H. cbn. destruct mode as [|v], ((others_act o).1 !! k) as [old|] eqn:E; [| |case_bool_decide as Hv|].
  all: intros [= <- <-]; try (by left); right; cbn; rewrite lookup_fmap, E; cbn; (split; [|eexists; by rewrite fmap_insert]).
  - done.
  - subst v. by exists old.
Qed.
Next Obligation.
  intros o k o' r [= <- <-]. exists (others_act o). split; [apply others_act_foreign|]. right. cbn.
  by rewrite fmap_delete.
Qed.
Next Obligation. intros o prefix o' r [= <- <-]. apply others_act_foreign. Qed.

Ltac open_view := cbn [fmap option_fmap option_map mbind option_bind snd].

Section scripted.
Context (path_of : string → string) (store_path c t : string).
#[local] Abbreviation manifest_path := (graph_index_manifest_path path_of store_path c t).
#[local] Abbreviation published_in := (published (L := ScriptedLaws) path_of store_path c t).

Lemma foreign_advances (o o' : gmap string string * Script) :
  foreign o.1 o'.1 → advances (published_in o) (published_in o').
Proof.
  intros [[k g] E]. unfold published. cbn [os_view ScriptedLaws]. rewrite !lookup_fmap, E. unfold foreign_publish.
  destruct (decode_graph_index_manifest k (encode_graph_index_manifest g)) as [g'|] eqn:Eg; [|reflexivity].
  destruct (decide (k = manifest_path)) as [->|Hk].
  - destruct (o.1 !! manifest_path) as [old|] eqn:Eo; [open_view|done].
    destruct (decode_graph_index_manifest manifest_path old) as [p|] eqn:Ep.
    + destruct (supersedes p g') eqn:Es.
      * rewrite Eo. open_view. rewrite Ep. by exists p.
      * rewrite lookup_insert_eq. open_view. rewrite Eg. exists g'. split; [done|]. by apply not_supersedes.
    + rewrite Eo. open_view. by rewrite Ep.
  - assert (∀ m : gmap string string, m !! manifest_path = o.1 !! manifest_path →
      advances (((λ value, (version_of value, value)) <$> o.1 !! manifest_path) ≫=
        λ p, result_ok (decode_graph_index_manifest manifest_path p.2))
      (((λ value, (version_of value, value)) <$> m !! manifest_path) ≫=
        λ p, result_ok (decode_graph_index_manifest manifest_path p.2))) as Hsame by (by intros m ->).
    apply Hsame. destruct (o.1 !! k) as [old|]; [destruct (decode_graph_index_manifest k old) as [p|];
      [destruct (supersedes p g')|]|]; by rewrite ?lookup_insert_ne.
Qed.

Lemma scripted_advances (o o' : gmap string string * Script) :
  scripted_others o o' → advances (published_in o) (published_in o').
Proof.
  destruct o as [a s], o' as [b s']. unfold scripted_others. cbn [fst]. intros H. revert s s'.
  induction H as [a|a b d Hf _ IH]; intros s s'; [done|].
  trans (published_in (b, s)); [by apply foreign_advances|apply IH].
Qed.
End scripted.

(** * Collection *)

(** Older generations first by rank. *)
Global Instance older_le_trans : Transitive older_le.
Proof. intros x y z. unfold older_le. intros [|[? ?]] [|[? ?]]; [lia..|]. right. split; [congruence|by trans y.2]. Qed.
Global Instance older_le_total : Total older_le.
Proof.
  intros x y. unfold older_le. destruct (N.lt_total x.1 y.1) as [|[E|]]; [by auto..| |by auto].
  destruct (total (key_le (K := string)) x.2 y.2); auto.
Qed.

(** The generations a pass keeps and the ones it deletes. *)
Definition kept (retain : nat) (older : list (N * string)) := take retain (merge_sort older_le older).
Definition doomed (retain : nat) (older : list (N * string)) := drop retain (merge_sort older_le older).

Lemma kept_doomed retain older :
  kept retain older ++ doomed retain older ≡ₚ older ∧
  length (kept retain older) = Nat.min retain (length older) ∧
  (∀ k d, k ∈ kept retain older → d ∈ doomed retain older → d.1 ≤ k.1).
Proof.
  unfold kept, doomed. rewrite take_drop, length_take, merge_sort_Permutation.
  split; [done|]. split; [done|]. intros k d Hk Hd.
  assert (StronglySorted older_le (merge_sort older_le older)) as Hs by (apply StronglySorted_merge_sort; apply _).
  rewrite <- (take_drop retain (merge_sort older_le older)) in Hs.
  apply StronglySorted_app_1_elem_of with (x1 := k) (x2 := d) in Hs; [|done..].
  destruct Hs as [|[-> _]]; lia.
Qed.

(** The listed generations older than [bound]. *)
Definition older_than (bound : N) (locations : list string) : list (N * string) :=
  omap (λ l, match graph_index_sequence_from_path l with
             | Ok q => if q <? bound then Some (q, l) else None
             | Err _ => None
             end) locations.

Lemma elem_of_older bound locations q l :
  (q, l) ∈ older_than bound locations ↔
  l ∈ locations ∧ graph_index_sequence_from_path l = Ok q ∧ q < bound.
Proof.
  unfold older_than. rewrite list_elem_of_omap. split.
  - intros (l' & Hl & H). destruct (graph_index_sequence_from_path l') as [q'|] eqn:E; [|done].
    destruct (N.ltb_spec q' bound); [|done]. by simplify_eq.
  - intros (Hl & E & Hlt). exists l. split; [done|]. rewrite E. by rewrite (proj2 (N.ltb_lt _ _) Hlt).
Qed.

Lemma collect_older_spec os_error_text bound items older r :
  collect_older os_error_text bound items older = Ok r →
  ∃ ls, items = Ok <$> ls ∧ r = older ++ older_than bound ls.
Proof.
  revert older. induction items as [|[l|e] items IH]; intros older; cbn [collect_older].
  - intros [= <-]. exists []. split; [done|]. cbn. by rewrite (right_id_L [] (++)).
  - intros (q & Hq & H)%bind_ok. apply IH in H as (ls & -> & ->). exists (l :: ls). split; [done|].
    unfold older_than. cbn. rewrite Hq. destruct (q <? bound); [|done]. by rewrite <- (assoc_L (++)).
  - done.
Qed.

Section collect.
Context {Ob : ObjectStore} {L : ObjectStoreLaws Ob}.
Context (path_of : string → string) (os_error_text : OsError → string) (store_path : string).

(** The other clients delete nothing. *)
Definition others_keep : Prop :=
  ∀ o o' k, os_others o o' → is_Some (os_view o !! k) → is_Some (os_view o' !! k).
Context (Hkeep : others_keep).

Lemma delete_each_keeps ls n (e e' : Engine Ob) r k :
  delete_each os_error_text ls n e = (e', r) → k ∉ ls →
  is_Some (os_view (en_os e) !! k) → is_Some (os_view (en_os e') !! k).
Proof.
  revert n e. induction ls as [|l ls IH]; intros n e; cbn [delete_each]; [by intros [= <- <-]|].
  destruct (os_delete (en_os e) l) as [o1 res] eqn:Ed. rewrite (bind_os (λ o, os_delete o l) _ _ _ _ Ed).
  apply delete_law in Ed as (o0 & Ho0 & Hdel). intros H Hk Hin.
  assert (is_Some (os_view o1 !! k)) as Hin1.
  { apply (Hkeep _ _ _ Ho0) in Hin. destruct Hdel as [->| ->]; [done|].
    rewrite lookup_delete_ne by set_solver. done. }
  destruct res as [[]|err]; [by apply IH in H; set_solver|]. by injection H as <- <-.
Qed.

Lemma gc_spec c t retain g (e e1 e' : Engine Ob) n :
  current_graph_index path_of os_error_text store_path c t e = (e1, Ok (Some g)) →
  gc_graph_index_generations path_of os_error_text store_path c t retain e = (e', Ok n) →
  ∃ o2 locations, os_list (en_os e1) (graph_index_generations_prefix path_of store_path c t) = (o2, Ok <$> locations) ∧
    delete_each os_error_text (snd <$> doomed retain (older_than (overlay.gen_base_sequence g) locations)) 0
      (MkEngine o2 (en_generations e1)) = (e', Ok n).
Proof.
  intros Hcur. unfold gc_graph_index_generations, lift. unfold mbind, sm_mbind.
  destruct (validate_component "cell_id" c); [|done]. destruct (validate_component "edge_type" t); [|done].
  rewrite Hcur. unfold os_call.
  destruct (os_list (en_os e1) _) as [o2 items] eqn:El.
  destruct (collect_older _ _ items []) as [older|] eqn:Ec; [|done].
  apply collect_older_spec in Ec as (ls & -> & ->). intros H. by exists o2, ls.
Qed.
End collect.

Lemma scripted_keep : others_keep (L := ScriptedLaws).
Proof.
  intros [a s] [b s'] k. cbn. unfold scripted_others. cbn [fst]. intros H. rewrite !lookup_fmap, !fmap_is_Some.
  clear s s'. induction H as [|a a1 b [[k' g] ->] _ IH]; [done|]. intros Hin. apply IH. unfold foreign_publish.
  assert (∀ value, is_Some ((<[k' := value]> a : gmap string string) !! k)) as Hins.
  { intros value. rewrite lookup_insert_is_Some. destruct (decide (k' = k)); auto. }
  destruct (decode_graph_index_manifest _ _); [|done]. destruct (a !! k') as [old|]; [|apply Hins].
  destruct (decode_graph_index_manifest k' old) as [p|]; [|done]. destruct (supersedes _ _); [done|apply Hins].
Qed.

(** * Claims *)

(** C23: the published index never goes back.  Whatever the object store's other
    clients publish meanwhile, by the same protocol, and however the call ends,
    the manifest never names an older generation after a publication than before
    it; a successful publication returns a generation at least as recent as the
    proposed one, which is the proposed one or the one the manifest names, and
    the manifest names one at least as recent as the proposed. *)
Theorem publication_never_goes_back {Ob : ObjectStore} {L : ObjectStoreLaws Ob}
  (path_of : string → string) (os_error_text : OsError → string) (store_path c t : string)
  (g : overlay.GraphIndexGeneration) (body : string) (e e' : Engine Ob) (r : Result overlay.GraphIndexGeneration)
  (Hothers : ∀ o o', os_others o o' → advances (published path_of store_path c t o) (published path_of store_path c t o'))
  (Hg : generation_ok g) (Hc : overlay.gen_cell_id g = c) (Ht : overlay.gen_edge_type g = t)
  (Hpath : graph_index_generation_path path_of store_path c t (overlay.gen_base_sequence g) (overlay.gen_generation g)
             ≠ graph_index_manifest_path path_of store_path c t)
  (H : publish_graph_index path_of os_error_text store_path g body e = (e', r)) :
  advances (published path_of store_path c t (en_os e)) (published path_of store_path c t (en_os e')) ∧
  ∀ p, r = Ok p →
    advances (Some g) (published path_of store_path c t (en_os e')) ∧ recent g p ∧
    (p = g ∨ published path_of store_path c t (en_os e') = Some p).
Proof. by apply (publish_advances path_of os_error_text store_path c t Hothers g Hg body e e' r). Qed.

Definition sample_digest : string := "0123456789abcdef0123456789abcdef0123456789abcdef0123456789abcdef".
Definition sample_generation (q w : N) : overlay.GraphIndexGeneration :=
  overlay.MkGeneration "c1" "knows" q w 3 99 sample_digest.
Definition sample_path : string := graph_index_manifest_path id "s" "c1" "knows".
(** Two other publications, the second between this one's read and its write. *)
Definition busy_store (q : N) : Engine Scripted :=
  MkEngine (O := Scripted) (∅, [(sample_path, sample_generation 5 1); (sample_path, sample_generation 6 1);
                  (sample_path, sample_generation q 1)]) ∅.

Lemma publication_never_goes_back_witness :
  let publish e := publish_graph_index (Ob := Scripted) id (λ _, "") "s" (sample_generation 7 2) "csc" e in
  (publish (busy_store 7)).2 = Ok (sample_generation 7 2) ∧
  (publish (busy_store 9)).2 = Ok (sample_generation 9 1) ∧
  advances (Some (sample_generation 7 2)) (published id "s" "c1" "knows" (en_os (publish (busy_store 9)).1)).
Proof.
  cbv zeta. split; [vm_compute; reflexivity|]. split; [vm_compute; reflexivity|].
  destruct (publication_never_goes_back (L := ScriptedLaws) id (λ _, "") "s" "c1" "knows" (sample_generation 7 2) "csc" (busy_store 9)
    _ _ (scripted_advances id "s" "c1" "knows")
    ltac:(repeat split; try reflexivity; vm_compute; discriminate) eq_refl eq_refl
    ltac:(vm_compute; discriminate) (surjective_pairing _)) as [_ H2].
  apply (H2 (sample_generation 9 1)). vm_compute. reflexivity.
Defined.

(** A collection keeps what readers need.  A completed collection pass deletes
    only listed generations older than the published one; of those it keeps as
    many of the newest as it was asked to, and none it deletes is newer than one
    it keeps.  When the other clients delete nothing, every other object
    survives, in particular every generation at least as recent as the
    published one. *)
Theorem collection_keeps_recent {Ob : ObjectStore} {L : ObjectStoreLaws Ob}
  (path_of : string → string) (os_error_text : OsError → string) (store_path c t : string) (retain : nat)
  (g : overlay.GraphIndexGeneration) (e e1 e' : Engine Ob) (n : N) (Hkeep : others_keep (L := L))
  (Hcur : current_graph_index path_of os_error_text store_path c t e = (e1, Ok (Some g)))
  (H : gc_graph_index_generations path_of os_error_text store_path c t retain e = (e', Ok n)) :
  ∃ locations, let older := older_than (overlay.gen_base_sequence g) locations in
    kept retain older ++ doomed retain older ≡ₚ older ∧
    length (kept retain older) = Nat.min retain (length older) ∧
    (∀ k d, k ∈ kept retain older → d ∈ doomed retain older → d.1 ≤ k.1) ∧
    (∀ q l, (q, l) ∈ doomed retain older →
       graph_index_sequence_from_path l = Ok q ∧ q < overlay.gen_base_sequence g) ∧
    (∀ k, k ∉ (doomed retain older).*2 → is_Some (os_view (en_os e1) !! k) → is_Some (os_view (en_os e') !! k)) ∧
    ∀ k q, graph_index_sequence_from_path k = Ok q → overlay.gen_base_sequence g ≤ q →
      is_Some (os_view (en_os e1) !! k) → is_Some (os_view (en_os e') !! k).
Proof.
  destruct (gc_spec path_of os_error_text store_path c t retain g e e1 e' n Hcur H) as (o2 & ls & Hl & Hdel).
  exists ls. cbv zeta. set (older := older_than _ ls) in *. destruct (kept_doomed retain older) as (H1 & H2 & H3).
  assert (∀ q l, (q, l) ∈ doomed retain older →
    graph_index_sequence_from_path l = Ok q ∧ q < overlay.gen_base_sequence g) as Hd.
  { intros q l Hin. assert ((q, l) ∈ older) as Ho by (rewrite <- H1; apply elem_of_app; by right).
    by apply elem_of_older in Ho as (_ & ? & ?). }
  assert (∀ k, k ∉ (doomed retain older).*2 → is_Some (os_view (en_os e1) !! k) →
    is_Some (os_view (en_os e') !! k)) as Hk.
  { intros k Hk Hin. eapply (delete_each_keeps path_of os_error_text Hkeep); [exact Hdel|done|].
    cbn [en_os]. apply list_law in Hl. by apply (Hkeep _ _ _ Hl). }
  do 5 (split; [done|]). intros k q Hq Hle. apply Hk. intros ([q' l] & -> & Hin)%list_elem_of_fmap.
  apply Hd in Hin as [E Hlt]. cbn in Hq. rewrite E in Hq. injection Hq as ->. lia.
Qed.

Definition old_path (q : N) : string := graph_index_generation_path id "s" "c1" "knows" q sample_digest.
Definition full_store : Engine Scripted :=
  MkEngine (O := Scripted) (list_to_map [(sample_path, encode_graph_index_manifest (sample_generation 7 2));
    (old_path 7, "g7"); (old_path 6, "g6"); (old_path 5, "g5"); (old_path 4, "g4"); (old_path 9, "g9")], []) ∅.

Lemma collection_keeps_recent_witness :
  let after := gc_graph_index_generations (Ob := Scripted) id (λ _, "") "s" "c1" "knows" 1 full_store in
  after.2 = Ok 2 ∧ (en_os after.1).1 !! old_path 5 = None ∧ (en_os after.1).1 !! old_path 6 = Some "g6" ∧
  is_Some (os_view (en_os after.1) !! old_path 7).
Proof.
  cbv zeta. split; [vm_compute; reflexivity|]. split; [vm_compute; reflexivity|]. split; [vm_compute; reflexivity|].
  destruct (collection_keeps_recent (L := ScriptedLaws) id (λ _, "") "s" "c1" "knows" 1 (sample_generation 7 2) full_store
    (current_graph_index (Ob := Scripted) id (λ _, "") "s" "c1" "knows" full_store).1
    (gc_graph_index_generations (Ob := Scripted) id (λ _, "") "s" "c1" "knows" 1 full_store).1 2
    scripted_keep) as (ls & _ & _ & _ & _ & _ & H).
  - apply pair_result. vm_compute. reflexivity.
  - apply pair_result. vm_compute. reflexivity.
  - apply (H (old_path 7) 7); [vm_compute; reflexivity|vm_compute; discriminate|].
    exists (version_of "g7", "g7"). vm_compute. reflexivity.
Defined.
