(* ===== verification/IndexFacts.v ===== *)
(** [IndexStore]: the canonical adjacency of a snapshot is the graph's edges, and
    an incremental build of an index makes the generation a full build makes. *)

From stdpp Require Import relations.
From S2P Require Import Prelude Text TextFacts Errors Model Namespace Keys KeysFacts Codec CodecFacts CodecRecords CodecRecordFacts Kv ShardTxn SegmentReads ShardWrite ShardRefine ShardMem ShardInv Sparse Overlay Xlog XlogFacts History AdjacencyReads SparseFacts SparseBuild IndexStore IndexCodec IndexPublish.

Local Open Scope N_scope.

Import sparse index.

(** * Rows *)

(** An adjacency as the code keeps it: no empty row. *)
Definition no_empty (adj : Adjacency) : Prop := ∀ s, adj !! s ≠ Some ∅.

Lemma adjacency_eq a b :
  no_empty a → no_empty b → (∀ s d, d ∈ nbrs a s ↔ d ∈ nbrs b s) → a = b.
Proof.
  intros Ha Hb H. apply map_eq. intros s.
  assert (nbrs a s = nbrs b s) as E by (apply set_eq; intros d; apply H).
  unfold nbrs in E. specialize (Ha s). specialize (Hb s).
  destruct (a !! s), (b !! s); cbn in E; congruence.
Qed.

Lemma dedup_elem l x : x ∈ dedup_vertices l ↔ x ∈ l.
Proof.
  induction l as [|a [|b l] IH]; [done|done|].
  change (dedup_vertices (a :: b :: l)) with
    (if a =? b then dedup_vertices (b :: l) else a :: dedup_vertices (b :: l)).
  destruct (N.eqb_spec a b) as [->|]; rewrite ?elem_of_cons, IH, ?elem_of_cons; tauto.
Qed.

Lemma normalize_elem l x : x ∈ normalize_row l ↔ x ∈ l.
Proof. unfold normalize_row. by rewrite dedup_elem, merge_sort_Permutation. Qed.

(** The adjacency a run of rows normalizes to. *)
Definition adjacency_of (r : MatrixRows) : Adjacency := list_to_set <$> rows (normalize r).

Lemma adjacency_nbrs r s d : d ∈ nbrs (adjacency_of r) s ↔ d ∈ default [] (rows r !! s).
Proof.
  unfold adjacency_of, nbrs, normalize. cbn [rows]. rewrite lookup_fmap.
  destruct (rows r !! s) as [l|] eqn:E; cbn [default].
  - destruct (decide (normalize_row l = [])) as [Hn|Hn].
    + assert (filter (λ p, p.2 ≠ []) (normalize_row <$> rows r) !! s = None) as ->.
      { apply map_lookup_filter_None. right. intros x. rewrite lookup_fmap, E. intros [= <-]. cbn. tauto. }
      cbn. rewrite <- (normalize_elem l), Hn. set_solver.
    + assert (filter (λ p, p.2 ≠ []) (normalize_row <$> rows r) !! s = Some (normalize_row l)) as ->.
      { apply map_lookup_filter_Some. by rewrite lookup_fmap, E. }
      cbn. by rewrite elem_of_list_to_set, normalize_elem.
  - assert (filter (λ p, p.2 ≠ []) (normalize_row <$> rows r) !! s = None) as ->; [|set_solver].
    apply map_lookup_filter_None. left. by rewrite lookup_fmap, E.
Qed.

Lemma adjacency_no_empty r : no_empty (adjacency_of r).
Proof.
  intros s. unfold adjacency_of, normalize. cbn [rows]. rewrite lookup_fmap.
  destruct (filter _ _ !! s) as [l|] eqn:E; [|done]. cbn. intros [= Hl].
  apply map_lookup_filter_Some in E as [_ Hne]. cbn in Hne. destruct l as [|x l]; [done|].
  assert (x ∈ (list_to_set (x :: l) : gset N)) as Hx by set_solver. rewrite Hl in Hx. set_solver.
Qed.

(** * Scanning a graph without segments *)

Section scan.
Context (c t : string) (Hc : component_ok c = true) (Ht : component_ok t = true).
Context (v : gmap string string) (Hw : edges_wf c v) (Hs : no_segments c v).
Context (limit : N).
#[local] Abbreviation mem_scan := (λ prefix, Ok (E := SlateErrorKind) <$> view_scan v prefix None None).

Definition pair_ok (p : N * N) : Prop := u64_ok p.1 ∧ u64_ok p.2.
Definition out_key (p : N * N) : string := keys.out_edge c t p.1 p.2.

Lemma out_type_scan_of : scan_of c pair_ok (POutEdgeType c t) out_key.
Proof.
  pose proof (cell_is_name c Hc) as Hn. pose proof (component_ok_slash _ Ht) as Htn. split; [done|].
  split; [by exists ("out/" +:+ t +:+ "/")|]. split.
  - intros [s d]. unfold out_key, keys.out_edge, prefix_render, keys.out_edge_type_prefix, starts_with. cbn [fst snd].
    replace ("cell/" +:+ c +:+ "/e/out/" +:+ t +:+ "/" +:+ pad20 s +:+ "/" +:+ pad20 d)
      with (("cell/" +:+ c +:+ "/e/out/" +:+ t +:+ "/") +:+ (pad20 s +:+ "/" +:+ pad20 d))
      by (by rewrite !app_assoc).
    by rewrite (proj2 (strip_prefix_Some _ _ _) eq_refl).
  - intros t' s d Ht' Hs' Hd. cbn [covers]. split; [|done]. intros (_ & ->). by exists (s, d).
Qed.

Lemma out_key_pair_inj p p' : pair_ok p → pair_ok p' → out_key p = out_key p' → p = p'.
Proof.
  destruct p as [s d], p' as [s' d']. intros [Hs1 Hd1] [Hs2 Hd2] E. unfold out_key in E. cbn in *.
  apply (render_eq (KOutEdge c t s d) (KOutEdge c t s' d')) in E; [by simplify_eq|..];
    cbn; pose proof (cell_is_name c Hc); pose proof (component_ok_slash _ Ht); auto 10.
Qed.

(** One pushed record per edge, until the limit. *)
Lemma push_loop xs r r' : Forall pair_ok xs →
  scan_loop (record_row_step limit) r (Ok <$> ((λ p, (out_key p, edge_record_value)) <$> xs)) = Ok r' →
  r' = foldl (λ r p, push r p.1 p.2) r xs.
Proof.
  intros Hxs. revert r. induction Hxs as [|[s d] xs [Hs1 Hd1] _ IH]; intros r; [by intros [= <-]|].
  rewrite !fmap_cons. cbn [scan_loop foldl]. unfold record_row_step at 1.
  rewrite (record_key_utf8 c Hc).
  2: { exists "e", ("out/" +:+ t +:+ "/" +:+ pad20 s +:+ "/" +:+ pad20 d).
       split; [reflexivity|]. split; [reflexivity|].
       repeat first [apply valid_utf8_app | apply pad_utf8 | by apply component_ok_utf8 | reflexivity]. }
  unfold decode_edge_record. cbn [snd]. rewrite bool_decide_eq_true_2 by done.
  unfold out_key at 1. cbn [fst snd] in *. rewrite parse_out_edge_key by done. cbn [mbind result_mbind result_bind].
  unfold push_limited, ensure_limit. cbn [er_src er_dst]. destruct (limit <? _); [done|]. apply IH.
Qed.

Lemma pushed_elem xs r s d :
  d ∈ default [] (rows (foldl (λ r p, push r p.1 p.2) r xs) !! s)
  ↔ d ∈ default [] (rows r !! s) ∨ (s, d) ∈ xs.
Proof.
  revert r. induction xs as [|[s' d'] xs IH]; intros r; cbn [foldl]; [set_solver|].
  rewrite IH. unfold push. cbn [rows fst snd]. rewrite elem_of_cons.
  destruct (decide (s = s')) as [->|Hne].
  - rewrite lookup_insert_eq. change (default [] (Some ?l)) with l. rewrite elem_of_app, list_elem_of_singleton. naive_solver.
  - rewrite lookup_insert_ne by done. naive_solver.
Qed.

Lemma no_segment_types :
  view_scan v (keys.out_segment_tombstone_edge_type_prefix c t) None None = [] ∧
  view_scan v (keys.out_segment_edge_type_prefix c t) None None = [].
Proof.
  pose proof (cell_is_name c Hc) as Hn.
  split; apply view_scan_nil; intros suffix; apply Hs.
  - unfold keys.out_segment_tombstone_edge_type_prefix. rewrite !app_assoc.
    exact (family_cell c "seg" ("tomb/out/" +:+ t +:+ "/" +:+ suffix) Hn eq_refl).
  - unfold keys.out_segment_edge_type_prefix. rewrite !app_assoc.
    exact (family_cell c "seg" ("out/" +:+ t +:+ "/" +:+ suffix) Hn eq_refl).
Qed.

(** The canonical adjacency is the graph. *)
Lemma canonical_spec q adj :
  canonical_adjacency_at (λ prefix, snap_scan_prefix (SlateDb := Mem) (MkMemDb v q) prefix None None)
    limit c t q = Ok adj →
  no_empty adj ∧ ∀ s d, d ∈ nbrs adj s ↔ u64_ok s ∧ u64_ok d ∧ edge_at c t v s d.
Proof.
  intros H. unfold canonical_adjacency_at in H. apply bind_ok in H as (r & Hr & [= <-]).
  unfold current_matrix_rows in Hr. apply bind_ok in Hr as (r1 & H1 & H2).
  apply bind_ok in H2 as (ts & H2 & H3). cbn [snap_scan_prefix Mem mem_view] in H1, H2, H3.
  destruct no_segment_types as [_ E]. rewrite E in H3. injection H3 as ->. clear H2 E.
  destruct (scan_edges c Hc v Hw pair_ok _ _ out_type_scan_of out_key_pair_inj) as (xs & Hscan & Hxs).
  cbn [prefix_render] in Hscan. rewrite Hscan in H1. apply push_loop in H1.
  2: { apply Forall_forall. intros p Hp. by apply Hxs. }
  subst r. split; [apply adjacency_no_empty|]. intros s d.
  etrans; [apply adjacency_nbrs|]. rewrite pushed_elem. cbn [rows no_rows]. rewrite lookup_empty, Hxs.
  unfold pair_ok, edge_at, out_key. cbn. set_solver.
Qed.
End scan.

(** * The patch *)

Lemma nbrs_insert adj s X s' : nbrs (<[s := X]> adj) s' = if decide (s = s') then X else nbrs adj s'.
Proof. unfold nbrs. case_decide; subst; by rewrite ?lookup_insert_eq, ?lookup_insert_ne. Qed.
Lemma nbrs_delete adj s s' : nbrs (delete s adj) s' = if decide (s = s') then ∅ else nbrs adj s'.
Proof. unfold nbrs. case_decide; subst; by rewrite ?lookup_delete_eq, ?lookup_delete_ne. Qed.

Lemma patch_entry_spec adj x y b s d :
  d ∈ nbrs (patch_entry adj (x, y, b)) s ↔ if decide (s = x ∧ d = y) then b = true else d ∈ nbrs adj s.
Proof.
  unfold patch_entry. fold (nbrs adj x). destruct b.
  - rewrite nbrs_insert. destruct (decide (x = s)) as [<-|]; case_decide; set_solver.
  - destruct (adj !! x) as [X|] eqn:E.
    + assert (nbrs adj x = X) as HX by (unfold nbrs; by rewrite E). case_bool_decide.
      * rewrite nbrs_delete. destruct (decide (x = s)) as [<-|]; case_decide; set_solver.
      * rewrite nbrs_insert. destruct (decide (x = s)) as [<-|]; case_decide; set_solver.
    + case_decide as H; [|done]. destruct H as [-> ->]. unfold nbrs. rewrite E. cbn. set_solver.
Qed.

Lemma patch_entry_no_empty adj e : no_empty adj → no_empty (patch_entry adj e).
Proof.
  destruct e as [[x y] b]. intros H s. unfold patch_entry. specialize (H s).
  destruct b; [|destruct (adj !! x) as [X|] eqn:E; [case_bool_decide|done]].
  - rewrite lookup_insert. case_decide; [|done]. intros [= Hx]. set_solver.
  - rewrite lookup_delete. by case_decide.
  - rewrite lookup_insert. case_decide; [|done]. intros [= Hx]. done.
Qed.

Lemma elem_of_entries o s d b : (s, d, b) ∈ overlay.entries o ↔ overlay.state o s d = Some b.
Proof.
  unfold overlay.entries, overlay.state. rewrite list_elem_of_bind. split.
  - intros ([s' m] & H & Hm%elem_of_btree_iter). apply list_elem_of_fmap in H as ([d' b'] & E & Hb).
    apply elem_of_btree_iter in Hb. cbn in *. simplify_eq. by rewrite Hm.
  - destruct (overlay.states o !! s) as [m|] eqn:E; [|done]. cbn. intros Hb. exists (s, m).
    split; [|by apply elem_of_btree_iter]. apply list_elem_of_fmap. exists (d, b).
    split; [done|]. by apply elem_of_btree_iter.
Qed.

(** Entries that tell one thing of each edge can be applied in any order. *)
Lemma patch_spec_list (l : list (N * N * bool)) adj s d
  (Hl : ∀ s d b b', (s, d, b) ∈ l → (s, d, b') ∈ l → b = b') :
  d ∈ nbrs (foldl patch_entry adj l) s ↔
  (s, d, true) ∈ l ∨ ((s, d, false) ∉ l) ∧ d ∈ nbrs adj s.
Proof.
  induction l as [|[[x y] b] l IH] using rev_ind; [set_solver|].
  rewrite foldl_app. cbn [foldl]. etrans; [apply patch_entry_spec|].
  rewrite !elem_of_app, !list_elem_of_singleton. case_decide as H.
  - destruct H as [-> ->]. split.
    + intros ->. left. by right.
    + intros [[H|H]|[H _]]; [|by simplify_eq|].
      * symmetry. apply (Hl x y true b); set_solver.
      * destruct b; [done|]. exfalso. apply H. by right.
  - rewrite IH by (intros s' d' b1 b2 H1 H2; apply (Hl s' d' b1 b2); apply elem_of_app; by left).
    assert (∀ b', (s, d, b') = (x, y, b) → False) as Hne by (intros b' E; simplify_eq; tauto).
    naive_solver.
Qed.

Lemma patch_spec o adj s d :
  d ∈ nbrs (patch adj o) s ↔
  match overlay.state o s d with Some b => b = true | None => d ∈ nbrs adj s end.
Proof.
  unfold patch. rewrite patch_spec_list, !elem_of_entries; [destruct (overlay.state o s d) as [[]|]; naive_solver|].
  intros s' d' b b'. rewrite !elem_of_entries. congruence.
Qed.

Lemma patch_no_empty o adj : no_empty adj → no_empty (patch adj o).
Proof.
  unfold patch. generalize (overlay.entries o). intros l. revert adj.
  induction l as [|e l IH]; intros adj H; [done|]. cbn [foldl]. by apply IH, patch_entry_no_empty.
Qed.

(** The delta's vertices are words. *)
Lemma xlog_component_ok key name cs n rest : xlog_component key name cs = Ok (n, rest) → u64_ok n.
Proof.
  unfold xlog_component. destruct cs as [|x cs]; [done|].
  destruct (parse_u64_text x) eqn:E; [|done]. intros [= <- _]. by eapply parse_u64_text_ok.
Qed.
Lemma delta_words (s : MShard) g q c t o x d :
  xlog_delta_since (S := Mem) (sh_db s) g q c t = Ok (XlogComplete o) →
  is_Some (overlay.state o x d) → u64_ok x ∧ u64_ok d.
Proof.
  unfold xlog_delta_since. intros (value & _ & H)%bind_ok. destruct value as [value|]; [|done].
  apply bind_ok in H as (low & _ & H). destruct (_ <? low); [done|].
  apply bind_ok in H as (o' & H & [= ->]). revert x d. revert H.
  apply (scan_loop_ind (λ o, ∀ x d, is_Some (overlay.state o x d) → u64_ok x ∧ u64_ok d)).
  - by intros x d [? [=]].
  - intros acc kv r Hacc H. apply bind_ok in H as ([[sq y] z] & Hparse & H).
    apply bind_ok in H as (b & _ & [= <-]). intros x d. rewrite state_set. case_decide as E; [|apply Hacc].
    intros _. destruct E as [-> ->]. unfold parse_xlog_entry_key in Hparse.
    apply bind_ok in Hparse as (suffix & _ & Hparse). apply bind_ok in Hparse as ([sq' cs] & _ & Hparse).
    apply bind_ok in Hparse as ([y' cs'] & Hy & Hparse). apply bind_ok in Hparse as ([z' cs''] & Hz & Hparse).
    apply xlog_component_ok in Hy, Hz. destruct cs''; [|done]. by injection Hparse as <- <- <-.
Qed.

(** * The payload of a full build *)

Lemma validate_csc_artifact key c : validate_csc c = Ok tt →
  validate_graphblas_csc_artifact key c = Ok tt ∧ N.of_nat (length (csc_vertices c)) ≤ GRAPHBLAS_INDEX_MAX.
Proof.
  unfold validate_csc, validate_graphblas_csc_artifact. cbv zeta. intros H.
  destruct (N.ltb_spec GRAPHBLAS_INDEX_MAX (N.of_nat (length (csc_vertices c)))) as [|Hle]; [done|].
  split; [|exact Hle]. repeat (match goal with
    | H : (if negb ?b then _ else _) = _ |- _ => destruct b; cbn [negb] in *; [|done] end).
  destruct (list_find _ _) as [[]|]; [done|].
  by destruct (windows_all N.ltb _).
Qed.

Lemma fnv_update_ok h x : u64_ok h → u64_ok (fnv_update h x).
Proof.
  revert h. induction x as [|a x IH]; intros h Hh; [done|]. apply IH, wrapping_mul_ok.
Qed.
Lemma fold_checksum_ok l h : u64_ok h → u64_ok (foldl checksum_u64 h l).
Proof.
  revert h. induction l as [|x l IH]; intros h Hh; [done|]. apply IH. unfold checksum_u64.
  by apply fnv_update_ok.
Qed.
Lemma checksum_ok c : u64_ok (graphblas_csc_checksum c).
Proof.
  unfold graphblas_csc_checksum, checksum_u64 at 1 3 5. cbv zeta.
  do 3 apply fold_checksum_ok, fnv_update_ok.
  vm_compute. discriminate.
Qed.

Section payload.
Context (adj : Adjacency) (Hne : no_empty adj) (Hwords : ∀ s d, d ∈ nbrs adj s → u64_ok s ∧ u64_ok d).

Lemma vertex_word x : vertex_of adj x → u64_ok x.
Proof.
  intros (s & X & Hs & Hx). assert (nbrs adj s = X) as HX by (unfold nbrs; by rewrite Hs).
  destruct Hx as [->|Hx].
  - destruct (set_choose_or_empty X) as [[d Hd]|Hemp]; [apply (Hwords s d); by rewrite HX|].
    apply leibniz_equiv in Hemp. subst X. rewrite Hemp in Hs. by apply Hne in Hs.
  - apply (Hwords s x). by rewrite HX.
Qed.

Lemma built_words c : graphblas_csc_from_adjacency adj = Ok c →
  u64_ok (N.of_nat (length (csc_indices c))) → csc_words c.
Proof.
  intros Hc Hlen. pose proof (build_csc_of _ _ Hc) as [Hs Hv Hval _].
  pose proof (validate_csc_ok _ Hval) as (Hpl & Hle & Hlast & Hb & _).
  destruct (validate_csc_artifact "" _ Hval) as [_ Hmax].
  split; [|split]; apply Forall_forall.
  - intros x Hx%Hv. by apply vertex_word.
  - intros x [i Hi]%list_elem_of_lookup. pose proof (lookup_lt_Some _ _ _ Hi) as Hlt.
    rewrite (last_at _ (length (csc_vertices c))) in Hlast by done.
    pose proof (sorted_at_le _ i (length (csc_vertices c)) Hle ltac:(lia)) as H.
    rewrite (at_lookup _ _ _ Hi) in H. unfold u64_ok in *. lia.
  - intros x Hx%Hb. assert (GRAPHBLAS_INDEX_MAX ≤ u64_max) by (vm_compute; discriminate). unfold u64_ok. lia.
Qed.

Lemma built_reads_back key q w c : graphblas_csc_from_adjacency adj = Ok c →
  u64_ok (N.of_nat (length (csc_indices c))) → u64_ok q → u64_ok w →
  slice_ok (encode_graph_index_csc q w (graphblas_csc_checksum c) c) →
  decode_graph_index_csc key (encode_graph_index_csc q w (graphblas_csc_checksum c) c) q w
    (graphblas_csc_checksum c) = Ok c ∧ to_adjacency c = Ok adj.
Proof.
  intros Hc Hlen Hq Hw Hs. pose proof (build_csc_of _ _ Hc) as Hof. split.
  - apply decode_payload_intro; [done|]. split; [done|]. split; [done|]. split; [done|].
    split; [apply checksum_ok|]. split; [by apply built_words|]. split; [|done].
    apply validate_csc_artifact, Hof.
  - rewrite (to_adjacency_of adj c Hof). f_equal. apply map_filter_id.
    intros s X HX. cbn. intros ->. by apply Hne in HX.
Qed.
End payload.

(** * The builds *)

Section builds.
Context {Ob : ObjectStore}.
Context (path_of : string → string) (os_error_text : OsError → string) (sha256 : string → string).
Context (Hsha : ∀ x, strlen (sha256 x) = 32).
Context (snap_last_wal_id : MemDb → option N) (store_path : string) (limit : N) (Hlimit : u64_ok limit).
#[local] Abbreviation manifest_path := (graph_index_manifest_path path_of store_path).
#[local] Abbreviation generation_path := (graph_index_generation_path path_of store_path).
#[local] Abbreviation current := (current_graph_index path_of os_error_text store_path).
#[local] Abbreviation read_csc := (graph_index_csc path_of os_error_text store_path).
#[local] Abbreviation full := (full_generation (Sl := Mem) sha256 limit).
#[local] Abbreviation build := (build_graph_index (Sl := Mem) path_of os_error_text sha256 snap_last_wal_id store_path limit).
#[local] Abbreviation incremental :=
  (build_graph_index_incremental (Sl := Mem) path_of os_error_text sha256 snap_last_wal_id store_path limit).

(** Reading back what was published. *)
Lemma current_run c t g o1 v (e : Engine Ob) :
  generation_ok g → overlay.gen_cell_id g = c → overlay.gen_edge_type g = t →
  os_get (en_os e) (manifest_path c t) = (o1, Ok (v, Ok (encode_graph_index_manifest g))) →
  current c t e = (MkEngine o1 (en_generations e), Ok (Some g)).
Proof.
  intros Hg Ec Et Hget. pose proof Hg as (Hc & Ht & _). rewrite Ec in Hc. rewrite Et in Ht.
  unfold current_graph_index, os_call, lift, mbind, sm_mbind. rewrite !validate_component_true by done.
  rewrite Hget. cbn [map_err]. rewrite manifest_round_trip by done.
  by rewrite Ec, Et, !bool_decide_eq_true_2 by done.
Qed.

Lemma read_csc_run g o1 v value csc (e : Engine Ob) :
  os_get (en_os e) (generation_path (overlay.gen_cell_id g) (overlay.gen_edge_type g)
    (overlay.gen_base_sequence g) (overlay.gen_generation g)) = (o1, Ok (v, Ok value)) →
  (∀ key, decode_graph_index_csc key value (overlay.gen_base_sequence g) (overlay.gen_last_wal_id g)
            (overlay.gen_checksum g) = Ok csc) →
  N.of_nat (length (csc_indices csc)) = overlay.gen_edge_count g →
  read_csc g e = (MkEngine o1 (en_generations e), Ok (Some csc)).
Proof.
  intros Hget Hdec Hlen. unfold graph_index_csc, os_call, lift, mbind, sm_mbind.
  rewrite Hget. cbn. rewrite Hdec, Hlen, N.eqb_refl. done.
Qed.

Lemma encode_generation_inv c t q w adj g p :
  encode_generation sha256 limit c t q w adj = Ok (g, p) →
  ∃ csc, graphblas_csc_from_adjacency adj = Ok csc ∧ N.of_nat (length (csc_indices csc)) ≤ limit ∧
    p = encode_graph_index_csc q w (graphblas_csc_checksum csc) csc ∧
    g = overlay.MkGeneration c t q w (N.of_nat (length (csc_indices csc))) (graphblas_csc_checksum csc)
          (sha256_hex sha256 p).
Proof.
  unfold encode_generation. intros (csc & Hc & H)%bind_ok. cbv zeta in H.
  apply bind_ok in H as ([] & Hl & [= <- <-]). exists csc. split; [done|]. split; [|done].
  unfold ensure_limit in Hl. destruct (N.ltb_spec limit (N.of_nat (length (csc_indices csc)))); [done|lia].
Qed.

(** What a full build of a graph without segments makes reads back as its edges. *)
Lemma full_reads_back c t (s : MShard) w g p :
  component_ok c = true → component_ok t = true → plain s → edges_wf c (sview s) → u64_ok (sseq s) →
  u64_ok w → slice_ok p → full (sh_db s) c t (sseq s) w = Ok (g, p) →
  ∃ adj csc, canonical_adjacency_at (λ prefix, snap_scan_prefix (SlateDb := Mem) (sh_db s) prefix None None)
      limit c t (sseq s) = Ok adj ∧
    generation_ok g ∧ overlay.gen_cell_id g = c ∧ overlay.gen_edge_type g = t ∧
    overlay.gen_base_sequence g = sseq s ∧
    (∀ key, decode_graph_index_csc key p (overlay.gen_base_sequence g) (overlay.gen_last_wal_id g)
              (overlay.gen_checksum g) = Ok csc) ∧
    N.of_nat (length (csc_indices csc)) = overlay.gen_edge_count g ∧ to_adjacency csc = Ok adj ∧
    no_empty adj ∧ ∀ x d, d ∈ nbrs adj x ↔ u64_ok x ∧ u64_ok d ∧ edge_at c t (sview s) x d.
Proof.
  intros Hc Ht [_ Hs] Hw Hq Hw' Hp H. apply bind_ok in H as (adj & Hadj & H).
  assert (sh_db s = MkMemDb (sview s) (sseq s)) as Edb by (unfold sview, sseq; by destruct (sh_db s)).
  pose proof Hadj as Hspec. rewrite Edb in Hspec. apply canonical_spec in Hspec as [Hne Hedge]; [|done..].
  apply encode_generation_inv in H as (csc & Hcsc & Hlen & -> & ->). exists adj, csc.
  assert (u64_ok (N.of_nat (length (csc_indices csc)))) as Hlen' by (unfold u64_ok in *; lia).
  assert (∀ x d, d ∈ nbrs adj x → u64_ok x ∧ u64_ok d) as Hwords by (intros x d Hd; apply Hedge in Hd; tauto).
  cbn [overlay.gen_cell_id overlay.gen_edge_type overlay.gen_base_sequence overlay.gen_last_wal_id
       overlay.gen_edge_count overlay.gen_checksum].
  split; [done|]. split.
  { repeat (split; [done || apply checksum_ok|]). split; [|apply hex_encode_hexdigit].
    cbn. unfold sha256_hex, strlen. rewrite hex_encode_length. specialize (Hsha
      (encode_graph_index_csc (sseq s) w (graphblas_csc_checksum csc) csc)). unfold strlen in Hsha. lia. }
  split; [done|]. split; [done|]. split; [done|].
  split; [intros key; by apply (built_reads_back adj Hne Hwords)|]. split; [done|].
  split; [by apply (built_reads_back adj Hne Hwords "" (sseq s) w)|]. done.
Qed.

(** The build proper, once its inputs are there. *)
Lemma open_build_run (i : BuildInputs (Sl := Mem)) n w (e : Engine Ob) :
  in_permit i = Ok tt → in_refresh i = Ok tt → in_durable_wal_id i = Ok w → in_snapshot i = Ok n →
  open_build (Sl := Mem) snap_last_wal_id i e = (e, Ok (n, mem_seq n, default w (snap_last_wal_id n))).
Proof. intros H1 H2 H3 H4. unfold open_build, lift, mbind, sm_mbind. by rewrite H1, H2, H3, H4. Qed.

(** Encoding a generation depends on the edges only. *)
Lemma patched_is_canonical c t (s0 s : MShard) o adj0 adj :
  component_ok c = true → component_ok t = true → plain s → edges_wf c (sview s) →
  no_empty adj0 → (∀ x d, d ∈ nbrs adj0 x ↔ u64_ok x ∧ u64_ok d ∧ edge_at c t (sview s0) x d) →
  (∀ x d, u64_ok x → u64_ok d → edge_at c t (sview s) x d ↔
     match overlay.state o x d with Some b => b = true | None => edge_at c t (sview s0) x d end) →
  (∀ x d, is_Some (overlay.state o x d) → u64_ok x ∧ u64_ok d) →
  canonical_adjacency_at (λ prefix, snap_scan_prefix (SlateDb := Mem) (sh_db s) prefix None None) limit c t (sseq s) = Ok adj →
  patch adj0 o = adj.
Proof.
  intros Hc Ht [_ Hs] Hw Hne0 H0 Hdelta Hword Hadj.
  assert (sh_db s = MkMemDb (sview s) (sseq s)) as Edb by (unfold sview, sseq; by destruct (sh_db s)).
  assert (canonical_adjacency_at (λ prefix, snap_scan_prefix (SlateDb := Mem) (MkMemDb (sview s) (sseq s)) prefix
    None None) limit c t (sseq s) = Ok adj) as Hcan by (by rewrite <- Edb).
  apply canonical_spec in Hcan as [Hne Hedge]; [|done..].
  apply adjacency_eq; [by apply patch_no_empty|done|]. intros x d. rewrite patch_spec, Hedge.
  specialize (Hdelta x d). specialize (Hword x d). specialize (H0 x d).
  destruct (overlay.state o x d) as [b|]; [|naive_solver].
  destruct Hword as [Hx Hd]; [by eexists|]. naive_solver.
Qed.
End builds.

Lemma lift_run {W A} (r : Result A) (x : W) a : r = Ok a → lift r x = (x, Ok a).
Proof. by intros ->. Qed.

Lemma events_edges_wf c q0 s0 s : component_ok c = true → rtc (event q0) s0 s →
  plain s0 → edges_wf c (sview s0) → plain s ∧ edges_wf c (sview s).
Proof.
  intros Hc. induction 1 as [s|s0 s1 s He _ IH]; [done|]. intros Hp Hw. apply IH.
  - by apply (event_plain_seq q0 s0 s1).
  - by eapply event_edges_wf.
Qed.

(** * The claim *)

(** C22: an incremental build makes the generation a full build makes.  Take a
    generation built in full from a store without segments, and any later store
    reached by edge writes, edge deletes and collections no newer than it, within
    the change log's coverage.  If the object store still returns the manifest and
    the payload of that generation, an incremental build reads both, derives the
    delta, patches the decoded adjacency and then does exactly what a full build
    does from there: it publishes the same manifest and the same payload, byte for
    byte, and leaves the same state. *)
Theorem incremental_equals_full {Ob : ObjectStore} (path_of : string → string)
  (os_error_text : OsError → string) (sha256 : string → string) (snap_last_wal_id : MemDb → option N)
  (store_path : string) (limit : N) (Hlimit : u64_ok limit) (Hsha : ∀ x, strlen (sha256 x) = 32)
  (c t : string) (s0 s : MShard) (w0 w : N) (g0 g : overlay.GraphIndexGeneration) (p0 p : string)
  (i : BuildInputs (Sl := Mem)) (e : Engine Ob) (o1 o2 : Os) (v1 v2 : UpdateVersion)
  (Hc : component_ok c = true) (Ht : component_ok t = true) (Hp : plain s0)
  (Hw : edges_wf c (sview s0)) (Hwf : log_wf c t (sview s0) (sseq s0))
  (Hr : rtc (event (sseq s0)) s0 s) (Hlt : sseq s0 < sseq s) (Hq : u64_ok (sseq s + 1))
  (Hfloor : floor_le c t (sseq s0) (sview s0))
  (H0 : full_generation (Sl := Mem) sha256 limit (sh_db s0) c t (sseq s0) w0 = Ok (g0, p0))
  (Hw0 : u64_ok w0) (Hp0 : slice_ok p0)
  (Hi : in_permit i = Ok tt ∧ in_refresh i = Ok tt ∧ in_durable_wal_id i = Ok w ∧ in_snapshot i = Ok (sh_db s))
  (H : full_generation (Sl := Mem) sha256 limit (sh_db s) c t (sseq s) (default w (snap_last_wal_id (sh_db s)))
       = Ok (g, p))
  (Hmanifest : os_get (en_os e) (graph_index_manifest_path path_of store_path c t)
               = (o1, Ok (v1, Ok (encode_graph_index_manifest g0))))
  (Hpayload : os_get o1 (graph_index_generation_path path_of store_path c t (sseq s0) (overlay.gen_generation g0))
              = (o2, Ok (v2, Ok p0))) :
  ∃ n, build_graph_index_incremental (Sl := Mem) path_of os_error_text sha256 snap_last_wal_id store_path limit i c t e =
    let '(e', r) := build_graph_index (Sl := Mem) path_of os_error_text sha256 snap_last_wal_id store_path limit i c t
                      (MkEngine o2 (en_generations e)) in
    (e', (λ published, Some (published, PathIncremental n)) <$> r).
Proof.
  assert (u64_ok (sseq s0)) as Hq0 by (unfold u64_ok in *; lia).
  destruct (full_reads_back path_of sha256 Hsha store_path limit Hlimit c t s0 w0 g0 p0 Hc Ht Hp Hw Hq0 Hw0 Hp0 H0)
    as (adj0 & csc & _ & Hg0 & Ec & Et & Eq & Hdec & Hlen & Hadj & Hne & Hedges).
  destruct (delta_since_complete c t s0 s g0 Hc Ht Hp Hwf Hr Eq Hq Hfloor) as [o Ho].
  pose proof (delta_since_tells c t s0 s g0 Hc Ht Hp Hwf Hr Eq Hq o Ho) as Hdelta.
  destruct (events_edges_wf c (sseq s0) s0 s Hc Hr Hp Hw) as [Hps Hws].
  apply bind_ok in H as (adj & Hadj1 & H).
  assert (patch adj0 o = adj) as Hpatch.
  { eapply (patched_is_canonical path_of limit c t s0 s); try done. intros x d. by eapply delta_words. }
  destruct Hi as (Hi1 & Hi2 & Hi3 & Hi4). exists (N.of_nat (length (overlay.entries o))).
  unfold build_graph_index_incremental, build_graph_index, full_generation.
  rewrite !validate_component_true by done.
  assert (∀ e1 : Engine Ob, open_build (Sl := Mem) snap_last_wal_id i e1 =
    (e1, Ok (sh_db s, sseq s, default w (snap_last_wal_id (sh_db s))))) as Hopen
    by (intros e1; by apply open_build_run).
  rewrite !(bind_run (lift (Ok tt)) _ e e tt eq_refl). rewrite (bind_run _ _ _ _ _ (Hopen _)).
  rewrite (bind_run _ _ _ _ _ (current_run path_of os_error_text store_path c t g0 o1 v1 e Hg0 Ec Et Hmanifest)).
  rewrite Eq, (proj2 (N.leb_gt _ _) Hlt).
  rewrite (bind_run _ _ _ _ _ (lift_run _ _ _ Ho)).
  rewrite (bind_run _ _ _ _ _ (read_csc_run path_of os_error_text store_path g0 o2 v2 p0 csc
    (MkEngine o1 (en_generations e)) ltac:(by rewrite Ec, Et, Eq) Hdec Hlen)).
  rewrite (bind_run _ _ _ _ _ (lift_run _ _ _ Hadj)), Hpatch.
  rewrite (bind_run _ _ _ _ _ (lift_run _ _ _ H)).
  rewrite !(bind_run (lift (Ok tt)) _ (MkEngine o2 (en_generations e)) _ tt eq_refl). rewrite (bind_run _ _ _ _ _ (Hopen _)).
  rewrite Hadj1. cbn [mbind result_mbind result_bind]. rewrite (bind_run _ _ _ _ _ (lift_run _ _ _ H)).
  unfold mbind, sm_mbind. by destruct (publish_and_remember _ _ _ _ _ _ _ _) as [e' [published|err]].
Qed.

(** Edge 1→2 indexed; then it is deleted and 2→3 written. *)
Definition later_shard : MShard := (write_edge (sample_edge 2 3 "k3") no_edge).1.
Definition fixed_digest (_ : string) : string := "0123456789abcdef0123456789abcdef".
Definition generation_at (s : MShard) : overlay.GraphIndexGeneration * string :=
  match full_generation (Sl := Mem) fixed_digest 10 (sh_db s) "c1" "knows" (sseq s) 0 with
  | Ok r => r
  | Err _ => (sample_generation 0 0, "")
  end.
Definition indexed_store : Engine Scripted :=
  let '(g, p) := generation_at one_edge in
  MkEngine (O := Scripted) (list_to_map [(graph_index_manifest_path id "s" "c1" "knows", encode_graph_index_manifest g);
    (graph_index_generation_path id "s" "c1" "knows" (sseq one_edge) (overlay.gen_generation g), p)], []) ∅.
Definition later_inputs : BuildInputs (Sl := Mem) := MkInputs (Sl := Mem) (Ok tt) (Ok tt) (Ok 0) (Ok (sh_db later_shard)).

Lemma later_events q0 : rtc (event q0) one_edge later_shard.
Proof.
  eapply rtc_l; [apply no_edge_event|]. apply rtc_once, event_edge.
  apply (step_write _ _ (sample_edge 2 3 "k3") (write_edge (sample_edge 2 3 "k3") no_edge).2); [done..|].
  apply surjective_pairing.
Qed.

Lemma one_edge_wf : log_wf "c1" "knows" (sview one_edge) (sseq one_edge) ∧ edges_wf "c1" (sview one_edge) ∧ plain one_edge.
Proof.
  split; [|split].
  - eapply so_wf, event_sound; [done|done|apply (one_edge_event (sseq empty_shard))|].
    apply sound_init; [done|done|apply empty_plain|apply log_wf_empty].
  - eapply (event_edges_wf "c1" eq_refl 0 empty_shard); [apply empty_plain|apply one_edge_event|].
    intros k val _ H. change (sview empty_shard) with (∅ : gmap string string) in H. by rewrite lookup_empty in H.
  - apply (event_plain_seq 0 _ _ empty_plain (one_edge_event 0)).
Qed.

Lemma incremental_equals_full_witness :
  let incremental := build_graph_index_incremental (Ob := Scripted) (Sl := Mem) id (λ _, "") fixed_digest (λ _, None)
    "s" 10 later_inputs "c1" "knows" indexed_store in
  (∃ g, incremental.2 = Ok (Some (g, PathIncremental 2)) ∧ g = (generation_at later_shard).1) ∧
  ∃ n e r, incremental = (e, (λ published, Some (published, PathIncremental n)) <$> r).
Proof.
  cbv zeta. split; [eexists; split; vm_compute; reflexivity|].
  destruct one_edge_wf as (Hwf & Hw & Hp).
  destruct (incremental_equals_full (Ob := Scripted) id (λ _, "") fixed_digest (λ _, None) "s" 10
    ltac:(vm_compute; discriminate) ltac:(reflexivity) "c1" "knows" one_edge later_shard 0 0
    (generation_at one_edge).1 (generation_at later_shard).1 (generation_at one_edge).2 (generation_at later_shard).2
    later_inputs indexed_store
    (os_get (ObjectStore := Scripted) (en_os indexed_store) (graph_index_manifest_path id "s" "c1" "knows")).1
    (os_get (ObjectStore := Scripted) (en_os indexed_store)
       (graph_index_generation_path id "s" "c1" "knows" (sseq one_edge) (overlay.gen_generation (generation_at one_edge).1))).1
    (version_of (encode_graph_index_manifest (generation_at one_edge).1)) (version_of (generation_at one_edge).2)
    eq_refl eq_refl Hp Hw Hwf (later_events _)) as [n Hn].
  - vm_compute. reflexivity.
  - vm_compute. discriminate.
  - exists 1. split; [vm_compute; reflexivity|]. split; [done|]. vm_compute. discriminate.
  - vm_compute. reflexivity.
  - vm_compute. discriminate.
  - vm_compute. reflexivity.
  - repeat split.
  - vm_compute. reflexivity.
  - apply pair_result. vm_compute. reflexivity.
  - apply pair_result. vm_compute. reflexivity.
  - destruct (build_graph_index _ _ _ _ _ _ _ _ _ _) as [e r]. exists n, e, r. exact Hn.
Defined.
