(* ===== verification/Lease.v ===== *)
(** [engine/writer_lease.rs]: leases on the right to write a cell, kept as objects
    that are replaced by conditional writes.  The text of a lease, the directory a
    process keeps of the leases it holds and has observed, and every operation on
    them, as a program of atomic actions: whatever the code awaits, or takes a
    lock for, is one action, and other tasks and other processes run in between. *)

From S2P Require Import Prelude Text Errors Model Namespace Keys Codec IndexStore.

Local Open Scope N_scope.

Module lease.

(** * Time

    A [Duration] is a number of nanoseconds; so is an [Instant], from an origin
    of its own. *)

Definition MILLI : N := 1000000.
Definition SECOND : N := 1000000000.
Definition DURATION_MAX : N := u64_max * SECOND + 999999999.
Definition as_millis (d : N) : N := d / MILLI.
Definition from_millis (ms : N) : N := ms * MILLI.
(** [u64::try_from(d.as_millis()).unwrap_or(u64::MAX)]. *)
Definition millis_u64 (d : N) : N := N.min (as_millis d) u64_max.
Definition duration_saturating_add (a b : N) : N := N.min (a + b) DURATION_MAX.

Definition WRITER_LEASE_FORMAT : string := "hydradb-writer-lease2".
Definition DEFAULT_WRITER_LEASE_DURATION : N := 30 * SECOND.
Definition SERVER_TIMESTAMP_RESOLUTION_GUARD : N := SECOND.
Definition MAX_WRITER_LEASE_CAS_ATTEMPTS : nat := 16.
Definition MAX_OBSERVED_WRITER_LEASES : N := 65536.

(** * Data *)

Record WriterLeaseOwner := MkOwner { wo_node_id : string; wo_generation : N; wo_remaining_ms : N }.

Record WriterLeaseRenewalFailure := MkFailure {
  rf_scope : GraphScope; rf_cell_id : string; rf_error : GraphError; rf_ownership_lost : bool }.

Record LocalWriterLease := MkLocal {
  lw_scope : GraphScope; lw_cell_id : string; lw_node_id : string; lw_generation : N; lw_valid_until : N }.

Record StoredWriterLease := MkStored {
  sw_node_id : string; sw_holder_id : string; sw_generation : N; sw_heartbeat : N; sw_duration : N;
  sw_version : index.UpdateVersion; sw_last_modified_ms : Z; sw_released : bool }.

(** Node, holder, generation, heartbeat, duration in milliseconds, released. *)
Abbreviation WriterLeaseFingerprint := (string * string * N * N * N * bool)%type.

Record ObservedWriterLease := MkObserved {
  ob_fingerprint : WriterLeaseFingerprint; ob_observed_at : N; ob_remaining_at_observation : N }.

Record DecodedWriterLease := MkDecoded {
  dw_node_id : string; dw_holder_id : string; dw_generation : N; dw_heartbeat : N; dw_duration_ms : N;
  dw_released : bool }.

Definition scope_parts (s : GraphScope) : list string * string :=
  (ns_str <$> segments (gs_namespace s), gid_str (gs_graph_id s)).
Global Instance GraphScope_countable : Countable GraphScope.
Proof.
  refine (inj_countable' scope_parts
    (λ p, MkGraphScope (MkNamespacePath (MkNamespaceId <$> p.1)) (MkGraphId p.2)) _).
  intros [[segs] [g]]. unfold scope_parts. cbn. do 2 f_equal. rewrite <- list_fmap_compose.
  induction segs as [|[s] segs IH]; [done|]. cbn. by rewrite IH.
Defined.

Abbreviation ScopeLeaseUserKey := (GraphScope * string)%type.

(** What never changes of a directory, and what its locks guard. *)
Record Config := MkConfig { base_path : string; lease_duration : N; holder_id : string }.
Record Directory := MkDirectory {
  d_local : gmap string LocalWriterLease;
  d_abandoned : gmap string LocalWriterLease;
  d_scope_users : gmap ScopeLeaseUserKey N;
  d_observed : gmap string ObservedWriterLease;
  d_clock_probe : N }.
Definition empty_directory : Directory := MkDirectory ∅ ∅ ∅ ∅ 0.

Definition with_duration_and_holder (base_path : string) (lease_duration : N) (holder_id : string) : Config :=
  MkConfig (trim_end_matches chr_slash base_path) (N.max lease_duration SECOND) holder_id.

Definition on_local (f : gmap string LocalWriterLease → gmap string LocalWriterLease) (d : Directory) : Directory :=
  MkDirectory (f (d_local d)) (d_abandoned d) (d_scope_users d) (d_observed d) (d_clock_probe d).
Definition on_abandoned (f : gmap string LocalWriterLease → gmap string LocalWriterLease) (d : Directory) : Directory :=
  MkDirectory (d_local d) (f (d_abandoned d)) (d_scope_users d) (d_observed d) (d_clock_probe d).
Definition on_scope_users (f : gmap ScopeLeaseUserKey N → gmap ScopeLeaseUserKey N) (d : Directory) : Directory :=
  MkDirectory (d_local d) (d_abandoned d) (f (d_scope_users d)) (d_observed d) (d_clock_probe d).
Definition on_observed (f : gmap string ObservedWriterLease → gmap string ObservedWriterLease) (d : Directory) : Directory :=
  MkDirectory (d_local d) (d_abandoned d) (d_scope_users d) (f (d_observed d)) (d_clock_probe d).
Definition on_clock_probe (f : N → N) (d : Directory) : Directory :=
  MkDirectory (d_local d) (d_abandoned d) (d_scope_users d) (d_observed d) (f (d_clock_probe d)).

(** * Programs *)

Inductive LeaseOsError : Type :=
  | OsNotFound | OsAlreadyExists | OsPrecondition | OsNotImplemented | OsOther (error : string).
Record ObjectMeta := MkMeta { om_version : index.UpdateVersion; om_last_modified_ms : Z }.
Inductive LeasePutMode : Type := PutOverwrite | PutCreate | PutUpdate (v : index.UpdateVersion).

(** A critical section sees the clock and the directory, both at one moment. *)
Inductive prog (A : Type) : Type :=
  | Ret (a : A)
  | Now (k : N → prog A)
  | Critical (B : Type) (f : N → Directory → Directory * B) (k : B → prog A)
  | Get (path : string) (k : result LeaseOsError (ObjectMeta * result LeaseOsError string) → prog A)
  | Put (path payload : string) (mode : LeasePutMode) (k : result LeaseOsError unit → prog A)
  | Head (path : string) (k : result LeaseOsError ObjectMeta → prog A)
  | Delete (path : string) (k : result LeaseOsError unit → prog A).
Arguments Ret {A} a.
Arguments Now {A} k.
Arguments Critical {A} B f k.
Arguments Get {A} path k.
Arguments Put {A} path payload mode k.
Arguments Head {A} path k.
Arguments Delete {A} path k.

Fixpoint prog_bind {A B} (m : prog A) (f : A → prog B) : prog B :=
  match m with
  | Ret a => f a
  | Now k => Now (λ r, prog_bind (k r) f)
  | Critical C g k => Critical C g (λ r, prog_bind (k r) f)
  | Get path k => Get path (λ r, prog_bind (k r) f)
  | Put path payload mode k => Put path payload mode (λ r, prog_bind (k r) f)
  | Head path k => Head path (λ r, prog_bind (k r) f)
  | Delete path k => Delete path (λ r, prog_bind (k r) f)
  end.

(** A fallible task, and [?]. *)
Definition Task (A : Type) : Type := prog (Result A).
Global Instance task_mret : MRet Task := λ _ a, Ret (Ok a).
Global Instance task_mbind : MBind Task := λ _ _ f m,
  prog_bind m (λ r, match r with Ok a => f a | Err e => Ret (Err e) end).

Definition fails {A} (e : GraphError) : Task A := Ret (Err e).
Definition lift {A} (r : Result A) : Task A := Ret r.
Definition now : Task N := Now (λ t, Ret (Ok t)).
Definition critical {B} (f : N → Directory → Directory * B) : Task B := Critical B f (λ b, Ret (Ok b)).
Definition update (f : Directory → Directory) : Task unit := critical (λ _ d, (f d, tt)).
Definition os_get (path : string) : Task (result LeaseOsError (ObjectMeta * result LeaseOsError string)) :=
  Get path (λ r, Ret (Ok r)).
Definition os_put (path payload : string) (mode : LeasePutMode) : Task (result LeaseOsError unit) :=
  Put path payload mode (λ r, Ret (Ok r)).
Definition os_head (path : string) : Task (result LeaseOsError ObjectMeta) := Head path (λ r, Ret (Ok r)).
Definition os_delete (path : string) : Task (result LeaseOsError unit) := Delete path (λ r, Ret (Ok r)).
(** The error of a task as a value. *)
Definition attempt {A} (m : Task A) : Task (Result A) := prog_bind m (λ r, Ret (Ok r)).

(** * The text of a lease *)

Definition encode_writer_lease (node_id holder_id : string) (generation heartbeat duration : N)
  (released : bool) : Result string :=
  _ ← validate_component "node_id" node_id;
  _ ← validate_component "writer_lease_holder" holder_id;
  duration_ms ← (if as_millis duration <=? u64_max then Ok (as_millis duration)
                 else corrupt "writer-lease/duration" "writer lease duration exceeds u64 milliseconds");
  let state := if released then "released" else "active" in
  Ok (WRITER_LEASE_FORMAT +:+ nl +:+ node_id +:+ nl +:+ holder_id +:+ nl +:+ dec generation +:+ nl
      +:+ dec heartbeat +:+ nl +:+ dec duration_ms +:+ nl +:+ state +:+ nl).

Definition parse_lease_u64 (path field : string) (value : option string) : Result N :=
  map_err (λ e, CorruptValue path ("invalid writer lease " +:+ field +:+ ": " +:+ int_error_text e))
    (parse_u64_text (default "" value)).

Definition decode_writer_lease (path value : string) : Result DecodedWriterLease :=
  value ← map_err (λ e, CorruptValue path ("writer lease is not UTF-8: " +:+ utf8_error_text e)) (from_utf8 value);
  let line := λ i, lines value !! i in
  if negb (bool_decide (line 0%nat = Some WRITER_LEASE_FORMAT)) then corrupt path "unsupported writer lease format"
  else
    let node_id := default "" (line 1%nat) in
    let holder_id := default "" (line 2%nat) in
    _ ← validate_component "node_id" node_id;
    _ ← validate_component "writer_lease_holder" holder_id;
    generation ← parse_lease_u64 path "generation" (line 3%nat);
    heartbeat ← parse_lease_u64 path "heartbeat" (line 4%nat);
    duration_ms ← parse_lease_u64 path "duration_ms" (line 5%nat);
    released ← (if bool_decide (line 6%nat = Some "active") then Ok false
                else if bool_decide (line 6%nat = Some "released") then Ok true
                else corrupt path "writer lease has an invalid state");
    if (generation =? 0) || (heartbeat =? 0) || (duration_ms =? 0) || bool_decide (is_Some (line 7%nat))
    then corrupt path "writer lease has an invalid duration or trailing fields"
    else Ok (MkDecoded node_id holder_id generation heartbeat duration_ms released).

Section directory.
(** [Path::from], and the display of an object-store error. *)
Context (path_of : string → string) (os_error_text : LeaseOsError → string).
Context (cfg : Config).

Definition os_into (e : LeaseOsError) : GraphError := Errors.ObjectStore (os_error_text e).

(** A scope always has a store path. *)
Definition lease_path (scope : GraphScope) (cell_id : string) : string :=
  path_of (default "" (scoped_store_path scope (base_path cfg)) +:+ "/_writer_leases/v2/" +:+ cell_id).
Definition clock_path : string := path_of (base_path cfg +:+ "/_coordination/v1/server-clock").

(** * Reading *)

Definition read_stored (path : string) : Task (option StoredWriterLease) :=
  result ← os_get path;
  match result with
  | Err OsNotFound => mret None
  | Err e => fails (os_into e)
  | Ok (meta, body) =>
      bytes ← lift (map_err os_into body);
      decoded ← lift (decode_writer_lease path bytes);
      mret (Some (MkStored (dw_node_id decoded) (dw_holder_id decoded) (dw_generation decoded)
        (dw_heartbeat decoded) (from_millis (dw_duration_ms decoded)) (om_version meta)
        (om_last_modified_ms meta) (dw_released decoded)))
  end.

Definition remaining_after_elapsed (entry : ObservedWriterLease) (now : N) : N :=
  millis_u64 (saturating_sub (ob_remaining_at_observation entry) (saturating_sub now (ob_observed_at entry))).

Definition stored_fingerprint (stored : StoredWriterLease) : WriterLeaseFingerprint :=
  (sw_node_id stored, sw_holder_id stored, sw_generation stored, sw_heartbeat stored,
   millis_u64 (sw_duration stored), sw_released stored).

(** The server's clock, by a write of its own. *)
Definition probe_server_time : Task Z :=
  probe ← critical (λ _ d, (on_clock_probe (λ n, wrapping_add n 1) d, d_clock_probe d));
  written ← os_put clock_path (dec probe) PutOverwrite;
  lift (map_err os_into written) ;;
  meta ← os_head clock_path;
  meta ← lift (map_err os_into meta);
  mret (om_last_modified_ms meta).

(** [i64::saturating_sub], and a negative age is none. *)
Definition durable_age (server_now last_modified : Z) : N :=
  from_millis (Z.to_N (Z.max i64_min (Z.min (server_now - last_modified) i64_max))).

(** At the limit the entry with the least key makes room. *)
Definition evict_observed (path : string) (observed : gmap string ObservedWriterLease) :
  gmap string ObservedWriterLease :=
  if (MAX_OBSERVED_WRITER_LEASES <=? N.of_nat (size observed)) && negb (bool_decide (is_Some (observed !! path)))
  then match head (btree_keys observed) with Some key => delete key observed | None => observed end
  else observed.

Definition shared_remaining_ms (path : string) (stored : StoredWriterLease) : Task N :=
  let fingerprint := stored_fingerprint stored in
  now ← now;
  hit ← critical (λ _ d, (d,
    match d_observed d !! path with
    | Some entry => if bool_decide (ob_fingerprint entry = fingerprint)
                    then Some (remaining_after_elapsed entry now) else None
    | None => None
    end));
  match hit with
  | Some remaining => mret remaining
  | None =>
      server_now ← probe_server_time;
      let age := durable_age server_now (sw_last_modified_ms stored) in
      let remaining := saturating_sub
        (duration_saturating_add (sw_duration stored) SERVER_TIMESTAMP_RESOLUTION_GUARD) age in
      update (on_observed (λ observed,
        <[path := MkObserved fingerprint now remaining]> (evict_observed path observed))) ;;
      mret (millis_u64 remaining)
  end.

Definition current_owner (scope : GraphScope) (cell_id : string) : Task (option WriterLeaseOwner) :=
  lift (validate_component "cell_id" cell_id) ;;
  let path := lease_path scope cell_id in
  stored ← read_stored path;
  match stored with
  | None => mret None
  | Some stored =>
      if sw_released stored then mret None
      else
        remaining_ms ← shared_remaining_ms path stored;
        mret (if 0 <? remaining_ms
              then Some (MkOwner (sw_node_id stored) (sw_generation stored) remaining_ms) else None)
  end.

(** A local lease of the node that has not run out. *)
Definition valid_at (now : N) (node_id : string) (lease : LocalWriterLease) : bool :=
  bool_decide (lw_node_id lease = node_id) && (now <? lw_valid_until lease).

Definition holds_valid_local (scope : GraphScope) (cell_id node_id : string) (now : N) (d : Directory) : bool :=
  match d_local d !! lease_path scope cell_id with Some lease => valid_at now node_id lease | None => false end.

Definition holds_abandoned_local (scope : GraphScope) (cell_id node_id : string) : Task bool :=
  let key := lease_path scope cell_id in
  critical (λ now d,
    match d_abandoned d !! key with
    | None => (d, false)
    | Some lease => if valid_at now node_id lease then (d, true) else (on_abandoned (delete key) d, false)
    end).

Definition register_scope (scope : GraphScope) (node_id : string) : Task unit :=
  update (on_scope_users (λ users,
    <[(scope, node_id) := default 0 (users !! (scope, node_id)) + 1]> users)).

(** * Writing *)

Definition observe_successful_write (path : string) (fingerprint : WriterLeaseFingerprint) (observed_at : N) :
  Task unit :=
  let '(_, _, _, _, duration_ms, released) := fingerprint in
  update (on_observed (insert path (MkObserved fingerprint observed_at
    (if released : bool then 0
     else duration_saturating_add (from_millis duration_ms) SERVER_TIMESTAMP_RESOLUTION_GUARD)))).

(** Another holder's lease that still runs. *)
Definition refuse_other_owner (path node_id cell_id : string) (current : option StoredWriterLease) : Task unit :=
  match current with
  | Some stored =>
      if sw_released stored then mret tt
      else
        remaining_ms ← shared_remaining_ms path stored;
        let owned_by_this_process :=
          bool_decide (sw_node_id stored = node_id) && bool_decide (sw_holder_id stored = holder_id cfg) in
        if (0 <? remaining_ms) && negb owned_by_this_process then
          update (on_local (delete path)) ;;
          update (on_abandoned (delete path)) ;;
          fails (NotCellWriter cell_id (Some (sw_node_id stored)))
        else mret tt
  | None => mret tt
  end.

Definition same_holder (node_id : string) (current : option StoredWriterLease) : bool :=
  match current with
  | Some stored => negb (sw_released stored) && bool_decide (sw_node_id stored = node_id)
                   && bool_decide (sw_holder_id stored = holder_id cfg)
  | None => false
  end.
Definition next_generation (node_id : string) (current : option StoredWriterLease) : N :=
  match current with
  | Some stored => if same_holder node_id current then sw_generation stored
                   else saturating_add (sw_generation stored) 1
  | None => 1
  end.
Definition next_heartbeat (current : option StoredWriterLease) : N :=
  match current with Some stored => saturating_add (sw_heartbeat stored) 1 | None => 1 end.

(** A store without conditional updates can still overwrite its own lease. *)
Definition put_lease (path payload node_id : string) (current : option StoredWriterLease) :
  Task (result LeaseOsError unit) :=
  write_result ← os_put path payload
    (match current with Some stored => PutUpdate (sw_version stored) | None => PutCreate end);
  match write_result with
  | Err OsNotImplemented =>
      if same_holder node_id current then os_put path payload PutOverwrite else mret (Err OsNotImplemented)
  | _ => mret write_result
  end.

(** The lease of a successful write enters the directory. *)
Definition keep_local (force_renew : bool) (path : string) (lease : LocalWriterLease) : Task unit :=
  if force_renew then
    kept ← critical (λ _ d,
      if bool_decide (is_Some (d_scope_users d !! (lw_scope lease, lw_node_id lease)))
      then (on_local (insert path lease) (on_abandoned (delete path) d), true) else (d, false));
    if kept : bool then mret tt else fails (NotCellWriter (lw_cell_id lease) (Some (lw_node_id lease)))
  else
    update (on_abandoned (delete path)) ;;
    update (on_local (insert path lease)).

Fixpoint cas_attempts (attempts : nat) (scope : GraphScope) (cell_id node_id : string) (force_renew : bool) :
  Task N :=
  match attempts with
  | O => fails (RetryExhausted "writer_lease_cas" (N.of_nat MAX_WRITER_LEASE_CAS_ATTEMPTS))
  | S attempts =>
      let path := lease_path scope cell_id in
      current ← read_stored path;
      refuse_other_owner path node_id cell_id current ;;
      let generation := next_generation node_id current in
      let heartbeat := next_heartbeat current in
      payload ← lift (encode_writer_lease node_id (holder_id cfg) generation heartbeat (lease_duration cfg) false);
      write_started ← now;
      write_result ← put_lease path payload node_id current;
      match write_result with
      | Ok _ =>
          let valid_until := write_started + lease_duration cfg in
          returned ← now;
          if valid_until <=? returned then cas_attempts attempts scope cell_id node_id force_renew
          else
            observe_successful_write path
              (node_id, holder_id cfg, generation, heartbeat, millis_u64 (lease_duration cfg), false) write_started ;;
            keep_local force_renew path (MkLocal scope cell_id node_id generation valid_until) ;;
            mret generation
      | Err OsAlreadyExists | Err OsPrecondition => cas_attempts attempts scope cell_id node_id force_renew
      | Err e => fails (os_into e)
      end
  end.

Definition acquire_or_renew_inner (scope : GraphScope) (cell_id node_id : string) (force_renew : bool) : Task N :=
  lift (validate_component "cell_id" cell_id) ;;
  lift (validate_component "node_id" node_id) ;;
  lift (validate_component "writer_lease_holder" (holder_id cfg)) ;;
  let path := lease_path scope cell_id in
  let renew_margin := lease_duration cfg / 3 in
  if force_renew then
    local_is_valid ← critical (λ now d, (d, holds_valid_local scope cell_id node_id now d));
    if local_is_valid : bool
    then cas_attempts MAX_WRITER_LEASE_CAS_ATTEMPTS scope cell_id node_id true
    else update (on_local (delete path)) ;; fails (NotCellWriter cell_id None)
  else
    cached ← critical (λ now d, (d,
      match d_local d !! path with
      | Some lease => if valid_at (now + renew_margin) node_id lease then Some (lw_generation lease) else None
      | None => None
      end));
    match cached with
    | Some generation => mret generation
    | None => cas_attempts MAX_WRITER_LEASE_CAS_ATTEMPTS scope cell_id node_id false
    end.

Definition acquire_or_renew (scope : GraphScope) (cell_id node_id : string) : Task N :=
  acquire_or_renew_inner scope cell_id node_id false.

(** The forced renewal of one lease. *)
Definition renew_one (node_id : string) (lease : LocalWriterLease) : Task (option WriterLeaseRenewalFailure) :=
  result ← attempt (acquire_or_renew_inner (lw_scope lease) (lw_cell_id lease) node_id true);
  match result with
  | Ok _ => mret None
  | Err error =>
      valid ← critical (λ now d, (d, holds_valid_local (lw_scope lease) (lw_cell_id lease) node_id now d));
      (if valid : bool then mret tt
       else update (on_local (delete (lease_path (lw_scope lease) (lw_cell_id lease))))) ;;
      mret (Some (MkFailure (lw_scope lease) (lw_cell_id lease) error (negb valid)))
  end.

(** A round of renewals: a task for each lease of the node, of which the code has at
    most 32 under way at once, beside whatever else the process does. *)
Definition renew_local (node_id : string) (d : Directory) : list (Task (option WriterLeaseRenewalFailure)) :=
  renew_one node_id <$> filter (λ lease, lw_node_id lease = node_id) (btree_values (d_local d)).

(** * Releasing *)

Fixpoint release_attempts (attempts : nat) (path node_id : string) (generation : N) : Task unit :=
  match attempts with
  | O => fails (RetryExhausted "writer_lease_release_cas" (N.of_nat MAX_WRITER_LEASE_CAS_ATTEMPTS))
  | S attempts =>
      current ← read_stored path;
      match current with
      | None => mret tt
      | Some current =>
          if negb (bool_decide (sw_node_id current = node_id)) || negb (bool_decide (sw_holder_id current = holder_id cfg))
             || negb (sw_generation current =? generation)
          then mret tt
          else
            let heartbeat := saturating_add (sw_heartbeat current) 1 in
            let duration := sw_duration current in
            payload ← lift (encode_writer_lease node_id (holder_id cfg) generation heartbeat duration true);
            write_started ← now;
            release_result ← os_put path payload (PutUpdate (sw_version current));
            match release_result with
            | Err OsNotImplemented =>
                deleted ← os_delete path;
                lift (map_err os_into deleted)
            | Ok _ =>
                observe_successful_write path
                  (node_id, holder_id cfg, generation, heartbeat, millis_u64 duration, true) write_started
            | Err OsAlreadyExists | Err OsPrecondition => release_attempts attempts path node_id generation
            | Err e => fails (os_into e)
            end
      end
  end.
Definition release_stored (scope : GraphScope) (cell_id node_id : string) (generation : N) : Task unit :=
  release_attempts MAX_WRITER_LEASE_CAS_ATTEMPTS (lease_path scope cell_id) node_id generation.

(** One user of a scope less: whether it was the last. *)
Definition drop_user (key : ScopeLeaseUserKey) (d : Directory) : Directory * bool :=
  match d_scope_users d !! key with
  | Some count => if 1 <? count then (on_scope_users (insert key (count - 1)) d, false)
                  else (on_scope_users (delete key) d, true)
  | None => (d, true)
  end.

Definition of_scope (scope : GraphScope) (node_id : string) (p : string * LocalWriterLease) : Prop :=
  lw_scope p.2 = scope ∧ lw_node_id p.2 = node_id.
Global Instance of_scope_dec scope node_id p : Decision (of_scope scope node_id p).
Proof. unfold of_scope. apply _. Defined.

(** The leases of a scope leave a map; what left, by key. *)
Definition take_scope (scope : GraphScope) (node_id : string) (leases : gmap string LocalWriterLease) :
  gmap string LocalWriterLease * list (string * LocalWriterLease) :=
  (filter (λ p, ¬ of_scope scope node_id p) leases,
   filter (λ p, of_scope scope node_id p) (btree_iter leases)).

Fixpoint release_each (scope : GraphScope) (node_id : string) (leases : list LocalWriterLease) :
  Task (list (string * GraphError)) :=
  match leases with
  | [] => mret []
  | lease :: leases =>
      result ← attempt (release_stored scope (lw_cell_id lease) node_id (lw_generation lease));
      failures ← release_each scope node_id leases;
      mret (match result with Ok _ => failures | Err error => (lw_cell_id lease, error) :: failures end)
  end.

Definition release_scope (scope : GraphScope) (node_id : string) : Task (list (string * GraphError)) :=
  should_release ← critical (λ _ d, drop_user (scope, node_id) d);
  if negb should_release then mret []
  else
    leases ← critical (λ _ d,
      let '(rest, taken) := take_scope scope node_id (d_local d) in (on_local (λ _, rest) d, taken));
    abandoned_leases ← critical (λ _ d,
      let '(rest, taken) := take_scope scope node_id (d_abandoned d) in (on_abandoned (λ _, rest) d, taken));
    release_each scope node_id (snd <$> leases ++ abandoned_leases).

Definition abandon_scope (scope : GraphScope) (node_id : string) : Task unit :=
  should_abandon ← critical (λ _ d, drop_user (scope, node_id) d);
  if negb should_abandon then mret tt
  else
    leases ← critical (λ _ d,
      let '(rest, taken) := take_scope scope node_id (d_local d) in (on_local (λ _, rest) d, taken));
    now ← now;
    update (on_abandoned (λ abandoned,
      list_to_map leases ∪ filter (λ p, now < lw_valid_until p.2) abandoned)).

Definition release_cell (scope : GraphScope) (cell_id node_id : string) : Task unit :=
  let path := lease_path scope cell_id in
  taken ← critical (λ _ d, (on_local (delete path) d, d_local d !! path));
  lease ← (match taken with
           | Some lease => mret (Some lease)
           | None => critical (λ _ d, (on_abandoned (delete path) d, d_abandoned d !! path))
           end);
  match lease with
  | None => mret tt
  | Some lease => release_stored scope cell_id node_id (lw_generation lease)
  end.
End directory.
End lease.
