(* ===== verification/LeaseSystem.v ===== *)
(** [Lease]: many processes over one object store.  What the store promises, as a
    class of laws; the actions of a program; the steps of a system of processes,
    each running any number of lease operations at once, with the history of every
    lease object; and which operations of one process the theorems keep apart. *)

From S2P Require Import Prelude Text Errors Model Namespace IndexStore Lease.

Local Open Scope N_scope.

Import lease.

(** * The store *)

Class LeaseStore : Type := {
  Ls : Type;
  ls_get : Ls → string → Ls * result LeaseOsError (ObjectMeta * result LeaseOsError string);
  (** A put takes effect at the given time. *)
  ls_put : N → Ls → string → string → LeasePutMode → Ls * result LeaseOsError unit;
  ls_head : Ls → string → Ls * result LeaseOsError ObjectMeta;
  ls_delete : Ls → string → Ls * result LeaseOsError unit;
}.

#[global] Instance update_version_eq_dec : EqDecision index.UpdateVersion.
Proof. solve_decision. Defined.
#[global] Instance ObjectMeta_eq_dec : EqDecision ObjectMeta.
Proof. solve_decision. Defined.

Definition lease_admits (mode : LeasePutMode) (current : option (ObjectMeta * string)) : Prop :=
  match mode with
  | PutOverwrite => True
  | PutCreate => current = None
  | PutUpdate v => ∃ m value, current = Some (m, value) ∧ om_version m = v
  end.

(** Conditional puts are implemented; a put that fails may have been applied; a
    version is handed out once.  The time stamps are a clock's that never goes
    back and never runs ahead by more than its resolution. *)
Class LeaseStoreLaws (O : LeaseStore) : Type := {
  ls_view : Ls → gmap string (ObjectMeta * string);
  ls_used : Ls → index.UpdateVersion → Prop;
  ls_stamp : N → Z;
  ls_resolution : N;
  stamp_mono t t' : t ≤ t' → (ls_stamp t ≤ ls_stamp t')%Z;
  stamp_elapsed t t' : t ≤ t' →
    ((ls_stamp t' - ls_stamp t) * Z.of_N MILLI ≤ Z.of_N (t' - t) + Z.of_N ls_resolution)%Z;
  ls_get_law s k s' r : ls_get s k = (s', r) →
    ls_view s' = ls_view s ∧ (∀ v, ls_used s' v ↔ ls_used s v) ∧
    match r with
    | Ok (m, Ok value) => ls_view s !! k = Some (m, value)
    | Err OsNotFound => ls_view s !! k = None
    | _ => True
    end;
  ls_head_law s k s' r : ls_head s k = (s', r) →
    ls_view s' = ls_view s ∧ (∀ v, ls_used s' v ↔ ls_used s v) ∧
    match r with Ok m => ∃ value, ls_view s !! k = Some (m, value) | Err _ => True end;
  ls_put_law t s k value mode s' r : ls_put t s k value mode = (s', r) →
    r ≠ Err OsNotImplemented ∧
    (r ≠ Ok tt ∧ ls_view s' = ls_view s ∧ (∀ v, ls_used s' v ↔ ls_used s v) ∨
     ∃ v, lease_admits mode (ls_view s !! k) ∧ ¬ ls_used s v ∧ (∀ v', ls_used s' v' ↔ v' = v ∨ ls_used s v') ∧
       ls_view s' = <[k := (MkMeta v (ls_stamp t), value)]> (ls_view s));
}.

(** * The system *)

(** A write of a lease object: what was written, under which version, when, and
    when the task that wrote it last read the clock before. *)
Record Write := MkWrite { w_lease : DecodedWriterLease; w_version : index.UpdateVersion; w_time : N; w_started : N }.

Record Process := MkProcess { pr_cfg : Config; pr_dir : Directory }.

Section system.
Context {O : LeaseStore} {L : LeaseStoreLaws O}.

Record World := MkWorld {
  wd_time : N; wd_store : Ls; wd_log : gmap string (list Write); wd_procs : gmap nat Process }.

Definition log_at (σ : World) (k : string) : list Write := default [] (wd_log σ !! k).

(** The history after a put at [path]: longer when the object changed. *)
Definition note (path : string) (time clock : N) (s s' : Ls) (log : gmap string (list Write)) :
  gmap string (list Write) :=
  match ls_view s' !! path with
  | Some (m, value) =>
      if bool_decide (ls_view s !! path = Some (m, value)) then log
      else match decode_writer_lease path value with
           | Ok l => <[path := default [] (log !! path) ++ [MkWrite l (om_version m) time clock]]> log
           | Err _ => log
           end
  | None => log
  end.

Definition set_process (i : nat) (p : Process) (σ : World) : World :=
  MkWorld (wd_time σ) (wd_store σ) (wd_log σ) (<[i := p]> (wd_procs σ)).
Definition set_store (s : Ls) (σ : World) : World := MkWorld (wd_time σ) s (wd_log σ) (wd_procs σ).

Definition enter (p : Process) (d : Directory) : Process := MkProcess (pr_cfg p) d.
Definition put_effect (clock : N) (path : string) (s : Ls) (σ : World) : World :=
  MkWorld (wd_time σ) s (note path (wd_time σ) clock (wd_store σ) s (wd_log σ)) (wd_procs σ).

(** One action of a task of process [i], whose last reading of the clock is kept. *)
Definition act {A} (i : nat) (p : Process) (σ : World) (clock : N) (m : prog A) : option (World * N * prog A) :=
  match m with
  | Ret _ => None
  | Now k => Some (σ, wd_time σ, k (wd_time σ))
  | Critical B f k =>
      let '(d, b) := f (wd_time σ) (pr_dir p) in Some (set_process i (enter p d) σ, clock, k b)
  | Get path k => let '(s, r) := ls_get (wd_store σ) path in Some (set_store s σ, clock, k r)
  | Put path payload mode k =>
      let '(s, r) := ls_put (wd_time σ) (wd_store σ) path payload mode in Some (put_effect clock path s σ, clock, k r)
  | Head path k => let '(s, r) := ls_head (wd_store σ) path in Some (set_store s σ, clock, k r)
  | Delete path k =>
      let '(s, r) := ls_delete (wd_store σ) path in Some (set_store s σ, clock, k r)
  end.

(** The server's clock is read soon after the task read that of its process. *)
Definition prompt {A} (lag clock : N) (σ : World) (m : prog A) : Prop :=
  match m with Head _ _ => wd_time σ ≤ clock + lag | _ => True end.

(** * Tasks *)

(** What a task may do to the leases of its process. *)
Inductive Role : Type :=
  | Acquiring (scope : GraphScope) (cell_id node_id : string)
  | Renewing (scope : GraphScope) (cell_id node_id : string)
  | ReleasingCell (scope : GraphScope) (cell_id : string)
  | ReleasingScope (scope : GraphScope) (node_id : string)
  | Looking.
Record Running := MkRunning { rn_role : Role; rn_clock : N; rn_prog : prog unit }.
Definition set_running (r : Running) (clock : N) (m : prog unit) : Running := MkRunning (rn_role r) clock m.

Section operations.
Context (path_of : string → string) (os_error_text : LeaseOsError → string).

Definition discard {A} (m : prog A) : prog unit := prog_bind m (λ _, Ret tt).

(** What a process runs. *)
Inductive operation (cfg : Config) : Role → prog unit → Prop :=
  | op_current_owner scope cell_id :
      operation cfg Looking (discard (current_owner path_of os_error_text cfg scope cell_id))
  | op_holds_abandoned scope cell_id node_id :
      operation cfg Looking (discard (holds_abandoned_local path_of cfg scope cell_id node_id))
  | op_acquire scope cell_id node_id :
      operation cfg (Acquiring scope cell_id node_id)
        (discard (acquire_or_renew path_of os_error_text cfg scope cell_id node_id))
  | op_renew node_id lease :
      operation cfg (Renewing (lw_scope lease) (lw_cell_id lease) node_id)
        (discard (renew_one path_of os_error_text cfg node_id lease))
  | op_release_cell scope cell_id node_id :
      operation cfg (ReleasingCell scope cell_id)
        (discard (release_cell path_of os_error_text cfg scope cell_id node_id))
  | op_release_scope scope node_id :
      operation cfg (ReleasingScope scope node_id)
        (discard (release_scope path_of os_error_text cfg scope node_id))
  | op_abandon scope node_id : operation cfg Looking (discard (abandon_scope scope node_id)).

(** A round of renewals starts one operation for each lease. *)
Lemma renew_local_operations cfg node_id d m : m ∈ renew_local path_of os_error_text cfg node_id d →
  ∃ role, operation cfg role (discard m).
Proof. intros (lease & -> & _)%list_elem_of_fmap. eexists. apply op_renew. Qed.

(** Scopes are made of validated names. *)
Definition role_ok (r : Role) : Prop :=
  match r with
  | Acquiring s _ _ | Renewing s _ _ | ReleasingCell s _ | ReleasingScope s _ => scope_wf s
  | Looking => True
  end.
#[global] Instance role_ok_dec r : Decision (role_ok r).
Proof. destruct r; cbn; unfold scope_wf, path_wf; apply _. Defined.

(** Two tasks of one process that may not be under way together: a cell is not
    released while it is acquired or renewed, nor a scope while a cell of it is
    acquired.  Renewals may go on while a scope is released. *)
Definition clash (cfg : Config) (r r' : Role) : Prop :=
  match r, r' with
  | (Acquiring s c _ | Renewing s c _), ReleasingCell s' c'
  | ReleasingCell s' c', (Acquiring s c _ | Renewing s c _) => lease_path path_of cfg s c = lease_path path_of cfg s' c'
  | Acquiring s _ n, ReleasingScope s' n' | ReleasingScope s' n', Acquiring s _ n => s = s' ∧ n = n'
  | _, _ => False
  end.
(** What a scope's first user waits for. *)
Definition concerns (scope : GraphScope) (node_id : string) (r : Role) : Prop :=
  match r with
  | Renewing s _ n | ReleasingScope s n => s = scope ∧ n = node_id
  | _ => False
  end.
#[global] Instance clash_dec cfg r r' : Decision (clash cfg r r').
Proof. destruct r, r'; cbn; apply _. Defined.
#[global] Instance concerns_dec scope node_id r : Decision (concerns scope node_id r).
Proof. destruct r; cbn; apply _. Defined.

Abbreviation Tasks := (gmap (nat * nat) Running).
Abbreviation System := (World * Tasks)%type.

Definition may_start (cfg : Config) (ts : Tasks) (i : nat) (role : Role) : Prop :=
  map_Forall (λ (ij : nat * nat) r, ij.1 = i → ¬ clash cfg (rn_role r) role) ts.
Definition may_register (p : Process) (ts : Tasks) (i : nat) (scope : GraphScope) (node_id : string) : Prop :=
  is_Some (d_scope_users (pr_dir p) !! (scope, node_id)) ∨
  map_Forall (λ (ij : nat * nat) r, ij.1 = i → ¬ concerns scope node_id (rn_role r)) ts.

(** A step of the system: time passes; a process starts an operation, or registers
    a user of a scope; a task takes an action; a task is done, or dropped.  With
    [apart] set, operations start only where they clash with none. *)
Inductive sys_step (lag : N) (apart : bool) : System → System → Prop :=
  | step_time σ ts time : wd_time σ ≤ time →
      sys_step lag apart (σ, ts) (MkWorld time (wd_store σ) (wd_log σ) (wd_procs σ), ts)
  | step_start σ ts i j p role m : wd_procs σ !! i = Some p → ts !! (i, j) = None → operation (pr_cfg p) role m → role_ok role →
      (apart = true → may_start (pr_cfg p) ts i role) →
      sys_step lag apart (σ, ts) (σ, <[(i, j) := MkRunning role 0 m]> ts)
  | step_register σ ts i p scope node_id σ' clock r : wd_procs σ !! i = Some p →
      (apart = true → may_register p ts i scope node_id) →
      act i p σ clock (register_scope scope node_id) = Some (σ', clock, Ret r) → sys_step lag apart (σ, ts) (σ', ts)
  | step_act σ ts i j p r σ' clock m' : wd_procs σ !! i = Some p → ts !! (i, j) = Some r →
      prompt lag (rn_clock r) σ (rn_prog r) → act i p σ (rn_clock r) (rn_prog r) = Some (σ', clock, m') →
      sys_step lag apart (σ, ts) (σ', <[(i, j) := set_running r clock m']> ts)
  | step_end σ ts ij : sys_step lag apart (σ, ts) (σ, delete ij ts).
End operations.

(** Processes of one deployment start with nothing held, on an empty store. *)
Record initial (base : string) (σ : World) : Prop := {
  in_view : ls_view (wd_store σ) = ∅;
  in_log : wd_log σ = ∅;
  in_procs i p : wd_procs σ !! i = Some p →
    (∃ duration, pr_cfg p = with_duration_and_holder base duration (holder_id (pr_cfg p))) ∧
    pr_dir p = empty_directory;
  in_holders i j p q : wd_procs σ !! i = Some p → wd_procs σ !! j = Some q →
    holder_id (pr_cfg p) = holder_id (pr_cfg q) → i = j;
}.
End system.
Arguments World {O}.
Arguments MkWorld {O} wd_time wd_store wd_log wd_procs.
