(* ===== verification/LeaseLogic.v ===== *)
(** [LeaseSystem]: what holds of every lease object and every process at all
    times, what a task can rely on while the other tasks of its process and the
    other processes run, what it guarantees them, and a weakest precondition for
    programs under that interference. *)

From S2P Require Import Prelude Text Errors Model Namespace IndexStore Lease LeaseSystem.

Local Open Scope N_scope.

Import lease.

Section logic.
Context {O : LeaseStore} {L : LeaseStoreLaws O}.
Context (path_of : string → string) (os_error_text : LeaseOsError → string).
(** The deployment: its base path as a directory keeps it, and how late the server's clock is read. *)
Context (base : string) (lag : N).

Definition clock_key : string := path_of (base +:+ "/_coordination/v1/server-clock").

(** A cell with the names validation lets through. *)
Definition valid_cell (scope : GraphScope) (cell_id : string) : Prop := scope_wf scope ∧ component_ok cell_id = true.

(** The paths of lease objects: none is the clock's, and those of different scopes differ. *)
Class LeasePaths : Prop := {
  paths_clock cfg scope cell_id : base_path cfg = base → lease_path path_of cfg scope cell_id ≠ clock_key;
  paths_scope cfg scope cell_id scope' cell_id' : base_path cfg = base →
    valid_cell scope cell_id → valid_cell scope' cell_id' →
    lease_path path_of cfg scope cell_id = lease_path path_of cfg scope' cell_id' → scope = scope';
}.
(** A configuration of the deployment. *)
Class Rooted (cfg : Config) : Prop := rooted : base_path cfg = base.

(** * Writes *)

(** The latest moment a local lease of the write can be valid. *)
Definition expiry (w : Write) : N := w_started w + from_millis (dw_duration_ms (w_lease w)) + MILLI.

Definition by_holder (h : string) (w : Write) : Prop := dw_holder_id (w_lease w) = h.
Definition same_owner (w w' : Write) : Prop :=
  dw_node_id (w_lease w) = dw_node_id (w_lease w') ∧ dw_holder_id (w_lease w) = dw_holder_id (w_lease w').

(** What lets [w'] follow [w]. *)
Definition handover (w w' : Write) : Prop :=
  dw_released (w_lease w) = true ∨ same_owner w w' ∨ expiry w ≤ w_time w'.
(** The generation is kept by an owner that renews or releases, and grows otherwise. *)
Definition generation_step (w w' : Write) : Prop :=
  same_owner w w' ∧ dw_generation (w_lease w') = dw_generation (w_lease w) ∧
    (dw_released (w_lease w) = true → dw_released (w_lease w') = true) ∨
  dw_generation (w_lease w') = saturating_add (dw_generation (w_lease w)) 1 ∧
    (dw_released (w_lease w) = true ∨ ¬ same_owner w w').

Definition fingerprint_of (l : DecodedWriterLease) : WriterLeaseFingerprint :=
  (dw_node_id l, dw_holder_id l, dw_generation l, dw_heartbeat l, dw_duration_ms l, dw_released l).

(** What every lease in a store is. *)
Record lease_ok (l : DecodedWriterLease) : Prop := {
  lo_node : component_ok (dw_node_id l) = true;
  lo_holder : component_ok (dw_holder_id l) = true;
  lo_generation : 0 < dw_generation l ∧ u64_ok (dw_generation l);
  lo_heartbeat : 0 < dw_heartbeat l ∧ u64_ok (dw_heartbeat l);
  lo_duration : 0 < dw_duration_ms l ∧ u64_ok (dw_duration_ms l);
}.

(** The history of one object. *)
Record history_ok (now : N) (ws : list Write) : Prop := {
  ho_started a w : ws !! a = Some w → w_started w ≤ w_time w ∧ w_time w ≤ now;
  ho_times a b w w' : (a ≤ b)%nat → ws !! a = Some w → ws !! b = Some w' → w_time w ≤ w_time w';
  ho_versions a b w w' : ws !! a = Some w → ws !! b = Some w' → w_version w = w_version w' → a = b;
  ho_heartbeat a w : ws !! a = Some w → dw_heartbeat (w_lease w) = N.min (N.of_nat a + 1) u64_max;
  ho_lease a w : ws !! a = Some w → lease_ok (w_lease w);
  ho_first w : ws !! 0%nat = Some w → dw_generation (w_lease w) = 1;
  ho_next a w w' : ws !! a = Some w → ws !! S a = Some w' → handover w w' ∧ generation_step w w';
  ho_expiry a b w w' : (a ≤ b)%nat → ws !! a = Some w → ws !! b = Some w' →
    dw_holder_id (w_lease w) = dw_holder_id (w_lease w') → expiry w ≤ expiry w';
}.

(** The object is the last write of its history. *)
Definition object_ok (view : gmap string (ObjectMeta * string)) (k : string) (ws : list Write) : Prop :=
  match last ws with
  | None => view !! k = None
  | Some w => ∃ m value, view !! k = Some (m, value) ∧ decode_writer_lease k value = Ok (w_lease w) ∧
      om_version m = w_version w ∧ om_last_modified_ms m = ls_stamp (w_time w)
  end.

(** * Processes *)

(** A write of the holder for a node. *)
Definition of_node (h node_id : string) (w : Write) : Prop := by_holder h w ∧ dw_node_id (w_lease w) = node_id.

(** A local lease is that of a write, and its holder has not released that generation since. *)
Definition backed (h : string) (ws : list Write) (l : LocalWriterLease) : Prop :=
  ∃ a w, ws !! a = Some w ∧ of_node h (lw_node_id l) w ∧
    dw_generation (w_lease w) = lw_generation l ∧ lw_valid_until l ≤ expiry w ∧
    ∀ b w', (a ≤ b)%nat → ws !! b = Some w' → of_node h (lw_node_id l) w' →
      dw_generation (w_lease w') = lw_generation l → dw_released (w_lease w') = false.

(** An observation counts down to no earlier than the end of the lease it saw. *)
Definition honest (now : N) (ws : list Write) (e : ObservedWriterLease) : Prop :=
  ob_observed_at e ≤ now ∧
  ∃ a w, ws !! a = Some w ∧ ob_fingerprint e = fingerprint_of (w_lease w) ∧
    (dw_released (w_lease w) = false → expiry w + MILLI ≤ ob_observed_at e + ob_remaining_at_observation e).

Definition placed (cfg : Config) (k : string) (l : LocalWriterLease) : Prop :=
  valid_cell (lw_scope l) (lw_cell_id l) ∧ k = lease_path path_of cfg (lw_scope l) (lw_cell_id l).

Record directory_ok (now : N) (log : string → list Write) (cfg : Config) (d : Directory) : Prop := {
  do_local k l : d_local d !! k = Some l →
    placed cfg k l ∧ backed (holder_id cfg) (log k) l;
  do_abandoned k l : d_abandoned d !! k = Some l → placed cfg k l;
  do_observed k e : k ≠ clock_key → d_observed d !! k = Some e → honest now (log k) e;
}.

Record process_ok (now : N) (log : string → list Write) (p : Process) : Prop := {
  po_base : base_path (pr_cfg p) = base;
  po_duration : SECOND ≤ lease_duration (pr_cfg p);
  po_dir : directory_ok now log (pr_cfg p) (pr_dir p);
  po_writes k a w : k ≠ clock_key → log k !! a = Some w → by_holder (holder_id (pr_cfg p)) w →
    dw_duration_ms (w_lease w) = as_millis (lease_duration (pr_cfg p));
}.

(** * The world *)

(** Fewer writes than heartbeats. *)
Definition bounded (σ : World) : Prop := ∀ k, k ≠ clock_key → N.of_nat (length (log_at σ k)) < u64_max.

Record good (σ : World) : Prop := {
  gd_bounded : bounded σ;
  gd_history k : k ≠ clock_key → history_ok (wd_time σ) (log_at σ k);
  gd_object k : k ≠ clock_key → object_ok (ls_view (wd_store σ)) k (log_at σ k);
  gd_used k a w : k ≠ clock_key → log_at σ k !! a = Some w → ls_used (wd_store σ) (w_version w);
  gd_stamps k m v : ls_view (wd_store σ) !! k = Some (m, v) →
    ∃ t, t ≤ wd_time σ ∧ om_last_modified_ms m = ls_stamp t;
  gd_process i p : wd_procs σ !! i = Some p → process_ok (wd_time σ) (log_at σ) p;
  gd_holders i j p q : wd_procs σ !! i = Some p → wd_procs σ !! j = Some q →
    holder_id (pr_cfg p) = holder_id (pr_cfg q) → i = j;
}.

(** * Interference *)

Definition dir_of (i : nat) (σ : World) : Directory := default empty_directory (pr_dir <$> wd_procs σ !! i).

(** Between a moment and a later one: histories only grow. *)
Definition grows (log log' : string → list Write) : Prop :=
  ∀ k, k ≠ clock_key → log k `prefix_of` log' k.
Definition later (σ σ' : World) : Prop := wd_time σ ≤ wd_time σ' ∧ grows (log_at σ) (log_at σ').

(** No release of the node's lease by its holder. *)
Definition unreleased (h node_id : string) (w : Write) : Prop := of_node h node_id w → dw_released (w_lease w) = false.
Definition clean (h node_id : string) (ws ws' : list Write) : Prop :=
  ∀ ext, ws' = ws ++ ext → Forall (unreleased h node_id) ext.

(** What a task can rely on, by its role. *)
Definition keeps (cfg : Config) (role : Role) (d d' : Directory) (log log' : string → list Write) : Prop :=
  let clean_at s c n := valid_cell s c →
    clean (holder_id cfg) n (log (lease_path path_of cfg s c)) (log' (lease_path path_of cfg s c)) in
  match role with
  | Acquiring s c n => clean_at s c n
  | Renewing s c n => is_Some (d_scope_users d' !! (s, n)) → is_Some (d_scope_users d !! (s, n)) ∧ clean_at s c n
  | ReleasingCell s c => ∀ l, d_local d' !! lease_path path_of cfg s c = Some l → d_local d !! lease_path path_of cfg s c = Some l
  | ReleasingScope s n => d_scope_users d !! (s, n) = None → d_scope_users d' !! (s, n) = None ∧
      ∀ k l, d_local d' !! k = Some l → lw_scope l = s → lw_node_id l = n → d_local d !! k = Some l
  | Looking => True
  end.

(** A task of process [i] of that configuration. *)
Section task.
Context (i : nat) (cfg : Config) (role : Role).

(** The process is there, in a good world. *)
Definition runs (σ : World) : Prop := good σ ∧ ∃ p, wd_procs σ !! i = Some p ∧ pr_cfg p = cfg.
Definition quiet (σ σ' : World) : Prop :=
  later σ σ' ∧ keeps cfg role (dir_of i σ) (dir_of i σ') (log_at σ) (log_at σ').

(** What it guarantees: of the directory, it adds no users, and only leases it may
    acquire; and it writes a release only where its role is to release. *)
Definition may_insert (d : Directory) (k : string) (l : LocalWriterLease) : Prop :=
  placed cfg k l ∧
  (role = Acquiring (lw_scope l) (lw_cell_id l) (lw_node_id l) ∨
   role = Renewing (lw_scope l) (lw_cell_id l) (lw_node_id l) ∧ is_Some (d_scope_users d !! (lw_scope l, lw_node_id l))).
Definition may_release (d : Directory) (k node_id : string) : Prop :=
  match role with
  | ReleasingCell s c => k = lease_path path_of cfg s c
  | ReleasingScope s n => n = node_id ∧ d_scope_users d !! (s, n) = None ∧
      ∃ c, valid_cell s c ∧ k = lease_path path_of cfg s c
  | _ => False
  end.
Definition enters (d d' : Directory) : Prop :=
  (∀ key, is_Some (d_scope_users d' !! key) → is_Some (d_scope_users d !! key)) ∧
  ∀ k l, d_local d' !! k = Some l → d_local d !! k = Some l ∨ may_insert d k l.
Definition writes (σ σ' : World) : Prop := ∀ k, k ≠ clock_key →
  ∃ ext, log_at σ' k = log_at σ k ++ ext ∧
    Forall (λ w, by_holder (holder_id cfg) w ∧
      (dw_released (w_lease w) = true → may_release (dir_of i σ) k (dw_node_id (w_lease w)))) ext.

(** * Programs under interference *)

Fixpoint wp {A} (m : prog A) (Φ : A → N → World → Prop) (t : N) (σ : World) : Prop :=
  ∀ σ', quiet σ σ' → runs σ' →
  match m with
  | Ret a => Φ a t σ'
  | Now k => wp (k (wd_time σ')) Φ (wd_time σ') σ'
  | Critical B f k => ∀ p, wd_procs σ' !! i = Some p →
      let '(d, b) := f (wd_time σ') (pr_dir p) in
      let σ1 := set_process i (enter p d) σ' in
      good σ1 ∧ enters (pr_dir p) d ∧ wp (k b) Φ t σ1
  | Get path k => ∀ s r, ls_get (wd_store σ') path = (s, r) →
      good (set_store s σ') ∧ wp (k r) Φ t (set_store s σ')
  | Put path payload mode k => ∀ s r, ls_put (wd_time σ') (wd_store σ') path payload mode = (s, r) →
      bounded (put_effect t path s σ') →
      good (put_effect t path s σ') ∧ writes σ' (put_effect t path s σ') ∧ wp (k r) Φ t (put_effect t path s σ')
  | Head path k => wd_time σ' ≤ t + lag → ∀ s r, ls_head (wd_store σ') path = (s, r) →
      good (set_store s σ') ∧ wp (k r) Φ t (set_store s σ')
  | Delete path k => ∀ s r, ls_delete (wd_store σ') path = (s, r) →
      good (set_store s σ') ∧ wp (k r) Φ t (set_store s σ')
  end.
End task.

#[export] Instance later_preorder : PreOrder later.
Proof.
  split.
  - intros σ. split; [lia|]. by intros k _.
  - intros σ1 σ2 σ3 [H1 G1] [H2 G2]. split; [lia|]. intros k Hk. by etrans; [apply G1|apply G2].
Qed.

Lemma clean_refl h n ws : clean h n ws ws.
Proof. intros ext E. assert (ext = []) as -> by (by eapply (app_inv_head ws); rewrite (right_id_L [] (++))). by constructor. Qed.
Lemma clean_trans h n ws1 ws2 ws3 : ws1 `prefix_of` ws2 → ws2 `prefix_of` ws3 → clean h n ws1 ws2 → clean h n ws2 ws3 → clean h n ws1 ws3.
Proof.
  intros [e1 E1] [e2 E2] C1 C2 ext E. rewrite E2, E1, <- (assoc_L (++)) in E. apply app_inv_head in E as <-.
  apply Forall_app. split; [by apply C1|by apply C2].
Qed.

Section interference.
Context {Hpaths : LeasePaths} (i : nat) (cfg : Config) {Hroot : Rooted cfg} (role : Role).

Lemma keeps_refl d log : keeps cfg role d d log log.
Proof.
  destruct role as [s c n|s c n|s c|s n|]; cbn; try done; [intros _; apply clean_refl|].
  intros Hu. split; [done|intros _; apply clean_refl].
Qed.

Lemma keeps_trans d1 d2 d3 log1 log2 log3 : grows log1 log2 → grows log2 log3 →
  keeps cfg role d1 d2 log1 log2 → keeps cfg role d2 d3 log2 log3 → keeps cfg role d1 d3 log1 log3.
Proof.
  intros G1 G2. assert (∀ s c n, clean (holder_id cfg) n (log1 (lease_path path_of cfg s c)) (log2 (lease_path path_of cfg s c)) →
    clean (holder_id cfg) n (log2 (lease_path path_of cfg s c)) (log3 (lease_path path_of cfg s c)) →
    clean (holder_id cfg) n (log1 (lease_path path_of cfg s c)) (log3 (lease_path path_of cfg s c))) as Hclean.
  { intros s c n. apply clean_trans; [apply G1|apply G2]; apply paths_clock, rooted. }
  destruct role as [s c n|s c n|s c|s n|]; cbn; try done.
  - eauto.
  - intros H1 H2 [[Hu C1]%H1 C2]%H2. eauto.
  - eauto.
  - intros H1 H2 [Hu C1]%H1. destruct (H2 Hu) as [Hu' C2]. eauto.
Qed.

#[export] Instance quiet_preorder : PreOrder (quiet i cfg role).
Proof.
  split.
  - intros σ. split; [done|apply keeps_refl].
  - intros σ1 σ2 σ3 [L1 K1] [L2 K2]. split; [by etrans|]. by eapply keeps_trans; [apply L1|apply L2|..].
Qed.

Lemma quiet_later σ σ' : quiet i cfg role σ σ' → later σ σ'.
Proof. by intros [? _]. Qed.

(** What a task does itself is quiet to it. *)
Lemma enters_quiet σ d p : wd_procs σ !! i = Some p → enters cfg role (pr_dir p) d →
  quiet i cfg role σ (set_process i (enter p d) σ).
Proof.
  intros Hp [Hu Hl]. split; [split; [done|by intros k _]|].
  assert (dir_of i σ = pr_dir p) as -> by (unfold dir_of; by rewrite Hp).
  assert (dir_of i (set_process i (enter p d) σ) = d) as -> by (unfold dir_of; cbn; by rewrite lookup_insert_eq).
  change (log_at (set_process i (enter p d) σ)) with (log_at σ). unfold may_insert in Hl.
  destruct role as [s c n|s c n|s c|s n|]; cbn; try done.
  - intros _. apply clean_refl.
  - intros H. split; [by apply Hu|intros _; apply clean_refl].
  - intros l [?|[_ [[=]|[[=] _]]]]%Hl; done.
  - intros H. split.
    + apply eq_None_not_Some. intros Hs%Hu. rewrite H in Hs. by destruct Hs.
    + intros k l [?|[_ [[=]|[[=] _]]]]%Hl; done.
Qed.

Lemma store_quiet σ s : quiet i cfg role σ (set_store s σ).
Proof. split; [split; [done|by intros k _]|]. apply keeps_refl. Qed.

Lemma writes_quiet σ σ' : writes i cfg role σ σ' → wd_procs σ' = wd_procs σ → wd_time σ ≤ wd_time σ' →
  quiet i cfg role σ σ'.
Proof.
  intros Hw Hp Ht. split.
  - split; [done|]. intros k Hk. destruct (Hw k Hk) as (ext & -> & _). by exists ext.
  - assert (dir_of i σ' = dir_of i σ) as -> by (unfold dir_of; by rewrite Hp).
    assert (role ≠ Looking → (∀ d k n, ¬ may_release cfg role d k n) → ∀ s c n,
      clean (holder_id cfg) n (log_at σ (lease_path path_of cfg s c)) (log_at σ' (lease_path path_of cfg s c))) as Hclean.
    { intros _ Hm s c n ext E. destruct (Hw _ (paths_clock cfg s c rooted)) as (ext' & E' & Hx). rewrite E' in E.
      apply app_inv_head in E as <-. eapply Forall_impl; [exact Hx|]. cbn. intros w [_ Hr] _.
      apply not_true_is_false. intros Hrel%Hr. by apply Hm in Hrel. }
    destruct role as [s c n|s c n|s c|s n|]; cbn; try done; auto.
Qed.

(** ** Rules of the logic *)

Lemma wp_quiet {A} (m : prog A) Φ t σ σ' : wp i cfg role m Φ t σ → quiet i cfg role σ σ' → wp i cfg role m Φ t σ'.
Proof. intros H Hq. destruct m; intros σ'' Hq'; apply H; by etrans. Qed.

Lemma wp_mono {A} (m : prog A) (Φ Ψ : A → N → World → Prop) t σ :
  wp i cfg role m Φ t σ → (∀ a t' σ', Φ a t' σ' → Ψ a t' σ') → wp i cfg role m Ψ t σ.
Proof.
  intros H HΦ. revert t σ H. induction m as [a|k IH|B f k IH|path k IH|path payload mode k IH|path k IH|path k IH];
    intros t σ H σ' Hq Hr; specialize (H σ' Hq Hr); cbn in *; [by auto|by apply IH|..].
  - intros p Hp. specialize (H p Hp). destruct (f _ _) as [d b]. destruct H as (? & ? & ?). auto.
  - intros s r E. destruct (H s r E) as [Hg Hw]. auto.
  - intros s r E Hb. destruct (H s r E Hb) as (Hg & Hl & Hw). auto.
  - intros Ht s r E. destruct (H Ht s r E) as [Hg Hw]. auto.
  - intros s r E. destruct (H s r E) as [Hg Hw]. auto.
Qed.

(** A sequence: the rest runs from whatever the first part leaves. *)
Lemma wp_bind {A B} (m : prog A) (f : A → prog B) Φ t σ :
  wp i cfg role m (λ a t' σ', wp i cfg role (f a) Φ t' σ') t σ → wp i cfg role (prog_bind m f) Φ t σ.
Proof.
  revert t σ. induction m as [a|k IH|C g k IH|path k IH|path payload mode k IH|path k IH|path k IH]; intros t σ H.
  - assert (∀ σ', quiet i cfg role σ σ' → runs i cfg σ' → wp i cfg role (f a) Φ t σ') as H' by exact H. clear H.
    cbn [prog_bind]. destruct (f a) eqn:E; intros σ' Hq Hr; specialize (H' σ' Hq Hr); by apply H'.
  - intros σ' Hq Hr. specialize (H σ' Hq Hr). by apply IH.
  - intros σ' Hq Hr p Hp. specialize (H σ' Hq Hr p Hp). destruct (g _ _) as [d b]. destruct H as (? & ? & ?). auto.
  - intros σ' Hq Hr s r E. destruct (H σ' Hq Hr s r E). auto.
  - intros σ' Hq Hr s r E Hb. destruct (H σ' Hq Hr s r E Hb) as (? & ? & ?). auto.
  - intros σ' Hq Hr Ht s r E. destruct (H σ' Hq Hr Ht s r E). auto.
  - intros σ' Hq Hr s r E. destruct (H σ' Hq Hr s r E). auto.
Qed.

(** ** Tasks of one process *)

(** What a task guarantees of the directory is what another, with which it does not
    clash, relies on. *)
Lemma enters_keeps role' d d' log : enters cfg role d d' → ¬ clash path_of cfg role role' → keeps cfg role' d d' log log.
Proof.
  intros [Hu Hl] Hn. unfold may_insert, placed in Hl. destruct role' as [s c n|s c n|s c|s n|]; cbn; try done.
  - intros _. apply clean_refl.
  - intros H. split; [by apply Hu|intros _; apply clean_refl].
  - intros l [?|[[_ Hk] Hr]]%Hl; [done|]. destruct Hn. by destruct Hr as [->|[-> _]].
  - intros H. split.
    + apply eq_None_not_Some. intros Hs%Hu. rewrite H in Hs. by destruct Hs.
    + intros k l [?|[_ Hr]]%Hl Hs Hnode; [done|]. subst. destruct Hr as [->|[_ Hs]]; [by destruct Hn|].
      rewrite H in Hs. by destruct Hs.
Qed.

(** And so for what it writes. *)
Lemma writes_keeps role' σ σ' : writes i cfg role σ σ' → wd_procs σ' = wd_procs σ → ¬ clash path_of cfg role role' →
  keeps cfg role' (dir_of i σ) (dir_of i σ') (log_at σ) (log_at σ').
Proof.
  intros Hw Hp Hn. assert (dir_of i σ' = dir_of i σ) as -> by (unfold dir_of; by rewrite Hp).
  assert (∀ s c n, valid_cell s c →
    (∀ s' c', role = ReleasingCell s' c' → lease_path path_of cfg s c ≠ lease_path path_of cfg s' c') →
    (role = ReleasingScope s n → is_Some (d_scope_users (dir_of i σ) !! (s, n))) →
    clean (holder_id cfg) n (log_at σ (lease_path path_of cfg s c)) (log_at σ' (lease_path path_of cfg s c))) as Hclean.
  { intros s c n Hc H1 H2 ext E. destruct (Hw _ (paths_clock cfg s c rooted)) as (ext' & E' & Hx). rewrite E' in E.
    apply app_inv_head in E as <-. eapply Forall_impl; [exact Hx|]. cbn. intros w [_ Hr] [_ Hnode].
    apply not_true_is_false. intros Hm%Hr. rewrite Hnode in Hm. unfold may_release in Hm.
    destruct role as [| |s' c'|s' n'|]; try done; [by eapply H1|].
    destruct Hm as (-> & Hu & c' & Hc' & Ek). apply paths_scope in Ek as <-; [|apply rooted|done..].
    destruct H2 as [? E2]; [done|]. by rewrite Hu in E2. }
  destruct role' as [s c n|s c n|s c|s n|]; cbn; try done.
  - intros Hc. apply Hclean; [done| |].
    + intros s' c' ->. by cbn in Hn.
    + intros ->. by destruct Hn.
  - intros Hu. split; [done|]. intros Hc. apply Hclean; [done| |done]. intros s' c' ->. by cbn in Hn.
Qed.
End interference.
End logic.
#[global] Arguments wp : simpl never.
#[global] Arguments wp_quiet {O L path_of base lag Hpaths i cfg Hroot role A} m Φ t σ σ'.
#[global] Arguments wp_mono {O L path_of base lag i cfg role A} m Φ Ψ t σ.
#[global] Arguments wp_bind {O L path_of base lag Hpaths i cfg Hroot role A B} m f Φ t σ.

(** From one moment to another by way of those between. *)
Ltac settle :=
  solve [assumption | reflexivity |
    match goal with
    | H : quiet _ _ _ _ _ ?a _ |- quiet _ _ _ _ _ ?a _ => etrans; [exact H|]; settle
    end].
