(* ===== verification/LeaseRules.v ===== *)
(** [LeaseRules]: the text of a lease read back, and one rule for each action of a
    program: when it keeps what [LeaseLogic] says of the world. *)

From S2P Require Import Prelude Text TextFacts Errors Model Namespace Codec CodecFacts IndexStore Lease LeaseSystem LeaseLogic.

Local Open Scope N_scope.

Import lease.

(** * The text *)

Definition lease_lines (l : DecodedWriterLease) : list string :=
  [WRITER_LEASE_FORMAT; dw_node_id l; dw_holder_id l; dec (dw_generation l); dec (dw_heartbeat l);
   dec (dw_duration_ms l); if dw_released l then "released" else "active"].

Lemma encode_lines node_id holder_id generation heartbeat duration released payload :
  encode_writer_lease node_id holder_id generation heartbeat duration released = Ok payload →
  let l := MkDecoded node_id holder_id generation heartbeat (as_millis duration) released in
  payload = unlines (lease_lines l) ∧ component_ok node_id = true ∧ component_ok holder_id = true ∧
  as_millis duration ≤ u64_max.
Proof.
  unfold encode_writer_lease. intros H.
  destruct (validate_component "node_id" node_id) eqn:E1; [|done]. apply validate_component_ok' in E1.
  destruct (validate_component "writer_lease_holder" holder_id) eqn:E2; [|done]. apply validate_component_ok' in E2.
  destruct (as_millis duration <=? u64_max) eqn:E3; [|done]. apply N.leb_le in E3.
  cbn [mbind result_mbind result_bind] in H. simplify_eq. split; [|done].
  unfold lease_lines. cbn [unlines dw_node_id dw_holder_id dw_generation dw_heartbeat dw_duration_ms dw_released].
  unfold nl. by destruct released.
Qed.

Lemma line_ok_component v : component_ok v = true → line_ok v.
Proof. intros H. split; apply (str_forall_free component_char); try done; by apply andb_prop in H as [_ H]. Qed.
Lemma line_ok_dec n : line_ok (dec n).
Proof. split; apply digits_free; first [apply dec_digits|done]. Qed.

Lemma parse_lease_dec path field n : u64_ok n → parse_lease_u64 path field (Some (dec n)) = Ok n.
Proof. intros H. unfold parse_lease_u64. cbn [default from_option id]. by rewrite parse_dec. Qed.

(** A lease reads back from its lines. *)
Lemma lease_decode_lines path l : lease_ok l → decode_writer_lease path (unlines (lease_lines l)) = Ok l.
Proof.
  intros [Hn Hh [Hg Hg'] [Hb Hb'] [Hd Hd']].
  assert (lines (unlines (lease_lines l)) = lease_lines l) as El.
  { apply lines_unlines. unfold lease_lines.
    repeat (apply Forall_cons; split); try by first [apply line_ok_dec|apply line_ok_component].
    - by destruct (dw_released l).
    - by apply Forall_nil. }
  assert (valid_utf8 (unlines (lease_lines l))) as Hu.
  { apply ascii_valid_utf8. unfold lease_lines, unlines.
    repeat first [rewrite str_forall_app | cbn [str_forall]].
    assert (∀ n, str_forall is_ascii (dec n) = true) as Hdec
      by (intros n; apply plain_ascii, dec_plain).
    rewrite !Hdec, !component_ok_ascii by done. by destruct (dw_released l). }
  unfold decode_writer_lease. rewrite from_utf8_valid by done.
  cbn [map_err mbind result_mbind result_bind]. rewrite El. unfold lease_lines. cbn [lookup list_lookup].
  rewrite bool_decide_true by done. cbn [negb default from_option id].
  rewrite (proj2 (validate_component_ok _ _) Hn). cbn [mbind result_mbind result_bind].
  rewrite (proj2 (validate_component_ok _ _) Hh). cbn [mbind result_mbind result_bind].
  rewrite !parse_lease_dec by done. cbn [mbind result_mbind result_bind].
  destruct l as [node holder g b d released]; cbn in *.
  rewrite !(proj2 (N.eqb_neq _ 0)) by lia. cbn [orb].
  by destruct released.
Qed.

Lemma encode_decoded path node_id holder_id generation heartbeat duration released payload :
  encode_writer_lease node_id holder_id generation heartbeat duration released = Ok payload →
  0 < generation → u64_ok generation → 0 < heartbeat → u64_ok heartbeat → MILLI ≤ duration →
  let l := MkDecoded node_id holder_id generation heartbeat (as_millis duration) released in
  decode_writer_lease path payload = Ok l ∧ lease_ok l.
Proof.
  intros (-> & Hn & Hh & Hd)%encode_lines Hg Hg' Hb Hb' HD l.
  assert (lease_ok l) as Hl.
  { split; cbn; try done. split; [|done]. unfold as_millis.
    enough (1 ≤ duration / MILLI) by lia. by apply N.div_le_lower_bound. }
  split; [by apply lease_decode_lines|done].
Qed.

Lemma saturating_add_small a b : a + b ≤ u64_max → saturating_add a b = a + b.
Proof. unfold saturating_add. lia. Qed.

(** * Actions *)

Section rules.
Context {O : LeaseStore} {L : LeaseStoreLaws O}.
Context (path_of : string → string) (base : string).

Local Abbreviation clock := (clock_key path_of base).
Local Abbreviation good := (good path_of base).
Local Abbreviation process_ok := (process_ok path_of base).
Local Abbreviation directory_ok := (directory_ok path_of base).

Local Abbreviation later := (later path_of base).

Lemma later_entry σ σ' k a w : later σ σ' → k ≠ clock → log_at σ k !! a = Some w → log_at σ' k !! a = Some w.
Proof. intros [_ G] Hk H. by eapply prefix_lookup_Some; [|apply G]. Qed.

(** What is known of a directory outlives later writes. *)
Lemma honest_later now now' ws ws' e : honest now ws e → now ≤ now' → ws `prefix_of` ws' → honest now' ws' e.
Proof.
  intros [H (a & w & Ha & Hf & Hr)] Ht Hp. split; [lia|]. exists a, w.
  split; [by eapply prefix_lookup_Some|done].
Qed.

(** Writes that follow do not release the lease. *)
Definition spares (h : string) (l : LocalWriterLease) (ext : list Write) : Prop :=
  Forall (λ w, of_node h (lw_node_id l) w → dw_generation (w_lease w) = lw_generation l → dw_released (w_lease w) = false) ext.

Lemma backed_extended h ws ext l : backed h ws l → spares h l ext → backed h (ws ++ ext) l.
Proof.
  intros (a & w & Ha & Hn & Hg & Hv & Hr) Hk. exists a, w.
  split; [by apply lookup_app_l_Some|]. do 3 (split; [done|]). intros b w' Hab Hb' Hw' Hgen.
  apply lookup_app_Some in Hb' as [Hb'|[_ Hb']]; [by eapply Hr|].
  eapply Forall_lookup_1 in Hk; [|exact Hb']. by apply Hk.
Qed.

(** A directory over longer histories. *)
Lemma directory_ok_later now now' log log' cfg d : directory_ok now log cfg d → now ≤ now' →
  (∀ k, k ≠ clock → ∃ ext, log' k = log k ++ ext ∧ ∀ l, d_local d !! k = Some l → spares (holder_id cfg) l ext) →
  (∀ k l, d_local d !! k = Some l → k ≠ clock) →
  directory_ok now' log' cfg d.
Proof.
  intros [H1 H2 H3] Ht He Hc. split.
  - intros k l Hk. destruct (H1 k l Hk) as (? & ?). split; [done|].
    destruct (He k (Hc k l Hk)) as (ext & -> & Hx). apply backed_extended; [done|by apply Hx].
  - done.
  - intros k e Hk Hl. destruct (He k Hk) as (ext & -> & _). eapply honest_later; [by apply H3|done|by exists ext].
Qed.

Section actions.
Context {Hpaths : LeasePaths path_of base}.
Context (σ : World) (i : nat) (p : Process) (Hg : good σ) (Hp : wd_procs σ !! i = Some p).

Lemma own_ok : process_ok (wd_time σ) (log_at σ) p.
Proof. by eapply gd_process. Qed.

Lemma local_not_clock q k l : process_ok (wd_time σ) (log_at σ) q → d_local (pr_dir q) !! k = Some l → k ≠ clock.
Proof.
  intros Hq Hl. destruct (do_local _ _ _ _ _ _ (po_dir _ _ _ _ _ Hq) k l Hl) as ((_ & ->) & _).
  apply (paths_clock path_of base), (po_base _ _ _ _ _ Hq).
Qed.

(** The process changes nothing but its own directory. *)
Lemma good_enter d : directory_ok (wd_time σ) (log_at σ) (pr_cfg p) d → good (set_process i (enter p d) σ).
Proof.
  intros Hd. pose proof own_ok as [P0 P1 P2 P3]. destruct Hg as [H0 H1 H2 H3 H4 H5 H6]. split; try done.
  - intros j q Hj. cbn in Hj. apply lookup_insert_Some in Hj as [[<- <-]|[_ Hj]]; [by split|by eapply H5].
  - intros j j' q q' Hj Hj' E. cbn in Hj, Hj'. apply lookup_insert_Some in Hj as [[<- <-]|[Hn Hj]];
      apply lookup_insert_Some in Hj' as [[<- <-]|[Hn' Hj']]; [done|..].
    + eapply H6; [exact Hp|exact Hj'|exact E].
    + eapply H6; [exact Hj|exact Hp|exact E].
    + by eapply H6.
Qed.

(** Reading leaves the store as it was. *)
Lemma good_same_store s : ls_view s = ls_view (wd_store σ) → (∀ v, ls_used s v ↔ ls_used (wd_store σ) v) →
  good (set_store s σ).
Proof.
  intros Hv Hu. destruct Hg as [H0 H1 H2 H3 H4 H5 H6]. split; try done.
  - intros k Hk. cbn. rewrite Hv. by apply H2.
  - intros k a w Hk Ha. cbn. apply Hu. by eapply H3.
  - intros k m v. cbn. rewrite Hv. apply H4.
Qed.
End actions.

(** * Puts *)

Definition mode_of (current : option Write) : LeasePutMode :=
  match current with Some w => PutUpdate (w_version w) | None => PutCreate end.

(** A lease that may be written after the last known one, by a task of process [i]
    that last read the clock at [t]. *)
Record next_write (i : nat) (cfg : Config) (t : N) (σ : World) (k : string) (current : option Write)
    (l : DecodedWriterLease) : Prop := {
  nw_ok : lease_ok l;
  nw_holder : dw_holder_id l = holder_id cfg;
  nw_duration : dw_duration_ms l = as_millis (lease_duration cfg);
  nw_released lease : dw_released l = true → d_local (dir_of i σ) !! k = Some lease → lw_node_id lease ≠ dw_node_id l;
  nw_clock : t ≤ wd_time σ;
  nw_current : match current with
    | None => dw_heartbeat l = 1 ∧ dw_generation l = 1
    | Some w => (∃ a, log_at σ k !! a = Some w) ∧ w_time w ≤ t ∧
        dw_heartbeat l = saturating_add (dw_heartbeat (w_lease w)) 1 ∧
        ∀ w', w_lease w' = l → wd_time σ ≤ w_time w' → handover w w' ∧ generation_step w w'
    end;
}.

Lemma lookup_snoc_cases {A} (l : list A) x a y : (l ++ [x]) !! a = Some y →
  l !! a = Some y ∧ (a < length l)%nat ∨ a = length l ∧ y = x.
Proof.
  intros [H|[Hl H]]%lookup_app_Some.
  - left. split; [done|]. by eapply lookup_lt_Some.
  - apply list_lookup_singleton_Some in H as [H <-]. right. split; [lia|done].
Qed.

(** The history after one more write. *)
Lemma history_snoc now ws w : history_ok now ws → w_started w ≤ w_time w → w_time w = now →
  dw_heartbeat (w_lease w) = N.min (N.of_nat (length ws) + 1) u64_max →
  lease_ok (w_lease w) →
  (∀ a w0, ws !! a = Some w0 → w_version w0 ≠ w_version w) →
  (ws = [] → dw_generation (w_lease w) = 1) →
  (∀ w0, last ws = Some w0 → handover w0 w ∧ generation_step w0 w) →
  (∀ a w0, ws !! a = Some w0 → dw_holder_id (w_lease w0) = dw_holder_id (w_lease w) → expiry w0 ≤ expiry w) →
  history_ok now (ws ++ [w]).
Proof.
  intros [H1 H2 H3 H4 H5 H6 H7 H8] Hst Ht Hh Hd Hv Hf Hn He. split.
  - intros a x [[Ha _]|[_ ->]]%lookup_snoc_cases; [by eapply H1|lia].
  - intros a b x y Hab [[Ha _]|[Ea ->]]%lookup_snoc_cases [[Hb ?]|[Eb ->]]%lookup_snoc_cases; try lia.
    + by apply (H2 a b).
    + destruct (H1 a x Ha). lia.
  - intros a b x y [[Ha _]|[Ea ->]]%lookup_snoc_cases [[Hb _]|[Eb ->]]%lookup_snoc_cases E.
    + by apply (H3 a b x y).
    + by apply Hv in Ha.
    + by apply Hv in Hb.
    + lia.
  - intros a x [[Ha _]|[-> ->]]%lookup_snoc_cases; [by apply H4|done].
  - intros a x [[Ha _]|[_ ->]]%lookup_snoc_cases; [by eapply H5|done].
  - intros x [[Ha _]|[E ->]]%lookup_snoc_cases; [by apply H6|]. apply Hf. by destruct ws.
  - intros a x y Hx [[Hy Hl]|[E ->]]%lookup_snoc_cases.
    + apply (H7 a); [|done]. rewrite lookup_app_l in Hx by lia. done.
    + rewrite lookup_app_l in Hx by lia. apply Hn. rewrite last_lookup. by replace (pred (length ws)) with a by lia.
  - intros a b x y Hab [[Ha _]|[Ea ->]]%lookup_snoc_cases [[Hb ?]|[Eb ->]]%lookup_snoc_cases E; try lia.
    + by apply (H8 a b).
    + by eapply He.
Qed.

Section puts.
Context {Hpaths : LeasePaths path_of base}.
Context (σ : World) (i : nat) (p : Process) (Hg : good σ) (Hp : wd_procs σ !! i = Some p).
Context (role : Role) (t : N).
Local Abbreviation writes := (writes path_of base i (pr_cfg p) role).

Lemma put_unchanged path s : ls_view s = ls_view (wd_store σ) → put_effect t path s σ = set_store s σ.
Proof.
  intros E. unfold put_effect, note. rewrite E. destruct (ls_view (wd_store σ) !! path) as [[m v]|]; [|done].
  by rewrite bool_decide_true.
Qed.

Lemma log_put_other path s k : k ≠ path → log_at (put_effect t path s σ) k = log_at σ k.
Proof.
  intros Hk. unfold log_at, put_effect, note. cbn. repeat case_match; try done. by rewrite lookup_insert_ne.
Qed.

Lemma log_put_same path s v value l : decode_writer_lease path value = Ok l →
  ls_view s = <[path := (MkMeta v (ls_stamp (wd_time σ)), value)]> (ls_view (wd_store σ)) →
  (∀ m x, ls_view (wd_store σ) !! path = Some (m, x) → om_version m ≠ v) →
  log_at (put_effect t path s σ) path = log_at σ path ++ [MkWrite l v (wd_time σ) t].
Proof.
  intros Hd Hs Hv. unfold log_at, put_effect, note. cbn. rewrite Hs, lookup_insert_eq.
  rewrite bool_decide_false by (intros [=E]; by apply (Hv _ _ E)).
  by rewrite Hd, lookup_insert_eq.
Qed.

(** The object's version is used. *)
Lemma view_used k m x : k ≠ clock → ls_view (wd_store σ) !! k = Some (m, x) → ls_used (wd_store σ) (om_version m).
Proof.
  intros Hk E. pose proof (gd_object _ _ _ Hg k Hk) as Ho. unfold object_ok in Ho.
  destruct (last (log_at σ k)) as [w|] eqn:El; [|by rewrite Ho in E].
  destruct Ho as (m' & x' & E' & _ & Hv & _). rewrite E in E'. simplify_eq. rewrite Hv.
  rewrite last_lookup in El. by eapply (gd_used _ _ _ Hg).
Qed.

(** What a put that took effect at [path] leaves good. *)
Lemma good_put_applied path s v value (ext : list Write) :
  ls_view s = <[path := (MkMeta v (ls_stamp (wd_time σ)), value)]> (ls_view (wd_store σ)) →
  (∀ v', ls_used s v' ↔ v' = v ∨ ls_used (wd_store σ) v') →
  bounded path_of base (put_effect t path s σ) →
  (path ≠ clock → log_at (put_effect t path s σ) path = log_at σ path ++ ext ∧
     history_ok (wd_time σ) (log_at σ path ++ ext) ∧ object_ok (ls_view s) path (log_at σ path ++ ext) ∧
     Forall (λ w, w_version w = v ∧ by_holder (holder_id (pr_cfg p)) w ∧
       dw_duration_ms (w_lease w) = as_millis (lease_duration (pr_cfg p)) ∧
       (dw_released (w_lease w) = true → may_release path_of (pr_cfg p) role (dir_of i σ) path (dw_node_id (w_lease w)) ∧
         ∀ lease, d_local (pr_dir p) !! path = Some lease → lw_node_id lease ≠ dw_node_id (w_lease w))) ext) →
  good (put_effect t path s σ) ∧ writes σ (put_effect t path s σ).
Proof.
  intros Hs Hu Hb Hpath. destruct Hg as [H0 H1 H2 H3 H4 H5 H6].
  assert (∀ k, k ≠ clock → ∃ e, log_at (put_effect t path s σ) k = log_at σ k ++ e ∧
    (k = path ∧ e = ext ∨ k ≠ path ∧ e = [])) as He.
  { intros k Hk. destruct (decide (k = path)) as [->|Hkp].
    - exists ext. split; [by apply Hpath|by left].
    - exists []. rewrite log_put_other, (right_id_L [] (++)) by done. split; [done|by right]. }
  split; [split|].
  - done.
  - intros k Hk. destruct (decide (k = path)) as [->|Hkp].
    + destruct (Hpath Hk) as (-> & Hh & _). done.
    + rewrite log_put_other by done. by apply H1.
  - intros k Hk. destruct (decide (k = path)) as [->|Hkp].
    + destruct (Hpath Hk) as (-> & _ & Ho & _). done.
    + rewrite log_put_other by done. unfold object_ok. cbn. rewrite Hs, lookup_insert_ne by done. by apply H2.
  - intros k a w Hk Ha. cbn. apply Hu. destruct (He k Hk) as (e & E & [[-> ->]|[_ ->]]); rewrite E in Ha.
    + apply lookup_app_Some in Ha as [Ha|[_ Ha]]; [right; by eapply H3|left].
      destruct (Hpath Hk) as (_ & _ & _ & Hx). eapply Forall_lookup_1 in Hx; [|exact Ha]. apply Hx.
    + rewrite (right_id_L [] (++)) in Ha. right. by eapply H3.
  - intros k m x. cbn. rewrite Hs. intros [[_ E]|[_ E]]%lookup_insert_Some.
    + simplify_eq. by exists (wd_time σ).
    + by eapply H4.
  - intros j q Hj. cbn in Hj. pose proof (H5 j q Hj) as Hq. destruct Hq as [Q0 Q1 Q2 Q3].
    assert (∀ k, k ≠ clock → ∃ e, log_at (put_effect t path s σ) k = log_at σ k ++ e ∧
      Forall (λ w, by_holder (holder_id (pr_cfg q)) w → q = p ∧
        dw_duration_ms (w_lease w) = as_millis (lease_duration (pr_cfg p)) ∧
        (dw_released (w_lease w) = true → ∀ lease, d_local (pr_dir p) !! k = Some lease → lw_node_id lease ≠ dw_node_id (w_lease w))) e)
      as Hq.
    { intros k Hk. destruct (He k Hk) as (e & E & HE). exists e. split; [done|].
      destruct HE as [[-> ->]|[_ ->]]; [|by apply Forall_nil]. destruct (Hpath Hk) as (_ & _ & _ & Hx).
      eapply Forall_impl; [exact Hx|]. cbn. intros w (_ & Hw & ? & Hr) Hw'.
      assert (j = i) as -> by (eapply H6; [done..|]; unfold by_holder in *; congruence). simplify_eq.
      split; [done|]. split; [done|]. by intros [_ ?]%Hr. }
    split; [done..| |].
    + eapply directory_ok_later; [exact Q2|done| |].
      * intros k Hk. destruct (Hq k Hk) as (e & E & Hx). exists e. split; [done|]. intros l Hl.
        eapply Forall_impl; [exact Hx|]. cbn. intros w Hw [Hb' Hn] _. destruct (Hw Hb') as (-> & _ & Hr).
        apply not_true_is_false. intros Ht. by apply (Hr Ht l).
      * intros k l Hl. destruct (do_local _ _ _ _ _ _ Q2 k l Hl) as ((_ & ->) & _). by apply paths_clock.
    + intros k a w Hk Ha Hw. destruct (Hq k Hk) as (e & E & Hx). rewrite E in Ha.
      apply lookup_app_Some in Ha as [Ha|[_ Ha]]; [by eapply Q3|].
      eapply Forall_lookup_1 in Hx; [|exact Ha]. by destruct (Hx Hw) as (-> & ? & _).
  - done.
  - intros k Hk. destruct (He k Hk) as (e & E & HE). exists e. split; [done|].
    destruct HE as [[-> ->]|[_ ->]]; [|by apply Forall_nil]. destruct (Hpath Hk) as (_ & _ & _ & Hx).
    eapply Forall_impl; [exact Hx|]. cbn. intros w (_ & ? & _ & Hr). split; [done|]. by intros [? _]%Hr.
Qed.

Lemma good_put_unapplied path s : ls_view s = ls_view (wd_store σ) → (∀ v, ls_used s v ↔ ls_used (wd_store σ) v) →
  good (put_effect t path s σ) ∧ writes σ (put_effect t path s σ).
Proof.
  intros Hv Hu. rewrite put_unchanged by done. split; [by apply good_same_store|].
  intros k _. exists []. by rewrite (right_id_L [] (++)).
Qed.

(** A put of the clock probe. *)
Lemma good_put_clock payload mode s r : ls_put (wd_time σ) (wd_store σ) clock payload mode = (s, r) →
  bounded path_of base (put_effect t clock s σ) →
  good (put_effect t clock s σ) ∧ writes σ (put_effect t clock s σ).
Proof.
  intros (_ & [(_ & Hv & Hu)|(v & _ & _ & Hu & Hv)])%ls_put_law Hb; [by apply good_put_unapplied|].
  by eapply (good_put_applied _ _ v _ []).
Qed.

(** The write a conditional put follows is the last. *)
Lemma admitted_last k current : k ≠ clock →
  match current with Some w => ∃ a, log_at σ k !! a = Some w | None => True end →
  lease_admits (mode_of current) (ls_view (wd_store σ) !! k) → last (log_at σ k) = current.
Proof.
  intros Hk Hw Ha. pose proof (gd_object _ _ _ Hg k Hk) as Ho. unfold object_ok in Ho.
  destruct current as [w|]; cbn in Ha.
  - destruct Ha as (m & x & E & Hv), Hw as [a Ha]. destruct (last (log_at σ k)) as [w0|] eqn:El; [|congruence].
    destruct Ho as (m' & x' & E' & _ & Hv' & _). assert (w_version w = w_version w0) as Ev by congruence.
    rewrite last_lookup in El. pose proof (gd_history _ _ _ Hg k Hk) as Hh.
    pose proof (ho_versions _ _ Hh _ _ _ _ Ha El Ev) as ->. congruence.
  - destruct (last (log_at σ k)) as [w0|]; [|done]. destruct Ho as (m & x & E & _). congruence.
Qed.

(** A conditional put of a lease. *)
Lemma good_put_lease k payload current l s r : k ≠ clock → next_write i (pr_cfg p) t σ k current l →
  (dw_released l = true → may_release path_of (pr_cfg p) role (dir_of i σ) k (dw_node_id l)) →
  decode_writer_lease k payload = Ok l →
  ls_put (wd_time σ) (wd_store σ) k payload (mode_of current) = (s, r) →
  bounded path_of base (put_effect t k s σ) →
  good (put_effect t k s σ) ∧ writes σ (put_effect t k s σ) ∧ r ≠ Err OsNotImplemented ∧
  (log_at (put_effect t k s σ) k = log_at σ k ∧ r ≠ Ok tt ∨
   ∃ v, log_at (put_effect t k s σ) k = log_at σ k ++ [MkWrite l v (wd_time σ) t]).
Proof.
  intros Hk [Hl Hh Hd Hr Hclk Hc] Hmay Hdec Hput Hb. apply ls_put_law in Hput as (Hni & [(Hno & Hv & Hu)|Happ]).
  { destruct (good_put_unapplied k s Hv Hu) as [? ?]. split_and!; try done. left. split; [|done].
    by rewrite put_unchanged. }
  destruct Happ as (v & Ha & Hfresh & Hu & Hv).
  assert (last (log_at σ k) = current) as Elast.
  { apply admitted_last; [done| |done]. destruct current; [|done]. by destruct Hc. }
  assert (∀ m x, ls_view (wd_store σ) !! k = Some (m, x) → om_version m ≠ v) as Hvv.
  { intros m x E <-. apply Hfresh. by eapply view_used. }
  pose proof (own_ok σ i p Hg Hp) as [_ _ _ Hown].
  pose proof (gd_history _ _ _ Hg k Hk) as Hhist.
  set (w := MkWrite l v (wd_time σ) t).
  pose proof (log_put_same k s v payload l Hdec Hv Hvv) as Elog.
  assert (history_ok (wd_time σ) (log_at σ k ++ [w])) as Hhist'.
  { apply history_snoc; try done; cbn.
    - destruct current as [w0|].
      + destruct Hc as (_ & _ & -> & _). rewrite last_lookup in Elast. rewrite (ho_heartbeat _ _ Hhist _ _ Elast).
        apply lookup_lt_Some in Elast. unfold saturating_add. lia.
      + apply last_None in Elast as ->. destruct Hc as [-> _]. done.
    - intros a w0 Ha0 Ev. apply Hfresh. rewrite <- Ev. by eapply (gd_used _ _ _ Hg).
    - intros E. rewrite E in Elast. cbn in Elast. subst current. apply Hc.
    - intros w0 E0. rewrite Elast in E0. destruct current; simplify_eq. destruct Hc as (_ & _ & _ & Hc). by apply Hc.
    - intros a w0 Ha0 Eh. rewrite <- Eh in Hh. pose proof (Hown k a w0 Hk Ha0 Hh) as Hdur.
      unfold expiry. cbn. rewrite Hdur, Hd. enough (w_started w0 ≤ t) by lia.
      destruct (ho_started _ _ Hhist _ _ Ha0) as [Hs0 _]. rewrite last_lookup in Elast.
      destruct current as [w1|]; [|by apply lookup_lt_Some in Ha0; apply lookup_ge_None in Elast; lia].
      destruct Hc as (_ & Ht1 & _). pose proof (lookup_lt_Some _ _ _ Ha0).
      pose proof (ho_times _ _ Hhist a (pred (length (log_at σ k))) w0 w1 ltac:(lia) Ha0 Elast). lia. }
  assert (dir_of i σ = pr_dir p) as Edir by (unfold dir_of; by rewrite Hp).
  edestruct (good_put_applied k s v payload [w]) as [? ?]; try done.
  - intros _. split; [done|]. split; [done|]. split.
    + unfold object_ok. rewrite last_snoc, Hv, lookup_insert_eq. by do 2 eexists.
    + apply Forall_singleton. cbn. split_and!; [done..|]. intros Hrel. split; [by apply Hmay|].
      intros lease Hlease. apply Hr; [done|by rewrite Edir].
  - split_and!; try done. right. by exists v.
Qed.
End puts.
End rules.
