(* ===== verification/LeaseSpecs.v ===== *)
(** [LeaseSpecs]: what each operation on leases does from any world that is as
    [LeaseLogic] says, whatever other tasks and processes do meanwhile. *)

From S2P Require Import Prelude Text TextFacts Errors Model Namespace IndexStore Lease LeaseSystem LeaseLogic LeaseRules.

Local Open Scope N_scope.

Import lease.

Section specs.
Context {O : LeaseStore} {L : LeaseStoreLaws O}.
Context {path_of : string → string} {os_error_text : LeaseOsError → string}.
Context {base : string} {lag : N}.
Context {Hpaths : LeasePaths path_of base}.
(** The task. *)
Context {i : nat} {cfg : Config} {Hroot : Rooted base cfg} {role : Role}.

Local Abbreviation clock := (clock_key path_of base).
Local Abbreviation good := (good path_of base).
Local Abbreviation own := (holder_id cfg).
Local Abbreviation wp := (wp path_of base lag i cfg role).
Local Abbreviation directory_ok := (directory_ok path_of base).
Local Abbreviation runs := (runs path_of base i cfg).
Local Abbreviation quiet := (quiet path_of base i cfg role).
Local Abbreviation enters := (enters path_of cfg role).

Lemma quiet_time σ σ' : quiet σ σ' → wd_time σ ≤ wd_time σ'.
Proof. by intros [[? _] _]. Qed.
Lemma quiet_entry σ σ' k a w : quiet σ σ' → k ≠ clock → log_at σ k !! a = Some w → log_at σ' k !! a = Some w.
Proof. intros [Hl _]. by eapply later_entry. Qed.

Lemma runs_directory σ : runs σ → directory_ok (wd_time σ) (log_at σ) cfg (dir_of i σ).
Proof.
  intros (Hg & p & Hp & <-). unfold dir_of. rewrite Hp. apply (po_dir _ _ _ _ _ (gd_process _ _ _ Hg _ _ Hp)).
Qed.
Lemma runs_good σ : runs σ → good σ.
Proof. by intros [? _]. Qed.

Lemma runs_store σ s : runs σ → ls_view s = ls_view (wd_store σ) →
  (∀ v, ls_used s v ↔ ls_used (wd_store σ) v) → runs (set_store s σ) ∧ quiet σ (set_store s σ).
Proof. intros (Hg & Hp) Hv Hu. split; [split; [by apply good_same_store|done]|apply store_quiet]. Qed.

(** * Rules *)

Section rules.
Context {A : Type} (Φ : A → N → World → Prop) (t : N) (σ : World).

Lemma wp_ret a : (∀ σ', quiet σ σ' → runs σ' → Φ a t σ') → wp (Ret a) Φ t σ.
Proof. intros H σ' Hq Hr. by apply H. Qed.

Lemma wp_now (k : N → prog A) :
  (∀ σ', quiet σ σ' → runs σ' → wp (k (wd_time σ')) Φ (wd_time σ') σ') → wp (Now k) Φ t σ.
Proof. intros H σ' Hq Hr. by apply H. Qed.

Lemma wp_critical B (f : N → Directory → Directory * B) (k : B → prog A) :
  (∀ σ', quiet σ σ' → runs σ' → let '(d, b) := f (wd_time σ') (dir_of i σ') in
    directory_ok (wd_time σ') (log_at σ') cfg d ∧ enters (dir_of i σ') d ∧
    ∀ σ'', quiet σ' σ'' → runs σ'' → dir_of i σ'' = d → wd_time σ'' = wd_time σ' → log_at σ'' = log_at σ' → wp (k b) Φ t σ'') →
  wp (Critical B f k) Φ t σ.
Proof.
  intros H σ' Hq Hr p Hp. specialize (H σ' Hq Hr).
  assert (dir_of i σ' = pr_dir p) as Ed by (unfold dir_of; by rewrite Hp). rewrite Ed in H.
  destruct (f (wd_time σ') (pr_dir p)) as [d b]. destruct H as (Hd & He & Hk), Hr as (Hg & p' & Hp' & Hc).
  assert (p' = p) as -> by congruence.
  assert (good (set_process i (enter p d) σ')) as Hg' by (apply good_enter; [done..|by rewrite Hc]).
  split; [done|]. split; [done|]. apply Hk; [by eapply enters_quiet| | |done|done].
  - split; [done|]. exists (enter p d). cbn. by rewrite lookup_insert_eq.
  - unfold dir_of. cbn. by rewrite lookup_insert_eq.
Qed.

Lemma wp_get path (k : _ → prog A) :
  (∀ σ' r, quiet σ σ' → runs σ' →
    match r with
    | Ok (m, Ok value) => ls_view (wd_store σ') !! path = Some (m, value)
    | Err OsNotFound => ls_view (wd_store σ') !! path = None
    | _ => True
    end → wp (k r) Φ t σ') → wp (Get path k) Φ t σ.
Proof.
  intros H σ' Hq Hr. intros s r (Hv & Hu & Hx)%ls_get_law.
  destruct (runs_store σ' s Hr Hv Hu) as [Hr' Hq']. split; [apply Hr'|]. apply H; [by etrans|done|].
  cbn. by rewrite Hv.
Qed.

Lemma wp_head path (k : _ → prog A) :
  (∀ σ' r, quiet σ σ' → runs σ' →
    match r with Ok m => ∃ T, T ≤ t + lag ∧ om_last_modified_ms m = ls_stamp T | Err _ => True end →
    wp (k r) Φ t σ') → wp (Head path k) Φ t σ.
Proof.
  intros H σ' Hq Hr. intros Ht s r (Hv & Hu & Hx)%ls_head_law.
  destruct (runs_store σ' s Hr Hv Hu) as [Hr' Hq']. split; [apply Hr'|]. apply H; [by etrans|done|].
  destruct r as [m|]; [|done]. destruct Hx as [value Hx].
  destruct Hr as [Hg _]. destruct (gd_stamps _ _ _ Hg _ _ _ Hx) as (T & Htt & E). exists T. split; [lia|done].
Qed.

Lemma runs_put path s σ' : runs σ' → good (put_effect t path s σ') → writes path_of base i cfg role σ' (put_effect t path s σ') →
  runs (put_effect t path s σ') ∧ quiet σ' (put_effect t path s σ').
Proof. intros [_ Hp] Hg Hw. split; [by split|]. by eapply writes_quiet. Qed.

Lemma wp_put_clock payload mode (k : _ → prog A) :
  (∀ σ' r, quiet σ σ' → runs σ' → wp (k r) Φ t σ') → wp (Put clock payload mode k) Φ t σ.
Proof.
  intros H σ' Hq Hr. intros s r E Hb. pose proof Hr as (Hg & p & Hp & Hc). rewrite <- Hc.
  destruct (good_put_clock path_of base σ' i p Hg Hp role t _ _ _ _ E Hb) as [Hg' Hw].
  split; [done|]. split; [done|]. rewrite Hc in *. destruct (runs_put clock s σ' Hr Hg' Hw).
  apply H; [by etrans|done].
Qed.

(** A write of the object with that lease, started then. *)
Definition written (k : string) (l : DecodedWriterLease) (started : N) (σ : World) : Prop :=
  ∃ a w, log_at σ k !! a = Some w ∧ w_lease w = l ∧ w_started w = started.
(** Since that write the holder has released no lease of the node, unless what a
    renewal relies on is over. *)
Definition fresh (k : string) (l : DecodedWriterLease) (started : N) (σ : World) : Prop :=
  match role with Renewing s c n => is_Some (d_scope_users (dir_of i σ) !! (s, n)) | _ => True end →
  ∃ a w, log_at σ k !! a = Some w ∧ w_lease w = l ∧ w_started w = started ∧
    ∀ b w', (a < b)%nat → log_at σ k !! b = Some w' → unreleased own (dw_node_id l) w'.

Lemma wp_put_lease path payload current l (k : _ → prog A) : path ≠ clock →
  (∀ σ', quiet σ σ' → runs σ' → next_write i cfg t σ' path current l ∧
    (dw_released l = true → may_release path_of cfg role (dir_of i σ') path (dw_node_id l))) →
  decode_writer_lease path payload = Ok l →
  (∀ σ' r, quiet σ σ' → runs σ' → r ≠ Err OsNotImplemented →
    (r = Ok tt → written path l t σ' ∧ fresh path l t σ') → wp (k r) Φ t σ') →
  wp (Put path payload (mode_of current) k) Φ t σ.
Proof.
  intros Hk Hn Hd H σ' Hq Hr. intros s r E Hb. destruct (Hn σ' Hq Hr) as [Hnw Hmay].
  pose proof Hr as (Hg & p & Hp & Hc). rewrite <- Hc in Hnw, Hmay |- *.
  destruct (good_put_lease path_of base σ' i p Hg Hp role t path payload current l s r Hk Hnw Hmay Hd E Hb)
    as (Hg' & Hw & Hni & Hl). rewrite Hc in *.
  split; [done|]. split; [done|]. destruct (runs_put path s σ' Hr Hg' Hw). apply H; [by etrans|done|done|].
  intros ->. destruct Hl as [[_ ?]|[v Ev]]; [done|].
  assert (log_at (put_effect t path s σ') path !! length (log_at σ' path) = Some (MkWrite l v (wd_time σ') t)) as El
    by (rewrite Ev; by apply list_lookup_middle).
  split; [by eexists _, _|]. intros _. eexists _, _. split; [exact El|]. split; [done|]. split; [done|].
  intros b w' Hb' Hw'. rewrite Ev in Hw'. apply lookup_lt_Some in Hw'. rewrite length_app in Hw'. cbn in Hw'. lia.
Qed.
End rules.

Lemma written_quiet k l started σ1 σ2 : k ≠ clock → quiet σ1 σ2 → written k l started σ1 → written k l started σ2.
Proof. intros Hk Hq (a & w & Ha & ? & ?). exists a, w. split; [by eapply quiet_entry|done]. Qed.

Lemma fresh_quiet s c k l started σ1 σ2 : valid_cell s c → k = lease_path path_of cfg s c →
  role = Acquiring s c (dw_node_id l) ∨ role = Renewing s c (dw_node_id l) →
  quiet σ1 σ2 → fresh k l started σ1 → fresh k l started σ2.
Proof.
  intros Hcell -> Hrole [[_ Hg] Hk] Hf Hu. set (k := lease_path path_of cfg s c) in *.
  destruct (Hg k (paths_clock path_of base _ _ _ (rooted base))) as [ext E].
  assert (clean own (dw_node_id l) (log_at σ1 k) (log_at σ2 k) ∧
    match role with Renewing s c n => is_Some (d_scope_users (dir_of i σ1) !! (s, n)) | _ => True end) as [Hclean Hu1].
  { destruct Hrole as [Er|Er]; rewrite Er in *; cbn in Hk; [by auto|]. destruct (Hk Hu) as [? Hcl]. auto. }
  destruct (Hf Hu1) as (a & w & Ha & El & Es & Hw).
  exists a, w. rewrite E. split; [by apply lookup_app_l_Some|]. split; [done|]. split; [done|].
  intros b w' Hb [Hw'|[_ Hw']]%lookup_app_Some; [by eapply Hw|]. specialize (Hclean ext E).
  by eapply Forall_lookup_1 in Hclean.
Qed.

Lemma wp_seq {A B} (m : Task A) (f : A → Task B) Φ t σ :
  wp m (λ r t' σ', match r with Ok a => wp (f a) Φ t' σ' | Err e => wp (Ret (Err e)) Φ t' σ' end) t σ →
  wp (m ≫= f) Φ t σ.
Proof. intros H. apply wp_bind. eapply wp_mono; [exact H|]. by intros [a|e] t' σ'. Qed.

Lemma wp_attempt {A} (m : Task A) Φ t σ :
  wp m (λ r t' σ', wp (Ret (Ok r)) Φ t' σ') t σ → wp (attempt m) Φ t σ.
Proof. intros H. by apply wp_bind. Qed.

(** * Reading *)

Definition stored_of (w : Write) : StoredWriterLease :=
  MkStored (dw_node_id (w_lease w)) (dw_holder_id (w_lease w)) (dw_generation (w_lease w)) (dw_heartbeat (w_lease w))
    (from_millis (dw_duration_ms (w_lease w))) (w_version w) (ls_stamp (w_time w)) (dw_released (w_lease w)).

(** What was read is a write of the history. *)
Definition read_of (σ : World) (k : string) (r : option StoredWriterLease) (w : option Write) : Prop :=
  match w with
  | None => r = None
  | Some w => r = Some (stored_of w) ∧ w_time w ≤ wd_time σ ∧ ∃ a, log_at σ k !! a = Some w
  end.

Lemma read_of_quiet σ σ' k r w : k ≠ clock → quiet σ σ' → read_of σ k r w → read_of σ' k r w.
Proof.
  intros Hk Hq. destruct w as [w|]; [|done]. intros (-> & Ht & [a Ha]). apply quiet_time in Hq as Ht'.
  split_and!; [done|lia|]. exists a. by eapply quiet_entry.
Qed.

Lemma wp_read_stored k t σ Φ : k ≠ clock →
  (∀ r σ', quiet σ σ' → runs σ' →
    match r with Ok r => ∃ w, read_of σ' k r w | Err _ => True end → Φ r t σ') →
  wp (read_stored os_error_text k) Φ t σ.
Proof.
  intros Hk H. unfold read_stored, os_get. apply wp_seq. apply wp_get. intros σ1 r Hq1 Hr1 Hv.
  apply wp_ret. intros σ2 Hq2 Hr2.
  assert (∀ (r : Result (option StoredWriterLease)), 
    match r with Ok r => ∃ w, read_of σ1 k r w | Err _ => True end → wp (Ret r) Φ t σ2) as Hret.
  { intros r0 H0. apply wp_ret. intros σ3 Hq3 Hr3. apply H; [by do 2 (etrans; [eassumption|])|done|].
    destruct r0 as [r0|]; [|done]. destruct H0 as [w Hw]. exists w.
    eapply read_of_quiet; [done| |exact Hw]. by etrans. }
  destruct r as [[m [value|e]]|[]]; try by apply Hret.
  - cbn [map_err lift mbind task_mbind prog_bind].
    destruct (decode_writer_lease k value) as [l|] eqn:Ed; [|by apply Hret].
    cbn [prog_bind]. apply Hret. pose proof (gd_object _ _ _ (proj1 Hr1) k Hk) as Ho. unfold object_ok in Ho.
    destruct (last (log_at σ1 k)) as [w|] eqn:El; [|congruence].
    destruct Ho as (m' & x & E & Ed' & Em & Es). rewrite Hv in E. injection E as <- <-. rewrite Ed in Ed'. injection Ed' as ->.
    rewrite last_lookup in El. exists (Some w). split; [unfold stored_of; by rewrite Em, Es|]. split; [|by eexists].
    by apply (ho_started _ _ (gd_history _ _ _ (proj1 Hr1) k Hk) _ _ El).
  - apply Hret. by exists None.
Qed.

(** The directory but for what it observed. *)
Definition same_leases (d d' : Directory) : Prop :=
  d_local d' = d_local d ∧ d_abandoned d' = d_abandoned d ∧ d_scope_users d' = d_scope_users d.

Lemma same_enters d d' : same_leases d d' → enters d d'.
Proof. intros (El & _ & Eu). split; [by rewrite Eu|]. rewrite El. by left. Qed.

Lemma wp_update f Φ t σ :
  (∀ σ', quiet σ σ' → runs σ' → directory_ok (wd_time σ') (log_at σ') cfg (f (dir_of i σ')) ∧ enters (dir_of i σ') (f (dir_of i σ'))) →
  (∀ σ', quiet σ σ' → runs σ' → Φ (Ok tt) t σ') →
  wp (update f) Φ t σ.
Proof.
  intros Hd H. unfold update, critical. apply wp_critical. intros σ1 Hq1 Hr1. destruct (Hd σ1 Hq1 Hr1).
  split; [done|]. split; [done|]. intros σ2 Hq2 Hr2 _ _ _. apply wp_ret. intros σ3 Hq3 Hr3.
  apply H; [etrans; [exact Hq1|by etrans]|done].
Qed.

(** Looking at the directory. *)
Lemma wp_look {B} (f : N → Directory → B) Φ t σ :
  (∀ σ1 σ', quiet σ σ1 → runs σ1 → quiet σ1 σ' → runs σ' → Φ (Ok (f (wd_time σ1) (dir_of i σ1))) t σ') →
  wp (critical (λ now d, (d, f now d))) Φ t σ.
Proof.
  intros H. unfold critical. apply wp_critical. intros σ1 Hq1 Hr1. split; [by apply runs_directory|].
  split; [by apply same_enters|]. intros σ2 Hq2 Hr2 Ed Et El. apply wp_ret. intros σ3 Hq3 Hr3.
  apply H; [done|done|by etrans|done].
Qed.

Lemma wp_time Φ t σ :
  (∀ σ1 σ', quiet σ σ1 → runs σ1 → quiet σ1 σ' → runs σ' → Φ (Ok (wd_time σ1)) (wd_time σ1) σ') →
  wp now Φ t σ.
Proof. intros H. unfold now. apply wp_now. intros σ1 Hq1 Hr1. apply wp_ret. intros σ2 Hq2 Hr2. by apply (H σ1). Qed.

Lemma wp_lift {A} (r : Result A) Φ t σ :
  (∀ σ', quiet σ σ' → runs σ' → Φ r t σ') → wp (lift r) Φ t σ.
Proof. intros. by apply wp_ret. Qed.

(** What is kept of observations stays honest. *)
Lemma directory_ok_observed now log d f : directory_ok now log cfg d →
  (∀ k e, k ≠ clock → f (d_observed d) !! k = Some e → d_observed d !! k = Some e ∨ honest now (log k) e) →
  directory_ok now log cfg (on_observed f d).
Proof. intros [H1 H2 H3] Hf. split; [done..|]. intros k e Hk He. destruct (Hf k e Hk He); [by apply H3|done]. Qed.

Lemma evict_observed_lookup path k observed e : evict_observed path observed !! k = Some e → observed !! k = Some e.
Proof. unfold evict_observed. repeat case_match; try done. by intros [_ ?]%lookup_delete_Some. Qed.

(** The server's time is no later than the task's own by more than the lag. *)
Lemma wp_probe t σ Φ :
  (∀ r σ', quiet σ σ' → runs σ' →
    match r with Ok z => ∃ T, T ≤ t + lag ∧ z = ls_stamp T | Err _ => True end → Φ r t σ') →
  wp (probe_server_time path_of os_error_text cfg) Φ t σ.
Proof.
  intros H. unfold probe_server_time. apply wp_seq. unfold critical. apply wp_critical.
  intros σ1 Hq1 Hr1. split. { pose proof (runs_directory _ Hr1) as [? ? ?]. by split. }
  split; [by apply same_enters|]. intros σ2 Hq2 Hr2 _ _ _.
  assert (clock_path path_of cfg = clock) as Ecl by (unfold clock_path, clock_key; by rewrite (rooted base)).
  apply wp_ret. intros σ3 Hq3 Hr3. rewrite Ecl. unfold os_put. apply wp_seq.
  apply wp_put_clock. intros σ4 r Hq4 Hr4. apply wp_ret. intros σ5 Hq5 Hr5.
  apply wp_seq, wp_lift. intros σ6 Hq6 Hr6. destruct r as [u|e]; cbn [map_err].
  2: { apply wp_ret. intros σ7 Hq7 Hr7. apply H; [settle|done..]. }
  apply wp_seq. unfold os_head. apply wp_head. intros σ7 r Hq7 Hr7 Hh.
  apply wp_ret. intros σ8 Hq8 Hr8. apply wp_seq, wp_lift. intros σ9 Hq9 Hr9.
  destruct r as [m|e]; cbn [map_err]; apply wp_ret; intros σ10 Hq10 Hr10; (apply H; [settle|done..|]); [|done].
  destruct Hh as (T & Htt & ->). exists T. split; [lia|done].
Qed.

(** ** How long a lease still runs *)

Lemma durable_age_le z z' d : ((z - z') * Z.of_N MILLI ≤ Z.of_N d)%Z → durable_age z z' ≤ d.
Proof. unfold durable_age, from_millis, MILLI, i64_min, i64_max. lia. Qed.

Lemma full_duration w : u64_ok (dw_duration_ms (w_lease w)) →
  duration_saturating_add (from_millis (dw_duration_ms (w_lease w))) SERVER_TIMESTAMP_RESOLUTION_GUARD
  = from_millis (dw_duration_ms (w_lease w)) + SECOND.
Proof.
  unfold duration_saturating_add, from_millis, DURATION_MAX, SERVER_TIMESTAMP_RESOLUTION_GUARD, u64_ok, u64_max, MILLI, SECOND.
  lia.
Qed.

(** The server's clock is read within the guard the code adds to a duration. *)
Context (Hlag : lag + ls_resolution + 2 * MILLI ≤ SECOND).

(** What an observation leaves is no less than what the lease has left. *)
Lemma observed_enough w n T : w_started w ≤ w_time w → w_time w ≤ n → T ≤ n + lag →
  u64_ok (dw_duration_ms (w_lease w)) →
  expiry w + MILLI ≤ n + saturating_sub
    (duration_saturating_add (sw_duration (stored_of w)) SERVER_TIMESTAMP_RESOLUTION_GUARD)
    (durable_age (ls_stamp T) (sw_last_modified_ms (stored_of w))).
Proof.
  intros Hst Hn HT Hd. cbn [stored_of sw_duration sw_last_modified_ms]. rewrite full_duration by done.
  assert (durable_age (ls_stamp T) (ls_stamp (w_time w)) ≤ n + lag + ls_resolution - w_time w) as Ha.
  { apply durable_age_le. destruct (decide (w_time w ≤ T)) as [Hle|Hgt].
    - pose proof (stamp_elapsed (w_time w) T Hle). lia.
    - assert (T ≤ w_time w) as Hle by lia. apply stamp_mono in Hle. unfold MILLI. lia. }
  unfold expiry, saturating_sub, MILLI, SECOND in *. lia.
Qed.

(** Fingerprints tell the writes of an object apart. *)
Lemma fingerprint_inj σ k a b w w' : good σ → k ≠ clock → log_at σ k !! a = Some w → log_at σ k !! b = Some w' →
  fingerprint_of (w_lease w) = fingerprint_of (w_lease w') → w = w'.
Proof.
  intros Hg Hk Ha Hb [=_ _ _ Eh _ _]. pose proof (gd_history _ _ _ Hg k Hk) as Hh. pose proof (gd_bounded _ _ _ Hg k Hk).
  rewrite (ho_heartbeat _ _ Hh _ _ Ha), (ho_heartbeat _ _ Hh _ _ Hb) in Eh.
  pose proof (lookup_lt_Some _ _ _ Ha). pose proof (lookup_lt_Some _ _ _ Hb).
  assert (a = b) as -> by lia. congruence.
Qed.

Lemma stored_fingerprint_of w : u64_ok (dw_duration_ms (w_lease w)) →
  stored_fingerprint (stored_of w) = fingerprint_of (w_lease w).
Proof.
  intros Hd. unfold stored_fingerprint, fingerprint_of, stored_of, millis_u64, as_millis, from_millis. cbn.
  rewrite N.div_mul by done. by rewrite N.min_l.
Qed.

Lemma millis_zero d : millis_u64 d = 0 → d < MILLI.
Proof.
  unfold millis_u64, as_millis. intros H. assert (d / MILLI = 0) as H0 by (unfold u64_max in H; lia).
  by apply N.div_small_iff in H0.
Qed.

Lemma wp_shared_remaining k w t σ Φ : k ≠ clock →
  (∃ a, log_at σ k !! a = Some w) → dw_released (w_lease w) = false →
  (∀ r t' σ', quiet σ σ' → runs σ' → (r = Ok 0 → expiry w ≤ wd_time σ') → Φ r t' σ') →
  wp (shared_remaining_ms path_of os_error_text cfg k (stored_of w)) Φ t σ.
Proof.
  intros Hk [a Ha] Hrel H. unfold shared_remaining_ms. apply wp_seq, wp_time.
  intros σ1 σ2 Hq1 Hr1 Hq2 Hr2. set (n := wd_time σ1) in *.
  assert (∀ σ', quiet σ σ' → log_at σ' k !! a = Some w) as Hlog by (intros σ' Hq; by eapply quiet_entry).
  pose proof (gd_history _ _ _ (proj1 Hr1) k Hk) as Hh.
  destruct (lo_duration _ (ho_lease _ _ Hh _ _ (Hlog _ Hq1))) as [_ Hd]. destruct (ho_started _ _ Hh _ _ (Hlog _ Hq1)) as [Hst Hwt].
  clear Hh. fold n in Hwt. apply wp_seq, wp_look. intros σ3 σ4 Hq3 Hr3 Hq4 Hr4.
  assert (n ≤ wd_time σ3) as Ht3. { apply quiet_time in Hq2, Hq3. subst n. lia. }
  assert (quiet σ σ3) as Hq03 by settle.
  assert (∀ r t' σ0 σ', quiet σ σ0 → quiet σ0 σ' → runs σ' →
    (r = Ok 0 → expiry w ≤ wd_time σ0) → Φ r t' σ') as Hfin.
  { intros r t' σ0 σ' ? Hq' ? Hx. apply H; [by etrans|done|]. intros Er. apply quiet_time in Hq'. specialize (Hx Er). lia. }
  case_match eqn:Ehit.
  - apply wp_ret. intros σ5 Hq5 Hr5. eapply (Hfin _ _ σ3); [done|settle|done|]. intros [=Er].
    destruct (d_observed (dir_of i σ3) !! k) as [e|] eqn:Ee; [|done]. case_bool_decide as Ef; [|done].
    injection Ehit as <-. destruct (do_observed _ _ _ _ _ _ (runs_directory _ Hr3) k e Hk Ee) as (Hob & b & w' & Hw' & Ef' & Hx).
    rewrite Ef, stored_fingerprint_of in Ef' by done.
    assert (w = w') as <- by (by eapply fingerprint_inj; [apply Hr3|exact Hk|by apply Hlog| |]).
    specialize (Hx Hrel). apply millis_zero in Er. unfold saturating_sub in Er. lia.
  - apply wp_seq, wp_probe. intros r σ5 Hq5 Hr5 Hz. destruct r as [z|e].
    2: { apply wp_ret. intros σ6 Hq6 Hr6. by eapply (Hfin _ _ σ5); [settle|..]. }
    destruct Hz as (T & HT & ->). set (remaining := saturating_sub _ _).
    assert (expiry w + MILLI ≤ n + remaining) as Hrem by by apply observed_enough. clearbody remaining.
    apply wp_seq, wp_update.
    + intros σ6 Hq6 Hr6. split; [|by apply same_enters]. apply directory_ok_observed; [by apply runs_directory|].
      intros k' e Hk' He.
      apply lookup_insert_Some in He as [[<- <-]|[_ He]]; [right|left; by eapply evict_observed_lookup].
      split; cbn. { apply quiet_time in Hq4, Hq5, Hq6. lia. }
      exists a, w. split; [apply Hlog; settle|]. split; [by apply stored_fingerprint_of|done].
    + intros σ6 Hq6 Hr6. apply wp_ret. intros σ7 Hq7 Hr7.
      eapply (Hfin _ _ σ3); [done|settle|done|]. intros [=Er%millis_zero]. lia.
Qed.
End specs.
#[global] Arguments fresh {O} i cfg role k l started σ.
