(* ===== verification/LeaseOps.v ===== *)
(** [LeaseOps]: acquiring, renewing and releasing, from the rules of [LeaseSpecs]:
    every operation of a directory keeps the world as [LeaseLogic] says, and keeps
    to what its role may do. *)

From S2P Require Import Prelude Text TextFacts Errors Model Namespace IndexStore Lease LeaseSystem LeaseLogic LeaseRules LeaseSpecs.

Local Open Scope N_scope.

Import lease.

Section ops.
Context {O : LeaseStore} {L : LeaseStoreLaws O}.
Context (path_of : string → string) (os_error_text : LeaseOsError → string).
Context (base : string) (lag : N).
Context (Hlag : lag + ls_resolution + 2 * MILLI ≤ SECOND).
Context {Hpaths : LeasePaths path_of base}.
Context (i : nat) (cfg : Config) {Hroot : Rooted base cfg} (Hdur : SECOND ≤ lease_duration cfg).
Local Abbreviation clock := (clock_key path_of base).
Local Abbreviation own := (holder_id cfg).
Local Abbreviation directory_ok := (directory_ok path_of base).
Local Abbreviation runs := (runs path_of base i cfg).
Local Abbreviation lease_path := (lease_path path_of cfg).

Lemma lease_key scope cell_id : lease_path scope cell_id ≠ clock.
Proof. apply (paths_clock path_of base), rooted, Hroot. Qed.

(** Whatever the result, whatever the world then is. *)
Definition always {A} (Φ : Result A → N → World → Prop) : Prop := ∀ r t σ, runs σ → Φ r t σ.

(** * Directories *)

Lemma directory_ok_sub now log d d' : directory_ok now log cfg d →
  (∀ k l, d_local d' !! k = Some l → d_local d !! k = Some l) →
  (∀ k l, d_abandoned d' !! k = Some l → d_abandoned d !! k = Some l) →
  d_observed d' = d_observed d → directory_ok now log cfg d'.
Proof. intros [H1 H2 H3] Hl Ha Ho. split; [eauto..|by rewrite Ho]. Qed.

Section role.
Context (role : Role).
Local Abbreviation wp := (wp path_of base lag i cfg role).
Local Abbreviation quiet := (quiet path_of base i cfg role).
Local Abbreviation enters := (enters path_of cfg role).

Lemma enters_sub d d' : d_scope_users d' = d_scope_users d →
  (∀ k l, d_local d' !! k = Some l → d_local d !! k = Some l) → enters d d'.
Proof. intros Eu Hl. split; [by rewrite Eu|auto]. Qed.

Lemma wp_always_ret {A} (r : Result A) Φ t σ : always Φ → wp (Ret r) Φ t σ.
Proof. intros HΦ. eapply wp_ret. intros σ' _ Hr. by apply HΦ. Qed.

(** Leases that only leave. *)
Lemma wp_shrink f Φ t σ :
  (∀ d, (∀ k l, d_local (f d) !! k = Some l → d_local d !! k = Some l) ∧
    (∀ k l, d_abandoned (f d) !! k = Some l → d_abandoned d !! k = Some l) ∧
    d_observed (f d) = d_observed d ∧ d_scope_users (f d) = d_scope_users d) →
  (∀ σ', quiet σ σ' → runs σ' → Φ (Ok tt) t σ') → wp (update f) Φ t σ.
Proof.
  intros Hf H. eapply wp_update; [|exact H]. intros σ' Hq Hr. destruct (Hf (dir_of i σ')) as (H1 & H2 & H3 & H4).
  split; [|by apply enters_sub]. eapply directory_ok_sub; [exact (runs_directory _ Hr)|done..].
Qed.

Lemma wp_drop_local {B} k (K : unit → Task B) Φ t σ :
  (∀ σ', quiet σ σ' → runs σ' → wp (K tt) Φ t σ') →
  wp (update (on_local (delete k)) ≫= K) Φ t σ.
Proof.
  intros H. apply wp_seq. apply wp_shrink; [|exact H]. intros d. split_and!; try done.
  intros k' l; cbn; by intros [_ ?]%lookup_delete_Some.
Qed.
Lemma wp_drop_abandoned {B} k (K : unit → Task B) Φ t σ :
  (∀ σ', quiet σ σ' → runs σ' → wp (K tt) Φ t σ') →
  wp (update (on_abandoned (delete k)) ≫= K) Φ t σ.
Proof.
  intros H. apply wp_seq. apply wp_shrink; [|exact H]. intros d. split_and!; try done.
  intros k' l; cbn; by intros [_ ?]%lookup_delete_Some.
Qed.

(** * Before a write *)

Lemma wp_refuse k node_id cell_id r w t σ Φ : k ≠ clock → read_of σ k r w →
  (∀ res t' σ', quiet σ σ' → runs σ' →
    (res = Ok tt → match w with
     | Some w => dw_released (w_lease w) = true ∨
         (dw_node_id (w_lease w) = node_id ∧ dw_holder_id (w_lease w) = own) ∨ expiry w ≤ wd_time σ'
     | None => True end) → Φ res t' σ') →
  wp (refuse_other_owner path_of os_error_text cfg k node_id cell_id r) Φ t σ.
Proof.
  intros Hk Hw H. unfold refuse_other_owner. destruct w as [w|]; cbn in Hw.
  2: { subst r. eapply wp_ret. intros σ' Hq Hr. by apply H. }
  destruct Hw as (-> & _ & Ha). cbn [stored_of sw_released sw_node_id sw_holder_id].
  destruct (dw_released (w_lease w)) eqn:Erel.
  { eapply wp_ret. intros σ' Hq Hr. apply H; [done|done|]. by left. }
  apply wp_seq. eapply wp_shared_remaining; [done..|]. intros r t1 σ1 Hq1 Hr1 Hz.
  destruct r as [r|e].
  2: { eapply wp_ret. intros σ' Hq Hr. apply H; [by etrans|done..]. }
  case_match eqn:Ec.
  - eapply wp_drop_local. intros σ2 Hq2 Hr2. eapply wp_drop_abandoned.
    intros σ3 Hq3 Hr3. eapply wp_ret. intros σ4 Hq4 Hr4. apply H; [settle|done..].
  - eapply wp_ret. intros σ' Hq Hr. apply H; [by etrans|done|]. intros _. right.
    apply andb_false_iff in Ec as [Ec|Ec].
    + right. apply N.ltb_ge in Ec. assert (r = 0) as -> by lia. specialize (Hz eq_refl).
      apply quiet_time in Hq. lia.
    + left. apply negb_false_iff, andb_prop in Ec as [E1 E2]. by apply bool_decide_eq_true in E1, E2.
Qed.

(** The lease that follows what was read. *)
Lemma acquired_lease node_id t σ k r w payload : runs σ → k ≠ clock → t ≤ wd_time σ →
  match w with Some w => w_time w ≤ t | None => True end → read_of σ k r w →
  match w with
  | Some w => dw_released (w_lease w) = true ∨
      (dw_node_id (w_lease w) = node_id ∧ dw_holder_id (w_lease w) = own) ∨ expiry w ≤ wd_time σ
  | None => True end →
  encode_writer_lease node_id own (next_generation cfg node_id r) (next_heartbeat r) (lease_duration cfg) false = Ok payload →
  let l := MkDecoded node_id own (next_generation cfg node_id r) (next_heartbeat r) (as_millis (lease_duration cfg)) false in
  decode_writer_lease k payload = Ok l ∧ next_write i cfg t σ k w l ∧ as_millis (lease_duration cfg) ≤ u64_max.
Proof.
  intros (Hg & _) Hk Ht Hwt Hw Hnext He l.
  assert (MILLI ≤ lease_duration cfg) as HD by (unfold MILLI, SECOND in *; lia).
  assert (0 < next_generation cfg node_id r ∧ u64_ok (next_generation cfg node_id r) ∧
          0 < next_heartbeat r ∧ u64_ok (next_heartbeat r)) as (Hgen & Hgen' & Hhb & Hhb').
  { destruct w as [w|]; cbn in Hw; [|by subst r].
    destruct Hw as (-> & _ & a & Ha). destruct (ho_lease _ _ (gd_history _ _ _ Hg k Hk) _ _ Ha) as [_ _ [? ?] [? ?] _].
    unfold next_generation, next_heartbeat, stored_of, u64_ok, saturating_add in *. cbn. destruct (negb _ && _ && _); unfold u64_max in *; lia. }
  destruct (encode_decoded k _ _ _ _ _ _ _ He) as [Hd Hl]; try done.
  split; [done|]. split; [|by apply encode_lines in He as (_ & _ & _ & ?)].
  split; try done; cbn. destruct w as [w|]; cbn in Hw; [|by subst r].
  destruct Hw as (-> & _ & a & Ha). split; [by exists a|]. split; [done|]. split; [done|]. intros w' El Ht'.
  unfold handover, generation_step, same_owner. rewrite El. subst l. unfold next_generation, same_holder. cbn.
  destruct (dw_released (w_lease w)) eqn:Erel.
  - split; [by left|]. right. split; [done|by left].
  - cbn. split.
    + destruct Hnext as [?|[[? ?]|?]]; [done|right; left; by split|right; right; lia].
    + destruct (bool_decide (dw_node_id (w_lease w) = node_id) && _) eqn:E.
      2: { right. split; [done|]. right. intros [E1 E2]. by rewrite !bool_decide_true in E. }
      apply andb_prop in E as [E1 E2]. apply bool_decide_eq_true in E1, E2. by left.
Qed.

Lemma wp_validate {B} field value (K : unit → Task B) t σ Φ : always Φ →
  (component_ok value = true → ∀ σ', wp (K tt) Φ t σ') → wp (lift (validate_component field value) ≫= K) Φ t σ.
Proof.
  intros HΦ H. apply wp_seq, wp_lift. intros σ' _ _.
  destruct (validate_component field value) as [[]|e] eqn:E; [|by apply wp_always_ret]. apply validate_component_ok' in E. by apply H.
Qed.

(** The observation of a write of one's own. *)
Lemma wp_observe_last k l started t σ Φ : k ≠ clock → written k l started σ →
  (∀ σ', quiet σ σ' → runs σ' → Φ (Ok tt) t σ') →
  wp (observe_successful_write k (fingerprint_of l) started) Φ t σ.
Proof.
  intros Hk Hl H. unfold observe_successful_write, fingerprint_of. apply wp_update; [|exact H].
  intros σ1 Hq1 Hr1. split; [|by apply same_enters]. apply directory_ok_observed; [exact (runs_directory _ Hr1)|].
  intros k' e Hk' He. apply lookup_insert_Some in He as [[<- <-]|[_ He]]; [right|by left].
  destruct (written_quiet _ _ _ _ _ Hk Hq1 Hl) as (a & w & Ha & El & Es).
  pose proof (gd_history _ _ _ (proj1 Hr1) k Hk) as Hh. destruct (ho_started _ _ Hh _ _ Ha) as [Hst Ht].
  destruct (lo_duration _ (ho_lease _ _ Hh _ _ Ha)) as [_ Hd]. split; cbn; [lia|].
  exists a, w. split; [done|]. split; [by rewrite El|]. rewrite <- El. intros ->.
  rewrite full_duration by done. unfold expiry, MILLI, SECOND. lia.
Qed.

Lemma wp_observe {B} k l started (K : unit → Task B) t σ Φ : k ≠ clock → written k l started σ →
  (∀ σ', quiet σ σ' → runs σ' → wp (K tt) Φ t σ') →
  wp (observe_successful_write k (fingerprint_of l) started ≫= K) Φ t σ.
Proof. intros. apply wp_seq. by apply wp_observe_last. Qed.

(** * Acquiring *)

Section acquiring.
Context (scope : GraphScope) (cell_id node_id : string) (force_renew : bool).
Context (Hrole : role = (if force_renew then Renewing else Acquiring) scope cell_id node_id).
Context (Hcell : valid_cell scope cell_id).
Local Abbreviation k := (lease_path scope cell_id).

(** The task's own write, which its process has not undone. *)
Definition own_write (l : DecodedWriterLease) (started : N) (σ : World) : Prop :=
  written k l started σ ∧ fresh i cfg role k l started σ.

Lemma own_write_quiet l started σ1 σ2 : dw_node_id l = node_id → quiet σ1 σ2 → own_write l started σ1 → own_write l started σ2.
Proof.
  intros Hn Hq [Hw Hf]. split; [by eapply written_quiet; [apply lease_key| |]|].
  eapply (fresh_quiet scope cell_id); [done..| | |exact Hf]; [|exact Hq]. rewrite Hrole, Hn. destruct force_renew; auto.
Qed.

Lemma wp_put_current payload r w l t σ Φ : read_of σ k r w → dw_node_id l = node_id → dw_released l = false →
  (∀ σ', quiet σ σ' → runs σ' → next_write i cfg t σ' k w l) → decode_writer_lease k payload = Ok l →
  (∀ res σ', quiet σ σ' → runs σ' → (res = Ok (Ok tt) → own_write l t σ') →
    res ≠ Ok (Err OsNotImplemented) → Φ res t σ') →
  wp (put_lease cfg k payload node_id r) Φ t σ.
Proof.
  intros Hw Hnode Hrel Hn Hd H. unfold put_lease.
  assert (match r with Some stored => PutUpdate (sw_version stored) | None => PutCreate end = mode_of w) as ->.
  { destruct w as [w|]; cbn in Hw; [by destruct Hw as [-> _]|by subst r]. }
  apply wp_seq. unfold os_put. eapply wp_put_lease; [apply lease_key| |exact Hd|].
  { intros σ1 Hq1 Hr1. split; [by apply Hn|congruence]. }
  intros σ1 res Hq1 Hr1 Hni Hown. apply wp_ret. intros σ2 Hq2 Hr2.
  destruct res as [[]|[]]; try done; apply wp_ret; intros σ3 Hq3 Hr3; (apply H; [settle|done|..]; [|done]); try done.
  intros _. eapply own_write_quiet; [done| |by apply Hown]. settle.
Qed.

(** The lease of that write, in the directory. *)
Lemma own_write_backed l started σ lease : own_write l started σ →
  match role with Renewing s c n => is_Some (d_scope_users (dir_of i σ) !! (s, n)) | _ => True end →
  dw_released l = false → dw_holder_id l = own → dw_node_id l = lw_node_id lease → dw_generation l = lw_generation lease →
  lw_valid_until lease ≤ started + from_millis (dw_duration_ms l) + MILLI → backed own (log_at σ k) lease.
Proof.
  intros [_ Hf] Hu Hr Hh Hn Hg Hv. destruct (Hf Hu) as (a & w & Ha & <- & <- & Hb). exists a, w.
  split; [done|]. split; [by split|]. split; [done|]. split; [done|].
  intros b w' Hab Hb' Hw' _. destruct (decide (a = b)) as [->|]; [congruence|].
  apply (Hb b w'); [lia|done|]. by rewrite Hn.
Qed.

Lemma directory_ok_keep now log lease d : directory_ok now log cfg d → placed path_of cfg k lease →
  backed own (log k) lease → directory_ok now log cfg (on_local (insert k lease) d).
Proof.
  intros [H1 H2 H3] Hp Hb. split; [|done..]. intros k' l Hl. cbn in Hl.
  apply lookup_insert_Some in Hl as [[<- <-]|[_ Hl]]; [done|by apply H1].
Qed.

Lemma wp_keep_local {B} generation valid_until l started (K : unit → Task B) t σ Φ :
  dw_released l = false → dw_holder_id l = own → dw_node_id l = node_id → dw_generation l = generation →
  valid_until ≤ started + from_millis (dw_duration_ms l) + MILLI → own_write l started σ →
  always Φ → (∀ t' σ', runs σ' → wp (K tt) Φ t' σ') →
  wp (keep_local force_renew k (MkLocal scope cell_id node_id generation valid_until) ≫= K) Φ t σ.
Proof.
  intros Hrel Hh Hn Hgen Hv Hw HΦ HK. set (lease := MkLocal _ _ _ _ _).
  assert (placed path_of cfg k lease) as Hpl by done.
  assert (∀ σ', quiet σ σ' → (if force_renew then is_Some (d_scope_users (dir_of i σ') !! (scope, node_id)) else True) →
    backed own (log_at σ' k) lease) as Hb.
  { intros σ' Hq Hu. eapply own_write_backed; [by eapply own_write_quiet| |done..]. rewrite Hrole. by destruct force_renew. }
  unfold keep_local. destruct force_renew; cbn [lw_scope lw_node_id lease].
  - apply wp_seq, wp_seq. unfold critical. apply wp_critical. intros σ1 Hq1 Hr1.
    pose proof (runs_directory _ Hr1) as Hd. case_bool_decide as Hu; cbn.
    + split.
      { apply directory_ok_keep; [|done|by apply Hb]. eapply directory_ok_sub; [exact Hd|done| |done].
        intros k' l'; cbn; by intros [_ ?]%lookup_delete_Some. }
      split.
      { split; [done|]. intros k' l' Hl. cbn in Hl. apply lookup_insert_Some in Hl as [[<- <-]|[_ Hl]]; [right|by left].
        split; [done|]. right. by rewrite Hrole. }
      intros σ2 _ Hr2 _ _ _. apply wp_ret. intros σ3 _ Hr3. apply wp_ret. intros σ4 _ Hr4. by apply HK.
    + split; [done|]. split; [by apply same_enters|]. intros σ2 _ Hr2 _ _ _.
      apply wp_ret. intros σ3 _ Hr3. apply wp_ret. intros σ4 _ Hr4. by apply wp_always_ret.
  - apply wp_seq, wp_drop_abandoned. intros σ1 Hq1 Hr1. apply wp_update.
    + intros σ2 Hq2 Hr2. split.
      { apply directory_ok_keep; [exact (runs_directory _ Hr2)|done|]. apply Hb; [settle|done]. }
      split; [done|]. intros k' l' Hl. cbn in Hl. apply lookup_insert_Some in Hl as [[<- <-]|[_ Hl]]; [right|by left].
      split; [done|]. left. by rewrite Hrole.
    + intros σ2 Hq2 Hr2. by apply HK.
Qed.

Lemma wp_cas_attempts n t σ Φ : always Φ →
  wp (cas_attempts path_of os_error_text cfg n scope cell_id node_id force_renew) Φ t σ.
Proof.
  intros HΦ. revert t σ. induction n as [|n IH]; intros t σ; [by apply wp_always_ret|].
  cbn [cas_attempts]. apply wp_seq, wp_read_stored; [apply lease_key|]. intros r σ1 Hq1 Hr1 Hw.
  destruct r as [r|e]; [|by apply wp_always_ret]. destruct Hw as [w Hw].
  apply wp_seq. eapply wp_refuse; [apply lease_key|exact Hw|]. intros res t2 σ2 Hq2 Hr2 Hn.
  destruct res as [[]|e]; [|by apply wp_always_ret]. specialize (Hn eq_refl).
  apply wp_seq, wp_lift. intros σ3 Hq3 Hr3.
  destruct (encode_writer_lease node_id own (next_generation cfg node_id r) (next_heartbeat r) (lease_duration cfg) false)
    as [payload|e] eqn:He; [|by apply wp_always_ret].
  apply wp_seq, wp_time. intros σ4 σ5 Hq4 Hr4 Hq5 Hr5.
  assert (∀ σ', quiet σ5 σ' → runs σ' → decode_writer_lease k payload = Ok (MkDecoded node_id own
    (next_generation cfg node_id r) (next_heartbeat r) (as_millis (lease_duration cfg)) false) ∧
    next_write i cfg (wd_time σ4) σ' k w (MkDecoded node_id own
    (next_generation cfg node_id r) (next_heartbeat r) (as_millis (lease_duration cfg)) false) ∧
    as_millis (lease_duration cfg) ≤ u64_max) as Hnext.
  { intros σ' Hq Hr. eapply acquired_lease; [done|apply lease_key|..|exact He].
    - apply quiet_time in Hq, Hq5. lia.
    - destruct w as [w|]; [|done]. destruct Hw as (_ & Ht & _). apply quiet_time in Hq2, Hq3, Hq4. lia.
    - eapply read_of_quiet; [apply lease_key| |exact Hw]. settle.
    - destruct w as [w|]; [|done]. destruct Hn as [?|[?|?]]; [by left|by right; left|]. right; right.
      apply quiet_time in Hq3, Hq4, Hq5, Hq. lia. }
  destruct (Hnext σ5) as (Hd & _ & Hms); [done..|]. set (l := MkDecoded _ _ _ _ _ _) in *.
  apply wp_seq. eapply (wp_put_current payload r w l); [|done|done|by intros; apply Hnext|done|].
  { eapply read_of_quiet; [apply lease_key| |exact Hw]. settle. }
  intros res σ6 Hq6 Hr6 Hown _. destruct res as [res|e]; [|by apply wp_always_ret].
  destruct res as [[]|[]]; try (by apply wp_always_ret); try (by apply IH).
  specialize (Hown eq_refl). apply wp_seq, wp_time. intros σ7 σ8 Hq7 Hr7 Hq8 Hr8.
  destruct (_ <=? wd_time σ7); [by apply IH|].
  assert (millis_u64 (lease_duration cfg) = as_millis (lease_duration cfg)) as -> by (unfold millis_u64; lia).
  change (node_id, own, next_generation cfg node_id r, next_heartbeat r, as_millis (lease_duration cfg), false)
    with (fingerprint_of l).
  assert (own_write l (wd_time σ4) σ8) as Hown8 by (eapply own_write_quiet; [done| |exact Hown]; settle).
  apply wp_observe; [apply lease_key|apply Hown8|]. intros σ9 Hq9 Hr9.
  eapply (wp_keep_local _ _ l (wd_time σ4)); [done..| |by eapply own_write_quiet|done|].
  - cbn. unfold from_millis, as_millis, MILLI. pose proof (N.div_mod' (lease_duration cfg) 1000000).
    pose proof (N.mod_lt (lease_duration cfg) 1000000). lia.
  - intros t' σ' Hr'. by apply wp_always_ret.
Qed.
End acquiring.

Lemma wp_acquire scope cell_id node_id (force_renew : bool) t σ Φ :
  role = (if force_renew then Renewing else Acquiring) scope cell_id node_id → scope_wf scope → always Φ →
  wp (acquire_or_renew_inner path_of os_error_text cfg scope cell_id node_id force_renew) Φ t σ.
Proof.
  intros Hrole Hscope HΦ. unfold acquire_or_renew_inner. apply wp_validate; [done|]. intros Hcell σ1.
  assert (valid_cell scope cell_id) by done.
  do 2 (apply wp_validate; [done|]; intros _ ?).
  destruct force_renew; apply wp_seq, wp_look; intros σ4 σ5 _ _ _ Hr5.
  - destruct (holds_valid_local _ _ _ _ _ _ _); [by apply wp_cas_attempts|]. apply wp_drop_local. intros σ6 _ Hr6. by apply wp_always_ret.
  - destruct (d_local _ !! _) as [lease|]; [destruct (valid_at _ _ _)|]; [by apply wp_always_ret|by apply wp_cas_attempts..].
Qed.

Lemma wp_renew_one node_id lease t σ Φ : role = Renewing (lw_scope lease) (lw_cell_id lease) node_id → scope_wf (lw_scope lease) → always Φ →
  wp (renew_one path_of os_error_text cfg node_id lease) Φ t σ.
Proof.
  intros Hrole Hscope HΦ. unfold renew_one. apply wp_seq, wp_attempt, wp_acquire; [done..|]. intros r t1 σ1 Hr1.
  apply wp_ret. intros σ2 _ Hr2. destruct r as [g|e]; [by apply wp_always_ret|].
  apply wp_seq, wp_look. intros σ3 σ4 _ _ _ Hr4.
  destruct (holds_valid_local _ _ _ _ _ _ _).
  - apply wp_seq, wp_ret. intros σ5 _ Hr5. by apply wp_always_ret.
  - apply wp_drop_local. intros σ5 _ Hr5. by apply wp_always_ret.
Qed.

(** * Looking *)

Lemma wp_current_owner scope cell_id t σ Φ : always Φ →
  wp (current_owner path_of os_error_text cfg scope cell_id) Φ t σ.
Proof.
  intros HΦ. unfold current_owner. apply wp_validate; [done|]. intros _ σ1. apply wp_seq, wp_read_stored; [apply lease_key|].
  intros r σ2 Hq2 Hr2 Hw. destruct r as [r|e]; [|by apply wp_always_ret]. destruct Hw as [[w|] Hw]; cbn in Hw.
  - destruct Hw as (-> & _ & Ha). cbn [stored_of sw_released]. destruct (dw_released (w_lease w)) eqn:Er; [by apply wp_always_ret|].
    apply wp_seq, (wp_shared_remaining Hlag); [apply lease_key|done|done|].
    intros [n|e] t3 σ3 _ Hr3 _; by apply wp_always_ret.
  - subst r. by apply wp_always_ret.
Qed.

Lemma wp_holds_abandoned scope cell_id node_id t σ Φ : always Φ →
  wp (holds_abandoned_local path_of cfg scope cell_id node_id) Φ t σ.
Proof.
  intros HΦ. unfold holds_abandoned_local, critical. apply wp_critical. intros σ1 _ Hr1.
  pose proof (runs_directory _ Hr1) as Hd. repeat case_match; simplify_eq;
    (split; [|split; [by apply enters_sub|intros σ2 _ Hr2 _ _ _; by apply wp_always_ret]]); try done.
  eapply directory_ok_sub; [exact Hd|done| |done]. intros k' l'; cbn; by intros [_ ?]%lookup_delete_Some.
Qed.

(** * Releasing *)

(** The object is the task's to release for the node. *)
Definition releasing (node_id k : string) (σ : World) : Prop :=
  match role with
  | ReleasingCell s c => k = lease_path s c ∧ d_local (dir_of i σ) !! k = None
  | ReleasingScope s n => n = node_id ∧ d_scope_users (dir_of i σ) !! (s, n) = None ∧
      (∀ k' l, d_local (dir_of i σ) !! k' = Some l → ¬ of_scope s n (k', l)) ∧
      ∃ c, valid_cell s c ∧ k = lease_path s c
  | _ => False
  end.

Lemma releasing_quiet node_id k σ1 σ2 : quiet σ1 σ2 → releasing node_id k σ1 → releasing node_id k σ2.
Proof.
  unfold releasing. intros [_ Hk]. destruct role as [| |s c|s n|]; try done; cbn in Hk.
  - intros [-> H]. split; [done|]. apply eq_None_not_Some. intros [l Hl%Hk]. congruence.
  - intros (Hn & [Hu' Hl']%Hk & Hl & Hc). split_and!; try done.
    intros k' l H [Hs Hnode]. cbn in Hs, Hnode. apply (Hl k' l); [by apply Hl'|done].
Qed.

Lemma releasing_may node_id k σ : runs σ → releasing node_id k σ → may_release path_of cfg role (dir_of i σ) k node_id ∧
  ∀ lease, d_local (dir_of i σ) !! k = Some lease → lw_node_id lease ≠ node_id.
Proof.
  unfold releasing, may_release. intros Hr. destruct role as [| |s c|s n|]; try done.
  - intros [-> H]. split; [done|]. intros lease ?. congruence.
  - intros (<- & Hu & Hl & c & Hc & ->). split; [split_and!; eauto|]. intros lease Hlease Hnode.
    apply (Hl _ _ Hlease). split; [|done]. destruct (do_local _ _ _ _ _ _ (runs_directory _ Hr) _ _ Hlease) as [[Hc' Hk] _].
    symmetry. by eapply (paths_scope path_of base); [apply Hroot|exact Hc|exact Hc'|].
Qed.

Lemma released_lease t σ k w payload : runs σ → k ≠ clock → t ≤ wd_time σ → w_time w ≤ t →
  (∃ a, log_at σ k !! a = Some w) → dw_holder_id (w_lease w) = own → releasing (dw_node_id (w_lease w)) k σ →
  let heartbeat := saturating_add (dw_heartbeat (w_lease w)) 1 in
  encode_writer_lease (dw_node_id (w_lease w)) own (dw_generation (w_lease w)) heartbeat
    (sw_duration (stored_of w)) true = Ok payload →
  let l := MkDecoded (dw_node_id (w_lease w)) own (dw_generation (w_lease w)) heartbeat (dw_duration_ms (w_lease w)) true in
  decode_writer_lease k payload = Ok l ∧ next_write i cfg t σ k (Some w) l ∧ u64_ok (dw_duration_ms (w_lease w)).
Proof.
  intros Hr Hk Ht Hwt [a Ha] Hh Hrel heartbeat He l. destruct (releasing_may _ _ _ Hr Hrel) as [_ Hl].
  pose proof Hr as (Hg & p & Hp & Hc).
  destruct (ho_lease _ _ (gd_history _ _ _ Hg k Hk) _ _ Ha) as [Hn _ [Hg1 Hg2] [Hb1 Hb2] [Hd1 Hd2]].
  assert (as_millis (sw_duration (stored_of w)) = dw_duration_ms (w_lease w)) as Ed
    by (cbn; unfold as_millis, from_millis; by rewrite N.div_mul).
  destruct (encode_decoded k _ _ _ _ _ _ _ He) as [Hd Hlo]; try done.
  { subst heartbeat. unfold saturating_add, u64_max. lia. }
  { subst heartbeat. unfold u64_ok, saturating_add. lia. }
  { cbn. unfold from_millis, MILLI. lia. }
  rewrite Ed in Hd, Hlo. split; [done|]. split; [|done]. split; try done; cbn.
  - rewrite <- Hc. by rewrite (po_writes _ _ _ _ _ (gd_process _ _ _ Hg _ _ Hp) k a w Hk Ha) by (unfold by_holder; congruence).
  - intros lease _. apply Hl.
  - split; [by exists a|]. split; [done|]. split; [done|]. intros w' El _. unfold handover, generation_step, same_owner.
    rewrite El. subst l. cbn. split; [right; left; by split|left]. by split_and!.
Qed.

Lemma wp_release_attempts n k node_id generation t σ Φ : k ≠ clock → releasing node_id k σ →
  (∀ r t' σ', quiet σ σ' → runs σ' → Φ r t' σ') →
  wp (release_attempts os_error_text cfg n k node_id generation) Φ t σ.
Proof.
  intros Hk Hrel H. revert t σ Hrel H. induction n as [|n IH]; intros t σ Hrel H.
  all: assert (∀ r t' σ', quiet σ σ' → wp (Ret r) Φ t' σ') as Hret
    by (intros r t' σ' Hq; apply wp_ret; intros σ'' Hq' Hr; apply H; [by etrans|done]).
  { by apply Hret. }
  assert (∀ t' σ', quiet σ σ' → wp (release_attempts os_error_text cfg n k node_id generation) Φ t' σ') as Hagain.
  { intros t' σ' Hq. apply IH; [by eapply releasing_quiet|]. intros r t'' σ'' Hq'. apply H. by etrans. }
  cbn [release_attempts]. apply wp_seq, wp_read_stored; [done|]. intros r σ1 Hq1 Hr1 Hw.
  destruct r as [r|e]; [|by apply Hret]. destruct Hw as [[w|] Hw]; cbn in Hw; [|subst r; by apply Hret].
  destruct Hw as (-> & Hwt & Ha). cbn [stored_of sw_node_id sw_holder_id sw_generation sw_heartbeat sw_duration sw_version].
  destruct (negb _ || negb _ || negb _) eqn:Ec; [by apply Hret|].
  apply orb_false_iff in Ec as [[E1 E2]%orb_false_iff E3].
  apply negb_false_iff, bool_decide_eq_true in E1, E2. apply negb_false_iff, N.eqb_eq in E3.
  apply wp_seq, wp_lift. intros σ2 Hq2 Hr2.
  destruct (encode_writer_lease _ _ _ _ _ true) as [payload|e] eqn:He; [|apply Hret; settle]. rewrite <- E1, <- E3 in He.
  apply wp_seq, wp_time. intros σ3 σ4 Hq3 Hr3 Hq4 Hr4.
  assert (∀ σ', quiet σ4 σ' → quiet σ σ') as Hq04 by (intros; settle).
  set (l := MkDecoded (dw_node_id (w_lease w)) own (dw_generation (w_lease w))
    (saturating_add (dw_heartbeat (w_lease w)) 1) (dw_duration_ms (w_lease w)) true).
  assert (∀ σ', quiet σ4 σ' → runs σ' → releasing (dw_node_id (w_lease w)) k σ' ∧ decode_writer_lease k payload = Ok l ∧
    next_write i cfg (wd_time σ3) σ' k (Some w) l ∧ u64_ok (dw_duration_ms (w_lease w))) as Hnext.
  { intros σ' Hq Hr. assert (releasing (dw_node_id (w_lease w)) k σ')
      by (rewrite E1; eapply releasing_quiet; [by apply Hq04|done]).
    split; [done|]. apply released_lease; try done.
    - apply quiet_time in Hq4, Hq. lia.
    - apply quiet_time in Hq2, Hq3. lia.
    - destruct Ha as [a Ha]. exists a. eapply quiet_entry; [|done|exact Ha]. settle. }
  destruct (Hnext σ4) as (_ & Hd & _ & Hms); [done..|].
  apply wp_seq. change (PutUpdate (w_version w)) with (mode_of (Some w)). unfold os_put.
  eapply wp_put_lease; [done| |exact Hd|].
  { intros σ' Hq Hr. destruct (Hnext σ' Hq Hr) as (Hrel' & _ & ? & _). split; [done|]. intros _. by apply releasing_may. }
  intros σ5 r Hq5 Hr5 Hni Hown. apply wp_ret. intros σ6 Hq6 Hr6.
  destruct r as [[]|[]]; try (apply Hret; settle); try (apply Hagain; settle); [|done].
  assert (millis_u64 (from_millis (dw_duration_ms (w_lease w))) = dw_duration_ms (w_lease w)) as ->.
  { unfold millis_u64, as_millis, from_millis, u64_ok in *. rewrite N.div_mul by done. lia. }
  rewrite <- E1, <- E3.
  change (dw_node_id (w_lease w), own, dw_generation (w_lease w), saturating_add (dw_heartbeat (w_lease w)) 1,
    dw_duration_ms (w_lease w), true) with (fingerprint_of l).
  destruct (Hown eq_refl) as [Hw _]. apply wp_observe_last; [done|by eapply written_quiet|].
  intros σ7 Hq7 Hr7. apply H; [settle|done].
Qed.

Lemma wp_release_each scope node_id leases t σ Φ :
  Forall (λ l, releasing node_id (lease_path scope (lw_cell_id l)) σ) leases → always Φ →
  wp (release_each path_of os_error_text cfg scope node_id leases) Φ t σ.
Proof.
  intros Hl HΦ. revert t σ Φ Hl HΦ. induction leases as [|lease leases IH]; intros t σ Φ Hl HΦ; [by apply wp_always_ret|].
  apply Forall_cons in Hl as [Hl Hls]. cbn [release_each]. apply wp_seq, wp_attempt. unfold release_stored.
  apply wp_release_attempts; [apply lease_key|done|]. intros r t1 σ1 Hq1 Hr1.
  apply wp_ret. intros σ2 Hq2 Hr2. apply wp_seq, IH.
  - eapply Forall_impl; [exact Hls|]. cbn. intros l. eapply releasing_quiet. settle.
  - intros [failures|e] t3 σ3 Hr3; by apply wp_always_ret.
Qed.
End role.

(** * Taking leases *)

Definition taken (scope : GraphScope) (node_id : string) (m : gmap string LocalWriterLease) :=
  (take_scope scope node_id m).2.

Lemma elem_of_taken scope node_id m k l : (k, l) ∈ taken scope node_id m ↔ m !! k = Some l ∧ of_scope scope node_id (k, l).
Proof. unfold taken, take_scope. cbn. rewrite list_elem_of_filter, elem_of_btree_iter. tauto. Qed.

Lemma take_scope_rest scope node_id m k l : (take_scope scope node_id m).1 !! k = Some l ↔
  m !! k = Some l ∧ ¬ of_scope scope node_id (k, l).
Proof. unfold take_scope. cbn. apply map_lookup_filter_Some. Qed.

Definition drop_local (k : string) (d : Directory) := (on_local (delete k) d, d_local d !! k).
Definition drop_abandoned (k : string) (d : Directory) := (on_abandoned (delete k) d, d_abandoned d !! k).
Definition take_local (scope : GraphScope) (node_id : string) (d : Directory) :=
  let '(rest, taken) := take_scope scope node_id (d_local d) in (on_local (λ _, rest) d, taken).
Definition take_abandoned (scope : GraphScope) (node_id : string) (d : Directory) :=
  let '(rest, taken) := take_scope scope node_id (d_abandoned d) in (on_abandoned (λ _, rest) d, taken).

(** A directory that only loses users and leases. *)
Definition loses (d d' : Directory) : Prop :=
  (∀ key, is_Some (d_scope_users d' !! key) → is_Some (d_scope_users d !! key)) ∧
  (∀ k l, d_local d' !! k = Some l → d_local d !! k = Some l) ∧
  (∀ k l, d_abandoned d' !! k = Some l → d_abandoned d !! k = Some l) ∧ d_observed d' = d_observed d.

Lemma take_local_loses scope node_id d : loses d (take_local scope node_id d).1.
Proof. split_and!; try done. intros k l. cbn -[take_scope]. by intros [? _]%take_scope_rest. Qed.
Lemma take_abandoned_loses scope node_id d : loses d (take_abandoned scope node_id d).1.
Proof. split_and!; try done. intros k l. cbn -[take_scope]. by intros [? _]%take_scope_rest. Qed.
Lemma drop_local_loses k d : loses d (drop_local k d).1.
Proof. split_and!; try done. intros k' l. cbn. by intros [_ ?]%lookup_delete_Some. Qed.
Lemma drop_abandoned_loses k d : loses d (drop_abandoned k d).1.
Proof. split_and!; try done. intros k' l. cbn. by intros [_ ?]%lookup_delete_Some. Qed.
Lemma drop_user_loses key d : loses d (drop_user key d).1.
Proof.
  unfold drop_user. destruct (d_scope_users d !! key) as [count|] eqn:E; [|by split_and!].
  case_match; split_and!; try done; cbn; intros key'.
  - intros [n [[<- <-]|[_ ?]]%lookup_insert_Some]; [by rewrite E|by eexists].
  - intros [n [_ ?]%lookup_delete_Some]. by eexists.
Qed.
Lemma drop_user_last key d : (drop_user key d).2 = true → d_scope_users (drop_user key d).1 !! key = None.
Proof. unfold drop_user. destruct (d_scope_users d !! key) eqn:E; [|done]. case_match; [done|]. intros _. apply lookup_delete_eq. Qed.

Section releases.
Context (role : Role).
Local Abbreviation wp := (wp path_of base lag i cfg role).
Local Abbreviation quiet := (quiet path_of base i cfg role).

Lemma wp_lose {B C} (f : Directory → Directory * B) (K : B → Task C) t σ Φ : (∀ d, loses d (f d).1) →
  (∀ σ1 σ2 σ', quiet σ σ1 → runs σ1 → quiet σ1 σ2 → runs σ2 → dir_of i σ2 = (f (dir_of i σ1)).1 →
     quiet σ2 σ' → runs σ' → wp (K (f (dir_of i σ1)).2) Φ t σ') →
  wp (critical (λ _ d, f d) ≫= K) Φ t σ.
Proof.
  intros Hf H. apply wp_seq. unfold critical. apply wp_critical. intros σ1 Hq1 Hr1. specialize (H σ1).
  destruct (Hf (dir_of i σ1)) as (Hu & Hl & Ha & Ho). destruct (f (dir_of i σ1)) as [d b]. cbn in *.
  split; [eapply directory_ok_sub; [exact (runs_directory _ Hr1)|done..]|]. split; [split; [done|by left; auto]|].
  intros σ2 Hq2 Hr2 Ed _ _. apply wp_ret. intros σ3 Hq3 Hr3. by eapply H.
Qed.
End releases.

Lemma wp_release_scope scope node_id t σ Φ : always Φ →
  wp path_of base lag i cfg (ReleasingScope scope node_id) (release_scope path_of os_error_text cfg scope node_id) Φ t σ.
Proof.
  intros HΦ. unfold release_scope. apply (wp_lose _ (drop_user (scope, node_id))); [apply drop_user_loses|].
  intros σ1 σ2 σ3 Hq1 Hr1 Hq2 Hr2 Ed2 Hq3 Hr3. pose proof (drop_user_last (scope, node_id) (dir_of i σ1)) as Hlast.
  rewrite <- Ed2 in Hlast. destruct (drop_user _ (dir_of i σ1)).2; cbn [negb]; [|by apply wp_always_ret].
  specialize (Hlast eq_refl).
  apply (wp_lose _ (take_local scope node_id)); [apply take_local_loses|]. intros σ4 σ5 σ6 Hq4 Hr4 Hq5 Hr5 Ed5 Hq6 Hr6.
  apply (wp_lose _ (take_abandoned scope node_id)); [apply take_abandoned_loses|].
  intros σ7 σ8 σ9 Hq7 Hr7 Hq8 Hr8 Ed8 Hq9 Hr9. apply wp_release_each; [|done].
  assert (quiet path_of base i cfg (ReleasingScope scope node_id) σ5 σ9) as Hq59 by settle.
  assert (∀ l, valid_cell (lw_scope l) (lw_cell_id l) → lw_scope l = scope →
    releasing (ReleasingScope scope node_id) node_id (lease_path scope (lw_cell_id l)) σ9) as Hrel.
  { intros l Hc Hs. rewrite Hs in Hc. eapply releasing_quiet; [exact Hq59|]. split; [done|]. split.
    - assert (quiet path_of base i cfg (ReleasingScope scope node_id) σ2 σ5) as [_ Hk] by settle. by apply Hk.
    - split; [|by eexists]. intros k' l'. rewrite Ed5. cbn -[take_scope]. by intros [_ ?]%take_scope_rest. }
  rewrite Forall_fmap, Forall_forall. intros [k l] [Hin|Hin]%elem_of_app; cbn [compose snd].
  - apply (elem_of_taken scope node_id) in Hin as [Hl [Hs _]].
    apply Hrel; [|exact Hs]. by destruct (do_local _ _ _ _ _ _ (runs_directory _ Hr4) _ _ Hl) as [[? _] _].
  - apply (elem_of_taken scope node_id) in Hin as [Hl [Hs _]].
    apply Hrel; [|exact Hs]. by destruct (do_abandoned _ _ _ _ _ _ (runs_directory _ Hr7) _ _ Hl) as [? _].
Qed.

Lemma wp_abandon role scope node_id t σ Φ : always Φ →
  wp path_of base lag i cfg role (abandon_scope scope node_id) Φ t σ.
Proof.
  intros HΦ. unfold abandon_scope. apply (wp_lose _ (drop_user (scope, node_id))); [apply drop_user_loses|].
  intros σ1 σ2 σ3 Hq1 Hr1 Hq2 Hr2 Ed2 Hq3 Hr3. destruct (negb _); [by apply wp_always_ret|].
  apply (wp_lose _ (take_local scope node_id)); [apply take_local_loses|]. intros σ4 σ5 σ6 Hq4 Hr4 Hq5 Hr5 Ed5 Hq6 Hr6.
  apply wp_seq, wp_time. intros σ7 σ8 Hq7 Hr7 Hq8 Hr8. apply wp_update; [|by auto].
  intros σ9 Hq9 Hr9. split; [|by apply enters_sub]. pose proof (runs_directory _ Hr9) as [H1 H2 H3]. split; [done| |done].
  intros k l Hk. cbn in Hk. apply lookup_union_Some_raw in Hk as [Hk|[_ Hk]].
  - apply elem_of_list_to_map_2, (elem_of_taken scope node_id) in Hk as [Hk _].
    apply (do_local _ _ _ _ _ _ (runs_directory _ Hr4) k l Hk).
  - apply map_lookup_filter_Some in Hk as [Hk _]. by apply H2.
Qed.

Lemma wp_release_cell scope cell_id node_id t σ Φ : always Φ →
  wp path_of base lag i cfg (ReleasingCell scope cell_id) (release_cell path_of os_error_text cfg scope cell_id node_id) Φ t σ.
Proof.
  intros HΦ. unfold release_cell. set (k := lease_path scope cell_id).
  apply (wp_lose _ (drop_local k)); [apply drop_local_loses|]. intros σ1 σ2 σ3 Hq1 Hr1 Hq2 Hr2 Ed2 Hq3 Hr3.
  assert (releasing (ReleasingCell scope cell_id) node_id k σ3) as Hrel.
  { eapply releasing_quiet; [exact Hq3|]. split; [done|]. rewrite Ed2. apply lookup_delete_eq. }
  assert (∀ (lease : option LocalWriterLease) t' σ', quiet path_of base i cfg (ReleasingCell scope cell_id) σ3 σ' →
    wp path_of base lag i cfg (ReleasingCell scope cell_id) match lease with
       | None => (mret tt : Task unit)
       | Some lease => release_stored path_of os_error_text cfg scope cell_id node_id (lw_generation lease)
       end Φ t' σ') as Hrest.
  { intros [lease|] t' σ' Hq'; [|by apply wp_always_ret]. unfold release_stored.
    apply wp_release_attempts; [apply lease_key|by eapply releasing_quiet|]. auto. }
  cbn [drop_local snd]. destruct (d_local (dir_of i σ1) !! k) as [lease|].
  - apply wp_seq, wp_ret. intros σ4 Hq4 _. by apply (Hrest (Some lease)).
  - apply (wp_lose _ (drop_abandoned k)); [apply drop_abandoned_loses|]. intros σ4 σ5 σ6 ???????. apply Hrest. settle.
Qed.

(** * Every operation *)

Lemma wp_discard {A} role (m : Task A) t σ : wp path_of base lag i cfg role m (λ _ _ _, True) t σ →
  wp path_of base lag i cfg role (discard m) (λ _ _ _, True) t σ.
Proof. intros H. apply wp_bind. eapply wp_mono; [exact H|]. intros r t' σ' _. by apply wp_ret. Qed.

Theorem wp_operation role m t σ : operation path_of os_error_text cfg role m → role_ok role →
  wp path_of base lag i cfg role m (λ _ _ _, True) t σ.
Proof.
  intros Hop Hok. assert (∀ A, @always A (λ _ _ _, True)) as Ha by by intros A r t' σ'. destruct Hop; apply wp_discard.
  - by apply wp_current_owner.
  - by apply wp_holds_abandoned.
  - by apply wp_acquire.
  - by apply wp_renew_one.
  - by apply wp_release_cell.
  - by apply wp_release_scope.
  - by apply wp_abandon.
Qed.
End ops.
