(* ===== verification/LeaseMem.v ===== *)
(** [LeaseMem]: an object store in memory that satisfies the laws of [LeaseSystem],
    and schedules of operations on it that can be run. *)

From S2P Require Import Prelude Text TextFacts Errors Model Namespace IndexStore Lease LeaseSystem LeaseLogic.
From stdpp Require Import relations.

Local Open Scope N_scope.

Import lease.

(** * The store *)

Record MemStore := MkMemStore { ms_objects : gmap string (ObjectMeta * string); ms_next : nat }.

(** The versions handed out: one more character each. *)
Definition version_of (n : nat) : index.UpdateVersion := index.MkVersion (Some (zeros n "")) None.

Definition mem_admits (mode : LeasePutMode) (current : option (ObjectMeta * string)) : option LeaseOsError :=
  match mode, current with
  | PutCreate, Some _ => Some OsAlreadyExists
  | PutUpdate v, Some (m, _) => if bool_decide (om_version m = v) then None else Some OsPrecondition
  | PutUpdate _, None => Some OsPrecondition
  | _, _ => None
  end.

#[export] Instance mem_store : LeaseStore := {|
  Ls := MemStore;
  ls_get s k := (s, match ms_objects s !! k with Some (m, v) => Ok (m, Ok v) | None => Err OsNotFound end);
  ls_put t s k value mode :=
    match mem_admits mode (ms_objects s !! k) with
    | Some e => (s, Err e)
    | None => (MkMemStore (<[k := (MkMeta (version_of (ms_next s)) (Z.of_N (t / MILLI)), value)]> (ms_objects s))
                 (S (ms_next s)), Ok tt)
    end;
  ls_head s k := (s, match ms_objects s !! k with Some (m, _) => Ok m | None => Err OsNotFound end);
  ls_delete s k := (MkMemStore (delete k (ms_objects s)) (ms_next s), Ok tt);
|}.

Lemma zeros_length n : String.length (zeros n "") = n.
Proof. induction n as [|n IH]; [done|]. cbn. by rewrite IH. Qed.
Lemma version_of_inj n m : version_of n = version_of m → n = m.
Proof. unfold version_of. intros [=E]. by rewrite <- (zeros_length n), E, zeros_length. Qed.

Definition mem_used (s : MemStore) (v : index.UpdateVersion) : Prop := ∃ n, (n < ms_next s)%nat ∧ v = version_of n.

Lemma mem_admits_None mode current : mem_admits mode current = None → lease_admits mode current.
Proof.
  destruct mode as [| |v], current as [[m x]|]; cbn; try done. case_bool_decide; [|done]. intros _. by exists m, x.
Qed.

(** Stamps in whole milliseconds. *)
#[export] Program Instance mem_store_laws : LeaseStoreLaws mem_store := {|
  ls_view := ms_objects;
  ls_used := mem_used;
  ls_stamp t := Z.of_N (t / MILLI);
  ls_resolution := MILLI;
|}.
Next Obligation. intros t t' H. apply N2Z.inj_le. by apply N.Div0.div_le_mono. Qed.
Next Obligation.
  intros t t' H. unfold MILLI. pose proof (N.div_mod' t 1000000). pose proof (N.mod_lt t 1000000 ltac:(done)).
  pose proof (N.div_mod' t' 1000000).
  generalize dependent (t / 1000000). generalize dependent (t' / 1000000).
  generalize dependent (t mod 1000000). generalize dependent (t' mod 1000000). lia.
Qed.
Next Obligation.
  intros s k s' r [= <- <-]. split; [done|]. split; [done|].
  by destruct (ms_objects s !! k) as [[m v]|] eqn:E.
Qed.
Next Obligation.
  intros s k s' r [= <- <-]. split; [done|]. split; [done|].
  destruct (ms_objects s !! k) as [[m v]|] eqn:E; [by exists v|done].
Qed.
Next Obligation.
  intros t s k value mode s' r H. cbn in H |- *. destruct (mem_admits mode (ms_objects s !! k)) as [e|] eqn:E; simplify_eq.
  - split; [|by left]. intros [=->]. unfold mem_admits in E. by repeat case_match.
  - split; [done|]. right. exists (version_of (ms_next s)). split; [by apply mem_admits_None|]. split_and!; [| |done].
    + intros (n & Hn & En%version_of_inj). lia.
    + intros v'. unfold mem_used. cbn. split.
      * intros (n & Hn & ->). destruct (decide (n = ms_next s)) as [->|]; [by left|right]. exists n. split; [lia|done].
      * intros [->|(n & Hn & ->)]; [exists (ms_next s)|exists n]; (split; [lia|done]).
Qed.

(** * Schedules *)

Inductive opcode : Type :=
  | CurrentOwner (scope : GraphScope) (cell_id : string)
  | HoldsAbandoned (scope : GraphScope) (cell_id node_id : string)
  | Acquire (scope : GraphScope) (cell_id node_id : string)
  | Renew (node_id : string) (lease : LocalWriterLease)
  | ReleaseCell (scope : GraphScope) (cell_id node_id : string)
  | ReleaseScope (scope : GraphScope) (node_id : string)
  | AbandonScope (scope : GraphScope) (node_id : string).

(** Time passes; a process registers a user; it starts an operation as its task [j];
    the task takes so many actions, and is done. *)
Inductive event : Type :=
  | Pass (d : N) | Register (i : nat) (scope : GraphScope) (node_id : string)
  | Start (i j : nat) (op : opcode) | Act (i j n : nat) | End (i j : nat).

Section schedule.
Context {O : LeaseStore} {L : LeaseStoreLaws O}.
Context (path_of : string → string) (os_error_text : LeaseOsError → string) (lag : N) (apart : bool).

Definition program (cfg : Config) (op : opcode) : Role * prog unit :=
  match op with
  | CurrentOwner scope cell_id => (Looking, discard (current_owner path_of os_error_text cfg scope cell_id))
  | HoldsAbandoned scope cell_id node_id => (Looking, discard (holds_abandoned_local path_of cfg scope cell_id node_id))
  | Acquire scope cell_id node_id =>
      (Acquiring scope cell_id node_id, discard (acquire_or_renew path_of os_error_text cfg scope cell_id node_id))
  | Renew node_id lease =>
      (Renewing (lw_scope lease) (lw_cell_id lease) node_id, discard (renew_one path_of os_error_text cfg node_id lease))
  | ReleaseCell scope cell_id node_id =>
      (ReleasingCell scope cell_id, discard (release_cell path_of os_error_text cfg scope cell_id node_id))
  | ReleaseScope scope node_id =>
      (ReleasingScope scope node_id, discard (release_scope path_of os_error_text cfg scope node_id))
  | AbandonScope scope node_id => (Looking, discard (abandon_scope scope node_id))
  end.

Lemma program_operation cfg op : operation path_of os_error_text cfg (program cfg op).1 (program cfg op).2.
Proof. destruct op; constructor. Qed.

Local Abbreviation State := (World * gmap (nat * nat) Running)%type.

Definition is_prompt (r : Running) (σ : World) : bool :=
  match rn_prog r with Head _ _ => wd_time σ <=? rn_clock r + lag | _ => true end.

Fixpoint acts (i j n : nat) (s : State) : option State :=
  match n with
  | 0%nat => Some s
  | S n =>
      p ← wd_procs s.1 !! i; r ← s.2 !! (i, j);
      if is_prompt r s.1 then
        match act i p s.1 (rn_clock r) (rn_prog r) with
        | Some (σ, clock, m') => acts i j n (σ, <[(i, j) := set_running r clock m']> s.2)
        | None => Some s
        end
      else None
  end.

(** An event that may not be is none. *)
Definition exec (e : event) (s : State) : option State :=
  match e with
  | Pass d => Some (MkWorld (wd_time s.1 + d) (wd_store s.1) (wd_log s.1) (wd_procs s.1), s.2)
  | Register i scope node_id =>
      p ← wd_procs s.1 !! i;
      if negb apart || bool_decide (may_register p s.2 i scope node_id) then
        match act i p s.1 0 (register_scope scope node_id) with Some (σ, _, Ret _) => Some (σ, s.2) | _ => None end
      else None
  | Start i j op =>
      p ← wd_procs s.1 !! i; let '(role, m) := program (pr_cfg p) op in
      if bool_decide (role_ok role) && (negb apart || bool_decide (may_start path_of (pr_cfg p) s.2 i role)) then
        match s.2 !! (i, j) with None => Some (s.1, <[(i, j) := MkRunning role 0 m]> s.2) | Some _ => None end
      else None
  | Act i j n => acts i j n s
  | End i j => match rn_prog <$> s.2 !! (i, j) with Some (Ret _) => Some (s.1, delete (i, j) s.2) | _ => None end
  end.
Fixpoint exec_all (es : list event) (s : State) : option State :=
  match es with [] => Some s | e :: es => s ← exec e s; exec_all es s end.

Local Abbreviation step := (sys_step path_of os_error_text lag apart).

Lemma acts_steps i j n s s' : acts i j n s = Some s' → rtc step s s'.
Proof.
  revert s. induction n as [|n IH]; intros [σ ts] H; cbn in H; [by simplify_eq|].
  destruct (wd_procs σ !! i) as [p|] eqn:Hp; [|done]. cbn in H. destruct (ts !! (i, j)) as [r|] eqn:Hr; [|done]. cbn in H.
  destruct (is_prompt r σ) eqn:Hpr; [|done].
  destruct (act i p σ (rn_clock r) (rn_prog r)) as [[[σ' clock] m']|] eqn:Ha; [|by simplify_eq].
  eapply rtc_l; [|by apply IH]. eapply step_act; [done..| |done]. unfold is_prompt in Hpr. destruct (rn_prog r); try done.
  by apply N.leb_le.
Qed.

Lemma exec_step e s s' : exec e s = Some s' → rtc step s s'.
Proof.
  destruct s as [σ ts]. intros He.
  assert (∀ P `{Decision P}, negb apart || bool_decide P = true → apart = true → P) as Hapart.
  { intros P ? H ->. by apply bool_decide_eq_true in H. }
  destruct e as [d|i scope node_id|i j op|i j n|i j]; cbn in He; [| | |by eapply acts_steps|].
  - simplify_eq. apply rtc_once, step_time. lia.
  - destruct (wd_procs σ !! i) as [p|] eqn:Hp; [|done]. cbn in He. destruct (_ || _) eqn:Ha; [|done]. simplify_eq.
    apply rtc_once. eapply (step_register _ _ _ _ _ _ _ p scope node_id _ 0); [done|by eapply Hapart|done].
  - destruct (wd_procs σ !! i) as [p|] eqn:Hp; [|done]. cbn in He. pose proof (program_operation (pr_cfg p) op) as Hop.
    destruct (program (pr_cfg p) op) as [role m]. destruct (_ && _) eqn:Ha; [|done].
    apply andb_prop in Ha as [Hok%bool_decide_eq_true Ha].
    destruct (ts !! (i, j)) eqn:Hi; [done|]. simplify_eq.
    apply rtc_once. eapply step_start; [done..|exact Hop|done|by eapply Hapart].
  - destruct (ts !! (i, j)) as [[role clock []]|] eqn:Hi; cbn in He; simplify_eq. apply rtc_once, step_end.
Qed.

Lemma exec_all_steps es s s' : exec_all es s = Some s' → rtc step s s'.
Proof.
  revert s. induction es as [|e es IH]; intros s H; [cbn in H; by simplify_eq|]. cbn in H.
  destruct (exec e s) as [s1|] eqn:He; [|done]. cbn in H. etrans; [by eapply exec_step|by apply IH].
Qed.
End schedule.

(** * A deployment of two processes *)

Definition duo (i : nat) : Config :=
  with_duration_and_holder "hydra" (30 * SECOND) (if Nat.eqb i 0 then "holder-a" else "holder-b").
Definition duo_world : World (O := mem_store) :=
  MkWorld 0 (MkMemStore ∅ 0) ∅
    (<[0%nat := MkProcess (duo 0) empty_directory]> (<[1%nat := MkProcess (duo 1) empty_directory]> ∅)).

Lemma duo_initial : initial (O := mem_store) "hydra" duo_world.
Proof.
  split; [done|done| |].
  - intros i p H. cbn in H. rewrite !lookup_insert_Some in H.
    destruct H as [[<- <-]|[_ [[<- <-]|[_ H]]]]; [..|done]; (split; [by exists (30 * SECOND)|done]).
  - intros i j p q Hi Hj. cbn in Hi, Hj. rewrite !lookup_insert_Some in Hi, Hj.
    destruct Hi as [[<- <-]|[_ [[<- <-]|[_ Hi]]]], Hj as [[<- <-]|[_ [[<- <-]|[_ Hj]]]]; done.
Qed.

Definition plain_path (s : string) : string := s.
Definition plain_error (e : LeaseOsError) : string := "store".

(** A lease object's path, piece by piece. *)
Definition path_pieces (scope : GraphScope) (cell_id : string) : list string :=
  match segments (gs_namespace scope) with
  | [] => []
  | s :: rest => ("hydra" :: "namespaces" :: ns_str s :: suffix_pieces rest ++ ["graphs"; gid_str (gs_graph_id scope)])
                 ++ ["_writer_leases"; "v2"; cell_id]
  end.

Lemma plain_lease_path cfg scope cell_id : base_path cfg = "hydra" → scope_wf scope →
  lease_path plain_path cfg scope cell_id = Text.join chr_slash (path_pieces scope cell_id).
Proof.
  destruct scope as [[[|s rest]] g]; intros E [(Hne & _) _]; [done|]. unfold lease_path, plain_path. rewrite E, scoped_store_path_pieces.
  unfold path_pieces. cbn [gs_namespace gs_graph_id segments].
  set (pre := "namespaces" :: ns_str s :: suffix_pieces rest ++ ["graphs"; gid_str g]).
  change (("hydra" :: pre) ++ ["_writer_leases"; "v2"; cell_id])
    with (("hydra" :: pre) ++ ["_writer_leases"] ++ ["v2"] ++ [cell_id]).
  rewrite !(assoc_L (++)), !join_snoc by done. rewrite !TextFacts.app_assoc. done.
Qed.

Lemma path_pieces_free scope cell_id : valid_cell scope cell_id →
  Forall (λ s, free_of chr_slash s = true) (path_pieces scope cell_id).
Proof.
  destruct scope as [[[|s rest]] g]; intros [[(_ & _ & Hs) Hg] Hc]; [done|]. apply Forall_cons in Hs as [Hs Hr].
  apply component_ok_slash in Hs, Hg, Hc. unfold path_pieces. cbn [gs_namespace gs_graph_id segments] in *.
  repeat constructor; [done|]. apply Forall_app_2; [apply Forall_app_2; [by apply suffix_pieces_free|]|]; by repeat constructor.
Qed.

(** Lease objects of the deployment are not its clock, and those of different
    scopes are different. *)
#[export] Instance duo_paths : LeasePaths plain_path (trim_end_matches chr_slash "hydra").
Proof.
  split.
  - intros cfg scope cell_id E. unfold lease_path, clock_key, scoped_store_path, plain_path. rewrite E.
    destruct (gs_namespace scope) as [[|s rest]]; [done|]. rewrite storage_suffix_pieces. cbn. done.
  - intros cfg s c s' c' Hb Hc Hc' E. change (trim_end_matches chr_slash "hydra") with "hydra" in Hb.
    rewrite !plain_lease_path in E by first [done|apply Hc|apply Hc'].
    pose proof (path_pieces_free _ _ Hc) as Hf. pose proof (path_pieces_free _ _ Hc') as Hf'.
    destruct s as [[[|a r]] g], Hc as [[(Hne & _) _] _]; [done|]. destruct s' as [[[|a' r']] g'], Hc' as [[(Hne' & _) _] _]; [done|].
    apply join_inj in E; [|done..]. unfold path_pieces in E. cbn [gs_namespace gs_graph_id segments] in E.
    apply app_inj_2 in E as [E _]; [|done]. injection E as Ea Er. apply suffix_pieces_inj in Er as [-> Eg].
    destruct a, a', g, g'. cbn in Ea, Eg. by subst.
Qed.
