(* ===== verification/LeaseFacts.v ===== *)
(** [LeaseFacts]: every reachable state of a system of processes is as
    [LeaseLogic] says, and what that gives: leases exclude one another and fence
    generations, a lease reads back from its text; and the two schedules that grant
    one lease twice, when the server's clock is read late and when a release is not
    kept apart from a renewal. *)

From stdpp Require Import relations.
From S2P Require Import Prelude Text TextFacts Errors Model Namespace IndexStore Lease LeaseSystem LeaseLogic LeaseRules LeaseSpecs LeaseOps LeaseMem.

Local Open Scope N_scope.

Import lease.

(** * Histories *)

Section histories.
Context (now : N) (ws : list Write) (Hh : history_ok now ws).

(** While a lease runs that its holder does not release, every later write renews it. *)
Lemma live_holder a w : ws !! a = Some w → now < expiry w →
  (∀ b w', (a ≤ b)%nat → ws !! b = Some w' → same_owner w w' → dw_generation (w_lease w') = dw_generation (w_lease w) →
     dw_released (w_lease w') = false) →
  ∀ b w', (a ≤ b)%nat → ws !! b = Some w' →
    same_owner w w' ∧ dw_generation (w_lease w') = dw_generation (w_lease w) ∧ dw_released (w_lease w') = false.
Proof.
  intros Ha Hlive Hkeep b. assert (∀ b w', (a ≤ b)%nat → ws !! b = Some w' →
    same_owner w w' ∧ dw_generation (w_lease w') = dw_generation (w_lease w)) as Hsame; last first.
  { intros w' Hab Hb. destruct (Hsame b w' Hab Hb) as [? ?]. eauto. }
  clear b. induction b as [|b IH]; intros w' Hab Hb.
  { assert (a = 0%nat) as -> by lia. by simplify_eq. }
  destruct (decide (a = S b)) as [->|]; [by simplify_eq|].
  destruct (lookup_lt_is_Some_2 ws b) as [w1 Hw1]; [apply lookup_lt_Some in Hb; lia|].
  destruct (IH w1) as ([Hn1 Hh1] & Hg1); [lia|done|].
  assert (dw_released (w_lease w1) = false) as Hr1 by (eapply (Hkeep b); [lia|done|by split|done]).
  destruct (ho_next _ _ Hh b w1 w' Hw1 Hb) as [Hov Hgen].
  assert (same_owner w1 w') as Hs.
  { destruct Hov as [?|[?|Hexp]]; [congruence|done|].
    pose proof (ho_expiry _ _ Hh a b w w1 ltac:(lia) Ha Hw1 Hh1). destruct (ho_started _ _ Hh _ _ Hb). lia. }
  split; [destruct Hs; split; congruence|].
  destruct Hgen as [(_ & -> & _)|(_ & [?|?])]; [done|congruence|done].
Qed.

Lemma generation_small a w : ws !! a = Some w → dw_generation (w_lease w) ≤ N.of_nat a + 1.
Proof.
  revert w. induction a as [|a IH]; intros w Ha; [by rewrite (ho_first _ _ Hh w Ha)|].
  destruct (lookup_lt_is_Some_2 ws a) as [w1 Hw1]; [apply lookup_lt_Some in Ha; lia|]. specialize (IH w1 Hw1).
  destruct (ho_next _ _ Hh a w1 w Hw1 Ha) as [_ [(_ & -> & _)|(-> & _)]]; unfold saturating_add; lia.
Qed.

(** Along a history generations grow, and grow with every change of owner. *)
Lemma generation_grows a b w w' : N.of_nat (length ws) < u64_max → (a ≤ b)%nat → ws !! a = Some w → ws !! b = Some w' →
  dw_generation (w_lease w) < dw_generation (w_lease w') ∨
  same_owner w w' ∧ dw_generation (w_lease w) = dw_generation (w_lease w').
Proof.
  intros Hlen Hab Ha. revert w'. induction Hab as [|b Hab IH]; intros w' Hb; [right; simplify_eq; by split|].
  destruct (lookup_lt_is_Some_2 ws b) as [w1 Hw1]; [apply lookup_lt_Some in Hb; lia|]. specialize (IH w1 Hw1).
  destruct (ho_next _ _ Hh b w1 w' Hw1 Hb) as [_ [([Hn Ho] & E & _)|(E & _)]]; rewrite E.
  - destruct IH as [IH|[[Hn1 Ho1] IH]]; [by left|right]. split; [split; congruence|done].
  - left. pose proof (generation_small b w1 Hw1). apply lookup_lt_Some in Hw1.
    rewrite saturating_add_small by lia. destruct IH as [IH|[_ IH]]; lia.
Qed.
End histories.

(** * Reachable states *)

Lemma clash_sym {path_of} cfg r r' : clash path_of cfg r r' → clash path_of cfg r' r.
Proof. by destruct r, r'. Qed.

Section system.
Context {O : LeaseStore} {L : LeaseStoreLaws O}.
Context (path_of : string → string) (os_error_text : LeaseOsError → string).
Context (base : string) (lag : N).
Local Abbreviation root := (trim_end_matches chr_slash base).

Local Abbreviation clock := (clock_key path_of root).
Local Abbreviation good := (good path_of root).
Local Abbreviation wp := (wp path_of root lag).
Local Abbreviation step := (sys_step path_of os_error_text lag).

(** Histories never shrink. *)
Lemma note_length path time clk s s' log k :
  (length (default [] (log !! k)) ≤ length (default [] (note path time clk s s' log !! k)))%nat.
Proof.
  unfold note. repeat case_match; try done. destruct (decide (path = k)) as [->|].
  - rewrite lookup_insert_eq. cbn. rewrite length_app. lia.
  - by rewrite lookup_insert_ne.
Qed.

Lemma act_length {A} i p σ clk (m : prog A) σ' clk' m' k : act i p σ clk m = Some (σ', clk', m') →
  (length (log_at σ k) ≤ length (log_at σ' k))%nat.
Proof. intros Ha. destruct m; cbn in Ha; repeat case_match; simplify_eq; try done. apply note_length. Qed.

Lemma step_length apart s s' k : step apart s s' → (length (log_at s.1 k) ≤ length (log_at s'.1 k))%nat.
Proof. destruct 1; try done; cbn; by eapply act_length. Qed.

Lemma bounded_before apart s s' : rtc (step apart) s s' → bounded path_of root s'.1 → bounded path_of root s.1.
Proof.
  intros Hr Hb k Hk. specialize (Hb k Hk). enough (length (log_at s.1 k) ≤ length (log_at s'.1 k))%nat by lia.
  clear -Hr. induction Hr as [|s1 s2 s3 H _ IH]; [done|]. pose proof (step_length _ _ _ k H). lia.
Qed.

(** The server's clock is read within the guard, and paths tell scopes apart. *)
Context (Hlag : lag + ls_resolution + 2 * MILLI ≤ SECOND).
Context {Hpaths : LeasePaths path_of root}.

(** ** One action *)

(** What the rest of the system sees of an action of a task. *)
Record seen (i : nat) (p : Process) (role : Role) (σ σ' : World) : Prop := {
  sn_time : wd_time σ' = wd_time σ;
  sn_writes k : k ≠ clock → ∃ ext, log_at σ' k = log_at σ k ++ ext ∧ Forall (by_holder (holder_id (pr_cfg p))) ext;
  sn_others j : i ≠ j → wd_procs σ' !! j = wd_procs σ !! j;
  sn_own : ∃ p', wd_procs σ' !! i = Some p' ∧ pr_cfg p' = pr_cfg p;
  sn_keeps role' : ¬ clash path_of (pr_cfg p) role role' →
    keeps path_of (pr_cfg p) role' (dir_of i σ) (dir_of i σ') (log_at σ) (log_at σ');
}.

Lemma seen_writes i p role σ σ' : base_path (pr_cfg p) = root → wd_procs σ !! i = Some p → wd_procs σ' = wd_procs σ →
  wd_time σ' = wd_time σ → writes path_of root i (pr_cfg p) role σ σ' → seen i p role σ σ'.
Proof.
  intros Hb Hp Ep Et Hw. assert (Rooted root (pr_cfg p)) as Hroot by exact Hb. split; [done|..].
  - intros k Hk. destruct (Hw k Hk) as (ext & E & Hx). exists ext. split; [done|].
    eapply Forall_impl; [exact Hx|]. by intros w [? _].
  - intros j _. by rewrite Ep.
  - exists p. by rewrite Ep.
  - intros role' Hn. by apply (writes_keeps path_of root i (pr_cfg p) role).
Qed.

Lemma seen_enters i p role σ d : wd_procs σ !! i = Some p → enters path_of (pr_cfg p) role (pr_dir p) d →
  seen i p role σ (set_process i (enter p d) σ).
Proof.
  intros Hp He. split; [done|..].
  - intros k _. exists []. by rewrite (right_id_L [] (++)).
  - intros j Hj. cbn. by rewrite lookup_insert_ne.
  - eexists. cbn. by rewrite lookup_insert_eq.
  - intros role' Hn. unfold dir_of. cbn. rewrite Hp, lookup_insert_eq. by eapply enters_keeps.
Qed.

Lemma writes_store i p role σ s : writes path_of root i (pr_cfg p) role σ (set_store s σ).
Proof. intros k _. exists []. by rewrite (right_id_L [] (++)). Qed.

Lemma act_sound i p role (m : prog unit) t σ σ' t' (m' : prog unit) : good σ → wd_procs σ !! i = Some p →
  wp i (pr_cfg p) role m (λ _ _ _, True) t σ → prompt lag t σ m → act i p σ t m = Some (σ', t', m') →
  bounded path_of root σ' → good σ' ∧ seen i p role σ σ' ∧ wp i (pr_cfg p) role m' (λ _ _ _, True) t' σ'.
Proof.
  intros Hg Hp Hw Hprompt Ha Hb. pose proof (po_base _ _ _ _ _ (gd_process _ _ _ Hg i p Hp)) as Hroot.
  assert (Rooted root (pr_cfg p)) as Hroot' by exact Hroot.
  assert (quiet path_of root i (pr_cfg p) role σ σ) as Hq by by apply quiet_preorder.
  assert (runs path_of root i (pr_cfg p) σ) as Hr by (split; [done|by exists p]).
  assert (∀ s, wd_procs (set_store s σ) = wd_procs σ) as Es by done.
  destruct m as [a|k|B f k|path k|path payload mode k|path k|path k]; cbn in Ha; [done|..].
  - simplify_eq. specialize (Hw σ' Hq Hr). split; [done|]. split; [|done]. apply seen_writes; try done.
    intros k' _. exists []. by rewrite (right_id_L [] (++)).
  - specialize (Hw σ Hq Hr p Hp). destruct (f (wd_time σ) (pr_dir p)) as [d b]. simplify_eq.
    destruct Hw as (Hg' & He & Hw'). split; [done|]. split; [by apply seen_enters|done].
  - destruct (ls_get _ path) as [s r] eqn:E. simplify_eq. destruct (Hw σ Hq Hr s r E) as [Hg' Hw'].
    split; [done|]. split; [|done]. apply seen_writes; try done. apply writes_store.
  - destruct (ls_put _ _ path payload mode) as [s r] eqn:E. simplify_eq. destruct (Hw σ Hq Hr s r E Hb) as (Hg' & Hx & Hw').
    split; [done|]. split; [|done]. by apply seen_writes.
  - destruct (ls_head _ path) as [s r] eqn:E. simplify_eq. destruct (Hw σ Hq Hr Hprompt s r E) as [Hg' Hw'].
    split; [done|]. split; [|done]. apply seen_writes; try done. apply writes_store.
  - destruct (ls_delete _ path) as [s r] eqn:E. simplify_eq. destruct (Hw σ Hq Hr s r E) as [Hg' Hw'].
    split; [done|]. split; [|done]. apply seen_writes; try done. apply writes_store.
Qed.

(** ** Every step *)

(** Every task is where its operation is safe, and those of one process keep apart. *)
Definition sound (s : World * gmap (nat * nat) Running) : Prop :=
  good s.1 ∧
  (∀ i j r, s.2 !! (i, j) = Some r → ∃ p, wd_procs s.1 !! i = Some p ∧
     wp i (pr_cfg p) (rn_role r) (rn_prog r) (λ _ _ _, True) (rn_clock r) s.1) ∧
  ∀ i j j' r r' p, s.2 !! (i, j) = Some r → s.2 !! (i, j') = Some r' → j ≠ j' → wd_procs s.1 !! i = Some p →
    ¬ clash path_of (pr_cfg p) (rn_role r) (rn_role r').

Lemma good_time σ time : good σ → wd_time σ ≤ time → good (MkWorld time (wd_store σ) (wd_log σ) (wd_procs σ)).
Proof.
  intros [H0 H1 H2 H3 H4 H5 H6] Ht. split; try done.
  - intros k Hk. destruct (H1 k Hk) as [G1 G2 G3 G4 G5 G6 G7 G8]. split; try done.
    intros a w Ha. destruct (G1 a w Ha). cbn. split; [done|lia].
  - intros k m v Hv. destruct (H4 k m v Hv) as (t & Htt & E). exists t. cbn. split; [lia|done].
  - intros i p Hp. destruct (H5 i p Hp) as [P0 P1 [D1 D2 D3] P3]. split; try done. split; try done.
    intros k e Hk He. destruct (D3 k e Hk He) as [? ?]. split; [cbn; lia|done].
Qed.

(** What other processes write is not this one's. *)
Lemma foreign_keeps i p role j q role' σ σ' : good σ → seen i p role σ σ' → i ≠ j → wd_procs σ !! i = Some p →
  wd_procs σ !! j = Some q → quiet path_of root j (pr_cfg q) role' σ σ'.
Proof.
  intros Hg [Et Hw Hj _ _] Hij Hp Hq. pose proof (po_base _ _ _ _ _ (gd_process _ _ _ Hg j q Hq)) as Hroot.
  assert (dir_of j σ' = dir_of j σ) as Ed by (unfold dir_of; by rewrite (Hj j Hij)).
  assert (∀ s c n, clean (holder_id (pr_cfg q)) n (log_at σ (lease_path path_of (pr_cfg q) s c))
    (log_at σ' (lease_path path_of (pr_cfg q) s c))) as Hclean.
  { intros s c n ext E. destruct (Hw (lease_path path_of (pr_cfg q) s c)) as (ext' & E' & Hx).
    { by apply (paths_clock path_of root). }
    rewrite E' in E. apply app_inv_head in E as <-. eapply Forall_impl; [exact Hx|]. cbn. intros w Hb [Hb' _].
    destruct Hij. eapply (gd_holders _ _ _ Hg i j p q); [done..|]. unfold by_holder in *. congruence. }
  split.
  - split; [lia|]. intros k Hk. destruct (Hw k Hk) as (ext & -> & _). by exists ext.
  - rewrite Ed. destruct role'; cbn; auto.
Qed.

(** A user more of a scope. *)
Lemma register_sound σ ts i p scope node_id σ' clk clk' r : sound (σ, ts) → wd_procs σ !! i = Some p →
  may_register p ts i scope node_id → act i p σ clk (register_scope scope node_id) = Some (σ', clk', Ret r) → sound (σ', ts).
Proof.
  intros (Hg & Ht & Hn) Hp Hmay Ha. cbn in Ha. injection Ha as <- <- _. cbn [fst snd] in *.
  pose proof (gd_process _ _ _ Hg i p Hp) as [Hroot _ [D1 D2 D3] _].
  set (d := on_scope_users _ (pr_dir p)).
  assert (good (set_process i (enter p d) σ)) as Hg' by by apply good_enter.
  split; [done|]. split.
  - intros i' j r' Hr. destruct (Ht i' j r' Hr) as (q & Hq & Hw). pose proof (po_base _ _ _ _ _ (gd_process _ _ _ Hg i' q Hq)) as Hrq.
    assert (Rooted root (pr_cfg q)) as Hroot' by exact Hrq. destruct (decide (i' = i)) as [->|Hne].
    + assert (q = p) as -> by congruence. exists (enter p d). cbn. rewrite lookup_insert_eq. split; [done|].
      eapply wp_quiet; [exact Hw|]. split; [split; [done|by intros k _]|].
      unfold dir_of. cbn. rewrite Hp, lookup_insert_eq. cbn.
      assert (concerns scope node_id (rn_role r') → is_Some (d_scope_users (pr_dir p) !! (scope, node_id))) as Hcon.
      { intros Hc. destruct Hmay as [|Hmay]; [done|]. by destruct (Hmay _ _ Hr). }
      assert (∀ key, key ≠ (scope, node_id) → d_scope_users d !! key = d_scope_users (pr_dir p) !! key) as Hkey
        by (intros; by apply lookup_insert_ne).
      destruct (rn_role r') as [s c n|s c n|s c|s n|]; cbn; try done; cbn in Hcon.
      * intros _. apply clean_refl.
      * intros Hu. split; [|intros _; apply clean_refl]. destruct (decide ((s, n) = (scope, node_id))) as [[= -> ->]|]; [by apply Hcon|].
        by rewrite Hkey in Hu.
      * intros Hu. split; [|done]. destruct (decide ((s, n) = (scope, node_id))) as [[= -> ->]|]; [|by rewrite Hkey].
        destruct (Hcon ltac:(done)) as [x Hx]. congruence.
    + exists q. cbn. rewrite lookup_insert_ne by done. split; [done|]. eapply wp_quiet; [exact Hw|].
      split; [split; [done|by intros k _]|]. unfold dir_of. cbn. rewrite lookup_insert_ne by done. apply keeps_refl.
  - intros i' j1 j2 r1 r2 q H1 H2 Hne Hq. cbn in *. destruct (decide (i' = i)) as [->|Hii].
    + rewrite lookup_insert_eq in Hq. injection Hq as <-. by apply (Hn i j1 j2 r1 r2 p).
    + rewrite lookup_insert_ne in Hq by done. by apply (Hn i' j1 j2).
Qed.

Lemma step_sound s s' : sound s → step true s s' → bounded path_of root s'.1 → sound s'.
Proof.
  intros (Hg & Ht & Hn) Hstep Hb.
  destruct Hstep as [σ ts time Htime|σ ts i j p role m Hp Hi Hop Hok Hmay|σ ts i p scope node_id σ' clk r Hp Hmay Ha
    |σ ts i j p r σ' clk m' Hp Hi Hpr Ha|σ ts [i j]]; cbn [fst snd] in *.
  - split; [by apply good_time|]. split; [|done]. intros i j r Hr. destruct (Ht i j r Hr) as (p & Hp & Hw).
    exists p. split; [done|]. pose proof (po_base _ _ _ _ _ (gd_process _ _ _ Hg i p Hp)) as Hroot.
    assert (Rooted root (pr_cfg p)) as Hroot' by exact Hroot. eapply wp_quiet; [exact Hw|].
    split; [split; [done|by intros k _]|]. apply keeps_refl.
  - split; [done|]. specialize (Hmay eq_refl).
    pose proof (gd_process _ _ _ Hg i p Hp) as [Hroot Hdur _ _]. split.
    + intros i' j' r'. cbn. intros [[[= <- <-] <-]|[_ Hr]]%lookup_insert_Some; [|by eapply Ht].
      exists p. split; [done|]. assert (Rooted root (pr_cfg p)) by exact Hroot. cbn.
      by apply (wp_operation path_of os_error_text root lag Hlag i (pr_cfg p) Hdur).
    + assert (∀ j' r', ts !! (i, j') = Some r' → ¬ clash path_of (pr_cfg p) (rn_role r') role) as Hrole
        by (intros j' r' Hr; by apply (Hmay _ _ Hr)).
      intros i' j1 j2 r1 r2 p' H1 H2 Hne Hp'. cbn in H1, H2, Hp'.
      apply lookup_insert_Some in H1 as [[E1 <-]|[_ H1]]; apply lookup_insert_Some in H2 as [[E2 <-]|[_ H2]].
      * congruence.
      * assert (i' = i ∧ p' = p) as [-> ->] by (split; congruence). intros Hc%clash_sym. by eapply Hrole.
      * assert (i' = i ∧ p' = p) as [-> ->] by (split; congruence). by eapply Hrole.
      * by apply (Hn i' j1 j2).
  - eapply (register_sound σ ts i p); [by split|done|by apply Hmay|exact Ha].
  - destruct (Ht i j r Hi) as (p0 & Hp0 & Hw). assert (p0 = p) as -> by congruence.
    destruct (act_sound i p (rn_role r) (rn_prog r) (rn_clock r) σ σ' clk m') as (Hg' & Hs & Hw'); [done..|].
    split; [done|]. destruct (sn_own _ _ _ _ _ Hs) as (p' & Hp' & Ecfg). split.
    + intros i' j' r' Hr'. cbn in Hr'. apply lookup_insert_Some in Hr' as [[[= <- <-] <-]|[Hne Hr']].
      { exists p'. split; [done|]. by rewrite Ecfg. }
      destruct (Ht i' j' r' Hr') as (q & Hq & Hwq). destruct (decide (i = i')) as [<-|Hii].
      * assert (q = p) as -> by congruence. exists p'. split; [done|]. rewrite Ecfg.
        pose proof (po_base _ _ _ _ _ (gd_process _ _ _ Hg i p Hp)) as Hroot.
        assert (Rooted root (pr_cfg p)) as Hroot' by exact Hroot. eapply wp_quiet; [exact Hwq|]. cbn. split.
        { split; [by rewrite (sn_time _ _ _ _ _ Hs)|]. intros k Hk.
          destruct (sn_writes _ _ _ _ _ Hs k Hk) as (ext & -> & _). by exists ext. }
        apply (sn_keeps _ _ _ _ _ Hs). apply (Hn i j j'); [done..| |done]. congruence.
      * exists q. rewrite (sn_others _ _ _ _ _ Hs) by done. split; [done|].
        pose proof (po_base _ _ _ _ _ (gd_process _ _ _ Hg i' q Hq)) as Hroot.
        assert (Rooted root (pr_cfg q)) as Hroot' by exact Hroot. eapply wp_quiet; [exact Hwq|].
        by eapply (foreign_keeps i p).
    + intros i' j1 j2 r1 r2 q H1 H2 Hne Hq. cbn in *.
      assert (∃ q0, wd_procs σ !! i' = Some q0 ∧ pr_cfg q = pr_cfg q0) as (q0 & Hq0 & ->).
      { destruct (decide (i = i')) as [<-|Hii]; [exists p; split; congruence|exists q].
        by rewrite <- (sn_others _ _ _ _ _ Hs). }
      assert (∀ j' r', <[(i, j) := set_running r clk m']> ts !! (i', j') = Some r' →
        ∃ r0, ts !! (i', j') = Some r0 ∧ rn_role r0 = rn_role r') as Hold.
      { intros j' r' [[[= <- <-] <-]|[_ Hr']]%lookup_insert_Some; eauto. }
      destruct (Hold _ _ H1) as (r3 & H3 & <-), (Hold _ _ H2) as (r4 & H4 & <-). by apply (Hn i' j1 j2).
  - split; [done|]. split.
    + intros i' j' r. cbn. intros [_ Hr]%lookup_delete_Some. by eapply Ht.
    + intros i' j1 j2 r1 r2 p. cbn. intros [_ H1]%lookup_delete_Some [_ H2]%lookup_delete_Some. by apply (Hn i' j1 j2).
Qed.

Lemma reachable_sound s s' : sound s → rtc (step true) s s' → bounded path_of root s'.1 → sound s'.
Proof.
  intros Hs Hr. revert Hs. induction Hr as [s|s s1 s' H1 Hr IH]; [done|]. intros Hs Hb. apply IH; [|done].
  eapply step_sound; [done..|]. by eapply bounded_before.
Qed.

Lemma initial_sound σ : initial base σ → sound (σ, ∅).
Proof.
  intros [Hv Hl Hp Hh]. assert (∀ k, log_at σ k = []) as Hn by (intros k; unfold log_at; by rewrite Hl).
  split; [|done]. split; cbn.
  - intros k _. by rewrite Hn.
  - intros k _. rewrite Hn. by split.
  - intros k _. unfold object_ok. by rewrite Hn, Hv.
  - intros k a w _. by rewrite Hn.
  - intros k m v. by rewrite Hv.
  - intros i p Hi. destruct (Hp i p Hi) as ((d & E) & Ed). split.
    + by rewrite E.
    + rewrite E. cbn. lia.
    + rewrite Ed. by split.
    + intros k a w _. by rewrite Hn.
  - exact Hh.
Qed.

(** Every state a system gets to, and those where operations keep apart. *)
Definition reaches (apart : bool) (σ : World) : Prop :=
  ∃ σ0 ts, initial base σ0 ∧ rtc (step apart) (σ0, ∅) (σ, ts) ∧ bounded path_of root σ.
Definition reachable : World → Prop := reaches true.

Lemma reachable_good σ : reachable σ → good σ.
Proof.
  intros (σ0 & ts & Hi & Hr & Hb). eapply reachable_sound in Hr; [apply Hr|by apply initial_sound|done].
Qed.

(** ** Valid leases *)

Lemma holds_backed σ i p scope cell_id node_id : reachable σ → wd_procs σ !! i = Some p →
  holds_valid_local path_of (pr_cfg p) scope cell_id node_id (wd_time σ) (pr_dir p) = true →
  let k := lease_path path_of (pr_cfg p) scope cell_id in
  ∃ lease a w, d_local (pr_dir p) !! k = Some lease ∧ lw_node_id lease = node_id ∧
    log_at σ k !! a = Some w ∧ by_holder (holder_id (pr_cfg p)) w ∧ dw_node_id (w_lease w) = node_id ∧
    dw_generation (w_lease w) = lw_generation lease ∧ lw_valid_until lease ≤ expiry w ∧
    wd_time σ < lw_valid_until lease ∧
    ∀ b w', (a ≤ b)%nat → log_at σ k !! b = Some w' →
      same_owner w w' ∧ dw_generation (w_lease w') = dw_generation (w_lease w) ∧ dw_released (w_lease w') = false.
Proof.
  intros Hg%reachable_good Hp Hv k. unfold holds_valid_local in Hv. fold k in Hv.
  destruct (d_local (pr_dir p) !! k) as [lease|] eqn:El; [|done].
  apply andb_prop in Hv as [Hn Ht]. apply bool_decide_eq_true in Hn. apply N.ltb_lt in Ht.
  pose proof (gd_process _ _ _ Hg i p Hp) as [Hb _ Hd _].
  destruct (do_local _ _ _ _ _ _ Hd k lease El) as (_ & a & w & Ha & [Hw Hnode] & Hgen & Hu & Hr).
  exists lease, a, w. split_and!; [done|done|done|done|congruence|done|done|done|].
  eapply live_holder; [apply (gd_history _ _ _ Hg); by apply (paths_clock path_of root)|done|lia|].
  intros b w' Hab Hb' [En Eh] Eg. eapply Hr; [done|done| |congruence]. unfold of_node, by_holder in *. split; congruence.
Qed.

Lemma same_key σ i j p q scope cell_id : reachable σ → wd_procs σ !! i = Some p → wd_procs σ !! j = Some q →
  lease_path path_of (pr_cfg p) scope cell_id = lease_path path_of (pr_cfg q) scope cell_id.
Proof.
  intros Hg%reachable_good Hp Hq. unfold lease_path.
  by rewrite (po_base _ _ _ _ _ (gd_process _ _ _ Hg i p Hp)), (po_base _ _ _ _ _ (gd_process _ _ _ Hg j q Hq)).
Qed.

(** C3: a writer lease excludes: in no reachable state of any number of processes,
    each running any number of tasks that acquire, renew, release and abandon leases
    in any interleaving, or are dropped halfway, over a store whose failed puts may
    have been applied, do two processes both hold a valid lease on one cell.  Two
    conditions: the server's clock is read within the one second the code allows
    for it; and no process releases a cell while it acquires or renews that cell,
    releases a scope while it acquires a cell of it, or takes a scope up again while
    it still renews or releases a lease of it. *)
Theorem lease_exclusion σ i j p q scope cell_id node_id node_id' : reachable σ →
  wd_procs σ !! i = Some p → wd_procs σ !! j = Some q →
  holds_valid_local path_of (pr_cfg p) scope cell_id node_id (wd_time σ) (pr_dir p) = true →
  holds_valid_local path_of (pr_cfg q) scope cell_id node_id' (wd_time σ) (pr_dir q) = true →
  i = j.
Proof.
  intros Hr Hp Hq Hi Hj. pose proof (reachable_good σ Hr) as Hg.
  destruct (holds_backed σ i p _ _ _ Hr Hp Hi) as (l1 & a & w & _ & _ & Ha & Hw & _ & _ & _ & _ & Hla).
  destruct (holds_backed σ j q _ _ _ Hr Hq Hj) as (l2 & b & w' & _ & _ & Hb & Hw' & _ & _ & _ & _ & Hlb).
  rewrite <- (same_key σ i j p q scope cell_id Hr Hp Hq) in Hb, Hlb.
  eapply (gd_holders _ _ _ Hg i j p q Hp Hq). unfold by_holder in *.
  destruct (decide (a ≤ b)%nat).
  - destruct (Hla b w') as ([_ E] & _); [done|done|congruence].
  - destruct (Hlb a w) as ([_ E] & _); [lia|done|congruence].
Qed.

(** C4: under the conditions of the exclusion, a valid lease fences, whatever tasks
    its process runs beside: the lease object in the store is then the holder's own
    and not released, its generation is the one the process holds, and every lease
    of another owner ever written for the cell has a smaller generation. *)
Theorem lease_fences σ i p scope cell_id node_id : reachable σ → wd_procs σ !! i = Some p →
  holds_valid_local path_of (pr_cfg p) scope cell_id node_id (wd_time σ) (pr_dir p) = true →
  let k := lease_path path_of (pr_cfg p) scope cell_id in
  ∃ lease m value l, d_local (pr_dir p) !! k = Some lease ∧
    ls_view (wd_store σ) !! k = Some (m, value) ∧ decode_writer_lease k value = Ok l ∧
    dw_node_id l = node_id ∧ dw_holder_id l = holder_id (pr_cfg p) ∧ dw_released l = false ∧
    dw_generation l = lw_generation lease ∧
    ∀ w, w ∈ log_at σ k → dw_generation (w_lease w) < lw_generation lease ∨
      dw_generation (w_lease w) = lw_generation lease ∧
      dw_node_id (w_lease w) = node_id ∧ dw_holder_id (w_lease w) = holder_id (pr_cfg p).
Proof.
  intros Hr Hp Hi k. pose proof (reachable_good σ Hr) as Hg.
  destruct (holds_backed σ i p _ _ _ Hr Hp Hi) as (lease & a & w & Hl & _ & Ha & Hw & Hn & Hgen & _ & _ & Hall).
  fold k in Hl, Ha, Hall.
  assert (k ≠ clock) as Hk by apply (paths_clock path_of root), (po_base _ _ _ _ _ (gd_process _ _ _ Hg i p Hp)).
  pose proof (gd_object _ _ _ Hg k Hk) as Ho. unfold object_ok in Ho.
  destruct (last (log_at σ k)) as [w0|] eqn:Elast; [|apply last_None in Elast; by rewrite Elast in Ha].
  rewrite last_lookup in Elast. pose proof (lookup_lt_Some _ _ _ Ha).
  destruct (Hall (pred (length (log_at σ k))) w0 ltac:(lia) Elast) as ([En Eh] & Eg & Er).
  destruct Ho as (m & value & Hv & Hd & _ & _). unfold by_holder in Hw.
  exists lease, m, value, (w_lease w0). split_and!; [done|done|done|congruence|congruence|done|congruence|].
  intros w1 [b Hb]%list_elem_of_lookup. pose proof (gd_history _ _ _ Hg k Hk) as Hh.
  pose proof (lookup_lt_Some _ _ _ Hb).
  destruct (generation_grows _ _ Hh b (pred (length (log_at σ k))) w1 w0 (gd_bounded _ _ _ Hg k Hk) ltac:(lia) Hb Elast)
    as [Hlt|[[En' Eh'] Eg']]; [left; lia|right]. split_and!; congruence.
Qed.
End system.

(** ** A run of two processes *)

Definition cell (node_id : string) : LocalWriterLease := MkLocal GraphScope_default "cell-1" node_id 0 0.

(** The first takes the cell, renews it by two tasks at once, one of them halfway
    while it acquires the cell again, and gives it up; the second takes it over. *)
Definition handed_over : list event :=
  [Register 0 GraphScope_default "node-a";
   Start 0 0 (Acquire GraphScope_default "cell-1" "node-a"); Act 0 0 99; End 0 0; Pass (10 * SECOND);
   Start 1 0 (Acquire GraphScope_default "cell-1" "node-b"); Act 1 0 99; End 1 0;
   Start 0 0 (Renew "node-a" (cell "node-a")); Act 0 0 5; Start 0 1 (Renew "node-a" (cell "node-a")); Act 0 1 99;
   Start 0 2 (Acquire GraphScope_default "cell-1" "node-a"); Act 0 2 99; End 0 2; Act 0 0 99; End 0 0; End 0 1;
   Pass (5 * SECOND);
   Start 0 0 (ReleaseScope GraphScope_default "node-a"); Act 0 0 99; End 0 0;
   Start 1 0 (Acquire GraphScope_default "cell-1" "node-b"); Act 1 0 99; End 1 0].

Definition ends (lag : N) (apart : bool) (es : list event) : World (O := mem_store) :=
  match exec_all plain_path plain_error lag apart es (duo_world, ∅) with Some (σ, _) => σ | None => duo_world end.
Definition process_at (i : nat) (σ : World (O := mem_store)) : Process :=
  default (MkProcess (duo 0) empty_directory) (wd_procs σ !! i).

Lemma ends_reachable lag apart es :
  bool_decide (is_Some (exec_all plain_path plain_error lag apart es (duo_world, ∅))) = true →
  forallb (λ kw, N.of_nat (length kw.2) <? u64_max) (map_to_list (wd_log (ends lag apart es))) = true →
  reaches plain_path plain_error "hydra" lag apart (ends lag apart es).
Proof.
  intros Hs Hb. unfold ends in *. destruct (exec_all _ _ _ _ _ _) as [[σ ts]|] eqn:E.
  - exists duo_world, ts. split; [apply duo_initial|]. split; [by eapply exec_all_steps|].
    intros k _. unfold log_at. destruct (wd_log σ !! k) as [ws|] eqn:Ek; [|cbn; unfold u64_max; lia].
    rewrite forallb_forall in Hb. specialize (Hb (k, ws)). apply N.ltb_lt, Hb.
    by apply list_elem_of_In, elem_of_map_to_list.
  - by apply bool_decide_eq_true in Hs as [? ?].
Qed.

Lemma process_at_lookup i σ : bool_decide (is_Some (wd_procs σ !! i)) = true → wd_procs σ !! i = Some (process_at i σ).
Proof. intros [p E]%bool_decide_eq_true. unfold process_at. by rewrite E. Qed.

Definition holds_at (i : nat) (node_id : string) (σ : World (O := mem_store)) : bool :=
  holds_valid_local plain_path (pr_cfg (process_at i σ)) GraphScope_default "cell-1" node_id (wd_time σ)
    (pr_dir (process_at i σ)).

(** At once, the second process is refused; it holds the cell at the end. *)
Example handed_over_runs :
  let σ := ends (SECOND / 2) true handed_over in
  (holds_at 0 "node-a" (ends (SECOND / 2) true (firstn 8 handed_over)), holds_at 1 "node-b" (ends (SECOND / 2) true (firstn 8 handed_over)),
   holds_at 0 "node-a" σ, holds_at 1 "node-b" σ,
   (λ w, (dw_node_id (w_lease w), dw_generation (w_lease w), dw_released (w_lease w))) <$>
     log_at σ (lease_path plain_path (duo 0) GraphScope_default "cell-1"))
  = (true, false, false, true,
     [("node-a", 1, false); ("node-a", 1, false); ("node-a", 1, false); ("node-a", 1, true); ("node-b", 2, false)]).
Proof. vm_compute. reflexivity. Qed.

Lemma duo_lag : SECOND / 2 + ls_resolution + 2 * MILLI ≤ SECOND.
Proof. by vm_compute. Qed.

Lemma lease_exclusion_witness :
  let σ := ends (SECOND / 2) true handed_over in
  holds_at 1 "node-b" σ = true ∧ ∀ i p, wd_procs σ !! i = Some p →
    holds_valid_local plain_path (pr_cfg p) GraphScope_default "cell-1" "node-a" (wd_time σ) (pr_dir p) = true → i = 1%nat.
Proof.
  intros σ. assert (holds_at 1 "node-b" σ = true) as H1 by by vm_compute.
  assert (reachable plain_path plain_error "hydra" (SECOND / 2) σ) as Hr by (apply ends_reachable; by vm_compute).
  assert (wd_procs σ !! 1%nat = Some (process_at 1 σ)) as Hq by (apply process_at_lookup; by vm_compute).
  clearbody σ. split; [exact H1|]. intros i p Hp Hv.
  by apply (lease_exclusion plain_path plain_error "hydra" (SECOND / 2) duo_lag σ i 1 p (process_at 1 σ)
    GraphScope_default "cell-1" "node-a" "node-b").
Defined.

Lemma lease_fences_witness :
  let σ := ends (SECOND / 2) true handed_over in
  ∃ lease, ∀ w, w ∈ log_at σ (lease_path plain_path (pr_cfg (process_at 1 σ)) GraphScope_default "cell-1") →
    dw_generation (w_lease w) ≤ lw_generation lease.
Proof.
  intros σ. assert (holds_at 1 "node-b" σ = true) as H1 by by vm_compute.
  assert (reachable plain_path plain_error "hydra" (SECOND / 2) σ) as Hr by (apply ends_reachable; by vm_compute).
  assert (wd_procs σ !! 1%nat = Some (process_at 1 σ)) as Hq by (apply process_at_lookup; by vm_compute).
  clearbody σ. destruct (lease_fences plain_path plain_error "hydra" (SECOND / 2) duo_lag σ 1 (process_at 1 σ)
    GraphScope_default "cell-1" "node-b" Hr Hq H1) as (lease & m & v & l & _ & _ & _ & _ & _ & _ & _ & H).
  exists lease. intros w [Hw|[-> _]]%H; [by apply N.lt_le_incl|done].
Defined.

(** * Text *)

(** The text of a lease of valid names and nonzero numbers is written and reads
    back as what was written, with the duration in whole milliseconds. *)
Theorem lease_round_trip path node_id holder_id generation heartbeat duration released :
  component_ok node_id = true → component_ok holder_id = true →
  0 < generation → u64_ok generation → 0 < heartbeat → u64_ok heartbeat →
  MILLI ≤ duration → u64_ok (as_millis duration) →
  ∃ text, encode_writer_lease node_id holder_id generation heartbeat duration released = Ok text ∧
    decode_writer_lease path text = Ok (MkDecoded node_id holder_id generation heartbeat (as_millis duration) released).
Proof.
  intros Hn Hh Hg Hg' Hb Hb' Hd Hd'.
  destruct (encode_writer_lease node_id holder_id generation heartbeat duration released) as [text|e] eqn:E.
  - exists text. split; [done|]. by eapply encode_decoded in E as [? _].
  - unfold encode_writer_lease in E. rewrite (proj2 (validate_component_ok _ _) Hn) in E. cbn [mbind result_mbind result_bind] in E.
    rewrite (proj2 (validate_component_ok _ _) Hh) in E. cbn [mbind result_mbind result_bind] in E.
    by rewrite (proj2 (N.leb_le _ _) Hd') in E.
Qed.

(** * A slow probe of the server's clock *)

(** Another process reads the clock before a probe that takes ten seconds, and
    counts those ten seconds twice. *)
Definition slow_probe : list event :=
  [Start 0 0 (Acquire GraphScope_default "cell-1" "node-a"); Act 0 0 99; End 0 0; Pass (10 * SECOND);
   Start 1 0 (Acquire GraphScope_default "cell-1" "node-b"); Act 1 0 5; Pass (10 * SECOND); Act 1 0 99; End 1 0; Pass SECOND;
   Start 1 0 (Acquire GraphScope_default "cell-1" "node-b"); Act 1 0 99; End 1 0].

(** C6: with a probe of the server's clock slower than that second, exclusion fails:
    of two processes on one store, the one that probed takes over a cell twenty-one
    seconds after it was leased for thirty, and both hold a valid lease. *)
Theorem slow_probe_double_grant : ∃ σ p q,
  reachable plain_path plain_error "hydra" (10 * SECOND) σ ∧ wd_time σ = 21 * SECOND ∧
  wd_procs σ !! 0%nat = Some p ∧ wd_procs σ !! 1%nat = Some q ∧
  lease_duration (pr_cfg p) = 30 * SECOND ∧ holder_id (pr_cfg p) ≠ holder_id (pr_cfg q) ∧
  holds_valid_local plain_path (pr_cfg p) GraphScope_default "cell-1" "node-a" (wd_time σ) (pr_dir p) = true ∧
  holds_valid_local plain_path (pr_cfg q) GraphScope_default "cell-1" "node-b" (wd_time σ) (pr_dir q) = true.
Proof.
  set (σ := ends (10 * SECOND) true slow_probe). exists σ, (process_at 0 σ), (process_at 1 σ).
  split; [apply ends_reachable; by vm_compute|]. split; [by vm_compute|].
  split; [apply process_at_lookup; by vm_compute|]. split; [apply process_at_lookup; by vm_compute|].
  split; [by vm_compute|]. split; [|split; by vm_compute].
  apply (bool_decide_eq_true_1 (holder_id (pr_cfg (process_at 0 σ)) ≠ holder_id (pr_cfg (process_at 1 σ)))). by vm_compute.
Qed.

(** * A release beside a renewal *)


