(* ===== verification/LeaseProgress.v ===== *)
(** [LeaseProgress]: over a store that answers, a cell nobody holds any more is
    acquired at the first attempt: by a process that only has to be scheduled. *)

From stdpp Require Import relations.
From S2P Require Import Prelude Text TextFacts Errors Model Namespace Codec IndexStore Lease LeaseSystem LeaseLogic LeaseRules LeaseSpecs LeaseMem.

Local Open Scope N_scope.

Import lease.

(** What decodes is a well-formed lease. *)
Lemma decode_lease_ok path value l : decode_writer_lease path value = Ok l → lease_ok l.
Proof.
  unfold decode_writer_lease, parse_lease_u64. intros H.
  destruct (from_utf8 value) as [text|]; [|done]. cbn [map_err mbind result_mbind result_bind] in H.
  destruct (negb _); [done|].
  destruct (validate_component "node_id" _) eqn:En; [|done]. apply validate_component_ok' in En.
  destruct (validate_component "writer_lease_holder" _) eqn:Eh; [|done]. apply validate_component_ok' in Eh.
  cbn [mbind result_mbind result_bind] in H.
  destruct (parse_u64_text (default "" (lines text !! 3%nat))) eqn:E3; [|done]. apply parse_u64_text_ok in E3.
  destruct (parse_u64_text (default "" (lines text !! 4%nat))) eqn:E4; [|done]. apply parse_u64_text_ok in E4.
  destruct (parse_u64_text (default "" (lines text !! 5%nat))) eqn:E5; [|done]. apply parse_u64_text_ok in E5.
  cbn [map_err mbind result_mbind result_bind] in H.
  destruct (if bool_decide (lines text !! 6%nat = Some "active") then Ok false else _) as [released|]; [|done].
  cbn [mbind result_mbind result_bind] in H. destruct (_ || _ || _ || _) eqn:Ez; [done|]. simplify_eq.
  apply orb_false_iff in Ez as [[[Z1 Z2]%orb_false_iff Z3]%orb_false_iff _]. apply N.eqb_neq in Z1, Z2, Z3.
  split; cbn; try done; split; try done; lia.
Qed.

(** A store that answers: reads find what is there and an admitted put succeeds;
    its clock is late by no more than its resolution. *)
Class LeaseStoreAnswers (O : LeaseStore) (L : LeaseStoreLaws O) : Prop := {
  ans_get s k : (ls_get s k).2 =
    match ls_view s !! k with Some (m, value) => Ok (m, Ok value) | None => Err OsNotFound end;
  ans_head s k m value : ls_view s !! k = Some (m, value) → (ls_head s k).2 = Ok m;
  ans_put t s k value mode : lease_admits mode (ls_view s !! k) → (ls_put t s k value mode).2 = Ok tt;
  ans_stamp t t' : t ≤ t' →
    (Z.of_N (t' - t) ≤ (ls_stamp t' - ls_stamp t) * Z.of_N MILLI + Z.of_N ls_resolution)%Z;
}.

#[export] Instance mem_store_answers : LeaseStoreAnswers mem_store mem_store_laws.
Proof.
  split.
  - done.
  - intros s k m value E. cbn in *. by rewrite E.
  - intros t s k value mode H. cbn in *.
    destruct (mem_admits mode (ms_objects s !! k)) as [e|] eqn:E; [|done].
    destruct mode as [| |v]; cbn in H; [done|by rewrite H in E|].
    destruct H as (m & x & Hm & Hv). rewrite Hm in E. cbn in E. by rewrite bool_decide_true in E.
  - intros t t' H. cbn. unfold MILLI. pose proof (N.div_mod' t 1000000). pose proof (N.mod_lt t' 1000000 ltac:(done)).
    pose proof (N.div_mod' t' 1000000).
    generalize dependent (t / 1000000). generalize dependent (t' / 1000000).
    generalize dependent (t mod 1000000). generalize dependent (t' mod 1000000). lia.
Qed.

Section progress.
Context {O : LeaseStore} {L : LeaseStoreLaws O} {An : LeaseStoreAnswers O L}.
Context (path_of : string → string) (os_error_text : LeaseOsError → string) (lag : N) (apart : bool).
Context (i : nat) (cfg : Config).

Local Abbreviation step := (sys_step path_of os_error_text lag apart).

(** The task takes its actions one after the other. *)
Inductive eval {A} : prog A → N → World → A → N → World → Prop :=
  | eval_ret a c σ : eval (Ret a) c σ a c σ
  | eval_act m c σ p σ1 c1 m1 a c' σ' : wd_procs σ !! i = Some p → prompt lag c σ m → act i p σ c m = Some (σ1, c1, m1) →
      eval m1 c1 σ1 a c' σ' → eval m c σ a c' σ'.

Lemma eval_bind {A B} (m : prog A) (f : A → prog B) c σ a c1 σ1 b c2 σ2 :
  eval m c σ a c1 σ1 → eval (f a) c1 σ1 b c2 σ2 → eval (prog_bind m f) c σ b c2 σ2.
Proof.
  intros H Hf. revert Hf. induction H as [a c σ|m c σ p σ1' c1' m1 a c' σ' Hp Hpr Ha _ IH]; [done|]. intros Hf.
  apply (eval_act _ c σ p σ1' c1' (prog_bind m1 f)); [done| | |by apply IH]; [by destruct m|].
  destruct m; cbn in *; repeat case_match; simplify_eq; done.
Qed.

Lemma eval_steps j role (m : prog unit) c σ a c' σ' ts : eval m c σ a c' σ' →
  rtc step (σ, <[(i, j) := MkRunning role c m]> ts) (σ', <[(i, j) := MkRunning role c' (Ret a)]> ts).
Proof.
  intros H. revert ts. induction H as [a c σ|m c σ p σ1 c1 m1 a c' σ' Hp Hpr Ha _ IH]; intros ts; [done|].
  eapply rtc_l; [|by apply IH].
  replace (<[(i, j) := MkRunning role c1 m1]> ts)
    with (<[(i, j) := set_running (MkRunning role c m) c1 m1]> (<[(i, j) := MkRunning role c m]> ts)) by apply insert_insert_eq.
  eapply step_act; [done|by rewrite lookup_insert_eq|done..].
Qed.

(** The program ends, with that. *)
Definition reaches {A} (m : prog A) (c : N) (σ : World) (Φ : A → N → World → Prop) : Prop :=
  ∃ a c' σ', eval m c σ a c' σ' ∧ Φ a c' σ'.

Lemma reaches_ret {A} (a : A) c σ (Φ : A → N → World → Prop) : Φ a c σ → reaches (Ret a) c σ Φ.
Proof. intros H. exists a, c, σ. split; [constructor|done]. Qed.

Lemma reaches_seq {A B} (m : Task A) (f : A → Task B) c σ Φ :
  reaches m c σ (λ r c1 σ1, match r with Ok a => reaches (f a) c1 σ1 Φ | Err _ => False end) → reaches (m ≫= f) c σ Φ.
Proof.
  intros ([a|e] & c1 & σ1 & H & Hf); [|done]. destruct Hf as (b & c2 & σ2 & Hb & HΦ). exists b, c2, σ2. split; [|done].
  by eapply eval_bind.
Qed.

(** All of it at one moment. *)
Context (t : N).
Definition stands (p : Process) (V : gmap string (ObjectMeta * string)) (σ : World) : Prop :=
  wd_procs σ !! i = Some p ∧ ls_view (wd_store σ) = V ∧ wd_time σ = t ∧ pr_cfg p = cfg.

Section actions.
Context {A : Type} (Φ : A → N → World → Prop).
Context (p : Process) (V : gmap string (ObjectMeta * string)) (c : N) (σ : World) (Hs : stands p V σ).

Lemma reaches_act (m : prog A) σ1 c1 m1 : prompt lag c σ m → act i p σ c m = Some (σ1, c1, m1) → reaches m1 c1 σ1 Φ → reaches m c σ Φ.
Proof. destruct Hs as (Hp & _). intros Hpr Ha (a & c' & σ' & H & HΦ). exists a, c', σ'. split; [by eapply eval_act|done]. Qed.

Lemma reaches_now (k : N → prog A) : reaches (k t) t σ Φ → reaches (Now k) c σ Φ.
Proof. destruct Hs as (Hp & Hv & Ht & Hc). intros H. eapply reaches_act; [done|done|]. by rewrite Ht. Qed.

Lemma reaches_critical B (f : N → Directory → Directory * B) (k : B → prog A) :
  (∀ σ1, stands (enter p (f t (pr_dir p)).1) V σ1 → reaches (k (f t (pr_dir p)).2) c σ1 Φ) → reaches (Critical B f k) c σ Φ.
Proof.
  destruct Hs as (Hp & Hv & Ht & Hc). intros H. rewrite <- Ht in H. destruct (f (wd_time σ) (pr_dir p)) as [d b] eqn:E.
  eapply reaches_act; [done|cbn; by rewrite E|]. apply H.
  split; [cbn; by rewrite lookup_insert_eq|done].
Qed.

Lemma reaches_get path (k : _ → prog A) :
  (∀ σ1, stands p V σ1 →
    reaches (k (match V !! path with Some (m, value) => Ok (m, Ok value) | None => Err OsNotFound end)) c σ1 Φ) →
  reaches (Get path k) c σ Φ.
Proof.
  destruct Hs as (Hp & Hv & Ht & Hc). intros H. destruct (ls_get (wd_store σ) path) as [s r] eqn:E.
  pose proof (ans_get (wd_store σ) path) as Er. rewrite E, Hv in Er. cbn in Er. subst r.
  pose proof (ls_get_law _ _ _ _ E) as [Hv' _]. eapply reaches_act; [done|cbn; by rewrite E|].
  apply H. split_and!; [done|cbn; congruence|done|done].
Qed.

Lemma reaches_head path m value (k : _ → prog A) : V !! path = Some (m, value) → c = t →
  (∀ σ1, stands p V σ1 → reaches (k (Ok m)) c σ1 Φ) → reaches (Head path k) c σ Φ.
Proof.
  destruct Hs as (Hp & Hv & Ht & Hc). intros Hm Hclk H. destruct (ls_head (wd_store σ) path) as [s r] eqn:E.
  rewrite <- Hv in Hm. pose proof (ans_head _ _ _ _ Hm) as Er. rewrite E in Er. cbn in Er. subst r.
  pose proof (ls_head_law _ _ _ _ E) as [Hv' _]. eapply reaches_act; [cbn; lia|cbn; by rewrite E|].
  apply H. split_and!; [done|cbn; congruence|done|done].
Qed.

Lemma reaches_put path payload mode (k : _ → prog A) : lease_admits mode (V !! path) →
  (∀ v σ1, stands p (<[path := (MkMeta v (ls_stamp t), payload)]> V) σ1 → reaches (k (Ok tt)) c σ1 Φ) →
  reaches (Put path payload mode k) c σ Φ.
Proof.
  destruct Hs as (Hp & Hv & Ht & Hc). intros Hm H.
  destruct (ls_put (wd_time σ) (wd_store σ) path payload mode) as [s r] eqn:E.
  rewrite <- Hv in Hm. pose proof (ans_put (wd_time σ) _ _ payload _ Hm) as Er. rewrite E in Er. cbn in Er. subst r.
  apply ls_put_law in E as E'. destruct E' as (_ & [(? & _)|(v & _ & _ & _ & Hv')]); [done|].
  eapply reaches_act; [done|cbn; by rewrite E|]. apply (H v). split_and!; [done|cbn; congruence|done|done].
Qed.
End actions.

(** * Acquiring *)

Context (base : string) (Hbase : base_path cfg = base).
Context (Hkeys : ∀ cfg scope cell_id, base_path cfg = base → lease_path path_of cfg scope cell_id ≠ clock_key path_of base).
Local Abbreviation clock := (clock_key path_of base).

Definition decoded_stored (m : ObjectMeta) (l : DecodedWriterLease) : StoredWriterLease :=
  MkStored (dw_node_id l) (dw_holder_id l) (dw_generation l) (dw_heartbeat l) (from_millis (dw_duration_ms l))
    (om_version m) (om_last_modified_ms m) (dw_released l).

(** The object holds that lease, or none. *)
Definition holds_lease (V : gmap string (ObjectMeta * string)) (k : string) (c : option (ObjectMeta * DecodedWriterLease)) : Prop :=
  match c with
  | None => V !! k = None
  | Some (m, l) => ∃ value, V !! k = Some (m, value) ∧ decode_writer_lease k value = Ok l
  end.
Definition stored_lease (c : option (ObjectMeta * DecodedWriterLease)) : option StoredWriterLease :=
  (λ c, decoded_stored c.1 c.2) <$> c.

Lemma reaches_read k c p V t0 σ Φ : stands p V σ → holds_lease V k c →
  (∀ σ1, stands p V σ1 → Φ (Ok (stored_lease c)) t0 σ1) → reaches (read_stored os_error_text k) t0 σ Φ.
Proof.
  intros Hs Hc H. unfold read_stored, os_get. apply reaches_seq. eapply reaches_get; [done|]. intros σ1 Hs1.
  apply reaches_ret. destruct c as [[m l]|]; cbn in Hc.
  - destruct Hc as (value & -> & Hd). cbn [map_err lift]. apply reaches_seq, reaches_ret. rewrite Hd.
    apply reaches_seq, reaches_ret, reaches_ret. by apply H.
  - rewrite Hc. apply reaches_ret. by apply H.
Qed.

Lemma reaches_probe p V σ (Φ : Result Z → N → World → Prop) : stands p V σ →
  (∀ p' V' σ', stands p' V' σ' → (∀ k, k ≠ clock → V' !! k = V !! k) → Φ (Ok (ls_stamp t)) t σ') →
  reaches (probe_server_time path_of os_error_text cfg) t σ Φ.
Proof.
  intros Hs H. unfold probe_server_time, critical, os_put, os_head, lift.
  assert (clock_path path_of cfg = clock) as -> by (unfold clock_path, clock_key; by rewrite Hbase).
  apply reaches_seq. eapply reaches_critical; [done|]. intros σ1 Hs1. cbn [snd]. apply reaches_ret.
  apply reaches_seq. eapply reaches_put; [done|done|]. intros v σ2 Hs2. apply reaches_ret.
  apply reaches_seq, reaches_ret. cbn [map_err].
  apply reaches_seq. eapply reaches_head; [done|by rewrite lookup_insert_eq|done|]. intros σ3 Hs3. apply reaches_ret.
  apply reaches_seq, reaches_ret. cbn [map_err]. apply reaches_ret. eapply H; [done|].
  intros k Hk. by rewrite lookup_insert_ne.
Qed.

(** A lease whose time is over, as the store and the process's own observations
    have it. *)
Record over (k : string) (d : Directory) (m : ObjectMeta) (l : DecodedWriterLease) : Prop := {
  ov_written : ∃ written, om_last_modified_ms m = ls_stamp written ∧
    written + from_millis (dw_duration_ms l) + SECOND + ls_resolution ≤ t;
  ov_duration : (Z.of_N (dw_duration_ms l) + 1000 ≤ i64_max)%Z;
  ov_observed e : d_observed d !! k = Some e → ob_fingerprint e = fingerprint_of l →
    ob_observed_at e + ob_remaining_at_observation e ≤ t;
}.

Lemma over_age k d m l : over k d m l → u64_ok (dw_duration_ms l) →
  saturating_sub (duration_saturating_add (from_millis (dw_duration_ms l)) SERVER_TIMESTAMP_RESOLUTION_GUARD)
    (durable_age (ls_stamp t) (om_last_modified_ms m)) = 0.
Proof.
  intros [(written & -> & Ht) Hd _] Hu. pose proof (full_duration (MkWrite l (index.MkVersion None None) 0 0) Hu) as E.
  cbn in E. rewrite E. pose proof (ans_stamp written t ltac:(lia)) as Hs.
  unfold durable_age, saturating_sub, from_millis, MILLI, SECOND, i64_min, i64_max in *. lia.
Qed.

Lemma decoded_fingerprint m l : u64_ok (dw_duration_ms l) → stored_fingerprint (decoded_stored m l) = fingerprint_of l.
Proof. apply (stored_fingerprint_of (MkWrite l (om_version m) 0 0)). Qed.

Lemma reaches_shared_remaining k p V m l t0 σ (Φ : Result N → N → World → Prop) : stands p V σ → k ≠ clock → lease_ok l →
  over k (pr_dir p) m l →
  (∀ p' V' σ', stands p' V' σ' → V' !! k = V !! k → Φ (Ok 0) t σ') →
  reaches (shared_remaining_ms path_of os_error_text cfg k (decoded_stored m l)) t0 σ Φ.
Proof.
  intros Hs Hk Hl Ho H. destruct (lo_duration _ Hl) as [_ Hu]. unfold shared_remaining_ms, now, critical, update.
  rewrite decoded_fingerprint by done. apply reaches_seq. eapply reaches_now; [done|]. apply reaches_ret.
  apply reaches_seq. eapply reaches_critical; [done|]. intros σ2 Hs2. apply reaches_ret.
  set (p2 := enter _ _) in *. cbn [snd pr_dir]. clearbody p2.
  destruct (match d_observed (pr_dir p) !! k with Some _ => _ | None => None end) as [remaining|] eqn:Ehit.
  - destruct (d_observed (pr_dir p) !! k) as [e|] eqn:Ee; [|done]. case_bool_decide as Ef; [|done]. injection Ehit as <-.
    pose proof (ov_observed _ _ _ _ Ho e Ee Ef). apply reaches_ret.
    replace (remaining_after_elapsed e t) with 0; [by eapply H|].
    unfold remaining_after_elapsed, saturating_sub.
    replace (ob_remaining_at_observation e - (t - ob_observed_at e)) with 0 by lia. done.
  - clear Ehit. apply reaches_seq. eapply reaches_probe; [done|]. intros p3 V3 σ3 Hs3 HV3.
    cbn [decoded_stored sw_last_modified_ms sw_duration]. rewrite (over_age _ _ _ _ Ho Hu).
    apply reaches_seq. unfold critical. eapply reaches_critical; [done|]. intros σ4 Hs4. apply reaches_ret.
    apply reaches_ret. eapply H; [exact Hs4|]. by apply HV3.
Qed.

Lemma reaches_refuse k node_id cell_id c p V t0 σ (Φ : Result unit → N → World → Prop) : stands p V σ → k ≠ clock →
  match c with Some (m, l) => dw_released l = true ∨ lease_ok l ∧ over k (pr_dir p) m l | None => True end →
  (∀ p' V' t' σ', stands p' V' σ' → V' !! k = V !! k → Φ (Ok tt) t' σ') →
  reaches (refuse_other_owner path_of os_error_text cfg k node_id cell_id (stored_lease c)) t0 σ Φ.
Proof.
  intros Hs Hk Hc H. unfold refuse_other_owner, stored_lease.
  destruct c as [[m l]|]; cbn [fmap option_fmap option_map fst snd].
  2: { apply reaches_ret. by eapply H. }
  change (sw_released (decoded_stored m l)) with (dw_released l).
  destruct Hc as [->|[Hl Ho]]; [apply reaches_ret; by eapply H|].
  destruct (dw_released l); [apply reaches_ret; by eapply H|].
  apply reaches_seq. eapply reaches_shared_remaining; [done..|]. intros p' V' σ' Hs' HV'.
  apply reaches_ret. by eapply H.
Qed.

(** ** The acquisition *)

Context (scope : GraphScope) (cell_id node_id : string).
Context (Hcell : component_ok cell_id = true) (Hnode : component_ok node_id = true) (Hholder : component_ok (holder_id cfg) = true).
Context (Hdur : SECOND ≤ lease_duration cfg) (Hms : u64_ok (as_millis (lease_duration cfg))).
Local Abbreviation key := (lease_path path_of cfg scope cell_id).

Definition acquired (generation : N) (σ : World) : Prop := ∃ p, wd_procs σ !! i = Some p ∧ wd_time σ = t ∧ pr_cfg p = cfg ∧
  d_local (pr_dir p) !! key = Some (MkLocal scope cell_id node_id generation (t + lease_duration cfg)).

Lemma reaches_keep p V t0 σ generation (Φ : Result N → N → World → Prop) : stands p V σ →
  (∀ t' σ', acquired generation σ' → Φ (Ok generation) t' σ') →
  reaches (keep_local false key (MkLocal scope cell_id node_id generation (t + lease_duration cfg)) ≫= λ _, mret generation) t0 σ Φ.
Proof.
  intros Hs H. unfold keep_local, update, critical. apply reaches_seq, reaches_seq.
  eapply reaches_critical; [done|]. intros σ1 Hs1. apply reaches_ret.
  eapply reaches_critical; [done|]. intros σ2 Hs2. apply reaches_ret, reaches_ret. apply H.
  destruct Hs2 as (Hp & _ & Ht & Hc). eexists. split; [exact Hp|]. split_and!; [done|done|]. cbn. by rewrite lookup_insert_eq.
Qed.

Lemma reaches_cas n c p V t0 σ (Φ : Result N → N → World → Prop) : stands p V σ → holds_lease V key c →
  match c with Some (m, l) => dw_released l = true ∨ over key (pr_dir p) m l | None => True end →
  (∀ t' σ', acquired (next_generation cfg node_id (stored_lease c)) σ' → Φ (Ok (next_generation cfg node_id (stored_lease c))) t' σ') →
  reaches (cas_attempts path_of os_error_text cfg (S n) scope cell_id node_id false) t0 σ Φ.
Proof.
  intros Hs Hc Ho H. cbn [cas_attempts]. assert (key ≠ clock) as Hk by by apply Hkeys.
  assert (match c with Some (m, l) => lease_ok l | None => True end) as Hl.
  { destruct c as [[m l]|]; [|done]. destruct Hc as (value & _ & Hd). by eapply decode_lease_ok. }
  apply reaches_seq. eapply reaches_read; [done..|]. intros σ1 Hs1. apply reaches_seq.
  eapply reaches_refuse; [done|done| |].
  { destruct c as [[m l]|]; [|done]. destruct Ho; [by left|by right]. }
  intros p2 V2 t2 σ2 Hs2 HV2. unfold lift, now. apply reaches_seq, reaches_ret.
  destruct (encode_writer_lease _ _ _ _ _ false) as [payload|e] eqn:Ee.
  2: { unfold encode_writer_lease in Ee. rewrite (proj2 (validate_component_ok _ _) Hnode) in Ee. cbn [mbind result_mbind result_bind] in Ee.
       rewrite (proj2 (validate_component_ok _ _) Hholder) in Ee. cbn [mbind result_mbind result_bind] in Ee.
       by rewrite (proj2 (N.leb_le _ _) Hms) in Ee. }
  apply reaches_seq. eapply reaches_now; [done|]. apply reaches_ret.
  unfold put_lease, os_put. apply reaches_seq, reaches_seq. eapply reaches_put; [done| |].
  { rewrite HV2. destruct c as [[m l]|]; cbn in *; [|done]. destruct Hc as (value & -> & _). by exists m, value. }
  intros v σ4 Hs4. apply reaches_ret, reaches_ret. apply reaches_seq. eapply reaches_now; [done|].
  apply reaches_ret. rewrite (proj2 (N.leb_gt _ t)) by (unfold SECOND in *; lia).
  apply reaches_seq. unfold observe_successful_write, update, critical. eapply reaches_critical; [done|]. intros σ6 Hs6.
  apply reaches_ret. by eapply reaches_keep.
Qed.

Lemma reaches_acquire c p V t0 σ (Φ : Result N → N → World → Prop) : stands p V σ → d_local (pr_dir p) !! key = None →
  holds_lease V key c →
  match c with Some (m, l) => dw_released l = true ∨ over key (pr_dir p) m l | None => True end →
  (∀ t' σ', acquired (next_generation cfg node_id (stored_lease c)) σ' → Φ (Ok (next_generation cfg node_id (stored_lease c))) t' σ') →
  reaches (acquire_or_renew path_of os_error_text cfg scope cell_id node_id) t0 σ Φ.
Proof.
  intros Hs Hn Hc Ho H. unfold acquire_or_renew, acquire_or_renew_inner, lift, critical.
  rewrite (proj2 (validate_component_ok _ _) Hcell), (proj2 (validate_component_ok _ _) Hnode),
    (proj2 (validate_component_ok _ _) Hholder).
  do 3 (apply reaches_seq, reaches_ret). apply reaches_seq. eapply reaches_critical; [done|]. intros σ1 Hs1.
  apply reaches_ret. cbn [snd fst]. rewrite Hn. cbn [fst] in Hs1.
  eapply reaches_cas; [exact Hs1|done|done|done].
Qed.
End progress.

(** * Progress *)

Lemma reaches_discard {O : LeaseStore} {L : LeaseStoreLaws O} lag i {A} (m : Task A) c σ (Φ : Result A → N → World → Prop) :
  reaches lag i m c σ Φ → reaches lag i (discard m) c σ (λ _ c' σ', ∃ r, Φ r c' σ').
Proof.
  intros (r & c' & σ' & H & HΦ). exists tt, c', σ'. split; [|by exists r]. eapply eval_bind; [exact H|]. constructor.
Qed.

(** C5: a cell nobody holds is taken: over a store that answers, a process that
    finds no lease, a released one, or one written longer ago than its duration, the
    one-second guard and the resolution of the server's clock, whatever process
    wrote it and whatever other tasks are under way, acquires the cell by one task's
    own actions, without retrying, and then holds a valid lease of the next
    generation. *)
Theorem lease_takeover {O : LeaseStore} {L : LeaseStoreLaws O} {An : LeaseStoreAnswers O L}
  (path_of : string → string) (os_error_text : LeaseOsError → string) (lag : N) (apart : bool) (i j : nat) (p : Process)
  (scope : GraphScope) (cell_id node_id : string) (c : option (ObjectMeta * DecodedWriterLease))
  (σ : World) (ts : gmap (nat * nat) Running) :
  let cfg := pr_cfg p in
  let key := lease_path path_of cfg scope cell_id in
  (∀ cfg' scope cell_id, base_path cfg' = base_path cfg →
    lease_path path_of cfg' scope cell_id ≠ clock_key path_of (base_path cfg)) →
  scope_wf scope → component_ok cell_id = true → component_ok node_id = true → component_ok (holder_id cfg) = true →
  SECOND ≤ lease_duration cfg → u64_ok (as_millis (lease_duration cfg)) →
  wd_procs σ !! i = Some p → ts !! (i, j) = None →
  (apart = true → may_start path_of cfg ts i (Acquiring scope cell_id node_id)) → d_local (pr_dir p) !! key = None →
  holds_lease (ls_view (wd_store σ)) key c →
  match c with Some (m, l) => dw_released l = true ∨ over (wd_time σ) key (pr_dir p) m l | None => True end →
  ∃ σ' p' lease clock, rtc (sys_step path_of os_error_text lag apart) (σ, ts)
      (σ', <[(i, j) := MkRunning (Acquiring scope cell_id node_id) clock (Ret tt)]> ts) ∧
    wd_time σ' = wd_time σ ∧ wd_procs σ' !! i = Some p' ∧ d_local (pr_dir p') !! key = Some lease ∧
    lw_generation lease = match c with Some (m, l) => next_generation cfg node_id (Some (decoded_stored m l)) | None => 1 end ∧
    holds_valid_local path_of (pr_cfg p') scope cell_id node_id (wd_time σ') (pr_dir p') = true.
Proof.
  intros cfg key Hkeys Hscope Hcell Hnode Hholder Hdur Hms Hp Hts Hmay Hn Hc Ho.
  assert (stands i cfg (wd_time σ) p (ls_view (wd_store σ)) σ) as Hs by done.
  destruct (reaches_discard lag i _ 0 σ _ (reaches_acquire path_of os_error_text lag i cfg (wd_time σ) _ eq_refl Hkeys
    scope cell_id node_id Hcell Hnode Hholder Hdur Hms c p _ 0 σ
    (λ _ _ σ', acquired path_of i cfg (wd_time σ) scope cell_id node_id (next_generation cfg node_id (stored_lease c)) σ')
    Hs Hn Hc Ho (λ _ _ H, H))) as ([] & clock & σ' & He & (_ & p' & Hp' & Ht & Ec & Hl)).
  exists σ', p'. eexists _, clock. split_and!; [|done|done|exact Hl| |].
  - eapply rtc_l; [|eapply eval_steps, He]. eapply step_start; [done|done| |done|done]. apply op_acquire.
  - by destruct c as [[m l]|].
  - unfold holds_valid_local. rewrite Ec, Hl. unfold valid_at. cbn.
    rewrite bool_decide_true by done. apply N.ltb_lt. rewrite Ht. unfold SECOND in *. lia.
Qed.

(** The first process of the example deployment is gone for forty seconds. *)
Definition gone : World (O := mem_store) :=
  match exec_all plain_path plain_error 0 true
    [Start 0 0 (Acquire GraphScope_default "cell-1" "node-a"); Act 0 0 99; End 0 0; Pass (40 * SECOND)] (duo_world, ∅) with
  | Some (σ, _) => σ
  | None => duo_world
  end.

Definition waiting : Process := default (MkProcess (duo 0) empty_directory) (wd_procs gone !! 1%nat).

Lemma waiting_at : wd_procs gone !! 1%nat = Some waiting.
Proof.
  assert (bool_decide (is_Some (wd_procs gone !! 1%nat)) = true) as [p E]%bool_decide_eq_true by by vm_compute.
  unfold waiting. by rewrite E.
Qed.

Lemma lease_takeover_witness : ∃ σ' p' lease clock,
  rtc (sys_step plain_path plain_error 0 true) (gone, ∅)
    (σ', <[(1, 0)%nat := MkRunning (Acquiring GraphScope_default "cell-1" "node-b") clock (Ret tt)]> ∅) ∧
  wd_time σ' = wd_time gone ∧ wd_procs σ' !! 1%nat = Some p' ∧
  d_local (pr_dir p') !! lease_path plain_path (pr_cfg waiting) GraphScope_default "cell-1" = Some lease ∧
  lw_generation lease = 2 ∧
  holds_valid_local plain_path (pr_cfg p') GraphScope_default "cell-1" "node-b" (wd_time σ') (pr_dir p') = true.
Proof.
  pose proof waiting_at as Hp. set (l := MkDecoded "node-a" "holder-a" 1 1 30000 false).
  set (key := lease_path plain_path (pr_cfg waiting) GraphScope_default "cell-1").
  assert (component_ok (holder_id (pr_cfg waiting)) = true) as H1 by by vm_compute.
  assert ((SECOND <=? lease_duration (pr_cfg waiting)) = true) as H2%N.leb_le by by vm_compute.
  assert ((as_millis (lease_duration (pr_cfg waiting)) <=? u64_max) = true) as H3%N.leb_le by by vm_compute.
  assert (d_local (pr_dir waiting) !! key = None) as H4 by by vm_compute.
  assert (d_observed (pr_dir waiting) !! key = None) as H5 by by vm_compute.
  assert (ls_view (wd_store gone) !! key = Some (MkMeta (version_of 0) 0, unlines (lease_lines l))) as H6 by by vm_compute.
  assert (base_path (pr_cfg waiting) = trim_end_matches chr_slash "hydra") as H7 by by vm_compute.
  assert ((0 + from_millis 30000 + SECOND + MILLI <=? wd_time gone) = true) as H8%N.leb_le by by vm_compute.
  assert (next_generation (pr_cfg waiting) "node-b" (Some (decoded_stored (MkMeta (version_of 0) 0) l)) = 2) as H9 by by vm_compute.
  assert (scope_wf GraphScope_default) as Hwf by (apply (bool_decide_eq_true_1 (role_ok (Acquiring GraphScope_default "" ""))); by vm_compute).
  pose proof (@paths_clock _ _ duo_paths) as H10. generalize dependent gone. generalize dependent waiting. intros p key ? ? ? ? ? ? ? σ Hp H6 H8.
  rewrite <- H9.
  apply (lease_takeover plain_path plain_error 0 true 1 0 p GraphScope_default "cell-1" "node-b"
    (Some (MkMeta (version_of 0) 0, l)) σ ∅); try done.
  - intros cfg' scope cell_id E. rewrite H7. apply H10. by rewrite E.
  - eexists. split; [exact H6|]. by apply lease_decode_lines.
  - right. split; [by exists 0|done|]. intros e He. fold key in He. congruence.
Defined.

(** Whatever text decodes is a well-formed lease: names that may stand in a
    key, and generation, heartbeat and duration nonzero 64-bit numbers; and the
    canonical text of that lease decodes to it again. *)
Theorem lease_decode_typed path value l : decode_writer_lease path value = Ok l →
  lease_ok l ∧ decode_writer_lease path (unlines (lease_lines l)) = Ok l.
Proof. intros H%decode_lease_ok. split; [done|by apply lease_decode_lines]. Qed.

Definition loose_text : string :=
  "hydradb-writer-lease2" +:+ nl +:+ "node-a" +:+ nl +:+ "h" +:+ nl +:+ "+07" +:+ nl +:+ "1" +:+ nl +:+ "500" +:+ nl +:+ "released".
Lemma lease_decode_typed_witness :
  decode_writer_lease "k" loose_text = Ok (MkDecoded "node-a" "h" 7 1 500 true) ∧
  decode_writer_lease "k" (unlines (lease_lines (MkDecoded "node-a" "h" 7 1 500 true))) = Ok (MkDecoded "node-a" "h" 7 1 500 true).
Proof. split; [by vm_compute|]. apply (lease_decode_typed "k" loose_text). by vm_compute. Defined.
