(* ===== verification/BoltWire.v ===== *)
(** [client/bolt/wire.rs]: the Bolt handshake and the check of a message before it
    is decoded.  Bytes are numbers below 256. *)

From S2P Require Import Prelude Text Errors.

Local Open Scope N_scope.

Module bolt.

(** [boltr]'s errors, as far as the code makes them. *)
Inductive BoltError : Type :=
  | Io (error : string)
  | Protocol (message : string)
  | Query (code message : string)
  | Authentication (message : string)
  | Forbidden (message : string)
  | ResourceExhausted (message : string)
  | Transaction (message : string)
  | Backend (message : string).

Abbreviation BoltResult := (result BoltError).

Definition BOLT_MAGIC : list N := [0x60; 0x60; 0xb0; 0x17].
Definition BOLT_MANIFEST_V1 : list N := [0x00; 0x00; 0x01; 0xff].
Definition BOLT_NO_VERSION : list N := [0; 0; 0; 0].
Definition BOLT_SUPPORTED_VERSIONS : list (N * N) := [(5, 4); (5, 3); (5, 2); (5, 1)].
Definition BOLT_MAX_PACKSTREAM_DEPTH : nat := 32.

(** * A stream

    What the peer sends, what it was sent, and the write calls that will fail. *)
Record Stream := MkStream { st_in : list N; st_out : list N; st_faults : list (option string) }.

Definition IO (A : Type) : Type := Stream → Stream * BoltResult A.
Global Instance io_mret : MRet IO := λ _ a s, (s, Ok a).
Global Instance io_mbind : MBind IO := λ _ _ f m s,
  let '(s, r) := m s in match r with Ok a => f a s | Err e => (s, Err e) end.
Definition io_err {A} (e : BoltError) : IO A := λ s, (s, Err e).
Definition protocol {A} (message : string) : BoltResult A := Err (Protocol message).

Definition read_exact (n : nat) : IO (list N) := λ s,
  if (n <=? length (st_in s))%nat
  then (MkStream (drop n (st_in s)) (st_out s) (st_faults s), Ok (take n (st_in s)))
  else (MkStream [] (st_out s) (st_faults s), Err (Io "early eof")).
Definition read_u8 : IO N := λ s,
  match st_in s with
  | byte :: rest => (MkStream rest (st_out s) (st_faults s), Ok byte)
  | [] => (s, Err (Io "early eof"))
  end.
Definition write_fault (s : Stream) (out : list N) : Stream * BoltResult unit :=
  match st_faults s with
  | Some e :: faults => (MkStream (st_in s) (st_out s) faults, Err (Io e))
  | None :: faults => (MkStream (st_in s) out faults, Ok tt)
  | [] => (MkStream (st_in s) out [], Ok tt)
  end.
Definition write_all (bytes : list N) : IO unit := λ s, write_fault s (st_out s ++ bytes).
Definition flush : IO unit := λ s, write_fault s (st_out s).

(** * The handshake *)

Definition matching_bolt_version (proposal : list N) : option (N * N) :=
  match proposal with
  | [_; range; minor; major] =>
      find (λ candidate : N * N, (candidate.1 =? major) && (candidate.2 <=? minor)
              && (saturating_sub minor range <=? candidate.2)) BOLT_SUPPORTED_VERSIONS
  | _ => None
  end.

Definition exact_bolt_version (selected : list N) : option (N * N) :=
  match selected with
  | [a; b; minor; major] =>
      if negb (a =? 0) || negb (b =? 0) then None
      else if bool_decide ((major, minor) ∈ BOLT_SUPPORTED_VERSIONS) then Some (major, minor) else None
  | _ => None
  end.

(** Seven bits a byte; ten bytes hold 64 bits. *)
Fixpoint write_varint (fuel : nat) (value : N) : IO unit :=
  match fuel with
  | O => mret tt
  | S fuel =>
      let byte := N.land value 0x7f in
      let value := N.shiftr value 7 in
      let byte := if negb (value =? 0) then N.lor byte 0x80 else byte in
      write_all [byte] ;;
      if value =? 0 then mret tt else write_varint fuel value
  end.

Definition varint_too_large {A} : IO A := io_err (Protocol "manifest VarInt is too large").
Fixpoint read_varint_from (index : nat) (fuel : nat) (value : N) : IO N :=
  match fuel with
  | O => varint_too_large
  | S fuel =>
      byte ← read_u8;
      if (index =? 9)%nat && negb (N.land byte 0x7e =? 0) then varint_too_large
      else
        let value := N.lor value (N.shiftl (N.land byte 0x7f) (N.of_nat index * 7)) in
        if N.land byte 0x80 =? 0 then mret value else read_varint_from (S index) fuel value
  end.
Definition read_varint : IO N := read_varint_from 0 10 0.

(** [chunks_exact(4)]. *)
Fixpoint chunks4 (l : list N) : list (list N) :=
  match l with a :: b :: c :: d :: l => [a; b; c; d] :: chunks4 l | _ => [] end.

(** The client picks from the manifest. *)
Definition manifest_handshake : IO (N * N) :=
  write_all BOLT_MANIFEST_V1 ;;
  write_varint 10 1 ;;
  write_all [0; 3; 4; 5] ;;
  write_varint 10 0 ;;
  flush ;;
  selected ← read_exact 4;
  capabilities ← read_varint;
  match (if capabilities =? 0 then exact_bolt_version selected else None) with
  | Some version => mret version
  | None => io_err (Protocol "client selected an unsupported manifest version or capability")
  end.

Fixpoint answer_proposals (proposals : list (list N)) : IO (N * N) :=
  match proposals with
  | [] =>
      write_all BOLT_NO_VERSION ;;
      flush ;;
      io_err (Protocol "no compatible Bolt protocol version")
  | proposal :: proposals =>
      if bool_decide (proposal = BOLT_MANIFEST_V1) then manifest_handshake
      else match matching_bolt_version proposal with
           | Some version => write_all [0; 0; version.2; version.1] ;; flush ;; mret version
           | None => answer_proposals proposals
           end
  end.

Definition bolt_server_handshake : IO (N * N) :=
  magic ← read_exact 4;
  if negb (bool_decide (magic = BOLT_MAGIC)) then io_err (Protocol "invalid Bolt magic preamble")
  else
    proposals ← read_exact 16;
    answer_proposals (chunks4 proposals).

(** * Messages

    The markers and the message signatures are constants of [boltr]. *)
Record Markers := MkMarkers {
  NULL : N; FALSE : N; TRUE : N; FLOAT_64 : N; INT_8 : N; INT_16 : N; INT_32 : N; INT_64 : N;
  BYTES_8 : N; BYTES_16 : N; BYTES_32 : N; STRING_8 : N; STRING_16 : N; STRING_32 : N;
  LIST_8 : N; LIST_16 : N; LIST_32 : N; DICT_8 : N; DICT_16 : N; DICT_32 : N;
  TINY_STRING_NIBBLE : N; TINY_LIST_NIBBLE : N; TINY_DICT_NIBBLE : N; TINY_STRUCT_NIBBLE : N }.
Record Signatures := MkSignatures {
  HELLO : N; LOGON : N; LOGOFF : N; GOODBYE : N; RESET : N; RUN : N; DISCARD : N; PULL : N;
  BEGIN : N; COMMIT : N; ROLLBACK : N; ROUTE : N; TELEMETRY : N }.

Section messages.
Context (mk : Markers) (sig : Signatures).

(** Big-endian. *)
Definition be_number (bytes : list N) : N := foldl (λ acc b, acc * 256 + b) 0 bytes.

Definition read_packstream_length (input : list N) (width : nat) : BoltResult (N * list N) :=
  if (length input <? width)%nat then protocol "PackStream length ended unexpectedly"
  else Ok (be_number (take width input), drop width input).

Definition skip_packstream_bytes (input : list N) (len : N) : BoltResult (list N) :=
  if N.of_nat (length input) <? len then protocol "PackStream payload ended unexpectedly"
  else Ok (drop (N.to_nat len) input).

(** [checked_mul] on a 64-bit [usize]. *)
Definition checked_dict_values (entries : N) : BoltResult N :=
  if entries * 2 <=? u64_max then Ok (entries * 2) else protocol "PackStream dictionary is too large".

Definition push_packstream_container (containers : list N) (values : N) : BoltResult (list N) :=
  if (BOLT_MAX_PACKSTREAM_DEPTH <=? length containers)%nat
  then protocol ("PackStream nesting exceeds depth limit " +:+ dec (N.of_nat BOLT_MAX_PACKSTREAM_DEPTH))
  else Ok (values :: containers).

(** One turn of the loop; the innermost container comes first. *)
Definition packstream_value (containers : list N) (input : list N) : BoltResult (list N * list N) :=
  let skip input len := input ← skip_packstream_bytes input len; Ok (containers, input) in
  let skip_sized input width := '(len, input) ← read_packstream_length input width; skip input len in
  let push input values := containers ← push_packstream_container containers values; Ok (containers, input) in
  let push_list input width := '(len, input) ← read_packstream_length input width; push input len in
  let push_dict input width :=
    '(len, input) ← read_packstream_length input width;
    values ← checked_dict_values len;
    push input values in
  match input with
  | [] => protocol "PackStream value ended unexpectedly"
  | m :: input =>
      let high := N.land m 0xf0 in
      let low := N.land m 0x0f in
      if (m =? NULL mk) || (m =? FALSE mk) || (m =? TRUE mk) then Ok (containers, input)
      else if (m =? FLOAT_64 mk) || (m =? INT_64 mk) then skip input 8
      else if m =? INT_8 mk then skip input 1
      else if m =? INT_16 mk then skip input 2
      else if m =? INT_32 mk then skip input 4
      else if (m =? BYTES_8 mk) || (m =? STRING_8 mk) then skip_sized input 1%nat
      else if (m =? BYTES_16 mk) || (m =? STRING_16 mk) then skip_sized input 2%nat
      else if (m =? BYTES_32 mk) || (m =? STRING_32 mk) then skip_sized input 4%nat
      else if m =? LIST_8 mk then push_list input 1%nat
      else if m =? LIST_16 mk then push_list input 2%nat
      else if m =? LIST_32 mk then push_list input 4%nat
      else if m =? DICT_8 mk then push_dict input 1%nat
      else if m =? DICT_16 mk then push_dict input 2%nat
      else if m =? DICT_32 mk then push_dict input 4%nat
      else if (m <=? 0x7f) || (0xf0 <=? m) then Ok (containers, input)
      else if high =? TINY_STRING_NIBBLE mk then skip input low
      else if high =? TINY_LIST_NIBBLE mk then push input low
      else if high =? TINY_DICT_NIBBLE mk then values ← checked_dict_values low; push input values
      else if high =? TINY_STRUCT_NIBBLE mk then
        input ← skip_packstream_bytes input 1; push input low
      else protocol ("unknown PackStream marker 0x" +:+ zpad 2 (to_radix 16 m))
  end.

(** Out of fuel is [None]; twice the bytes and the containers are enough. *)
Fixpoint validate_loop (fuel : nat) (containers input : list N) : option (BoltResult unit) :=
  match fuel with
  | O => None
  | S fuel =>
      match containers with
      | [] => Some (match input with [] => Ok tt | _ => protocol "Bolt message contains trailing PackStream data" end)
      | remaining :: rest =>
          if remaining =? 0 then validate_loop fuel rest input
          else match packstream_value ((remaining - 1) :: rest) input with
               | Ok (containers, input) => validate_loop fuel containers input
               | Err e => Some (Err e)
               end
      end
  end.

Definition validate_packstream_values (values : list N) (root_values : N) : BoltResult unit :=
  default (Ok tt) (validate_loop (2 * length values + 3) [root_values] values).

Definition expected_bolt_fields (tag : N) : BoltResult N :=
  if (tag =? HELLO sig) || (tag =? LOGON sig) || (tag =? PULL sig) || (tag =? DISCARD sig)
     || (tag =? BEGIN sig) || (tag =? TELEMETRY sig) then Ok 1
  else if (tag =? RUN sig) || (tag =? ROUTE sig) then Ok 3
  else if (tag =? LOGOFF sig) || (tag =? GOODBYE sig) || (tag =? RESET sig) || (tag =? COMMIT sig)
     || (tag =? ROLLBACK sig) then Ok 0
  else protocol ("unknown Bolt message signature 0x" +:+ zpad 2 (to_radix 16 tag)).

(** What is checked before [boltr] decodes. *)
Definition check_client_message (data : list N) : BoltResult unit :=
  match data with
  | head :: tag :: body =>
      if negb (N.land head 0xf0 =? TINY_STRUCT_NIBBLE mk) then protocol "Bolt message must be a PackStream structure"
      else
        let field_count := N.land head 0x0f in
        expected ← expected_bolt_fields tag;
        if negb (field_count =? expected) then
          protocol ("Bolt message 0x" +:+ zpad 2 (to_radix 16 tag) +:+ " has " +:+ dec field_count
            +:+ " fields; expected " +:+ dec expected)
        else validate_packstream_values body field_count
  | _ => protocol "Bolt message must be a PackStream structure"
  end.

Definition strict_decode_client_message {Message : Type} (decode_client_message : list N → BoltResult Message)
  (data : list N) : BoltResult Message :=
  check_client_message data ;;
  decode_client_message data.
End messages.
End bolt.
