(* ===== verification/BoltWireFacts.v ===== *)
(** [BoltWireFacts]: the check of a message accepts exactly well-formed PackStream of
    bounded depth, variable-length integers read back, and a handshake ends with a
    version both sides named. *)

From S2P Require Import Prelude Text TextFacts Errors BoltWire.

Local Open Scope N_scope.

Import bolt.

(** * PackStream

    The markers as PackStream documents them. *)
Definition packstream : Markers := {|
  NULL := 0xc0; FLOAT_64 := 0xc1; FALSE := 0xc2; TRUE := 0xc3;
  INT_8 := 0xc8; INT_16 := 0xc9; INT_32 := 0xca; INT_64 := 0xcb;
  BYTES_8 := 0xcc; BYTES_16 := 0xcd; BYTES_32 := 0xce;
  STRING_8 := 0xd0; STRING_16 := 0xd1; STRING_32 := 0xd2;
  LIST_8 := 0xd4; LIST_16 := 0xd5; LIST_32 := 0xd6; DICT_8 := 0xd8; DICT_16 := 0xd9; DICT_32 := 0xda;
  TINY_STRING_NIBBLE := 0x80; TINY_LIST_NIBBLE := 0x90; TINY_DICT_NIBBLE := 0xa0; TINY_STRUCT_NIBBLE := 0xb0 |}.

Definition is_byte (b : N) : Prop := b < 256.

(** What a value starts with: a whole scalar, or the start of a container and the
    number of values in it. *)
Inductive header : list N → option N → Prop :=
  | header_plain m : m ≤ 0x7f ∨ 0xf0 ≤ m ∨ m ∈ [0xc0; 0xc2; 0xc3] → header [m] None
  | header_fixed m n body : (m, n) ∈ [(0xc1, 8); (0xcb, 8); (0xc8, 1); (0xc9, 2); (0xca, 4)] →
      N.of_nat (length body) = n → header (m :: body) None
  | header_sized m w size body :
      (m, w) ∈ [(0xcc, 1%nat); (0xd0, 1%nat); (0xcd, 2%nat); (0xd1, 2%nat); (0xce, 4%nat); (0xd2, 4%nat)] →
      length size = w → N.of_nat (length body) = be_number size → header (m :: size ++ body) None
  | header_tiny_string n body : n < 16 → N.of_nat (length body) = n → header ((0x80 + n) :: body) None
  | header_list m w size : (m, w) ∈ [(0xd4, 1%nat); (0xd5, 2%nat); (0xd6, 4%nat)] →
      length size = w → header (m :: size) (Some (be_number size))
  | header_dict m w size : (m, w) ∈ [(0xd8, 1%nat); (0xd9, 2%nat); (0xda, 4%nat)] →
      length size = w → header (m :: size) (Some (be_number size * 2))
  | header_tiny_list n : n < 16 → header [0x90 + n] (Some n)
  | header_tiny_dict n : n < 16 → header [0xa0 + n] (Some (n * 2))
  | header_tiny_struct n tag : n < 16 → header [0xb0 + n; tag] (Some n).

(** Values inside so many containers, the message itself included. *)
Inductive value : nat → list N → Prop :=
  | value_scalar d h : header h None → value d h
  | value_container d h k body : header h (Some k) → (d < BOLT_MAX_PACKSTREAM_DEPTH)%nat → values (S d) k body →
      value d (h ++ body)
with values : nat → N → list N → Prop :=
  | values_nil d : values d 0 []
  | values_cons d n v l : value d v → values d n l → values d (N.succ n) (v ++ l).

Lemma nibbles m : is_byte m → N.land m 0xf0 = 16 * (m / 16) ∧ N.land m 0x0f = m mod 16.
Proof.
  intros H. assert (forallb (λ n, let m := N.of_nat n in
    (N.land m 0xf0 =? 16 * (m / 16)) && (N.land m 0x0f =? m mod 16)) (seq 0 256) = true) as Hall by by vm_compute.
  rewrite forallb_forall in Hall. specialize (Hall (N.to_nat m)). rewrite N2Nat.id in Hall.
  unfold is_byte in H. apply andb_prop in Hall as [H1%N.eqb_eq H2%N.eqb_eq]; [done|]. apply in_seq. lia.
Qed.

Lemma be_number_bound size : Forall is_byte size → be_number size < 256 ^ N.of_nat (length size).
Proof.
  unfold be_number. assert (∀ acc b, acc < b → Forall is_byte size →
    foldl (λ acc b, acc * 256 + b) acc size < b * 256 ^ N.of_nat (length size)) as H; [|intros Hs; rewrite <- (N.mul_1_l (256 ^ _)); by apply (H 0 1)].
  induction size as [|x size IH]; intros acc b Hb Hs; [cbn; lia|]. apply Forall_cons in Hs as [Hx Hs].
  cbn [foldl length]. rewrite Nat2N.inj_succ, N.pow_succ_r', N.mul_assoc. apply IH; [|done].
  unfold is_byte in Hx. nia.
Qed.

Section turn.
Context (cs : list N).

(** Where a turn leaves the containers. *)
Definition opened (c : option N) (cs' : list N) : Prop :=
  match c with
  | None => cs' = cs
  | Some k => (length cs < BOLT_MAX_PACKSTREAM_DEPTH)%nat ∧ cs' = k :: cs
  end.

Lemma skip_app body rest n : N.of_nat (length body) = n → skip_packstream_bytes (body ++ rest) n = Ok rest.
Proof.
  intros <-. unfold skip_packstream_bytes. rewrite length_app.
  rewrite (proj2 (N.ltb_ge _ _)) by lia. by rewrite Nat2N.id, drop_app_length.
Qed.
Lemma read_length_app size rest w : length size = w → read_packstream_length (size ++ rest) w = Ok (be_number size, rest).
Proof.
  intros <-. unfold read_packstream_length. rewrite length_app.
  rewrite (proj2 (Nat.ltb_ge _ _)) by lia. by rewrite take_app_length, drop_app_length.
Qed.
Lemma push_ok k : (length cs < BOLT_MAX_PACKSTREAM_DEPTH)%nat → push_packstream_container cs k = Ok (k :: cs).
Proof. intros H. unfold push_packstream_container. by rewrite (proj2 (Nat.leb_gt _ _)). Qed.
Lemma dict_ok n : n < 256 ^ 4 → checked_dict_values n = Ok (n * 2).
Proof. intros H. unfold checked_dict_values. rewrite (proj2 (N.leb_le _ _)); [done|]. unfold u64_max. change (256 ^ 4) with 4294967296 in H. lia. Qed.

(** A well-formed start is taken. *)
Definition after (c : option N) : list N := match c with Some k => k :: cs | None => cs end.
Definition taken (h : list N) (c : option N) : Prop := ∀ rest, opened c (after c) →
  packstream_value packstream cs (h ++ rest) = Ok (after c, rest).

Ltac members H := repeat (apply elem_of_cons in H as [H|H]; [simplify_eq|]); [..|by apply elem_of_nil in H].
Ltac turn := cbn -[skip_packstream_bytes read_packstream_length checked_dict_values push_packstream_container app].

Lemma plain_taken m : m ≤ 0x7f ∨ 0xf0 ≤ m ∨ m ∈ [0xc0; 0xc2; 0xc3] → taken [m] None.
Proof.
  intros [Hm|[Hm|Hm]] rest _; [..|members Hm; done].
  all: cbn; repeat (rewrite (proj2 (N.eqb_neq _ _)) by lia); cbn.
  - by rewrite (proj2 (N.leb_le m 127)).
  - rewrite (proj2 (N.leb_le 240 m)) by lia. by rewrite orb_true_r.
Qed.

Lemma fixed_taken m n body : (m, n) ∈ [(0xc1, 8); (0xcb, 8); (0xc8, 1); (0xc9, 2); (0xca, 4)] →
  N.of_nat (length body) = n → taken (m :: body) None.
Proof. intros Hm Hl rest _. rewrite <- app_comm_cons. members Hm; turn; by rewrite skip_app. Qed.

Lemma sized_taken m w size body :
  (m, w) ∈ [(0xcc, 1%nat); (0xd0, 1%nat); (0xcd, 2%nat); (0xd1, 2%nat); (0xce, 4%nat); (0xd2, 4%nat)] →
  length size = w → N.of_nat (length body) = be_number size → taken (m :: size ++ body) None.
Proof.
  intros Hm Hl Hs rest _. rewrite <- app_comm_cons, <- (assoc_L (++)).
  members Hm; turn; rewrite read_length_app by done; turn; by rewrite skip_app.
Qed.

Lemma list_taken m w size : (m, w) ∈ [(0xd4, 1%nat); (0xd5, 2%nat); (0xd6, 4%nat)] →
  length size = w → taken (m :: size) (Some (be_number size)).
Proof.
  intros Hm Hl rest [Ho _]. rewrite <- app_comm_cons.
  members Hm; turn; rewrite read_length_app by done; turn; by rewrite push_ok.
Qed.

Lemma dict_taken m w size : (m, w) ∈ [(0xd8, 1%nat); (0xd9, 2%nat); (0xda, 4%nat)] →
  length size = w → Forall is_byte size → taken (m :: size) (Some (be_number size * 2)).
Proof.
  intros Hm Hl Hb rest [Ho _]. rewrite <- app_comm_cons. apply be_number_bound in Hb.
  assert (be_number size < 256 ^ 4) as Hlt.
  { eapply N.lt_le_trans; [exact Hb|]. apply N.pow_le_mono_r; [done|]. members Hm; lia. }
  members Hm; turn; rewrite read_length_app by done; turn; rewrite dict_ok by done; turn; by rewrite push_ok.
Qed.

(** The markers that hold their size. *)
Lemma tiny_turn high low rest : 8 ≤ high < 12 → low < 16 →
  packstream_value packstream cs ((16 * high + low) :: rest) =
  if high =? 8 then input ← skip_packstream_bytes rest low; Ok (cs, input)
  else if high =? 9 then containers ← push_packstream_container cs low; Ok (containers, rest)
  else if high =? 10 then
    values ← checked_dict_values low; containers ← push_packstream_container cs values; Ok (containers, rest)
  else input ← skip_packstream_bytes rest 1; containers ← push_packstream_container cs low; Ok (containers, input).
Proof.
  intros Hh Hl. destruct (nibbles (16 * high + low)) as [E1 E2]; [unfold is_byte; lia|].
  assert ((16 * high + low) / 16 = high) as Eq by (symmetry; apply (N.div_unique _ _ _ low); lia).
  assert ((16 * high + low) mod 16 = low) as Er by (symmetry; apply (N.mod_unique _ _ high); lia).
  unfold packstream_value. rewrite E1, E2, Eq, Er. cbn [NULL FALSE TRUE FLOAT_64 INT_8 INT_16 INT_32 INT_64 BYTES_8 BYTES_16
    BYTES_32 STRING_8 STRING_16 STRING_32 LIST_8 LIST_16 LIST_32 DICT_8 DICT_16 DICT_32 TINY_STRING_NIBBLE
    TINY_LIST_NIBBLE TINY_DICT_NIBBLE TINY_STRUCT_NIBBLE packstream].
  repeat rewrite (proj2 (N.eqb_neq (16 * high + low) _)) by lia. cbn [orb].
  rewrite (proj2 (N.leb_gt _ 127)), (proj2 (N.leb_gt 240 _)) by lia. cbn [orb].
  assert (high = 8 ∨ high = 9 ∨ high = 10 ∨ high = 11) as [->|[->|[->| ->]]] by lia; reflexivity.
Qed.

Lemma tiny_taken n : n < 16 →
  (∀ body, N.of_nat (length body) = n → taken ((0x80 + n) :: body) None) ∧
  taken [0x90 + n] (Some n) ∧ taken [0xa0 + n] (Some (n * 2)) ∧ (∀ tag, taken [0xb0 + n; tag] (Some n)).
Proof.
  intros Hn. split_and!; [intros body Hl rest _|intros rest [Ho _]..|intros tag rest [Ho _]]; rewrite <- app_comm_cons.
  - rewrite (tiny_turn 8) by lia. turn. by rewrite skip_app.
  - rewrite (tiny_turn 9) by lia. turn. by rewrite push_ok.
  - rewrite (tiny_turn 10) by lia. turn. rewrite dict_ok by (change (256 ^ 4) with 4294967296; lia). turn. by rewrite push_ok.
  - rewrite (tiny_turn 11) by lia. turn. rewrite (skip_app [tag]) by done. turn. by rewrite push_ok.
Qed.

Lemma header_taken h c : header h c → Forall is_byte h → taken h c.
Proof.
  intros [m Hm|m n body Hm Hl|m w size body Hm Hl Hs|n body Hn Hl|m w size Hm Hl|m w size Hm Hl|n Hn|n Hn|n tag Hn] Hb.
  - by apply plain_taken.
  - by eapply fixed_taken.
  - by eapply sized_taken.
  - by apply tiny_taken.
  - by eapply list_taken.
  - eapply dict_taken; [done..|]. by apply Forall_cons in Hb as [_ Hb].
  - by apply tiny_taken.
  - by apply tiny_taken.
  - by apply tiny_taken.
Qed.

(** ** What is taken is well formed *)

Lemma skip_inv input n rest : skip_packstream_bytes input n = Ok rest →
  ∃ body, input = body ++ rest ∧ N.of_nat (length body) = n.
Proof.
  unfold skip_packstream_bytes. destruct (_ <? n) eqn:E; [done|]. apply N.ltb_ge in E. intros [= <-].
  exists (take (N.to_nat n) input). split; [by rewrite take_drop|]. rewrite length_take. lia.
Qed.
Lemma read_length_inv input w n rest : read_packstream_length input w = Ok (n, rest) →
  ∃ size, input = size ++ rest ∧ length size = w ∧ n = be_number size.
Proof.
  unfold read_packstream_length. destruct (_ <? w)%nat eqn:E; [done|]. apply Nat.ltb_ge in E. intros [= <- <-].
  exists (take w input). split; [by rewrite take_drop|]. split; [rewrite length_take; lia|done].
Qed.
Lemma push_inv k cs' : push_packstream_container cs k = Ok cs' → opened (Some k) cs'.
Proof.
  unfold push_packstream_container. destruct (_ <=? length cs)%nat eqn:E; [done|]. apply Nat.leb_gt in E.
  by intros [= <-].
Qed.

Definition started (input : list N) (cs' input' : list N) : Prop :=
  ∃ h c, input = h ++ input' ∧ header h c ∧ opened c cs'.

Lemma skip_started m input n cs' input' : (∀ body, N.of_nat (length body) = n → header (m :: body) None) →
  (input ← skip_packstream_bytes input n; Ok (cs, input)) = Ok (cs', input') → started (m :: input) cs' input'.
Proof.
  intros Hh (rest & (body & -> & Hl)%skip_inv & [= <- <-])%bind_ok. exists (m :: body), None. by split_and!; [|apply Hh|].
Qed.

Lemma sized_started m w input cs' input' :
  (m, w) ∈ [(0xcc, 1%nat); (0xd0, 1%nat); (0xcd, 2%nat); (0xd1, 2%nat); (0xce, 4%nat); (0xd2, 4%nat)] →
  ('(len, input) ← read_packstream_length input w; input ← skip_packstream_bytes input len; Ok (cs, input)) = Ok (cs', input') →
  started (m :: input) cs' input'.
Proof.
  intros Hm ([n rest] & (size & -> & Hl & ->)%read_length_inv & (rest' & (body & -> & Hb)%skip_inv & [= <- <-])%bind_ok)%bind_ok.
  exists (m :: size ++ body), None. split; [by rewrite <- app_comm_cons, <- (assoc_L (++))|]. split; [by eapply header_sized|done].
Qed.

Lemma list_started m w input cs' input' : (m, w) ∈ [(0xd4, 1%nat); (0xd5, 2%nat); (0xd6, 4%nat)] →
  ('(len, input) ← read_packstream_length input w; containers ← push_packstream_container cs len; Ok (containers, input))
    = Ok (cs', input') → started (m :: input) cs' input'.
Proof.
  intros Hm ([n rest] & (size & -> & Hl & ->)%read_length_inv & (cs1 & Hp%push_inv & [= <- <-])%bind_ok)%bind_ok.
  exists (m :: size), (Some (be_number size)). split_and!; [done|by eapply header_list|done].
Qed.

Lemma dict_inv n v : checked_dict_values n = Ok v → v = n * 2.
Proof. unfold checked_dict_values. case_match; [|done]. by intros [= <-]. Qed.

Lemma dict_started m w input cs' input' : (m, w) ∈ [(0xd8, 1%nat); (0xd9, 2%nat); (0xda, 4%nat)] →
  ('(len, input) ← read_packstream_length input w; values ← checked_dict_values len;
   containers ← push_packstream_container cs values; Ok (containers, input)) = Ok (cs', input') →
  started (m :: input) cs' input'.
Proof.
  intros Hm ([n rest] & (size & -> & Hl & ->)%read_length_inv & (v & ->%dict_inv & (cs1 & Hp%push_inv & [= <- <-])%bind_ok)%bind_ok)%bind_ok.
  exists (m :: size), (Some (be_number size * 2)). split_and!; [done|by eapply header_dict|done].
Qed.

Lemma plain_started m input : m ≤ 0x7f ∨ 0xf0 ≤ m ∨ m ∈ [0xc0; 0xc2; 0xc3] → started (m :: input) cs input.
Proof. intros H. exists [m], None. split_and!; [done|by constructor|done]. Qed.

Lemma tiny_started high low input cs' input' : 8 ≤ high < 12 → low < 16 →
  packstream_value packstream cs ((16 * high + low) :: input) = Ok (cs', input') →
  started ((16 * high + low) :: input) cs' input'.
Proof.
  intros Hh Hl H. rewrite tiny_turn in H by done.
  assert (high = 8 ∨ high = 9 ∨ high = 10 ∨ high = 11) as [->|[->|[->| ->]]] by lia; cbn [N.eqb Pos.eqb] in H.
  - eapply skip_started; [|exact H]. intros body Hb. by apply header_tiny_string.
  - apply bind_ok in H as (cs1 & Hp%push_inv & [= <- <-]). exists [0x90 + low], (Some low). by split_and!; [|constructor|].
  - apply bind_ok in H as (v & ->%dict_inv & H). apply bind_ok in H as (cs1 & Hp%push_inv & [= <- <-]).
    exists [0xa0 + low], (Some (low * 2)). by split_and!; [|constructor|].
  - apply bind_ok in H as (rest & (body & -> & Hb)%skip_inv & H). apply bind_ok in H as (cs1 & Hp%push_inv & [= <- <-]).
    destruct body as [|tag [|]]; cbn in Hb; [lia| |lia]. exists [0xb0 + low; tag], (Some low). by split_and!; [|constructor|].
Qed.

Lemma turn_sound input cs' input' : Forall is_byte input →
  packstream_value packstream cs input = Ok (cs', input') → started input cs' input'.
Proof.
  intros Hb H. destruct input as [|m input]; [done|]. apply Forall_cons in Hb as [Hm _].
  destruct (decide (0x80 ≤ m ∧ m < 0xc0)) as [[H1 H2]|Hout].
  { assert (∃ high low, m = 16 * high + low ∧ low < 16) as (high & low & -> & Hl).
    { exists (m / 16), (m mod 16). split; [apply N.div_mod'|by apply N.mod_lt]. }
    apply tiny_started; [lia|done|done]. }
  unfold packstream_value in H. cbn [NULL FALSE TRUE FLOAT_64 INT_8 INT_16 INT_32 INT_64 BYTES_8 BYTES_16
    BYTES_32 STRING_8 STRING_16 STRING_32 LIST_8 LIST_16 LIST_32 DICT_8 DICT_16 DICT_32 TINY_STRING_NIBBLE
    TINY_LIST_NIBBLE TINY_DICT_NIBBLE TINY_STRUCT_NIBBLE packstream] in H.
  rewrite (proj1 (nibbles m Hm)) in H.
  assert (∀ high, 8 ≤ high < 12 → (16 * (m / 16) =? 16 * high) = false) as Hhigh.
  { intros high Hh. apply N.eqb_neq. intros E. apply Hout. pose proof (N.div_mod' m 16).
    pose proof (N.mod_lt m 16 ltac:(done)). generalize dependent (m / 16). generalize dependent (m mod 16). clear -Hh. lia. }
  rewrite (Hhigh 8 ltac:(lia) : (_ =? 128) = false), (Hhigh 9 ltac:(lia) : (_ =? 144) = false),
    (Hhigh 10 ltac:(lia) : (_ =? 160) = false), (Hhigh 11 ltac:(lia) : (_ =? 176) = false) in H.
  repeat match type of H with (if ?b then _ else _) = _ => let E := fresh "E" in destruct b eqn:E end.
  all: repeat match goal with H : (_ || _) = true |- _ => apply orb_prop in H as [H|H] end.
  all: repeat match goal with H : (_ =? _) = true |- _ => apply N.eqb_eq in H; subst m end.
  all: repeat match goal with H : (_ <=? _) = true |- _ => apply N.leb_le in H end.
  all: first [by (eapply sized_started; [|exact H]; rewrite !elem_of_cons; naive_solver)
    |by (eapply list_started; [|exact H]; rewrite !elem_of_cons; naive_solver)
    |by (eapply dict_started; [|exact H]; rewrite !elem_of_cons; naive_solver)|idtac].
  all: try (simplify_eq; apply plain_started; rewrite !elem_of_cons; first [by left|by right; left|naive_solver]).
  all: eapply skip_started; [|exact H]; intros body Hl; eapply header_fixed; [|exact Hl]; rewrite !elem_of_cons; naive_solver.
Qed.
End turn.

(** ** The loop *)

(** The rest of the message: what each container still lacks, innermost first. *)
Fixpoint awaited (containers : list N) (input : list N) : Prop :=
  match containers with
  | [] => input = []
  | remaining :: rest => ∃ a b, input = a ++ b ∧ values (length containers) remaining a ∧ awaited rest b
  end.

Lemma header_nonempty h c : header h c → h ≠ [].
Proof. by destruct 1. Qed.

Lemma header_det h c h' c' rest rest' : Forall is_byte (h ++ rest) → header h c → header h' c' → h ++ rest = h' ++ rest' →
  c = c' ∧ rest = rest'.
Proof.
  intros Hb Hh Hh' E. pose proof Hb as Hb'. rewrite E in Hb'. apply Forall_app in Hb as [Hb _], Hb' as [Hb' _].
  assert (∀ c, opened [] c (after [] c)) as Ho by (intros [k|]; [split; [cbn; unfold BOLT_MAX_PACKSTREAM_DEPTH; lia|done]|done]).
  pose proof (header_taken [] h c Hh Hb rest (Ho c)) as E1. pose proof (header_taken [] h' c' Hh' Hb' rest' (Ho c')) as E2.
  rewrite E, E2 in E1. injection E1 as Ec ->. split; [|done]. destruct c, c'; cbn in Ec; congruence.
Qed.

Lemma awaited_done rest input : awaited (0 :: rest) input ↔ awaited rest input.
Proof.
  cbn [awaited]. split.
  - intros (a & b & -> & Ha & Hb). inversion Ha as [|? n v l Hv Hl Ed En]; subst; [done|]. lia.
  - intros H. exists [], input. split; [done|]. split; [constructor|done].
Qed.

(** A turn leaves what a well-formed message still needs. *)
Lemma awaited_turn r rest h c input : header h c → Forall is_byte (h ++ input) →
  awaited (N.succ r :: rest) (h ++ input) ↔ ∃ cs, opened (r :: rest) c cs ∧ awaited cs input.
Proof.
  intros Hh Hb. split.
  - intros (a & b & E & Ha & Hr). inversion Ha as [|d n v l Hv Hl Ed En]; subst; [lia|].
    assert (n = r) as -> by lia. inversion Hv as [d h' Hh'|d h' k body Hh' Hd Hbody]; subst.
    + rewrite <- (assoc_L (++)) in E. destruct (header_det h c v None input (l ++ b) Hb Hh Hh' E) as [-> ->].
      exists (r :: rest). split; [done|]. by exists l, b.
    + rewrite <- !(assoc_L (++)) in E. destruct (header_det h c h' (Some k) input (body ++ l ++ b) Hb Hh Hh' E) as [-> ->].
      exists (k :: r :: rest). split; [by split|]. exists body, (l ++ b). split; [done|]. split; [done|]. by exists l, b.
  - intros (cs & Ho & Ha). destruct c as [k|]; cbn [opened] in Ho.
    + destruct Ho as [Hd ->]. destruct Ha as (body & b0 & -> & Hbody & l & b & -> & Hl & Hr).
      exists ((h ++ body) ++ l), b. rewrite <- !(assoc_L (++)). split; [done|]. split; [|done].
      rewrite (assoc_L (++)). apply values_cons; [|done]. by apply value_container with k.
    + subst cs. destruct Ha as (l & b & -> & Hl & Hr). exists (h ++ l), b. rewrite <- (assoc_L (++)).
      split; [done|]. split; [|done]. apply values_cons; [by constructor|done].
Qed.

(** The loop ends, and accepts exactly what is awaited. *)
Lemma validate_loop_exact fuel containers input : Forall is_byte input →
  (2 * length input + length containers < fuel)%nat →
  ∃ r, validate_loop packstream fuel containers input = Some r ∧ (r = Ok tt ↔ awaited containers input).
Proof.
  revert containers input. induction fuel as [|fuel IH]; intros containers input Hb Hf; [lia|]. cbn [validate_loop].
  destruct containers as [|remaining rest].
  { eexists. split; [done|]. destruct input; cbn; [done|]. split; [done|discriminate]. }
  destruct (remaining =? 0) eqn:Er.
  { apply N.eqb_eq in Er as ->. destruct (IH rest input Hb) as (r & E & Hr); [cbn in Hf; lia|].
    exists r. split; [done|]. by rewrite awaited_done. }
  apply N.eqb_neq in Er. assert (remaining = N.succ (remaining - 1)) as Es by lia.
  set (r := remaining - 1) in *. clearbody r. subst remaining. clear Er.
  destruct (packstream_value packstream (r :: rest) input) as [[cs' input']|e] eqn:E.
  - apply turn_sound in E as (h & c & -> & Hh & Ho); [|done]. pose proof Hb as Hb'. apply Forall_app in Hb' as [_ Hb'].
    destruct (IH cs' input' Hb') as (res & Eres & Hres).
    { pose proof (header_nonempty _ _ Hh). destruct h as [|x h]; [done|]. rewrite length_app in Hf. cbn in Hf.
      destruct c as [k|]; cbn [opened] in Ho; [destruct Ho as [_ ->]|subst cs']; cbn; lia. }
    exists res. split; [done|]. rewrite Hres, awaited_turn by done. split; [by exists cs'|].
    intros (cs & Ho' & Ha). destruct c as [k|]; cbn [opened] in Ho, Ho'; [destruct Ho as [_ ->], Ho' as [_ ->]|subst]; done.
  - exists (Err e). split; [done|]. split; [done|]. intros Ha. exfalso.
    destruct Ha as (a & b & -> & Ha & Hr). inversion Ha as [|d n v l Hv Hl Ed En]; subst; [lia|].
    assert (∃ h c t, (v ++ l) ++ b = h ++ t ∧ header h c ∧ opened (r :: rest) c (after (r :: rest) c)) as (h & c & t & Et & Hh & Ho).
    { inversion Hv as [d h' Hh'|d h' k body Hh' Hd Hbody]; subst.
      - exists v, None, (l ++ b). by rewrite <- (assoc_L (++)).
      - exists h', (Some k), (body ++ l ++ b). by rewrite <- !(assoc_L (++)). }
    rewrite Et in E, Hb. apply Forall_app in Hb as [Hb _]. by rewrite (header_taken _ h c Hh Hb t Ho) in E.
Qed.

(** * Messages *)

Definition bolt_signatures : Signatures := {|
  HELLO := 0x01; LOGON := 0x6a; LOGOFF := 0x6b; GOODBYE := 0x02; RESET := 0x0f; RUN := 0x10; DISCARD := 0x2f; PULL := 0x3f;
  BEGIN := 0x11; COMMIT := 0x12; ROLLBACK := 0x13; ROUTE := 0x66; TELEMETRY := 0x54 |}.

Lemma validate_exact fields body : Forall is_byte body →
  validate_packstream_values packstream body fields = Ok tt ↔ values 1 fields body.
Proof.
  intros Hb. unfold validate_packstream_values.
  destruct (validate_loop_exact (2 * length body + 3) [fields] body Hb) as (r & -> & Hr); [cbn; lia|]. cbn [default from_option id].
  rewrite Hr. cbn. split; [intros (a & b & -> & Ha & ->); by rewrite (right_id_L [] (++))|].
  intros H. exists body, []. by rewrite (right_id_L [] (++)).
Qed.

(** C36: what reaches the decoder is well formed: the check before it, for whatever
    signatures, accepts a message exactly when it is a structure of a known
    signature with the number of fields that signature has, and its bytes after the
    head are exactly that many PackStream values, complete, none left over and none
    nested in more than thirty-one containers; it ends on every input. *)
Theorem bolt_message_exact sig data : Forall is_byte data →
  check_client_message packstream sig data = Ok tt ↔
  ∃ fields tag body, data = (0xb0 + fields) :: tag :: body ∧ fields < 16 ∧
    expected_bolt_fields sig tag = Ok fields ∧ values 1 fields body.
Proof.
  intros Hb. unfold check_client_message. destruct data as [|head [|tag body]]; [naive_solver..|].
  apply Forall_cons in Hb as [Hhead [_ Hb]%Forall_cons]. destruct (nibbles head Hhead) as [E1 E2]. rewrite E1, E2.
  assert (∃ high low, head = 16 * high + low ∧ low < 16) as (high & low & -> & Hl).
  { exists (head / 16), (head mod 16). split; [apply N.div_mod'|by apply N.mod_lt]. }
  assert ((16 * high + low) / 16 = high) as -> by (symmetry; apply (N.div_unique _ _ _ low); lia).
  assert ((16 * high + low) mod 16 = low) as -> by (symmetry; apply (N.mod_unique _ _ high); lia).
  change (TINY_STRUCT_NIBBLE packstream) with 176. destruct (16 * high =? 176) eqn:Eh; cbn [negb].
  - apply N.eqb_eq in Eh. rewrite Eh. rewrite bind_ok. split.
    + intros (expected & Ee & H). destruct (low =? expected) eqn:El; [|done]. apply N.eqb_eq in El as <-. cbn [negb] in H.
      apply validate_exact in H; [|done]. by exists low, tag, body.
    + intros (fields & tag' & body' & E & Hf & He & Hv). injection E as Ef <- <-. assert (low = fields) as -> by lia.
      exists fields. split; [done|]. rewrite N.eqb_refl. cbn [negb]. by apply validate_exact.
  - apply N.eqb_neq in Eh. split; [done|]. intros (fields & tag' & body' & E & Hf & _). injection E as E _ _. lia.
Qed.

(** RUN "RETURN 1" {} {}. *)
Definition run_message : list N :=
  [0xb3; 0x10; 0x88; 0x52; 0x45; 0x54; 0x55; 0x52; 0x4e; 0x20; 0x31; 0xa0; 0xa0].
Lemma bolt_message_exact_witness :
  check_client_message packstream bolt_signatures run_message = Ok tt ∧
  ∃ fields tag body, run_message = (0xb0 + fields) :: tag :: body ∧ fields < 16 ∧
    expected_bolt_fields bolt_signatures tag = Ok fields ∧ values 1 fields body.
Proof.
  split; [by vm_compute|]. apply (bolt_message_exact bolt_signatures run_message); [|by vm_compute].
  unfold run_message. repeat (apply Forall_cons; split; [by vm_compute|]). by apply Forall_nil.
Defined.

(** * Integers of variable length *)

(** What [write_varint] sends. *)
Fixpoint varint (fuel : nat) (v : N) : list N :=
  match fuel with
  | O => []
  | S fuel => if v <? 128 then [v] else (v mod 128 + 128) :: varint fuel (v / 128)
  end.

Definition healthy (s : Stream) : Prop := st_faults s = [].

Lemma write_all_healthy bytes s : healthy s →
  write_all bytes s = (MkStream (st_in s) (st_out s ++ bytes) [], Ok tt).
Proof. unfold healthy, write_all, write_fault. by intros ->. Qed.
Lemma flush_healthy s : healthy s → flush s = (MkStream (st_in s) (st_out s) [], Ok tt).
Proof. unfold healthy, flush, write_fault. by intros ->. Qed.

Lemma land_127 v : N.land v 0x7f = v mod 128.
Proof. change 0x7f with (N.ones 7). apply N.land_ones. Qed.
Lemma lor_128 v : v < 128 → N.lor v 0x80 = v + 128.
Proof.
  intros H. rewrite N.add_nocarry_lxor, N.lxor_lor; [done|..].
  all: apply N.bits_inj_0; intros n; rewrite N.land_spec; change 0x80 with (2 ^ 7); rewrite N.pow2_bits_eqb;
    destruct (7 =? n) eqn:E; [apply N.eqb_eq in E as <-|by rewrite andb_false_r];
    rewrite N.testbit_eqb, N.div_small by done; done.
Qed.

Lemma write_varint_sends fuel v s : healthy s → v < 128 ^ N.of_nat fuel →
  write_varint fuel v s = (MkStream (st_in s) (st_out s ++ varint fuel v) [], Ok tt).
Proof.
  revert v s. induction fuel as [|fuel IH]; intros v s Hs Hv.
  { cbn. destruct s. cbn in *. unfold healthy in Hs. cbn in Hs. subst. by rewrite (right_id_L [] (++)). }
  cbn [write_varint varint]. rewrite land_127, N.shiftr_div_pow2. change (2 ^ 7) with 128.
  destruct (v <? 128) eqn:E.
  - apply N.ltb_lt in E. rewrite N.div_small, N.mod_small by done. cbn [N.eqb negb].
    unfold mbind, io_mbind. by rewrite write_all_healthy.
  - apply N.ltb_ge in E. assert (v / 128 ≠ 0) as Hn by (intros H0; apply N.div_small_iff in H0; [lia|done]).
    rewrite (proj2 (N.eqb_neq _ _) Hn). cbn [negb]. rewrite lor_128 by by apply N.mod_lt.
    unfold mbind, io_mbind. rewrite write_all_healthy by done. rewrite IH; [|done|].
    + cbn. by rewrite <- (assoc_L (++)).
    + apply N.Div0.div_lt_upper_bound. by rewrite Nat2N.inj_succ, N.pow_succ_r' in Hv.
Qed.

Lemma lor_high a b k : a < 2 ^ k → N.lor a (N.shiftl b k) = a + b * 2 ^ k.
Proof.
  intros Ha. rewrite <- N.shiftl_mul_pow2, N.add_nocarry_lxor, N.lxor_lor; [done|..].
  all: apply N.bits_inj_0; intros n; rewrite N.land_spec; destruct (decide (n < k)) as [Hn|Hn];
    [by rewrite (N.shiftl_spec_low _ _ _ Hn), andb_false_r|].
  all: rewrite N.testbit_eqb, (N.div_small a), N.Div0.mod_0_l; [done|].
  all: eapply N.lt_le_trans; [exact Ha|]; apply N.pow_le_mono_r; [done|lia].
Qed.

(** The reader gives back what was sent, from any position. *)
Lemma read_varint_sent fuel index v acc rest s : st_in s = varint fuel v ++ rest →
  (index + fuel = 10)%nat → v < 2 ^ (64 - 7 * N.of_nat index) → (0 < fuel)%nat → acc < 2 ^ (7 * N.of_nat index) →
  read_varint_from index fuel acc s = (MkStream rest (st_out s) (st_faults s), Ok (acc + v * 2 ^ (7 * N.of_nat index))).
Proof.
  revert index v acc s. induction fuel as [|fuel IH]; intros index v acc s Hin Hidx Hv Hf Hacc; [lia|].
  cbn [read_varint_from varint] in *. unfold mbind, io_mbind, read_u8. destruct (v <? 128) eqn:E.
  - apply N.ltb_lt in E. cbn [app] in Hin. rewrite Hin. 
    assert ((index =? 9)%nat && negb (N.land v 126 =? 0) = false) as ->.
    { destruct (index =? 9)%nat eqn:E9; [|done]. apply Nat.eqb_eq in E9 as ->.
      assert (v = 0 ∨ v = 1) as [->| ->] by (change (2 ^ _) with 2 in Hv; lia); done. }
    rewrite land_127, N.mod_small by done.
    assert (N.land v 128 = 0) as ->.
    { change 128 with (2 ^ 7). apply N.bits_inj_0. intros n. rewrite N.land_spec, N.pow2_bits_eqb.
      destruct (7 =? n) eqn:En; [apply N.eqb_eq in En as <-|by rewrite andb_false_r].
      rewrite N.testbit_eqb, N.div_small by done. done. }
    cbn [N.eqb]. rewrite (N.mul_comm (N.of_nat index) 7), lor_high by done. done.
  - apply N.ltb_ge in E. cbn [app] in Hin. rewrite Hin.
    assert (index ≠ 9)%nat as H9 by (intros ->; change (2 ^ _) with 2 in Hv; lia).
    rewrite (proj2 (Nat.eqb_neq _ _) H9). cbn [andb].
    assert (v mod 128 < 128) as Hm by by apply N.mod_lt.
    rewrite land_127. replace ((v mod 128 + 128) mod 128) with (v mod 128)
      by (rewrite <- (N.mul_1_l 128) at 3; rewrite N.Div0.mod_add; by rewrite N.Div0.mod_mod).
    assert ((N.land (v mod 128 + 128) 128 =? 0) = false) as ->.
    { apply N.eqb_neq. rewrite <- lor_128 by done. rewrite N.land_lor_distr_l. change (N.land 128 128) with 128.
      intros H0. apply N.lor_eq_0_iff in H0 as [_ H0]. done. }
    rewrite (N.mul_comm (N.of_nat index) 7), lor_high by done.
    rewrite (IH (S index) (v / 128)); cbn [st_in st_out st_faults]; [|done|lia| |lia|].
    + do 2 f_equal. rewrite Nat2N.inj_succ. replace (7 * N.succ (N.of_nat index)) with (7 * N.of_nat index + 7) by lia.
      rewrite N.pow_add_r. change (2 ^ 7) with 128. pose proof (N.div_mod' v 128). nia.
    + apply N.Div0.div_lt_upper_bound. eapply N.lt_le_trans; [exact Hv|]. change 128 with (2 ^ 7). rewrite <- N.pow_add_r.
      apply N.pow_le_mono_r; [done|]. lia.
    + rewrite Nat2N.inj_succ. replace (7 * N.succ (N.of_nat index)) with (7 + 7 * N.of_nat index) by lia.
      rewrite N.pow_add_r. change (2 ^ 7) with 128. nia.
Qed.

Lemma read_varint_bound fuel index acc s s' v : (index + fuel = 10)%nat → acc < 2 ^ (7 * N.of_nat index) →
  read_varint_from index fuel acc s = (s', Ok v) → v ≤ u64_max.
Proof.
  revert index acc s. induction fuel as [|fuel IH]; intros index acc s Hidx Hacc; [done|].
  cbn [read_varint_from]. unfold mbind, io_mbind, read_u8. destruct (st_in s) as [|b input]; [done|].
  destruct ((index =? 9)%nat && negb (N.land b 126 =? 0)) eqn:E9; [done|].
  rewrite land_127, (N.mul_comm (N.of_nat index) 7), lor_high by done.
  assert (b mod 128 < 128) as Hb by by apply N.mod_lt.
  assert (acc + b mod 128 * 2 ^ (7 * N.of_nat index) < 2 ^ (7 * N.of_nat (S index))) as Hnext.
  { rewrite Nat2N.inj_succ. replace (7 * N.succ (N.of_nat index)) with (7 + 7 * N.of_nat index) by lia.
    rewrite N.pow_add_r. change (2 ^ 7) with 128. nia. }
  destruct (N.land b 128 =? 0); [|by apply IH; [lia|]]. intros [= _ <-].
  destruct (decide (index = 9%nat)) as [->|H9].
  - rewrite Nat.eqb_refl in E9. cbn [andb] in E9. apply negb_false_iff, N.eqb_eq in E9.
    assert (forallb (λ n, implb (N.land (N.of_nat n) 126 =? 0) (N.of_nat n <=? 1)) (seq 0 128) = true) as Hall by by vm_compute.
    rewrite forallb_forall in Hall. specialize (Hall (N.to_nat (b mod 128))). rewrite N2Nat.id in Hall.
    rewrite <- land_127, <- N.land_assoc in Hall. change (N.land 127 126) with 126 in Hall. rewrite E9 in Hall.
    cbn [N.eqb implb] in Hall. rewrite land_127 in Hall. clear IH. set (m := b mod 128) in *. clearbody m.
    specialize (Hall ltac:(apply in_seq; lia)). apply N.leb_le in Hall.
    change (2 ^ (7 * N.of_nat 9)) with 9223372036854775808 in *. unfold u64_max. lia.
  - enough (acc + b mod 128 * 2 ^ (7 * N.of_nat index) < 2 ^ 63) by (change (2 ^ 63) with 9223372036854775808 in *; unfold u64_max; lia).
    eapply N.lt_le_trans; [exact Hnext|]. apply N.pow_le_mono_r; [done|]. lia.
Qed.

(** Integers of variable length are exact on 64 bits: what is written for a
    number reads back as that number, leaving what follows, and whatever is read is
    a 64-bit number. *)
Theorem varint_exact v rest s s' : u64_ok v → healthy s →
  (∃ sent, write_varint 10 v s = (MkStream (st_in s) (st_out s ++ sent) [], Ok tt) ∧
     ∀ out faults, read_varint (MkStream (sent ++ rest) out faults) = (MkStream rest out faults, Ok v)) ∧
  ∀ w, read_varint s = (s', Ok w) → u64_ok w.
Proof.
  intros Hv Hs. assert (v < 2 ^ 64) as H64 by (unfold u64_ok, u64_max in Hv; change (2 ^ 64) with 18446744073709551616; lia).
  split.
  - exists (varint 10 v). split.
    + apply write_varint_sends; [done|]. eapply N.lt_le_trans; [exact H64|]. by vm_compute.
    + intros out faults. unfold read_varint. rewrite (read_varint_sent 10 0 v 0 rest); [|done|done|done|lia|done].
      cbn [st_out st_faults]. by rewrite N.mul_0_r, N.mul_1_r, N.add_0_l.
  - intros w. by apply read_varint_bound.
Qed.
Lemma varint_exact_witness :
  ∃ sent, write_varint 10 u64_max (MkStream [] [] []) = (MkStream [] sent [], Ok tt) ∧ length sent = 10%nat.
Proof.
  destruct (varint_exact u64_max [7] (MkStream [] [] []) (MkStream [] [] [])) as [(sent & Hw & _) _]; [done|done|].
  exists sent. split; [exact Hw|]. cbn in Hw. by injection Hw as <-.
Defined.

(** * The handshake *)

(** The first proposal with a supported version in its range, and the best of them. *)
Lemma matching_exact x range minor major v : matching_bolt_version [x; range; minor; major] = Some v ↔
  v ∈ BOLT_SUPPORTED_VERSIONS ∧ v.1 = major ∧ minor - range ≤ v.2 ≤ minor ∧
  ∀ v', v' ∈ BOLT_SUPPORTED_VERSIONS → v'.1 = major → minor - range ≤ v'.2 ≤ minor → v'.2 ≤ v.2.
Proof.
  unfold matching_bolt_version, saturating_sub.
  set (P := λ candidate : N * N, (candidate.1 =? major) && (candidate.2 <=? minor) && (minor - range <=? candidate.2)).
  assert (∀ c, P c = true ↔ c.1 = major ∧ minor - range ≤ c.2 ≤ minor) as HP.
  { intros c. unfold P. rewrite !andb_true_iff, N.eqb_eq, !N.leb_le. tauto. }
  assert (∀ l : list (N * N), (∀ a b va vb, (a < b)%nat → l !! a = Some va → l !! b = Some vb → va.1 = vb.1 → vb.2 < va.2) →
    find P l = Some v ↔ v ∈ l ∧ P v = true ∧ ∀ v', v' ∈ l → P v' = true → v'.2 ≤ v.2) as Hfind.
  { intros l. induction l as [|c l IH]; intros Hs; cbn [find].
    - split; [done|]. by intros [?%elem_of_nil _].
    - assert (∀ v', v' ∈ l → v'.1 = c.1 → v'.2 < c.2) as Hc.
      { intros v' [b Hb]%list_elem_of_lookup E. by apply (Hs 0%nat (S b) c v'); [lia|done|done|]. }
      destruct (P c) eqn:Ec.
      + split.
        * intros [= <-]. split; [by left|]. split; [done|]. intros v' [->|Hv']%elem_of_cons Hp; [lia|].
          apply HP in Hp as [E _], Ec as [E' _]. specialize (Hc v' Hv' ltac:(congruence)). lia.
        * intros ([->|Hv]%elem_of_cons & Hp & Hmax); [done|]. specialize (Hmax c ltac:(by left) Ec).
          apply HP in Hp as [E _], Ec as [E' _]. specialize (Hc v Hv ltac:(congruence)). lia.
      + rewrite IH by (intros a b va vb Hab Ha Hb; by apply (Hs (S a) (S b) va vb); [lia|..]).
        split; [intros (? & ? & Hmax)|intros ([->|Hv]%elem_of_cons & Hp & Hmax); [congruence|]].
        * split; [by right|]. split; [done|]. intros v' [->|Hv']%elem_of_cons Hp'; [congruence|by apply Hmax].
        * split; [done|]. split; [done|]. intros v' Hv' Hp'. apply Hmax; [by right|done]. }
  rewrite Hfind, HP; [setoid_rewrite HP; naive_solver|].
  intros a b va vb Hab Ha Hb. unfold BOLT_SUPPORTED_VERSIONS in *.
  do 4 (destruct a as [|a]; [do 4 (destruct b as [|b]; [cbn in Ha, Hb; simplify_eq; cbn; lia|]); done|]). done.
Qed.

Lemma answer_version proposals before proposal after v s : healthy s →
  proposals = before ++ proposal :: after →
  Forall (λ q, q ≠ BOLT_MANIFEST_V1 ∧ matching_bolt_version q = None) before → proposal ≠ BOLT_MANIFEST_V1 →
  matching_bolt_version proposal = Some v →
  answer_proposals proposals s = (MkStream (st_in s) (st_out s ++ [0; 0; v.2; v.1]) [], Ok v).
Proof.
  intros Hs -> Hb Hm Hv. induction before as [|q before IH]; cbn [app answer_proposals].
  - rewrite bool_decide_false by done. rewrite Hv. unfold mbind, io_mbind. rewrite write_all_healthy by done.
    by rewrite flush_healthy.
  - apply Forall_cons in Hb as [[Hq Hq'] Hb]. rewrite bool_decide_false by done. rewrite Hq'. by apply IH.
Qed.

Lemma answer_none proposals s : healthy s →
  Forall (λ q, q ≠ BOLT_MANIFEST_V1 ∧ matching_bolt_version q = None) proposals →
  answer_proposals proposals s = (MkStream (st_in s) (st_out s ++ BOLT_NO_VERSION) [],
    Err (Protocol "no compatible Bolt protocol version")).
Proof.
  intros Hs Hb. induction proposals as [|q proposals IH]; cbn [answer_proposals].
  - unfold mbind, io_mbind. rewrite write_all_healthy by done. by rewrite flush_healthy.
  - apply Forall_cons in Hb as [[Hq Hq'] Hb]. rewrite bool_decide_false by done. rewrite Hq'. by apply IH.
Qed.

Lemma answer_manifest proposals before after s : proposals = before ++ BOLT_MANIFEST_V1 :: after →
  Forall (λ q, q ≠ BOLT_MANIFEST_V1 ∧ matching_bolt_version q = None) before →
  answer_proposals proposals s = manifest_handshake s.
Proof.
  intros -> Hb. induction before as [|q before IH]; cbn [app answer_proposals]; [by rewrite bool_decide_true|].
  apply Forall_cons in Hb as [[Hq Hq'] Hb]. rewrite bool_decide_false by done. rewrite Hq'. by apply IH.
Qed.

Lemma read_exact_app n l rest out faults : length l = n →
  read_exact n (MkStream (l ++ rest) out faults) = (MkStream rest out faults, Ok l).
Proof.
  intros <-. unfold read_exact. cbn [st_in st_out st_faults]. rewrite length_app, (proj2 (Nat.leb_le _ _)) by lia.
  by rewrite take_app_length, drop_app_length.
Qed.

(** A client that answers the manifest with a version and no capability. *)
Lemma manifest_selects a b minor major rest out :
  manifest_handshake (MkStream ([a; b; minor; major] ++ 0 :: rest) out []) =
  (MkStream rest (out ++ [0; 0; 1; 0xff] ++ [1] ++ [0; 3; 4; 5] ++ [0]) [],
   match exact_bolt_version [a; b; minor; major] with
   | Some v => Ok v
   | None => Err (Protocol "client selected an unsupported manifest version or capability")
   end).
Proof.
  assert (∀ v s, healthy s → v < 128 → write_varint 10 v s = (MkStream (st_in s) (st_out s ++ [v]) [], Ok tt)) as Hw.
  { intros v s Hs Hv. rewrite write_varint_sends; [|done|by eapply N.lt_trans; [exact Hv|by vm_compute]].
    cbn [varint]. by rewrite (proj2 (N.ltb_lt _ _) Hv). }
  unfold manifest_handshake, mbind, io_mbind.
  rewrite write_all_healthy by done. rewrite Hw by done. rewrite write_all_healthy by done. rewrite Hw by done.
  rewrite flush_healthy by done. cbn [st_in st_out]. rewrite read_exact_app by done.
  change (read_varint (MkStream (0 :: rest) ?o [])) with (MkStream rest o [], Ok 0 : BoltResult N). 
  cbn [N.eqb]. rewrite <- !(assoc_L (++)). by destruct (exact_bolt_version [a; b; minor; major]).
Qed.

(** What a handshake agrees on, on a connection that does not fail: after the
    magic and four proposals, the server takes the first proposal that names a
    version it supports, picks the best version of that range, answers exactly it
    and goes on reading after the proposals; it answers zeros and fails when there is
    none; and when the manifest comes first it offers its range and takes the
    supported version the client then names, or fails. *)
Theorem handshake_exact proposals rest out : length proposals = 16%nat →
  let s := MkStream (BOLT_MAGIC ++ proposals ++ rest) out [] in
  let unmatched q := q ≠ BOLT_MANIFEST_V1 ∧ matching_bolt_version q = None in
  (∀ before proposal after v, chunks4 proposals = before ++ proposal :: after → Forall unmatched before →
     proposal ≠ BOLT_MANIFEST_V1 → matching_bolt_version proposal = Some v →
     bolt_server_handshake s = (MkStream rest (out ++ [0; 0; v.2; v.1]) [], Ok v)) ∧
  (Forall unmatched (chunks4 proposals) →
     bolt_server_handshake s = (MkStream rest (out ++ BOLT_NO_VERSION) [], Err (Protocol "no compatible Bolt protocol version"))) ∧
  (∀ before after a b minor major rest', chunks4 proposals = before ++ BOLT_MANIFEST_V1 :: after → Forall unmatched before →
     rest = [a; b; minor; major] ++ 0 :: rest' →
     bolt_server_handshake s = (MkStream rest' (out ++ [0; 0; 1; 0xff; 1; 0; 3; 4; 5; 0]) [],
       if bool_decide (a = 0 ∧ b = 0 ∧ (major, minor) ∈ BOLT_SUPPORTED_VERSIONS) then Ok (major, minor)
       else Err (Protocol "client selected an unsupported manifest version or capability"))).
Proof.
  intros Hlen s unmatched. unfold bolt_server_handshake, mbind, io_mbind. subst s.
  rewrite read_exact_app by done. rewrite bool_decide_true by done. cbn [negb]. rewrite read_exact_app by done.
  split; [|split].
  - intros before proposal after v E Hb Hm Hv. by rewrite (answer_version _ before proposal after v) by done.
  - intros Hb. by rewrite answer_none by done.
  - intros before after a b minor major rest' E Hb ->. rewrite (answer_manifest _ _ _ _ E Hb), manifest_selects.
    f_equal. unfold exact_bolt_version. destruct (decide (a = 0)) as [->|Ha], (decide (b = 0)) as [->|Hb'].
    + rewrite N.eqb_refl. cbn [negb orb].
      destruct (decide ((major, minor) ∈ BOLT_SUPPORTED_VERSIONS)); repeat case_bool_decide; naive_solver.
    + rewrite (proj2 (N.eqb_neq b 0) Hb'). cbn [negb]. rewrite orb_true_r. repeat case_bool_decide; naive_solver.
    + rewrite (proj2 (N.eqb_neq a 0) Ha). cbn [negb orb]. repeat case_bool_decide; naive_solver.
    + rewrite (proj2 (N.eqb_neq a 0) Ha). cbn [negb orb]. repeat case_bool_decide; naive_solver.
Qed.

(** A driver offers 5.8 down to 5.2, then 4.4. *)
Lemma handshake_exact_witness :
  bolt_server_handshake (MkStream (BOLT_MAGIC ++ [0; 0; 8; 6] ++ [0; 6; 8; 5] ++ [0; 0; 4; 4] ++ [0; 0; 0; 0] ++ [9]) [] [])
  = (MkStream [9] [0; 0; 4; 5] [], Ok (5, 4)).
Proof.
  destruct (handshake_exact ([0; 0; 8; 6] ++ [0; 6; 8; 5] ++ [0; 0; 4; 4] ++ [0; 0; 0; 0]) [9] [] eq_refl) as (H & _).
  exact (H [[0; 0; 8; 6]] [0; 6; 8; 5] [[0; 0; 4; 4]; [0; 0; 0; 0]] (5, 4) eq_refl
    ltac:(by apply Forall_singleton) ltac:(done) eq_refl).
Defined.
