(* ===== verification/QueryData.v ===== *)
(** [query/algebra.rs]: the values a query takes and returns, rows, results and
    pages, and what they are charged for while a cursor keeps them. *)

From S2P Require Import Prelude Text Errors Model.

Local Open Scope N_scope.

Record QueryPathNode := MkPathNode {
  pn_id : N; pn_labels : list string; pn_properties : gmap string VertexPropertyValue }.
Record QueryPathRelationship := MkPathRelationship {
  pr_id : option N; pr_edge_type : string; pr_src : N; pr_dst : N;
  pr_properties : gmap string VertexPropertyValue }.
Record QueryPath := MkPath { p_nodes : list QueryPathNode; p_relationships : list QueryPathRelationship }.

(** The entries of a map are in key order. *)
Inductive QueryParameterValue : Type :=
  | PScalar (value : VertexPropertyValue)
  | PList (values : list QueryParameterValue)
  | PMap (entries : list (string * QueryParameterValue)).

Record QueryColumn := MkColumn { qc_name : string }.

Inductive QueryValue : Type :=
  | QNull
  | QVertexId (id : N)
  | QCount (count : N)
  | QBool (value : bool)
  | QFloat (value : QueryFloat)
  | QProperty (value : VertexPropertyValue)
  | QList (values : list QueryValue)
  | QPath (path : QueryPath).

Record QueryRow := MkRow { row_values : list QueryValue }.

Record QueryResultSet := MkResultSet {
  rs_columns : list QueryColumn; rs_rows : list QueryRow;
  rs_read_epoch : option N; rs_storage_sequence : option N }.
Definition QueryResultSet_new (columns : list QueryColumn) (rows : list QueryRow) : QueryResultSet :=
  MkResultSet columns rows None None.

Record QueryCursorToken := MkToken { offset : N }.
Record QueryResultPage := MkPage {
  pg_columns : list QueryColumn; pg_rows : list QueryRow; pg_next_cursor : option QueryCursorToken }.

Global Instance QueryColumn_eq_dec : EqDecision QueryColumn.
Proof. solve_decision. Defined.
Global Instance QueryCursorToken_eq_dec : EqDecision QueryCursorToken.
Proof. solve_decision. Defined.

(** Equality of nested values, one level at a time. *)
Section list_eq.
Context {A : Type} (eq : ∀ x y : A, {x = y} + {x ≠ y}).
Fixpoint list_eq_with (l k : list A) : {l = k} + {l ≠ k}.
Proof.
  destruct l as [|x l], k as [|y k]; [by left|by right|by right|].
  destruct (eq x y) as [->|]; [|right; congruence].
  destruct (list_eq_with l k) as [->|]; [by left|right; congruence].
Defined.
End list_eq.

Fixpoint parameter_eq_dec (x y : QueryParameterValue) : {x = y} + {x ≠ y}.
Proof.
  destruct x as [v|l|l], y as [w|k|k]; try (right; discriminate).
  - destruct (decide (v = w)) as [->|]; [by left|right; congruence].
  - destruct (list_eq_with parameter_eq_dec l k) as [->|]; [by left|right; congruence].
  - refine (match list_eq_with (λ p q, match p, q with (a, v), (b, w) => _ end) l k with
            | left e => left (f_equal PMap e) | right n => right _ end); [|congruence].
    destruct (decide (a = b)) as [->|]; [|right; congruence].
    destruct (parameter_eq_dec v w) as [->|]; [by left|right; congruence].
Defined.
Global Instance QueryParameterValue_eq_dec : EqDecision QueryParameterValue := parameter_eq_dec.

(** * Resident bytes

    [std::mem::size_of] is the compiler's. *)
Record Sizes := MkSizes {
  size_row : N; size_value : N; size_path_node : N; size_path_relationship : N; size_property : N }.

Section resident.
Context (sz : Sizes).

Definition property_map_resident_bytes (properties : gmap string VertexPropertyValue) : N :=
  foldl (λ total p, saturating_add (saturating_add total (strlen p.1))
           (match p.2 with PString value => strlen value | _ => size_property sz end))
    0 (btree_iter properties).

Definition path_resident_bytes (path : QueryPath) : N :=
  let node_bytes := foldl (λ total node,
      saturating_add (saturating_add (saturating_add total (size_path_node sz))
        (nsum (strlen <$> pn_labels node))) (property_map_resident_bytes (pn_properties node)))
    0 (p_nodes path) in
  foldl (λ total relationship,
      saturating_add (saturating_add (saturating_add total (size_path_relationship sz))
        (strlen (pr_edge_type relationship))) (property_map_resident_bytes (pr_properties relationship)))
    node_bytes (p_relationships path).

Fixpoint value_resident_bytes (value : QueryValue) : N :=
  let inline := size_value sz in
  match value with
  | QProperty (PString s) => saturating_add inline (strlen s)
  | QList values => foldl (λ total v, saturating_add total (value_resident_bytes v)) inline values
  | QPath path => path_resident_bytes path
  | QNull | QVertexId _ | QCount _ | QBool _ | QFloat _ | QProperty _ => inline
  end.

Definition row_resident_bytes (row : QueryRow) : N :=
  foldl (λ total v, saturating_add total (value_resident_bytes v)) (size_row sz) (row_values row).

(** [QueryResultSet::estimated_resident_bytes] and [client/service.rs:
    query_rows_resident_bytes] fold alike. *)
Definition rows_resident_bytes (rows : list QueryRow) : N :=
  foldl (λ total row, saturating_add total (row_resident_bytes row)) 0 rows.
Definition result_resident_bytes (result : QueryResultSet) : N := rows_resident_bytes (rs_rows result).

(** ** Saturating sums *)

Lemma foldl_saturating {A} (f : A → N) init l :
  init ≤ u64_max →
  foldl (λ total a, saturating_add total (f a)) init l = N.min (init + nsum (f <$> l)) u64_max.
Proof.
  revert init; induction l as [|a l IH]; intros init Hi; cbn; [u64_lia|].
  rewrite IH by (unfold saturating_add; lia). unfold saturating_add. lia.
Qed.

Lemma rows_resident_bytes_sum rows :
  rows_resident_bytes rows = N.min (nsum (row_resident_bytes <$> rows)) u64_max.
Proof. unfold rows_resident_bytes. rewrite foldl_saturating by (unfold u64_max; lia). done. Qed.

Lemma rows_resident_bytes_ok rows : u64_ok (rows_resident_bytes rows).
Proof. rewrite rows_resident_bytes_sum. unfold u64_ok. lia. Qed.

Lemma rows_resident_bytes_drop k rows : rows_resident_bytes (drop k rows) ≤ rows_resident_bytes rows.
Proof.
  rewrite !rows_resident_bytes_sum. rewrite <- (take_drop k rows) at 2.
  rewrite fmap_app, nsum_app. lia.
Qed.
End resident.
