(* ===== verification/Client.v ===== *)
(** [client/service.rs]: what a client asks for, and the cursors the service keeps
    between the pages of a result.  Every operation on cursors holds their lock
    from beginning to end, so it is one step here. *)

From S2P Require Import Prelude Text Errors Model Namespace QueryData.

Local Open Scope N_scope.

Module client.

Record ClientQueryTarget := MkTarget { ct_scope : GraphScope; ct_cell_id : string }.
Definition ClientQueryTarget_new (scope : GraphScope) (cell_id : string) : Result ClientQueryTarget :=
  _ ← validate_component "cell_id" cell_id; Ok (MkTarget scope cell_id).

Record ClientBookmark := MkBookmark { bm_target : ClientQueryTarget; bm_epoch : N }.

Inductive ClientReadConsistency : Type := Causal | Strong.
Inductive ClientMutationIdempotencyKey : Type :=
  | ServerGenerated (value : string)
  | CallerSupplied (value : string).
Definition key_value (k : ClientMutationIdempotencyKey) : string :=
  match k with ServerGenerated value | CallerSupplied value => value end.

Record ClientQueryRequest := MkRequest {
  rq_target : ClientQueryTarget; rq_query_id : string; rq_query : string;
  rq_parameters : gmap string QueryParameterValue; rq_read_epoch : option N;
  rq_max_runtime_ms : option N; rq_bookmark : option ClientBookmark;
  rq_consistency : ClientReadConsistency;
  rq_mutation_key : option ClientMutationIdempotencyKey;
  rq_correlation_id : option string; rq_caller_step : option string }.

Record ClientQueryPage := MkClientPage {
  cp_query_id : string; cp_page : QueryResultPage; cp_read_epoch : option N;
  cp_bookmark : option ClientBookmark }.

(** A principal is the text of [QueryTransportPrincipal]. *)
Record ClientQuerySession := MkSession { principal : string }.

Record ClientQueryKey := MkKey { ck_principal : string; ck_scope : GraphScope; ck_query_id : string }.

Global Instance ClientQueryTarget_eq_dec : EqDecision ClientQueryTarget.
Proof. solve_decision. Defined.
Global Instance ClientBookmark_eq_dec : EqDecision ClientBookmark.
Proof. solve_decision. Defined.
Global Instance ClientQueryKey_eq_dec : EqDecision ClientQueryKey.
Proof. solve_decision. Defined.

Definition client_query_key (session : ClientQuerySession) (request : ClientQueryRequest) : ClientQueryKey :=
  MkKey (principal session) (ct_scope (rq_target request)) (rq_query_id request).

Definition unsupported {A} (feature : string) : Result A := Err (UnsupportedQuery "ClientProtocol" feature).

(** [query/coordination.rs: QueryTransportAction]. *)
Inductive QueryTransportAction : Type := Read | Write | Cancel | Admin.
Definition action_as_str (a : QueryTransportAction) : string :=
  match a with Read => "read" | Write => "write" | Cancel => "cancel queries in" | Admin => "administer" end.
Global Instance QueryTransportAction_eq_dec : EqDecision QueryTransportAction.
Proof. solve_decision. Defined.

(** [enforce_limit]. *)
Definition enforce_limit (operation : string) (actual limit : N) : Result unit :=
  if limit <? actual then Err (AdmissionRejected operation actual limit) else Ok tt.

(** * Cursors *)

Record ServerQueryCursor := MkCursor {
  cu_owner : ClientQueryKey; cu_target : ClientQueryTarget; cu_query : string;
  cu_parameters : gmap string QueryParameterValue; cu_columns : list QueryColumn;
  cu_rows : list QueryRow; cu_read_epoch : option N; cu_bookmark : option ClientBookmark;
  cu_expires_at : N; cu_resident_bytes : N }.

(** The limits of [ClientQueryServiceConfig] cursors are held to. *)
Record CursorLimits := MkLimits {
  max_server_cursors : N; max_cursor_buffer_bytes : N; cursor_ttl_ms : N }.

(** The fields of [ClientQueryServiceInner] the cursors live in. *)
Record Cursors := MkCursors {
  cursors : gmap N ServerQueryCursor; next_id : N; cursor_buffer_bytes : N }.
Definition no_cursors : Cursors := MkCursors ∅ 1 0.

(** Instants are in nanoseconds. *)
Definition ms (n : N) : N := n * 1000000.

Section service.
Context (sz : Sizes) (limits : CursorLimits).

(** [AtomicU64::fetch_sub] wraps around. *)
Definition fetch_sub (a b : N) : N := (a + (u64_size - b mod u64_size)) mod u64_size.

Definition purge_expired_cursors (now : N) (s : Cursors) : Cursors :=
  let expired := filter (λ p : N * ServerQueryCursor, cu_expires_at p.2 ≤ now) (cursors s) in
  let released_bytes := foldl (λ total c, saturating_add total (cu_resident_bytes c)) 0 (btree_values expired) in
  MkCursors (filter (λ p : N * ServerQueryCursor, ¬ cu_expires_at p.2 ≤ now) (cursors s)) (next_id s)
    (if 0 <? released_bytes then fetch_sub (cursor_buffer_bytes s) released_bytes else cursor_buffer_bytes s).

(** The counter after the attempts, and the id. *)
Fixpoint next_cursor_id_loop (attempts : nat) (next : N) (cs : gmap N ServerQueryCursor) : N * option N :=
  match attempts with
  | O => (next, None)
  | S attempts =>
      let candidate := next in
      let next := wrapping_add next 1 in
      if negb (candidate =? 0) && bool_decide (cs !! candidate = None) then (next, Some candidate)
      else next_cursor_id_loop attempts next cs
  end.
Definition next_cursor_id (next : N) (cs : gmap N ServerQueryCursor) : N * Result N :=
  let '(next, id) := next_cursor_id_loop (S (size cs)) next cs in
  (next, ok_or id (AdmissionRejected "client_cursor_id_space"
                     (saturating_add (N.of_nat (size cs)) 1) u64_max)).

(** [take_cursor_rows]: the page and the rest. *)
Definition take_cursor_rows (rows : list QueryRow) (page_size : N) : list QueryRow * list QueryRow :=
  let count := N.to_nat (N.min page_size (N.of_nat (length rows))) in
  (take count rows, drop count rows).

(** The clock is read twice, for the purge and for the expiry. *)
Definition start_server_cursor (session : ClientQuerySession) (request : ClientQueryRequest)
  (result : QueryResultSet) (read_epoch : option N) (bookmark : option ClientBookmark) (page_size : N)
  (now now' : N) (s : Cursors) : Cursors * Result ClientQueryPage :=
  let materialized_bytes := result_resident_bytes sz result in
  let s := purge_expired_cursors now s in
  let current_bytes := cursor_buffer_bytes s in
  let materialized_total := saturating_add current_bytes materialized_bytes in
  if max_cursor_buffer_bytes limits <? materialized_total
  then (s, Err (AdmissionRejected "client_cursor_buffer_bytes" materialized_total (max_cursor_buffer_bytes limits)))
  else
    let columns := rs_columns result in
    let '(page_rows, remaining) := take_cursor_rows (rs_rows result) page_size in
    match remaining with
    | [] => (s, Ok (MkClientPage (rq_query_id request) (MkPage columns page_rows None) read_epoch bookmark))
    | _ =>
        let resident_bytes := rows_resident_bytes sz remaining in
        if max_server_cursors limits <=? N.of_nat (size (cursors s))
        then (s, Err (AdmissionRejected "client_server_cursors"
                        (saturating_add (N.of_nat (size (cursors s))) 1) (max_server_cursors limits)))
        else
          let next_bytes := saturating_add current_bytes resident_bytes in
          let '(next, cursor_id) := next_cursor_id (next_id s) (cursors s) in
          match cursor_id with
          | Err e => (MkCursors (cursors s) next current_bytes, Err e)
          | Ok cursor_id =>
              let cursor := MkCursor (client_query_key session request) (rq_target request) (rq_query request)
                (rq_parameters request) columns remaining read_epoch bookmark
                (now' + ms (cursor_ttl_ms limits)) resident_bytes in
              (MkCursors (<[cursor_id := cursor]> (cursors s)) next next_bytes,
               Ok (MkClientPage (rq_query_id request)
                     (MkPage columns page_rows (Some (MkToken cursor_id))) read_epoch bookmark))
          end
    end.

(** The test of [continue_server_cursor] and [release_server_cursor]. *)
Definition cursor_belongs (session : ClientQuerySession) (request : ClientQueryRequest) (cursor : ServerQueryCursor) : bool :=
  bool_decide (cu_owner cursor = client_query_key session request)
  && bool_decide (cu_target cursor = rq_target request)
  && bool_decide (cu_query cursor = rq_query request)
  && bool_decide (cu_parameters cursor = rq_parameters request).

Definition continue_server_cursor (session : ClientQuerySession) (request : ClientQueryRequest)
  (token : QueryCursorToken) (page_size : N) (now now' : N) (s : Cursors) : Cursors * Result ClientQueryPage :=
  let s := purge_expired_cursors now s in
  match cursors s !! offset token with
  | None => (s, unsupported "result cursor is unknown or expired")
  | Some cursor =>
      if negb (cursor_belongs session request cursor)
      then (s, unsupported "result cursor does not belong to this query request")
      else
        let cs := delete (offset token) (cursors s) in
        let previous_bytes := cu_resident_bytes cursor in
        let '(page_rows, rows) := take_cursor_rows (cu_rows cursor) page_size in
        let resident_bytes := rows_resident_bytes sz rows in
        let released_bytes := saturating_sub previous_bytes resident_bytes in
        let buffer := fetch_sub (cursor_buffer_bytes s) released_bytes in
        let '(cs, next_cursor) := match rows with
          | [] => (cs, None)
          | _ => (<[offset token := MkCursor (cu_owner cursor) (cu_target cursor) (cu_query cursor)
                      (cu_parameters cursor) (cu_columns cursor) rows (cu_read_epoch cursor) (cu_bookmark cursor)
                      (now' + ms (cursor_ttl_ms limits)) resident_bytes]> cs, Some token)
          end in
        (MkCursors cs (next_id s) buffer,
         Ok (MkClientPage (rq_query_id request) (MkPage (cu_columns cursor) page_rows next_cursor)
               (cu_read_epoch cursor) (cu_bookmark cursor)))
  end.

Definition release_server_cursor (session : ClientQuerySession) (request : ClientQueryRequest)
  (token : QueryCursorToken) (now : N) (s : Cursors) : Cursors * bool :=
  let s := purge_expired_cursors now s in
  match cursors s !! offset token with
  | None => (s, false)
  | Some cursor =>
      if negb (cursor_belongs session request cursor) then (s, false)
      else (MkCursors (delete (offset token) (cursors s)) (next_id s)
              (fetch_sub (cursor_buffer_bytes s) (cu_resident_bytes cursor)), true)
  end.
End service.
End client.
