(* ===== verification/CursorFacts.v ===== *)
(** Server cursors ([client/service.rs]): the bytes they are charged, and what their
    owner reads from them while others use the service. *)

From S2P Require Import Prelude Text Errors Model Namespace QueryData Client.
Import client.

Local Open Scope N_scope.

(** * Operations as values *)

Inductive CursorOp : Type :=
  | OpStart (session : ClientQuerySession) (request : ClientQueryRequest) (result : QueryResultSet)
      (read_epoch : option N) (bookmark : option ClientBookmark) (page_size now now' : N)
  | OpContinue (session : ClientQuerySession) (request : ClientQueryRequest) (token : QueryCursorToken)
      (page_size now now' : N)
  | OpRelease (session : ClientQuerySession) (request : ClientQueryRequest) (token : QueryCursorToken) (now : N).

Section cursors.
Context (sz : Sizes) (limits : CursorLimits).

Definition op_run (op : CursorOp) (s : Cursors) : Cursors * option (Result ClientQueryPage) :=
  match op with
  | OpStart session request result epoch bookmark n now now' =>
      let '(s, r) := start_server_cursor sz limits session request result epoch bookmark n now now' s in (s, Some r)
  | OpContinue session request token n now now' =>
      let '(s, r) := continue_server_cursor sz limits session request token n now now' s in (s, Some r)
  | OpRelease session request token now =>
      let '(s, _) := release_server_cursor session request token now s in (s, None)
  end.
Definition op_now (op : CursorOp) : N :=
  match op with
  | OpStart _ _ _ _ _ _ now _ | OpContinue _ _ _ _ now _ | OpRelease _ _ _ now => now
  end.
Definition ops_run (ops : list CursorOp) (s : Cursors) : Cursors :=
  foldl (λ s op, (op_run op s).1) s ops.

(** * Accounting *)

Definition cursor_wf (c : ServerQueryCursor) : Prop :=
  cu_rows c ≠ [] ∧ cu_resident_bytes c = rows_resident_bytes sz (cu_rows c).

Record accounted (s : Cursors) : Prop := {
  acc_sum : cursor_buffer_bytes s = wsum cu_resident_bytes (cursors s);
  acc_bytes : cursor_buffer_bytes s ≤ max_cursor_buffer_bytes limits;
  acc_count : N.of_nat (size (cursors s)) ≤ max_server_cursors limits;
  acc_cursors : map_Forall (λ id c, id ≠ 0 ∧ cursor_wf c) (cursors s) }.

Lemma fetch_sub_exact a b : a < u64_size → b ≤ a → fetch_sub a b = a - b.
Proof.
  intros Ha Hb. unfold fetch_sub. rewrite (N.mod_small b) by lia.
  replace (a + (u64_size - b)) with (a - b + 1 * u64_size) by lia.
  rewrite N.Div0.mod_add. apply N.mod_small. lia.
Qed.

Lemma wsum_btree_values {V} (w : V → N) (m : gmap N V) : nsum (w <$> btree_values m) = wsum w m.
Proof.
  unfold wsum, btree_values. rewrite <- list_fmap_compose.
  apply nsum_perm. by rewrite btree_iter_perm.
Qed.

Lemma wsum_split {V} (w : V → N) (P : N * V → Prop) `{∀ p, Decision (P p)} (m : gmap N V) :
  wsum w m = wsum w (filter P m) + wsum w (filter (λ p, ¬ P p) m).
Proof.
  induction m as [|k v m Hk IH] using map_ind.
  { by rewrite !map_filter_empty, !wsum_empty. }
  rewrite wsum_insert by done. destruct (decide (P (k, v))) as [HP|HP].
  - rewrite map_filter_insert_True by done. rewrite (map_filter_insert_False (λ p, ¬ P p)) by (intros Hn; by apply Hn).
    rewrite (delete_id m) by done. rewrite wsum_insert by (apply map_lookup_filter_None; by left). lia.
  - rewrite (map_filter_insert_False P) by done. rewrite map_filter_insert_True by done.
    rewrite (delete_id m) by done. rewrite wsum_insert by (apply map_lookup_filter_None; by left). lia.
Qed.

Lemma size_filter_le {V} (P : N * V → Prop) `{∀ p, Decision (P p)} (m : gmap N V) :
  (size (filter P m) ≤ size m)%nat.
Proof. rewrite <- !size_dom. apply subseteq_size, subseteq_dom, map_filter_subseteq. Qed.

Lemma purge_cursors now s :
  cursors (purge_expired_cursors now s) = filter (λ p : N * ServerQueryCursor, ¬ cu_expires_at p.2 ≤ now) (cursors s).
Proof. done. Qed.

Lemma purge_lookup now s id c :
  cursors (purge_expired_cursors now s) !! id = Some c ↔ cursors s !! id = Some c ∧ now < cu_expires_at c.
Proof. rewrite purge_cursors, map_lookup_filter_Some. cbn. intuition lia. Qed.

Lemma next_cursor_id_loop_ok attempts next cs next' id :
  next_cursor_id_loop attempts next cs = (next', Some id) → id ≠ 0 ∧ cs !! id = None.
Proof.
  revert next; induction attempts as [|attempts IH]; intros next; cbn; [done|].
  destruct (negb (next =? 0) && _) eqn:E; [|apply IH].
  intros [= _ <-]. apply andb_prop in E as [E1 E2].
  apply negb_true_iff, N.eqb_neq in E1. by apply bool_decide_eq_true in E2.
Qed.

Lemma next_cursor_id_ok next cs next' id :
  next_cursor_id next cs = (next', Ok id) → id ≠ 0 ∧ cs !! id = None.
Proof.
  unfold next_cursor_id. destruct (next_cursor_id_loop _ _ _) as [n [i|]] eqn:E; cbn; [|done].
  intros [= <- <-]. eauto using next_cursor_id_loop_ok.
Qed.

Lemma take_cursor_rows_spec rows n :
  take_cursor_rows rows n = (take (N.to_nat n) rows, drop (N.to_nat n) rows).
Proof.
  unfold take_cursor_rows. destruct (N.le_ge_cases n (N.of_nat (length rows))).
  - by rewrite N.min_l.
  - rewrite N.min_r, Nat2N.id by lia. rewrite !take_ge, !drop_ge by lia. done.
Qed.

Section bounded.
Hypothesis Hmax : max_cursor_buffer_bytes limits < u64_max.

Lemma purge_accounted now s : accounted s → accounted (purge_expired_cursors now s).
Proof.
  intros [Hs Hb Hc Hw].
  pose proof (wsum_split cu_resident_bytes (λ p : N * ServerQueryCursor, cu_expires_at p.2 ≤ now) (cursors s)) as Hsplit.
  set (gone := filter (λ p : N * ServerQueryCursor, cu_expires_at p.2 ≤ now) (cursors s)) in *.
  assert (foldl (λ total c, saturating_add total (cu_resident_bytes c)) 0 (btree_values gone) = wsum cu_resident_bytes gone) as Hr.
  { rewrite foldl_saturating by (unfold u64_max; lia). rewrite wsum_btree_values, N.min_l; [lia|]. rewrite <- Hs in Hsplit. lia. }
  assert (cursor_buffer_bytes (purge_expired_cursors now s) =
          wsum cu_resident_bytes (cursors (purge_expired_cursors now s))) as Hsum.
  { unfold purge_expired_cursors. cbn. fold gone. rewrite Hr. destruct (0 <? _) eqn:E.
    - cbn beta in *. rewrite fetch_sub_exact by (unfold u64_size, u64_max in *; lia). lia.
    - apply N.ltb_ge in E. lia. }
  split; [done| | |].
  - rewrite Hsum, purge_cursors. lia.
  - rewrite purge_cursors. pose proof (size_filter_le (λ p : N * ServerQueryCursor, ¬ cu_expires_at p.2 ≤ now) (cursors s)). lia.
  - intros id c [Hi _]%purge_lookup. by apply Hw.
Qed.

Lemma start_accounted session request result epoch bookmark n now now' s :
  accounted s →
  accounted (start_server_cursor sz limits session request result epoch bookmark n now now' s).1.
Proof.
  intros Ha%(purge_accounted now). unfold start_server_cursor. rewrite take_cursor_rows_spec.
  set (s' := purge_expired_cursors now s) in *. clearbody s'.
  destruct (_ <? _) eqn:Eb; [done|]. apply N.ltb_ge in Eb.
  destruct (drop (N.to_nat n) (rs_rows result)) as [|row rest] eqn:Er; [done|].
  destruct (_ <=? _) eqn:Ec; [done|]. apply N.leb_gt in Ec.
  destruct (next_cursor_id _ _) as [next [id|e]] eqn:Ei; destruct Ha as [Hs Hb Hc Hw].
  - apply next_cursor_id_ok in Ei as [Hid Hnone].
    pose proof (rows_resident_bytes_drop sz (N.to_nat n) (rs_rows result)) as Hd. rewrite Er in Hd.
    unfold saturating_add, result_resident_bytes in *.
    split; cbn [cursors cursor_buffer_bytes fst].
    + rewrite wsum_insert by done. cbn [cu_resident_bytes]. lia.
    + lia.
    + rewrite map_size_insert_None by done. lia.
    + apply map_Forall_insert_2; [|done]. done.
  - by split.
Qed.

Lemma release_accounted session request token now s :
  accounted s → accounted (release_server_cursor session request token now s).1.
Proof.
  intros Ha%(purge_accounted now). unfold release_server_cursor.
  destruct (cursors _ !! offset token) as [c|] eqn:E; [|done].
  destruct (negb _); [done|]. destruct Ha as [Hs Hb Hc Hw].
  pose proof (wsum_delete cu_resident_bytes _ _ _ E).
  split; cbn [cursors cursor_buffer_bytes fst].
  - rewrite fetch_sub_exact by (unfold u64_size, u64_max in *; lia). lia.
  - rewrite fetch_sub_exact by (unfold u64_size, u64_max in *; lia). lia.
  - rewrite map_size_delete_Some by (by eexists). lia.
  - by apply map_Forall_delete.
Qed.

Lemma continue_accounted session request token n now now' s :
  accounted s → accounted (continue_server_cursor sz limits session request token n now now' s).1.
Proof.
  intros Ha%(purge_accounted now). unfold continue_server_cursor.
  destruct (cursors _ !! offset token) as [c|] eqn:E; [|done].
  destruct (negb _); [done|]. rewrite take_cursor_rows_spec. destruct Ha as [Hs Hb Hc Hw].
  pose proof (wsum_delete cu_resident_bytes _ _ _ E) as Hdel.
  destruct (Hw _ _ E) as (Hid & _ & Hres).
  pose proof (rows_resident_bytes_drop sz (N.to_nat n) (cu_rows c)) as Hd. rewrite <- Hres in Hd.
  set (s' := purge_expired_cursors now s) in *. clearbody s'. set (rows := drop (N.to_nat n) (cu_rows c)) in *.
  assert (fetch_sub (cursor_buffer_bytes s') (saturating_sub (cu_resident_bytes c) (rows_resident_bytes sz rows)) =
          wsum cu_resident_bytes (delete (offset token) (cursors s')) + rows_resident_bytes sz rows) as Hf.
  { unfold saturating_sub. rewrite fetch_sub_exact by (unfold u64_size, u64_max in *; lia). lia. }
  assert (size (delete (offset token) (cursors s')) = pred (size (cursors s'))) as Hsz
    by (apply map_size_delete_Some; by eexists).
  destruct rows as [|row rest] eqn:Er; split; cbn [cursors cursor_buffer_bytes fst]; rewrite ?Hf.
  - change (rows_resident_bytes sz []) with 0. lia.
  - change (rows_resident_bytes sz []) with 0. lia.
  - lia.
  - by apply map_Forall_delete.
  - rewrite wsum_insert by apply lookup_delete_eq. cbn [cu_resident_bytes]. lia.
  - lia.
  - rewrite map_size_insert_None by apply lookup_delete_eq.
    enough (size (cursors s') ≠ 0%nat) by lia. intros He%map_size_empty_inv. by rewrite He in E.
  - apply map_Forall_insert_2; [done|]. by apply map_Forall_delete.
Qed.

Lemma op_accounted op s : accounted s → accounted (op_run op s).1.
Proof.
  intros Ha. destruct op as [session request result epoch bookmark n now now'|session request token n now now'|session request token now]; cbn.
  - pose proof (start_accounted session request result epoch bookmark n now now' s Ha). by destruct (start_server_cursor _ _ _ _ _ _ _ _ _ _ _).
  - pose proof (continue_accounted session request token n now now' s Ha). by destruct (continue_server_cursor _ _ _ _ _ _ _ _ _).
  - pose proof (release_accounted session request token now s Ha). by destruct (release_server_cursor _ _ _ _ _).
Qed.
End bounded.

(** * Reading a result while others use the service *)

Section reader.
Context (session : ClientQuerySession) (request : ClientQueryRequest) (token : QueryCursorToken).
Context (columns : list QueryColumn) (epoch : option N) (bookmark : option ClientBookmark).

(** The owner asks for the next page, or somebody else does something. *)
Inductive ReaderEvent : Type := Mine (page_size now now' : N) | Other (op : CursorOp).

Fixpoint reader_run (evs : list ReaderEvent) (s : Cursors) : list (Result ClientQueryPage) :=
  match evs with
  | [] => []
  | Mine n now now' :: evs =>
      let '(s, r) := continue_server_cursor sz limits session request token n now now' s in r :: reader_run evs s
  | Other op :: evs => reader_run evs (op_run op s).1
  end.

Definition page_of (rows : list QueryRow) (n : N) : ClientQueryPage :=
  MkClientPage (rq_query_id request)
    (MkPage columns (take (N.to_nat n) rows)
       (match drop (N.to_nat n) rows with [] => None | _ => Some token end)) epoch bookmark.

(** What the owner should see of the rows that are left, as long as some are. *)
Fixpoint pages_of (rows : list QueryRow) (evs : list ReaderEvent) : list ClientQueryPage :=
  match rows, evs with
  | [], _ | _, [] => []
  | _, Mine n _ _ :: evs => page_of rows n :: pages_of (drop (N.to_nat n) rows) evs
  | _, Other _ :: evs => pages_of rows evs
  end.

(** Others use keys of their own, or other cursors. *)
Definition foreign (op : CursorOp) : Prop :=
  match op with
  | OpStart _ _ _ _ _ _ _ _ => True
  | OpContinue session' request' token' _ _ _ | OpRelease session' request' token' _ =>
      offset token' ≠ offset token ∨ client_query_key session' request' ≠ client_query_key session request
  end.

(** Nothing happens a time-to-live after the owner's last page. *)
Fixpoint timely (expiry : N) (evs : list ReaderEvent) : Prop :=
  match evs with
  | [] => True
  | Mine _ now now' :: evs => now < expiry ∧ timely (now' + ms (cursor_ttl_ms limits)) evs
  | Other op :: evs => op_now op < expiry ∧ foreign op ∧ timely expiry evs
  end.

Definition held (rows : list QueryRow) (expiry : N) (s : Cursors) : Prop :=
  ∃ bytes, cursors s !! offset token = Some (MkCursor (client_query_key session request) (rq_target request)
    (rq_query request) (rq_parameters request) columns rows epoch bookmark expiry bytes).

Lemma purge_held rows expiry now s : now < expiry → held rows expiry s → held rows expiry (purge_expired_cursors now s).
Proof. intros Hnow [b Hb]. exists b. by apply purge_lookup. Qed.

Lemma held_delete rows expiry id s next b :
  id ≠ offset token → held rows expiry s → held rows expiry (MkCursors (delete id (cursors s)) next b).
Proof. intros Hid [b' Hb]. exists b'. cbn. by rewrite lookup_delete_ne. Qed.

Lemma held_insert rows expiry id c m s next b :
  id ≠ offset token → (m = cursors s ∨ m = delete id (cursors s)) → held rows expiry s →
  held rows expiry (MkCursors (<[id := c]> m) next b).
Proof. intros Hid [-> | ->] [b' Hb]; exists b'; cbn; by rewrite lookup_insert_ne, ?lookup_delete_ne. Qed.

(** The test of ownership keeps the foreigner from the cursor. *)
Lemma foreign_belongs rows expiry s session' request' id c :
  (id ≠ offset token ∨ client_query_key session' request' ≠ client_query_key session request) →
  held rows expiry s → cursors s !! id = Some c → cursor_belongs session' request' c = true → id ≠ offset token.
Proof.
  intros [?|Hk] [b Hb] Hc Hbel; [done|]. intros ->. simplify_eq. unfold cursor_belongs in Hbel. cbn in Hbel.
  rewrite bool_decide_eq_false_2 in Hbel by done. done.
Qed.

Lemma other_held rows expiry op s :
  op_now op < expiry → foreign op → held rows expiry s → held rows expiry (op_run op s).1.
Proof.
  intros Hnow Hf Hh%(purge_held _ _ _ _ Hnow).
  destruct op as [ses req result ep bm n now now'|ses req tok n now now'|ses req tok now]; cbn in Hf, Hnow, Hh |- *.
  - unfold start_server_cursor. rewrite take_cursor_rows_spec. destruct (_ <? _); [done|].
    destruct (drop _ _); [done|]. destruct (_ <=? _); [done|].
    destruct (next_cursor_id _ _) as [next [id|e]] eqn:Ei; [|by destruct Hh as [b Hb]; exists b].
    apply next_cursor_id_ok in Ei as [_ Hnone].
    apply (held_insert _ _ _ _ _ (purge_expired_cursors now s)); [|by left|done]. intros ->. destruct Hh as [b Hb]. congruence.
  - unfold continue_server_cursor. destruct (cursors _ !! offset tok) as [c|] eqn:Ec; [|done].
    destruct (cursor_belongs ses req c) eqn:Eb; [|done]. rewrite take_cursor_rows_spec.
    pose proof (foreign_belongs _ _ _ _ _ _ _ Hf Hh Ec Eb).
    destruct (drop _ _); [by apply (held_delete _ _ _ (purge_expired_cursors now s))|]. apply (held_insert _ _ _ _ _ (purge_expired_cursors now s)); [done|by right|done].
  - unfold release_server_cursor. destruct (cursors _ !! offset tok) as [c|] eqn:Ec; [|done].
    destruct (cursor_belongs ses req c) eqn:Eb; [|done].
    pose proof (foreign_belongs _ _ _ _ _ _ _ Hf Hh Ec Eb). by apply (held_delete _ _ _ (purge_expired_cursors now s)).
Qed.

Lemma mine_held rows expiry n now now' s :
  now < expiry → held rows expiry s →
  ∃ s', continue_server_cursor sz limits session request token n now now' s = (s', Ok (page_of rows n)) ∧
    (drop (N.to_nat n) rows ≠ [] → held (drop (N.to_nat n) rows) (now' + ms (cursor_ttl_ms limits)) s').
Proof.
  intros Hnow Hh%(purge_held _ _ _ _ Hnow). destruct Hh as [b Hb].
  unfold continue_server_cursor, page_of. rewrite Hb. unfold cursor_belongs. cbn [cu_owner cu_target cu_query cu_parameters].
  rewrite !bool_decide_eq_true_2 by done. cbn [andb negb cu_rows]. rewrite take_cursor_rows_spec.
  destruct (drop (N.to_nat n) rows) as [|row rest]; eexists; (split; [done|]); intros Hne; [done|].
  eexists. cbn. by rewrite lookup_insert_eq.
Qed.

Lemma reader_pages evs rows expiry s :
  timely expiry evs → held rows expiry s → Ok <$> pages_of rows evs `prefix_of` reader_run evs s.
Proof.
  revert rows expiry s; induction evs as [|ev evs IH]; intros rows expiry s Ht Hh; [by destruct rows|].
  destruct rows as [|row rest]; [apply prefix_nil|].
  destruct ev as [n now now'|op]; cbn in Ht.
  - destruct Ht as [Hnow Ht]. destruct (mine_held (row :: rest) _ n now now' s Hnow Hh) as (s' & E & Hh').
    cbn [reader_run pages_of]. rewrite E. cbn [fmap list_fmap]. apply prefix_cons.
    destruct (drop (N.to_nat n) (row :: rest)) eqn:Ed.
    + destruct evs as [|[]]; apply prefix_nil.
    + rewrite <- Ed in *. apply (IH _ (now' + ms (cursor_ttl_ms limits))); [done|]. apply Hh'. congruence.
  - destruct Ht as (Hnow & Hf & Ht). cbn [reader_run]. apply (IH _ expiry); [done|]. by apply other_held.
Qed.

(** The rows the owner is given are the rows that were left, in order. *)
Definition asked (evs : list ReaderEvent) : N :=
  nsum ((λ ev, match ev with Mine n _ _ => n | Other _ => 0 end) <$> evs).
Lemma pages_rows evs rows :
  mjoin ((λ p, pg_rows (cp_page p)) <$> pages_of rows evs) = take (N.to_nat (asked evs)) rows.
Proof.
  revert rows; induction evs as [|ev evs IH]; intros rows; [by destruct rows|].
  destruct rows as [|row rest]; [by rewrite take_nil|].
  destruct ev as [n now now'|op]; cbn [pages_of].
  - cbn [fmap list_fmap mjoin list_join].
    change (asked (Mine n now now' :: evs)) with (n + asked evs). rewrite N2Nat.inj_add.
    rewrite <- take_take_drop. cbn. f_equal. apply IH.
  - rewrite IH. done.
Qed.
End reader.
End cursors.

(** C29: the service never loses count of the rows it keeps for clients: after any
    sequence of starts, continuations and releases, at any times and for any
    sessions and requests, the byte counter is exactly the sum of the bytes of
    the rows still kept (its wrapping subtraction never wraps), it is within
    [max_cursor_buffer_bytes], there are at most [max_server_cursors] cursors, no
    cursor has the id zero, and none is kept once its rows are delivered. *)
Theorem cursors_accounted (sz : Sizes) (limits : CursorLimits) (ops : list CursorOp) :
  max_cursor_buffer_bytes limits < u64_max →
  let s := ops_run sz limits ops no_cursors in
  cursor_buffer_bytes s = wsum (λ c, rows_resident_bytes sz (cu_rows c)) (cursors s) ∧
  cursor_buffer_bytes s ≤ max_cursor_buffer_bytes limits ∧
  N.of_nat (size (cursors s)) ≤ max_server_cursors limits ∧
  map_Forall (λ id c, id ≠ 0 ∧ cu_rows c ≠ []) (cursors s).
Proof.
  intros Hmax s.
  assert (accounted sz limits s) as [Hs Hb Hc Hw].
  { apply (foldl_ind (accounted sz limits)); [|intros; by apply op_accounted].
    split; cbn; [by rewrite wsum_empty|lia|rewrite map_size_empty; lia|apply map_Forall_empty]. }
  split_and!; [|done..|].
  - rewrite Hs. unfold wsum. f_equal. apply list_fmap_ext. intros i [id c] Hi. cbn.
    apply (list_elem_of_lookup_2 _ i), elem_of_map_to_list in Hi. by apply (Hw id c).
  - intros id c Hi. destruct (Hw id c Hi) as (? & ? & _). done.
Qed.

(** C30: a result that does not fit its first page is delivered whole, in order and
    without repetition, while others use the service.  The first page holds the
    first rows; without a cursor it holds all of them; with one, whatever others
    do under keys or cursors of their own, each further request of the owner
    returns the next rows, the columns, epoch and bookmark of the first page, and
    a cursor exactly when rows are left, provided nobody waits a time-to-live
    after the owner's last page.  The rows so returned are the remaining rows up
    to the number asked for. *)
Theorem cursor_pages_deliver (sz : Sizes) (limits : CursorLimits) session request result epoch bookmark n now now' s s1 page :
  start_server_cursor sz limits session request result epoch bookmark n now now' s = (s1, Ok page) →
  let rest := drop (N.to_nat n) (rs_rows result) in
  pg_rows (cp_page page) = take (N.to_nat n) (rs_rows result) ∧
  match pg_next_cursor (cp_page page) with
  | None => rest = []
  | Some token => rest ≠ [] ∧ ∀ evs,
      timely limits session request token (now' + ms (cursor_ttl_ms limits)) evs →
      let pages := pages_of request token (rs_columns result) epoch bookmark rest evs in
      Ok <$> pages `prefix_of` reader_run sz limits session request token evs s1 ∧
      mjoin ((λ p, pg_rows (cp_page p)) <$> pages) = take (N.to_nat (asked evs)) rest
  end.
Proof.
  unfold start_server_cursor. rewrite take_cursor_rows_spec. destruct (_ <? _); [done|].
  destruct (drop (N.to_nat n) (rs_rows result)) as [|row rows] eqn:Er; [by intros [= _ <-]|].
  destruct (_ <=? _); [done|]. destruct (next_cursor_id _ _) as [next [id|e]] eqn:Ei; [|done].
  intros [= <- <-]. cbn [cp_page pg_rows pg_next_cursor]. split; [done|]. split; [done|].
  intros evs Ht. split; [|apply pages_rows].
  apply (reader_pages sz limits session _ _ _ _ _ _ _ (now' + ms (cursor_ttl_ms limits))); [done|].
  eexists. cbn. by rewrite lookup_insert_eq.
Qed.

(** ** A run *)

Definition example_limits : CursorLimits := MkLimits 8 1000 60.
Definition example_sizes : Sizes := MkSizes 24 24 64 64 24.
Definition example_scope : GraphScope := GraphScope_default.
Definition example_request : ClientQueryRequest :=
  MkRequest (MkTarget example_scope "cell-0") "q1" "MATCH (n) RETURN n" ∅ None (Some 1000) None Causal None None None.
Definition example_result : QueryResultSet :=
  MkResultSet [MkColumn "n"] [MkRow [QVertexId 1]; MkRow [QVertexId 2]; MkRow [QVertexId 3]] (Some 7) (Some 7).
Definition example_events : list ReaderEvent :=
  [Other (OpContinue (MkSession "bob") example_request (MkToken 1) 9 0 0); Mine 1 1 1;
   Other (OpRelease (MkSession "bob") example_request (MkToken 1) 2); Mine 5 2 2].

Lemma cursors_accounted_witness :
  let s := ops_run example_sizes example_limits
             [OpStart (MkSession "alice") example_request example_result (Some 7) None 1 0 0] no_cursors in
  cursor_buffer_bytes s = 96 ∧
  cursor_buffer_bytes s = wsum (λ c, rows_resident_bytes example_sizes (cu_rows c)) (cursors s).
Proof.
  intros s. split; [by vm_compute|].
  refine (proj1 (cursors_accounted example_sizes example_limits _ _)). vm_compute. reflexivity.
Defined.

Lemma cursor_pages_deliver_witness :
  ∃ s1 page, start_server_cursor example_sizes example_limits (MkSession "alice") example_request example_result
    (Some 7) None 1 0 0 no_cursors = (s1, Ok page) ∧
  pg_rows (cp_page page) = [MkRow [QVertexId 1]] ∧ pg_next_cursor (cp_page page) = Some (MkToken 1) ∧
  mjoin ((λ p, pg_rows (cp_page p)) <$> pages_of example_request (MkToken 1) [MkColumn "n"] (Some 7) None
           [MkRow [QVertexId 2]; MkRow [QVertexId 3]] example_events) = [MkRow [QVertexId 2]; MkRow [QVertexId 3]].
Proof.
  destruct (start_server_cursor example_sizes example_limits (MkSession "alice") example_request example_result
    (Some 7) None 1 0 0 no_cursors) as [s1 r] eqn:E.
  assert (r = Ok (MkClientPage "q1" (MkPage [MkColumn "n"] [MkRow [QVertexId 1]] (Some (MkToken 1))) (Some 7) None)) as ->.
  { change (r = _) with ((s1, r).2 = Ok (MkClientPage "q1" (MkPage [MkColumn "n"] [MkRow [QVertexId 1]] (Some (MkToken 1))) (Some 7) None)). rewrite <- E. by vm_compute. }
  eexists s1, _. split; [done|]. split; [done|]. split; [done|].
  destruct (cursor_pages_deliver _ _ _ _ _ _ _ _ _ _ _ _ _ E) as [_ [_ Hall]].
  apply (Hall example_events). vm_compute. repeat split; try done; right; done.
Defined.
