(* ===== verification/ClientNames.v ===== *)
(** [client/service.rs]: the names a client uses: databases, tenants, bookmarks and
    the metadata it may attach.  Base64 is a third-party codec and a parameter. *)

From S2P Require Import Prelude Text TextFacts Errors Namespace Codec QueryData Client.
From Stdlib Require Import Ascii.

Local Open Scope N_scope.

Module names.
Import client.

(** * Characters

    A [str] is read character by character; the bytes of a character are a list. *)
Fixpoint char_list (l : list N) : list (list N) :=
  match l with
  | [] => []
  | b0 :: r0 =>
      if b0 <? 128 then [b0] :: char_list r0
      else if b0 <? 224 then
        match r0 with b1 :: r1 => [b0; b1] :: char_list r1 | _ => [[b0]] end
      else if b0 <? 240 then
        match r0 with b1 :: b2 :: r2 => [b0; b1; b2] :: char_list r2 | _ => [l] end
      else
        match r0 with b1 :: b2 :: b3 :: r3 => [b0; b1; b2; b3] :: char_list r3 | _ => [l] end
  end.
Definition scalar (c : list N) : N :=
  match c with
  | [b0] => b0
  | [b0; b1] => (b0 - 192) * 64 + (b1 - 128)
  | [b0; b1; b2] => ((b0 - 224) * 64 + (b1 - 128)) * 64 + (b2 - 128)
  | [b0; b1; b2; b3] => (((b0 - 240) * 64 + (b1 - 128)) * 64 + (b2 - 128)) * 64 + (b3 - 128)
  | _ => 0
  end.
Definition chars (s : string) : list N := scalar <$> char_list (bytes s).

(** [char::is_control] (Cc) and [char::is_whitespace] (White_Space). *)
Definition is_control (c : N) : bool := (c <? 32) || ((127 <=? c) && (c <=? 159)).
Definition is_whitespace (c : N) : bool :=
  ((9 <=? c) && (c <=? 13)) || (c =? 32) || (c =? 0x85) || (c =? 0xa0) || (c =? 0x1680)
  || ((0x2000 <=? c) && (c <=? 0x200a)) || (c =? 0x2028) || (c =? 0x2029) || (c =? 0x202f)
  || (c =? 0x205f) || (c =? 0x3000).
Definition is_ascii_graphic (c : N) : bool := (33 <=? c) && (c <=? 126).

Fixpoint skip_whitespace (cs : list (list N)) : list (list N) :=
  match cs with
  | [] => []
  | c :: cs' => if is_whitespace (scalar c) then skip_whitespace cs' else cs
  end.
Definition trim (s : string) : string :=
  of_bytes (mjoin (rev (skip_whitespace (rev (skip_whitespace (char_list (bytes s))))))).

(** * Databases *)

Definition SCOPED_DATABASE_VERSION : string := "scope1".

Definition validate_database_name (database : string) : Result string :=
  let database := trim database in
  if bool_decide (database = "") || (255 <? strlen database) || existsb is_control (chars database)
  then Err (InvalidKeyComponent "database" database)
  else Ok database.

Definition unknown_graph_database (database : string) : GraphError :=
  UnsupportedQuery "ClientProtocol" ("unknown graph database " +:+ database).

Record HierarchicalClientDatabaseResolver := MkResolver { base_database : string; root_target : ClientQueryTarget }.
Definition HierarchicalClientDatabaseResolver_new (base_database : string) (root_target : ClientQueryTarget) :
  Result HierarchicalClientDatabaseResolver :=
  base_database ← validate_database_name base_database; Ok (MkResolver base_database root_target).

Record ScopeTenant := MkTenant { scope_id : string; tenant : string }.
Record ScopeTenancy := MkTenancy { st_tenant : option ScopeTenant; st_sub_tenant : option ScopeTenant }.

Section base64.
(** [URL_SAFE_NO_PAD]. *)
Context (b64_encode : string → string) (b64_decode : string → option string).

Definition encode_database_scope_id (component value : string) : Result string :=
  if bool_decide (value = "") || existsb is_control (chars value)
  then Err (InvalidKeyComponent component value)
  else
    let encoded := b64_encode value in
    NamespaceId_new encoded ;;
    Ok encoded.

Definition canonical_database_component (database encoded : string) : Result string :=
  if bool_decide (encoded = "") then Err (unknown_graph_database database)
  else
    bytes ← ok_or (b64_decode encoded) (unknown_graph_database database);
    value ← map_err (λ _, unknown_graph_database database) (from_utf8 bytes);
    if bool_decide (value = "") || existsb is_control (chars value)
       || negb (bool_decide (b64_encode value = encoded))
    then Err (unknown_graph_database database)
    else Ok encoded.

Definition scoped_database_name (r : HierarchicalClientDatabaseResolver) (tenant_id : string)
  (sub_tenant_id : option string) : Result string :=
  tenant ← encode_database_scope_id "tenant_id" tenant_id;
  sub_tenant ← match sub_tenant_id with
    | Some value => if bool_decide (value = "") then Ok "_" else encode_database_scope_id "sub_tenant_id" value
    | None => Ok "_"
    end;
  validate_database_name
    (base_database r +:+ "." +:+ SCOPED_DATABASE_VERSION +:+ "." +:+ tenant +:+ "." +:+ sub_tenant).

Definition scoped_target (r : HierarchicalClientDatabaseResolver) (database : string) : Result ClientQueryTarget :=
  let prefix := base_database r +:+ "." +:+ SCOPED_DATABASE_VERSION +:+ "." in
  encoded ← ok_or (strip_prefix prefix database) (unknown_graph_database database);
  '(tenant, sub_tenant) ←
    ok_or (match split_once "."%char encoded with
           | Some (t, s) => if free_of "."%char s then Some (t, s) else None
           | None => None
           end) (unknown_graph_database database);
  tenant ← canonical_database_component database tenant;
  let root := ct_scope (root_target r) in
  tenant ← NamespaceId_new tenant;
  namespace ← NamespacePath_child (gs_namespace root) tenant;
  namespace ←
    if bool_decide (sub_tenant = "_") then Ok namespace
    else
      sub ← canonical_database_component database sub_tenant;
      sub ← NamespaceId_new sub;
      NamespacePath_child namespace sub;
  ClientQueryTarget_new (GraphScope_new namespace (gs_graph_id root)) (ct_cell_id (root_target r)).

Definition resolve_database (r : HierarchicalClientDatabaseResolver) (database : option string) : Result ClientQueryTarget :=
  database ← validate_database_name (default (base_database r) database);
  if bool_decide (database = base_database r) then Ok (root_target r)
  else scoped_target r database.

(** ** The tenant a scope names *)

Definition decode_scope_id (encoded : string) : option string :=
  bytes ← b64_decode encoded;
  value ← result_ok (from_utf8 bytes);
  if bool_decide (value = "") || negb (forallb (λ ch, is_ascii_graphic ch || (ch =? 32)) (chars value))
     || negb (bool_decide (b64_encode value = encoded))
  then None else Some value.

Definition from_segment (segment : NamespaceId) : ScopeTenant :=
  let scope_id := ns_str segment in
  MkTenant scope_id (default scope_id (decode_scope_id scope_id)).
Definition from_scope (scope : GraphScope) : ScopeTenancy :=
  let segs := segments (gs_namespace scope) in
  MkTenancy (from_segment <$> segs !! 1%nat) (from_segment <$> segs !! 2%nat).
End base64.

(** ** A fixed table of databases *)

Record StaticClientDatabaseResolver := MkStatic {
  targets : gmap string ClientQueryTarget; default_database : option string }.
Definition StaticClientDatabaseResolver_new : StaticClientDatabaseResolver := MkStatic ∅ None.
Definition with_database (database : string) (target : ClientQueryTarget) (r : StaticClientDatabaseResolver) :
  Result StaticClientDatabaseResolver :=
  database ← validate_database_name database;
  Ok (MkStatic (<[database := target]> (targets r)) (default_database r)).
Definition with_default_database (database : string) (r : StaticClientDatabaseResolver) :
  Result StaticClientDatabaseResolver :=
  database ← validate_database_name database; Ok (MkStatic (targets r) (Some database)).
Definition single (database : string) (target : ClientQueryTarget) : Result StaticClientDatabaseResolver :=
  database ← validate_database_name database;
  r ← with_database database target StaticClientDatabaseResolver_new;
  with_default_database database r.
Definition static_resolve_database (r : StaticClientDatabaseResolver) (database : option string) : Result ClientQueryTarget :=
  database ← match database with
    | Some database => validate_database_name database
    | None => ok_or (default_database r) (UnsupportedQuery "ClientProtocol" "no default graph database is configured")
    end;
  ok_or (targets r !! database) (unknown_graph_database database).

(** * Bookmarks *)

Definition invalid_bookmark (reason : string) : GraphError :=
  UnsupportedQuery "ClientProtocol" ("invalid bookmark: " +:+ reason).

(** The service has its own copy of the encoder of [codec.rs]. *)
Definition bookmark_hex_encode (s : string) : string := hex_encode s.
Definition hex_nibble (byte : N) : Result N :=
  if (48 <=? byte) && (byte <=? 57) then Ok (byte - 48)
  else if (97 <=? byte) && (byte <=? 102) then Ok (byte - 97 + 10)
  else if (65 <=? byte) && (byte <=? 70) then Ok (byte - 65 + 10)
  else Err (invalid_bookmark "field contains non-hex characters").
(** [chunks_exact(2)], mapped and collected. *)
Fixpoint hex_bytes (l : list N) : Result (list N) :=
  match l with
  | a :: b :: l =>
      high ← hex_nibble a;
      low ← hex_nibble b;
      rest ← hex_bytes l;
      Ok (N.lor (N.shiftl high 4 mod 256) low :: rest)
  | _ => Ok []
  end.
Definition bookmark_hex_decode (value : string) : Result string :=
  if negb (strlen value mod 2 =? 0) then Err (invalid_bookmark "hex field has odd length")
  else bytes ← hex_bytes (bytes value); Ok (of_bytes bytes).

Definition bookmark_encode (b : ClientBookmark) : string :=
  let scope := ct_scope (bm_target b) in
  "sgk:1:" +:+ bookmark_hex_encode (NamespacePath_display (gs_namespace scope)) +:+ ":"
  +:+ bookmark_hex_encode (gid_str (gs_graph_id scope)) +:+ ":"
  +:+ bookmark_hex_encode (ct_cell_id (bm_target b)) +:+ ":" +:+ dec (bm_epoch b).

Fixpoint namespace_ids (l : list string) : Result (list NamespaceId) :=
  match l with
  | [] => Ok []
  | segment :: l => id ← NamespaceId_new segment; ids ← namespace_ids l; Ok (id :: ids)
  end.

Definition bookmark_field (reason field : string) : Result string :=
  bytes ← bookmark_hex_decode field;
  map_err (λ _, invalid_bookmark reason) (from_utf8 bytes).

Definition bookmark_parse (value : string) : Result ClientBookmark :=
  match split ":"%char value with
  | [magic; version; namespace; graph_id; cell_id; epoch] =>
      if negb (bool_decide (magic = "sgk")) || negb (bool_decide (version = "1"))
      then Err (invalid_bookmark "unsupported bookmark format")
      else
        namespace ← bookmark_field "namespace is not UTF-8" namespace;
        graph_id ← bookmark_field "graph id is not UTF-8" graph_id;
        cell_id ← bookmark_field "cell id is not UTF-8" cell_id;
        epoch ← map_err (λ _, invalid_bookmark "epoch is not an unsigned integer") (parse_u64_text epoch);
        ids ← namespace_ids (split "/"%char namespace);
        namespace ← NamespacePath_new ids;
        graph_id ← GraphId_new graph_id;
        target ← ClientQueryTarget_new (GraphScope_new namespace graph_id) cell_id;
        Ok (MkBookmark target epoch)
  | _ => Err (invalid_bookmark "unsupported bookmark format")
  end.

(** * Metadata a caller attaches *)

Definition MAX_CALLER_METADATA_LEN : N := 128.
Definition sanitize_caller_metadata (value : string) : option string :=
  let trimmed := trim value in
  if bool_decide (trimmed = "") || (MAX_CALLER_METADATA_LEN <? strlen trimmed) then None
  else if negb (forallb (λ ch, is_ascii_graphic ch || (ch =? 32)) (chars trimmed)) then None
  else Some trimmed.
End names.
