(* ===== verification/ClientNamesFacts.v ===== *)
(** The databases a client may name are exactly the tenants' ([ClientNames]), and
    bookmarks read back. *)

From S2P Require Import Prelude Text TextFacts Errors Namespace Codec CodecFacts QueryData Client ClientNames.
From Stdlib Require Import Ascii.
Import client names.

Local Open Scope N_scope.

(** * Characters *)

Lemma mjoin_cons {A} (l : list A) ls : mjoin (l :: ls) = l ++ mjoin ls.
Proof. done. Qed.

Definition char_wf (c : list N) : Prop :=
  utf8_check 0 c = None ∧ ∀ rest, char_list (c ++ rest) = c :: char_list rest.

Ltac byte_range :=
  repeat match goal with
  | H : (_ && _) = true |- _ => apply andb_prop in H as [? ?]
  | H : (_ && _) = false |- _ => apply andb_false_iff in H
  | H : (_ <=? _) = true |- _ => apply N.leb_le in H
  | H : (_ <? _) = false |- _ => apply N.ltb_ge in H
  | H : (_ <=? _) = false ∨ (_ <=? _) = false |- _ => rewrite !N.leb_gt in H
  end; (apply N.ltb_lt || apply N.ltb_ge); lia.

Lemma char_list_valid n a l :
  (length l ≤ n)%nat → utf8_check a l = None → Forall char_wf (char_list l) ∧ mjoin (char_list l) = l.
Proof.
  revert a l; induction n as [|n IH]; intros a [|b0 r0] Hl H; cbn in Hl; try lia; try done.
  cbn [utf8_check] in H. cbn [char_list].
  unfold in_range in H.
  destruct (b0 <? 128) eqn:E0.
  { destruct (IH (a + 1) r0) as [IH1 IH2]; [lia|done|]. rewrite mjoin_cons, IH2.
    split; [|done]. constructor; [|done]. split; [|intros rest]; cbn; by rewrite E0. }
  destruct ((194 <=? b0) && (b0 <=? 223)) eqn:E1.
  { assert ((b0 <? 224) = true) as E by byte_range. rewrite E.
    destruct r0 as [|b1 r1]; [done|]. destruct (is_cont b1) eqn:C1; [|done].
    destruct (IH (a + 2) r1) as [IH1 IH2]; [cbn in Hl; lia|done|]. rewrite mjoin_cons, IH2.
    split; [|done]. constructor; [|done].
    split; [|intros rest; cbn; by rewrite E0, E]. cbn. unfold in_range. by rewrite E0, E1, C1. }
  destruct ((224 <=? b0) && (b0 <=? 239)) eqn:E2.
  { assert ((b0 <? 224) = false) as E by byte_range. assert ((b0 <? 240) = true) as E' by byte_range. rewrite E, E'.
    destruct r0 as [|b1 r1]; [done|]. destruct (second3 b0 b1) eqn:C1; [|done].
    destruct r1 as [|b2 r2]; [done|]. destruct (is_cont b2) eqn:C2; [|done].
    destruct (IH (a + 3) r2) as [IH1 IH2]; [cbn in Hl; lia|done|]. rewrite mjoin_cons, IH2.
    split; [|done]. constructor; [|done].
    split; [|intros rest; cbn; by rewrite E0, E, E']. cbn. unfold in_range. by rewrite E0, E1, E2, C1, C2. }
  destruct ((240 <=? b0) && (b0 <=? 244)) eqn:E3; [|done].
  assert ((b0 <? 224) = false) as E by byte_range. assert ((b0 <? 240) = false) as E' by byte_range. rewrite E, E'.
  destruct r0 as [|b1 r1]; [done|]. destruct (second4 b0 b1) eqn:C1; [|done].
  destruct r1 as [|b2 r2]; [done|]. destruct (is_cont b2) eqn:C2; [|done].
  destruct r2 as [|b3 r3]; [done|]. destruct (is_cont b3) eqn:C3; [|done].
  destruct (IH (a + 4) r3) as [IH1 IH2]; [cbn in Hl; lia|done|]. rewrite mjoin_cons, IH2.
  split; [|done]. constructor; [|done].
  split; [|intros rest; cbn; by rewrite E0, E, E']. cbn. unfold in_range. by rewrite E0, E1, E2, E3, C1, C2, C3.
Qed.

Lemma char_list_join cs rest : Forall char_wf cs → char_list (mjoin cs ++ rest) = cs ++ char_list rest.
Proof.
  induction 1 as [|c cs [_ Hc] _ IH]; [done|]. rewrite mjoin_cons, <- List.app_assoc, Hc. by rewrite IH.
Qed.

Lemma valid_chars s :
  valid_utf8 s → Forall char_wf (char_list (bytes s)) ∧ mjoin (char_list (bytes s)) = bytes s.
Proof. intros H. eapply char_list_valid; [reflexivity|exact H]. Qed.

Lemma bytes_lt s : Forall (λ b, b < 256) (bytes s).
Proof. induction s as [|c s IH]; constructor; [apply byte_of_lt|done]. Qed.
Lemma bytes_of_bytes l : Forall (λ b, b < 256) l → bytes (of_bytes l) = l.
Proof. induction 1 as [|b l Hb _ IH]; [done|]. change (byte_of (ascii_of_N b) :: bytes (of_bytes l) = b :: l). f_equal; [by apply TextFacts.byte_of_ascii|done]. Qed.

(** ** Trimming *)

Lemma skip_whitespace_skip cs : skip_whitespace (skip_whitespace cs) = skip_whitespace cs.
Proof. induction cs as [|c cs IH]; [done|]. cbn. destruct (is_whitespace (scalar c)) eqn:E; [done|]. cbn. by rewrite E. Qed.
Lemma skip_whitespace_suffix cs : ∃ pre, cs = pre ++ skip_whitespace cs.
Proof.
  induction cs as [|c cs [pre IH]]; [by exists []|]. cbn. destruct (is_whitespace (scalar c)); [|by exists []].
  exists (c :: pre). cbn. by f_equal.
Qed.

Definition trimmed (cs : list (list N)) : list (list N) := rev (skip_whitespace (rev (skip_whitespace cs))).
Lemma trimmed_part cs : ∃ pre post, cs = pre ++ trimmed cs ++ post.
Proof.
  destruct (skip_whitespace_suffix cs) as [pre Hpre].
  destruct (skip_whitespace_suffix (rev (skip_whitespace cs))) as [post Hpost].
  exists pre, (rev post). unfold trimmed. rewrite <- rev_app_distr, <- Hpost, rev_involutive. exact Hpre.
Qed.

(** A text that begins and ends with characters that stay. *)
Definition sharp (cs : list (list N)) : Prop := skip_whitespace cs = cs ∧ skip_whitespace (rev cs) = rev cs.
Lemma sharp_trimmed cs : sharp cs → trimmed cs = cs.
Proof. intros [H1 H2]. unfold trimmed. by rewrite H1, H2, rev_involutive. Qed.
Lemma trimmed_sharp cs : sharp (trimmed cs).
Proof.
  unfold sharp, trimmed. split; [|by rewrite rev_involutive, skip_whitespace_skip].
  destruct (skip_whitespace_suffix (rev (skip_whitespace cs))) as [post Hpost].
  apply (f_equal (@rev _)) in Hpost. rewrite rev_involutive, rev_app_distr in Hpost.
  destruct (rev (skip_whitespace (rev (skip_whitespace cs)))) as [|c l]; [done|].
  pose proof (skip_whitespace_skip cs) as Hs. rewrite Hpost in Hs. cbn in Hs |- *.
  destruct (is_whitespace (scalar c)) eqn:E; [|done]. rewrite ?E in Hs.
  destruct (skip_whitespace_suffix (l ++ rev post)) as [pre Hp]. rewrite Hs in Hp.
  apply (f_equal length) in Hp. rewrite !length_app in Hp. cbn in Hp. rewrite !length_app in Hp. lia.
Qed.

Lemma trimmed_bytes s : valid_utf8 s →
  bytes (of_bytes (mjoin (trimmed (char_list (bytes s))))) = mjoin (trimmed (char_list (bytes s))).
Proof.
  intros [_ Hj]%valid_chars. destruct (trimmed_part (char_list (bytes s))) as (pre & post & Hp).
  apply bytes_of_bytes. pose proof (bytes_lt s) as Hlt. rewrite <- Hj, Hp in Hlt.
  rewrite !join_app in Hlt. apply Forall_app in Hlt as [_ [Hlt _]%Forall_app]. done.
Qed.

Lemma trim_chars s : valid_utf8 s →
  char_list (bytes (trim s)) = trimmed (char_list (bytes s)) ∧ Forall char_wf (char_list (bytes (trim s))).
Proof.
  intros Hv. destruct (valid_chars s Hv) as [Hwf Hj]. unfold trim. fold (trimmed (char_list (bytes s))).
  destruct (trimmed_part (char_list (bytes s))) as (pre & post & Hp).
  assert (Forall char_wf (trimmed (char_list (bytes s)))) as Ht.
  { rewrite Hp in Hwf. apply Forall_app in Hwf as [_ [Hwf _]%Forall_app]. done. }
  rewrite trimmed_bytes by done. pose proof (char_list_join _ [] Ht) as Hc. rewrite List.app_nil_r in Hc.
  cbn in Hc. rewrite (right_id_L [] (++)) in Hc. by rewrite Hc.
Qed.

(** Two texts with the same characters are the same. *)
Lemma trim_sharp s : valid_utf8 s → sharp (char_list (bytes s)) → trim s = s.
Proof.
  intros Hv Hs. unfold trim. fold (trimmed (char_list (bytes s))). rewrite sharp_trimmed by done.
  rewrite (proj2 (valid_chars s Hv)). apply of_bytes_bytes.
Qed.

Lemma trim_trim s : valid_utf8 s → trim (trim s) = trim s.
Proof.
  intros Hv. destruct (trim_chars s Hv) as [Hc _]. destruct (valid_chars s Hv) as [_ Hj].
  unfold trim at 1. fold (trimmed (char_list (bytes (trim s)))). rewrite Hc.
  rewrite sharp_trimmed by apply trimmed_sharp. done.
Qed.

Lemma trim_valid s : valid_utf8 s → valid_utf8 (trim s).
Proof.
  intros Hv. destruct (trim_chars s Hv) as [Hc Hwf].
  assert (bytes (trim s) = mjoin (char_list (bytes (trim s)))) as Hj.
  { unfold trim at 1. fold (trimmed (char_list (bytes s))). rewrite <- Hc.
    rewrite Hc. by apply trimmed_bytes. }
  unfold valid_utf8. rewrite Hj. generalize 0. clear Hc Hj.
  induction Hwf as [|c cs [Hok _] _ IH]; intros a; [done|]. rewrite mjoin_cons.
  rewrite utf8_check_app by (by eapply utf8_check_shift). apply IH.
Qed.

(** ASCII text is its own list of characters. *)
Lemma ascii_char_list s : str_forall is_ascii s = true → char_list (bytes s) = (λ b, [b]) <$> bytes s.
Proof.
  induction s as [|c s IH]; [done|]. cbn [str_forall]. intros [Hc Hs]%andb_prop.
  cbn [bytes char_list]. unfold is_ascii in Hc. rewrite Hc, IH by done. done.
Qed.

Lemma component_char_graphic c : component_char c = true → is_whitespace (byte_of c) = false ∧ is_control (byte_of c) = false.
Proof. destruct c as [[] [] [] [] [] [] [] []]; vm_compute; try done; intros H; discriminate H. Qed.

Lemma component_not_white s :
  str_forall component_char s = true →
  Forall (λ c, is_whitespace (scalar c) = false ∧ is_control (scalar c) = false) (char_list (bytes s)).
Proof.
  intros H. rewrite ascii_char_list by (by eapply str_forall_mono; [apply component_char_ascii|]).
  induction s as [|c s IH]; [constructor|]. cbn [str_forall] in H. apply andb_prop in H as [Hc Hs].
  cbn. constructor; [|by apply IH]. cbn [scalar]. by apply component_char_graphic.
Qed.

Lemma skip_whitespace_head c cs : is_whitespace (scalar c) = false → skip_whitespace (c :: cs) = c :: cs.
Proof. intros E. cbn. by rewrite E. Qed.

(** A trimmed text followed by a component stays as it is. *)
Lemma sharp_app s t :
  valid_utf8 s → s ≠ "" → sharp (char_list (bytes s)) → t ≠ "" → str_forall component_char t = true →
  sharp (char_list (bytes (s +:+ t))).
Proof.
  intros Hv Hs [H1 H2] Ht Hc. destruct (valid_chars s Hv) as [Hwf Hj].
  rewrite bytes_app. rewrite <- Hj, char_list_join by done.
  pose proof (component_not_white t Hc) as Hw.
  assert (char_list (bytes t) ≠ []) as Hne.
  { rewrite ascii_char_list by (by eapply str_forall_mono; [apply component_char_ascii|]). by destruct t. }
  split.
  - destruct (char_list (bytes s)) as [|c cs] eqn:E.
    { assert (bytes s = []) as Hb by (by rewrite <- Hj). destruct s; [done|discriminate Hb]. }
    cbn in H1 |- *. destruct (is_whitespace (scalar c)) eqn:Ew; [|done].
    destruct (skip_whitespace_suffix cs) as [pre Hp]. rewrite H1 in Hp.
    apply (f_equal length) in Hp. rewrite length_app in Hp. cbn in Hp. lia.
  - destruct (char_list (bytes t)) as [|c cs] using rev_ind; [done|].
    apply Forall_app in Hw as [_ Hw]. apply Forall_singleton in Hw as [Hw _].
    rewrite List.app_assoc, rev_app_distr. cbn [rev List.app]. by apply skip_whitespace_head.
Qed.

(** * Databases *)

Lemma validate_database_name_ok s t :
  valid_utf8 s → validate_database_name s = Ok t → t = trim s ∧ validate_database_name t = Ok t.
Proof.
  intros Hv. unfold validate_database_name. destruct (_ || _ || _) eqn:E; [done|]. intros [= <-].
  split; [done|]. by rewrite trim_trim, E.
Qed.

(** What the code relies on of the base64 engine: decoding inverts encoding, the
    alphabet is letters, digits, [-] and [_], only the empty text has an empty
    encoding, and no encoding has one character. *)
Class Base64 (enc : string → string) (dec : string → option string) : Prop := {
  b64_round x : dec (enc x) = Some x;
  b64_chars x : str_forall component_char (enc x) = true;
  b64_free x : free_of "."%char (enc x) = true;
  b64_nonempty x : x ≠ "" → enc x ≠ "";
  b64_length x : String.length (enc x) ≠ 1%nat }.

Lemma split_once_Some sep s a b : split_once sep s = Some (a, b) → s = a +:+ String sep b ∧ free_of sep a = true.
Proof.
  revert a; induction s as [|c s IH]; intros a; cbn; [done|]. destruct (decide (c = sep)) as [->|Hc].
  - intros [= <- <-]. done.
  - destruct (split_once sep s) as [[x y]|]; [|done]. intros [= <- <-].
    destruct (IH x eq_refl) as [-> Hf]. rewrite app_cons. split; [done|]. by apply free_of_cons.
Qed.

Lemma list_starts_with_prefix l k : list_starts_with l k = true ↔ k `prefix_of` l.
Proof.
  revert k; induction l as [|x l IH]; intros [|y k]; cbn.
  - split; [intros _; apply prefix_nil|done].
  - split; [done|]. by intros H%prefix_nil_inv.
  - split; [intros _; apply prefix_nil|done].
  - rewrite andb_true_iff, bool_decide_eq_true, IH. split.
    + intros [-> H]. by apply prefix_cons.
    + intros H. rewrite (prefix_cons_inv_1 _ _ _ _ H). split; [done|]. by eapply prefix_cons_inv_2.
Qed.

Section databases.
Context (enc : string → string) (dec : string → option string) `{!Base64 enc dec}.

Definition scope_id_ok (v : string) : Prop := v ≠ "" ∧ existsb is_control (chars v) = false ∧ valid_utf8 v.

Lemma enc_inj x y : enc x = enc y → x = y.
Proof. intros E. pose proof (b64_round x) as H. rewrite E, b64_round in H. congruence. Qed.
Lemma enc_component v : v ≠ "" → component_ok (enc v) = true.
Proof. intros H. unfold component_ok. rewrite bool_decide_eq_false_2 by (by apply b64_nonempty). apply b64_chars. Qed.
Lemma enc_not_underscore v : enc v ≠ "_".
Proof. intros E. apply (b64_length v). by rewrite E. Qed.

Lemma encode_scope_id_ok c v e :
  encode_database_scope_id enc c v = Ok e ↔ v ≠ "" ∧ existsb is_control (chars v) = false ∧ e = enc v.
Proof.
  unfold encode_database_scope_id. case_bool_decide as Hv; cbn [orb]; [naive_solver|].
  destruct (existsb _ _); [naive_solver|]. unfold NamespaceId_new, validate_component.
  rewrite enc_component by done. cbn. naive_solver.
Qed.

Lemma canonical_component_ok db e e' :
  canonical_database_component enc dec db e = Ok e' ↔ e' = e ∧ ∃ v, scope_id_ok v ∧ enc v = e.
Proof.
  unfold canonical_database_component. case_bool_decide as He.
  { split; [done|]. intros (_ & v & (Hv & _) & Hve). exfalso. apply (b64_nonempty v Hv). congruence. }
  split.
  - intros H. res_inv. apply from_utf8_ok in Hx0 as [-> Hv].
    match type of H with (if ?b then _ else _) = _ => destruct b eqn:Eb; [done|] end.
    apply orb_false_iff in Eb as [[Hxe%bool_decide_eq_false Ec]%orb_false_iff Hr%negb_false_iff%bool_decide_eq_true].
    res_inv. split; [done|]. by exists x.
  - intros (-> & v & (Hv & Hc & Hu) & <-). rewrite b64_round. cbn [ok_or mbind result_mbind result_bind].
    rewrite from_utf8_valid by done. cbn [map_err mbind result_mbind result_bind].
    rewrite bool_decide_eq_false_2, Hc, bool_decide_eq_true_2 by done. done.
Qed.

(** ** Scoped databases *)

Context (r : HierarchicalClientDatabaseResolver).
Hypothesis Hbase : valid_utf8 (base_database r) ∧ validate_database_name (base_database r) = Ok (base_database r).
Hypothesis Hroot : segments (gs_namespace (ct_scope (root_target r))) ≠ [] ∧
  (depth (gs_namespace (ct_scope (root_target r))) + 2 ≤ MAX_NAMESPACE_DEPTH)%nat ∧
  component_ok (ct_cell_id (root_target r)) = true.

Definition sub_ok (sub : option string) : Prop :=
  match sub with Some v => v = "" ∨ scope_id_ok v | None => True end.
(** An empty sub-tenant is none. *)
Definition sub_norm (sub : option string) : option string :=
  match sub with Some v => if bool_decide (v = "") then None else Some v | None => None end.
Definition sub_text (sub : option string) : string :=
  match sub_norm sub with Some v => enc v | None => "_" end.

(** Where a tenant's database lives: below the root, under the tenant's name. *)
Definition tenant_target (t : string) (sub : option string) : ClientQueryTarget :=
  let root := ct_scope (root_target r) in
  MkTarget (MkGraphScope
    (MkNamespacePath (segments (gs_namespace root) ++
       (MkNamespaceId <$> enc t :: match sub_norm sub with Some v => [enc v] | None => [] end)))
    (gs_graph_id root)) (ct_cell_id (root_target r)).

Definition scoped_text (t : string) (sub : option string) : string :=
  base_database r +:+ "." +:+ SCOPED_DATABASE_VERSION +:+ "." +:+ enc t +:+ "." +:+ sub_text sub.

Lemma sub_text_component sub : str_forall component_char (sub_text sub) = true.
Proof. unfold sub_text. destruct (sub_norm sub); [apply b64_chars|done]. Qed.

Lemma trim_scoped_text t sub : valid_utf8 (scoped_text t sub) ∧ trim (scoped_text t sub) = scoped_text t sub.
Proof.
  destruct Hbase as [Hv Hb]. set (rest := "." +:+ SCOPED_DATABASE_VERSION +:+ "." +:+ enc t +:+ "." +:+ sub_text sub).
  assert (str_forall component_char rest = true) as Hr.
  { unfold rest. rewrite !str_forall_app, (b64_chars (enc := enc) t), sub_text_component. done. }
  assert (valid_utf8 (base_database r +:+ rest)) as Hv'.
  { apply valid_utf8_app; [done|]. apply ascii_valid_utf8.
    eapply str_forall_mono; [apply component_char_ascii|done]. }
  split; [done|]. apply trim_sharp; [done|]. apply sharp_app; [done| | | |done].
  - intros E. rewrite E in Hb. done.
  - pose proof (trim_chars _ Hv) as [Hc _].
    destruct (validate_database_name_ok _ _ Hv Hb) as [Ht _]. rewrite Ht at 1. rewrite Hc. apply trimmed_sharp.
  - done.
Qed.

Lemma scoped_name_ok t sub db : scope_id_ok t → sub_ok sub →
  scoped_database_name enc r t sub = Ok db ↔ validate_database_name (scoped_text t sub) = Ok db ∧ db = scoped_text t sub.
Proof.
  intros (Ht & Hc & Hv) Hs. unfold scoped_database_name.
  assert (encode_database_scope_id enc "tenant_id" t = Ok (enc t)) as -> by (by apply encode_scope_id_ok).
  assert (match sub with
          | Some value => if bool_decide (value = "") then Ok "_" else encode_database_scope_id enc "sub_tenant_id" value
          | None => Ok "_"
          end = Ok (sub_text sub)) as ->.
  { unfold sub_text, sub_norm. destruct sub as [v|]; [|done]. case_bool_decide as E; [done|].
    destruct Hs as [?|(?&?&?)]; [done|]. by apply encode_scope_id_ok. }
  cbn [mbind result_mbind result_bind]. fold (scoped_text t sub). split; [|by intros []].
  intros H. split; [done|]. destruct (trim_scoped_text t sub) as [Hv' Htr].
  destruct (validate_database_name_ok _ _ Hv' H) as [-> _]. done.
Qed.

Lemma child_ok p n : (S (depth p) ≤ MAX_NAMESPACE_DEPTH)%nat →
  NamespacePath_child p n = Ok (MkNamespacePath (segments p ++ [n])).
Proof.
  intros H. apply NamespacePath_new_ok. split_and!; [by destruct (segments p)| |done].
  rewrite length_app. cbn. unfold depth in H. lia.
Qed.
Lemma id_new_ok v : v ≠ "" → NamespaceId_new (enc v) = Ok (MkNamespaceId (enc v)).
Proof. intros H. unfold NamespaceId_new, validate_component. by rewrite enc_component. Qed.

(** The text of a tenant's database leads to the tenant's place. *)
Lemma scoped_target_ok t sub : scope_id_ok t → sub_ok sub →
  scoped_target enc dec r (scoped_text t sub) = Ok (tenant_target t sub).
Proof.
  intros Ht Hs. destruct Hroot as (Hne & Hd & Hcell). unfold scoped_target.
  assert (scoped_text t sub = (base_database r +:+ "." +:+ SCOPED_DATABASE_VERSION +:+ ".") +:+
            enc t +:+ String "." (sub_text sub)) as Hdb by (unfold scoped_text; by rewrite !app_assoc).
  assert (free_of "."%char (sub_text sub) = true) as Hf.
  { unfold sub_text. destruct (sub_norm sub); [apply b64_free|done]. }
  assert (strip_prefix (base_database r +:+ "." +:+ SCOPED_DATABASE_VERSION +:+ ".") (scoped_text t sub) =
          Some (enc t +:+ String "." (sub_text sub))) as -> by (rewrite Hdb; apply strip_prefix_app).
  cbn [ok_or mbind result_mbind result_bind]. rewrite split_once_app, Hf by apply b64_free.
  cbn [ok_or mbind result_mbind result_bind].
  rewrite (proj2 (canonical_component_ok _ (enc t) (enc t))) by (split; [done|by exists t]).
  cbn [mbind result_mbind result_bind]. destruct Ht as (Ht & _). rewrite id_new_ok by done.
  cbn [mbind result_mbind result_bind]. rewrite child_ok by lia. cbn [mbind result_mbind result_bind].
  unfold tenant_target, sub_text, sub_norm in *.
  destruct sub as [v|]; [|by rewrite bool_decide_eq_true_2 by done; cbn; unfold ClientQueryTarget_new, validate_component; rewrite Hcell].
  destruct (bool_decide (v = "")) eqn:Ev.
  - rewrite bool_decide_eq_true_2 by done. cbn. unfold ClientQueryTarget_new, validate_component. by rewrite Hcell.
  - apply bool_decide_eq_false in Ev. destruct Hs as [?|Hs]; [done|].
    rewrite bool_decide_eq_false_2 by apply enc_not_underscore.
    rewrite (proj2 (canonical_component_ok _ (enc v) (enc v))) by (split; [done|by exists v]).
    cbn [mbind result_mbind result_bind]. rewrite id_new_ok by done. cbn [mbind result_mbind result_bind].
    rewrite child_ok by (unfold depth in *; cbn; rewrite length_app; cbn; lia).
    cbn. unfold ClientQueryTarget_new, validate_component. rewrite Hcell. cbn.
    by rewrite <- List.app_assoc.
Qed.

Lemma scoped_target_inv db target : scoped_target enc dec r db = Ok target →
  ∃ t sub, scope_id_ok t ∧ sub_ok sub ∧ db = scoped_text t sub.
Proof.
  unfold scoped_target. intros H. apply bind_ok in H as (encoded & Hp & H). apply ok_or_ok, strip_prefix_Some in Hp.
  apply bind_ok in H as ([tn sb] & Hs & H). apply ok_or_ok in Hs.
  destruct (split_once _ encoded) as [[a b]|] eqn:Eo; [|done]. destruct (free_of _ b) eqn:Ef; [|done].
  injection Hs as -> ->. apply split_once_Some in Eo as [-> _].
  apply bind_ok in H as (tn' & Hc & H). apply canonical_component_ok in Hc as (-> & t & Ht & <-).
  apply bind_ok in H as (tid & _ & H). apply bind_ok in H as (ns & _ & H). apply bind_ok in H as (ns' & Hn & _).
  case_bool_decide as Hsb.
  - exists t, None. split; [done|]. split; [done|]. rewrite Hp, Hsb. unfold scoped_text. by rewrite !app_assoc.
  - apply bind_ok in Hn as (sb' & Hc & _). apply canonical_component_ok in Hc as (-> & v & Hv & <-).
    exists t, (Some v). split; [done|]. split; [by right|]. rewrite Hp. unfold scoped_text, sub_text, sub_norm.
    rewrite bool_decide_eq_false_2 by (by destruct Hv). by rewrite !app_assoc.
Qed.

Lemma scoped_text_not_base t sub : scoped_text t sub ≠ base_database r.
Proof.
  clear Hbase Hroot. unfold scoped_text. intros E. apply (f_equal String.length) in E. rewrite !length_app_str in E.
  change (String.length ".") with 1%nat in E. lia.
Qed.

(** Different tenants are different places, and neither is inside the other. *)
Lemma tenant_target_descends t sub t' :
  is_descendant_of (gs_namespace (ct_scope (tenant_target t sub))) (gs_namespace (ct_scope (tenant_target t' None))) = true →
  t = t'.
Proof.
  unfold is_descendant_of, tenant_target. cbn [ct_scope gs_namespace segments].
  intros H%list_starts_with_prefix%prefix_app_inv. cbn in H.
  apply prefix_cons_inv_1 in H. injection H as H. symmetry. by apply enc_inj.
Qed.

Lemma tenant_target_inj t sub t' sub' : tenant_target t sub = tenant_target t' sub' → t = t' ∧ sub_norm sub = sub_norm sub'.
Proof.
  unfold tenant_target. intros [= H]. apply (inj _) in H. cbn in H. injection H as Ht Hs. apply enc_inj in Ht as ->.
  split; [done|]. destruct (sub_norm sub), (sub_norm sub'); cbn in Hs; simplify_eq; [|done].
  f_equal. by apply enc_inj.
Qed.
End databases.

(** C31: the databases a client may name are the root and the tenants', nothing
    else.  For a resolver built from any base name over a root at most six
    namespaces deep, a database name resolves exactly when it is the base name, to
    the root, or the name [scoped_database_name] gives some tenant and sub-tenant,
    to the place of that tenant below the root; different tenants or sub-tenants
    have different places; and no tenant's place is inside another tenant's. *)
Theorem databases_exact (enc : string → string) (dec : string → option string) raw root r :
  Base64 enc dec → valid_utf8 raw → HierarchicalClientDatabaseResolver_new raw root = Ok r →
  segments (gs_namespace (ct_scope root)) ≠ [] →
  (depth (gs_namespace (ct_scope root)) + 2 ≤ MAX_NAMESPACE_DEPTH)%nat →
  component_ok (ct_cell_id root) = true →
  (∀ db target, valid_utf8 db →
     resolve_database enc dec r (Some db) = Ok target ↔
     (trim db = base_database r ∧ target = root) ∨
     ∃ t sub, scope_id_ok t ∧ sub_ok sub ∧ scoped_database_name enc r t sub = Ok (trim db) ∧
       target = tenant_target enc r t sub) ∧
  (∀ t sub t' sub', tenant_target enc r t sub = tenant_target enc r t' sub' → t = t' ∧ sub_norm sub = sub_norm sub') ∧
  (∀ t sub t', is_descendant_of (gs_namespace (ct_scope (tenant_target enc r t sub)))
                 (gs_namespace (ct_scope (tenant_target enc r t' None))) = true → t = t').
Proof.
  intros HB Hraw Hnew Hne Hd Hcell. unfold HierarchicalClientDatabaseResolver_new in Hnew.
  apply bind_ok in Hnew as (base & Hb & [= <-]).
  destruct (validate_database_name_ok _ _ Hraw Hb) as [-> Hb'].
  assert (valid_utf8 (trim raw)) as Hv by (by apply trim_valid).
  split_and!; [|apply (tenant_target_inj enc dec)|apply (tenant_target_descends enc dec)].
  intros db target Hdb. unfold resolve_database. cbn [base_database root_target].
  change (default (trim raw) (Some db)) with db.
  assert (∀ d, validate_database_name db = Ok d → d = trim db) as Hval
    by (intros d Hd'; by destruct (validate_database_name_ok _ _ Hdb Hd')).
  split.
  - intros H. apply bind_ok in H as (d & Hd' & H). pose proof (Hval _ Hd') as ->. case_bool_decide as Eb.
    + left. by injection H as <-.
    + right. destruct (scoped_target_inv enc dec _ _ _ H) as (t & sub & Ht & Hs & Ed).
      exists t, sub. split_and!; [done..| |].
      * apply (scoped_name_ok enc dec); [done..|]. rewrite <- Ed. split; [|done].
        by destruct (validate_database_name_ok _ _ Hdb Hd').
      * rewrite Ed, scoped_target_ok in H by done. by injection H.
  - assert (∀ d, validate_database_name (trim db) = Ok d → validate_database_name db = Ok (trim db)) as Hval'.
    { intros d. unfold validate_database_name. rewrite trim_trim by done. by destruct (_ || _ || _). }
    intros [[E ->]|(t & sub & Ht & Hs & Hn & ->)].
    + rewrite <- E in Hb'. rewrite (Hval' _ Hb'). cbn. by rewrite bool_decide_eq_true_2.
    + apply (scoped_name_ok enc dec) in Hn as [Hn E]; [|done..]. rewrite <- E in Hn. rewrite (Hval' _ Hn). cbn.
      rewrite bool_decide_eq_false_2.
      * rewrite E. by apply scoped_target_ok.
      * rewrite E. apply (scoped_text_not_base enc (MkResolver (trim raw) root)).
Qed.

(** ** An encoder that obeys the laws *)

Lemma hex_at_component n : n < 16 → component_char (hex_at n) = true ∧ not_char "." (hex_at n) = true ∧ not_char ":" (hex_at n) = true.
Proof.
  intros Hn.
  assert (Forall (λ n, component_char (hex_at n) = true ∧ not_char "." (hex_at n) = true ∧ not_char ":" (hex_at n) = true)
    (N.of_nat <$> seq 0 16)) as Hall by (cbv; repeat constructor).
  rewrite Forall_forall in Hall. apply Hall, list_elem_of_fmap.
  exists (N.to_nat n). rewrite elem_of_seq. lia.
Qed.

Lemma hex_encode_chars s :
  str_forall component_char (hex_encode s) = true ∧ free_of "."%char (hex_encode s) = true ∧ free_of ":"%char (hex_encode s) = true.
Proof.
  induction s as [|c s (IH1 & IH2 & IH3)]; [done|].
  pose proof (byte_nibbles c) as (H1 & H2 & _).
  destruct (hex_at_component _ H1) as (A1 & A2 & A3), (hex_at_component _ H2) as (B1 & B2 & B3).
  cbn [hex_encode]. cbv zeta. unfold free_of in *. cbn [str_forall].
  by rewrite A1, A2, A3, B1, B2, B3, IH1, IH2, IH3.
Qed.

Definition hex_dec (s : string) : option string := result_ok (hex_decode "" s).
Lemma hex_base64 : Base64 hex_encode hex_dec.
Proof.
  split; intros x.
  - unfold hex_dec. by rewrite hex_round_trip.
  - apply hex_encode_chars.
  - apply hex_encode_chars.
  - by destruct x.
  - rewrite hex_encode_length. lia.
Qed.

Definition example_root : ClientQueryTarget := MkTarget GraphScope_default "cell-0".
Lemma databases_exact_witness :
  resolve_database hex_encode hex_dec (MkResolver "graph" example_root) (Some " graph.scope1.6163.62 ") =
    Ok (tenant_target hex_encode (MkResolver "graph" example_root) "ac" (Some "b")) ∧
  valid_utf8 " graph " ∧ HierarchicalClientDatabaseResolver_new " graph " example_root = Ok (MkResolver "graph" example_root).
Proof.
  assert (HierarchicalClientDatabaseResolver_new " graph " example_root = Ok (MkResolver "graph" example_root)) as Hn
    by (vm_compute; reflexivity).
  split; [|split; [reflexivity|exact Hn]].
  refine (proj2 (proj1 (databases_exact hex_encode hex_dec " graph " example_root _ hex_base64 eq_refl Hn _ _ _) _ _ _) _);
    [discriminate|vm_compute; repeat constructor|reflexivity|reflexivity|].
  right. exists "ac", (Some "b"). repeat split; try (right; repeat split); try discriminate; reflexivity.
Defined.

(** * Bookmarks *)

Lemma hex_nibble_value b n : hex_value b = Some n → hex_nibble b = Ok n.
Proof.
  unfold hex_value, hex_nibble. destruct ((48 <=? b) && _); [naive_solver|].
  destruct ((97 <=? b) && _); [naive_solver|]. destruct ((65 <=? b) && _); naive_solver.
Qed.

Lemma hex_bytes_encode s : hex_bytes (bytes (hex_encode s)) = Ok (bytes s).
Proof.
  induction s as [|c s IH]; [done|]. pose proof (byte_nibbles c) as (H1 & H2 & H3).
  cbn [hex_encode bytes]. cbv zeta. cbn [bytes hex_bytes].
  rewrite (hex_nibble_value _ _ (proj1 (hex_at_spec _ H1))), (hex_nibble_value _ _ (proj1 (hex_at_spec _ H2))).
  cbn [mbind result_mbind result_bind]. rewrite IH. cbn [mbind result_mbind result_bind]. do 2 f_equal.
  rewrite <- H3 at 3. symmetry. apply TextFacts.byte_of_ascii.
  destruct c as [[] [] [] [] [] [] [] []]; vm_compute; reflexivity.
Qed.

Lemma bookmark_hex_round_trip s : bookmark_hex_decode (bookmark_hex_encode s) = Ok s.
Proof.
  unfold bookmark_hex_decode, bookmark_hex_encode.
  assert ((strlen (hex_encode s) mod 2 =? 0) = true) as ->.
  { unfold strlen. rewrite hex_encode_length, Nat2N.inj_mul, N.mul_comm. apply N.eqb_eq, N.Div0.mod_mul. }
  cbn [negb]. rewrite hex_bytes_encode. cbn. by rewrite of_bytes_bytes.
Qed.

Lemma bookmark_field_round_trip reason s : valid_utf8 s → bookmark_field reason (bookmark_hex_encode s) = Ok s.
Proof. intros H. unfold bookmark_field. rewrite bookmark_hex_round_trip. cbn. by rewrite from_utf8_valid. Qed.

Definition bookmark_wf (b : ClientBookmark) : Prop :=
  scope_wf (ct_scope (bm_target b)) ∧ component_ok (ct_cell_id (bm_target b)) = true ∧ u64_ok (bm_epoch b).

Lemma namespace_ids_ok l ids :
  namespace_ids l = Ok ids ↔ ids = MkNamespaceId <$> l ∧ Forall (λ s, component_ok s = true) l.
Proof.
  revert ids; induction l as [|s l IH]; intros ids; cbn [namespace_ids].
  { split; [by intros [= <-]|by intros [-> _]]. }
  unfold NamespaceId_new, validate_component. rewrite Forall_cons.
  destruct (component_ok s); cbn; [|naive_solver].
  destruct (namespace_ids l) as [ids'|e]; cbn.
  - destruct (proj1 (IH ids') eq_refl) as [-> Hl]. naive_solver.
  - split; [done|]. intros (_ & _ & Hl). enough (Err (A := list NamespaceId) e = Ok (MkNamespaceId <$> l)) by done. by apply IH.
Qed.

Lemma path_display_split p : path_wf p → namespace_ids (split "/"%char (NamespacePath_display p)) = Ok (segments p).
Proof.
  intros (Hne & _ & Hok). unfold NamespacePath_display. rewrite split_join.
  - apply namespace_ids_ok. rewrite <- list_fmap_compose, Forall_fmap. split; [|done].
    clear. induction (segments p) as [|[s] l IH]; [done|]. cbn. by f_equal.
  - by destruct (segments p).
  - rewrite Forall_fmap. eapply Forall_impl; [exact Hok|]. intros n Hn. cbn. by apply component_ok_slash.
Qed.

Lemma path_display_utf8 p : path_wf p → valid_utf8 (NamespacePath_display p).
Proof.
  intros (_ & _ & Hok). unfold NamespacePath_display. apply ascii_valid_utf8.
  induction Hok as [|n l Hn _ IH]; [done|]. cbn [fmap list_fmap join]. destruct l as [|m l].
  - by apply component_ok_ascii.
  - cbn [fmap list_fmap] in *. rewrite str_forall_app. rewrite component_ok_ascii by done. cbn [andb str_forall].
    by rewrite IH.
Qed.

(** A bookmark survives its text, and a text that parses is a bookmark of real
    names: parsing what [encode] writes gives the bookmark back for every target
    with valid names and every 64-bit epoch, and whatever parses has valid names
    and a 64-bit epoch, so that encoding it again gives a text with the same
    meaning. *)
Theorem bookmark_exact :
  (∀ b, bookmark_wf b → bookmark_parse (bookmark_encode b) = Ok b) ∧
  (∀ s b, bookmark_parse s = Ok b → bookmark_wf b ∧ bookmark_parse (bookmark_encode b) = Ok b).
Proof.
  assert (∀ b, bookmark_wf b → bookmark_parse (bookmark_encode b) = Ok b) as Hrt.
  { intros [[[p [g]] cell] epoch] ([Hp Hg] & Hcell & He). cbn in Hp, Hg, Hcell, He.
    unfold bookmark_encode, bookmark_parse. cbn [bm_target ct_scope gs_namespace gs_graph_id gid_str ct_cell_id bm_epoch].
    match goal with |- context [split ":"%char ?t] =>
      replace t with (join ":"%char ["sgk"; "1"; bookmark_hex_encode (NamespacePath_display p);
        bookmark_hex_encode g; bookmark_hex_encode cell; dec epoch]) by reflexivity end.
    rewrite split_join; [|done|].
    2: { repeat constructor; try apply hex_encode_chars. apply digits_free; [done|apply dec_digits]. }
    rewrite !bool_decide_eq_true_2 by done. cbn [negb orb].
    assert (valid_utf8 (NamespacePath_display p))  as Hv by (by apply path_display_utf8).
    rewrite !bookmark_field_round_trip by eauto with hydra. cbn [mbind result_mbind result_bind].
    rewrite parse_dec by done. cbn [map_err mbind result_mbind result_bind].
    rewrite path_display_split by done. cbn [mbind result_mbind result_bind].
    destruct p as [segs]. destruct Hp as (Hne & Hlen & Hok).
    cbn [segments] in *. assert (NamespacePath_new segs = Ok (MkNamespacePath segs)) as -> by (by apply NamespacePath_new_ok). cbn [mbind result_mbind result_bind].
    unfold GraphId_new, ClientQueryTarget_new, validate_component. rewrite Hg. cbn. by rewrite Hcell. }
  split; [done|]. intros s b H. enough (bookmark_wf b) by auto. clear Hrt. revert H.
  unfold bookmark_parse. destruct (split _ s) as [|a1 [|a2 [|a3 [|a4 [|a5 [|a6 [|? ?]]]]]]]; try done.
  destruct (negb _ || negb _); [done|]. intros H. res_inv.
  apply parse_u64_text_ok in Hx2. apply namespace_ids_ok in Hx3 as [-> Hids].
  apply NamespacePath_new_ok in Hx4 as (Hne & Hlen & ->).
  unfold GraphId_new in Hx5. res_inv. apply validate_component_ok' in Hx3.
  unfold ClientQueryTarget_new in Hx6. res_inv. apply validate_component_ok' in Hx4.
  injection Hx5 as <-. unfold bookmark_wf, scope_wf, path_wf. cbn. rewrite Forall_fmap. by split_and!.
Qed.

Lemma bookmark_exact_witness :
  bookmark_encode (MkBookmark example_root 42) = "sgk:1:64656661756c74:64656661756c74:63656c6c2d30:42" ∧
  bookmark_parse (bookmark_encode (MkBookmark example_root 42)) = Ok (MkBookmark example_root 42).
Proof.
  split; [reflexivity|]. apply (proj1 bookmark_exact).
  repeat split; vm_compute; try discriminate; repeat constructor.
Defined.
