(* ===== verification/BoltValues.v ===== *)
(** [client/bolt/values.rs] and the texts of [core/error.rs]: parameters coming in,
    values going out, and errors as a Bolt client sees them. *)

From S2P Require Import Prelude Text Errors Model Namespace QueryData Client ClientNames BoltWire.

Local Open Scope N_scope.

(** * What errors say *)

Section display.
(** The texts of [slatedb::Error] and of [Duration]'s debug format. *)
Context (slate_text : SlateErrorKind → string) (debug_duration : N → string).

(** [{:?}] of an optional number. *)
Definition debug_option (n : option N) : string :=
  match n with Some n => "Some(" +:+ dec n +:+ ")" | None => "None" end.

Definition to_string (e : GraphError) : string :=
  match e with
  | Slate kind => "slatedb error: " +:+ slate_text kind
  | ObjectStore error => "object store error: " +:+ error
  | ConditionalWriteConflict operation key =>
      "conditional graph write conflict for " +:+ operation +:+ " at " +:+ key
  | UnsafeDurabilityConfig operation reason =>
      operation +:+ " requires await_durable_writes=true: " +:+ reason
  | RoutedWriterConfigMismatch path node_id existing requested =>
      "routed writer configuration mismatch for " +:+ path +:+ " on node " +:+ node_id
      +:+ ": existing fence backoff " +:+ debug_duration existing +:+ ", requested " +:+ debug_duration requested
  | InvalidKeyComponent component value => "invalid " +:+ component +:+ " key component: " +:+ value
  | CorruptValue key reason => "corrupt value at " +:+ key +:+ ": " +:+ reason
  | IdempotencyConflict operation key reason =>
      "idempotency key conflict for " +:+ operation +:+ " request key " +:+ key +:+ ": " +:+ reason
  | ControlMetadataConflict key expected actual =>
      "control metadata conflict at " +:+ key +:+ ": expected generation " +:+ debug_option expected
      +:+ ", actual generation " +:+ debug_option actual
  | RetryExhausted operation attempts =>
      operation +:+ " exhausted retry budget after " +:+ dec attempts +:+ " attempts"
  | ControlWatermarkRegression cell_id field requested current =>
      "control watermark regression for " +:+ field +:+ " on cell " +:+ cell_id +:+ ": requested "
      +:+ dec requested +:+ ", current " +:+ dec current
  | SnapshotAhead cell_id read_epoch current_epoch =>
      "snapshot epoch " +:+ dec read_epoch +:+ " is ahead of current epoch " +:+ dec current_epoch
      +:+ " for cell " +:+ cell_id
  | UnknownShard cell_id => "cell " +:+ cell_id +:+ " is not present in the node directory"
  | GraphScopeMismatch expected actual =>
      "graph scope mismatch: expected " +:+ expected +:+ ", received " +:+ actual
  | GraphScopeAccessDenied principal action scope =>
      "principal " +:+ principal +:+ " is not authorized to " +:+ action +:+ " graph scope " +:+ scope
  | WriteRequiresWriter operation cell_id =>
      operation +:+ " requires the fenced SlateDB writer for cell " +:+ cell_id
  | NotCellWriter cell_id owner =>
      "cell " +:+ cell_id +:+ " is not owned by this node; owner: " +:+ default "unknown" owner
  | RoutingUnavailable reason => "routing is unavailable on this node: " +:+ reason
  | ReadOnlyShardStorage => "operation requires writable SlateDB shard storage"
  | CellDropped operation cell_id =>
      "cell " +:+ cell_id +:+ " has been dropped; " +:+ operation +:+ " is rejected"
  | SnapshotExpired cell_id edge_type read_epoch min_epoch =>
      "snapshot epoch " +:+ dec read_epoch +:+ " for cell " +:+ cell_id +:+ " edge " +:+ edge_type
      +:+ " is below compacted watermark " +:+ dec min_epoch
  | SnapshotChanged operation cell_id edge_type read_epoch current_epoch =>
      operation +:+ " snapshot epoch " +:+ dec read_epoch +:+ " for cell " +:+ cell_id +:+ " edge " +:+ edge_type
      +:+ " changed while building; current epoch is " +:+ dec current_epoch
  | QueryStatsSnapshotChanged operation cell_id read_epoch current_epoch =>
      operation +:+ " stats snapshot epoch " +:+ dec read_epoch +:+ " for cell " +:+ cell_id
      +:+ " changed while refreshing; current epoch is " +:+ dec current_epoch
  | AdmissionRejected operation actual limit =>
      operation +:+ " rejected by admission control: actual " +:+ dec actual +:+ " exceeds limit " +:+ dec limit
  | SparseKernel backend reason => "sparse kernel " +:+ backend +:+ " failed: " +:+ reason
  | QueryParse dialect reason => dialect +:+ " parse error: " +:+ reason
  | MissingQueryParameter dialect name => "missing " +:+ dialect +:+ " query parameter $" +:+ name
  | QueryTimeout operation elapsed limit =>
      operation +:+ " exceeded query timeout after " +:+ dec elapsed +:+ " ms; limit is " +:+ dec limit +:+ " ms"
  | UnsupportedQuery dialect feature => dialect +:+ " query is not supported yet: " +:+ feature
  end.
End display.

Module values.
Import client bolt.

(** * Bolt values

    [boltr]'s values, as far as the code names them; a dictionary is a list of
    entries with distinct keys, in the order it is iterated. *)

Record BoltNodeOf (V : Type) := MkBoltNode {
  bn_id : Z; bn_labels : list string; bn_properties : list (string * V); bn_element_id : string }.
Record BoltRelationshipOf (V : Type) := MkBoltRelationship {
  br_id : Z; br_rel_type : string; br_properties : list (string * V); br_element_id : string }.
Record BoltPathOf (V : Type) := MkBoltPath {
  bp_nodes : list (BoltNodeOf V); bp_rels : list (BoltRelationshipOf V); bp_indices : list Z }.
Arguments MkBoltNode {V}. Arguments bn_id {V}. Arguments bn_labels {V}. Arguments bn_properties {V}.
Arguments bn_element_id {V}.
Arguments MkBoltRelationship {V}. Arguments br_id {V}. Arguments br_rel_type {V}.
Arguments br_properties {V}. Arguments br_element_id {V}.
Arguments MkBoltPath {V}. Arguments bp_nodes {V}. Arguments bp_rels {V}. Arguments bp_indices {V}.

Inductive BoltValue : Type :=
  | BNull
  | BBoolean (value : bool)
  | BInteger (value : Z)
  | BFloat (value : QueryFloat)
  | BString (value : string)
  | BList (values : list BoltValue)
  | BDict (entries : list (string * BoltValue))
  | BPath (path : BoltPathOf BoltValue)
  | BOther (variant : N).
Definition BoltDict : Type := list (string * BoltValue).

Fixpoint dict_get (d : BoltDict) (key : string) : option BoltValue :=
  match d with
  | [] => None
  | (k, v) :: d => if bool_decide (k = key) then Some v else dict_get d key
  end.
Definition contains_key (d : BoltDict) (key : string) : bool :=
  match dict_get d key with Some _ => true | None => false end.
(** [as_str] and [as_int]. *)
Definition as_str (v : BoltValue) : option string := match v with BString s => Some s | _ => None end.
Definition as_int (v : BoltValue) : option Z := match v with BInteger z => Some z | _ => None end.

(** [map(..).collect()] into a [Result]: the first error ends it. *)
Section collect.
Context {E A B : Type} (f : A → result E B).
Fixpoint collect (l : list A) : result E (list B) :=
  match l with
  | [] => Ok []
  | a :: l => b ← f a; bs ← collect l; Ok (b :: bs)
  end.
End collect.

(** Collecting entries into a [BTreeMap]; read in key order. *)
Definition btree_collect {V} (entries : list (string * V)) : gmap string V :=
  foldl (λ m p, <[p.1 := p.2]> m) ∅ entries.

(** * Parameters *)

Definition MAX_QUERY_PARAMETER_DEPTH : nat := 16.

(** [f64::is_finite] on the bit pattern. *)
Definition is_finite (f : QueryFloat) : bool := negb (N.land (N.shiftr (qf_bits f) 52) 0x7ff =? 0x7ff).

Definition type_error (message : string) : BoltError := Query "Neo.ClientError.Statement.TypeError" message.
Definition invalid_bolt_parameter (name reason : string) : BoltError :=
  type_error ("invalid parameter $" +:+ name +:+ ": " +:+ reason).

Definition bolt_parameter_to_property (name : string) (value : BoltValue) : BoltResult VertexPropertyValue :=
  match value with
  | BBoolean value => Ok (PBool value)
  | BInteger value => Ok (from_i64 value)
  | BFloat value =>
      if is_finite value then Ok (Float value) else Err (invalid_bolt_parameter name "float must be finite")
  | BString value => Ok (PString value)
  | _ => Err (invalid_bolt_parameter name
                "only boolean, signed integer, finite float, and string parameters are supported")
  end.

Fixpoint bolt_parameter_to_query_value_at_depth (name : string) (value : BoltValue) (depth : nat) :
  BoltResult QueryParameterValue :=
  if (MAX_QUERY_PARAMETER_DEPTH <? depth)%nat
  then Err (invalid_bolt_parameter name "nested parameter depth exceeds 16")
  else match value with
    | BList values =>
        values ← collect (λ value, bolt_parameter_to_query_value_at_depth name value (S depth)) values;
        Ok (PList values)
    | BDict values =>
        entries ← collect (λ p, match p with (key, value) =>
          value ← bolt_parameter_to_query_value_at_depth name value (S depth); Ok (key, value) end) values;
        Ok (PMap (btree_iter (btree_collect entries)))
    | _ => value ← bolt_parameter_to_property name value; Ok (PScalar value)
    end.
Definition bolt_parameter_to_query_value (name : string) (value : BoltValue) : BoltResult QueryParameterValue :=
  bolt_parameter_to_query_value_at_depth name value 0.

(** * Results *)

Definition bolt_integer_overflow (value : N) : BoltError :=
  type_error ("value " +:+ dec value +:+ " exceeds Bolt's signed 64-bit integer range").
(** [i64::try_from] of a [u64]. *)
Definition i64_try_from (value : N) : BoltResult Z :=
  if (Z.of_N value <=? i64_max)%Z then Ok (Z.of_N value) else Err (bolt_integer_overflow value).

Definition property_value_to_bolt (value : VertexPropertyValue) : BoltResult BoltValue :=
  match value with
  | Integer value => z ← i64_try_from value; Ok (BInteger z)
  | SignedInteger value => Ok (BInteger value)
  | PBool value => Ok (BBoolean value)
  | Float value => Ok (BFloat value)
  | PString value => Ok (BString value)
  end.
Definition property_map_to_bolt (properties : gmap string VertexPropertyValue) : BoltResult BoltDict :=
  collect (λ p, value ← property_value_to_bolt p.2; Ok (p.1, value)) (btree_iter properties).

Definition i64_saturating_sub (a b : Z) : Z := Z.max i64_min (Z.min i64_max (a - b)).

(** [-1_i64.saturating_sub(index as i64)]: a method call binds tighter than the
    minus sign before the literal. *)
Definition structural_relationship_id (index : nat) : Z := (- i64_saturating_sub 1 (Z.of_nat index))%Z.

Definition path_node_to_bolt (node : QueryPathNode) : BoltResult (BoltNodeOf BoltValue) :=
  id ← i64_try_from (pn_id node);
  properties ← property_map_to_bolt (pn_properties node);
  Ok (MkBoltNode id (pn_labels node) properties (dec (pn_id node))).

Definition path_relationship_to_bolt (p : nat * QueryPathRelationship) : BoltResult (BoltRelationshipOf BoltValue) :=
  let '(index, relationship) := p in
  id ← match pr_id relationship with
       | Some id => i64_try_from id
       | None => Ok (structural_relationship_id index)
       end;
  properties ← property_map_to_bolt (pr_properties relationship);
  Ok (MkBoltRelationship id (pr_edge_type relationship) properties
        (match pr_id relationship with
         | None => "structural:" +:+ pr_edge_type relationship +:+ ":" +:+ dec (pr_src relationship) +:+ ":"
                   +:+ dec (pr_dst relationship)
         | Some id => dec id
         end)).

(** The loop over the relationships; [nodes[index]] is in range by the check of the
    counts. *)
Definition path_step_indices (nodes : list QueryPathNode) (p : nat * QueryPathRelationship) : BoltResult (list Z) :=
  let '(index, relationship) := p in
  match nodes !! index, nodes !! S index with
  | Some from, Some to =>
      let from := pn_id from in
      let to := pn_id to in
      let position := Z.of_nat (index + 1) in
      if (i64_max <? position)%Z then Err (Backend "native path contains too many relationships for Bolt")
      else if (pr_src relationship =? from) && (pr_dst relationship =? to) then Ok [position; position]
      else if (pr_src relationship =? to) && (pr_dst relationship =? from) then Ok [(- position)%Z; position]
      else Err (Backend "native path relationship does not connect adjacent nodes")
  | _, _ => Err (Backend "index out of bounds")
  end.

(** [iter().enumerate()]. *)
Definition enumerate {A} (l : list A) : list (nat * A) := zip (seq 0 (length l)) l.

Definition query_path_to_bolt (path : QueryPath) : BoltResult (BoltPathOf BoltValue) :=
  if negb (length (p_nodes path) =? length (p_relationships path) + 1)%nat
  then Err (Backend "native path node and relationship counts are inconsistent")
  else
    nodes ← collect path_node_to_bolt (p_nodes path);
    relationships ← collect path_relationship_to_bolt (enumerate (p_relationships path));
    indices ← collect (path_step_indices (p_nodes path)) (enumerate (p_relationships path));
    Ok (MkBoltPath nodes relationships (mjoin indices)).

Fixpoint query_value_to_bolt (value : QueryValue) : BoltResult BoltValue :=
  match value with
  | QNull => Ok BNull
  | QVertexId value | QCount value => z ← i64_try_from value; Ok (BInteger z)
  | QBool value => Ok (BBoolean value)
  | QFloat value => Ok (BFloat value)
  | QProperty value => property_value_to_bolt value
  | QList values => values ← collect query_value_to_bolt values; Ok (BList values)
  | QPath path => path ← query_path_to_bolt path; Ok (BPath path)
  end.

(** * Errors *)

Definition explicit_transactions_unsupported : BoltError :=
  Transaction "explicit transactions are not supported; use auto-commit RUN queries".

Section errors.
Context (slate_text : SlateErrorKind → string) (debug_duration : N → string).

Definition graph_error_to_bolt (error : GraphError) : BoltError :=
  let text := to_string slate_text debug_duration error in
  match error with
  | GraphScopeAccessDenied _ _ _ => Forbidden text
  | AdmissionRejected _ _ _ => ResourceExhausted text
  | SnapshotAhead _ _ _ => Query "Neo.TransientError.Transaction.BookmarkTimeout" text
  | InvalidKeyComponent _ _ | MissingQueryParameter _ _ | QueryParse _ _ | UnsupportedQuery _ _ =>
      Query "Neo.ClientError.Statement.InvalidSyntax" text
  | QueryTimeout _ _ _ => Query "Neo.TransientError.Transaction.Terminated" text
  | IdempotencyConflict _ _ _ => Query "Neo.ClientError.Transaction.Invalid" text
  | NotCellWriter _ _ => Query "Neo.ClientError.Cluster.NotALeader" text
  | RoutingUnavailable _ => Query "Neo.TransientError.General.DatabaseUnavailable" text
  | _ => Backend "internal query execution error"
  end.

(** * Bookmarks of a request *)

Fixpoint highest_of (target : ClientQueryTarget) (highest : option ClientBookmark) (bookmarks : list string) :
  BoltResult (option ClientBookmark) :=
  match bookmarks with
  | [] => Ok highest
  | bookmark :: bookmarks =>
      bookmark ← map_err graph_error_to_bolt (names.bookmark_parse bookmark);
      if negb (bool_decide (bm_target bookmark = target)) then
        Err (Query "Neo.ClientError.Transaction.InvalidBookmark" "bookmark belongs to another graph scope or cell")
      else
        let higher := match highest with
          | None => true | Some current => bm_epoch current <? bm_epoch bookmark end in
        highest_of target (if higher then Some bookmark else highest) bookmarks
  end.
Definition highest_matching_bookmark (target : ClientQueryTarget) (bookmarks : list string) :
  BoltResult (option ClientBookmark) := highest_of target None bookmarks.
End errors.
End values.
