(* ===== verification/BoltValuesFacts.v ===== *)
(** Values on the wire ([BoltValues]): paths keep their walk, parameters are
    accepted exactly when they are shallow and plain, and what the ids of
    structural relationships are. *)

From S2P Require Import Prelude Text Errors Model QueryData Client ClientNames BoltWire BoltValues.

Local Open Scope N_scope.

Import client bolt values.

Definition accepted {E A} (r : result E A) : bool := match r with Ok _ => true | Err _ => false end.

(** * Collecting *)

Section collect.
Context {E A B : Type} (f : A → result E B).

Lemma collect_ok l bs : collect f l = Ok bs ↔ Forall2 (λ a b, f a = Ok b) l bs.
Proof.
  revert bs; induction l as [|a l IH]; intros bs; cbn.
  - split; [intros [= <-]; constructor|by inversion 1].
  - destruct (f a) as [b|e] eqn:Ef; cbn.
    + destruct (collect f l) as [bs'|e'] eqn:Ec; cbn.
      * split; [intros [= <-]; constructor; [done|by apply IH]|].
        inversion 1 as [|? b2 ? bs2 H1 H2]; subst. apply IH in H2. congruence.
      * split; [done|]. inversion 1 as [|? b2 ? bs2 H1 H2]; subst. by apply IH in H2.
    + split; [done|]. inversion 1; congruence.
Qed.

Lemma collect_total l : accepted (collect f l) = forallb (λ a, accepted (f a)) l.
Proof. induction l as [|a l IH]; cbn; [done|]. destruct (f a); cbn; [|done]. rewrite <- IH. by destruct (collect f l). Qed.
End collect.

(** * Paths *)

(** A path the kernel may return: every relationship joins the nodes around it. *)
Definition joins (nodes : list QueryPathNode) (p : nat * QueryPathRelationship) : Prop :=
  ∃ from to, nodes !! p.1 = Some from ∧ nodes !! S p.1 = Some to ∧
    ((pr_src p.2 = pn_id from ∧ pr_dst p.2 = pn_id to) ∨ (pr_src p.2 = pn_id to ∧ pr_dst p.2 = pn_id from)).

Definition property_fits (v : VertexPropertyValue) : Prop :=
  match v with Integer n => (Z.of_N n ≤ i64_max)%Z | _ => True end.
Definition node_fits (n : QueryPathNode) : Prop :=
  (Z.of_N (pn_id n) ≤ i64_max)%Z ∧ map_Forall (λ _, property_fits) (pn_properties n).
Definition relationship_fits (r : QueryPathRelationship) : Prop :=
  from_option (λ id, (Z.of_N id ≤ i64_max)%Z) True (pr_id r) ∧ map_Forall (λ _, property_fits) (pr_properties r).

Lemma i64_accepted n : accepted (i64_try_from n) = true ↔ (Z.of_N n ≤ i64_max)%Z.
Proof. unfold i64_try_from. destruct (Z.leb_spec (Z.of_N n) i64_max); cbn; split; try done; lia. Qed.
Lemma property_accepted v : accepted (property_value_to_bolt v) = true ↔ property_fits v.
Proof. destruct v; cbn; try done. rewrite <- i64_accepted. by destruct (i64_try_from _). Qed.
Lemma accepted_bind {E A B} (r : result E A) (f : A → result E B) :
  accepted (r ≫= f) = true ↔ ∃ a, r = Ok a ∧ accepted (f a) = true.
Proof. destruct r; cbn; split; [by eexists|by intros (? & [= ->] & ?)|done|by intros (? & ? & ?)]. Qed.
Lemma accepted_ok {E A} (r : result E A) : accepted r = true ↔ ∃ a, r = Ok a.
Proof. destruct r; cbn; split; [by eexists|done|done|by intros [? ?]]. Qed.

Lemma forallb_Forall {A} (f : A → bool) (P : A → Prop) l :
  (∀ a, a ∈ l → f a = true ↔ P a) → forallb f l = true ↔ Forall P l.
Proof.
  intros Hf. induction l as [|a l IH]; cbn; [by split|].
  rewrite andb_true_iff, Forall_cons, Hf, IH by (by left || (intros; apply Hf; by right)). done.
Qed.

Lemma property_map_accepted m : accepted (property_map_to_bolt m) = true ↔ map_Forall (λ _, property_fits) m.
Proof.
  unfold property_map_to_bolt, BoltDict. rewrite collect_total. rewrite (forallb_Forall _ (λ p, property_fits p.2)).
  - rewrite Forall_forall, map_Forall_lookup. split.
    + intros Hm k v Hkv. apply (Hm (k, v)). by apply elem_of_btree_iter.
    + intros Hm [k v] Hkv. apply elem_of_btree_iter in Hkv. by eapply Hm.
  - intros [k v] _. cbn. rewrite <- property_accepted. by destruct (property_value_to_bolt v).
Qed.

Lemma node_accepted n : accepted (path_node_to_bolt n) = true ↔ node_fits n.
Proof.
  unfold path_node_to_bolt, node_fits. rewrite <- i64_accepted, <- property_map_accepted.
  destruct (i64_try_from _), (property_map_to_bolt _); cbn; tauto || (split; [done|by intros [? ?]]).
Qed.
Lemma relationship_accepted p : accepted (path_relationship_to_bolt p) = true ↔ relationship_fits p.2.
Proof.
  destruct p as [k r]. unfold path_relationship_to_bolt, relationship_fits. cbn [snd].
  rewrite <- property_map_accepted. destruct (pr_id r) as [id|]; cbn [from_option].
  - rewrite <- i64_accepted. destruct (i64_try_from id), (property_map_to_bolt _); cbn; tauto || (split; [done|by intros [? ?]]).
  - destruct (property_map_to_bolt _); cbn; tauto || (split; [done|by intros [? ?]]).
Qed.
Lemma step_accepted nodes p :
  accepted (path_step_indices nodes p) = true ↔ joins nodes p ∧ (Z.of_nat (S p.1) ≤ i64_max)%Z.
Proof.
  destruct p as [k r]. unfold path_step_indices, joins. cbn [fst snd].
  destruct (nodes !! k) as [from|]; [|split; [done|by intros [(?&?&?&_) _]]].
  destruct (nodes !! S k) as [to|]; [|split; [done|by intros [(?&?&_&?&_) _]]].
  destruct (Z.ltb_spec i64_max (Z.of_nat (k + 1))); [split; [done|intros [_ ?]; lia]|].
  destruct (N.eqb_spec (pr_src r) (pn_id from)), (N.eqb_spec (pr_dst r) (pn_id to)),
    (N.eqb_spec (pr_src r) (pn_id to)), (N.eqb_spec (pr_dst r) (pn_id from)); cbn; split;
    try (intros _; split; [|lia]; exists from, to; by eauto); try done;
    intros [(f & t & [= <-] & [= <-] & [[]|[]]) _]; congruence.
Qed.

(** How a driver reads a path back: from the first node, every pair of indices is a
    relationship, against its direction when negative, and the node it leads to. *)
Fixpoint hydrate {V} (b : BoltPathOf V) (here : BoltNodeOf V) (indices : list Z) : option (list (string * Z * Z * Z)) :=
  match indices with
  | [] => Some []
  | r :: n :: indices =>
      relationship ← bp_rels b !! pred (Z.to_nat (Z.abs r));
      next ← bp_nodes b !! Z.to_nat n;
      let '(src, dst) := if (r <? 0)%Z then (next, here) else (here, next) in
      rest ← hydrate b next indices;
      Some ((br_rel_type relationship, bn_id src, bn_id dst, bn_id next) :: rest)
  | _ => None
  end.
Definition hydrate_path {V} (b : BoltPathOf V) : option (Z * list (string * Z * Z * Z)) :=
  first ← bp_nodes b !! 0%nat;
  steps ← hydrate b first (bp_indices b);
  Some (bn_id first, steps).

(** The walk of a path: the relationships with the nodes they lead to. *)
Definition walk (path : QueryPath) : list (string * Z * Z * Z) :=
  zip_with (λ r n, (pr_edge_type r, Z.of_N (pr_src r), Z.of_N (pr_dst r), Z.of_N (pn_id n)))
    (p_relationships path) (tail (p_nodes path)).

Definition path_fits (path : QueryPath) : Prop :=
  length (p_nodes path) = S (length (p_relationships path)) ∧ Forall node_fits (p_nodes path) ∧
  Forall (λ p, relationship_fits p.2 ∧ joins (p_nodes path) p ∧ (Z.of_nat (S p.1) ≤ i64_max)%Z) (enumerate (p_relationships path)).

Lemma path_accepted path : accepted (query_path_to_bolt path) = true ↔ path_fits path.
Proof.
  unfold query_path_to_bolt, path_fits. rewrite Nat.add_1_r.
  destruct (Nat.eqb_spec (length (p_nodes path)) (S (length (p_relationships path)))); cbn [negb]; [|split; [done|tauto]].
  rewrite accepted_bind.
  assert (∀ {E A B} (f : A → result E B) (P : A → Prop) l, (∀ a, accepted (f a) = true ↔ P a) →
    (∃ bs, collect f l = Ok bs) ↔ Forall P l) as Hall.
  { intros E A B f P l Hf. rewrite <- accepted_ok, collect_total. by apply forallb_Forall. }
  pose proof (Hall _ _ _ _ _ (p_nodes path) node_accepted) as Hn.
  pose proof (Hall _ _ _ _ _ (enumerate (p_relationships path)) relationship_accepted) as Hr.
  pose proof (Hall _ _ _ _ _ (enumerate (p_relationships path)) (step_accepted (p_nodes path))) as Hs.
  rewrite Forall_and, <- Hr, <- Hs, <- Hn. split.
  - intros (ns & Hns & Hb). apply accepted_bind in Hb as (rs & Hrs & Hb). apply accepted_bind in Hb as (ss & Hss & _).
    split_and!; eauto.
  - intros (_ & [ns Hns] & [rs Hrs] & [ss Hss]). exists ns. split; [done|]. by rewrite Hrs; cbn; rewrite Hss.
Qed.

Lemma enumerate_lookup {A} (l : list A) k : enumerate l !! k = (k,.) <$> l !! k.
Proof.
  unfold enumerate. destruct (l !! k) as [a|] eqn:E; cbn.
  - apply lookup_zip_with_Some. exists k, a. split; [done|]. split; [|done].
    apply lookup_seq. split; [done|]. by eapply lookup_lt_Some.
  - apply lookup_zip_with_None. right. done.
Qed.

Lemma path_parts path b :
  query_path_to_bolt path = Ok b →
  Forall2 (λ n m, path_node_to_bolt n = Ok m) (p_nodes path) (bp_nodes b) ∧
  Forall2 (λ p r, path_relationship_to_bolt p = Ok r) (enumerate (p_relationships path)) (bp_rels b) ∧
  ∃ steps, Forall2 (λ p l, path_step_indices (p_nodes path) p = Ok l) (enumerate (p_relationships path)) steps ∧
    bp_indices b = mjoin steps.
Proof.
  unfold query_path_to_bolt. destruct (negb _); [done|].
  destruct (collect path_node_to_bolt _) as [ns|] eqn:Hn; [|done].
  destruct (collect path_relationship_to_bolt _) as [rs|] eqn:Hr; [|done].
  destruct (collect (path_step_indices _) _) as [ss|] eqn:Hs; [|done].
  intros [= <-]. apply collect_ok in Hn, Hr, Hs. eauto.
Qed.

Lemma node_id n m : path_node_to_bolt n = Ok m → bn_id m = Z.of_N (pn_id n).
Proof.
  unfold path_node_to_bolt, i64_try_from. destruct (_ <=? _)%Z; [|done]. cbn.
  destruct (property_map_to_bolt _); [|done]. by intros [= <-].
Qed.
Lemma relationship_type p r : path_relationship_to_bolt p = Ok r →
  br_rel_type r = pr_edge_type p.2 ∧ (pr_id p.2 = None → br_id r = structural_relationship_id p.1) ∧
  (∀ id, pr_id p.2 = Some id → br_id r = Z.of_N id).
Proof.
  destruct p as [k x]. unfold path_relationship_to_bolt. cbn [fst snd].
  destruct (pr_id x) as [id|]; unfold i64_try_from; [destruct (_ <=? _)%Z; [|done]|]; cbn;
    (destruct (property_map_to_bolt _); [|done]); intros [= <-]; split_and!; naive_solver.
Qed.

(** The walk from the [k]th node on. *)
Lemma hydrate_from path b k steps here :
  query_path_to_bolt path = Ok b → bp_nodes b !! k = Some here →
  Forall2 (λ p l, path_step_indices (p_nodes path) p = Ok l) (drop k (enumerate (p_relationships path))) steps →
  hydrate b here (mjoin steps) = Some (drop k (walk path)).
Proof.
  intros Hb. apply path_parts in Hb as (Hn & Hr & _). revert k here; induction steps as [|l steps IH]; intros k here Hk Hs.
  - apply Forall2_nil_inv_r in Hs. cbn. f_equal. symmetry. apply drop_ge.
    apply (f_equal length) in Hs. rewrite length_drop in Hs. unfold enumerate in Hs.
    rewrite length_zip_with, length_seq, Nat.min_id in Hs. unfold walk. rewrite length_zip_with. cbn in Hs. lia.
  - destruct (drop k (enumerate (p_relationships path))) as [|[j r] rest] eqn:Hd; [by apply Forall2_nil_cons_inv in Hs|].
    apply Forall2_cons in Hs as [Hl Hs].
    assert (enumerate (p_relationships path) !! k = Some (j, r)) as Hkr by (rewrite <- (Nat.add_0_r k), <- lookup_drop, Hd; done).
    assert (rest = drop (S k) (enumerate (p_relationships path))) as ->
      by (rewrite (drop_S _ _ _ Hkr) in Hd; by injection Hd).
    rewrite enumerate_lookup in Hkr. apply fmap_Some in Hkr as (r0 & Hkr & [= -> <-]).
    destruct (Forall2_lookup_r _ _ _ _ _ Hn Hk) as (from & Hfrom & Hfid).
    apply node_id in Hfid.
    unfold path_step_indices in Hl. rewrite Hfrom in Hl.
    destruct (p_nodes path !! S k) as [to|] eqn:Hto; [|done].
    destruct (Forall2_lookup_l _ _ _ _ _ Hn Hto) as (next & Hnext & Htid). apply node_id in Htid.
    destruct (Forall2_lookup_l _ _ _ k (k, r) Hr) as (br & Hbr & Hty); [by rewrite enumerate_lookup, Hkr|].
    apply relationship_type in Hty as [Hty _]. cbn [snd] in Hty.
    assert (drop k (walk path) = (pr_edge_type r, Z.of_N (pr_src r), Z.of_N (pr_dst r), Z.of_N (pn_id to)) :: drop (S k) (walk path)) as ->.
    { apply drop_S. unfold walk. apply lookup_zip_with_Some. exists r, to. rewrite lookup_tail. done. }
    specialize (IH (S k) next Hnext Hs).
    destruct (_ <? _)%Z; [done|].
    destruct ((pr_src r =? pn_id from) && (pr_dst r =? pn_id to)) eqn:E1;
      [|destruct ((pr_src r =? pn_id to) && (pr_dst r =? pn_id from)) eqn:E2; [|done]];
      injection Hl as <-;
      lazymatch goal with |- context [mjoin ([?x; ?y] :: steps)] => change (mjoin ([x; y] :: steps)) with (x :: y :: mjoin steps) end;
      cbn [hydrate].
    + apply andb_true_iff in E1 as [->%N.eqb_eq ->%N.eqb_eq].
      replace (pred (Z.to_nat (Z.abs (Z.of_nat (k + 1))))) with k by lia.
      replace (Z.to_nat (Z.of_nat (k + 1))) with (S k) by lia. rewrite Hbr, Hnext. cbn [mbind option_bind].
      destruct (Z.ltb_spec (Z.of_nat (k + 1)) 0); [lia|]. cbn zeta. rewrite IH. cbn [mbind option_bind]. congruence.
    + apply andb_true_iff in E2 as [->%N.eqb_eq ->%N.eqb_eq].
      replace (pred (Z.to_nat (Z.abs (- Z.of_nat (k + 1))))) with k by lia.
      replace (Z.to_nat (Z.of_nat (k + 1))) with (S k) by lia. rewrite Hbr, Hnext. cbn [mbind option_bind].
      destruct (Z.ltb_spec (- Z.of_nat (k + 1)) 0); [|lia]. cbn zeta. rewrite IH. cbn [mbind option_bind]. congruence.
Qed.

(** C38: a path goes over the wire exactly when it is one (every relationship joins
    the nodes before and after it, in either direction, and every number fits a
    signed 64-bit integer), and a driver that follows Bolt's signed indices reads
    the very walk back: each relationship with its own direction, and each node it
    leads to. *)
Theorem path_exact path :
  (accepted (query_path_to_bolt path) = true ↔ path_fits path) ∧
  ∀ b, query_path_to_bolt path = Ok b →
    hydrate_path b = (λ n, (Z.of_N (pn_id n), walk path)) <$> p_nodes path !! 0%nat.
Proof.
  split; [apply path_accepted|]. intros b Hb. pose proof (path_parts _ _ Hb) as (Hn & _ & steps & Hs & Hi).
  assert (path_fits path) as (Hlen & _) by (by apply path_accepted; rewrite Hb).
  destruct (p_nodes path !! 0%nat) as [n|] eqn:Hn0; [|by apply lookup_ge_None in Hn0; lia].
  destruct (Forall2_lookup_l _ _ _ _ _ Hn Hn0) as (first & Hfirst & Hid).
  unfold hydrate_path. rewrite Hfirst, Hi. cbn [mbind option_bind].
  rewrite (hydrate_from path b 0 steps first Hb Hfirst); [|by rewrite drop_0].
  cbn. by rewrite (node_id _ _ Hid).
Qed.

(** C40: the ids of structural relationships (those without a stored id) are not the
    negative numbers -1, -2, ... : the minus sign applies to the result of the
    saturating subtraction, so that the [k]th relationship of a path gets [k] - 1,
    and a path of a stored and a structural relationship can give both one id. *)
Theorem structural_ids_collide :
  (∀ path b k r, query_path_to_bolt path = Ok b → p_relationships path !! k = Some r → pr_id r = None →
     br_id <$> bp_rels b !! k = Some (Z.of_nat k - 1)%Z) ∧
  ∃ path b r1 r2, query_path_to_bolt path = Ok b ∧ bp_rels b = [r1; r2] ∧
    br_id r1 = br_id r2 ∧ br_element_id r1 ≠ br_element_id r2 ∧ (0 ≤ br_id r2)%Z.
Proof.
  split.
  - intros path b k r Hb Hk Hid. pose proof (path_parts _ _ Hb) as (_ & Hr & _).
    destruct (Forall2_lookup_l _ _ _ k (k, r) Hr) as (br & Hbr & Hty); [by rewrite enumerate_lookup, Hk|].
    apply relationship_type in Hty as (_ & Hs & _). rewrite Hbr. cbn. rewrite Hs by done. cbn.
    assert (path_fits path) as (_ & _ & Hall) by (by apply path_accepted; rewrite Hb).
    rewrite Forall_lookup in Hall. destruct (Hall k (k, r)) as (_ & _ & Hmax); [by rewrite enumerate_lookup, Hk|].
    cbn in Hmax. unfold structural_relationship_id, i64_saturating_sub, i64_min, i64_max in *. f_equal. lia.
  - exists (MkPath [MkPathNode 1 [] ∅; MkPathNode 2 [] ∅; MkPathNode 3 [] ∅]
             [MkPathRelationship (Some 0) "KNOWS" 1 2 ∅; MkPathRelationship None "LIKES" 2 3 ∅]).
    do 3 eexists. split; [vm_compute; reflexivity|]. split; [reflexivity|]. by split_and!.
Qed.

(** * Parameters *)

(** Induction over lists and dictionaries. *)
Section value_ind.
Context (P : BoltValue → Prop).
Context (Hscalar : ∀ v, match v with BList _ | BDict _ => False | _ => True end → P v).
Context (Hlist : ∀ vs, Forall P vs → P (BList vs)) (Hdict : ∀ d, Forall (λ p, P p.2) d → P (BDict d)).

Fixpoint bolt_value_nested_ind (v : BoltValue) : P v :=
  match v with
  | BList vs => Hlist vs ((fix go vs := match vs return Forall P vs with
      | [] => Forall_nil_2 _ | v :: vs => Forall_cons_2 _ _ _ (bolt_value_nested_ind v) (go vs) end) vs)
  | BDict d => Hdict d ((fix go (d : BoltDict) := match d return Forall (λ p, P p.2) d with
      | [] => Forall_nil_2 _
      | p :: d => Forall_cons_2 (λ p, P p.2) _ _ (match p return P p.2 with (k, v) => bolt_value_nested_ind v end) (go d) end) d)
  | v => Hscalar v I
  end.
End value_ind.

(** How deep a value goes, and whether all its leaves are scalars a query knows. *)
Fixpoint nesting (v : BoltValue) : nat :=
  match v with
  | BList vs => foldr (λ v n, Nat.max (S (nesting v)) n) 0%nat vs
  | BDict d => foldr (λ p n, Nat.max (S (nesting p.2)) n) 0%nat d
  | _ => 0%nat
  end.
Fixpoint plain (v : BoltValue) : bool :=
  match v with
  | BBoolean _ | BInteger _ | BString _ => true
  | BFloat f => is_finite f
  | BList vs => forallb plain vs
  | BDict d => forallb (λ p, plain p.2) d
  | _ => false
  end.

(** One level of nesting over elements [a] with leaves [leaf a] and height [high a]. *)
Lemma accepted_level {A} (leaf : A → bool) (high : A → nat) (f : A → bool) depth (l : list A) :
  (depth ≤ MAX_QUERY_PARAMETER_DEPTH)%nat →
  Forall (λ a, f a = leaf a && (S depth + high a <=? MAX_QUERY_PARAMETER_DEPTH)%nat) l →
  forallb f l = forallb leaf l &&
    (depth + foldr (λ a n, Nat.max (S (high a)) n) 0%nat l <=? MAX_QUERY_PARAMETER_DEPTH)%nat.
Proof.
  intros Hd. induction 1 as [|a l Ha _ IH]; cbn [forallb foldr].
  - symmetry. apply Nat.leb_le. lia.
  - rewrite Ha, IH. destruct (leaf a), (forallb leaf l); cbn [andb]; rewrite ?andb_false_r; try done.
    generalize (foldr (λ a n, Nat.max (S (high a)) n) 0%nat l). intros n.
    apply Bool.eq_iff_eq_true. rewrite andb_true_iff, !Nat.leb_le. lia.
Qed.

Lemma accepted_depth name v depth :
  accepted (bolt_parameter_to_query_value_at_depth name v depth) = plain v && (depth + nesting v <=? MAX_QUERY_PARAMETER_DEPTH)%nat.
Proof.
  revert depth; induction v as [v Hv|vs IH|d IH] using bolt_value_nested_ind; intros depth.
  - destruct v; try done; cbn [bolt_parameter_to_query_value_at_depth nesting plain];
      rewrite Nat.add_0_r; destruct (Nat.ltb_spec MAX_QUERY_PARAMETER_DEPTH depth), (Nat.leb_spec depth MAX_QUERY_PARAMETER_DEPTH);
      try lia; rewrite ?andb_false_r, ?andb_true_r; try done; cbn. by destruct (is_finite value).
  - cbn [bolt_parameter_to_query_value_at_depth nesting plain].
    destruct (Nat.ltb_spec MAX_QUERY_PARAMETER_DEPTH depth) as [Hd|Hd].
    { rewrite (proj2 (Nat.leb_gt _ _)) by lia. by rewrite andb_false_r. }
    rewrite <- (accepted_level plain nesting (λ v, accepted (bolt_parameter_to_query_value_at_depth name v (S depth)))) by
      (done || (eapply Forall_impl; [exact IH|]; intros v Hv; exact (Hv (S depth)))).
    rewrite <- collect_total. by destruct (collect _ vs).
  - cbn [bolt_parameter_to_query_value_at_depth nesting plain].
    destruct (Nat.ltb_spec MAX_QUERY_PARAMETER_DEPTH depth) as [Hd|Hd].
    { rewrite (proj2 (Nat.leb_gt _ _)) by lia. by rewrite andb_false_r. }
    set (f := (λ p, match p with (key, value) =>
       value ← bolt_parameter_to_query_value_at_depth name value (S depth); Ok (key, value) end)
       : string * BoltValue → BoltResult (string * QueryParameterValue)).
    assert (Forall (λ p, accepted (f p) = plain p.2 && (S depth + nesting p.2 <=? MAX_QUERY_PARAMETER_DEPTH)%nat) d) as Hall.
    { eapply Forall_impl; [exact IH|]. intros [k v] Hv. cbn [snd] in Hv |- *. rewrite <- Hv.
      unfold f. by destruct (bolt_parameter_to_query_value_at_depth _ _ _). }
    pose proof (accepted_level (λ p, plain p.2) (λ p, nesting p.2) (λ p, accepted (f p)) depth d Hd Hall) as Hl.
    rewrite <- collect_total in Hl. lazymatch goal with |- context [collect ?g d] => change g with f end.
    revert Hl. by destruct (collect f d).
Qed.

Lemma refused {A} name reason e :
  @Err _ A (invalid_bolt_parameter name reason) = Err e → ∃ reason, e = invalid_bolt_parameter name reason.
Proof. intros He. exists reason. revert He. generalize (invalid_bolt_parameter name reason). by intros ? [= ->]. Qed.
Lemma property_error name v e : bolt_parameter_to_property name v = Err e → ∃ reason, e = invalid_bolt_parameter name reason.
Proof.
  destruct v; cbn [bolt_parameter_to_property]; try discriminate; try exact (refused name _ _).
  destruct (is_finite value); [discriminate|]. exact (refused name _ _).
Qed.

Lemma parameter_error name v depth e :
  bolt_parameter_to_query_value_at_depth name v depth = Err e → ∃ reason, e = invalid_bolt_parameter name reason.
Proof.
  assert (∀ A B (f : A → BoltResult B) l e, Forall (λ a, ∀ e, f a = Err e → ∃ reason, e = invalid_bolt_parameter name reason) l →
    collect f l = Err e → ∃ reason, e = invalid_bolt_parameter name reason) as Hall.
  { intros A B f l e0. induction 1 as [|a l Ha _ IH]; cbn; [done|].
    destruct (f a) as [b|e1]; cbn; [destruct (collect f l); cbn; [done|intros [= <-]; by apply IH]|].
    intros [= <-]. by apply Ha. }
  revert depth e; induction v as [v Hv|vs IH|d IH] using bolt_value_nested_ind; intros depth e.
  - assert (bolt_parameter_to_query_value_at_depth name v depth = if (MAX_QUERY_PARAMETER_DEPTH <? depth)%nat
      then Err (invalid_bolt_parameter name "nested parameter depth exceeds 16")
      else value ← bolt_parameter_to_property name v; Ok (PScalar value)) as -> by (destruct v; reflexivity || destruct Hv).
    destruct (Nat.ltb _ _); [exact (refused name _ _)|].
    destruct (bolt_parameter_to_property name v) as [|e'] eqn:Ep; [discriminate|].
    intros [= <-]. by apply property_error in Ep.
  - cbn [bolt_parameter_to_query_value_at_depth]. destruct (Nat.ltb _ _); [exact (refused name _ _)|]. destruct (collect _ vs) as [|e'] eqn:Ec; [discriminate|].
    intros [= <-]. eapply Hall; [|exact Ec]. eapply Forall_impl; [exact IH|]. intros v Hv e1. exact (Hv (S depth) e1).
  - cbn [bolt_parameter_to_query_value_at_depth]. destruct (Nat.ltb _ _); [exact (refused name _ _)|]. destruct (collect _ d) as [|e'] eqn:Ec; [discriminate|].
    intros [= <-]. eapply Hall; [|exact Ec]. eapply Forall_impl; [exact IH|]. intros [k v] Hv e1. cbn [snd] in Hv.
    destruct (bolt_parameter_to_query_value_at_depth _ _ _) eqn:E; cbn; [done|]. intros [= <-]. exact (Hv (S depth) _ E).
Qed.

(** A parameter is accepted exactly when its leaves are booleans, integers,
    finite floats and strings and it is nested no deeper than 16 levels, so that the
    conversion's recursion is bounded whatever a client sends; what is refused is a
    type error that names the parameter. *)
Theorem parameter_exact name v :
  accepted (bolt_parameter_to_query_value name v) = plain v && (nesting v <=? 16)%nat ∧
  ∀ e, bolt_parameter_to_query_value name v = Err e → ∃ reason, e = invalid_bolt_parameter name reason.
Proof. split; [apply (accepted_depth name v 0)|]. intros e. apply parameter_error. Qed.
