(* ===== verification/BoltRequest.v ===== *)
(** [client/bolt.rs], from a message to a request: credentials, the database, the
    metadata of RUN and ROUTE, the counts of PULL and DISCARD; and the builders of
    [ClientQueryRequest] in [client/service.rs].  Tracing is left out. *)

From S2P Require Import Prelude Text Errors Model Namespace QueryData Client ClientNames BoltWire BoltValues.

Local Open Scope N_scope.

Module request.
Import client bolt values.

(** * Requests *)

Definition ClientQueryRequest_new (target : ClientQueryTarget) (query_id query : string) : ClientQueryRequest :=
  MkRequest target query_id query ∅ None None None Causal None None None.

Definition with_query_parameters (parameters : gmap string QueryParameterValue) (r : ClientQueryRequest) : ClientQueryRequest :=
  MkRequest (rq_target r) (rq_query_id r) (rq_query r) (parameters ∪ rq_parameters r) (rq_read_epoch r)
    (rq_max_runtime_ms r) (rq_bookmark r) (rq_consistency r) (rq_mutation_key r) (rq_correlation_id r) (rq_caller_step r).
Definition at_read_epoch (epoch : option N) (r : ClientQueryRequest) : ClientQueryRequest :=
  MkRequest (rq_target r) (rq_query_id r) (rq_query r) (rq_parameters r) epoch
    (rq_max_runtime_ms r) (rq_bookmark r) (rq_consistency r) (rq_mutation_key r) (rq_correlation_id r) (rq_caller_step r).
Definition with_timeout_ms (max_runtime_ms : N) (r : ClientQueryRequest) : ClientQueryRequest :=
  MkRequest (rq_target r) (rq_query_id r) (rq_query r) (rq_parameters r) (rq_read_epoch r)
    (Some max_runtime_ms) (rq_bookmark r) (rq_consistency r) (rq_mutation_key r) (rq_correlation_id r) (rq_caller_step r).
Definition after_bookmark (bookmark : ClientBookmark) (r : ClientQueryRequest) : ClientQueryRequest :=
  MkRequest (rq_target r) (rq_query_id r) (rq_query r) (rq_parameters r) (rq_read_epoch r)
    (rq_max_runtime_ms r) (Some bookmark) (rq_consistency r) (rq_mutation_key r) (rq_correlation_id r) (rq_caller_step r).
Definition with_consistency (consistency : ClientReadConsistency) (r : ClientQueryRequest) : ClientQueryRequest :=
  MkRequest (rq_target r) (rq_query_id r) (rq_query r) (rq_parameters r) (rq_read_epoch r)
    (rq_max_runtime_ms r) (rq_bookmark r) consistency (rq_mutation_key r) (rq_correlation_id r) (rq_caller_step r).
Definition with_mutation_key (key : ClientMutationIdempotencyKey) (r : ClientQueryRequest) : ClientQueryRequest :=
  MkRequest (rq_target r) (rq_query_id r) (rq_query r) (rq_parameters r) (rq_read_epoch r)
    (rq_max_runtime_ms r) (rq_bookmark r) (rq_consistency r) (Some key) (rq_correlation_id r) (rq_caller_step r).
Definition with_mutation_idempotency_key (key : string) : ClientQueryRequest → ClientQueryRequest :=
  with_mutation_key (CallerSupplied key).
Definition with_server_generated_mutation_idempotency_key (key : string) : ClientQueryRequest → ClientQueryRequest :=
  with_mutation_key (ServerGenerated key).
Definition with_correlation_id (id : string) (r : ClientQueryRequest) : ClientQueryRequest :=
  MkRequest (rq_target r) (rq_query_id r) (rq_query r) (rq_parameters r) (rq_read_epoch r)
    (rq_max_runtime_ms r) (rq_bookmark r) (rq_consistency r) (rq_mutation_key r)
    (names.sanitize_caller_metadata id) (rq_caller_step r).
Definition with_caller_step (step : string) (r : ClientQueryRequest) : ClientQueryRequest :=
  MkRequest (rq_target r) (rq_query_id r) (rq_query r) (rq_parameters r) (rq_read_epoch r)
    (rq_max_runtime_ms r) (rq_bookmark r) (rq_consistency r) (rq_mutation_key r) (rq_correlation_id r)
    (names.sanitize_caller_metadata step).

(** [ClientQueryService::effective_runtime_limit_ms] under the configured limit. *)
Definition effective_runtime_limit_ms (limit : N) (requested : option N) : Result N :=
  let requested := default limit requested in
  if requested =? 0 then unsupported "query timeout must be greater than zero"
  else if limit <? requested then Err (AdmissionRejected "client_query_runtime_ms" requested limit)
  else Ok requested.

(** * Credentials and databases *)

Inductive ClientQueryCredentials : Type :=
  | NoCredentials
  | Bearer (token : string)
  | Basic (principal credentials : string).

Definition dict_str (d : BoltDict) (key : string) : option string := dict_get d key ≫= as_str.

Definition required_bolt_string (values : BoltDict) (name : string) : BoltResult string :=
  ok_or (dict_str values name) (Authentication ("missing " +:+ name)).

Definition bolt_client_credentials (auth : BoltDict) : BoltResult ClientQueryCredentials :=
  let scheme := default "none" (dict_str auth "scheme") in
  if bool_decide (scheme = "none") then Ok NoCredentials
  else if bool_decide (scheme = "bearer") then
    token ← required_bolt_string auth "credentials"; Ok (Bearer token)
  else if bool_decide (scheme = "basic") then
    principal ← required_bolt_string auth "principal";
    credentials ← required_bolt_string auth "credentials";
    Ok (Basic principal credentials)
  else Err (Authentication ("unsupported authentication scheme " +:+ scheme)).

(** * Metadata *)

Definition TX_METADATA_CONSISTENCY : string := "hydradb.consistency".
Definition TX_METADATA_CORRELATION_ID : string := "hydradb.correlation_id".
Definition TX_METADATA_CALLER_STEP : string := "hydradb.caller.step".
Definition TX_METADATA_IDEMPOTENCY_KEY : string := "hydradb.idempotency_key".
Definition MAX_BOLT_MUTATION_IDEMPOTENCY_KEY_LEN : N := 128.

Record BoltCallerMetadata := MkCaller { bc_correlation_id : option string; bc_caller_step : option string }.

Definition bolt_tx_metadata (extra : BoltDict) : BoltResult (option BoltDict) :=
  match dict_get extra "tx_metadata" with
  | None => Ok None
  | Some (BDict metadata) => Ok (Some metadata)
  | Some _ => protocol "tx_metadata must be a dictionary"
  end.

Definition allowlisted_caller_value (metadata : BoltDict) (key : string) : option string :=
  match dict_get metadata key with
  | Some (BString value) => names.sanitize_caller_metadata value
  | _ => None
  end.

Definition bolt_caller_metadata (extra : BoltDict) : BoltResult BoltCallerMetadata :=
  metadata ← bolt_tx_metadata extra;
  match metadata with
  | None => Ok (MkCaller None None)
  | Some metadata =>
      Ok (MkCaller (allowlisted_caller_value metadata TX_METADATA_CORRELATION_ID)
                   (allowlisted_caller_value metadata TX_METADATA_CALLER_STEP))
  end.

Definition bolt_mutation_idempotency_key (extra : BoltDict) : BoltResult (option string) :=
  metadata ← bolt_tx_metadata extra;
  match metadata with
  | None => Ok None
  | Some metadata =>
      match dict_get metadata TX_METADATA_IDEMPOTENCY_KEY with
      | None => Ok None
      | Some (BString value) =>
          if (MAX_BOLT_MUTATION_IDEMPOTENCY_KEY_LEN <? strlen value)
             || match validate_component "mutation_idempotency_key" value with Ok _ => false | Err _ => true end
          then Err (Query "Neo.ClientError.Statement.ArgumentError"
                 (TX_METADATA_IDEMPOTENCY_KEY +:+ " must be 1-" +:+ dec MAX_BOLT_MUTATION_IDEMPOTENCY_KEY_LEN
                  +:+ " ASCII letters, digits, '.', '_' or '-'"))
          else Ok (Some ("bolt-caller-v1-" +:+ value))
      | Some _ => Err (type_error (TX_METADATA_IDEMPOTENCY_KEY +:+ " must be a string"))
      end
  end.

Definition validate_bolt_run_extra (extra : BoltDict) : BoltResult unit :=
  if contains_key extra "imp_user" then Err (Forbidden "Bolt user impersonation is not supported")
  else match dict_get extra "mode" with
  | None => Ok tt
  | Some (BString mode) =>
      if bool_decide (mode = "r") || bool_decide (mode = "w") then Ok tt else protocol "mode metadata must be r or w"
  | Some _ => protocol "mode metadata must be a string"
  end.

Definition bolt_bookmarks_from_extra (extra : BoltDict) : BoltResult (list string) :=
  match dict_get extra "bookmarks" with
  | None => Ok []
  | Some (BList bookmarks) => collect (λ bookmark, ok_or (as_str bookmark) (Protocol "bookmarks must be strings")) bookmarks
  | Some _ => protocol "bookmarks must be a list of strings"
  end.

(** [usize] is 64 bits wide. *)
Definition bolt_stream_count (extra : BoltDict) (operation : string) : BoltResult (option N) :=
  if match dict_get extra "qid" with
     | Some query_id => negb (bool_decide (as_int query_id = Some (-1)%Z)) | None => false end
  then protocol (operation +:+ " qid must be -1 for an auto-commit result")
  else
    let n := default (-1)%Z (dict_get extra "n" ≫= as_int) in
    if (n =? -1)%Z then Ok None
    else if (n <=? 0)%Z then protocol (operation +:+ " n must be -1 or a positive integer")
    else Ok (Some (Z.to_N n)).

Section request.
(** [boltr]'s equality of values, the texts of third-party errors, and the resolver
    of databases. *)
Context (value_eq : BoltValue → BoltValue → bool).
Context (slate_text : SlateErrorKind → string) (debug_duration : N → string).
Context (resolve_database : option string → Result ClientQueryTarget).
Let to_bolt := graph_error_to_bolt slate_text debug_duration.

Definition bolt_read_consistency (extra : BoltDict) : BoltResult (option ClientReadConsistency) :=
  let direct := dict_get extra "consistency" in
  metadata ← bolt_tx_metadata extra;
  let metadata := metadata ≫= λ metadata, dict_get metadata TX_METADATA_CONSISTENCY in
  value ← match direct, metadata with
    | Some a, Some b =>
        if value_eq a b then Ok (Some a) else protocol "conflicting Bolt consistency metadata"
    | Some value, _ | _, Some value => Ok (Some value)
    | None, None => Ok None
    end;
  match value with
  | None => Ok None
  | Some (BString value) =>
      if bool_decide (value = "causal") then Ok (Some Causal)
      else if bool_decide (value = "strong") then Ok (Some Strong)
      else protocol "consistency metadata must be causal or strong"
  | Some _ => protocol "consistency metadata must be a string"
  end.

Definition selected_bolt_database (session_database : option string) (default_database : string) (extra : BoltDict) :
  BoltResult string :=
  match dict_get extra "db" with
  | Some (BString database) => Ok database
  | Some _ => protocol "db metadata must be a string"
  | None => Ok (default default_database session_database)
  end.

(** [ulid] is the text of a fresh ULID. *)
Definition bolt_query_request (ulid : string) (target : ClientQueryTarget) (query_id query : string)
  (parameters extra : BoltDict) : BoltResult ClientQueryRequest :=
  parameters ← collect (λ p, value ← bolt_parameter_to_query_value p.1 p.2; Ok (p.1, value)) parameters;
  let request := with_query_parameters (btree_collect parameters) (ClientQueryRequest_new target query_id query) in
  key ← bolt_mutation_idempotency_key extra;
  let request := match key with
    | Some caller_key => with_mutation_idempotency_key caller_key request
    | None => with_server_generated_mutation_idempotency_key ("bolt-mutation-v1-" +:+ ulid) request
    end in
  request ← match dict_get extra "tx_timeout" with
    | Some (BInteger timeout_ms) =>
        if (timeout_ms <? 0)%Z then protocol "tx_timeout must be a non-negative integer"
        else Ok (with_timeout_ms (Z.to_N timeout_ms) request)
    | Some _ => protocol "tx_timeout must be an integer"
    | None => Ok request
    end;
  consistency ← bolt_read_consistency extra;
  let request := match consistency with Some c => with_consistency c request | None => request end in
  caller ← bolt_caller_metadata extra;
  let request := match bc_correlation_id caller with Some id => with_correlation_id id request | None => request end in
  let request := match bc_caller_step caller with Some step => with_caller_step step request | None => request end in
  Ok request.

(** The part of [prepare_bolt_run] before and after the query id is taken: an error
    of the second part has used the id up. *)
Definition run_target (session_database : option string) (default_database : string) (extra : BoltDict) :
  BoltResult (string * ClientQueryTarget) :=
  validate_bolt_run_extra extra ;;
  database ← selected_bolt_database session_database default_database extra;
  target ← map_err to_bolt (resolve_database (Some database));
  Ok (database, target).
Definition run_request (runtime_limit : N) (ulid : string) (target : ClientQueryTarget) (query_id query : string)
  (parameters extra : BoltDict) : BoltResult ClientQueryRequest :=
  request ← bolt_query_request ulid target query_id query parameters extra;
  limit ← map_err to_bolt (effective_runtime_limit_ms runtime_limit (rq_max_runtime_ms request));
  let request := with_timeout_ms limit request in
  bookmarks ← bolt_bookmarks_from_extra extra;
  bookmark ← highest_matching_bookmark slate_text debug_duration target bookmarks;
  Ok (match bookmark with Some bookmark => after_bookmark bookmark request | None => request end).
End request.
End request.
