(* ===== verification/BoltRouting.v ===== *)
(** [client/bolt/routing.rs]: routing tables and their validation; the answer to
    ROUTE ([client/bolt.rs]). *)

From S2P Require Import Prelude Text Errors Namespace QueryData Client ClientNames BoltWire BoltValues.
From Stdlib Require Import Ascii.

Local Open Scope N_scope.

Module routing.
Import values.

Record BoltRoutingServer := MkServer { rs_role : string; rs_addresses : list string }.
Record BoltRoutingTable := MkTable { rt_ttl_secs : Z; rt_servers : list BoltRoutingServer }.
Global Instance BoltRoutingServer_eq_dec : EqDecision BoltRoutingServer.
Proof. solve_decision. Defined.

(** [client/bolt.rs: bolt_config_error]. *)
Definition bolt_config_error {A} (feature : string) : Result A := Err (UnsupportedQuery "Bolt" feature).

(** [to_ascii_uppercase]. *)
Definition ascii_uppercase (c : ascii) : ascii :=
  if (97 <=? byte_of c) && (byte_of c <=? 122) then ascii_of_N (byte_of c - 32) else c.
Fixpoint to_ascii_uppercase (s : string) : string :=
  match s with "" => "" | String c s => String (ascii_uppercase c) (to_ascii_uppercase s) end.

Definition bad_address (address : string) : bool :=
  bool_decide (address = "") || (1024 <? strlen address)
  || existsb (λ c, names.is_control c || names.is_whitespace c) (names.chars address).

Definition BoltRoutingServer_new (role : string) (addresses : list string) : Result BoltRoutingServer :=
  let role := to_ascii_uppercase role in
  if negb (bool_decide (role ∈ ["ROUTE"; "READ"; "WRITE"])) then Err (InvalidKeyComponent "bolt_routing_role" role)
  else
    let addresses := names.trim <$> addresses in
    if bool_decide (addresses = []) || existsb bad_address addresses
    then Err (InvalidKeyComponent "bolt_routing_address" (join ","%char addresses))
    else Ok (MkServer role addresses).

(** The roles seen so far. *)
Fixpoint check_servers (servers : list BoltRoutingServer) (roles : gset string) : Result (gset string) :=
  match servers with
  | [] => Ok roles
  | server :: servers =>
      normalized ← BoltRoutingServer_new (rs_role server) (rs_addresses server);
      if negb (bool_decide (normalized = server)) || bool_decide (rs_role server ∈ roles)
      then bolt_config_error "Bolt routing table roles must be normalized and appear exactly once"
      else check_servers servers ({[rs_role server]} ∪ roles)
  end.
Definition validate_bolt_routing_table (ttl_secs : Z) (servers : list BoltRoutingServer) : Result unit :=
  if (ttl_secs <=? 0)%Z || bool_decide (servers = [])
  then bolt_config_error "Bolt routing table TTL and server list cannot be empty"
  else
    roles ← check_servers servers ∅;
    if forallb (λ role, bool_decide (role ∈ roles)) ["ROUTE"; "READ"; "WRITE"] then Ok tt
    else bolt_config_error "Bolt routing table requires ROUTE, READ, and WRITE roles".
Definition BoltRoutingTable_new (ttl_secs : Z) (servers : list BoltRoutingServer) : Result BoltRoutingTable :=
  validate_bolt_routing_table ttl_secs servers ;; Ok (MkTable ttl_secs servers).

(** [client/bolt.rs: bolt_routing_table]. *)
Definition bolt_routing_table (table : BoltRoutingTable) (database : string) : BoltDict :=
  let servers := (λ server, BDict [("addresses", BList (BString <$> rs_addresses server));
                                   ("role", BString (rs_role server))]) <$> rt_servers table in
  [("ttl", BInteger (rt_ttl_secs table)); ("db", BString database); ("servers", BList servers)].
End routing.
