(* ===== verification/BoltSession.v ===== *)
(** [client/bolt.rs: run_bolt_protocol]: one Bolt connection.  What the connection
    waits for comes from a script of events: messages of the reader task, timers,
    the completion of the page being fetched, and what other clients do to the
    service in between.  The clock, the outcome of each write and the service are
    parameters.  Tracing spans and their fields are left out. *)

From S2P Require Import Prelude Text Errors Model Namespace QueryData Client ClientNames BoltWire BoltValues BoltRequest BoltRouting.

Local Open Scope N_scope.

Module session.
Import client bolt values request routing.

(** * Data *)

Inductive ClientMessage : Type :=
  | Hello (extra : BoltDict)
  | Logon (auth : BoltDict)
  | Logoff
  | Goodbye
  | Reset
  | Run (query : string) (parameters extra : BoltDict)
  | Pull (extra : BoltDict)
  | Discard (extra : BoltDict)
  | Route (routing : BoltDict) (bookmarks : list string) (extra : BoltDict)
  | Telemetry (api : Z)
  | Begin (extra : BoltDict)
  | Commit
  | Rollback.

(** A failure carries the error its metadata is made of. *)
Inductive ServerMessage : Type :=
  | Success (metadata : BoltDict)
  | Failure (error : BoltError)
  | Ignored
  | Record_ (data : list BoltValue).

Inductive BoltState : Type := Negotiation | Authenticating | Ready | Streaming | Failed.
Global Instance BoltState_eq_dec : EqDecision BoltState.
Proof. solve_decision. Defined.

(** [PreparedClientQuery]; the plan is its parameters and batch operation. *)
Record PreparedClientQuery (Plan : Type) := MkPrepared {
  pq_request : ClientQueryRequest; pq_action : QueryTransportAction; pq_columns : list QueryColumn; pq_plan : Plan }.
Arguments MkPrepared {Plan}. Arguments pq_request {Plan}. Arguments pq_action {Plan}.
Arguments pq_columns {Plan}. Arguments pq_plan {Plan}.

Record PendingBoltResult (Plan : Type) := MkPending {
  pd_database : string; pd_prepared : PreparedClientQuery Plan; pd_deadline : N;
  pd_columns : list QueryColumn; pd_started : bool; pd_pages : N; pd_rows : list QueryRow;
  pd_next_cursor : option QueryCursorToken; pd_bookmark : option ClientBookmark }.
Arguments MkPending {Plan}. Arguments pd_database {Plan}. Arguments pd_prepared {Plan}.
Arguments pd_deadline {Plan}. Arguments pd_columns {Plan}. Arguments pd_started {Plan}.
Arguments pd_pages {Plan}. Arguments pd_rows {Plan}. Arguments pd_next_cursor {Plan}. Arguments pd_bookmark {Plan}.

Record BoltProtocolSession (Plan : Type) := MkBoltSession {
  bs_id : string; bs_authenticated : option ClientQuerySession; bs_database : option string;
  bs_next_query : N; bs_pending : option (PendingBoltResult Plan) }.
Arguments MkBoltSession {Plan}. Arguments bs_id {Plan}. Arguments bs_authenticated {Plan}.
Arguments bs_database {Plan}. Arguments bs_next_query {Plan}. Arguments bs_pending {Plan}.

(** What the connection asks of the query service. *)
Class QueryService (Svc Plan : Type) := {
  svc_authenticate : ClientQueryCredentials → Svc → Svc * Result ClientQuerySession;
  svc_runtime_limit : N;
  svc_prepare : ClientQuerySession → ClientQueryRequest → N → Svc → Svc * Result (PreparedClientQuery Plan);
  svc_execute : ClientQuerySession → PreparedClientQuery Plan → option QueryCursorToken → N → Svc →
                Svc * Result ClientQueryPage;
  svc_release : ClientQuerySession → ClientQueryRequest → QueryCursorToken → Svc → Svc;
  svc_cancel : ClientQuerySession → GraphScope → string → Svc → Svc;
  svc_authorize_route : ClientQuerySession → GraphScope → Svc → Svc * Result unit;
  svc_ensure_bookmark : ClientBookmark → Svc → Svc * Result unit }.

Inductive Event (Svc : Type) : Type :=
  | Incoming (r : option (BoltResult ClientMessage))
  | PageReady
  | IdleElapsed
  | AuthenticationElapsed
  | AgeElapsed
  | Elsewhere (f : Svc → Svc).
Arguments Incoming {Svc}. Arguments PageReady {Svc}. Arguments IdleElapsed {Svc}.
Arguments AuthenticationElapsed {Svc}. Arguments AgeElapsed {Svc}. Arguments Elsewhere {Svc}.

(** The fields of [BoltServerConfig] and [BoltConnectionContext] the loop reads;
    durations and instants are in nanoseconds. *)
Record BoltConfig (Svc : Type) := MkConfig {
  server_version : string; default_database : string; routing_ttl_secs : Z;
  routing_servers : list BoltRoutingServer;
  routing_table_provider : option (string → ClientQueryTarget → Svc → Svc * Result BoltRoutingTable);
  prefetch_rows : N; max_pipelined_messages : nat; authentication_timeout : N; max_connection_age : N }.
Arguments MkConfig {Svc}. Arguments server_version {Svc}. Arguments default_database {Svc}.
Arguments routing_ttl_secs {Svc}. Arguments routing_servers {Svc}. Arguments routing_table_provider {Svc}.
Arguments prefetch_rows {Svc}. Arguments max_pipelined_messages {Svc}. Arguments authentication_timeout {Svc}.
Arguments max_connection_age {Svc}.

Inductive outcome (A : Type) : Type :=
  | Done (a : A)
  | Fail (e : BoltError)
  | Waiting      (* the script is at its end *)
  | Panicked     (* an [expect] *)
  | OutOfFuel.
Arguments Done {A}. Arguments Fail {A}. Arguments Waiting {A}. Arguments Panicked {A}. Arguments OutOfFuel {A}.

Record Conn (Svc Plan : Type) := MkConn {
  c_script : list (Event Svc); c_queued : list ClientMessage; c_state : BoltState;
  c_session : BoltProtocolSession Plan; c_auth_deadline : N; c_conn_deadline : N;
  c_out : list ServerMessage; c_faults : list (option BoltError); c_ticks : nat; c_svc : Svc }.
Arguments MkConn {Svc Plan}. Arguments c_script {Svc Plan}. Arguments c_queued {Svc Plan}.
Arguments c_state {Svc Plan}. Arguments c_session {Svc Plan}. Arguments c_auth_deadline {Svc Plan}.
Arguments c_conn_deadline {Svc Plan}. Arguments c_out {Svc Plan}. Arguments c_faults {Svc Plan}.
Arguments c_ticks {Svc Plan}. Arguments c_svc {Svc Plan}.

Definition M (Svc Plan A : Type) : Type := Conn Svc Plan → Conn Svc Plan * outcome A.
Global Instance m_ret Svc Plan : MRet (M Svc Plan) := λ _ a c, (c, Done a).
Global Instance m_bind Svc Plan : MBind (M Svc Plan) := λ _ _ f m c,
  let '(c, r) := m c in
  match r with
  | Done a => f a c
  | Fail e => (c, Fail e)
  | Waiting => (c, Waiting)
  | Panicked => (c, Panicked)
  | OutOfFuel => (c, OutOfFuel)
  end.

Inductive flow : Type := Continue | Break.
Inductive PageAwaitResult : Type :=
  | Complete (r : Result ClientQueryPage)
  | WasReset
  | WasGoodbye.
Inductive BoltRecordDisposition : Type := Send | Discarding.

Section machine.
Context {Svc Plan : Type} `{QueryService Svc Plan}.
Context (clock : nat → N) (ulid : nat → string).
Context (value_eq : BoltValue → BoltValue → bool).
Context (slate_text : SlateErrorKind → string) (debug_duration : N → string).
Context (resolve_database : option string → Result ClientQueryTarget).
Context (cfg : BoltConfig Svc).

Abbreviation conn := (Conn Svc Plan).
Abbreviation IO := (M Svc Plan).
Definition to_bolt : GraphError → BoltError := graph_error_to_bolt slate_text debug_duration.

(** * Steps of the state *)

Definition with_script (evs : list (Event Svc)) (svc : Svc) (c : conn) : conn :=
  MkConn evs (c_queued c) (c_state c) (c_session c) (c_auth_deadline c) (c_conn_deadline c) (c_out c) (c_faults c) (c_ticks c) svc.
Definition with_queued (q : list ClientMessage) (c : conn) : conn :=
  MkConn (c_script c) q (c_state c) (c_session c) (c_auth_deadline c) (c_conn_deadline c) (c_out c) (c_faults c) (c_ticks c) (c_svc c).
Definition with_state (st : BoltState) (c : conn) : conn :=
  MkConn (c_script c) (c_queued c) st (c_session c) (c_auth_deadline c) (c_conn_deadline c) (c_out c) (c_faults c) (c_ticks c) (c_svc c).
Definition with_session (s : BoltProtocolSession Plan) (c : conn) : conn :=
  MkConn (c_script c) (c_queued c) (c_state c) s (c_auth_deadline c) (c_conn_deadline c) (c_out c) (c_faults c) (c_ticks c) (c_svc c).
Definition with_auth_deadline (d : N) (c : conn) : conn :=
  MkConn (c_script c) (c_queued c) (c_state c) (c_session c) d (c_conn_deadline c) (c_out c) (c_faults c) (c_ticks c) (c_svc c).
Definition with_output (out : list ServerMessage) (faults : list (option BoltError)) (c : conn) : conn :=
  MkConn (c_script c) (c_queued c) (c_state c) (c_session c) (c_auth_deadline c) (c_conn_deadline c) out faults (c_ticks c) (c_svc c).
Definition with_tick (c : conn) : conn :=
  MkConn (c_script c) (c_queued c) (c_state c) (c_session c) (c_auth_deadline c) (c_conn_deadline c) (c_out c) (c_faults c) (S (c_ticks c)) (c_svc c).

Definition gets {A} (f : conn → A) : IO A := λ c, (c, Done (f c)).
Definition modify (f : conn → conn) : IO unit := λ c, (f c, Done tt).
Definition throw {A} (e : BoltError) : IO A := λ c, (c, Fail e).
Definition panic {A} : IO A := λ c, (c, Panicked).
Definition out_of_fuel {A} : IO A := λ c, (c, OutOfFuel).
(** [Instant::now()]. *)
Definition now : IO N := λ c, (with_tick c, Done (clock (c_ticks c))).
Definition fresh_ulid : IO string := λ c, (with_tick c, Done (ulid (c_ticks c))).
Definition svc {A} (f : Svc → Svc * A) : IO A := λ c,
  let '(s, a) := f (c_svc c) in (with_script (c_script c) s c, Done a).
(** A result looked at rather than passed on with [?]. *)
Definition attempt {A} (m : IO A) : IO (BoltResult A) := λ c,
  let '(c, r) := m c in
  match r with
  | Done a => (c, Done (Ok a))
  | Fail e => (c, Done (Err e))
  | Waiting => (c, Waiting)
  | Panicked => (c, Panicked)
  | OutOfFuel => (c, OutOfFuel)
  end.

Definition set_session (f : BoltProtocolSession Plan → BoltProtocolSession Plan) : IO unit :=
  modify (λ c, with_session (f (c_session c)) c).
Definition set_state (st : BoltState) : IO unit := modify (with_state st).
Definition set_pending (p : option (PendingBoltResult Plan)) (s : BoltProtocolSession Plan) : BoltProtocolSession Plan :=
  MkBoltSession (bs_id s) (bs_authenticated s) (bs_database s) (bs_next_query s) p.

Definition io_timed_out {A} (what : string) : IO A := throw (Io what).

(** * Sending *)

Definition send_bolt_message (m : ServerMessage) : IO unit := λ c,
  match c_faults c with
  | Some e :: faults => (with_output (c_out c) faults c, Fail e)
  | None :: faults => (with_output (c_out c ++ [m]) faults c, Done tt)
  | [] => (with_output (c_out c ++ [m]) [] c, Done tt)
  end.
Definition send_bolt_success (metadata : BoltDict) : IO unit := send_bolt_message (Success metadata).
Definition send_bolt_failure (e : BoltError) : IO unit := send_bolt_message (Failure e).

(** * Waiting

    [select!]: the next event one of the arms waits for; others go by. *)
Fixpoint await_from (enabled : Event Svc → bool) (evs : list (Event Svc)) (s : Svc) :
  list (Event Svc) * Svc * option (Event Svc) :=
  match evs with
  | [] => ([], s, None)
  | Elsewhere f :: evs => await_from enabled evs (f s)
  | ev :: evs => if enabled ev then (evs, s, Some ev) else await_from enabled evs s
  end.
Definition await (enabled : Event Svc → bool) : IO (Event Svc) := λ c,
  let '(evs, s, ev) := await_from enabled (c_script c) (c_svc c) in
  (with_script evs s c, match ev with Some ev => Done ev | None => Waiting end).

(** * Results *)

Definition clear_pending_result : IO unit :=
  s ← gets c_session;
  match bs_pending s with
  | None => mret tt
  | Some pending =>
      set_session (set_pending None) ;;
      match bs_authenticated s, pd_next_cursor pending with
      | Some authenticated, Some cursor =>
          svc (λ x, (svc_release authenticated (pq_request (pd_prepared pending)) cursor x, tt))
      | _, _ => mret tt
      end
  end.

Definition remaining_bolt_runtime_ms (deadline : N) : IO N :=
  t ← now;
  let remaining := saturating_sub deadline t in
  if remaining =? 0 then throw (Query "Neo.TransientError.Transaction.Terminated" "query stream deadline elapsed")
  else mret (N.min (N.max (remaining / 1000000) 1) u64_max).

Definition bolt_result_summary_metadata (pending : PendingBoltResult Plan) (has_more : bool) : BoltDict :=
  ("has_more", BBoolean has_more) ::
  if has_more then []
  else match pd_bookmark pending with
       | Some bookmark => [("bookmark", BString (names.bookmark_encode bookmark))]
       | None => []
       end
       ++ [("db", BString (pd_database pending)); ("t_last", BInteger 0); ("type", BString "r")].

Definition page_arm (ev : Event Svc) : bool :=
  match ev with Incoming _ | PageReady => true | _ => false end.

(** The messages a RESET finds queued are ignored. *)
Fixpoint ignore_queued (n : nat) : IO unit :=
  match n with
  | O => mret tt
  | S n => modify (λ c, with_queued (tail (c_queued c)) c) ;; send_bolt_message Ignored ;; ignore_queued n
  end.

(** The fuel is the length of the script: every turn takes an event. *)
Fixpoint await_bolt_page (fuel : nat) (task : Svc → Svc * Result ClientQueryPage)
  (authenticated : ClientQuerySession) (scope : GraphScope) (query_id : string) : IO PageAwaitResult :=
  ev ← await page_arm;
  match ev with
  | PageReady => result ← svc task; mret (Complete result)
  | Incoming (Some (Ok Reset)) =>
      svc (λ x, (svc_cancel authenticated scope query_id x, tt)) ;;
      queued_before_reset ← gets (λ c, length (c_queued c));
      send_bolt_message Ignored ;;
      ignore_queued queued_before_reset ;;
      send_bolt_success [] ;;
      mret WasReset
  | Incoming (Some (Ok Goodbye)) | Incoming None =>
      svc (λ x, (svc_cancel authenticated scope query_id x, tt)) ;;
      mret WasGoodbye
  | Incoming (Some (Ok message)) =>
      queued ← gets c_queued;
      if (max_pipelined_messages cfg <=? length queued)%nat
      then throw (ResourceExhausted "Bolt pipelined message queue is full")
      else (
        modify (with_queued (queued ++ [message])) ;;
        match fuel with
        | O => out_of_fuel
        | S fuel => await_bolt_page fuel task authenticated scope query_id
        end)
  | Incoming (Some (Err error)) => throw error
  | _ => out_of_fuel
  end.

Definition update_pending (f : PendingBoltResult Plan → PendingBoltResult Plan) : IO unit :=
  set_session (λ s, set_pending (f <$> bs_pending s) s).

Definition finished_page (pending : PendingBoltResult Plan) : ClientQueryPage :=
  let request := pq_request (pd_prepared pending) in
  MkClientPage (rq_query_id request) (MkPage (pd_columns pending) [] (pd_next_cursor pending))
    (rq_read_epoch request) (pd_bookmark pending).

(** One more page of the pending result is taken from the service. *)
Definition fetch_page (authenticated : ClientQuerySession) (cursor : option QueryCursorToken) (fetch_size : N) :
  IO PageAwaitResult :=
  update_pending (λ p, MkPending (pd_database p) (pd_prepared p) (pd_deadline p) (pd_columns p) (pd_started p)
                         (pd_pages p + 1) (pd_rows p) (pd_next_cursor p) (pd_bookmark p)) ;;
  s ← gets c_session;
  match bs_pending s with
  | None => panic
  | Some pending =>
      remaining_runtime_ms ← remaining_bolt_runtime_ms (pd_deadline pending);
      let prepared := pd_prepared pending in
      let request := with_timeout_ms remaining_runtime_ms (pq_request prepared) in
      let prepared := MkPrepared request (pq_action prepared) (pq_columns prepared) (pq_plan prepared) in
      update_pending (λ p, MkPending (pd_database p) prepared (pd_deadline p) (pd_columns p) (pd_started p)
                             (pd_pages p) (pd_rows p) (pd_next_cursor p) (pd_bookmark p)) ;;
      fuel ← gets (λ c, length (c_script c));
      await_bolt_page fuel (svc_execute authenticated prepared cursor fetch_size) authenticated
        (ct_scope (rq_target request)) (rq_query_id request)
  end.

(** What a page adds to the pending result. *)
Definition take_page (page : ClientQueryPage) (p : PendingBoltResult Plan) : PendingBoltResult Plan :=
  let prepared := pd_prepared p in
  MkPending (pd_database p)
    (MkPrepared (at_read_epoch (cp_read_epoch page) (pq_request prepared)) (pq_action prepared) (pq_columns prepared) (pq_plan prepared))
    (pd_deadline p) (pd_columns p) (pd_started p) (pd_pages p)
    (pd_rows p ++ pg_rows (cp_page page)) (pg_next_cursor (cp_page page)) (cp_bookmark page).

Fixpoint consume_bolt_records (fuel : nat) (authenticated : ClientQuerySession) (count : option N)
  (disposition : BoltRecordDisposition) (remaining : N) : IO PageAwaitResult :=
  match fuel with
  | O => out_of_fuel
  | S fuel =>
      s ← gets c_session;
      match bs_pending s with
      | None => panic
      | Some p =>
          let finish := mret (Complete (Ok (finished_page p))) in
          if remaining =? 0 then finish
          else match pd_rows p with
          | row :: rows =>
              update_pending (λ p, MkPending (pd_database p) (pd_prepared p) (pd_deadline p) (pd_columns p)
                (pd_started p) (pd_pages p) rows (pd_next_cursor p) (pd_bookmark p)) ;;
              match disposition with
              | Send =>
                  match collect query_value_to_bolt (row_values row) with
                  | Ok values => send_bolt_message (Record_ values)
                  | Err e => throw e
                  end
              | Discarding => mret tt
              end ;;
              consume_bolt_records fuel authenticated count disposition (remaining - 1)
          | [] =>
              match pd_started p, pd_next_cursor p with
              | true, None => finish
              | started, cursor =>
                  update_pending (λ p, MkPending (pd_database p) (pd_prepared p) (pd_deadline p) (pd_columns p)
                    true (pd_pages p) (pd_rows p) (if started then None else pd_next_cursor p) (pd_bookmark p)) ;;
                  let fetch_size := match count with
                    | None => prefetch_rows cfg | Some count => N.min (prefetch_rows cfg) (N.max count 1) end in
                  awaited ← fetch_page authenticated (if started then cursor else None) fetch_size;
                  match awaited with
                  | Complete (Ok page) =>
                      if negb (bool_decide (pg_columns (cp_page page) = pd_columns p))
                      then mret (Complete (Err (CorruptValue "client/bolt/result_columns"
                                                  "result columns changed between cursor pages")))
                      else (
                        update_pending (take_page page) ;;
                        consume_bolt_records fuel authenticated count disposition remaining)
                  | outcome => mret outcome
                  end
              end
          end
      end
  end.

(** * Messages *)

Definition next_query_id (s : BoltProtocolSession Plan) : BoltProtocolSession Plan * string :=
  (MkBoltSession (bs_id s) (bs_authenticated s) (bs_database s) (saturating_add (bs_next_query s) 1) (bs_pending s),
   bs_id s +:+ "-query-" +:+ dec (bs_next_query s)).

Definition authenticated (s : BoltProtocolSession Plan) : BoltResult ClientQuerySession :=
  ok_or (bs_authenticated s) (Authentication "session is not authenticated").

Definition lift {A} (r : BoltResult A) : IO A :=
  match r with Ok a => mret a | Err e => throw e end.
Definition lift_graph {A} (r : Result A) : IO A := lift (map_err to_bolt r).

Definition prepare_bolt_run (query : string) (parameters extra : BoltDict) :
  IO (ClientQuerySession * string * ClientQueryRequest) :=
  s ← gets c_session;
  auth ← lift (authenticated s);
  '(database, target) ← lift (run_target slate_text debug_duration resolve_database (bs_database s) (default_database cfg) extra);
  let '(s, query_id) := next_query_id s in
  set_session (λ _, s) ;;
  u ← fresh_ulid;
  request ← lift (run_request value_eq slate_text debug_duration svc_runtime_limit u target query_id query parameters extra);
  mret (auth, database, request).

Definition prepare_bolt_route (bookmarks : list string) (extra : BoltDict) : IO BoltDict :=
  s ← gets c_session;
  auth ← lift (authenticated s);
  if contains_key extra "imp_user" then throw (Forbidden "Bolt user impersonation is not supported")
  else (
    database ← lift (selected_bolt_database (bs_database s) (default_database cfg) extra);
    target ← lift_graph (resolve_database (Some database));
    authorized ← svc (svc_authorize_route auth (ct_scope target));
    lift_graph authorized ;;
    bookmark ← lift (highest_matching_bookmark slate_text debug_duration target bookmarks);
    match bookmark with
    | Some bookmark => reached ← svc (svc_ensure_bookmark bookmark); lift_graph reached
    | None => mret tt
    end ;;
    table ← match routing_table_provider cfg with
      | Some provider => table ← svc (provider database target); lift_graph table
      | None =>
          if bool_decide (routing_servers cfg = [])
          then throw (ResourceExhausted "no Bolt routing table provider or static routing table is configured")
          else lift_graph (BoltRoutingTable_new (routing_ttl_secs cfg) (routing_servers cfg))
      end;
    mret (bolt_routing_table table database)).

(** [send_bolt_failure(..)?; state = Failed; continue]. *)
Definition refuse (e : BoltError) : IO flow := send_bolt_failure e ;; set_state Failed ;; mret Continue.

Definition on_failed (message : ClientMessage) : IO flow :=
  match message with
  | Reset =>
      clear_pending_result ;;
      send_bolt_success [] ;;
      s ← gets c_session;
      set_state (match bs_authenticated s with Some _ => Ready | None => Authenticating end) ;;
      mret Continue
  | Goodbye => clear_pending_result ;; mret Break
  | _ => send_bolt_message Ignored ;; mret Continue
  end.

Definition on_hello : IO flow :=
  s ← gets c_session;
  send_bolt_success [("server", BString ("SlateDBGraph/" +:+ server_version cfg));
                     ("connection_id", BString (bs_id s)); ("hints", BDict [])] ;;
  set_state Authenticating ;;
  mret Continue.

Definition on_logon (auth : BoltDict) : IO flow :=
  match bolt_client_credentials auth with
  | Err error => send_bolt_failure error ;; mret Break
  | Ok credentials =>
      answer ← svc (svc_authenticate credentials);
      match answer with
      | Ok granted =>
          set_session (λ s, MkBoltSession (bs_id s) (Some granted) (bs_database s) (bs_next_query s) (bs_pending s)) ;;
          send_bolt_success [] ;;
          set_state Ready ;;
          mret Continue
      | Err _ => send_bolt_failure (Authentication "invalid credentials") ;; mret Break
      end
  end.

Definition on_reset : IO flow := clear_pending_result ;; send_bolt_success [] ;; set_state Ready ;; mret Continue.

Definition on_logoff : IO flow :=
  clear_pending_result ;;
  set_session (λ s, MkBoltSession (bs_id s) None None (bs_next_query s) (bs_pending s)) ;;
  t ← now;
  modify (with_auth_deadline (t + authentication_timeout cfg)) ;;
  send_bolt_success [] ;;
  set_state Authenticating ;;
  mret Continue.

Definition on_run (query : string) (parameters extra : BoltDict) : IO flow :=
  preparation ← attempt (prepare_bolt_run query parameters extra);
  match preparation with
  | Err error => refuse error
  | Ok (auth, database, request) =>
      prepared ← svc (svc_prepare auth request (prefetch_rows cfg));
      match prepared with
      | Err error => refuse (to_bolt error)
      | Ok prepared =>
          t ← now;
          match rq_max_runtime_ms (pq_request prepared) with
          | None => panic
          | Some max_runtime_ms =>
              let fields := (λ column, BString (qc_name column)) <$> pq_columns prepared in
              send_bolt_success [("fields", BList fields); ("t_first", BInteger 0); ("db", BString database)] ;;
              set_session (set_pending (Some (MkPending database prepared (t + ms max_runtime_ms)
                (pq_columns prepared) false 0 [] None None))) ;;
              set_state Streaming ;;
              mret Continue
          end
      end
  end.

(** The fuel of a PULL: the rows at hand and, for every event of the script, what
    it may bring. *)
Definition on_stream (operation : string) (disposition : BoltRecordDisposition) (fuel : nat) (extra : BoltDict) : IO flow :=
  match bolt_stream_count extra operation with
  | Err error => refuse error
  | Ok count =>
      s ← gets c_session;
      match authenticated s with
      | Err error => refuse error
      | Ok auth =>
          match bs_pending s with
          | None => refuse (Protocol "no pending result")
          | Some _ =>
              pull_result ← attempt (consume_bolt_records fuel auth count disposition (default u64_max count));
              match pull_result with
              | Err error => send_bolt_failure error ;; clear_pending_result ;; set_state Failed ;; mret Continue
              | Ok (Complete (Ok _)) =>
                  s ← gets c_session;
                  match bs_pending s with
                  | None => panic
                  | Some pending =>
                      let has_more := negb (bool_decide (pd_rows pending = []))
                                      || negb (bool_decide (pd_next_cursor pending = None)) in
                      send_bolt_success (bolt_result_summary_metadata pending has_more) ;;
                      if has_more then mret Continue
                      else (clear_pending_result ;; set_state Ready ;; mret Continue)
                  end
              | Ok (Complete (Err error)) =>
                  send_bolt_failure (to_bolt error) ;; clear_pending_result ;; set_state Failed ;; mret Continue
              | Ok WasReset => clear_pending_result ;; set_state Ready ;; mret Continue
              | Ok WasGoodbye => mret Break
              end
          end
      end
  end.

Definition on_route (bookmarks : list string) (extra : BoltDict) : IO flow :=
  answer ← attempt (prepare_bolt_route bookmarks extra);
  match answer with
  | Ok routing_table => send_bolt_success [("rt", BDict routing_table)] ;; mret Continue
  | Err error => refuse error
  end.

Definition handle (fuel : nat) (message : ClientMessage) : IO flow :=
  state ← gets c_state;
  match state, message with
  | Failed, message => on_failed message
  | Negotiation, Hello _ => on_hello
  | Authenticating, Logon auth => on_logon auth
  | _, Goodbye => clear_pending_result ;; mret Break
  | Ready, Reset | Streaming, Reset => on_reset
  | Ready, Logoff => on_logoff
  | Ready, Run query parameters extra => on_run query parameters extra
  | Streaming, Pull extra => on_stream "PULL" Send fuel extra
  | Streaming, Discard extra => on_stream "DISCARD" Discarding fuel extra
  | Ready, Route _ bookmarks extra => on_route bookmarks extra
  | Ready, Telemetry _ => send_bolt_success [] ;; mret Continue
  | Ready, Begin _ | Ready, Commit | Ready, Rollback => refuse explicit_transactions_unsupported
  | _, _ => refuse (Protocol "message is invalid in the current Bolt state")
  end.

(** * The loop *)

Definition main_arm (is_authenticated : bool) (ev : Event Svc) : bool :=
  match ev with
  | Incoming _ | AgeElapsed => true
  | IdleElapsed => is_authenticated
  | AuthenticationElapsed => negb is_authenticated
  | PageReady | Elsewhere _ => false
  end.

(** The next message: [None] ends the loop. *)
Definition next_message (is_authenticated : bool) : IO (option (BoltResult ClientMessage)) :=
  queued ← gets c_queued;
  match queued with
  | message :: queued => modify (with_queued queued) ;; mret (Some (Ok message))
  | [] =>
      ev ← await (main_arm is_authenticated);
      match ev with
      | Incoming incoming => mret incoming
      | IdleElapsed => io_timed_out "Bolt connection idle timeout elapsed"
      | AuthenticationElapsed => io_timed_out "Bolt authentication timeout elapsed"
      | _ => mret None
      end
  end.

Definition turn (fuel : nat) : IO flow :=
  t ← now;
  c ← gets id;
  if c_conn_deadline c <=? t then mret Break
  else
    let is_authenticated := match bs_authenticated (c_session c) with Some _ => true | None => false end in
    if negb is_authenticated && (c_auth_deadline c <=? t)
    then io_timed_out "Bolt authentication timeout elapsed"
    else (
      incoming ← next_message is_authenticated;
      match incoming with
      | Some (Ok message) => handle fuel message
      | Some (Err error) => refuse error
      | None => mret Break
      end).

(** The first fuel bounds the turns, the second a PULL. *)
Fixpoint protocol_loop (turns fuel : nat) : IO unit :=
  match turns with
  | O => out_of_fuel
  | S turns =>
      f ← turn fuel;
      match f with Continue => protocol_loop turns fuel | Break => mret tt end
  end.

Definition run_bolt_protocol (turns fuel : nat) : IO unit := protocol_loop turns fuel ;; clear_pending_result.

Definition BoltProtocolSession_new (number : N) : BoltProtocolSession Plan :=
  MkBoltSession ("bolt-" +:+ dec number) None None 1 None.
(** A connection as [run_bolt_protocol] starts it at an instant. *)
Definition open_connection (number started authentication_deadline : N) (script : list (Event Svc))
  (faults : list (option BoltError)) (svc : Svc) : conn :=
  MkConn script [] Negotiation (BoltProtocolSession_new number) authentication_deadline
    (started + max_connection_age cfg) [] faults 0 svc.
End machine.
End session.
