(* ===== verification/BoltSessionFacts.v ===== *)
(** The Bolt connection ([BoltSession]): it never panics or spins, keeps its state
    machine, touches the service only for authenticated clients, and answers every
    message once. *)

From S2P Require Import Prelude Text Errors Model Namespace QueryData Client ClientNames BoltWire BoltValues BoltRequest BoltRouting BoltSession.

Local Open Scope N_scope.

Import client bolt values request routing session.

(** * Reasoning about the loop *)

Section wp.
Context {Svc Plan : Type} `{QueryService Svc Plan}.
Abbreviation conn := (Conn Svc Plan).
Abbreviation IO := (M Svc Plan).
Implicit Types (c : conn).

Definition wp {A} (m : IO A) (Q : conn → outcome A → Prop) (c : conn) : Prop := let '(c', r) := m c in Q c' r.

(** A postcondition after a bind: errors pass through. *)
Definition through {A B} (k : A → conn → Prop) (Q : conn → outcome B → Prop) (c : conn) (r : outcome A) : Prop :=
  match r with
  | Done a => k a c
  | Fail e => Q c (Fail e)
  | Waiting => Q c Waiting
  | Panicked => Q c Panicked
  | OutOfFuel => Q c OutOfFuel
  end.

Lemma bwp_bind {A B} (m : IO A) (f : A → IO B) Q c : wp m (through (λ a, wp (f a) Q) Q) c → wp (m ≫= f) Q c.
Proof. unfold wp, mbind, m_bind. destruct (m c) as [c' []]; cbn; done. Qed.
Lemma bwp_ret {A} (a : A) Q c : Q c (Done a) → wp (mret a : IO A) Q c.
Proof. done. Qed.
Lemma bwp_mono {A} (m : IO A) (P Q : conn → outcome A → Prop) c : wp m P c → (∀ c' r, P c' r → Q c' r) → wp m Q c.
Proof. unfold wp. destruct (m c). auto. Qed.
Lemma wp_gets {A} (f : conn → A) Q c : Q c (Done (f c)) → wp (gets f) Q c.
Proof. done. Qed.
Lemma wp_modify (f : conn → conn) Q c : Q (f c) (Done tt) → wp (modify f) Q c.
Proof. done. Qed.
Lemma wp_throw {A} e Q c : Q c (Fail e) → wp (throw e : IO A) Q c.
Proof. done. Qed.
Lemma wp_panic {A} Q c : Q c Panicked → wp (panic : IO A) Q c.
Proof. done. Qed.
Lemma bwp_now clock Q c : Q (with_tick c) (Done (clock (c_ticks c))) → wp (now clock) Q c.
Proof. done. Qed.
Lemma wp_ulid ulid Q c : Q (with_tick c) (Done (ulid (c_ticks c))) → wp (fresh_ulid ulid) Q c.
Proof. done. Qed.
Lemma wp_svc {A} (f : Svc → Svc * A) Q c :
  (∀ s a, f (c_svc c) = (s, a) → Q (with_script (c_script c) s c) (Done a)) → wp (svc f) Q c.
Proof. unfold wp, svc. destruct (f (c_svc c)) as [s a]. auto. Qed.
Lemma wp_send m Q c :
  (∀ faults, (c_faults c = [] → faults = []) → Q (with_output (c_out c ++ [m]) faults c) (Done tt)) →
  (∀ faults e, c_faults c ≠ [] → Q (with_output (c_out c) faults c) (Fail e)) → wp (send_bolt_message m) Q c.
Proof. unfold wp, send_bolt_message. destruct (c_faults c) as [|[e|] faults]; intros H1 H2; [by apply H1|by apply H2|by apply H1]. Qed.
Lemma bwp_attempt {A} (m : IO A) Q c :
  wp m (λ c r, match r with
    | Done a => Q c (Done (Ok a)) | Fail e => Q c (Done (Err e))
    | Waiting => Q c Waiting | Panicked => Q c Panicked | OutOfFuel => Q c OutOfFuel end) c → wp (attempt m) Q c.
Proof. unfold wp, attempt. destruct (m c) as [c' []]; done. Qed.
Lemma bwp_lift {A} (r : BoltResult A) Q c :
  (∀ a, r = Ok a → Q c (Done a)) → (∀ e, r = Err e → Q c (Fail e)) → wp (lift r) Q c.
Proof. destruct r; cbn; auto. Qed.
Lemma wp_wp {A} (m : IO A) Q c : wp m Q c → ∀ c' r, m c = (c', r) → Q c' r.
Proof. unfold wp. intros Hw c' r E. by rewrite E in Hw. Qed.
End wp.

(** One step of a handler. *)
Ltac wp_step :=
  lazymatch goal with
  | |- wp (_ ≫= _) _ _ => apply bwp_bind
  | |- wp (mret _) _ _ => apply bwp_ret
  | |- wp (gets _) _ _ => apply wp_gets
  | |- wp (modify _) _ _ => apply wp_modify
  | |- wp (set_session _) _ _ => apply wp_modify
  | |- wp (update_pending _) _ _ => apply wp_modify
  | |- wp (set_state _) _ _ => apply wp_modify
  | |- wp (throw _) _ _ => apply wp_throw
  | |- wp (io_timed_out _) _ _ => apply wp_throw
  | |- wp panic _ _ => apply wp_panic
  | |- wp (now _) _ _ => apply bwp_now
  | |- wp (fresh_ulid _) _ _ => apply wp_ulid
  | |- wp (svc _) _ _ => apply wp_svc; intros
  | |- wp (send_bolt_message _) _ _ => apply wp_send; intros
  | |- wp (send_bolt_success _) _ _ => apply wp_send; intros
  | |- wp (send_bolt_failure _) _ _ => apply wp_send; intros
  | |- wp (attempt _) _ _ => apply bwp_attempt
  | |- wp (lift _) _ _ => apply bwp_lift; intros
  | |- wp (lift_graph _ _ _) _ _ => apply bwp_lift; intros
  | |- through _ _ _ _ => cbn [through]
  end.

(** * What the loop keeps *)

Section kept.
Context {Svc Plan : Type} `{QueryService Svc Plan}.
Abbreviation conn := (Conn Svc Plan).
Abbreviation IO := (M Svc Plan).
Implicit Types (c : conn).

(** Laws of the service: a prepared query has a runtime limit, a page is no longer
    than was asked for. *)
Class QueryServiceLaws : Prop := {
  prepared_limit a r n s s' p : svc_prepare a r n s = (s', Ok p) → rq_max_runtime_ms (pq_request p) ≠ None;
  page_length a p cursor n s s' page :
    svc_execute a p cursor n s = (s', Ok page) → N.of_nat (length (pg_rows (cp_page page))) ≤ n }.

Definition received (ev : Event Svc) : Prop := match ev with Incoming (Some _) => True | _ => False end.
Global Instance received_dec ev : Decision (received ev).
Proof. destruct ev as [[]| | | | |]; cbn; apply _. Defined.
Definition recv (evs : list (Event Svc)) : nat := length (filter received evs).

(** An answer; a record is not one. *)
Definition summary (m : ServerMessage) : Prop := match m with Record_ _ => False | _ => True end.
Global Instance summary_dec m : Decision (summary m).
Proof. destruct m; cbn; apply _. Defined.
Definition answered (out : list ServerMessage) : nat := length (filter summary out).

(** Messages not yet received, received and waiting, and answered. *)
Definition load c : nat := (recv (c_script c) + length (c_queued c) + answered (c_out c))%nat.
Definition size c : nat := (length (c_script c) + length (c_queued c))%nat.

#[local] Arguments recv : simpl never.
#[local] Arguments answered : simpl never.

Lemma answered_snoc out m : summary m → answered (out ++ [m]) = S (answered out).
Proof. intros Hm. unfold answered. rewrite filter_app, length_app, filter_cons, decide_True by done. cbn. lia. Qed.
Lemma answered_record out vs : answered (out ++ [Record_ vs]) = answered out.
Proof. unfold answered. rewrite filter_app, length_app, filter_cons, decide_False by (cbn; tauto). cbn. lia. Qed.

Lemma recv_cons ev evs : recv (ev :: evs) = ((if decide (received ev) then 1 else 0) + recv evs)%nat.
Proof. unfold recv. rewrite filter_cons. by destruct (decide (received ev)). Qed.

Lemma await_from_spec (enabled : Event Svc → bool) evs s evs' s' ev :
  (∀ ev, received ev → enabled ev = true) → await_from enabled evs s = (evs', s', ev) →
  match ev with
  | Some ev => enabled ev = true ∧ ev ∈ evs ∧ (∀ x, x ∈ evs' → x ∈ evs) ∧ (length evs' < length evs)%nat ∧
               recv evs = ((if decide (received ev) then 1 else 0) + recv evs')%nat
  | None => evs' = []
  end.
Proof.
  intros Hen. revert s; induction evs as [|x evs IH]; intros s; cbn [await_from]; [by intros [= <- <- <-]|].
  assert (∀ s, await_from enabled evs s = (evs', s', ev) → ¬ received x →
    match ev with
    | Some ev => enabled ev = true ∧ ev ∈ x :: evs ∧ (∀ y, y ∈ evs' → y ∈ x :: evs) ∧ (length evs' < length (x :: evs))%nat ∧
               recv (x :: evs) = ((if decide (received ev) then 1 else 0) + recv evs')%nat
    | None => evs' = []
    end) as Hskip.
  { intros s0 E Hx. specialize (IH _ E). destruct ev as [ev|]; [|done].
    destruct IH as (H1 & H2 & H3 & H4 & H5). rewrite recv_cons, decide_False by done.
    split_and!; [done|by right|intros y Hy; right; by apply H3|cbn; lia|done]. }
  destruct x as [r| | | | |f];
    lazymatch goal with
    | |- context [if enabled ?y then _ else _] =>
        destruct (enabled y) eqn:En; [|intros E; apply (Hskip _ E); intros Hr; by rewrite (Hen _ Hr) in En];
        intros [= <- <- <-]; rewrite recv_cons; split_and!; [done|by left|intros; by right|cbn; lia|done]
    | _ => intros E; apply (Hskip _ E); cbn; tauto
    end.
Qed.

(** What others do to the service, as far as a property of it is concerned. *)
Definition stable (R : Svc → Prop) (evs : list (Event Svc)) : Prop :=
  ∀ f x, Elsewhere f ∈ evs → R x → R (f x).

Lemma await_from_stable (R : Svc → Prop) (enabled : Event Svc → bool) evs s evs' s' ev :
  stable R evs → R s → await_from enabled evs s = (evs', s', ev) → R s'.
Proof.
  revert s; induction evs as [|x evs IH]; intros s Hst Hs; cbn [await_from]; [by intros [= _ <- _]|].
  assert (stable R evs) as Hst' by (intros f y Hf; apply Hst; by right).
  destruct x;
    lazymatch goal with
    | |- context [if enabled ?y then _ else _] => destruct (enabled y); [by intros [= _ <- _]|]; intros E; by apply (IH s)
    | |- await_from enabled evs ?t = _ → _ => intros E; apply (IH t); [done| |done]; apply Hst; [by left|done]
    end.
Qed.

Lemma wp_await (enabled : Event Svc → bool) (Q : conn → outcome (Event Svc) → Prop) c :
  (∀ ev, received ev → enabled ev = true) →
  (∀ evs s ev, enabled ev = true → ev ∈ c_script c → (∀ x, x ∈ evs → x ∈ c_script c) →
     (length evs < length (c_script c))%nat →
     recv (c_script c) = ((if decide (received ev) then 1 else 0) + recv evs)%nat →
     (∀ R : Svc → Prop, stable R (c_script c) → R (c_svc c) → R s) →
     Q (with_script evs s c) (Done ev)) →
  (∀ s, (∀ R : Svc → Prop, stable R (c_script c) → R (c_svc c) → R s) → Q (with_script [] s c) Waiting) → wp (await enabled) Q c.
Proof.
  intros Hen H1 H2. unfold wp, await. destruct (await_from enabled (c_script c) (c_svc c)) as [[evs s] ev] eqn:E.
  assert (∀ R : Svc → Prop, stable R (c_script c) → R (c_svc c) → R s) as HR
    by (intros R HR1 HR2; by apply (await_from_stable R enabled (c_script c) (c_svc c) evs s ev)).
  apply (await_from_spec enabled) in E; [|done]. destruct ev as [ev|]; [|subst; by apply H2].
  destruct E as (?&?&?&?&?). by apply H1.
Qed.

Context (cfg : BoltConfig Svc).

(** The reason a message can go unanswered. *)
Definition queue_full : BoltError := ResourceExhausted "Bolt pipelined message queue is full".
Definition lost_reason c (e : BoltError) : Prop := e = queue_full ∨ Incoming (Some (Err e)) ∈ c_script c.

(** A wait leaves the protocol state and the session alone. *)
Record waited c c' : Prop := {
  wa_state : c_state c' = c_state c;
  wa_session : c_session c' = c_session c;
  wa_size : (size c' ≤ size c)%nat;
  wa_sub : ∀ x, x ∈ c_script c' → x ∈ c_script c;
  wa_script : (length (c_script c') ≤ length (c_script c))%nat;
  wa_faults : c_faults c = [] → c_faults c' = [];
  wa_out : c_out c `prefix_of` c_out c' }.

Lemma waited_refl c : waited c c.
Proof. split; done. Qed.
Lemma waited_trans c1 c2 c3 : waited c1 c2 → waited c2 c3 → waited c1 c3.
Proof. intros [] []. split; try congruence; try lia; auto. by etrans. Qed.

(** What a wait does to the load, when writes succeed. *)
Definition page_load c c' (r : outcome PageAwaitResult) : Prop :=
  match r with
  | Done (Complete _) => c_faults c = [] → load c' = load c
  | Done WasReset => c_faults c = [] → load c' = S (load c)
  | Fail e => c_faults c = [] → load c' = load c ∨ (S (load c') = load c ∧ lost_reason c e)
  | Done WasGoodbye | Waiting => True
  | Panicked | OutOfFuel => False
  end.

Lemma ignore_queued_spec n c :
  n = length (c_queued c) →
  wp (ignore_queued n) (λ c' r, waited c c' ∧ c_script c' = c_script c ∧
    match r with
    | Done _ => c_queued c' = [] ∧ answered (c_out c') = (answered (c_out c) + n)%nat
    | Fail _ => c_faults c ≠ [] | _ => False end) c.
Proof.
  revert c; induction n as [|n IH]; intros c Hn; cbn [ignore_queued].
  { wp_step. split; [apply waited_refl|]. split; [done|]. destruct (c_queued c); [|done]. split; [done|lia]. }
  destruct (c_queued c) as [|m q] eqn:Eq; [done|]. injection Hn as Hn.
  repeat wp_step.
  - eapply bwp_mono; [apply IH; cbn; by rewrite Eq|]. intros c' r (Hw & Hs & Hr). split; [|split; [done|]].
    + eapply waited_trans; [|exact Hw]. split; cbn; auto; [unfold size; cbn; rewrite Eq; cbn; lia|by apply prefix_app_r].
    + destruct r; try done.
      * destruct Hr as [-> ->]. split; [done|]. cbn. rewrite answered_snoc by done. lia.
      * intros Hf. apply Hr. cbn. auto.
  - split; [|done]. split; cbn; auto; [unfold size; cbn; rewrite Eq; cbn; lia|done].
Qed.

Lemma page_arm_received (ev : Event Svc) : received ev → page_arm ev = true.
Proof. by destruct ev as [[]| | | | |]. Qed.

(** The page comes from the task, run on a service others have left stable. *)
Definition from_task (task : Svc → Svc * Result ClientQueryPage) c c' (r : outcome PageAwaitResult) : Prop :=
  match r with
  | Done (Complete res) =>
      (length (c_script c') < length (c_script c))%nat ∧
      ∀ R : Svc → Prop, stable R (c_script c) → R (c_svc c) → ∃ s, R s ∧ task s = (c_svc c', res)
  | Done _ | Fail _ => (length (c_script c') < length (c_script c))%nat
  | _ => True
  end.

(** A wait after some waiting is a wait. *)
Lemma page_load_after c1 c2 c' r :
  waited c1 c2 → load c2 = load c1 → page_load c2 c' r → page_load c1 c' r.
Proof.
  intros Hw Hl. destruct r as [[page| |]|e| | |]; cbn; intros Hp; try done.
  - intros Hf. rewrite Hp by (by apply Hw). done.
  - intros Hf. rewrite Hp by (by apply Hw). by rewrite Hl.
  - intros Hf. destruct Hp as [Hp|[Hp Hr]]; [by apply Hw|left; congruence|right].
    split; [congruence|]. destruct Hr as [->|Hr]; [by left|right]. by apply (wa_sub _ _ Hw).
Qed.

Lemma await_bolt_page_spec fuel task auth scope query_id c :
  (length (c_script c) ≤ fuel)%nat →
  wp (await_bolt_page cfg fuel task auth scope query_id)
     (λ c' r, waited c c' ∧ page_load c c' r ∧ from_task task c c' r) c.
Proof.
  revert c; induction fuel as [|fuel IH]; intros c Hfuel; cbn [await_bolt_page]; apply bwp_bind;
    apply wp_await; try apply page_arm_received;
    [|intros s _; split; [split; cbn; auto; [unfold size; cbn; lia|set_solver|lia]|done]
     | |intros s _; split; [split; cbn; auto; [unfold size; cbn; lia|set_solver|lia]|done]];
    intros evs s ev Hen Hin Hsub Hlen Hrecv HR; [lia|]; cbn [through].
  set (c1 := with_script evs s c).
  assert (waited c c1) as Hw1 by (split; cbn; auto; [unfold size; cbn; lia|lia]).
  assert (recv (c_script c) = (if decide (received ev) then 1 else 0) + recv (c_script c1))%nat as Hr1 by done.
  assert (length (c_script c1) < length (c_script c))%nat as Hl1 by done.
  assert (c_queued c1 = c_queued c ∧ c_out c1 = c_out c) as [Hq1 Ho1] by done.
  assert (∀ R : Svc → Prop, stable R (c_script c) → R (c_svc c) → R (c_svc c1)) as HR1 by done.
  clearbody c1. clear Hlen Hrecv HR Hsub evs s.
  destruct ev as [[[m|e]|]| | | | |]; try discriminate Hen.
  - (* a message *)
    rewrite decide_True in Hr1 by done.
    assert (wp (queued ← gets c_queued;
                if (max_pipelined_messages cfg <=? length queued)%nat then throw queue_full
                else (modify (with_queued (queued ++ [m])) ;; await_bolt_page cfg fuel task auth scope query_id))
              (λ c' r, waited c c' ∧ page_load c c' r ∧ from_task task c c' r) c1) as Hother.
    { repeat wp_step. destruct (_ <=? _)%nat; repeat wp_step.
      - split; [done|]. split; [|done]. cbn. intros _. right. split; [|by left]. unfold load. rewrite Hq1, Ho1. lia.
      - set (c2 := with_queued (c_queued c1 ++ [m]) c1).
        assert (waited c c2) as Hw2.
        { destruct Hw1. split; cbn; auto. unfold size in *. cbn. rewrite length_app, Hq1. cbn. lia. }
        eapply bwp_mono; [apply IH; cbn; lia|]. intros c' r (Hw & Hp & Hl). split; [by eapply waited_trans|]. split.
        + eapply page_load_after; [exact Hw2| |exact Hp]. unfold load. cbn. rewrite length_app, Hq1, Ho1. cbn. lia.
        + destruct r as [[]| | | |]; try done; cbn in Hl |- *; try lia.
          destruct Hl as [Hl Ht]. split; [lia|]. intros R HR HRc. apply Ht; [|by apply HR1].
          intros f x Hf. apply HR. by apply (wa_sub _ _ Hw1). }
    destruct m; try exact Hother; clear Hother; repeat wp_step.
    + (* GOODBYE *) split; [|by split]. eapply waited_trans; [exact Hw1|]. by split.
    + (* RESET *)
      set (c2 := with_output (c_out (with_script (c_script c1) s c1) ++ [Ignored]) faults (with_script (c_script c1) s c1)).
      assert (waited c c2) as Hw2.
      { eapply waited_trans; [exact Hw1|]. split; cbn; auto. by apply prefix_app_r. }
      eapply bwp_mono; [by apply ignore_queued_spec|]. intros c3 r (Hw3 & Hs3 & Hr3).
      destruct r as [[]|e| | |]; try done; cbn [through].
      * destruct Hr3 as [Hq3 Ho3]. repeat wp_step.
        -- split; [|split; [|cbn; by rewrite Hs3]].
           ++ eapply waited_trans; [exact Hw2|]. eapply waited_trans; [exact Hw3|]. split; cbn; auto. by apply prefix_app_r.
           ++ cbn. intros _. unfold load. cbn. rewrite answered_snoc, Ho3, Hs3, Hq3 by done. unfold c2. cbn.
              rewrite answered_snoc, Ho1, Hq1 by done. cbn. lia.
        -- split; [|split; [|cbn; by rewrite Hs3]].
           ++ eapply waited_trans; [exact Hw2|]. eapply waited_trans; [exact Hw3|]. split; cbn; auto. done.
           ++ cbn. intros Hf. exfalso. by apply H2, (wa_faults _ _ Hw3), (wa_faults _ _ Hw2).
      * split; [by eapply waited_trans|]. split; [|cbn; by rewrite Hs3].
        cbn. intros Hf. exfalso. by apply Hr3, (wa_faults _ _ Hw2).
    + split; [|split; [|done]].
      * eapply waited_trans; [exact Hw1|]. split; cbn; auto. intros Hf. exfalso. by apply H1.
      * cbn. intros Hf. exfalso. apply H1, (wa_faults _ _ Hw1 Hf).
  - (* a message that does not decode *)
    rewrite decide_True in Hr1 by done. repeat wp_step. split; [done|]. split; [|done]. cbn. intros _. right.
    split; [unfold load; rewrite Hq1, Ho1; lia|by right].
  - (* the peer is gone *)
    repeat wp_step. split; [|by split]. eapply waited_trans; [exact Hw1|]. by split.
  - (* the page *)
    rewrite decide_False in Hr1 by (cbn; tauto). repeat wp_step.
    split; [|split].
    + eapply waited_trans; [exact Hw1|]. by split.
    + cbn. intros _. unfold load. cbn. rewrite Hq1, Ho1. lia.
    + split; [done|]. intros R HR HRc. exists (c_svc c1). split; [by apply HR1|done].
Qed.

(** ** Pages and records *)

Context (clock : nat → N) `{!QueryServiceLaws}.

Definition rows_of c : nat := match bs_pending (c_session c) with Some p => length (pd_rows p) | None => 0 end.
(** What bounds the turns of a PULL: the rows at hand, and for every event of the
    script a page. *)
Definition budget c : nat := (rows_of c + length (c_script c) * S (N.to_nat (prefetch_rows cfg)))%nat.

(** Streaming changes the pending result only. *)
Record calm c c' : Prop := {
  ca_state : c_state c' = c_state c;
  ca_auth : bs_authenticated (c_session c') = bs_authenticated (c_session c);
  ca_pending : is_Some (bs_pending (c_session c'));
  ca_size : (size c' ≤ size c)%nat;
  ca_sub : ∀ x, x ∈ c_script c' → x ∈ c_script c;
  ca_script : (length (c_script c') ≤ length (c_script c))%nat;
  ca_faults : c_faults c = [] → c_faults c' = [];
  ca_out : c_out c `prefix_of` c_out c' }.

Lemma calm_trans c1 c2 c3 : calm c1 c2 → calm c2 c3 → calm c1 c3.
Proof. intros [] []. split; try congruence; try lia; auto. by etrans. Qed.
Lemma waited_calm c c' : is_Some (bs_pending (c_session c)) → waited c c' → calm c c'.
Proof. intros Hp []. split; congruence || auto. Qed.
Lemma calm_load_after c1 c2 c' r :
  calm c1 c2 → (c_faults c1 = [] → load c2 = load c1) → page_load c2 c' r → page_load c1 c' r.
Proof.
  intros Hw Hl. destruct r as [[page| |]|e| | |]; cbn; intros Hp; try done; intros Hf; specialize (Hl Hf).
  - rewrite Hp by (by apply Hw). done.
  - rewrite Hp by (by apply Hw). by rewrite Hl.
  - destruct Hp as [Hp|[Hp Hr]]; [by apply Hw|left; congruence|right].
    split; [congruence|]. destruct Hr as [->|Hr]; [by left|right]. by apply (ca_sub _ _ Hw).
Qed.

(** Another pending result in the same connection. *)
Lemma calm_session c s :
  bs_authenticated s = bs_authenticated (c_session c) → is_Some (bs_pending s) → calm c (with_session s c).
Proof. intros. by split. Qed.

Lemma fetch_page_spec auth cursor n c p :
  bs_pending (c_session c) = Some p →
  wp (fetch_page clock cfg auth cursor n) (λ c' r, calm c c' ∧ page_load c c' r ∧
    (∃ p', bs_pending (c_session c') = Some p' ∧ pd_rows p' = pd_rows p) ∧
    match r with
    | Done (Complete (Ok page)) =>
        (length (c_script c') < length (c_script c))%nat ∧ N.of_nat (length (pg_rows (cp_page page))) ≤ n
    | _ => True
    end) c.
Proof.
  intros Hp. unfold fetch_page, update_pending, remaining_bolt_runtime_ms.
  repeat wp_step. cbn [c_session with_session set_pending bs_pending]. rewrite Hp. cbn [fmap option_fmap option_map].
  repeat wp_step. destruct (_ =? 0); repeat wp_step.
  { split; [by split|]. split; [cbn; by left|]. split; [by eexists|done]. }
  cbn [c_session with_session with_tick set_pending bs_pending fmap option_fmap option_map].
  set (prepared := MkPrepared _ _ _ _). set (c1 := with_session _ _).
  assert (calm c c1 ∧ load c1 = load c ∧ c_script c1 = c_script c ∧
    ∃ p1, bs_pending (c_session c1) = Some p1 ∧ pd_rows p1 = pd_rows p) as (Hcalm & Hload & Hs1 & p1 & Hp1 & Hr1).
  { split_and!; [by split|done|done|by eexists]. }
  clearbody c1. cbn [c_script with_session] in *.
  eapply bwp_mono; [by apply await_bolt_page_spec|]. intros c' r (Hw & Hl & Ht).
  assert (calm c1 c') as Hc' by (apply waited_calm; [by eexists|done]).
  split; [by eapply calm_trans|]. split; [by eapply calm_load_after|].
  split; [exists p1; by rewrite (wa_session _ _ Hw)|].
  destruct r as [[[page|e]| |]| | | |]; try done. destruct Ht as [Hlen Ht]. rewrite <- Hs1. split; [done|].
  destruct (Ht (λ _, True)) as (s & _ & Hex); [by intros ???|done|]. by eapply page_length.
Qed.

Lemma budget_page (k P a b : nat) : (k ≤ P → a < b → k + a * S P < b * S P)%nat.
Proof. intros. nia. Qed.

Definition consumed c : conn → outcome PageAwaitResult → Prop :=
  λ c' r, calm c c' ∧ page_load c c' r ∧ (budget c' ≤ budget c)%nat.

Lemma consumed_after c c1 (m : IO PageAwaitResult) :
  calm c c1 → (c_faults c = [] → load c1 = load c) → (budget c1 ≤ budget c)%nat → wp m (consumed c1) c1 → wp m (consumed c) c1.
Proof.
  intros Hc Hl Hb Hm. eapply bwp_mono; [exact Hm|]. intros c' r (Hc' & Hl' & Hb').
  split; [by eapply calm_trans|]. split; [by eapply calm_load_after|lia].
Qed.

(** A turn that fetches, given what the turns after it do. *)
Lemma fetch_branch_spec fuel auth count disposition remaining c p :
  (∀ c, is_Some (bs_pending (c_session c)) → (budget c < fuel)%nat →
     wp (consume_bolt_records clock cfg fuel auth count disposition remaining) (consumed c) c) →
  bs_pending (c_session c) = Some p → pd_rows p = [] → (budget c < S fuel)%nat →
  ∀ cursor next,
      wp (update_pending (λ p, MkPending (pd_database p) (pd_prepared p) (pd_deadline p) (pd_columns p)
            true (pd_pages p) (pd_rows p) (next p) (pd_bookmark p)) ;;
          awaited ← fetch_page clock cfg auth cursor
            (match count with None => prefetch_rows cfg | Some count => N.min (prefetch_rows cfg) (N.max count 1) end);
          match awaited with
          | Complete (Ok page) =>
              if negb (bool_decide (pg_columns (cp_page page) = pd_columns p))
              then mret (Complete (Err (CorruptValue "client/bolt/result_columns"
                                          "result columns changed between cursor pages")))
              else (update_pending (take_page page) ;; consume_bolt_records clock cfg fuel auth count disposition remaining)
          | outcome => mret outcome
          end) (consumed c) c.
Proof.
  intros IH Hp Erows Hfuel cursor next. repeat wp_step. cbn [c_session with_session set_pending bs_pending]. rewrite Hp.
  cbn [fmap option_fmap option_map].
  set (p1 := MkPending _ _ _ _ _ _ _ _ _). set (c1 := with_session _ c).
  assert (calm c c1 ∧ load c1 = load c ∧ budget c1 = budget c ∧ bs_pending (c_session c1) = Some p1 ∧ pd_rows p1 = [])
    as (Hc1 & Hl1 & Hb1 & Hp1 & Hr1).
  { split_and!; [by split|done| |done|done]. unfold budget, rows_of. cbn. by rewrite Hp. }
  clearbody c1 p1. eapply bwp_mono; [by apply (fetch_page_spec auth cursor _ c1 p1)|].
  intros c2 r (Hc2 & Hl2 & (p2 & Hp2 & Hr2) & Hpage).
  assert (consumed c c2 r) as Hdone.
  { split; [by eapply calm_trans|]. split; [by eapply calm_load_after|].
    unfold budget, rows_of in *. rewrite Hp2, Hr2, Hr1. rewrite Hp1, Hr1 in Hb1. rewrite <- Hb1.
    cbn [length]. pose proof (ca_script _ _ Hc2). nia. }
  destruct r as [[[page|e]| |]| | | |]; cbn [through]; repeat wp_step; try exact Hdone.
  destruct (negb _); repeat wp_step; [exact Hdone|].
  cbn [c_session with_session set_pending bs_pending]. rewrite Hp2. cbn [fmap option_fmap option_map].
  destruct Hpage as [Hlen Hrows].
  set (c3 := with_session _ c2).
  assert (S (budget c3) ≤ budget c)%nat as Hb3.
  { rewrite <- Hb1. unfold budget, rows_of. cbn. rewrite Hr2, Hr1, Hp1, Hr1. cbn.
    apply budget_page; [|exact Hlen]. destruct count; lia. }
  assert (is_Some (bs_pending (c_session c3))) as Hp3 by (by eexists).
  assert (calm c2 c3 ∧ load c3 = load c2) as [Hc3 Hl3] by (split; [by split|done]). clearbody c3.
  apply consumed_after; [| | |apply IH].
  - eapply calm_trans; [exact Hc1|]. by eapply calm_trans.
  - intros Hf. rewrite Hl3, <- Hl1. by apply Hl2, Hc1.
  - lia.
  - done.
  - lia.
Qed.

Lemma consume_bolt_records_spec fuel auth count disposition remaining c :
  is_Some (bs_pending (c_session c)) → (budget c < fuel)%nat →
  wp (consume_bolt_records clock cfg fuel auth count disposition remaining) (consumed c) c.
Proof.
  revert remaining c; induction fuel as [|fuel IH]; intros remaining c [p Hp] Hfuel; [lia|].
  cbn [consume_bolt_records]. wp_step. wp_step. cbn [through]. rewrite Hp.
  destruct (remaining =? 0). { repeat wp_step. split; [by split|by split]. }
  destruct (pd_rows p) as [|row rows] eqn:Erows.
  - pose proof (fetch_branch_spec fuel auth count disposition remaining c p (IH remaining) Hp Erows Hfuel) as Hfetch.
    destruct (pd_started p), (pd_next_cursor p) as [cursor|]; try apply Hfetch; repeat wp_step. split; [by split|by split].
  - repeat wp_step. cbn [c_session with_session set_pending bs_pending]. rewrite Hp. cbn [fmap option_fmap option_map].
    set (c1 := with_session _ c).
    assert (calm c c1 ∧ load c1 = load c ∧ S (budget c1) = budget c ∧ is_Some (bs_pending (c_session c1)))
      as (Hc1 & Hl1 & Hb1 & Hp1).
    { split_and!; [by split|done| |by eexists]. unfold budget, rows_of. cbn. rewrite Hp, Erows. cbn. lia. }
    clearbody c1. destruct disposition; [destruct (collect _ _) as [values|e]|]; repeat wp_step.
    + apply (consumed_after c); [| | |apply IH]; cbn; try done; unfold budget, rows_of in *; cbn; try lia.
      * eapply calm_trans; [exact Hc1|]. split; cbn; auto. by apply prefix_app_r.
      * unfold load in *. cbn. by rewrite answered_record.
    + split; [|split; [|unfold budget, rows_of in *; cbn; lia]].
      * eapply calm_trans; [exact Hc1|]. split; cbn; auto; try done.
      * cbn. intros Hf. exfalso. by apply H1, (ca_faults _ _ Hc1).
    + split; [done|]. split; [|lia]. cbn. by left.
    + apply (consumed_after c); [done|done|lia|apply IH; [done|lia]].
Qed.

(** * Handlers *)

(** A session the service granted to somebody's credentials. *)
Definition granted (a : ClientQuerySession) : Prop := ∃ credentials x y, svc_authenticate credentials x = (y, Ok a).

(** The state machine. *)
Definition conn_ok c : Prop :=
  (∀ a, bs_authenticated (c_session c) = Some a → granted a) ∧
  match c_state c with
  | Negotiation | Authenticating => bs_authenticated (c_session c) = None ∧ bs_pending (c_session c) = None
  | Ready => is_Some (bs_authenticated (c_session c)) ∧ bs_pending (c_session c) = None
  | Streaming => is_Some (bs_authenticated (c_session c)) ∧ is_Some (bs_pending (c_session c))
  | Failed => is_Some (bs_pending (c_session c)) → is_Some (bs_authenticated (c_session c))
  end.

Record kept c c' : Prop := {
  kp_ok : conn_ok c';
  kp_budget : (budget c' ≤ budget c)%nat;
  kp_size : (size c' ≤ size c)%nat;
  kp_sub : ∀ x, x ∈ c_script c' → x ∈ c_script c;
  kp_out : c_out c `prefix_of` c_out c';
  kp_faults : c_faults c = [] → c_faults c' = [] }.

(** The last thing sent since is a failure. *)
Definition newly_failed c c' (e : BoltError) : Prop := ∃ out, c_out c' = out ++ [Failure e] ∧ c_out c `prefix_of` out.

(** A message is handled: one answer more, unless a wait lost a message. *)
Definition handled c c' (r : outcome flow) : Prop :=
  match r with
  | Done Continue =>
      kept c c' ∧ (c_faults c = [] →
        load c' = S (load c) ∨ (load c' = load c ∧ ∃ e, lost_reason c e ∧ newly_failed c c' e))
  | Panicked | OutOfFuel => False
  | _ => True
  end.
(** The usual case. *)
Definition replied c c' (r : outcome flow) : Prop :=
  match r with
  | Done Continue => kept c c' ∧ load c' = S (load c)
  | Panicked | OutOfFuel => False
  | _ => True
  end.
Lemma replied_handled c (m : IO flow) : wp m (replied c) c → wp m (handled c) c.
Proof. intros Hm. eapply bwp_mono; [exact Hm|]. intros c' [[]| | | |]; cbn; try done. intros [? ?]. split; [done|by left]. Qed.

Lemma wp_clear Q c :
  (∀ s, Q (with_script (c_script c) s (with_session (set_pending None (c_session c)) c)) (Done tt)) →
  wp clear_pending_result Q c.
Proof.
  intros HQ. unfold clear_pending_result. wp_step. wp_step. cbn [through].
  destruct (bs_pending (c_session c)) as [p|] eqn:Ep.
  - repeat wp_step. destruct (bs_authenticated _), (pd_next_cursor p); repeat wp_step; try (specialize (HQ (c_svc c)); exact HQ).
    destruct a. apply HQ.
  - repeat wp_step. specialize (HQ (c_svc c)). unfold set_pending in HQ.
    destruct c as [? ? ? [? ? ? ? ?]]. cbn in *. by subst.
Qed.

Lemma kept_plain c c' :
  conn_ok c' → c_script c' = c_script c → c_queued c' = c_queued c → (rows_of c' ≤ rows_of c)%nat →
  (∃ m, c_out c' = c_out c ++ [m] ∧ summary m) → (c_faults c = [] → c_faults c' = []) →
  replied c c' (Done Continue).
Proof.
  intros Hok Hs Hq Hr (m & Ho & Hm) Hf. split.
  - split; [done|unfold budget; rewrite Hs; lia|unfold size; by rewrite Hs, Hq|by rewrite Hs|rewrite Ho; by apply prefix_app_r|done].
  - unfold load. rewrite Hs, Hq, Ho, answered_snoc by done. lia.
Qed.

Context (ulid : nat → string) (value_eq : BoltValue → BoltValue → bool).
Context (slate_text : SlateErrorKind → string) (debug_duration : N → string).
Context (resolve_database : option string → Result ClientQueryTarget).

Ltac leaf := apply kept_plain; [|done|done| |by eexists|auto].

Lemma on_hello_replied c : conn_ok c → c_state c = Negotiation → wp (on_hello cfg) (replied c) c.
Proof.
  intros [Hg Hok] Hst. rewrite Hst in Hok. unfold on_hello. repeat wp_step; [|done].
  leaf; [by split|done].
Qed.

Lemma on_logon_replied auth c : conn_ok c → c_state c = Authenticating → wp (on_logon auth) (replied c) c.
Proof.
  intros [Hg Hok] Hst. rewrite Hst in Hok. unfold on_logon.
  destruct (bolt_client_credentials auth) as [credentials|e]; repeat wp_step; try done.
  destruct a as [a|e]; repeat wp_step; try done.
  leaf; [|done]. split; cbn; [|destruct Hok as [_ ->]; by eauto]. intros b [= <-]. by do 3 eexists.
Qed.

Lemma on_reset_replied c : conn_ok c → (c_state c = Ready ∨ c_state c = Streaming) → wp on_reset (replied c) c.
Proof.
  intros [Hg Hok] Hst. unfold on_reset. wp_step. apply wp_clear. intros s. repeat wp_step; [|done].
  leaf; [|cbn; unfold rows_of; cbn; lia]. split; cbn; [done|]. by destruct Hst as [Hst|Hst]; rewrite Hst in Hok; destruct Hok.
Qed.

Lemma on_logoff_replied c : conn_ok c → c_state c = Ready → wp (on_logoff clock cfg) (replied c) c.
Proof.
  intros [Hg Hok] Hst. unfold on_logoff. wp_step. apply wp_clear. intros s. repeat wp_step; [|done].
  leaf; [|cbn; unfold rows_of; cbn; lia]. by split.
Qed.

Lemma on_failed_replied m c : conn_ok c → c_state c = Failed → wp (on_failed m) (replied c) c.
Proof.
  intros [Hg Hok] Hst. rewrite Hst in Hok. unfold on_failed. destruct m; repeat wp_step; try done.
  all: try (leaf; [split; [done|]; cbn; by rewrite Hst|done]).
  - apply wp_clear. intros s. repeat wp_step. done.
  - apply wp_clear. intros s. repeat wp_step; [|done].
    leaf; [|cbn; unfold rows_of; cbn; lia]. split; cbn; [done|]. by destruct (bs_authenticated _).
Qed.

(** In every state a refusal is fit. *)
Lemma refusable c : conn_ok c → is_Some (bs_authenticated (c_session c)) ∨ bs_pending (c_session c) = None.
Proof.
  intros [_ Hm]. destruct (bs_pending (c_session c)) as [p|]; [left|by right].
  destruct (c_state c); try apply Hm; [destruct Hm as [_ [=]]..|by eexists].
Qed.

Lemma refuse_replied e c : conn_ok c → is_Some (bs_authenticated (c_session c)) ∨ bs_pending (c_session c) = None →
  wp (refuse e) (replied c) c.
Proof.
  intros [Hg _] Hp. unfold refuse. repeat wp_step; [|done]. leaf; [|done]. split; cbn; [done|].
  intros [p Hs]. destruct Hp as [?|Hp]; [done|congruence].
Qed.

(** Preparing a request changes the service, the clock and the query counter. *)
Record prepared_by c c' : Prop := {
  pb_state : c_state c' = c_state c;
  pb_auth : bs_authenticated (c_session c') = bs_authenticated (c_session c);
  pb_pending : bs_pending (c_session c') = bs_pending (c_session c);
  pb_script : c_script c' = c_script c;
  pb_queued : c_queued c' = c_queued c;
  pb_out : c_out c' = c_out c;
  pb_faults : c_faults c' = c_faults c }.

Lemma prepared_ok c c' : prepared_by c c' → conn_ok c → conn_ok c'.
Proof. intros [] [Hg Hok]. split; [intros a; rewrite pb_auth0; apply Hg|]. rewrite pb_state0, pb_auth0, pb_pending0. done. Qed.
Lemma prepared_replied c c' c2 r : prepared_by c c' → replied c' c2 r → replied c c2 r.
Proof.
  intros [] . destruct r as [[]| | | |]; cbn; try done. intros [[] Hl].
  assert (budget c' = budget c ∧ size c' = size c ∧ load c' = load c) as (Hb & Hsz & Hld).
  { unfold budget, rows_of, size, load. by rewrite pb_pending0, pb_script0, pb_queued0, pb_out0. }
  split; [|congruence]. split; [done|lia|lia|by rewrite <- pb_script0|by rewrite <- pb_out0|by rewrite <- pb_faults0].
Qed.

Lemma prepare_bolt_run_spec query parameters extra c :
  wp (prepare_bolt_run ulid value_eq slate_text debug_duration resolve_database cfg query parameters extra)
    (λ c' r, prepared_by c c' ∧ match r with Done _ | Fail _ => True | _ => False end) c.
Proof.
  unfold prepare_bolt_run. repeat wp_step; try by split.
  destruct a0 as [database target], (next_query_id (c_session c)) as [s query_id] eqn:E.
  injection E as <- <-. repeat wp_step; by split.
Qed.

Lemma prepare_bolt_route_spec bookmarks extra c :
  wp (prepare_bolt_route slate_text debug_duration resolve_database cfg bookmarks extra)
    (λ c' r, prepared_by c c' ∧ match r with Done _ | Fail _ => True | _ => False end) c.
Proof.
  unfold prepare_bolt_route. repeat wp_step; try by split.
  destruct (contains_key _ _); repeat wp_step; try by split.
  destruct a4 as [bookmark|]; repeat wp_step; try by split.
  all: destruct (routing_table_provider cfg); repeat wp_step; try by split.
  all: case_bool_decide; repeat wp_step; by split.
Qed.

Lemma on_route_replied bookmarks extra c : conn_ok c → c_state c = Ready →
  wp (on_route slate_text debug_duration resolve_database cfg bookmarks extra) (replied c) c.
Proof.
  intros Hok Hst. unfold on_route. wp_step. wp_step. eapply bwp_mono; [apply prepare_bolt_route_spec|].
  intros c' r [Hc Hr]. pose proof (prepared_ok _ _ Hc Hok) as Hok'.
  assert (is_Some (bs_authenticated (c_session c'))) as Ha.
  { rewrite (pb_auth _ _ Hc). destruct Hok as [_ Hok]. rewrite Hst in Hok. apply Hok. }
  destruct r as [table|e| | |]; try done; cbn [through].
  - repeat wp_step; [|done]. apply (prepared_replied c c'); [done|]. leaf; [|done].
    destruct Hok' as [Hg Hm]. split; [done|exact Hm].
  - eapply bwp_mono; [apply refuse_replied; [done|by left]|]. intros c2 r2. by apply prepared_replied.
Qed.

Lemma on_run_replied query parameters extra c : conn_ok c → c_state c = Ready →
  wp (on_run clock ulid value_eq slate_text debug_duration resolve_database cfg query parameters extra) (replied c) c.
Proof.
  intros Hok Hst. unfold on_run. wp_step. wp_step. eapply bwp_mono; [apply prepare_bolt_run_spec|].
  intros c' r [Hc Hr]. pose proof (prepared_ok _ _ Hc Hok) as Hok'.
  assert (is_Some (bs_authenticated (c_session c'))) as Ha.
  { rewrite (pb_auth _ _ Hc). destruct Hok as [_ Hok]. rewrite Hst in Hok. apply Hok. }
  destruct r as [[[auth database] request]|e| | |]; try done; cbn [through].
  2: { eapply bwp_mono; [apply refuse_replied; [done|by left]|]. intros c2 r2. by apply prepared_replied. }
  repeat wp_step. set (c1 := with_script _ _ c'). 
  assert (prepared_by c c1) as Hc1 by (by destruct Hc; split).
  assert (conn_ok c1 ∧ is_Some (bs_authenticated (c_session c1))) as [Hok1 Ha1] by done. clearbody c1.
  destruct a as [prepared|e].
  2: { eapply bwp_mono; [apply refuse_replied; [done|by left]|]. intros c2 r2. by apply prepared_replied. }
  repeat wp_step. destruct (rq_max_runtime_ms _) as [max_runtime_ms|] eqn:Em.
  2: { exfalso. by eapply prepared_limit. }
  repeat wp_step; [|done]. apply (prepared_replied c c1); [done|]. leaf; [|cbn; unfold rows_of; cbn; lia].
  destruct Hok1 as [Hg _]. split; cbn; [done|]. by split; [|eexists].
Qed.

Lemma calm_handled c c' (m : IO flow) :
  calm c c' → (budget c' ≤ budget c)%nat →
  wp m (λ c2 r, match r with
    | Done Continue => conn_ok c2 ∧ (budget c2 ≤ budget c')%nat ∧ c_script c2 = c_script c' ∧ c_queued c2 = c_queued c' ∧
        (c_faults c' = [] → c_faults c2 = []) ∧ c_out c' `prefix_of` c_out c2 ∧
        (c_faults c = [] → load c2 = S (load c) ∨ (load c2 = load c ∧ ∃ e, lost_reason c e ∧ newly_failed c c2 e))
    | Panicked | OutOfFuel => False | _ => True end) c' → wp m (handled c) c'.
Proof.
  intros Hc Hb Hm. eapply bwp_mono; [exact Hm|]. intros c2 [[]| | | |]; try done. cbn.
  intros (Hok & Hb2 & Hs & Hq & Hf & Ho & Hl). split; [|done].
  pose proof (ca_size _ _ Hc) as Hsz. unfold size in Hsz.
  split; [done|lia|unfold size; rewrite Hs, Hq; lia|rewrite Hs; apply Hc|etrans; [apply Hc|done]|].
  intros H1. by apply Hf, Hc.
Qed.

Lemma on_stream_handled operation disposition fuel extra c :
  conn_ok c → c_state c = Streaming → (budget c < fuel)%nat →
  wp (on_stream clock slate_text debug_duration cfg operation disposition fuel extra) (handled c) c.
Proof.
  intros Hok Hst Hfuel. pose proof Hok as [Hg Hm]. rewrite Hst in Hm. destruct Hm as [Ha Hp].
  unfold on_stream. destruct (bolt_stream_count extra operation) as [count|e].
  2: { apply replied_handled, refuse_replied; [done|by left]. }
  repeat wp_step. destruct (authenticated (c_session c)) as [auth|e].
  2: { apply replied_handled, refuse_replied; [done|by left]. }
  destruct (bs_pending (c_session c)) as [p|] eqn:Ep; [|by destruct Hp].
  repeat wp_step. eapply bwp_mono; [by apply consume_bolt_records_spec|].
  intros c' r (Hc & Hl & Hb).
  assert (∀ a, bs_authenticated (c_session c') = Some a → granted a) as Hg' by (intros a; rewrite (ca_auth _ _ Hc); apply Hg).
  assert (is_Some (bs_authenticated (c_session c'))) as Ha' by (by rewrite (ca_auth _ _ Hc)).
  assert (rows_of c' ≤ budget c')%nat as Hrows by (unfold budget; lia).
  assert (∀ s x, (budget (with_script (c_script c') s (with_session (set_pending None x) c')) ≤ budget c')%nat) as Hclear
    by (intros; unfold budget, rows_of; cbn; lia).
  destruct r as [[[page|e]| |]|e| | |]; try done; cbn [through].
  all: apply (calm_handled c c'); [done|done|]. 
  - (* a summary *)
    repeat wp_step. destruct (bs_pending (c_session c')) as [p'|] eqn:Ep'; [|by destruct (ca_pending _ _ Hc) as [? ?]; congruence].
    repeat wp_step; [|done].
    assert (c_faults c = [] → load (with_output (c_out c' ++ [Success (bolt_result_summary_metadata p'
      (negb (bool_decide (pd_rows p' = [])) || negb (bool_decide (pd_next_cursor p' = None))))]) faults c') = S (load c)) as Hload.
    { intros Hf. cbn in Hl. rewrite <- (Hl Hf). unfold load. cbn. rewrite answered_snoc by done. lia. }
    destruct (negb _ || negb _).
    + repeat wp_step. split_and!; try done; [|by apply prefix_app_r|left; by apply Hload].
      split; cbn; [done|]. rewrite (ca_state _ _ Hc), Hst. split; [done|]. by apply Hc.
    + wp_step. apply wp_clear. intros s. repeat wp_step. split_and!; try done; [exact (Hclear s (c_session c'))|by apply prefix_app_r|left; by apply Hload].
  - repeat wp_step; [|done]. apply wp_clear. intros s. repeat wp_step.
    split_and!; try done; [split; [exact Hg'|cbn; intros _; exact Ha']|exact (Hclear s (c_session c'))|by apply prefix_app_r|].
    intros Hf. left. cbn in Hl. rewrite <- (Hl Hf). unfold load. cbn. rewrite answered_snoc by done. lia.
  - wp_step. apply wp_clear. intros s. repeat wp_step. split_and!; try done; [exact (Hclear s (c_session c'))|].
    intros Hf. left. cbn in Hl. rewrite <- (Hl Hf). done.
  - repeat wp_step; [|done]. apply wp_clear. intros s. repeat wp_step.
    split_and!; try done; [split; [exact Hg'|cbn; intros _; exact Ha']|exact (Hclear s (c_session c'))|by apply prefix_app_r|].
    intros Hf. cbn in Hl. destruct (Hl Hf) as [Hl'|[Hl' Hr]]; [left|right]; unfold load in *; cbn; rewrite answered_snoc by done.
    + lia.
    + split; [lia|]. exists e. split; [done|]. exists (c_out c'). split; [done|]. apply Hc.
Qed.

Lemma handle_handled fuel m c : conn_ok c → (budget c < fuel)%nat →
  wp (handle clock ulid value_eq slate_text debug_duration resolve_database cfg fuel m) (handled c) c.
Proof.
  intros Hok Hfuel. unfold handle. wp_step. wp_step. cbn [through].
  assert (∀ e, wp (refuse e) (handled c) c) as Hrefuse
    by (intros e; apply replied_handled, refuse_replied, refusable; done).
  assert (wp (clear_pending_result ;; mret Break) (handled c) c) as Hbye
    by (wp_step; apply wp_clear; intros s; by repeat wp_step).
  destruct (c_state c) eqn:Est; [| | | |by apply replied_handled, on_failed_replied].
  all: destruct m; try (by apply Hrefuse); try exact Hbye.
  - by apply replied_handled, on_hello_replied.
  - by apply replied_handled, on_logon_replied.
  - by apply replied_handled, on_logoff_replied.
  - apply replied_handled, on_reset_replied; [done|by left].
  - by apply replied_handled, on_run_replied.
  - by apply replied_handled, on_route_replied.
  - apply replied_handled. repeat wp_step; [|done]. leaf; [|done].
    destruct Hok as [Hg Hok]. split; [done|]. exact Hok.
  - apply replied_handled, on_reset_replied; [done|by right].
  - by apply on_stream_handled.
  - by apply on_stream_handled.
Qed.

(** * Turns *)

Lemma next_message_spec b c :
  wp (next_message b) (λ c' r, match r with
    | Done (Some _) =>
        c_state c' = c_state c ∧ c_session c' = c_session c ∧ c_out c' = c_out c ∧ c_faults c' = c_faults c ∧
        (size c' < size c)%nat ∧ (length (c_script c') ≤ length (c_script c))%nat ∧ (∀ x, x ∈ c_script c' → x ∈ c_script c) ∧ S (load c') = load c
    | Panicked | OutOfFuel => False | _ => True end) c.
Proof.
  unfold next_message. wp_step. wp_step. cbn [through]. destruct (c_queued c) as [|m q] eqn:Eq.
  - wp_step. apply wp_await; [by intros [[]| | | | |]| |done].
    intros evs s ev Hen Hin Hsub Hlen Hrecv _. cbn [through].
    destruct ev as [[r|]| | | | |]; repeat wp_step; try done.
    rewrite decide_True in Hrecv by done. cbn. split_and!; try done; try lia; unfold size, load; cbn; rewrite ?Eq; cbn; lia.
  - repeat wp_step. cbn. split_and!; try done; unfold size, load; cbn; rewrite ?Eq; cbn; lia.
Qed.

(** A turn of the loop: every message taken is answered, or one is lost. *)
Definition turned c c' (r : outcome flow) : Prop :=
  match r with
  | Done Continue =>
      kept c c' ∧ (size c' < size c)%nat ∧ (c_faults c = [] →
        load c' = load c ∨ (S (load c') = load c ∧ ∃ e, lost_reason c e ∧ newly_failed c c' e))
  | Panicked | OutOfFuel => False
  | _ => True
  end.

Abbreviation the_turn := (turn clock ulid value_eq slate_text debug_duration resolve_database cfg).
Abbreviation the_loop := (protocol_loop clock ulid value_eq slate_text debug_duration resolve_database cfg).

Lemma turn_turned fuel c : conn_ok c → (budget c < fuel)%nat → wp (the_turn fuel) (turned c) c.
Proof.
  intros Hok Hfuel. unfold turn. repeat wp_step. unfold id. destruct (_ <=? _); [done|].
  destruct (negb _ && _); [done|].
  wp_step. set (c0 := with_tick c). eapply bwp_mono; [apply next_message_spec|]. intros c1 r Hr.
  destruct r as [[r|]|e| | |]; try done; cbn [through].
  destruct Hr as (H1 & H2 & H3 & H4 & H5 & H6 & H7 & H8).
  change (c_state c1 = c_state c) in H1. change (c_session c1 = c_session c) in H2. change (c_out c1 = c_out c) in H3.
  change (c_faults c1 = c_faults c) in H4. change (size c1 < size c)%nat in H5.
  change (length (c_script c1) ≤ length (c_script c))%nat in H6. change (S (load c1) = load c) in H8.
  assert (conn_ok c1) as Hok1.
  { destruct Hok as [Hg Hm]. split; rewrite H2; [done|by rewrite H1]. }
  assert (budget c1 ≤ budget c)%nat as Hb by (unfold budget, rows_of; rewrite H2; nia).
  assert (wp (match r with Ok message => handle clock ulid value_eq slate_text debug_duration resolve_database cfg fuel message
              | Err error => refuse error end) (handled c1) c1) as Hm.
  { destruct r as [m|e]; [apply handle_handled; [done|lia]|]. apply replied_handled, refuse_replied; [done|].
    by apply refusable. }
  eapply bwp_mono; [destruct r; exact Hm|]. intros c2 [[]| | | |]; try done. cbn. intros [[] Hl]. split_and!.
  - split; [done|lia|lia|intros x Hx; by apply H7, kp_sub0|by rewrite <- H3|by rewrite <- H4].
  - lia.
  - rewrite H4 in Hl. intros Hf. destruct (Hl Hf) as [Hl'|(Hl' & e & He & Hlast)]; [left; lia|right].
    split; [lia|]. exists e. split; [|by unfold newly_failed in *; rewrite H3 in Hlast]. destruct He as [->|He]; [by left|right]. by apply H7.
Qed.

(** * Runs *)

(** The connection goes on from one turn to the next. *)
Definition goes_on fuel c c' : Prop := the_turn fuel c = (c', Done Continue).

Lemma turn_cases fuel c : conn_ok c → (budget c < fuel)%nat → ∀ c' r, the_turn fuel c = (c', r) → turned c c' r.
Proof. intros Hok Hf. by apply (wp_wp (the_turn fuel)), turn_turned. Qed.

Lemma run_kept fuel c c' :
  conn_ok c → (budget c < fuel)%nat → rtc (goes_on fuel) c c' → kept c c'.
Proof.
  intros Hok Hf Hrun. induction Hrun as [c|c c1 c2 Hturn _ IH]; [by split|].
  apply turn_cases in Hturn as (Hk & Hsz & _); [|done..]. destruct Hk.
  destruct IH; [done|lia|]. split; [done|lia|lia|auto|by etrans|auto].
Qed.

(** Failures among the answers. *)
Definition is_failure (m : ServerMessage) : Prop := match m with Failure _ => True | _ => False end.
#[local] Instance is_failure_dec m : Decision (is_failure m).
Proof. destruct m; cbn; apply _. Defined.
Definition failures (out : list ServerMessage) : nat := length (filter is_failure out).

Lemma failures_mono out out' : out `prefix_of` out' → (failures out ≤ failures out')%nat.
Proof. intros [k ->]. unfold failures. rewrite filter_app, length_app. lia. Qed.
Lemma failures_new c c' e : newly_failed c c' e → (failures (c_out c) < failures (c_out c'))%nat ∧ Failure e ∈ c_out c'.
Proof.
  intros (out & -> & Hp). apply failures_mono in Hp. split; [|set_solver].
  unfold failures in *. rewrite filter_app, length_app, filter_cons, decide_True by done. cbn. lia.
Qed.

(** Every message is answered once, but for those a wait lost. *)
Lemma run_load fuel c c' :
  conn_ok c → (budget c < fuel)%nat → c_faults c = [] → rtc (goes_on fuel) c c' →
  ∃ lost, (load c' + lost = load c ∧ failures (c_out c) + lost ≤ failures (c_out c'))%nat ∧
          (lost = 0%nat ∨ ∃ e, lost_reason c e ∧ Failure e ∈ c_out c').
Proof.
  intros Hok Hf Hw Hrun. induction Hrun as [c|c c1 c2 Hturn Hrun IH].
  { exists 0%nat. split; [lia|by left]. }
  apply turn_cases in Hturn as (Hk & Hsz & Hload); [|done..]. pose proof Hk as Hk'. destruct Hk'.
  assert (kept c1 c2) as Hk2 by (apply (run_kept fuel); [done|lia|done]).
  destruct IH as (lost & Hl & Hwhy); [done|lia|auto|]. specialize (Hload Hw).
  assert (lost = 0%nat ∨ ∃ e, lost_reason c e ∧ Failure e ∈ c_out c2) as Hwhy'.
  { destruct Hwhy as [->|(e & He & Hin)]; [by left|right; exists e; split; [|done]]. destruct He as [->|He]; [by left|right; auto]. }
  destruct Hload as [Hload|(Hload & e & He & Hlast)].
  - exists lost. pose proof (failures_mono _ _ kp_out0). split; [lia|done].
  - exists (S lost). apply failures_new in Hlast as [Hfl Hin]. destruct Hk2. pose proof (failures_mono _ _ kp_out1).
    split; [lia|]. right. exists e. split; [done|]. destruct kp_out1 as [k ->]. apply elem_of_app. by left.
Qed.

Definition ended {A} (r : outcome A) : Prop := r ≠ Panicked ∧ r ≠ OutOfFuel.

Lemma loop_ends turns fuel c :
  conn_ok c → (budget c < fuel)%nat → (size c < turns)%nat → wp (the_loop turns fuel) (λ _ r, ended r) c.
Proof.
  revert c; induction turns as [|turns IH]; intros c Hok Hf Ht; [lia|]. cbn [protocol_loop].
  wp_step. eapply bwp_mono; [by apply turn_turned|]. intros c' [[]| | | |]; cbn [through]; try done.
  intros (Hk & Hsz & _). destruct Hk. apply IH; [done|lia|lia].
Qed.

(** A connection that has just been opened. *)
Abbreviation opened := (open_connection (Plan := Plan) cfg).

Lemma opened_ok number started deadline script faults s : conn_ok (opened number started deadline script faults s).
Proof. by split. Qed.
Lemma opened_load number started deadline script faults s :
  load (opened number started deadline script faults s) = recv script.
Proof. unfold load. change (recv script + 0 + 0 = recv script)%nat. lia. Qed.

(** C27: whatever the peer sends, and whatever the service, the clock and the
    socket do, a connection keeps its state machine: in Negotiation and
    Authenticating there is no session and no pending result, in Ready a session
    and no result, in Streaming both, a failed connection has a result only with a
    session, and every session is one the service granted to some credentials; and
    the loop comes to an end of its own, without a panic, once per event at most. *)
Theorem bolt_session_safe turns fuel number started deadline script faults s :
  (length script < turns)%nat → (length script * S (N.to_nat (prefetch_rows cfg)) < fuel)%nat →
  (∀ c, rtc (goes_on fuel) (opened number started deadline script faults s) c → conn_ok c) ∧
  ended (run_bolt_protocol clock ulid value_eq slate_text debug_duration resolve_database cfg turns fuel
           (opened number started deadline script faults s)).2.
Proof.
  intros Ht Hf. split.
  - intros c Hrun. apply (run_kept fuel _ _ (opened_ok _ _ _ _ _ _) Hf Hrun).
  - set (c := opened _ _ _ _ _ _). assert (wp (run_bolt_protocol clock ulid value_eq slate_text debug_duration resolve_database cfg turns fuel) (λ _ r, ended r) c) as Hw.
    { unfold run_bolt_protocol. wp_step. eapply bwp_mono; [apply loop_ends; [apply opened_ok|done|unfold size; cbn; lia]|].
      intros c' [[]|e| | |] [H1 H2]; cbn [through]; try done. by apply wp_clear. }
    unfold wp in Hw. by destruct (run_bolt_protocol _ _ _ _ _ _ _ _ _ _).
Qed.

(** C28: while writes succeed and a connection goes on, every message received is
    answered by exactly one SUCCESS, FAILURE or IGNORED or still waits in the
    queue, except that each message lost costs one FAILURE more of those sent; one
    is lost only to a full pipeline queue or an undecodable message, and then the
    connection has reported that. *)
Theorem bolt_answers_once fuel number started deadline script s c :
  (length script * S (N.to_nat (prefetch_rows cfg)) < fuel)%nat →
  rtc (goes_on fuel) (opened number started deadline script [] s) c →
  ∃ lost, (recv script = recv (c_script c) + length (c_queued c) + answered (c_out c) + lost ∧
           lost ≤ failures (c_out c))%nat ∧
    (lost = 0%nat ∨ ∃ e, (e = queue_full ∨ Incoming (Some (Err e)) ∈ script) ∧ Failure e ∈ c_out c).
Proof.
  intros Hf Hrun. destruct (run_load fuel _ _ (opened_ok _ _ _ _ _ _) Hf eq_refl Hrun) as (lost & [Hl Hn] & Hwhy).
  exists lost. rewrite opened_load in Hl. cbn in Hn. unfold load in Hl. split; [lia|exact Hwhy].
Qed.
End kept.
