(* ===== verification/BoltAccess.v ===== *)
(** The Bolt connection at its edges: what a peer nobody vouches for can do, and
    what happens to a message the pipeline queue has no room for; with a small
    service on which the theorems about connections are applied. *)

From S2P Require Import Prelude Text Errors Model Namespace QueryData Client ClientNames BoltWire BoltValues BoltRequest BoltRouting BoltSession BoltSessionFacts.

Local Open Scope N_scope.

Import client bolt values request routing session.

(** * A peer without credentials *)

Section access.
Context {Svc Plan : Type} `{QueryService Svc Plan}.
Context (clock : nat → N) (ulid : nat → string) (value_eq : BoltValue → BoltValue → bool).
Context (slate_text : SlateErrorKind → string) (debug_duration : N → string).
Context (resolve_database : option string → Result ClientQueryTarget) (cfg : BoltConfig Svc).
Abbreviation conn := (Conn Svc Plan).
Abbreviation IO := (M Svc Plan).
Implicit Types (c : conn).

(** None of the peer's LOGONs carries credentials the service accepts. *)
Definition uninvited (script : list (Event Svc)) : Prop :=
  ∀ auth credentials x y a, Incoming (Some (Ok (Logon auth))) ∈ script →
    bolt_client_credentials auth = Ok credentials → svc_authenticate credentials x ≠ (y, Ok a).

(** A property of the service that authentication and others keep. *)
Context (R : Svc → Prop) (Hauth : ∀ credentials x, R x → R (svc_authenticate credentials x).1).

Definition stranger c : Prop :=
  R (c_svc c) ∧ stable R (c_script c) ∧ uninvited (c_script c) ∧ c_queued c = [] ∧
  bs_authenticated (c_session c) = None ∧ bs_pending (c_session c) = None ∧
  (c_state c = Negotiation ∨ c_state c = Authenticating ∨ c_state c = Failed) ∧ Forall summary (c_out c).

(** All that is left of it when the connection ends. *)
Definition kept_out {A} c (r : outcome A) : Prop := R (c_svc c) ∧ Forall summary (c_out c) ∧ bs_pending (c_session c) = None.
Definition stays_out c (r : outcome flow) : Prop :=
  match r with Done Continue => stranger c | _ => kept_out c r end.

Lemma stranger_kept {A} c (r : outcome A) : stranger c → kept_out c r.
Proof. intros (? & _ & _ & _ & _ & ? & _ & ?). by split. Qed.

(** Answering and moving between the states of a stranger. *)
Lemma stranger_answer c m faults st :
  stranger c → summary m → st = Authenticating ∨ st = Failed ∨ st = c_state c →
  stranger (with_state st (with_output (c_out c ++ [m]) faults c)).
Proof.
  intros (?&?&?&?&?&?&Hst&Hout) Hm Hs. split_and!; try done; cbn.
  - destruct Hs as [->|[->| ->]]; auto.
  - apply Forall_app. by split; [|constructor].
Qed.
Lemma stranger_refuse e c : stranger c → wp (refuse e) stays_out c.
Proof.
  intros Hc. unfold refuse. repeat wp_step; [|by apply (stranger_kept (A := flow) c (Fail e0))].
  apply stranger_answer; [done|done|auto].
Qed.

Lemma stranger_clear Q c : stranger c → Q c (Done tt) → wp clear_pending_result Q c.
Proof. intros (?&?&?&?&?&Hp&_) HQ. unfold clear_pending_result. repeat wp_step. by rewrite Hp. Qed.

Lemma stranger_logon auth c : stranger c →
  (∀ credentials x y a, bolt_client_credentials auth = Ok credentials → svc_authenticate credentials x ≠ (y, Ok a)) →
  wp (on_logon auth) stays_out c.
Proof.
  intros Hc Hno. unfold on_logon. destruct (bolt_client_credentials auth) as [credentials|e].
  - repeat wp_step. destruct a as [a|e]; [by eapply Hno in H0|].
    assert (stranger (with_script (c_script c) s c)) as Hc'.
    { destruct Hc as (HR&?&?&?&?&?&?&?). split_and!; try done. cbn. specialize (Hauth credentials _ HR). by rewrite H0 in Hauth. }
    repeat wp_step; [|by apply (stranger_kept (A := flow) _ (Fail e0) Hc')].
    apply (stranger_kept (A := flow) _ (Done Break) (stranger_answer _ (Failure (Authentication "invalid credentials")) faults (c_state c) Hc' I ltac:(auto))).
  - repeat wp_step; [|by apply (stranger_kept (A := flow) c (Fail e0))].
    apply (stranger_kept (A := flow) _ (Done Break) (stranger_answer c (Failure e) faults (c_state c) Hc I ltac:(auto))).
Qed.

Lemma stranger_failed m c : stranger c → c_state c = Failed → wp (on_failed m) stays_out c.
Proof.
  intros Hc Hst. unfold on_failed.
  assert (wp (send_bolt_message Ignored ;; mret Continue : IO flow) stays_out c) as Hign.
  { repeat wp_step; [|by apply (stranger_kept (A := flow) c (Fail e))].
    apply (stranger_answer c Ignored faults (c_state c)) in Hc; [|done|auto]. exact Hc. }
  destruct m; try exact Hign.
  - wp_step. apply stranger_clear; [done|]. repeat wp_step. by apply stranger_kept.
  - wp_step. apply stranger_clear; [done|]. repeat wp_step; [|by apply (stranger_kept (A := flow) c (Fail e))].
    cbn. destruct (bs_authenticated _) eqn:Ea; [by destruct Hc as (_&_&_&_&?&_); congruence|].
    apply stranger_answer; [done|done|auto].
Qed.

Lemma stranger_handle fuel m c : stranger c →
  (∀ auth credentials x y a, m = Logon auth → bolt_client_credentials auth = Ok credentials →
     svc_authenticate credentials x ≠ (y, Ok a)) →
  wp (handle clock ulid value_eq slate_text debug_duration resolve_database cfg fuel m) stays_out c.
Proof.
  intros Hc Hno. unfold handle. wp_step. wp_step. cbn [through].
  assert (wp (clear_pending_result ;; mret Break : IO flow) stays_out c) as Hbye.
  { wp_step. apply stranger_clear; [done|]. repeat wp_step. by apply stranger_kept. }
  pose proof Hc as (_&_&_&_&_&_&[Hst|[Hst|Hst]]&_); rewrite Hst; [| |by apply stranger_failed].
  all: destruct m; try (by apply stranger_refuse); try exact Hbye.
  - unfold on_hello. repeat wp_step; [|by apply (stranger_kept (A := flow) c (Fail e))]. apply stranger_answer; [done|done|auto].
  - apply stranger_logon; [done|]. intros. by eapply Hno.
Qed.

Lemma stranger_next b c : stranger c →
  wp (next_message b) (λ c' r, match r with
    | Done (Some (Ok m)) => stranger c' ∧ Incoming (Some (Ok m)) ∈ c_script c
    | Done (Some (Err _)) => stranger c'
    | r => kept_out c' r end) c.
Proof.
  intros Hc. pose proof Hc as (HR & Hst & Hun & Hq & Hrest). unfold next_message. wp_step. wp_step. cbn [through].
  rewrite Hq. wp_step. apply wp_await; [by intros [[]| | | | |]| |].
  - intros evs s ev Hen Hin Hsub _ _ Hs. cbn [through].
    assert (stranger (with_script evs s c)) as Hc'.
    { split; [by apply Hs|]. split; [intros f x Hf; apply Hst; by apply Hsub|].
      split; [intros auth cr x y a Hl; apply (Hun auth); by apply Hsub|]. by destruct Hrest. }
    destruct ev as [[[m|e]|]| | | | |]; repeat wp_step; try done; by apply stranger_kept.
  - intros s Hs. split; [by apply Hs|]. by destruct Hrest as (?&?&?&?).
Qed.

Lemma stranger_turn fuel c : stranger c →
  wp (turn clock ulid value_eq slate_text debug_duration resolve_database cfg fuel) stays_out c.
Proof.
  intros Hc. unfold turn. repeat wp_step. unfold id.
  assert (stranger (with_tick c)) as Hc' by done. clear Hc.
  destruct (_ <=? _); [repeat wp_step; by apply stranger_kept|].
  destruct (negb _ && _); [repeat wp_step; by apply stranger_kept|].
  wp_step. eapply bwp_mono; [by apply stranger_next|]. intros c' r Hr.
  destruct r as [[[m|e]|]|e| | |]; cbn [through]; try exact Hr.
  - destruct Hr as [Hr Hin]. apply stranger_handle; [done|]. intros auth credentials x y a ->.
    destruct Hc' as (_&_&Hun&_). by apply Hun.
  - by apply stranger_refuse.
Qed.

Lemma stranger_loop turns fuel c : stranger c →
  wp (protocol_loop clock ulid value_eq slate_text debug_duration resolve_database cfg turns fuel) kept_out c.
Proof.
  revert c; induction turns as [|turns IH]; intros c Hc; cbn [protocol_loop]; [by apply (stranger_kept (A := unit) c OutOfFuel)|].
  wp_step. eapply bwp_mono; [by apply stranger_turn|]. intros c' [[]| | | |] Hr; cbn [through]; try exact Hr.
  by apply IH.
Qed.

(** C35: a peer none of whose LOGONs carries credentials the service accepts does
    nothing but try them: any property of the service that authentication
    attempts and other connections keep still holds when its connection ends,
    whatever it has sent, and it has received answers only, never a record. *)
Theorem uninvited_peer turns fuel number started deadline script faults s :
  R s → stable R script → uninvited script →
  let c := (run_bolt_protocol clock ulid value_eq slate_text debug_duration resolve_database cfg turns fuel
              (open_connection cfg number started deadline script faults s)).1 in
  R (c_svc c) ∧ Forall summary (c_out c).
Proof.
  intros HR Hst Hun. set (c0 := open_connection _ _ _ _ _ _ _).
  assert (stranger c0) as Hc0 by (split_and!; try done; by left).
  assert (wp (run_bolt_protocol clock ulid value_eq slate_text debug_duration resolve_database cfg turns fuel)
            (λ c _, R (c_svc c) ∧ Forall summary (c_out c)) c0) as Hw.
  { unfold run_bolt_protocol. wp_step. eapply bwp_mono; [by apply stranger_loop|].
    intros c' r (H1 & H2 & H3). destruct r; try done. cbn [through].
    unfold clear_pending_result. repeat wp_step. rewrite H3. by repeat wp_step. }
  unfold wp in Hw. by destruct (run_bolt_protocol _ _ _ _ _ _ _ _ _ c0).
Qed.
End access.

(** * The message that does not fit the pipeline queue *)

Section overflow.
Context {Svc Plan : Type} `{QueryService Svc Plan}.
Context (clock : nat → N) (ulid : nat → string) (value_eq : BoltValue → BoltValue → bool).
Context (slate_text : SlateErrorKind → string) (debug_duration : N → string).
Context (resolve_database : option string → Result ClientQueryTarget) (cfg : BoltConfig Svc).
Implicit Types (c : Conn Svc Plan).

(** Messages that a wait for a page puts into the queue. *)
Definition pipelined (m : ClientMessage) : Prop := match m with Reset | Goodbye => False | _ => True end.
Definition arriving (ms : list ClientMessage) : list (Event Svc) := (λ m, Incoming (Some (Ok m))) <$> ms.

Lemma overflow_wait fuel task auth scope query_id c ms m evs :
  c_script c = arriving (ms ++ [m]) ++ evs → Forall pipelined (ms ++ [m]) →
  (length (c_queued c) + length ms)%nat = max_pipelined_messages cfg → (length (c_script c) ≤ fuel)%nat →
  wp (await_bolt_page cfg fuel task auth scope query_id)
    (λ c' r, r = Fail queue_full ∧ c' = with_queued (c_queued c ++ ms) (with_script evs (c_svc c) c)) c.
Proof.
  revert c fuel; induction ms as [|m1 ms IH]; intros c fuel Hs Hms Hlen Hfuel.
  - destruct fuel; [rewrite Hs in Hfuel; cbn in Hfuel; lia|]. cbn [await_bolt_page].
    rewrite Hs in *. cbn in Hlen. wp_step. unfold wp, await. rewrite Hs. cbn. apply Forall_cons in Hms as [Hms _].
    assert ((max_pipelined_messages cfg <=? length (c_queued c))%nat = true) as Hfull by (apply Nat.leb_le; lia).
    destruct m, Hms; unfold mbind, m_bind, wp; cbn; rewrite Hfull; split; try done; rewrite app_nil_r; by destruct c.
  - destruct fuel; [rewrite Hs in Hfuel; cbn in Hfuel; lia|]. cbn [await_bolt_page].
    cbn in Hms. apply Forall_cons in Hms as [Hm1 Hms].
    specialize (IH (with_queued (c_queued c ++ [m1]) (with_script (arriving (ms ++ [m]) ++ evs) (c_svc c) c)) fuel eq_refl Hms).
    cbn [c_queued with_queued with_script c_svc c_script] in IH. rewrite <- List.app_assoc in IH.
    rewrite Hs in Hfuel. cbn in Hlen, Hfuel. rewrite length_app in IH. cbn [length] in IH.
    specialize (IH ltac:(lia) (le_S_n _ _ Hfuel)). wp_step. unfold wp at 1, await. rewrite Hs. cbn [app arriving fmap list_fmap await_from page_arm].
    assert ((max_pipelined_messages cfg <=? length (c_queued c))%nat = false) as Hroom by (apply Nat.leb_gt; lia).
    destruct m1, Hm1; unfold mbind, m_bind; unfold wp at 1; cbn; rewrite Hroom; exact IH.
Qed.

(** C39: a message that finds the pipeline queue full while a PULL waits for its
    page is taken from the connection and never answered: the only answer of that
    turn is the FAILURE of the PULL, the message is not queued, and the connection
    goes on, so that the answers to what the client sends next are one short. *)
Theorem overflow_unanswered fuel extra count auth p c ms m evs :
  c_state c = Streaming → bs_authenticated (c_session c) = Some auth → bs_pending (c_session c) = Some p →
  pd_rows p = [] → pd_started p = false → clock (c_ticks c) < pd_deadline p →
  bolt_stream_count extra "PULL" = Ok count → count ≠ Some 0 → c_faults c = [] → (0 < fuel)%nat →
  c_script c = arriving (ms ++ [m]) ++ evs → Forall pipelined (ms ++ [m]) →
  (length (c_queued c) + length ms)%nat = max_pipelined_messages cfg →
  ∃ c', handle clock ulid value_eq slate_text debug_duration resolve_database cfg fuel (Pull extra) c = (c', Done Continue) ∧
    c_state c' = Failed ∧ c_script c' = evs ∧ c_queued c' = c_queued c ++ ms ∧ c_out c' = c_out c ++ [Failure queue_full].
Proof.
  intros Hst Hauth Hp Hrows Hstarted Hclock Hcount Hpos Hfaults Hfuel Hs Hms Hlen.
  assert (wp (handle clock ulid value_eq slate_text debug_duration resolve_database cfg fuel (Pull extra))
    (λ c' r, r = Done Continue ∧ c_state c' = Failed ∧ c_script c' = evs ∧ c_queued c' = c_queued c ++ ms ∧
             c_out c' = c_out c ++ [Failure queue_full]) c) as Hw.
  2: { unfold wp in Hw. destruct (handle _ _ _ _ _ _ _ _ _ _) as [c' r]. destruct Hw as [-> Hw]. by exists c'. }
  unfold handle. wp_step. wp_step. cbn [through]. rewrite Hst. unfold on_stream. rewrite Hcount.
  repeat wp_step. unfold authenticated. rewrite Hauth. cbn [ok_or]. rewrite Hp. wp_step. wp_step.
  destruct fuel as [|fuel]; [lia|]. cbn [consume_bolt_records]. wp_step. wp_step. cbn [through]. rewrite Hp, Hrows, Hstarted.
  assert ((default u64_max count =? 0) = false) as -> by (apply N.eqb_neq; by destruct count as [[|]|]).
  wp_step. wp_step. cbn [through]. wp_step. unfold fetch_page, remaining_bolt_runtime_ms. repeat wp_step.
  cbn [c_session with_session set_pending bs_pending]. rewrite Hp. cbn [fmap option_fmap option_map].
  repeat wp_step. cbn [c_ticks with_tick with_session pd_deadline].
  assert ((saturating_sub (pd_deadline p) (clock (c_ticks c)) =? 0) = false) as ->
    by (apply N.eqb_neq; unfold saturating_sub; lia).
  repeat wp_step. eapply bwp_mono; [apply (overflow_wait _ _ _ _ _ _ ms m evs); [exact Hs|exact Hms|exact Hlen|done]|].
  intros c' r [-> ->]. cbn [through]. repeat wp_step; [|exfalso; cbn in *; congruence].
  apply wp_clear. intros s. by repeat wp_step.
Qed.
End overflow.

(** * A small service

    One principal, whose queries find one row each; it counts the pages it has
    served. *)

Module small.
#[global] Instance service : QueryService N unit := {
  svc_authenticate credentials served :=
    match credentials with
    | Bearer "key" => (served, Ok (MkSession "alice"))
    | _ => (served, Err (UnsupportedQuery "ClientProtocol" "unauthorized client request"))
    end;
  svc_runtime_limit := 1000;
  svc_prepare _ request _ served := (served, Ok (MkPrepared (with_timeout_ms 1000 request) client.Read [] tt));
  svc_execute _ prepared _ n served :=
    (served + 1,
     Ok (MkClientPage (rq_query_id (pq_request prepared))
           (MkPage [] (if n =? 0 then [] else [MkRow []]) None) None None));
  svc_release _ _ _ served := served;
  svc_cancel _ _ _ served := served;
  svc_authorize_route _ _ served := (served, Ok tt);
  svc_ensure_bookmark _ served := (served, Ok tt) }.

#[global] Instance laws : QueryServiceLaws.
Proof.
  split.
  - by intros a r n s s' p [= <- <-].
  - intros a p cursor n s s' page [= <- <-]. cbn. destruct (n =? 0) eqn:E; cbn; [lia|]. apply N.eqb_neq in E. lia.
Qed.

Definition cfg : BoltConfig N := MkConfig "0.1" "db" 300 [] None 10 1 1000000 1000000000000.
Definition target : ClientQueryTarget := MkTarget GraphScope_default "cell".
Definition resolve (_ : option string) : Result ClientQueryTarget := Ok target.
Definition clock (n : nat) : N := N.of_nat n.
Definition ulid (_ : nat) : string := "01ARZ3NDEKTSV4RRFFQ69G5FAV".
Definition value_eq (_ _ : BoltValue) : bool := true.
Definition slate_text (_ : SlateErrorKind) : string := "slate".
Definition debug (_ : N) : string := "0ns".

Definition hello : Event N := Incoming (Some (Ok (Hello []))).
Definition logon (scheme key : string) : Event N :=
  Incoming (Some (Ok (Logon [("scheme", BString scheme); ("credentials", BString key)]))).
Definition run_pull : list (Event N) :=
  [Incoming (Some (Ok (Run "MATCH (n) RETURN n" [] []))); Incoming (Some (Ok (Pull []))); PageReady].
Definition visit : list (Event N) := hello :: logon "bearer" "key" :: run_pull ++ [Incoming None].

Definition start (script : list (Event N)) : Conn N unit := open_connection cfg 7 0 1000000 script [] 0.
Abbreviation a_turn := (turn clock ulid value_eq slate_text debug resolve cfg 100).
Abbreviation a_run := (run_bolt_protocol clock ulid value_eq slate_text debug resolve cfg 10 100).

(** The visit: five answers and a record, one page served. *)
Example visit_runs :
  let '(c, r) := a_run (start visit) in
  (match r with Done _ => true | _ => false end, length (c_out c), answered (c_out c), c_svc c) = (true, 5%nat, 4%nat, 1).
Proof. vm_compute. reflexivity. Qed.

(** A streaming connection with a full queue. *)
Definition pending : PendingBoltResult unit :=
  MkPending "db" (MkPrepared (with_timeout_ms 1000 (ClientQueryRequest_new target "q" "MATCH (n) RETURN n")) client.Read [] tt)
    1000000 [] false 0 [] None None.
Definition streaming : Conn N unit :=
  MkConn [Incoming (Some (Ok Commit)); PageReady] [Telemetry 0] Streaming
    (MkBoltSession "bolt-7" (Some (MkSession "alice")) None 2 (Some pending)) 1000 1000 [] [] 0 0.
End small.

(** * Applications *)

Lemma bolt_session_safe_witness :
  (length small.visit < 10)%nat ∧
  ended (run_bolt_protocol small.clock small.ulid small.value_eq small.slate_text small.debug small.resolve small.cfg 10 100
           (small.start small.visit)).2.
Proof.
  split; [vm_compute; lia|].
  apply (bolt_session_safe small.cfg small.clock small.ulid small.value_eq small.slate_text small.debug small.resolve
           10 100 7 0 1000000 small.visit [] 0); vm_compute; lia.
Defined.

Lemma bolt_answers_once_witness :
  (length small.visit * 11 < 100)%nat ∧
  ∃ lost, (recv small.visit = recv (tail small.visit) + 0 + 1 + lost)%nat.
Proof.
  split; [vm_compute; lia|].
  destruct (bolt_answers_once small.cfg small.clock small.ulid small.value_eq small.slate_text small.debug small.resolve
    100 7 0 1000000 small.visit 0 (small.a_turn (small.start small.visit)).1) as (lost & [Hl _] & _).
  - vm_compute. lia.
  - apply rtc_once. vm_compute. reflexivity.
  - exists lost. exact Hl.
Defined.

Lemma uninvited_peer_witness :
  let script := small.hello :: small.logon "bearer" "guess" :: small.run_pull in
  stable (λ served, served = 0) script ∧
  c_svc (small.a_run (small.start script)).1 = 0.
Proof.
  cbn zeta. assert (stable (λ served, served = 0) (small.hello :: small.logon "bearer" "guess" :: small.run_pull)) as Hst.
  { intros f x Hf. by repeat (apply elem_of_cons in Hf as [Hf|Hf]; [discriminate Hf|]); apply elem_of_nil in Hf. }
  split; [exact Hst|].
  refine (proj1 (uninvited_peer small.clock small.ulid small.value_eq small.slate_text small.debug small.resolve small.cfg
    (λ served, served = 0) _ 10 100 7 0 1000000 _ [] 0 eq_refl Hst _)).
  - intros [|token|] x ->; cbn; [done| |done]. by repeat case_match.
  - intros auth credentials x y a Hin Hc.
    repeat (apply elem_of_cons in Hin as [Hin|Hin]; [try discriminate Hin|]); [|by apply elem_of_nil in Hin].
    injection Hin as ->. vm_compute in Hc. by injection Hc as <-.
Defined.

Lemma overflow_unanswered_witness :
  (1 + 0)%nat = max_pipelined_messages small.cfg ∧
  ∃ c', handle small.clock small.ulid small.value_eq small.slate_text small.debug small.resolve small.cfg 5 (Pull []) small.streaming
        = (c', Done Continue) ∧ c_queued c' = [Telemetry 0] ∧ c_out c' = [Failure queue_full].
Proof.
  split; [reflexivity|].
  destruct (overflow_unanswered small.clock small.ulid small.value_eq small.slate_text small.debug small.resolve small.cfg
    5 [] None (MkSession "alice") small.pending small.streaming [] Commit [PageReady]) as (c' & H1 & _ & _ & H2 & H3);
    [reflexivity..|discriminate|reflexivity|lia|reflexivity|by repeat constructor|reflexivity|].
  exists c'. split; [exact H1|]. by split.
Defined.
