(* ===== verification/QueryAccess.v ===== *)
(** [query/coordination.rs]: who a client is and what it may do: bearer secrets, mTLS
    fingerprints, authentication policies, scope grants and namespace quotas; and
    the idempotency keys of a principal ([client/service.rs]).  SHA-256 and base64
    are third-party code and parameters; a digest is the string of its bytes. *)

From S2P Require Import Prelude Text TextFacts Errors Namespace Codec Lease QueryData Client ClientNames.
From Stdlib Require Import Ascii.

Local Open Scope N_scope.

Module access.
Import client names.

Definition transport_unsupported {A} (feature : string) : Result A := Err (UnsupportedQuery "QueryTransport" feature).

(** * Secrets *)

Record QueryTransportSecret := MkSecret { secret_value : string; secret_valid : bool }.

Definition QueryTransportSecret_try_new (value : string) : Result QueryTransportSecret :=
  if bool_decide (trim value = "") then transport_unsupported "bearer token cannot be empty"
  else Ok (MkSecret value true).
Definition QueryTransportSecret_new (value : string) : QueryTransportSecret :=
  match QueryTransportSecret_try_new value with Ok secret => secret | Err _ => MkSecret "" false end.
Definition expose_secret (s : QueryTransportSecret) : string := secret_value s.
Definition is_valid (s : QueryTransportSecret) : bool := secret_valid s.

(** * Principals *)

Abbreviation QueryTransportPrincipal := string.
Definition mtls (fingerprint : string) : QueryTransportPrincipal := "mtls:" +:+ fingerprint.
Definition insecure : QueryTransportPrincipal := "insecure".

Definition error_label (p : QueryTransportPrincipal) : string :=
  if starts_with "bearer:" p then "bearer principal"
  else if starts_with "mtls:" p then "mTLS principal"
  else "unauthenticated principal".

(** [to_ascii_lowercase], [is_ascii_hexdigit]. *)
Definition ascii_lowercase (c : ascii) : ascii :=
  let n := N_of_ascii c in if (65 <=? n) && (n <=? 90) then ascii_of_N (n + 32) else c.
Fixpoint to_ascii_lowercase (s : string) : string :=
  match s with "" => "" | String c s => String (ascii_lowercase c) (to_ascii_lowercase s) end.
Definition is_ascii_hexdigit (c : ascii) : bool :=
  let n := N_of_ascii c in
  ((48 <=? n) && (n <=? 57)) || ((97 <=? n) && (n <=? 102)) || ((65 <=? n) && (n <=? 70)).

Definition normalized_fingerprint (fingerprint : string) : option string :=
  digest ← Text.strip_prefix "sha256:" (to_ascii_lowercase (trim fingerprint));
  if negb (strlen digest =? 64) || negb (str_forall is_ascii_hexdigit digest) then None
  else Some ("sha256:" +:+ digest).
Definition normalized_sha256_fingerprints (fingerprints : list string) : option (gset string) :=
  normalized ← foldl (λ acc fingerprint,
    normalized ← acc; f ← normalized_fingerprint fingerprint; Some ({[f]} ∪ normalized)) (Some ∅) fingerprints;
  if bool_decide (normalized = ∅) then None else Some normalized.

Definition from_mtls_peer_fingerprint (fingerprint : string) : Result QueryTransportPrincipal :=
  match normalized_sha256_fingerprints [fingerprint] with
  | None => transport_unsupported "mTLS principal requires a canonical sha256 fingerprint"
  | Some fingerprints =>
      match elements fingerprints with
      | [] => transport_unsupported "mTLS principal requires a fingerprint"
      | fingerprint :: _ => Ok (mtls fingerprint)
      end
  end.

(** * Policies *)

Inductive QueryTransportAuthPolicy : Type :=
  | RejectAll
  | BearerToken (required : QueryTransportSecret)
  | BearerTokens (required : list QueryTransportSecret)
  | MtlsPeerFingerprint (allowed_fingerprints : gset string) (bearer_token : option QueryTransportSecret)
  | InsecureAllowAll.

Record QueryTransportConnectionIdentity := MkIdentity {
  tls_peer_fingerprints : gset string; tls_peer_leaf_fingerprint : option string }.

Section digest.
Context (sha256 : string → string).

Definition constant_time_secret_eq (left right : string) : bool := bool_decide (sha256 left = sha256 right).
Definition bearer (token : string) : QueryTransportPrincipal := "bearer:sha256:" +:+ hex_encode (sha256 token).
Definition from_bearer_token (token : string) : Result QueryTransportPrincipal :=
  secret ← QueryTransportSecret_try_new token; Ok (bearer (expose_secret secret)).

Definition secret_matches (required : QueryTransportSecret) (supplied : string) : bool :=
  is_valid required && constant_time_secret_eq supplied (expose_secret required).

Definition authenticate (policy : QueryTransportAuthPolicy) (bearer_token : option string)
  (identity : QueryTransportConnectionIdentity) : option QueryTransportPrincipal :=
  match policy with
  | RejectAll => None
  | BearerToken required =>
      supplied ← bearer_token;
      if secret_matches required supplied then Some (bearer (expose_secret required)) else None
  | BearerTokens required_tokens =>
      supplied ← bearer_token;
      foldl (λ matched required,
        if secret_matches required supplied then Some (bearer (expose_secret required)) else matched) None required_tokens
  | MtlsPeerFingerprint allowed_fingerprints required =>
      let bearer_ok := match required with
        | Some required => match bearer_token with Some supplied => secret_matches required supplied | None => false end
        | None => true
        end in
      if negb bearer_ok then None
      else
        let authorized := existsb (λ fingerprint, bool_decide (fingerprint ∈ allowed_fingerprints))
                            (elements (tls_peer_fingerprints identity)) in
        if authorized then mtls <$> tls_peer_leaf_fingerprint identity else None
  | InsecureAllowAll => Some insecure
  end.
End digest.

(** * Grants *)

Record QueryTransportScopeGrant := MkGrant {
  gr_namespace : NamespacePath; gr_graph_id : option GraphId; gr_include_descendants : bool;
  gr_actions : list QueryTransportAction }.

Definition grant_graph (scope : GraphScope) (actions : list QueryTransportAction) : QueryTransportScopeGrant :=
  MkGrant (gs_namespace scope) (Some (gs_graph_id scope)) false actions.
Definition grant_namespace (namespace : NamespacePath) (include_descendants : bool) (actions : list QueryTransportAction) :
  QueryTransportScopeGrant := MkGrant namespace None include_descendants actions.
Definition graph_namespace (namespace : NamespacePath) (graph_id : GraphId) (include_descendants : bool)
  (actions : list QueryTransportAction) : QueryTransportScopeGrant :=
  MkGrant namespace (Some graph_id) include_descendants actions.
Definition read_graph (scope : GraphScope) : QueryTransportScopeGrant := grant_graph scope [Read; Cancel].
Definition read_namespace (namespace : NamespacePath) (include_descendants : bool) : QueryTransportScopeGrant :=
  grant_namespace namespace include_descendants [Read; Cancel].

Definition allows (g : QueryTransportScopeGrant) (scope : GraphScope) (action : QueryTransportAction) : bool :=
  let namespace_allowed :=
    if gr_include_descendants g then is_descendant_of (gs_namespace scope) (gr_namespace g)
    else bool_decide (gs_namespace scope = gr_namespace g) in
  let graph_allowed :=
    match gr_graph_id g with Some graph_id => bool_decide (graph_id = gs_graph_id scope) | None => true end in
  namespace_allowed && graph_allowed && bool_decide (action ∈ gr_actions g).

(** [StaticQueryTransportScopeAuthorizer]. *)
Abbreviation ScopeGrants := (gmap QueryTransportPrincipal (list QueryTransportScopeGrant)).
Definition no_grants : ScopeGrants := ∅.
Definition with_grant (p : QueryTransportPrincipal) (g : QueryTransportScopeGrant) (a : ScopeGrants) : ScopeGrants :=
  <[p := default [] (a !! p) ++ [g]]> a.
Definition with_bearer_grant (sha256 : string → string) (token : string) (g : QueryTransportScopeGrant) (a : ScopeGrants) :
  Result ScopeGrants := p ← from_bearer_token sha256 token; Ok (with_grant p g a).
Definition with_mtls_grant (fingerprint : string) (g : QueryTransportScopeGrant) (a : ScopeGrants) : Result ScopeGrants :=
  p ← from_mtls_peer_fingerprint fingerprint; Ok (with_grant p g a).
Definition static_authorize (a : ScopeGrants) (p : QueryTransportPrincipal) (scope : GraphScope) (action : QueryTransportAction) : bool :=
  match a !! p with Some grants => existsb (λ g, allows g scope action) grants | None => false end.

(** [DefaultQueryTransportScopeAuthorizer]. *)
Definition default_authorize (_ : QueryTransportPrincipal) (scope : GraphScope) (_ : QueryTransportAction) : bool :=
  is_default scope.

(** * Quotas *)

Global Instance NamespacePath_countable : Countable NamespacePath.
Proof.
  refine (inj_countable' (λ p, ns_str <$> segments p) (λ l, MkNamespacePath (MkNamespaceId <$> l)) _).
  intros [segs]. cbn. f_equal. rewrite <- list_fmap_compose.
  induction segs as [|[s] segs IH]; [done|]. cbn. by rewrite IH.
Defined.

Abbreviation QueryTransportNamespaceQuotas := (gmap NamespacePath N).
Definition with_query_limit (namespace : NamespacePath) (max_concurrent : N) (q : QueryTransportNamespaceQuotas) :
  QueryTransportNamespaceQuotas := <[namespace := max_concurrent]> q.
Definition query_limit (q : QueryTransportNamespaceQuotas) (namespace : NamespacePath) : option N := q !! namespace.
Definition quotas_validate (q : QueryTransportNamespaceQuotas) : Result unit :=
  if existsb (λ limit, limit =? 0) (map_to_list q).*2
  then Err (UnsafeDurabilityConfig "query_transport_config" "namespace query concurrency limits must be greater than zero")
  else Ok tt.
(** A semaphore is the number of its permits. *)
Definition gates (q : QueryTransportNamespaceQuotas) : gmap NamespacePath N := q.

(** * Idempotency keys *)

Definition principal_scoped_mutation_idempotency_key (sha256 : string → string) (enc : string → string)
  (p : QueryTransportPrincipal) (caller_key : string) : string :=
  "principal-v1-" +:+ enc (sha256 p) +:+ "-" +:+ caller_key.
End access.
