(* ===== verification/QueryAccessFacts.v ===== *)
(** Who gets in and what it may do ([QueryAccess]): policies accept exactly the
    credentials they name, grants allow exactly what they were given for, and the
    idempotency keys of principals are disjoint. *)

From S2P Require Import Prelude Text TextFacts Errors Namespace Codec CodecFacts Lease QueryData Client ClientNames ClientNamesFacts QueryAccess.

Local Open Scope N_scope.

Import client names access.

(** * Authentication *)

Section authentication.
Context (sha256 : string → string).

(** No two of the texts at hand have one digest. *)
Definition no_collision (s t : string) : Prop := sha256 s = sha256 t → s = t.

Definition secrets (policy : QueryTransportAuthPolicy) : list QueryTransportSecret :=
  match policy with
  | BearerToken r => [r]
  | BearerTokens rs => rs
  | MtlsPeerFingerprint _ (Some r) => [r]
  | _ => []
  end.

Definition presents (token : option string) (r : QueryTransportSecret) : Prop :=
  secret_valid r = true ∧ token = Some (secret_value r).

#[local] Instance presents_dec token r : Decision (presents token r).
Proof. unfold presents. apply _. Defined.

(** The contract of a policy: the principals it gives for a token and a TLS peer. *)
Definition admits (policy : QueryTransportAuthPolicy) (token : option string) (identity : QueryTransportConnectionIdentity)
  (p : QueryTransportPrincipal) : Prop :=
  match policy with
  | RejectAll => False
  | BearerToken r => presents token r ∧ p = bearer sha256 (secret_value r)
  | BearerTokens rs => ∃ r, r ∈ rs ∧ presents token r ∧ p = bearer sha256 (secret_value r)
  | MtlsPeerFingerprint allowed required =>
      (∀ r, required = Some r → presents token r) ∧
      (∃ f, f ∈ tls_peer_fingerprints identity ∧ f ∈ allowed) ∧
      ∃ leaf, tls_peer_leaf_fingerprint identity = Some leaf ∧ p = mtls leaf
  | InsecureAllowAll => p = insecure
  end.

Lemma secret_matches_spec r s :
  no_collision s (secret_value r) → secret_matches sha256 r s = true ↔ presents (Some s) r.
Proof.
  intros Hc. unfold secret_matches, constant_time_secret_eq, presents, is_valid, expose_secret.
  rewrite andb_true_iff, bool_decide_eq_true. split; [intros [? E]; by rewrite (Hc E)|intros [? [= ->]]; done].
Qed.

Lemma last_match s rs (acc : option QueryTransportPrincipal) p :
  Forall (λ r, no_collision s (secret_value r)) rs →
  foldl (λ matched r, if secret_matches sha256 r s then Some (bearer sha256 (expose_secret r)) else matched) acc rs = Some p ↔
  (∃ r, r ∈ rs ∧ presents (Some s) r ∧ p = bearer sha256 (secret_value r)) ∨
  (acc = Some p ∧ ∀ r, r ∈ rs → ¬ presents (Some s) r).
Proof.
  revert acc; induction rs as [|r rs IH]; intros acc Hc; cbn [foldl].
  - split; [intros ->; right; split; [done|by intros ? ?%elem_of_nil]|intros [(? & ?%elem_of_nil & _)|[? _]]; done].
  - apply Forall_cons in Hc as [Hr Hc]. rewrite IH by done. clear IH.
    pose proof (secret_matches_spec r s Hr) as Hm. unfold expose_secret.
    destruct (secret_matches sha256 r s) eqn:E.
    + assert (presents (Some s) r) as Hp by (by apply Hm).
      split.
      * intros [(r' & ? & ? & ?)|[[= <-] Hno]]; left; [exists r'; split; [by right|done]|exists r; split; [by left|done]].
      * intros [(r' & Hin & Hp' & ->)|[_ Hno]]; [|by destruct (Hno r); [left|]].
        destruct Hp as [_ [= Hv]], (Hp') as [_ [= Hv']].
        destruct (decide (Exists (presents (Some s)) rs)) as [(r2 & Hin2 & Hp2)%Exists_exists|Hno].
        -- left. exists r2. split; [done|]. split; [done|]. destruct Hp2 as [_ [= Hv2]]. congruence.
        -- right. split; [congruence|]. intros r2 Hin2 Hp2. apply Hno, Exists_exists. by exists r2.
    + assert (¬ presents (Some s) r) as Hp by (by rewrite <- Hm).
      split.
      * intros [(r' & ? & ? & ?)|[-> Hno]]; [left; exists r'; split; [by right|done]|right].
        split; [done|]. intros r' Hin. apply elem_of_cons in Hin as [->|Hin]; [done|by apply Hno].
      * intros [(r' & Hin & ? & ?)|[-> Hno]].
        -- apply elem_of_cons in Hin as [->|Hin]; [done|]. left. by exists r'.
        -- right. split; [done|]. intros r' Hin. apply Hno. by right.
Qed.

(** C32: a policy admits exactly the credentials it names, and the principal it
    gives is theirs: a bearer token for the digest of a valid configured secret
    equal to it (an empty secret admits nobody), a TLS peer with an allowed
    certificate for its leaf certificate, and then only with the required token,
    everybody only when insecure access is configured; provided no configured
    secret shares its digest with the token presented. *)
Theorem authenticate_exact policy token identity p :
  (∀ s r, token = Some s → r ∈ secrets policy → no_collision s (secret_value r)) →
  authenticate sha256 policy token identity = Some p ↔ admits policy token identity p.
Proof.
  intros Hc. destruct policy as [|r|rs|allowed required|]; cbn [authenticate admits].
  - done.
  - destruct token as [s|]; cbn; [|split; [done|intros [[_ ?] _]; done]].
    pose proof (secret_matches_spec r s (Hc s r eq_refl ltac:(by left))) as Hm.
    destruct (secret_matches sha256 r s); [|split; [done|intros [? _]; by apply Hm in H]].
    split; [intros [= <-]; split; [by apply Hm|done]|intros [_ ->]; done].
  - destruct token as [s|]; cbn; [|split; [done|intros (r & _ & [_ ?] & _); done]].
    rewrite last_match by (apply Forall_forall; intros r Hr; by apply (Hc s r)). split; [intros [?|[? _]]; done|by left].
  - assert (match required with
      | Some r => match token with Some s => secret_matches sha256 r s | None => false end | None => true end = true
      ↔ ∀ r, required = Some r → presents token r) as Hb.
    { destruct required as [r|]; [|split; [intros _ r [=]|done]].
      destruct token as [s|]; [|split; [done|intros H; by destruct (H r eq_refl)]].
      rewrite secret_matches_spec by (apply (Hc s r); [done|by left]).
      split; [by intros ? ? [= <-]|intros H; by apply H]. }
    destruct (match required with Some _ => _ | None => _ end); cbn [negb].
    2: { split; [done|]. intros (Hr & _). by apply Hb in Hr. }
    assert (existsb (λ f, bool_decide (f ∈ allowed)) (elements (tls_peer_fingerprints identity)) = true ↔
      ∃ f, f ∈ tls_peer_fingerprints identity ∧ f ∈ allowed) as Ha.
    { rewrite existsb_exists. split.
      - intros (f & Hf & Hin). exists f. apply bool_decide_eq_true in Hin. split; [|done].
        by apply elem_of_elements, list_elem_of_In.
      - intros (f & Hf & Hin). exists f. split; [by apply list_elem_of_In, elem_of_elements|by apply bool_decide_eq_true]. }
    destruct (existsb _ _).
    + split.
      * intros (leaf & Hl & ->)%fmap_Some. split; [by apply Hb|]. split; [by apply Ha|]. by exists leaf.
      * intros (_ & _ & leaf & -> & ->). done.
    + split; [done|]. intros (_ & Hf & _). by apply Ha in Hf.
  - split; [by intros [= <-]|by intros ->].
Qed.
End authentication.

(** * Grants *)

(** What a grant covers. *)
Definition covers (g : QueryTransportScopeGrant) (scope : GraphScope) (action : QueryTransportAction) : Prop :=
  (if gr_include_descendants g then segments (gr_namespace g) `prefix_of` segments (gs_namespace scope)
   else gr_namespace g = gs_namespace scope) ∧
  (∀ graph, gr_graph_id g = Some graph → graph = gs_graph_id scope) ∧ action ∈ gr_actions g.

Lemma allows_covers g scope action : allows g scope action = true ↔ covers g scope action.
Proof.
  unfold allows, covers. rewrite !andb_true_iff, bool_decide_eq_true.
  assert ((match gr_graph_id g with Some graph_id => bool_decide (graph_id = gs_graph_id scope) | None => true end) = true
    ↔ ∀ graph, gr_graph_id g = Some graph → graph = gs_graph_id scope) as ->.
  { destruct (gr_graph_id g) as [graph|]; [rewrite bool_decide_eq_true|split; [intros _ ? [=]|done]].
    split; [by intros ? ? [= <-]|intros H; by apply H]. }
  destruct (gr_include_descendants g).
  - unfold is_descendant_of. rewrite list_starts_with_prefix. tauto.
  - rewrite bool_decide_eq_true. split; [intros [[<- ?] ?]|intros (<- & ? & ?)]; done.
Qed.

(** C33: an authorizer built from grants allows an action of a principal on a graph
    exactly when one of the grants given to that principal covers it: the grant's
    own namespace, or with descendants those below it, never a sibling or the
    parent; its own graph if it names one; and one of its actions. *)
Theorem authorize_exact (given : list (QueryTransportPrincipal * QueryTransportScopeGrant)) p scope action :
  static_authorize (foldl (λ a pg, with_grant pg.1 pg.2 a) no_grants given) p scope action = true ↔
  ∃ g, (p, g) ∈ given ∧ covers g scope action.
Proof.
  assert (∀ a, static_authorize (foldl (λ a pg, with_grant pg.1 pg.2 a) a given) p scope action = true ↔
    static_authorize a p scope action = true ∨ ∃ g, (p, g) ∈ given ∧ covers g scope action) as Hgen.
  { induction given as [|[q g] given IH]; intros a; cbn [foldl].
    - split; [by left|]. intros [?|(g & ?%elem_of_nil & _)]; done.
    - rewrite IH. cbn [fst snd].
      assert (static_authorize (with_grant q g a) p scope action = true ↔
        static_authorize a p scope action = true ∨ (q = p ∧ covers g scope action)) as ->.
      { unfold static_authorize, with_grant. destruct (decide (q = p)) as [->|Hne].
        - rewrite lookup_insert_eq, existsb_app, orb_true_iff. cbn. rewrite orb_false_r, allows_covers.
          destruct (a !! p); cbn; [tauto|]. split; [intros [|]; [done|by right]|intros [|[_ ?]]; [done|by right]].
        - rewrite lookup_insert_ne by done. destruct (a !! p); tauto. }
      setoid_rewrite elem_of_cons. split.
      + intros [[?|[-> ?]]|(g' & ? & ?)]; [by left|right; exists g; auto|right; eauto].
      + intros [?|(g' & [[= -> ->]|?] & ?)]; [by left; left|by left; right|right; eauto]. }
  rewrite Hgen. unfold static_authorize at 1, no_grants. rewrite lookup_empty. split; [by intros [|]|by right].
Qed.

(** * Idempotency keys *)

Lemma app_inj_length (a b x y : string) : String.length a = String.length b → a +:+ x = b +:+ y → a = b ∧ x = y.
Proof.
  revert b; induction a as [|c a IH]; intros [|d b] Hl; [by intros|discriminate Hl|discriminate Hl|]. cbn in Hl.
  rewrite !app_cons. intros E. injection E as -> E. by destruct (IH b ltac:(lia) E) as [-> ->].
Qed.

(** The idempotency keys that callers choose are their own: two principals
    never share a durable key, whatever they call it, and one principal's keys are
    distinct, provided the digests of the principals are. *)
Theorem mutation_keys_scoped (sha256 enc : string → string) dec p q k l :
  Base64 enc dec → (∀ x y, String.length x = String.length y → String.length (enc x) = String.length (enc y)) →
  (∀ x, String.length (sha256 x) = 32%nat) → no_collision sha256 p q → (p, k) ≠ (q, l) →
  principal_scoped_mutation_idempotency_key sha256 enc p k ≠ principal_scoped_mutation_idempotency_key sha256 enc q l.
Proof.
  intros Hb Hlen Hsha Hc Hne. unfold principal_scoped_mutation_idempotency_key. intros E. apply Hne.
  apply app_inj_length in E as [_ E]; [|done]. apply app_inj_length in E as [He E]; [|apply Hlen; by rewrite !Hsha].
  apply app_inj_length in E as [_ ->]; [|done]. f_equal. apply Hc.
  pose proof (b64_round (Base64 := Hb) (sha256 p)) as Hp. rewrite He, b64_round in Hp. by injection Hp.
Qed.

(** * Applications *)

Definition team_key : QueryTransportSecret := QueryTransportSecret_new "team-key".
Lemma authenticate_exact_witness :
  authenticate (λ s, s) (BearerTokens [QueryTransportSecret_new " "; team_key]) (Some "team-key") (MkIdentity ∅ None)
    = Some (bearer (λ s, s) "team-key") ∧
  authenticate (λ s, s) (BearerTokens [QueryTransportSecret_new " "]) (Some "") (MkIdentity ∅ None) ≠ Some (bearer (λ s, s) "").
Proof.
  split.
  - apply (authenticate_exact (λ s, s)); [intros s r _ _ E; exact E|]. exists team_key. split; [right; by left|by repeat split].
  - rewrite (authenticate_exact (λ s, s)) by (intros s r _ _ E; exact E). intros (r & Hr & [Hv _] & _).
    apply elem_of_cons in Hr as [->|Hr]; [discriminate Hv|by apply elem_of_nil in Hr].
Defined.

(** A digest of 32 bytes that tells two principals apart. *)
Definition toy_digest (s : string) : string :=
  (if bool_decide (s = "insecure") then "a" else "b") +:+ "0123456789abcdef0123456789abcde".
Lemma mutation_keys_scoped_witness :
  ("insecure", "k") ≠ ("mtls:x", "k") ∧
  principal_scoped_mutation_idempotency_key toy_digest hex_encode "insecure" "k" ≠
  principal_scoped_mutation_idempotency_key toy_digest hex_encode "mtls:x" "k".
Proof.
  split; [discriminate|].
  apply (mutation_keys_scoped toy_digest hex_encode hex_dec "insecure" "mtls:x" "k" "k" hex_base64).
  - intros x y Hl. by rewrite !hex_encode_length, Hl.
  - intros x. unfold toy_digest. by case_bool_decide.
  - vm_compute. discriminate.
  - discriminate.
Defined.
