(* ===== verification/QueryBatch.v ===== *)
(** UNWIND batches: a list parameter becomes one batch operation ([query/algebra.rs],
    [client/service.rs: resolve_unwind_batch]).  The parse of the query text is the
    argument. *)

From S2P Require Import Prelude Text Errors Model Namespace QueryData Client BoltWire BoltValues.

Local Open Scope N_scope.

Module batch.
Import client values.

(** * Operations *)

Record QueryBatchEdge := MkBatchEdge { be_src : VertexId; be_dst : VertexId }.
Record QueryBatchVertex := MkBatchVertex { bv_vertex : VertexId; bv_metadata : VertexMetadata }.
Record QueryBatchRelationship := MkBatchRelationship {
  brl_src : VertexId; brl_dst : VertexId; brl_metadata : EdgeMetadata }.
Record QueryBatchRelationshipMerge := MkBatchMerge {
  brm_src : VertexId; brm_dst : VertexId; brm_relationship_id : RelationshipId; brm_metadata : EdgeMetadata }.
Record QueryBatchMergePolicy := MkMergePolicy {
  update_if_newer_by : string; create_only_properties : gset string }.

Global Instance QueryBatchEdge_eq_dec : EqDecision QueryBatchEdge.
Proof. solve_decision. Defined.

Definition merge_policy_validate (p : QueryBatchMergePolicy) : Result unit :=
  _ ← validate_component "property" (update_if_newer_by p);
  _ ← collect (validate_component "property") (bset_iter (create_only_properties p));
  if bool_decide (update_if_newer_by p ∈ create_only_properties p)
  then Err (UnsupportedQuery "QueryBatch" ("update guard " +:+ update_if_newer_by p +:+ " cannot also be create-only"))
  else Ok tt.

Inductive QueryBatchOperation : Type :=
  | OutNeighbors (edge_type : string) (sources : list VertexId) (source_column destination_column : QueryColumn)
  | CreateEdges (edge_type : string) (edges : list QueryBatchEdge)
  | DeleteEdges (edge_type : string) (edges : list QueryBatchEdge)
  | DeleteVertices (vertices : list VertexId) (detach : bool)
  | DeleteRelationshipsByProperty (edge_type property : string) (values : list VertexPropertyValue)
  | CreateEdgesBetweenLabeledVertices (edge_type : string) (edges : list QueryBatchEdge)
      (source_label destination_label : string)
  | UpsertVertices (vertices : list QueryBatchVertex)
  | GuardedUpsertVertices (vertices : list QueryBatchVertex) (merge_policy : QueryBatchMergePolicy)
  | CreateRelationshipsBetweenLabeledVertices (edge_type : string) (relationships : list QueryBatchRelationship)
      (source_label destination_label : string)
  | MergeRelationshipsBetweenLabeledVertices (edge_type : string) (merges : list QueryBatchRelationshipMerge)
      (source_label destination_label : string)
  | GuardedMergeRelationshipsBetweenLabeledVertices (edge_type : string) (merges : list QueryBatchRelationshipMerge)
      (source_label destination_label : string) (merge_policy : QueryBatchMergePolicy).

Definition is_write (op : QueryBatchOperation) : bool :=
  match op with
  | CreateEdges _ _ | CreateEdgesBetweenLabeledVertices _ _ _ _ | DeleteEdges _ _ | DeleteVertices _ _
  | DeleteRelationshipsByProperty _ _ _ | UpsertVertices _ | GuardedUpsertVertices _ _
  | CreateRelationshipsBetweenLabeledVertices _ _ _ _ | MergeRelationshipsBetweenLabeledVertices _ _ _ _
  | GuardedMergeRelationshipsBetweenLabeledVertices _ _ _ _ _ => true
  | OutNeighbors _ _ _ _ => false
  end.
Definition len (op : QueryBatchOperation) : nat :=
  match op with
  | OutNeighbors _ sources _ _ => length sources
  | CreateEdges _ edges | CreateEdgesBetweenLabeledVertices _ edges _ _ | DeleteEdges _ edges => length edges
  | DeleteVertices vertices _ => length vertices
  | DeleteRelationshipsByProperty _ _ values => length values
  | UpsertVertices vertices | GuardedUpsertVertices vertices _ => length vertices
  | CreateRelationshipsBetweenLabeledVertices _ relationships _ _ => length relationships
  | MergeRelationshipsBetweenLabeledVertices _ merges _ _
  | GuardedMergeRelationshipsBetweenLabeledVertices _ merges _ _ _ => length merges
  end.
Definition is_empty (op : QueryBatchOperation) : bool := (len op =? 0)%nat.

(** What the parser makes of an UNWIND ([query/opencypher.rs]). *)
Inductive ParsedUnwindBatchKind : Type :=
  | KOutNeighbors (edge_type source_field : string) (source_column destination_column : QueryColumn)
  | KCreateEdges (edge_type source_field destination_field : string)
  | KCreateEdgesBetweenLabeledVertices (edge_type source_field destination_field source_label destination_label : string)
  | KDeleteEdges (edge_type source_field destination_field : string)
  | KDeleteVertices (vertex_field : string) (detach : bool)
  | KDeleteRelationshipsByProperty (edge_type property value_field : string)
  | KUpsertVertices (label vertex_field : string) (property_fields : gmap string string)
      (update_if_newer_by : option string) (create_only_properties : gset string)
  | KCreateRelationshipsBetweenLabeledVertices (edge_type source_field destination_field relationship_id_field : string)
      (property_fields : gmap string string) (source_label destination_label : string)
  | KMergeRelationshipsBetweenLabeledVertices (edge_type source_field destination_field relationship_id_field : string)
      (property_fields : gmap string string) (source_label destination_label : string)
      (update_if_newer_by : option string) (create_only_properties : gset string).
Record ParsedUnwindBatch := MkUnwind { pu_parameter : string; pu_kind : ParsedUnwindBatchKind }.

(** * Rows *)

Definition opencypher {A} (feature : string) : Result A := Err (UnsupportedQuery "OpenCypher" feature).
Definition row_text (index : nat) : string := "UNWIND row " +:+ dec (N.of_nat index).

(** [BTreeMap::get] on the entries of a parameter. *)
Fixpoint entry_get (entries : list (string * QueryParameterValue)) (field : string) : option QueryParameterValue :=
  match entries with
  | [] => None
  | (k, v) :: entries => if bool_decide (k = field) then Some v else entry_get entries field
  end.

Definition unwind_row_vertex_id (row : QueryParameterValue) (index : nat) (field : string) : Result VertexId :=
  match row with
  | PMap row =>
      value ← ok_or (entry_get row field)
                (UnsupportedQuery "OpenCypher" (row_text index +:+ " is missing field " +:+ field));
      match value with
      | PScalar (Integer value) => Ok value
      | PScalar (SignedInteger value) =>
          if (0 <=? value)%Z then Ok (Z.to_N value)
          else opencypher (row_text index +:+ " field " +:+ field +:+ " must be a non-negative integer")
      | _ => opencypher (row_text index +:+ " field " +:+ field +:+ " must be a non-negative integer")
      end
  | _ => opencypher (row_text index +:+ " must be a map")
  end.

Definition unwind_row_scalar (row : QueryParameterValue) (index : nat) (field : string) : Result VertexPropertyValue :=
  match row with
  | PMap row =>
      match entry_get row field with
      | Some (PScalar value) => Ok value
      | Some _ => opencypher (row_text index +:+ " field " +:+ field +:+ " must be scalar")
      | None => opencypher (row_text index +:+ " is missing field " +:+ field)
      end
  | _ => opencypher (row_text index +:+ " must be a map")
  end.

(** The loop over [property_fields]. *)
Definition unwind_properties (property_fields : gmap string string) (row : QueryParameterValue) (index : nat) :
  Result (gmap string VertexPropertyValue) :=
  foldl (λ acc p, properties ← acc; value ← unwind_row_scalar row index p.2; Ok (<[p.1 := value]> properties))
    (Ok ∅) (btree_iter property_fields).

Definition unwind_batch_edges (rows : list QueryParameterValue) (source_field destination_field : string) :
  Result (list QueryBatchEdge) :=
  collect (λ p : nat * QueryParameterValue, let '(index, row) := p in
    src ← unwind_row_vertex_id row index source_field;
    dst ← unwind_row_vertex_id row index destination_field;
    Ok (MkBatchEdge src dst)) (enumerate rows).

(** [retain(|edge| seen.insert(edge))]: first occurrences. *)
Fixpoint first_occurrences (seen edges : list QueryBatchEdge) : list QueryBatchEdge :=
  match edges with
  | [] => []
  | e :: edges => if bool_decide (e ∈ seen) then first_occurrences seen edges else e :: first_occurrences (e :: seen) edges
  end.

(** The derived order of [VertexPropertyValue], [Vec::sort] and [Vec::dedup]. *)
Definition value_tag (v : VertexPropertyValue) : N :=
  match v with Integer _ => 0 | SignedInteger _ => 1 | PBool _ => 2 | Float _ => 3 | PString _ => 4 end.
Definition value_compare (a b : VertexPropertyValue) : comparison :=
  match a, b with
  | Integer m, Integer n => m ?= n
  | SignedInteger m, SignedInteger n => (m ?= n)%Z
  | PBool m, PBool n => N.b2n m ?= N.b2n n
  | Float m, Float n => total_cmp m n
  | PString m, PString n => String.compare m n
  | _, _ => value_tag a ?= value_tag b
  end.
Definition value_le (a b : VertexPropertyValue) : Prop := value_compare a b ≠ Gt.
Global Instance value_le_dec : RelDecision value_le.
Proof. intros a b. unfold value_le. apply _. Defined.
Fixpoint dedup {A} `{EqDecision A} (l : list A) : list A :=
  match l with
  | x :: (y :: _) as l' => if bool_decide (x = y) then dedup l' else x :: dedup l'
  | l => l
  end.

(** * Resolution *)

Definition guarded {A} (update_if_newer_by : option string) (create_only_properties : gset string)
  (plain : A) (with_policy : QueryBatchMergePolicy → A) : A :=
  match update_if_newer_by with
  | Some update_if_newer_by => with_policy (MkMergePolicy update_if_newer_by create_only_properties)
  | None => plain
  end.

Definition resolve_kind (kind : ParsedUnwindBatchKind) (rows : list QueryParameterValue) : Result QueryBatchOperation :=
  match kind with
  | KOutNeighbors edge_type source_field source_column destination_column =>
      sources ← collect (λ p : nat * QueryParameterValue, unwind_row_vertex_id p.2 p.1 source_field) (enumerate rows);
      Ok (OutNeighbors edge_type sources source_column destination_column)
  | KCreateEdges edge_type source_field destination_field =>
      edges ← unwind_batch_edges rows source_field destination_field; Ok (CreateEdges edge_type edges)
  | KCreateEdgesBetweenLabeledVertices edge_type source_field destination_field source_label destination_label =>
      edges ← unwind_batch_edges rows source_field destination_field;
      Ok (CreateEdgesBetweenLabeledVertices edge_type edges source_label destination_label)
  | KDeleteEdges edge_type source_field destination_field =>
      edges ← unwind_batch_edges rows source_field destination_field;
      Ok (DeleteEdges edge_type (first_occurrences [] edges))
  | KDeleteVertices vertex_field detach =>
      vertices ← collect (λ p : nat * QueryParameterValue, unwind_row_vertex_id p.2 p.1 vertex_field) (enumerate rows);
      Ok (DeleteVertices (dedup (merge_sort N.le vertices)) detach)
  | KDeleteRelationshipsByProperty edge_type property value_field =>
      values ← collect (λ p : nat * QueryParameterValue, unwind_row_scalar p.2 p.1 value_field) (enumerate rows);
      Ok (DeleteRelationshipsByProperty edge_type property (dedup (merge_sort value_le values)))
  | KUpsertVertices label vertex_field property_fields update_if_newer_by create_only_properties =>
      vertices ← collect (λ p : nat * QueryParameterValue, let '(index, row) := p in
        properties ← unwind_properties property_fields row index;
        vertex ← unwind_row_vertex_id row index vertex_field;
        Ok (MkBatchVertex vertex (MkVertexMetadata (vm_labels (vertex_with_label VertexMetadata_default label)) properties)))
        (enumerate rows);
      Ok (guarded update_if_newer_by create_only_properties (UpsertVertices vertices) (GuardedUpsertVertices vertices))
  | KCreateRelationshipsBetweenLabeledVertices edge_type source_field destination_field relationship_id_field
      property_fields source_label destination_label =>
      relationships ← collect (λ p : nat * QueryParameterValue, let '(index, row) := p in
        properties ← unwind_properties property_fields row index;
        relationship_id ← unwind_row_vertex_id row index relationship_id_field;
        src ← unwind_row_vertex_id row index source_field;
        dst ← unwind_row_vertex_id row index destination_field;
        Ok (MkBatchRelationship src dst (MkEdgeMetadata (<["id" := Integer relationship_id]> properties)))) (enumerate rows);
      Ok (CreateRelationshipsBetweenLabeledVertices edge_type relationships source_label destination_label)
  | KMergeRelationshipsBetweenLabeledVertices edge_type source_field destination_field relationship_id_field
      property_fields source_label destination_label update_if_newer_by create_only_properties =>
      merges ← collect (λ p : nat * QueryParameterValue, let '(index, row) := p in
        properties ← unwind_properties property_fields row index;
        src ← unwind_row_vertex_id row index source_field;
        dst ← unwind_row_vertex_id row index destination_field;
        relationship_id ← unwind_row_vertex_id row index relationship_id_field;
        Ok (MkBatchMerge src dst relationship_id (MkEdgeMetadata properties))) (enumerate rows);
      Ok (guarded update_if_newer_by create_only_properties
            (MergeRelationshipsBetweenLabeledVertices edge_type merges source_label destination_label)
            (GuardedMergeRelationshipsBetweenLabeledVertices edge_type merges source_label destination_label))
  end.

Definition resolve_unwind_batch (parsed : ParsedUnwindBatch) (parameters : gmap string QueryParameterValue) :
  Result QueryBatchOperation :=
  let found := match parameters !! pu_parameter parsed with
    | Some value => Some value | None => parameters !! ("$" +:+ pu_parameter parsed) end in
  value ← ok_or found (MissingQueryParameter "OpenCypher" (pu_parameter parsed));
  match value with
  | PList rows => resolve_kind (pu_kind parsed) rows
  | _ => opencypher ("UNWIND parameter $" +:+ pu_parameter parsed +:+ " must be a list")
  end.

Definition batch_operation_columns (op : QueryBatchOperation) : list QueryColumn :=
  match op with
  | OutNeighbors _ _ source_column destination_column => [source_column; destination_column]
  | _ => []
  end.

(** Parameters of a query that is not a batch. *)
Definition scalar_query_parameters (parameters : gmap string QueryParameterValue) :
  Result (gmap string VertexPropertyValue) :=
  entries ← collect (λ p : string * QueryParameterValue, match p with
    | (name, PScalar value) => Ok (name, value)
    | (name, _) => unsupported ("composite parameter $" +:+ name +:+ " is only supported as an UNWIND input")
    end) (btree_iter parameters);
  Ok (btree_collect entries).
End batch.
