(* ===== verification/QueryBatchFacts.v ===== *)
(** UNWIND batches ([QueryBatch]): a batch is made of every row, of nothing but the
    rows, and of each thing to delete once. *)

From S2P Require Import Prelude Text Errors Model Namespace QueryData Client BoltWire BoltValues BoltValuesFacts QueryBatch.

Local Open Scope N_scope.

Import client values batch.

(** * What a row says *)

(** A scalar as the id of a vertex or relationship. *)
Definition denotes (v : VertexPropertyValue) (n : N) : Prop :=
  v = Integer n ∨ ∃ z, v = SignedInteger z ∧ (0 ≤ z)%Z ∧ n = Z.to_N z.
Definition row_value (row : QueryParameterValue) (field : string) (v : VertexPropertyValue) : Prop :=
  ∃ entries, row = PMap entries ∧ entry_get entries field = Some (PScalar v).
Definition row_id (row : QueryParameterValue) (field : string) (n : N) : Prop := ∃ v, row_value row field v ∧ denotes v n.
Definition row_properties (fields : gmap string string) (row : QueryParameterValue) (m : gmap string VertexPropertyValue) : Prop :=
  ∀ p, match fields !! p with
       | Some f => ∃ v, m !! p = Some v ∧ row_value row f v
       | None => m !! p = None
       end.

Lemma unwind_row_scalar_ok row k f v : unwind_row_scalar row k f = Ok v ↔ row_value row f v.
Proof.
  unfold unwind_row_scalar, row_value. split.
  - destruct row as [| |entries]; try done. destruct (entry_get entries f) as [[w| |]|] eqn:E; try done.
    intros [= <-]. by exists entries.
  - intros (entries & -> & ->). done.
Qed.
Lemma unwind_row_vertex_id_ok row k f n : unwind_row_vertex_id row k f = Ok n ↔ row_id row f n.
Proof.
  unfold unwind_row_vertex_id, row_id, row_value, denotes. split.
  - destruct row as [| |entries]; try done. destruct (entry_get entries f) as [[[m|z| | |]| |]|] eqn:E; cbn; try done.
    + intros [= <-]. exists (Integer m). split; [by exists entries|by left].
    + destruct (Z.leb_spec 0 z); [|done]. intros [= <-]. exists (SignedInteger z). split; [by exists entries|right; by exists z].
  - intros (v & (entries & -> & ->) & [->|(z & -> & Hz & ->)]); cbn; [done|]. by rewrite (proj2 (Z.leb_le 0 z)) by done.
Qed.

(** ** Fields of the loop over properties *)

Definition insert_field (row : QueryParameterValue) (index : nat) (acc : Result (gmap string VertexPropertyValue))
  (p : string * string) : Result (gmap string VertexPropertyValue) :=
  properties ← acc; value ← unwind_row_scalar row index p.2; Ok (<[p.1 := value]> properties).

Lemma insert_field_ok row k acc p f :
  insert_field row k (Ok acc) (p, f) =
  match unwind_row_scalar row k f with Ok v => Ok (<[p := v]> acc) | Err e => Err e end.
Proof. unfold insert_field. cbn [snd fst]. by destruct (unwind_row_scalar row k f). Qed.
Lemma insert_fields_err row k l e : foldl (insert_field row k) (Err e) l = Err e.
Proof. by induction l. Qed.

Lemma insert_fields_ok row k l acc m :
  NoDup l.*1 → foldl (insert_field row k) (Ok acc) l = Ok m →
  (∀ p f, (p, f) ∈ l → ∃ v, m !! p = Some v ∧ row_value row f v) ∧ (∀ p, p ∉ l.*1 → m !! p = acc !! p).
Proof.
  revert acc; induction l as [|[p f] l IH]; intros acc Hnd; cbn [foldl].
  - intros [= <-]. split; [by intros ? ? ?%elem_of_nil|done].
  - cbn in Hnd. apply NoDup_cons in Hnd as [Hp Hnd]. rewrite insert_field_ok.
    destruct (unwind_row_scalar row k f) as [v|e] eqn:E; [|by rewrite insert_fields_err].
    intros Hm. apply IH in Hm as [H1 H2]; [|done]. apply unwind_row_scalar_ok in E. split.
    + intros q g Hin. apply elem_of_cons in Hin as [[= -> ->]|Hin]; [|by apply H1].
      exists v. split; [|done]. by rewrite H2, lookup_insert_eq by done.
    + intros q Hq. cbn in Hq. apply not_elem_of_cons in Hq as [Hne Hq]. rewrite H2 by done. by rewrite lookup_insert_ne.
Qed.

Lemma insert_fields_total row k l acc :
  (∃ m, foldl (insert_field row k) (Ok acc) l = Ok m) ↔ Forall (λ p, ∃ v, row_value row p.2 v) l.
Proof.
  revert acc; induction l as [|[p f] l IH]; intros acc; cbn [foldl]; [split; [done|by eexists]|].
  rewrite Forall_cons. rewrite insert_field_ok.
  destruct (unwind_row_scalar row k f) as [v|e] eqn:E.
  - apply unwind_row_scalar_ok in E. rewrite IH. split; [by eauto|by intros [_ ?]].
  - rewrite insert_fields_err. split; [by intros [? ?]|]. intros [[v Hv] _].
    cbn [snd] in Hv. apply (proj2 (unwind_row_scalar_ok row k f v)) in Hv. congruence.
Qed.

Lemma unwind_properties_ok fields row k m : unwind_properties fields row k = Ok m → row_properties fields row m.
Proof.
  unfold unwind_properties. change (λ acc p, _) with (insert_field row k). intros Hm.
  apply insert_fields_ok in Hm as [H1 H2]; [|apply btree_iter_nodup]. intros p.
  destruct (fields !! p) as [f|] eqn:E.
  - apply H1. by apply elem_of_btree_iter.
  - rewrite H2; [done|]. intros ([q g] & -> & Hin)%list_elem_of_fmap. apply elem_of_btree_iter in Hin. cbn in E. congruence.
Qed.
Lemma unwind_properties_total fields row k :
  (∃ m, unwind_properties fields row k = Ok m) ↔ map_Forall (λ _ f, ∃ v, row_value row f v) fields.
Proof.
  unfold unwind_properties. rewrite (insert_fields_total row k).
  rewrite Forall_forall, map_Forall_lookup. split.
  - intros H p f Hf. apply (H (p, f)). by apply elem_of_btree_iter.
  - intros H [p f] Hf. apply elem_of_btree_iter in Hf. by eapply H.
Qed.

(** * Rows in a batch *)

Lemma enumerate_rows {A B} (P : A → B → Prop) (rows : list A) bs :
  Forall2 (λ p b, P p.2 b) (enumerate rows) bs ↔ Forall2 P rows bs.
Proof.
  assert ((enumerate rows).*2 = rows) as E by (unfold enumerate; apply snd_zip; by rewrite length_seq).
  rewrite <- E at 2. by rewrite Forall2_fmap_l.
Qed.

(** A step on every row, and what a row must say for it. *)
Lemma collect_rows {B} (f : nat * QueryParameterValue → Result B) (P : QueryParameterValue → B → Prop)
  (Q : QueryParameterValue → Prop) rows :
  (∀ k row b, f (k, row) = Ok b → P row b) → (∀ k row, (∃ b, f (k, row) = Ok b) ↔ Q row) →
  (∀ bs, collect f (enumerate rows) = Ok bs → Forall2 P rows bs) ∧
  ((∃ bs, collect f (enumerate rows) = Ok bs) ↔ Forall Q rows).
Proof.
  intros HP HQ. split.
  - intros bs Hbs. apply collect_ok in Hbs. apply enumerate_rows. eapply Forall2_impl; [exact Hbs|].
    intros [k row] b. apply HP.
  - rewrite <- accepted_ok, collect_total, (forallb_Forall _ (λ p, Q p.2)).
    2: { intros [k row] _. rewrite accepted_ok. apply HQ. }
    rewrite <- (snd_zip (seq 0 (length rows)) rows) at 2 by (by rewrite length_seq). by rewrite Forall_fmap.
Qed.

Lemma bind_total {E A B} (m : result E A) (f : A → result E B) :
  (∃ b, m ≫= f = Ok b) ↔ ∃ a, m = Ok a ∧ ∃ b, f a = Ok b.
Proof. destruct m; cbn; split; [by eauto|by intros (? & [= ->] & ?)|by intros [? ?]|by intros (? & ? & ?)]. Qed.
Lemma row_id_total row k f : (∃ n, unwind_row_vertex_id row k f = Ok n) ↔ ∃ n, row_id row f n.
Proof. by setoid_rewrite unwind_row_vertex_id_ok. Qed.

(** What a kind reads of a row: fields that are ids, and fields that are scalars. *)
Definition id_fields (kind : ParsedUnwindBatchKind) : list string :=
  match kind with
  | KOutNeighbors _ f _ _ | KDeleteVertices f _ | KUpsertVertices _ f _ _ _ => [f]
  | KCreateEdges _ f g | KCreateEdgesBetweenLabeledVertices _ f g _ _ | KDeleteEdges _ f g => [f; g]
  | KDeleteRelationshipsByProperty _ _ _ => []
  | KCreateRelationshipsBetweenLabeledVertices _ f g h _ _ _
  | KMergeRelationshipsBetweenLabeledVertices _ f g h _ _ _ _ _ => [f; g; h]
  end.
Definition scalar_fields (kind : ParsedUnwindBatchKind) : list string :=
  match kind with
  | KDeleteRelationshipsByProperty _ _ f => [f]
  | KUpsertVertices _ _ fields _ _ | KCreateRelationshipsBetweenLabeledVertices _ _ _ _ fields _ _
  | KMergeRelationshipsBetweenLabeledVertices _ _ _ _ fields _ _ _ _ => (btree_iter fields).*2
  | _ => []
  end.
Definition row_fits (kind : ParsedUnwindBatchKind) (row : QueryParameterValue) : Prop :=
  Forall (λ f, ∃ n, row_id row f n) (id_fields kind) ∧ Forall (λ f, ∃ v, row_value row f v) (scalar_fields kind).

(** What becomes of the rows. *)
Definition edge_of (f g : string) (row : QueryParameterValue) (e : QueryBatchEdge) : Prop :=
  row_id row f (be_src e) ∧ row_id row g (be_dst e).
Definition vertex_of (label f : string) (fields : gmap string string) (row : QueryParameterValue) (v : QueryBatchVertex) : Prop :=
  row_id row f (bv_vertex v) ∧ vm_labels (bv_metadata v) = {[label]} ∧ row_properties fields row (vm_properties (bv_metadata v)).
Definition relationship_of (f g h : string) (fields : gmap string string) (row : QueryParameterValue) (r : QueryBatchRelationship) : Prop :=
  row_id row f (brl_src r) ∧ row_id row g (brl_dst r) ∧
  ∃ id m, row_id row h id ∧ row_properties fields row m ∧ emd_properties (brl_metadata r) = <["id" := Integer id]> m.
Definition merge_of (f g h : string) (fields : gmap string string) (row : QueryParameterValue) (r : QueryBatchRelationshipMerge) : Prop :=
  row_id row f (brm_src r) ∧ row_id row g (brm_dst r) ∧ row_id row h (brm_relationship_id r) ∧
  row_properties fields row (emd_properties (brm_metadata r)).

Definition resolves (kind : ParsedUnwindBatchKind) (rows : list QueryParameterValue) (op : QueryBatchOperation) : Prop :=
  match kind with
  | KOutNeighbors t f s d => ∃ ns, op = OutNeighbors t ns s d ∧ Forall2 (λ row n, row_id row f n) rows ns
  | KCreateEdges t f g => ∃ es, op = CreateEdges t es ∧ Forall2 (edge_of f g) rows es
  | KCreateEdgesBetweenLabeledVertices t f g s d =>
      ∃ es, op = CreateEdgesBetweenLabeledVertices t es s d ∧ Forall2 (edge_of f g) rows es
  | KDeleteEdges t f g =>
      ∃ all es, op = DeleteEdges t es ∧ Forall2 (edge_of f g) rows all ∧ NoDup es ∧ es `sublist_of` all ∧ ∀ e, e ∈ es ↔ e ∈ all
  | KDeleteVertices f detach =>
      ∃ all ns, op = DeleteVertices ns detach ∧ Forall2 (λ row n, row_id row f n) rows all ∧
        StronglySorted N.lt ns ∧ ∀ n, n ∈ ns ↔ n ∈ all
  | KDeleteRelationshipsByProperty t p f =>
      ∃ all vs, op = DeleteRelationshipsByProperty t p vs ∧ Forall2 (λ row v, row_value row f v) rows all ∧
        ∀ v, v ∈ vs ↔ v ∈ all
  | KUpsertVertices label f fields newer create_only =>
      ∃ vs, op = match newer with
                 | Some by_ => GuardedUpsertVertices vs (MkMergePolicy by_ create_only) | None => UpsertVertices vs end ∧
            Forall2 (vertex_of label f fields) rows vs
  | KCreateRelationshipsBetweenLabeledVertices t f g h fields s d =>
      ∃ rs, op = CreateRelationshipsBetweenLabeledVertices t rs s d ∧ Forall2 (relationship_of f g h fields) rows rs
  | KMergeRelationshipsBetweenLabeledVertices t f g h fields s d newer create_only =>
      ∃ rs, op = match newer with
                 | Some by_ => GuardedMergeRelationshipsBetweenLabeledVertices t rs s d (MkMergePolicy by_ create_only)
                 | None => MergeRelationshipsBetweenLabeledVertices t rs s d end ∧
            Forall2 (merge_of f g h fields) rows rs
  end.

(** ** Duplicates *)

Lemma first_occurrences_spec seen es :
  (∀ e, e ∈ first_occurrences seen es ↔ e ∈ es ∧ e ∉ seen) ∧ NoDup (first_occurrences seen es) ∧ first_occurrences seen es `sublist_of` es.
Proof.
  revert seen; induction es as [|x es IH]; intros seen; cbn.
  - split_and!; [|constructor|constructor]. intros e. split; [by intros ?%elem_of_nil|by intros [?%elem_of_nil _]].
  - case_bool_decide as Hx.
    + destruct (IH seen) as (H1 & H2 & H3). split_and!; [|done|by apply sublist_cons]. intros e. rewrite H1, elem_of_cons.
      split; [by intros [? ?]; auto|]. intros [[->|?] ?]; done.
    + destruct (IH (x :: seen)) as (H1 & H2 & H3). split_and!; [| |by apply sublist_skip].
      * intros e. rewrite !elem_of_cons, H1, not_elem_of_cons. destruct (decide (e = x)) as [->|]; naive_solver.
      * constructor; [|done]. rewrite H1, not_elem_of_cons. tauto.
Qed.

Lemma first_column_elem {A} `{EqDecision A} (l : list A) x : x ∈ dedup l ↔ x ∈ l.
Proof.
  induction l as [|a [|b l] IH]; [done|done|]. cbn [dedup] in *. case_bool_decide as E; rewrite elem_of_cons, IH, ?elem_of_cons.
  - subst. tauto.
  - done.
Qed.
Lemma dedup_sorted (l : list N) : StronglySorted N.le l → StronglySorted N.lt (dedup l).
Proof.
  induction l as [|a [|b l] IH]; intros Hs; [constructor|by repeat constructor|].
  apply StronglySorted_inv in Hs as [Hs Ha]. cbn [dedup] in *. case_bool_decide as E; [by apply IH|].
  constructor; [by apply IH|]. apply Forall_forall. intros x Hx. apply (proj1 (first_column_elem (b :: l) x)) in Hx.
  assert (a ≤ b) by (by apply Forall_inv in Ha). assert (b ≤ x).
  { apply StronglySorted_inv in Hs as [_ Hb]. apply elem_of_cons in Hx as [->|Hx]; [done|]. rewrite Forall_forall in Hb. by apply Hb. }
  lia.
Qed.

(** ** Resolution *)

Lemma map_total {E A B} (m : result E A) (f : A → B) : (∃ b, (a ← m; Ok (f a)) = Ok b) ↔ ∃ a, m = Ok a.
Proof. rewrite bind_total. split; [intros (a & -> & _); by eexists|intros [a ->]; by eauto]. Qed.

Ltac bind_inv H :=
  repeat (apply bind_ok in H; let a := fresh "a" in let E := fresh "E" in destruct H as (a & E & H));
  injection H as <-.
(** A chain of steps that do not depend on each other. *)
Lemma chain_total {E A B} (m : result E A) (f : A → result E B) (P Q : Prop) :
  ((∃ a, m = Ok a) ↔ P) → (∀ a, (∃ b, f a = Ok b) ↔ Q) → (∃ b, m ≫= f = Ok b) ↔ P ∧ Q.
Proof.
  intros HP HQ. rewrite bind_total, <- HP. split; [intros (a & -> & Hb)|intros [[a ->] Hq]].
  - split; [by eexists|by apply (HQ a)].
  - exists a. split; [done|by apply HQ].
Qed.
Lemma last_total {E A B} (m : result E A) (f : A → B) (P : Prop) :
  ((∃ a, m = Ok a) ↔ P) → (∃ b, (a ← m; Ok (f a)) = Ok b) ↔ P.
Proof. by rewrite map_total. Qed.

Lemma ids_rows f rows :
  (∀ ns, collect (λ p : nat * QueryParameterValue, unwind_row_vertex_id p.2 p.1 f) (enumerate rows) = Ok ns →
     Forall2 (λ row n, row_id row f n) rows ns) ∧
  ((∃ ns, collect (λ p : nat * QueryParameterValue, unwind_row_vertex_id p.2 p.1 f) (enumerate rows) = Ok ns) ↔
     Forall (λ row, ∃ n, row_id row f n) rows).
Proof. apply collect_rows; cbn; [intros k row n; by apply unwind_row_vertex_id_ok|intros; apply row_id_total]. Qed.

Lemma edges_rows f g rows :
  (∀ es, unwind_batch_edges rows f g = Ok es → Forall2 (edge_of f g) rows es) ∧
  ((∃ es, unwind_batch_edges rows f g = Ok es) ↔ Forall (λ row, (∃ n, row_id row f n) ∧ ∃ n, row_id row g n) rows).
Proof.
  apply collect_rows; intros k row.
  - intros e He. bind_inv He. by split; [apply unwind_row_vertex_id_ok in E|apply unwind_row_vertex_id_ok in E0].
  - apply chain_total; [apply row_id_total|]. intros ?. apply last_total, row_id_total.
Qed.

Definition properties_fit (fields : gmap string string) (row : QueryParameterValue) : Prop :=
  map_Forall (λ _ f, ∃ v, row_value row f v) fields.
Lemma properties_fit_iter fields row :
  Forall (λ f, ∃ v, row_value row f v) (btree_iter fields).*2 ↔ properties_fit fields row.
Proof.
  unfold properties_fit. rewrite Forall_fmap, Forall_forall, map_Forall_lookup. split.
  - intros H p f Hf. apply (H (p, f)). by apply elem_of_btree_iter.
  - intros H [p f] Hf. apply elem_of_btree_iter in Hf. by eapply H.
Qed.

(** The three kinds of rows with properties. *)
Lemma vertex_rows label f fields k row :
  let make := (properties ← unwind_properties fields row k; vertex ← unwind_row_vertex_id row k f;
    Ok (MkBatchVertex vertex (MkVertexMetadata (vm_labels (vertex_with_label VertexMetadata_default label)) properties))) : Result _ in
  (∀ v, make = Ok v → vertex_of label f fields row v) ∧
  ((∃ v, make = Ok v) ↔ properties_fit fields row ∧ ∃ n, row_id row f n).
Proof.
  split.
  - intros v Hv. bind_inv Hv. apply unwind_properties_ok in E. apply unwind_row_vertex_id_ok in E0.
    split; [done|]. split; [|done]. cbn. by rewrite (right_id_L ∅ (∪)).
  - apply chain_total; [apply unwind_properties_total|]. intros ?. apply last_total, row_id_total.
Qed.
Lemma relationship_rows f g h fields k row :
  let make := (properties ← unwind_properties fields row k; relationship_id ← unwind_row_vertex_id row k h;
    src ← unwind_row_vertex_id row k f; dst ← unwind_row_vertex_id row k g;
    Ok (MkBatchRelationship src dst (MkEdgeMetadata (<["id" := Integer relationship_id]> properties)))) : Result _ in
  (∀ r, make = Ok r → relationship_of f g h fields row r) ∧
  ((∃ r, make = Ok r) ↔ properties_fit fields row ∧ (∃ n, row_id row h n) ∧ (∃ n, row_id row f n) ∧ ∃ n, row_id row g n).
Proof.
  split.
  - intros r Hr. bind_inv Hr. apply unwind_properties_ok in E. apply unwind_row_vertex_id_ok in E0, E1, E2.
    split; [done|]. split; [done|]. by exists a0, a.
  - apply chain_total; [apply unwind_properties_total|]. intros ?. apply chain_total; [apply row_id_total|].
    intros ?. apply chain_total; [apply row_id_total|]. intros ?. apply last_total, row_id_total.
Qed.
Lemma merge_rows f g h fields k row :
  let make := (properties ← unwind_properties fields row k; src ← unwind_row_vertex_id row k f;
    dst ← unwind_row_vertex_id row k g; relationship_id ← unwind_row_vertex_id row k h;
    Ok (MkBatchMerge src dst relationship_id (MkEdgeMetadata properties))) : Result _ in
  (∀ r, make = Ok r → merge_of f g h fields row r) ∧
  ((∃ r, make = Ok r) ↔ properties_fit fields row ∧ (∃ n, row_id row f n) ∧ (∃ n, row_id row g n) ∧ ∃ n, row_id row h n).
Proof.
  split.
  - intros r Hr. bind_inv Hr. apply unwind_properties_ok in E. apply unwind_row_vertex_id_ok in E0, E1, E2. by split_and!.
  - apply chain_total; [apply unwind_properties_total|]. intros ?. apply chain_total; [apply row_id_total|].
    intros ?. apply chain_total; [apply row_id_total|]. intros ?. apply last_total, row_id_total.
Qed.

Lemma resolve_kind_resolves kind rows op : resolve_kind kind rows = Ok op → resolves kind rows op.
Proof.
  destruct kind; cbn [resolve_kind resolves]; intros Hop; bind_inv Hop.
  - apply ids_rows in E. eauto.
  - apply edges_rows in E. eauto.
  - apply edges_rows in E. eauto.
  - apply edges_rows in E. destruct (first_occurrences_spec [] a) as (H1 & H2 & H3). exists a, (first_occurrences [] a).
    split_and!; try done. intros e. rewrite H1. split; [by intros [? _]|]. intros He. split; [done|]. apply not_elem_of_nil.
  - apply ids_rows in E. eexists a, _. split_and!; [done|done| |].
    + apply dedup_sorted. apply StronglySorted_merge_sort; apply _.
    + intros n. by rewrite first_column_elem, merge_sort_Permutation.
  - assert (Forall2 (λ row v, row_value row value_field v) rows a) as Ha.
    { eapply (collect_rows _ _ (λ row, ∃ v, row_value row value_field v)); [| |exact E].
      - intros k row v. apply unwind_row_scalar_ok.
      - intros k row. cbn [fst snd]. by setoid_rewrite unwind_row_scalar_ok. }
    eexists a, _. split_and!; [done|done|]. intros v. by rewrite first_column_elem, merge_sort_Permutation.
  - exists a. split; [by destruct update_if_newer_by|].
    eapply (collect_rows _ _ (λ row, properties_fit property_fields row ∧ ∃ n, row_id row vertex_field n)); [| |exact E];
      intros k row; apply vertex_rows.
  - exists a. split; [done|].
    eapply (collect_rows _ (relationship_of source_field destination_field relationship_id_field property_fields)); [| |exact E];
      intros k row; apply relationship_rows.
  - exists a. split; [by destruct update_if_newer_by|].
    eapply (collect_rows _ (merge_of source_field destination_field relationship_id_field property_fields)); [| |exact E];
      intros k row; apply merge_rows.
Qed.

Lemma Forall_iff_pointwise {A} (P Q : A → Prop) l : (∀ a, P a ↔ Q a) → Forall P l ↔ Forall Q l.
Proof. intros H. split; intros HF; (eapply Forall_impl; [exact HF|]; intros a; apply H). Qed.

Lemma resolve_kind_total kind rows : (∃ op, resolve_kind kind rows = Ok op) ↔ Forall (row_fits kind) rows.
Proof.
  destruct kind; cbn [resolve_kind]; rewrite map_total.
  - rewrite (proj2 (ids_rows _ _)). apply Forall_iff_pointwise. intros row. unfold row_fits. cbn.
    rewrite !Forall_cons, !Forall_nil. tauto.
  - rewrite (proj2 (edges_rows _ _ _)). apply Forall_iff_pointwise. intros row. unfold row_fits. cbn.
    rewrite !Forall_cons, !Forall_nil. tauto.
  - rewrite (proj2 (edges_rows _ _ _)). apply Forall_iff_pointwise. intros row. unfold row_fits. cbn.
    rewrite !Forall_cons, !Forall_nil. tauto.
  - rewrite (proj2 (edges_rows _ _ _)). apply Forall_iff_pointwise. intros row. unfold row_fits. cbn.
    rewrite !Forall_cons, !Forall_nil. tauto.
  - rewrite (proj2 (ids_rows _ _)). apply Forall_iff_pointwise. intros row. unfold row_fits. cbn.
    rewrite !Forall_cons, !Forall_nil. tauto.
  - refine (proj2 (collect_rows _ (λ row v, row_value row value_field v) _ rows _ _)).
    + intros k row v. apply unwind_row_scalar_ok.
    + intros k row. cbn [fst snd]. setoid_rewrite unwind_row_scalar_ok. unfold row_fits. cbn.
      rewrite !Forall_cons, !Forall_nil. tauto.
  - refine (proj2 (collect_rows _ (vertex_of label vertex_field property_fields) _ rows _ _)); intros k row; [apply vertex_rows|].
    rewrite (proj2 (vertex_rows label vertex_field property_fields k row)). unfold row_fits. cbn [id_fields scalar_fields].
    rewrite properties_fit_iter, !Forall_cons, !Forall_nil. tauto.
  - refine (proj2 (collect_rows _ (relationship_of source_field destination_field relationship_id_field property_fields) _ rows _ _));
      intros k row; [apply relationship_rows|].
    rewrite (proj2 (relationship_rows _ _ _ _ k row)). unfold row_fits. cbn [id_fields scalar_fields].
    rewrite properties_fit_iter, !Forall_cons, !Forall_nil. tauto.
  - refine (proj2 (collect_rows _ (merge_of source_field destination_field relationship_id_field property_fields) _ rows _ _));
      intros k row; [apply merge_rows|].
    rewrite (proj2 (merge_rows _ _ _ _ k row)). unfold row_fits. cbn [id_fields scalar_fields].
    rewrite properties_fit_iter, !Forall_cons, !Forall_nil. tauto.
Qed.

(** The value a batch unwinds: its parameter, with or without the dollar sign. *)
Definition unwinds (parsed : ParsedUnwindBatch) (parameters : gmap string QueryParameterValue) : option QueryParameterValue :=
  match parameters !! pu_parameter parsed with
  | Some v => Some v | None => parameters !! ("$" +:+ pu_parameter parsed) end.

(** C37: an UNWIND batch is accepted exactly when its parameter is a list every row
    of which has the fields the statement reads, ids where ids belong and scalars
    elsewhere; and the batch is then the rows, in order and one item each, with
    every property of the statement and no other, except that what is to be deleted
    is named once: edges at their first occurrence, vertices in order. *)
Theorem unwind_batch_exact parsed parameters :
  ((∃ op, resolve_unwind_batch parsed parameters = Ok op) ↔
     ∃ rows, unwinds parsed parameters = Some (PList rows) ∧ Forall (row_fits (pu_kind parsed)) rows) ∧
  ∀ op, resolve_unwind_batch parsed parameters = Ok op →
    ∃ rows, unwinds parsed parameters = Some (PList rows) ∧ resolves (pu_kind parsed) rows op.
Proof.
  unfold resolve_unwind_batch. fold (unwinds parsed parameters).
  destruct (unwinds parsed parameters) as [[v|rows|es]|]; cbn [ok_or mbind result_bind].
  all: try (split; [split; [by intros [? ?]|by intros (? & ? & ?)]|by intros ? ?]).
  split.
  - etrans; [apply resolve_kind_total|]. split; [eauto|by intros (? & [= ->] & ?)].
  - intros op Hop. exists rows. split; [done|]. by apply resolve_kind_resolves.
Qed.
