(* ===== verification/Floats.v ===== *)
(** Doubles by their bits ([core/model.rs], [shard/query.rs]): their exact values,
    the conversions to and from 64-bit integers, and the order of numbers of
    different kinds that queries compare by. *)

From S2P Require Import Prelude Text Errors Model Codec.

Module f64.

(** Every finite double is a whole multiple of 2^-1074; [Fin z] is z times that. *)
Definition SCALE : Z := 2 ^ 1074.
Inductive F64 := Nan | Inf (negative : bool) | Fin (scaled : Z).

Definition TWO52 : N := 4503599627370496.
Definition TWO63 : N := 9223372036854775808.

Local Open Scope N_scope.

Definition sign_bit (b : N) : bool := TWO63 <=? b.
Definition exponent (b : N) : N := (b / TWO52) mod 2048.
Definition fraction (b : N) : N := b mod TWO52.
Definition magnitude (e m : N) : Z :=
  if e =? 0 then Z.of_N m else (Z.of_N (TWO52 + m) * 2 ^ (Z.of_N e - 1))%Z.
Definition value_of (b : N) : F64 :=
  if exponent b =? 2047 then if fraction b =? 0 then Inf (sign_bit b) else Nan
  else Fin (if sign_bit b then (- magnitude (exponent b) (fraction b))%Z
            else magnitude (exponent b) (fraction b)).

(** [value as f64]: the nearest double, the even one of two. *)
Definition f64_of_u64 (n : N) : N :=
  if n =? 0 then 0
  else
    let k := N.log2 n in
    if k <=? 52 then (k + 1023) * TWO52 + (n * 2 ^ (52 - k) - TWO52)
    else
      let s := k - 52 in
      let q := n / 2 ^ s in
      let rest := n mod 2 ^ s in
      let up := (2 ^ (s - 1) <? rest) || ((rest =? 2 ^ (s - 1)) && N.odd q) in
      (k + 1023) * TWO52 + ((if up then q + 1 else q) - TWO52).
Definition f64_of_i64 (z : Z) : N :=
  if (z <? 0)%Z then TWO63 + f64_of_u64 (Z.to_N (- z)) else f64_of_u64 (Z.to_N z).

(** [==] on doubles. *)
Definition feq (a b : N) : bool :=
  match value_of a, value_of b with
  | Fin x, Fin y => (x =? y)%Z
  | Inf s, Inf t => Bool.eqb s t
  | _, _ => false
  end.

Definition whole (z : Z) : bool := (z mod SCALE =? 0)%Z.

Definition exact_u64_from_f64 (b : N) : option N :=
  match value_of b with
  | Fin z =>
      if negb ((0 <=? z)%Z && (z <? 18446744073709551616 * SCALE)%Z) || negb (whole z) then None
      else
        let integer := Z.to_N (z / SCALE) in
        if feq (f64_of_u64 integer) b then Some integer else None
  | _ => None
  end.
Definition exact_i64_from_f64 (b : N) : option Z :=
  match value_of b with
  | Fin z =>
      if negb ((- 9223372036854775808 * SCALE <=? z)%Z && (z <? 9223372036854775808 * SCALE)%Z) || negb (whole z)
      then None
      else
        let integer := (z / SCALE)%Z in
        if feq (f64_of_i64 integer) b then Some integer else None
  | _ => None
  end.
Definition exact_f64_from_u64 (value : N) : option N :=
  let float := f64_of_u64 value in
  if bool_decide (exact_u64_from_f64 float = Some value) then Some float else None.
Definition exact_f64_from_i64 (value : Z) : option N :=
  let float := f64_of_i64 value in
  if bool_decide (exact_i64_from_f64 float = Some value) then Some float else None.

(** * The order of numbers *)

Definition f64_total_cmp (a b : N) : comparison := total_cmp (MkQueryFloat a) (MkQueryFloat b).

Definition compare_i64_u64 (lhs : Z) (rhs : N) : comparison :=
  if (lhs <? 0)%Z then Lt else Z.to_N lhs ?= rhs.

(** The integer against the double's floor, then against what is left of it. *)
Definition compare_floor (lhs : Z) (z : Z) : comparison :=
  match (lhs ?= z / SCALE)%Z with
  | Eq => if whole z then Eq else Lt
  | ordering => ordering
  end.
Definition compare_i64_f64 (lhs : Z) (rhs : N) : comparison :=
  match value_of rhs with
  | Nan => f64_total_cmp (f64_of_i64 lhs) rhs
  | Inf negative => if negative then Gt else Lt
  | Fin z =>
      if (z <? - 9223372036854775808 * SCALE)%Z then Gt
      else if (9223372036854775808 * SCALE <=? z)%Z then Lt
      else compare_floor lhs z
  end.
Definition compare_u64_f64 (lhs : N) (rhs : N) : comparison :=
  match value_of rhs with
  | Nan => f64_total_cmp (f64_of_u64 lhs) rhs
  | Inf negative => if negative then Gt else Lt
  | Fin z =>
      if (z <? 0)%Z then Gt
      else if (18446744073709551616 * SCALE <=? z)%Z then Lt
      else compare_floor (Z.of_N lhs) z
  end.
Definition compare_f64_numeric (lhs rhs : N) : comparison :=
  if feq lhs rhs then Eq else f64_total_cmp lhs rhs.

Definition numeric_property_order (lhs rhs : VertexPropertyValue) : option comparison :=
  match lhs, rhs with
  | Integer lhs, Integer rhs => Some (lhs ?= rhs)
  | SignedInteger lhs, SignedInteger rhs => Some (lhs ?= rhs)%Z
  | SignedInteger lhs, Integer rhs => Some (compare_i64_u64 lhs rhs)
  | Integer lhs, SignedInteger rhs => Some (CompOpp (compare_i64_u64 rhs lhs))
  | Float lhs, Float rhs => Some (compare_f64_numeric (qf_bits lhs) (qf_bits rhs))
  | Integer lhs, Float rhs => Some (compare_u64_f64 lhs (qf_bits rhs))
  | Float lhs, Integer rhs => Some (CompOpp (compare_u64_f64 rhs (qf_bits lhs)))
  | SignedInteger lhs, Float rhs => Some (compare_i64_f64 lhs (qf_bits rhs))
  | Float lhs, SignedInteger rhs => Some (CompOpp (compare_i64_f64 rhs (qf_bits lhs)))
  | _, _ => None
  end.

Inductive RowComparisonOp := REq | RNe | RLt | RGt | RLte | RGte.

Definition compare_ordering (ordering : comparison) (op : RowComparisonOp) : bool :=
  match op, ordering with
  | REq, Eq | RNe, Lt | RNe, Gt | RLt, Lt | RGt, Gt | RLte, Eq | RLte, Lt | RGte, Eq | RGte, Gt => true
  | _, _ => false
  end.

Definition compare_vertex_property_values (lhs : VertexPropertyValue) (op : RowComparisonOp)
  (rhs : VertexPropertyValue) : Result bool :=
  match numeric_property_order lhs rhs, op with
  | Some ordering, _ => Ok (compare_ordering ordering op)
  | None, REq => Ok (bool_decide (lhs = rhs))
  | None, RNe => Ok (negb (bool_decide (lhs = rhs)))
  | None, _ =>
      match lhs, rhs with
      | PString lhs, PString rhs => Ok (compare_ordering (String.compare lhs rhs) op)
      | _, _ => Err (UnsupportedQuery "OpenCypher"
          "ordered comparisons require numeric or matching string values")
      end
  end.

Definition vertex_property_values_equal (lhs rhs : VertexPropertyValue) : bool :=
  match compare_vertex_property_values lhs REq rhs with Ok b => b | Err _ => false end.

(** * Index keys *)

Definition insert_float_property_index_key (keys : gset string) (bits : N) : gset string :=
  {[encode_vertex_property_value_key (Float (MkQueryFloat bits))]} ∪ keys.

(** The keys of every value that is equal to this one; the negative zero is [TWO63]. *)
Definition equivalent_property_index_keys (value : VertexPropertyValue) : list string :=
  let keys := {[encode_vertex_property_value_key value]} in
  bset_iter
    match value with
    | Integer value =>
        match exact_f64_from_u64 value with
        | Some float =>
            let keys := insert_float_property_index_key keys float in
            if value =? 0 then insert_float_property_index_key keys TWO63 else keys
        | None => keys
        end
    | SignedInteger value =>
        match exact_f64_from_i64 value with
        | Some float => insert_float_property_index_key keys float
        | None => keys
        end
    | Float value =>
        let keys :=
          if feq (qf_bits value) 0
          then insert_float_property_index_key (insert_float_property_index_key keys 0) TWO63
          else keys in
        match exact_u64_from_f64 (qf_bits value) with
        | Some integer => {[encode_vertex_property_value_key (Integer integer)]} ∪ keys
        | None =>
            match exact_i64_from_f64 (qf_bits value) with
            | Some integer => {[encode_vertex_property_value_key (from_i64 integer)]} ∪ keys
            | None => keys
            end
        end
    | PBool _ | PString _ => keys
    end.
End f64.
