(* ===== verification/FloatFacts.v ===== *)
(** Doubles and 64-bit integers: a double is equal to an integer, in the order that
    queries compare by, exactly when converting either to the other's kind gives it. *)

From S2P Require Import Prelude Text Errors Model Codec CodecFacts Floats.

Import f64.
Local Open Scope N_scope.

(** * Fields *)

Lemma fields_pos E F : E < 2048 → F < TWO52 →
  sign_bit (E * TWO52 + F) = false ∧ exponent (E * TWO52 + F) = E ∧ fraction (E * TWO52 + F) = F.
Proof.
  intros HE HF. unfold sign_bit, exponent, fraction, TWO52, TWO63 in *. split; [apply N.leb_gt; lia|].
  rewrite N.div_add_l, (N.div_small F), N.add_0_r, (N.mod_small E) by lia. split; [done|].
  rewrite N.add_comm, N.Div0.mod_add. by apply N.mod_small.
Qed.
Lemma fields_neg E F : E < 2048 → F < TWO52 →
  sign_bit (TWO63 + (E * TWO52 + F)) = true ∧ exponent (TWO63 + (E * TWO52 + F)) = E ∧
  fraction (TWO63 + (E * TWO52 + F)) = F.
Proof.
  intros HE HF. unfold sign_bit, exponent, fraction. split; [apply N.leb_le; lia|].
  replace (TWO63 + (E * TWO52 + F)) with ((2048 + E) * TWO52 + F) by (unfold TWO52, TWO63; lia).
  assert (TWO52 ≠ 0) by done. rewrite N.div_add_l, (N.div_small F), N.add_0_r by done. split.
  - replace (2048 + E) with (E + 1 * 2048) by lia. rewrite N.Div0.mod_add. by apply N.mod_small.
  - rewrite N.add_comm, N.Div0.mod_add. by apply N.mod_small.
Qed.

Lemma fields b : u64_ok b → exponent b < 2048 ∧ fraction b < TWO52 ∧
  b = (if sign_bit b then TWO63 else 0) + (exponent b * TWO52 + fraction b).
Proof.
  unfold u64_ok, u64_max. intros Hb. unfold sign_bit, exponent, fraction.
  assert (b = TWO52 * (b / TWO52) + b mod TWO52) as Hd by (by apply N.div_mod).
  assert (b mod TWO52 < TWO52) as Hm by (by apply N.mod_lt).
  split; [by apply N.mod_lt|]. split; [done|]. set (q := b / TWO52) in *. set (m := b mod TWO52) in *.
  assert (q = 2048 * (q / 2048) + q mod 2048) as Hq by (by apply N.div_mod).
  assert (q mod 2048 < 2048) as Hr by (by apply N.mod_lt).
  clearbody q m. revert Hq Hr. generalize (q / 2048) (q mod 2048). intros k j Hq Hr.
  destruct (N.leb_spec TWO63 b); unfold TWO52, TWO63 in *.
  - assert (k = 1) by lia. lia.
  - assert (k = 0) by lia. lia.
Qed.

(** * Magnitudes *)

#[local] Open Scope Z_scope.

Lemma magnitude_zero F : magnitude 0 F = Z.of_N F.
Proof. done. Qed.
Lemma magnitude_pos E F : (E ≠ 0)%N → magnitude E F = Z.of_N (TWO52 + F) * 2 ^ (Z.of_N E - 1).
Proof. intros H. unfold magnitude. by rewrite (proj2 (N.eqb_neq _ _) H). Qed.

Lemma significand_log F : (F < TWO52)%N → Z.log2 (Z.of_N (TWO52 + F)) = 52.
Proof. intros H. apply Z.log2_unique; unfold TWO52 in *; [done|]. change (2 ^ 52) with 4503599627370496. change (2 ^ Z.succ 52) with 9007199254740992. lia. Qed.

Lemma magnitude_log E F : (E ≠ 0)%N → (F < TWO52)%N → Z.log2 (magnitude E F) = 51 + Z.of_N E.
Proof.
  intros HE HF. rewrite magnitude_pos by done. rewrite Z.log2_mul_pow2 by (unfold TWO52; lia).
  rewrite significand_log by done. lia.
Qed.
Lemma magnitude_small F : (F < TWO52)%N → magnitude 0 F < 2 ^ 52.
Proof. rewrite magnitude_zero. unfold TWO52. intros. change (2 ^ 52) with 4503599627370496. lia. Qed.
Lemma magnitude_large E F : (E ≠ 0)%N → 2 ^ 52 ≤ magnitude E F.
Proof.
  intros HE. rewrite magnitude_pos by done. change (2 ^ 52) with 4503599627370496.
  assert (1 ≤ 2 ^ (Z.of_N E - 1)) by (apply (Z.pow_le_mono_r 2 0); lia). unfold TWO52. nia.
Qed.
Lemma magnitude_nonneg E F : 0 ≤ magnitude E F.
Proof.
  destruct (decide (E = 0%N)) as [->|HE]; [rewrite magnitude_zero; lia|].
  pose proof (magnitude_large E F HE) as H. change (2 ^ 52) with 4503599627370496 in H. lia.
Qed.

Lemma magnitude_inj E F E' F' : (F < TWO52)%N → (F' < TWO52)%N →
  magnitude E F = magnitude E' F' → E = E' ∧ F = F'.
Proof.
  intros HF HF' Heq. destruct (decide (E = 0%N)) as [->|HE], (decide (E' = 0%N)) as [->|HE'].
  - rewrite (magnitude_zero F), (magnitude_zero F') in Heq. split; [done|lia].
  - pose proof (magnitude_small F HF). pose proof (magnitude_large E' F' HE'). lia.
  - pose proof (magnitude_small F' HF'). pose proof (magnitude_large E F HE). lia.
  - pose proof (magnitude_log E F HE HF) as H1. pose proof (magnitude_log E' F' HE' HF') as H2.
    rewrite Heq, H2 in H1. assert (E = E') as -> by lia. split; [done|].
    rewrite (magnitude_pos E' F), (magnitude_pos E' F') in Heq by done. apply Z.mul_reg_r in Heq; [lia|apply Z.pow_nonzero; lia].
Qed.

(** * Values *)

Definition signed (s : bool) (z : Z) : Z := if s then - z else z.

Lemma value_fin b z : value_of b = Fin z →
  exponent b ≠ 2047%N ∧ z = signed (sign_bit b) (magnitude (exponent b) (fraction b)).
Proof.
  unfold value_of. destruct (N.eqb_spec (exponent b) 2047); [by destruct (_ =? _)%N|]. by intros [= <-].
Qed.
Lemma value_pos E F : (E < 2047)%N → (F < TWO52)%N → value_of (E * TWO52 + F) = Fin (magnitude E F).
Proof.
  intros HE HF. destruct (fields_pos E F) as (H1 & H2 & H3); [lia|done|]. unfold value_of. rewrite H1, H2, H3.
  by rewrite (proj2 (N.eqb_neq E 2047)) by lia.
Qed.
Lemma value_neg E F : (E < 2047)%N → (F < TWO52)%N → value_of (TWO63 + (E * TWO52 + F)) = Fin (- magnitude E F).
Proof.
  intros HE HF. destruct (fields_neg E F) as (H1 & H2 & H3); [lia|done|]. unfold value_of. rewrite H1, H2, H3.
  by rewrite (proj2 (N.eqb_neq E 2047)) by lia.
Qed.

(** A finite double is its value, but for the two zeros. *)
Lemma value_inj a b z : u64_ok a → u64_ok b → value_of a = Fin z → value_of b = Fin z → z ≠ 0 → a = b.
Proof.
  intros Ha Hb [_ Hza]%value_fin [_ Hzb]%value_fin Hz.
  destruct (fields a Ha) as (_ & HFa & Ea), (fields b Hb) as (_ & HFb & Eb).
  pose proof (magnitude_nonneg (exponent a) (fraction a)). pose proof (magnitude_nonneg (exponent b) (fraction b)).
  assert (sign_bit a = sign_bit b ∧ magnitude (exponent a) (fraction a) = magnitude (exponent b) (fraction b)) as [Hs Hm].
  { unfold signed in *. destruct (sign_bit a), (sign_bit b); split; (done || lia). }
  apply magnitude_inj in Hm as [HE HF]; [|done..]. rewrite Ea, Eb. by rewrite Hs, HE, HF.
Qed.
Lemma value_zero b : u64_ok b → value_of b = Fin 0 ↔ b = 0%N ∨ b = TWO63.
Proof.
  intros Hb. split; [|intros [->| ->]; reflexivity]. intros [_ Hz]%value_fin.
  destruct (fields b Hb) as (_ & HF & Eb). pose proof (magnitude_nonneg (exponent b) (fraction b)).
  assert (magnitude (exponent b) (fraction b) = magnitude 0 0) as Hm.
  { change (magnitude 0 0) with 0. unfold signed in Hz. destruct (sign_bit b); lia. }
  apply magnitude_inj in Hm as [HE HF']; [|done|done]. rewrite HE, HF' in Eb. rewrite Eb. destruct (sign_bit b); [by right|by left].
Qed.

(** * Integers as doubles *)

Definition representable (n : N) : Prop := n = 0%N ∨ (N.log2 n ≤ 52)%N ∨ (n mod 2 ^ (N.log2 n - 52) = 0)%N.

Lemma SCALE_pos : 0 < SCALE.
Proof. unfold SCALE. by apply Z.pow_pos_nonneg. Qed.

Lemma log2_u64 n : u64_ok n → (N.log2 n < 64)%N.
Proof.
  unfold u64_ok, u64_max. intros Hn. destruct (N.eq_dec n 0%N) as [->|H]; [done|].
  apply N.log2_lt_pow2; [lia|]. change (2 ^ 64)%N with 18446744073709551616%N. lia.
Qed.

(** The two cases of a conversion, as an exponent and a fraction. *)
Lemma f64_of_u64_form n : u64_ok n → n ≠ 0%N → ∃ q, (TWO52 ≤ q ≤ 2 * TWO52)%N ∧
  f64_of_u64 n = ((N.log2 n + 1023) * TWO52 + (q - TWO52))%N ∧
  (representable n → (q < 2 * TWO52)%N ∧ Z.of_N q * 2 ^ (Z.of_N (N.log2 n) - 52 + 1074) = Z.of_N n * SCALE).
Proof.
  intros Hn Hz. pose proof (N.log2_spec n ltac:(lia)) as [Hlo Hhi]. pose proof (log2_u64 n Hn) as Hk.
  unfold f64_of_u64. rewrite (proj2 (N.eqb_neq n 0) Hz). cbv zeta. set (k := N.log2 n) in *.
  destruct (N.leb_spec k 52) as [Hle|Hgt].
  - exists (n * 2 ^ (52 - k))%N.
    assert (2 ^ k * 2 ^ (52 - k) = TWO52)%N as Hp by (rewrite <- N.pow_add_r; by replace (k + (52 - k))%N with 52%N by lia).
    assert (0 < 2 ^ (52 - k))%N as Hpos by (apply N.neq_0_lt_0, N.pow_nonzero; done).
    rewrite N.pow_succ_r' in Hhi. split; [nia|]. split; [done|]. intros _. split; [nia|].
    rewrite N2Z.inj_mul, N2Z.inj_pow, <- Z.mul_assoc. f_equal. unfold SCALE. rewrite N2Z.inj_sub by lia.
    change (Z.of_N 2) with 2. rewrite <- Z.pow_add_r by lia. f_equal. lia.
  - set (s := (k - 52)%N). set (q := (n / 2 ^ s)%N).
    assert (0 < 2 ^ s)%N as Hpos by (apply N.neq_0_lt_0, N.pow_nonzero; done).
    assert (2 ^ k = TWO52 * 2 ^ s)%N as Hp.
    { change TWO52 with (2 ^ 52)%N. rewrite <- N.pow_add_r. f_equal. lia. }
    pose proof (N.div_mod n (2 ^ s) ltac:(lia)) as Hd. pose proof (N.mod_lt n (2 ^ s) ltac:(lia)) as Hm. fold q in Hd.
    rewrite N.pow_succ_r', Hp in Hhi. rewrite Hp in Hlo.
    assert (TWO52 ≤ q < 2 * TWO52)%N as Hq.
    { split; [apply N.div_le_lower_bound; lia|apply N.Div0.div_lt_upper_bound; lia]. }
    set (up := orb _ _). exists (if up then q + 1 else q)%N. split; [destruct up; lia|]. split; [done|].
    intros [?|[?|Hr]]; [done|lia|]. fold k s in Hr.
    assert (up = false) as ->.
    { unfold up. rewrite Hr. apply orb_false_iff. split; [by apply N.ltb_ge, N.le_0_l|].
      rewrite (proj2 (N.eqb_neq 0 (2 ^ (s - 1)))); [done|]. intros E. symmetry in E. by apply N.pow_nonzero in E. }
    split; [lia|]. rewrite Hr, N.add_0_r in Hd. rewrite Hd at 1. rewrite N2Z.inj_mul, N2Z.inj_pow.
    change (Z.of_N 2) with 2. unfold SCALE. rewrite (Z.mul_comm (2 ^ _) (Z.of_N q)), <- Z.mul_assoc, <- Z.pow_add_r by lia.
    do 2 f_equal. lia.
Qed.

Lemma f64_of_u64_shape n : u64_ok n → ∃ E F, (E < 2047)%N ∧ (F < TWO52)%N ∧ f64_of_u64 n = (E * TWO52 + F)%N ∧
  (representable n → magnitude E F = Z.of_N n * SCALE).
Proof.
  intros Hn. destruct (decide (n = 0%N)) as [->|Hz]; [by exists 0%N, 0%N|].
  destruct (f64_of_u64_form n Hn Hz) as (q & Hq & -> & Hr). pose proof (log2_u64 n Hn) as Hk.
  destruct (decide (q = 2 * TWO52)%N) as [->|Hne].
  - exists (N.log2 n + 1024)%N, 0%N. split; [lia|]. split; [done|]. split; [unfold TWO52; lia|].
    intros [? _]%Hr. lia.
  - exists (N.log2 n + 1023)%N, (q - TWO52)%N. split; [lia|]. split; [lia|]. split; [done|]. intros [_ Hv]%Hr.
    rewrite magnitude_pos, <- Hv by lia. f_equal; [lia|]. f_equal. lia.
Qed.

Lemma int_value n : u64_ok n → representable n → value_of (f64_of_u64 n) = Fin (Z.of_N n * SCALE).
Proof.
  intros Hn Hr. destruct (f64_of_u64_shape n Hn) as (E & F & HE & HF & -> & Hm). by rewrite value_pos, Hm.
Qed.
Lemma int_neg_value n : u64_ok n → representable n → value_of (TWO63 + f64_of_u64 n) = Fin (- (Z.of_N n * SCALE)).
Proof.
  intros Hn Hr. destruct (f64_of_u64_shape n Hn) as (E & F & HE & HF & -> & Hm). by rewrite value_neg, Hm.
Qed.
Lemma int_not_nan n : u64_ok n → (∃ z, value_of (f64_of_u64 n) = Fin z) ∧ (∃ z, value_of (TWO63 + f64_of_u64 n) = Fin z).
Proof.
  intros Hn. destruct (f64_of_u64_shape n Hn) as (E & F & HE & HF & -> & _).
  by rewrite value_pos, value_neg; eauto.
Qed.
Lemma f64_of_u64_word n : u64_ok n → (f64_of_u64 n < TWO63)%N.
Proof. intros Hn. destruct (f64_of_u64_shape n Hn) as (E & F & HE & HF & -> & _). unfold TWO52, TWO63 in *. lia. Qed.

(** A double of the size of an integer has nothing past its significand. *)
Lemma integer_representable E F n : (F < TWO52)%N → n ≠ 0%N →
  magnitude E F = Z.of_N n * SCALE → representable n.
Proof.
  intros HF Hn Hm. destruct (decide (E = 0%N)) as [->|HE].
  { pose proof (magnitude_small F HF). assert (2 ^ 52 ≤ SCALE) by (unfold SCALE; by apply Z.pow_le_mono_r). nia. }
  pose proof (magnitude_log E F HE HF) as Hl. rewrite Hm in Hl. unfold SCALE in Hl.
  rewrite Z.log2_mul_pow2 in Hl by lia.
  assert (Z.log2 (Z.of_N n) = Z.of_N (N.log2 n)) as Hk.
  { pose proof (N.log2_spec n ltac:(lia)) as [Hlo Hhi]. apply Z.log2_unique; [lia|].
    change 2 with (Z.of_N 2). rewrite <- N2Z.inj_succ, <- !N2Z.inj_pow. lia. }
  rewrite Hk in Hl. clear Hk.
  destruct (decide (N.log2 n ≤ 52)%N) as [?|Hgt]; [by right; left|]. right. right.
  rewrite magnitude_pos in Hm by done.
  replace (Z.of_N E - 1) with (Z.of_N (N.log2 n - 52) + 1074) in Hm by lia. unfold SCALE in Hm.
  rewrite Z.pow_add_r, Z.mul_assoc in Hm by lia. apply Z.mul_reg_r in Hm; [|by apply Z.pow_nonzero].
  apply N2Z.inj. rewrite N2Z.inj_mod, N2Z.inj_pow, <- Hm. apply Z.mod_mul. by apply Z.pow_nonzero; lia.
Qed.

Lemma value_integer b n : u64_ok b → n ≠ 0%N →
  value_of b = Fin (Z.of_N n * SCALE) ∨ value_of b = Fin (- (Z.of_N n * SCALE)) → representable n.
Proof.
  intros Hb Hn Hv. destruct (fields b Hb) as (_ & HF & _).
  pose proof (magnitude_nonneg (exponent b) (fraction b)) as H0. pose proof SCALE_pos.
  apply (integer_representable (exponent b) (fraction b)); [done..|].
  destruct Hv as [[_ Hz]%value_fin|[_ Hz]%value_fin]; unfold signed in Hz; destruct (sign_bit b); nia.
Qed.

(** * The conversions *)

Lemma whole_spec z : whole z = true ↔ z = z / SCALE * SCALE.
Proof.
  unfold whole. rewrite Z.eqb_eq. pose proof SCALE_pos as Hs. pose proof (Z.div_mod z SCALE ltac:(lia)). lia.
Qed.
Lemma whole_mul i : whole (i * SCALE) = true ∧ i * SCALE / SCALE = i.
Proof.
  pose proof SCALE_pos. unfold whole. rewrite Z.mod_mul, Z.div_mul by lia. done.
Qed.

Lemma u64_value i : u64_ok i → (∃ b, u64_ok b ∧ value_of b = Fin (Z.of_N i * SCALE)) → 
  value_of (f64_of_u64 i) = Fin (Z.of_N i * SCALE).
Proof.
  intros Hi (b & Hb & Hv). apply int_value; [done|]. destruct (decide (i = 0%N)) as [->|Hz]; [by left|].
  apply (value_integer b i Hb Hz). by left.
Qed.
Lemma i64_value i : - 9223372036854775808 ≤ i < 9223372036854775808 →
  (∃ b, u64_ok b ∧ value_of b = Fin (i * SCALE)) → value_of (f64_of_i64 i) = Fin (i * SCALE).
Proof.
  intros Hi (b & Hb & Hv). unfold f64_of_i64. destruct (Z.ltb_spec i 0).
  - rewrite int_neg_value; [f_equal; rewrite Z2N.id by lia; lia|unfold u64_ok, u64_max; lia|].
    apply (value_integer b _ Hb); [lia|]. right. rewrite Hv. f_equal. rewrite Z2N.id by lia. lia.
  - rewrite u64_value; [f_equal; by rewrite Z2N.id by lia|unfold u64_ok, u64_max; lia|].
    exists b. split; [done|]. by rewrite Z2N.id by lia.
Qed.

Lemma exact_u64_spec b i : u64_ok b →
  exact_u64_from_f64 b = Some i ↔ u64_ok i ∧ value_of b = Fin (Z.of_N i * SCALE).
Proof.
  intros Hb. pose proof SCALE_pos. unfold exact_u64_from_f64. split.
  - destruct (value_of b) as [|s|z]; [done..|].
    destruct (Z.leb_spec 0 z), (Z.ltb_spec z (18446744073709551616 * SCALE)), (whole z) eqn:Ew; cbn [andb orb negb]; try done.
    destruct (feq _ _); [|done]. intros [= <-]. apply whole_spec in Ew.
    assert (0 ≤ z / SCALE) by (by apply Z.div_pos). rewrite Z2N.id by done. split; [|by f_equal].
    assert (z / SCALE < 18446744073709551616) by (apply Z.div_lt_upper_bound; lia). unfold u64_ok, u64_max. lia.
  - intros [Hi Hv]. rewrite Hv. destruct (whole_mul (Z.of_N i)) as [-> ->]. rewrite N2Z.id. unfold feq.
    rewrite Hv, u64_value, Z.eqb_refl by eauto.
    unfold u64_ok, u64_max in Hi. rewrite (proj2 (Z.leb_le _ _)), (proj2 (Z.ltb_lt _ _)) by nia. done.
Qed.

Lemma exact_i64_spec b i : u64_ok b →
  exact_i64_from_f64 b = Some i ↔ - 9223372036854775808 ≤ i < 9223372036854775808 ∧ value_of b = Fin (i * SCALE).
Proof.
  intros Hb. pose proof SCALE_pos. unfold exact_i64_from_f64. split.
  - destruct (value_of b) as [|s|z]; [done..|].
    destruct (Z.leb_spec (- 9223372036854775808 * SCALE) z), (Z.ltb_spec z (9223372036854775808 * SCALE)), (whole z) eqn:Ew;
      cbn [andb orb negb]; try done.
    destruct (feq _ _); [|done]. intros [= <-]. apply whole_spec in Ew. split; [|by f_equal].
    split; [apply Z.div_le_lower_bound; lia|apply Z.div_lt_upper_bound; lia].
  - intros [Hi Hv]. rewrite Hv. destruct (whole_mul i) as [-> ->]. unfold feq.
    rewrite Hv, i64_value, Z.eqb_refl by eauto.
    rewrite (proj2 (Z.leb_le _ _)), (proj2 (Z.ltb_lt _ _)) by nia. done.
Qed.

(** * Comparisons *)

Lemma total_cmp_eq a b : u64_ok a → u64_ok b → f64_total_cmp a b = Eq ↔ a = b.
Proof.
  intros Ha Hb. unfold f64_total_cmp, total_cmp. cbn [qf_bits]. rewrite Z.compare_eq_iff. split; [|by intros ->].
  intros H. apply sortable_float_bits_inj; [done..|]. apply N2Z.inj. by rewrite !sortable_float_bits_spec, H.
Qed.

Lemma compare_floor_eq i z : compare_floor i z = Eq ↔ z = i * SCALE.
Proof.
  unfold compare_floor. destruct (Z.compare_spec i (z / SCALE)) as [->|Hlt|Hgt].
  - destruct (whole z) eqn:E; [apply whole_spec in E; done|]. split; [done|]. intros H.
    assert (whole z = true) by (by apply whole_spec). congruence.
  - split; [done|]. intros ->. destruct (whole_mul i) as [_ E]. rewrite E in Hlt. lia.
  - split; [done|]. intros ->. destruct (whole_mul i) as [_ E]. rewrite E in Hgt. lia.
Qed.

Lemma nan_not_int n b : u64_ok n → u64_ok b → value_of b = Nan →
  f64_total_cmp (f64_of_u64 n) b ≠ Eq ∧ f64_total_cmp (TWO63 + f64_of_u64 n) b ≠ Eq.
Proof.
  intros Hn Hb Hv. pose proof (f64_of_u64_word n Hn) as Hw. destruct (int_not_nan n Hn) as [[z1 H1] [z2 H2]].
  split; rewrite total_cmp_eq; [congruence| |done|congruence| |done]; unfold u64_ok, u64_max, TWO63 in *; lia.
Qed.

Lemma compare_u64_eq n b : u64_ok n → u64_ok b → compare_u64_f64 n b = Eq ↔ value_of b = Fin (Z.of_N n * SCALE).
Proof.
  intros Hn Hb. pose proof SCALE_pos. unfold compare_u64_f64. destruct (value_of b) as [|[]|z] eqn:E; [|done..|].
  - split; [|done]. intros H0. by apply nan_not_int in H0.
  - unfold u64_ok, u64_max in Hn. destruct (Z.ltb_spec z 0); [split; [done|intros [= ->]; nia]|].
    destruct (Z.leb_spec (18446744073709551616 * SCALE) z); [split; [done|intros [= ->]; nia]|].
    rewrite compare_floor_eq. split; [by intros ->|by intros [= ->]].
Qed.
Lemma compare_i64_eq i b : - 9223372036854775808 ≤ i < 9223372036854775808 → u64_ok b →
  compare_i64_f64 i b = Eq ↔ value_of b = Fin (i * SCALE).
Proof.
  intros Hi Hb. pose proof SCALE_pos. unfold compare_i64_f64. destruct (value_of b) as [|[]|z] eqn:E; [|done..|].
  - split; [|done]. intros H0. exfalso. revert H0. unfold f64_of_i64.
    destruct (i <? 0); apply nan_not_int; try done; unfold u64_ok, u64_max; lia.
  - destruct (Z.ltb_spec z (- 9223372036854775808 * SCALE)); [split; [done|intros [= ->]; nia]|].
    destruct (Z.leb_spec (9223372036854775808 * SCALE) z); [split; [done|intros [= ->]; nia]|].
    rewrite compare_floor_eq. split; [by intros ->|by intros [= ->]].
Qed.

Lemma inf_inj a b s : u64_ok a → u64_ok b → value_of a = Inf s → value_of b = Inf s → a = b.
Proof.
  intros Ha Hb. unfold value_of. destruct (fields a Ha) as (_ & _ & Ea), (fields b Hb) as (_ & _ & Eb).
  destruct (N.eqb_spec (exponent a) 2047) as [H1|], (N.eqb_spec (fraction a) 0) as [H2|]; try done.
  destruct (N.eqb_spec (exponent b) 2047) as [H3|], (N.eqb_spec (fraction b) 0) as [H4|]; try done.
  intros [= Hs1] [= Hs2]. rewrite Ea, Eb. by rewrite H1, H2, H3, H4, Hs1, Hs2.
Qed.

Lemma compare_f64_eq a b : u64_ok a → u64_ok b →
  compare_f64_numeric a b = Eq ↔ a = b ∨ ∃ z, value_of a = Fin z ∧ value_of b = Fin z.
Proof.
  intros Ha Hb. unfold compare_f64_numeric, feq.
  assert (f64_total_cmp a b = Eq ↔ a = b) as Ht by (by apply total_cmp_eq).
  destruct (value_of a) as [|s|x] eqn:Ea, (value_of b) as [|t|y] eqn:Eb;
    try (rewrite Ht; split; [by left|by intros [?|(z & ? & ?)]]).
  - destruct (Bool.eqb s t) eqn:E; [|rewrite Ht; split; [by left|by intros [?|(z & ? & ?)]]].
    apply eqb_prop in E as ->. split; [|done]. intros _. left. by eapply inf_inj.
  - destruct (Z.eqb_spec x y) as [->|Hne]; [split; [intros _; right; by exists y|done]|]. rewrite Ht.
    split; [by left|]. intros [?|(z & [= ->] & [= ->])]; done.
Qed.

(** ** Equality of values *)

(** A number, as a multiple of 2^-1074. *)
Definition number_of (v : VertexPropertyValue) : option Z :=
  match v with
  | Integer n => Some (Z.of_N n * SCALE)
  | SignedInteger z => Some (z * SCALE)
  | Float f => match value_of (qf_bits f) with Fin z => Some z | _ => None end
  | _ => None
  end.

Lemma float_number b z : number_of (Float (MkQueryFloat b)) = Some z ↔ value_of b = Fin z.
Proof. cbn. destruct (value_of b); split; intros [=]; by subst. Qed.

Lemma order_equal ordering : compare_ordering ordering REq = true ↔ ordering = Eq.
Proof. by destruct ordering. Qed.
Lemma opp_equal ordering : CompOpp ordering = Eq ↔ ordering = Eq.
Proof. by destruct ordering. Qed.

Definition same_number (w v : VertexPropertyValue) : Prop := ∃ z, number_of w = Some z ∧ number_of v = Some z.

Lemma same_ints a b : Z.of_N a = b ↔ Z.of_N a * SCALE = b * SCALE.
Proof. pose proof SCALE_pos. nia. Qed.

Lemma same_scaled a b : (∃ z, Some (a * SCALE) = Some z ∧ Some (b * SCALE) = Some z) ↔ a = b.
Proof.
  pose proof SCALE_pos. split; [|intros ->; by eexists]. intros (z & [= <-] & [= E]).
  apply Z.mul_reg_r in E; [done|lia].
Qed.
Lemma same_scaled_float a f : (∃ z, Some (a * SCALE) = Some z ∧ number_of (Float f) = Some z) ↔ value_of (qf_bits f) = Fin (a * SCALE).
Proof.
  destruct f as [b]. setoid_rewrite float_number. split; [by intros (z & [= <-] & ?)|]. intros H. by exists (a * SCALE).
Qed.
Lemma same_float_scaled a f : (∃ z, number_of (Float f) = Some z ∧ Some (a * SCALE) = Some z) ↔ value_of (qf_bits f) = Fin (a * SCALE).
Proof. rewrite <- same_scaled_float. split; intros (z & ? & ?); by exists z. Qed.

Lemma compare_signed_eq z n : compare_i64_u64 z n = Eq ↔ z = Z.of_N n.
Proof.
  unfold compare_i64_u64. destruct (Z.ltb_spec z 0); [split; [done|lia]|]. rewrite N.compare_eq_iff. lia.
Qed.

(** Two values are equal for a query exactly when they are the same value or the
    same number. *)
Lemma values_equal_spec w v : value_ok w → value_ok v →
  vertex_property_values_equal w v = true ↔ w = v ∨ same_number w v.
Proof.
  intros Hw Hv. unfold vertex_property_values_equal, compare_vertex_property_values, same_number.
  destruct w as [a|a|a|[a]|a], v as [b|b|b|[b]|b]; cbn [numeric_property_order qf_bits value_ok] in *;
    try (rewrite bool_decide_eq_true; split; [by left|by intros [?|(z & [=] & [=])]]);
    try (rewrite bool_decide_eq_true; split; [by left|by intros [?|(z & H1 & H2)]; [done|discriminate]]);
    rewrite order_equal, ?opp_equal; cbn [number_of]; rewrite ?same_scaled.
  - rewrite N.compare_eq_iff. split; [intros ->; by left|intros [[= ->]|?]; [done|lia]].
  - rewrite compare_signed_eq. split; [by right|intros [[=]|?]; done].
  - setoid_rewrite same_scaled_float. rewrite compare_u64_eq by done. split; [by right|intros [[=]|?]; done].
  - rewrite compare_signed_eq. split; [by right|intros [[=]|?]; done].
  - rewrite Z.compare_eq_iff. split; [intros ->; by left|intros [[= ->]|?]; done].
  - setoid_rewrite same_scaled_float. rewrite compare_i64_eq by (done || unfold i64_ok, i64_min, i64_max in *; lia).
    split; [by right|intros [[=]|?]; done].
  - setoid_rewrite same_float_scaled. rewrite compare_u64_eq by done. split; [by right|intros [[=]|?]; done].
  - setoid_rewrite same_float_scaled. rewrite compare_i64_eq by (done || unfold i64_ok, i64_min, i64_max in *; lia).
    split; [by right|intros [[=]|?]; done].
  - setoid_rewrite float_number. rewrite compare_f64_eq by done. split; [intros [->|?]; [by left|by right]|intros [[= ->]|?]; [by left|by right]].
Qed.

(** * Index keys *)

Lemma exact_f64_u64_spec n f : u64_ok n → exact_f64_from_u64 n = Some f → u64_ok f ∧ value_of f = Fin (Z.of_N n * SCALE).
Proof.
  intros Hn. unfold exact_f64_from_u64. case_bool_decide as H; [|done]. intros [= <-].
  pose proof (f64_of_u64_word n Hn). assert (u64_ok (f64_of_u64 n)) as Hf by (unfold u64_ok, u64_max, TWO63 in *; lia).
  by apply exact_u64_spec in H as [_ ?].
Qed.
Lemma exact_f64_u64_complete n b : u64_ok n → u64_ok b → value_of b = Fin (Z.of_N n * SCALE) →
  exact_f64_from_u64 n = Some (f64_of_u64 n) ∧ (b = f64_of_u64 n ∨ n = 0%N ∧ b = TWO63).
Proof.
  intros Hn Hb Hv. pose proof (f64_of_u64_word n Hn). pose proof SCALE_pos.
  assert (u64_ok (f64_of_u64 n)) as Hf by (unfold u64_ok, u64_max, TWO63 in *; lia).
  assert (value_of (f64_of_u64 n) = Fin (Z.of_N n * SCALE)) as Hfv by (apply u64_value; eauto). split.
  - unfold exact_f64_from_u64. rewrite bool_decide_eq_true_2; [done|]. by apply exact_u64_spec.
  - destruct (decide (n = 0%N)) as [->|Hz].
    + apply value_zero in Hv as [->| ->]; [by left|by right|done].
    + left. eapply value_inj; [done|done|exact Hv|exact Hfv|nia].
Qed.

Lemma f64_of_i64_word z : i64_ok z → u64_ok (f64_of_i64 z).
Proof.
  unfold i64_ok, i64_min, i64_max. intros Hz. unfold f64_of_i64.
  destruct (Z.ltb_spec z 0).
  - assert (u64_ok (Z.to_N (- z))) as Hn by (unfold u64_ok, u64_max; lia).
    pose proof (f64_of_u64_word _ Hn). unfold u64_ok, u64_max, TWO63 in *. lia.
  - assert (u64_ok (Z.to_N z)) as Hn by (unfold u64_ok, u64_max; lia).
    pose proof (f64_of_u64_word _ Hn). unfold u64_ok, u64_max, TWO63 in *. lia.
Qed.
Lemma exact_f64_i64_spec z f : i64_ok z → exact_f64_from_i64 z = Some f → u64_ok f ∧ value_of f = Fin (z * SCALE).
Proof.
  intros Hz. unfold exact_f64_from_i64. case_bool_decide as H; [|done]. intros [= <-].
  pose proof (f64_of_i64_word z Hz) as Hf. by apply exact_i64_spec in H as [_ ?].
Qed.
Lemma exact_f64_i64_complete z b : i64_ok z → z ≠ 0 → u64_ok b → value_of b = Fin (z * SCALE) →
  exact_f64_from_i64 z = Some b.
Proof.
  intros Hz Hne Hb Hv. pose proof (f64_of_i64_word z Hz) as Hf. pose proof SCALE_pos. unfold i64_ok, i64_min, i64_max in Hz.
  assert (value_of (f64_of_i64 z) = Fin (z * SCALE)) as Hfv by (apply i64_value; [lia|eauto]).
  assert (b = f64_of_i64 z) as -> by (eapply value_inj; [done|done|exact Hv|exact Hfv|nia]).
  unfold exact_f64_from_i64. rewrite bool_decide_eq_true_2; [done|]. apply exact_i64_spec; [done|]. split; [lia|done].
Qed.

(** Integers that are not negative are kept as [Integer]. *)
Definition canonical (v : VertexPropertyValue) : Prop := match v with SignedInteger z => z < 0 | _ => True end.

Lemma key_union w u (X : gset string) : value_ok w → value_ok u →
  encode_vertex_property_value_key w ∈ {[encode_vertex_property_value_key u]} ∪ X ↔
  w = u ∨ encode_vertex_property_value_key w ∈ X.
Proof.
  intros Hw Hu. rewrite elem_of_union, elem_of_singleton. apply or_iff_compat_r.
  split; [by apply value_key_inj|by intros ->].
Qed.
Lemma key_single w u : value_ok w → value_ok u →
  encode_vertex_property_value_key w ∈ ({[encode_vertex_property_value_key u]} : gset string) ↔ w = u.
Proof. intros Hw Hu. rewrite elem_of_singleton. split; [by apply value_key_inj|by intros ->]. Qed.
Lemma zero_words : u64_ok 0 ∧ u64_ok TWO63.
Proof. done. Qed.

#[local] Ltac word := cbn [qf_bits value_ok] in *; unfold i64_ok, i64_min, i64_max, u64_ok, u64_max, TWO63 in *; lia.

Lemma keys_of_integer w n : value_ok w → canonical w → u64_ok n →
  encode_vertex_property_value_key w ∈ equivalent_property_index_keys (Integer n) ↔ w = Integer n ∨ same_number w (Integer n).
Proof.
  intros Hw Hc Hn. unfold equivalent_property_index_keys. rewrite elem_of_bset_iter. cbv zeta.
  assert (∀ f, exact_f64_from_u64 n = Some f → u64_ok f ∧ same_number (Float (MkQueryFloat f)) (Integer n)) as Hf.
  { intros f [Hf Hv]%exact_f64_u64_spec; [|done]. split; [done|]. eexists. split; [by apply float_number|done]. }
  assert (same_number w (Integer n) → w ≠ Integer n → ∃ b, w = Float (MkQueryFloat b) ∧
    exact_f64_from_u64 n = Some (f64_of_u64 n) ∧ (b = f64_of_u64 n ∨ n = 0%N ∧ b = TWO63)) as Hs.
  { intros (z & Hz1 & [= <-]) Hne. pose proof SCALE_pos. destruct w as [a|a|a|[b]|a]; try discriminate Hz1.
    - injection Hz1 as Hz1. apply Z.mul_reg_r in Hz1; [|lia]. destruct Hne. f_equal. lia.
    - injection Hz1 as Hz1. apply Z.mul_reg_r in Hz1; [|lia]. cbn in Hc. lia.
    - apply float_number in Hz1. exists b. split; [done|]. by apply exact_f64_u64_complete. }
  unfold insert_float_property_index_key.
  destruct (exact_f64_from_u64 n) as [f|] eqn:Ef.
  - destruct (Hf f eq_refl) as [Hfo Hsame]. destruct (N.eqb_spec n 0) as [->|Hz].
    + rewrite !key_union, key_single by (done || word). split.
      * intros [->|[->|?]]; [|by right|by left]. right. exists 0. split; reflexivity.
      * intros [?|H]; [by do 2 right|]. destruct (decide (w = Integer 0)) as [?|Hne]; [by do 2 right|].
        destruct (Hs H Hne) as (b & -> & [= ->] & [->|[_ ->]]); [by right; left|by left].
    + rewrite key_union, key_single by (done || word). split; [intros [->|?]; [by right|by left]|].
      intros [?|H]; [by right|]. destruct (decide (w = Integer n)) as [?|Hne]; [by right|].
      destruct (Hs H Hne) as (b & -> & [= ->] & [->|[? _]]); [by left|done].
  - rewrite key_single by done. split; [by left|]. intros [?|H]; [done|].
    destruct (decide (w = Integer n)) as [?|Hne]; [done|]. by destruct (Hs H Hne) as (b & _ & [=] & _).
Qed.

Lemma keys_of_signed w z : value_ok w → canonical w → i64_ok z → z < 0 →
  encode_vertex_property_value_key w ∈ equivalent_property_index_keys (SignedInteger z) ↔
  w = SignedInteger z ∨ same_number w (SignedInteger z).
Proof.
  intros Hw Hc Hz Hneg. unfold equivalent_property_index_keys. rewrite elem_of_bset_iter. cbv zeta.
  assert (same_number w (SignedInteger z) → w = SignedInteger z ∨ ∃ b, w = Float (MkQueryFloat b) ∧
    exact_f64_from_i64 z = Some b) as Hs.
  { intros (y & Hz1 & [= <-]). pose proof SCALE_pos. destruct w as [a|a|a|[b]|a]; try discriminate Hz1.
    - injection Hz1 as Hz1. apply Z.mul_reg_r in Hz1; lia.
    - injection Hz1 as Hz1. apply Z.mul_reg_r in Hz1; [|lia]. left. by subst.
    - right. apply float_number in Hz1. exists b. split; [done|]. apply exact_f64_i64_complete; (done || lia). }
  unfold insert_float_property_index_key.
  destruct (exact_f64_from_i64 z) as [f|] eqn:Ef.
  - pose proof Ef as [Hfo Hv]%exact_f64_i64_spec; [|done]. rewrite key_union, key_single by done. split.
    + intros [->|?]; [right|by left]. eexists. split; [by apply float_number|done].
    + intros [?|[?|(b & -> & [= ->])]%Hs]; [by right|by right|by left].
  - rewrite key_single by done. split; [by left|]. intros [?|[?|(b & _ & [=])]%Hs]; done.
Qed.

Lemma from_i64_number i : number_of (from_i64 i) = Some (i * SCALE).
Proof. unfold from_i64. destruct (Z.ltb_spec i 0); cbn; [done|]. by rewrite Z2N.id. Qed.
Lemma from_i64_ok i : i64_ok i → value_ok (from_i64 i).
Proof. unfold from_i64. intros H. destruct (Z.ltb_spec i 0); [done|]. word. Qed.

Lemma keys_of_float w b : value_ok w → canonical w → u64_ok b →
  encode_vertex_property_value_key w ∈ equivalent_property_index_keys (Float (MkQueryFloat b)) ↔
  w = Float (MkQueryFloat b) ∨ same_number w (Float (MkQueryFloat b)).
Proof.
  intros Hw Hc Hb. unfold equivalent_property_index_keys. rewrite elem_of_bset_iter. cbv zeta. cbn [qf_bits].
  set (zeros := if feq b 0 then _ else _).
  assert (encode_vertex_property_value_key w ∈ zeros ↔ w = Float (MkQueryFloat b) ∨
    value_of b = Fin 0 ∧ ∃ f, w = Float (MkQueryFloat f) ∧ value_of f = Fin 0) as Hzeros.
  { unfold zeros, insert_float_property_index_key. destruct (feq b 0) eqn:E.
    - assert (value_of b = Fin 0) as Hv.
      { revert E. unfold feq. destruct (value_of b) as [|[]|y]; try done. intros ->%Z.eqb_eq. done. }
      rewrite !key_union, key_single by (done || word). split.
      + intros [->|[->|?]]; [right; split; [done|]; by eexists..|by left].
      + intros [?|(_ & f & -> & [->| ->]%value_zero)]; [by right; right|by right; left|by left|done].
    - rewrite key_single by done. split; [by left|]. intros [?|(Hv & _)]; [done|].
      unfold feq in E. by rewrite Hv in E. }
  assert (same_number w (Float (MkQueryFloat b)) ↔
    (value_of b = Fin 0 ∧ ∃ f, w = Float (MkQueryFloat f) ∧ value_of f = Fin 0) ∨
    (w = Float (MkQueryFloat b) ∧ ∃ z, value_of b = Fin z) ∨
    (∃ i, exact_u64_from_f64 b = Some i ∧ w = Integer i) ∨
    (exact_u64_from_f64 b = None ∧ ∃ i, exact_i64_from_f64 b = Some i ∧ w = from_i64 i)) as Hsame.
  { pose proof SCALE_pos. split.
    - intros (y & Hy1 & Hy2%float_number). destruct w as [a|a|a|[f]|a]; try discriminate Hy1.
      + injection Hy1 as <-. right. right. left. exists a. split; [by apply exact_u64_spec|done].
      + injection Hy1 as <-. right. right. right. cbn in Hc. split.
        * destruct (exact_u64_from_f64 b) as [i|] eqn:E; [|done]. apply exact_u64_spec in E as [_ E]; [|done].
          rewrite Hy2 in E. injection E as E. apply Z.mul_reg_r in E; lia.
        * exists a. split; [apply exact_i64_spec; [done|]; split; [word|done]|]. unfold from_i64.
          by rewrite (proj2 (Z.ltb_lt a 0) Hc).
      + apply float_number in Hy1. destruct (decide (y = 0)) as [->|Hne]; [left; by eauto|]. right. left.
        split; [|by eauto]. do 2 f_equal. by apply (value_inj f b y).
    - intros [(Hv & f & -> & Hf)|[(-> & z & Hv)|[(i & Hi & ->)|(_ & i & Hi & ->)]]].
      + exists 0. by rewrite !float_number.
      + exists z. by rewrite !float_number.
      + apply exact_u64_spec in Hi as [_ Hi]; [|done]. eexists. split; [done|by apply float_number].
      + apply exact_i64_spec in Hi as [_ Hi]; [|done]. eexists. split; [apply from_i64_number|by apply float_number]. }
  rewrite Hsame. destruct (exact_u64_from_f64 b) as [i|] eqn:Eu; [|destruct (exact_i64_from_f64 b) as [i|] eqn:Ei].
  - pose proof Eu as [Hi _]%exact_u64_spec; [|done]. rewrite key_union, Hzeros by done. naive_solver.
  - pose proof Ei as [Hi _]%exact_i64_spec; [|done]. rewrite key_union, Hzeros by (done || (apply from_i64_ok; word)). naive_solver.
  - rewrite Hzeros. naive_solver.
Qed.

Lemma equivalent_keys_spec w v : value_ok w → canonical w → value_ok v → canonical v →
  encode_vertex_property_value_key w ∈ equivalent_property_index_keys v ↔ vertex_property_values_equal w v = true.
Proof.
  intros Hw Hcw Hv Hcv. rewrite values_equal_spec by done.
  destruct v as [n|z|p|[b]|t]; [by apply keys_of_integer|by apply keys_of_signed| |by apply keys_of_float|];
    unfold equivalent_property_index_keys; rewrite elem_of_bset_iter; cbv zeta; rewrite key_single by done;
    (split; [by left|]; intros [?|(y & _ & [=])]; done).
Qed.

(** C11: an index seek finds exactly what the predicate accepts.  The key of a stored
    value is among the keys a query looks up exactly when the query's comparison
    finds the two values equal, and that is when they are the same value or the same
    number: integers and doubles of one value are one, the two zeros are one, and a
    NaN is only itself. *)
Theorem index_keys_are_equality (w v : VertexPropertyValue)
    (Hw : value_ok w) (Hcw : canonical w) (Hv : value_ok v) (Hcv : canonical v) :
  (encode_vertex_property_value_key w ∈ equivalent_property_index_keys v ↔ vertex_property_values_equal w v = true) ∧
  (vertex_property_values_equal w v = true ↔ w = v ∨ ∃ z, number_of w = Some z ∧ number_of v = Some z).
Proof. split; [by apply equivalent_keys_spec|by apply values_equal_spec]. Qed.

(** The double 3 and the integer 3. *)
Lemma index_keys_are_equality_witness :
  encode_vertex_property_value_key (Float (MkQueryFloat 4613937818241073152)) ∈ equivalent_property_index_keys (Integer 3).
Proof.
  apply (index_keys_are_equality (Float (MkQueryFloat 4613937818241073152)) (Integer 3));
    [done|done|done|done|vm_compute; reflexivity].
Defined.
