(* ===== verification/Vertices.v ===== *)
(** Vertex metadata and its indexes: the setting, merging and import of
    [shard/write.rs], and the lookups of [shard/query.rs] by label and property. *)

From S2P Require Import Prelude Text Errors Model Namespace Keys Codec CodecRecords Kv ShardTxn SegmentReads ShardWrite QueryBatch Floats.

Local Open Scope N_scope.

Module vertices.
Import batch f64.

(** The limits of [GraphLimits] that these paths read. *)
Record GraphLimits := MkGraphLimits { max_bulk_import_edges : N; max_query_index_candidates : N }.

(** * Updates *)

(** The properties of one update join those the batch already has for its vertex. *)
Definition coalesce_property (vertex_id : VertexId) (properties : gmap string VertexPropertyValue)
  (p : string * VertexPropertyValue) : Result (gmap string VertexPropertyValue) :=
  match properties !! p.1 with
  | Some existing =>
      if bool_decide (existing = p.2) then Ok (<[p.1 := p.2]> properties)
      else Err (UnsupportedQuery "GraphQuery"
        ("conflicting metadata values for vertex " +:+ dec vertex_id +:+ " property " +:+ p.1))
  | None => Ok (<[p.1 := p.2]> properties)
  end.
Definition coalesce_update (by_vertex : gmap VertexId VertexMetadata) (u : VertexId * VertexMetadata) :
  Result (gmap VertexId VertexMetadata) :=
  _ ← validate_vertex_metadata u.2;
  let entry := default VertexMetadata_default (by_vertex !! u.1) in
  properties ← foldM (coalesce_property u.1) (vm_properties entry) (btree_iter (vm_properties u.2));
  Ok (<[u.1 := MkVertexMetadata (vm_labels entry ∪ vm_labels u.2) properties]> by_vertex).
Definition coalesce_vertex_metadata_updates (updates : list (VertexId * VertexMetadata)) :
  Result (list (VertexId * VertexMetadata)) :=
  by_vertex ← foldM coalesce_update ∅ updates;
  Ok (btree_iter by_vertex).

(** The order of two guards of one kind. *)
Definition guard_order (previous requested : VertexPropertyValue) : option comparison :=
  match previous, requested with
  | Integer l, Integer r => Some (l ?= r)
  | SignedInteger l, SignedInteger r => Some (l ?= r)%Z
  | Float l, Float r => Some (total_cmp l r)
  | PString l, PString r => Some (String.compare l r)
  | _, _ => None
  end.

(** What is left of a patch for a vertex that exists, or nothing when the stored
    guard is not older than the patch's. *)
Definition guarded_metadata_patch (previous requested : gmap string VertexPropertyValue)
  (policy : QueryBatchMergePolicy) (key : string) : Result (option (gmap string VertexPropertyValue)) :=
  _ ← merge_policy_validate policy;
  let guard := update_if_newer_by policy in
  requested_guard ← ok_or (requested !! guard)
    (UnsupportedQuery "QueryBatch" ("guarded merge is missing incoming property " +:+ guard));
  let requested := filter (λ p, p.1 ∉ create_only_properties policy) requested in
  match previous !! guard with
  | None => Ok (Some requested)
  | Some previous_guard =>
      match guard_order previous_guard requested_guard with
      | None => corrupt key ("guarded merge property " +:+ guard +:+ " must have matching ordered scalar types")
      | Some Lt => Ok (Some requested)
      | Some _ => Ok None
      end
  end.

Section vertices.
Context {S : SlateDb}.

(** ** In a transaction *)

(** What an update makes of the stored metadata, if it changes it: the three loops
    differ in this. *)
Abbreviation Decide := (VertexId → string → option VertexMetadata → VertexMetadata → Result (option VertexMetadata)).

Definition stored (existing : option VertexMetadata) : VertexMetadata := default VertexMetadata_default existing.
Definition if_changed (previous next : VertexMetadata) : option VertexMetadata :=
  if bool_decide (previous = next) then None else Some next.

Definition decide_set : Decide := λ _ _ existing metadata, Ok (if_changed (stored existing) metadata).
Definition decide_merge (merge_policy : option QueryBatchMergePolicy) : Decide := λ _ vertex_key existing patch,
  let previous := stored existing in
  properties ←
    match existing, merge_policy with
    | Some _, Some policy => guarded_metadata_patch (vm_properties previous) (vm_properties patch) policy vertex_key
    | _, _ => Ok (Some (vm_properties patch))
    end;
  Ok (properties ← properties;
      if_changed previous (merge_vertex_metadata previous (MkVertexMetadata (vm_labels patch) properties))).
Definition decide_import : Decide := λ vertex_id vertex_key existing metadata,
  let previous := stored existing in
  if bool_decide (previous = metadata) then Ok None
  else if bool_decide (previous = VertexMetadata_default) then Ok (Some metadata)
  else corrupt vertex_key ("vertex " +:+ dec vertex_id +:+ " already has different metadata during import").

Definition read_existing (vertex_key : string) : SM (Tx S) (option VertexMetadata) :=
  value ← read_txn_remote vertex_key;
  match value with
  | Some value => metadata ← lift (decode_vertex_metadata vertex_key value); mret (Some metadata)
  | None => mret None
  end.

Fixpoint changed_vertices (cell_id : string) (decide : Decide) (updates : list (VertexId * VertexMetadata)) :
  SM (Tx S) (list (VertexId * VertexMetadata * VertexMetadata)) :=
  match updates with
  | [] => mret []
  | (vertex_id, metadata) :: updates =>
      let vertex_key := keys.vertex cell_id vertex_id in
      existing ← read_existing vertex_key;
      next ← lift (decide vertex_id vertex_key existing metadata);
      changed ← changed_vertices cell_id decide updates;
      mret (match next with
            | Some next => (vertex_id, stored existing, next) :: changed
            | None => changed
            end)
  end.

Definition batch_body (cell_id operation : string) (decide : Decide) (updates : list (VertexId * VertexMetadata)) :
  SM (Tx S) N :=
  validate_write_fence_txn cell_id operation ;;
  changed ← changed_vertices cell_id decide updates;
  match changed with
  | [] => mret 0
  | _ :: _ =>
      epoch ← next_epoch_txn cell_id;
      for_each (λ c, apply_vertex_metadata_update_txn cell_id c.1.1 c.1.2 c.2 epoch) changed ;;
      commit_txn_traced ;;
      mret (N.of_nat (length changed))
  end.

Definition set_body (cell_id : string) (vertex_id : VertexId) (metadata : VertexMetadata) : SM (Tx S) N :=
  validate_write_fence_txn cell_id "set_vertex_metadata" ;;
  let vertex_key := keys.vertex cell_id vertex_id in
  existing ← read_existing vertex_key;
  if bool_decide (stored existing = metadata) then mret 0
  else
    epoch ← next_epoch_txn cell_id;
    apply_vertex_metadata_update_txn cell_id vertex_id (stored existing) metadata epoch ;;
    commit_txn_traced ;;
    mret 1.

(** ** The operations *)

Definition locked {A} (cell_id operation : string) (body : SM (Tx S) A) : SM (Shard S) A :=
  acquire_local_write_guard cell_id operation ;; with_txn body.

Fixpoint vertex_retry_loop {A} (attempt : SM (Shard S) A) (commits : A → bool) (attempts : nat) : SM (Shard S) A :=
  match attempts with
  | O => fails (RetryExhausted "graph transaction" (N.of_nat GRAPH_TXN_MAX_RETRIES))
  | Datatypes.S attempts => λ s,
      match attempt s with
      | (s', Ok a) => ((if commits a then on_metrics bump_commits else mret tt) ;; mret a) s'
      | (s', Err e) =>
          if is_retryable_write_conflict e && negb (attempts =? 0)%nat
          then (on_metrics bump_retries ;; vertex_retry_loop attempt commits attempts) s'
          else (s', Err e)
      end
  end.

(** Its result is the number of vertices changed; the code returns nothing here and
    counts a commit even when there was nothing to change. *)
Definition set_vertex_metadata (cell_id : string) (vertex_id : VertexId) (metadata : VertexMetadata) : SM (Shard S) N :=
  let operation := "set_vertex_metadata" in
  lift (validate_component "cell_id" cell_id) ;;
  lift (validate_vertex_metadata metadata) ;;
  ensure_write_authority cell_id operation ;;
  acquire_graph_write_permit operation ;;
  vertex_retry_loop (locked cell_id operation (set_body cell_id vertex_id metadata)) (λ _, true) GRAPH_TXN_MAX_RETRIES.

Context (limits : GraphLimits).

Definition batch_operation (cell_id operation : string) (policy : option QueryBatchMergePolicy) (decide : Decide)
  (updates : list (VertexId * VertexMetadata)) : SM (Shard S) N :=
  lift (validate_component "cell_id" cell_id) ;;
  lift (match policy with Some policy => merge_policy_validate policy | None => Ok tt end) ;;
  ensure_write_authority cell_id operation ;;
  updates ← lift (coalesce_vertex_metadata_updates updates);
  match updates with
  | [] => mret 0
  | _ :: _ =>
      lift (ensure_limit operation (N.of_nat (length updates)) (max_bulk_import_edges limits)) ;;
      acquire_graph_write_permit operation ;;
      vertex_retry_loop (locked cell_id operation (batch_body cell_id operation decide updates))
        (λ changed, 0 <? changed) GRAPH_TXN_MAX_RETRIES
  end.

Definition set_vertex_metadata_batch (cell_id : string) (updates : list (VertexId * VertexMetadata)) : SM (Shard S) N :=
  batch_operation cell_id "set_vertex_metadata_batch" None decide_set updates.
Definition merge_vertex_metadata_batch (cell_id : string) (updates : list (VertexId * VertexMetadata))
  (merge_policy : option QueryBatchMergePolicy) : SM (Shard S) N :=
  batch_operation cell_id "merge_vertex_metadata_batch" merge_policy (decide_merge merge_policy) updates.
Definition import_vertex_metadata_batch (cell_id : string) (updates : list (VertexId * VertexMetadata)) : SM (Shard S) N :=
  batch_operation cell_id "import_vertex_metadata_batch" None decide_import updates.

(** * Lookups *)

(** The clock and the token of a query, by the number of checks made. *)
Record QueryBudget := MkBudget { max_runtime_ms : option N; elapsed_ms : nat → N; is_cancelled : nat → bool }.

Definition check_runtime_limit (b : QueryBudget) (operation : string) (checks : nat) : Result unit :=
  match max_runtime_ms b with
  | None => Ok tt
  | Some limit_ms =>
      if limit_ms <=? elapsed_ms b checks
      then Err (QueryTimeout operation (N.min (elapsed_ms b checks) u64_max) limit_ms)
      else Ok tt
  end.
Definition check (b : QueryBudget) (operation : string) (checks : nat) : Result unit :=
  if is_cancelled b checks then Err (QueryTimeout "query_cancelled" (N.min (elapsed_ms b checks) u64_max) 0)
  else check_runtime_limit b operation checks.

Definition ensure_query_index_candidates (operation : string) (candidates : nat) : Result unit :=
  ensure_limit operation (N.of_nat candidates) (max_query_index_candidates limits).

Definition index_step (b : QueryBudget) (operation candidates : string) (checks : nat) (found : list VertexId)
  (kv : string * string) : Result (Flow (list VertexId)) :=
  _ ← check b operation (checks + length found);
  vertex_id ← decode_u64 (entry_key kv) kv.2;
  _ ← ensure_query_index_candidates candidates (Datatypes.S (length found));
  Ok (Continue (found ++ [vertex_id])).

Definition scan_vertex_label_index_current (cell_id label : string) (b : QueryBudget) : SM (Shard S) (list VertexId) :=
  scan_remote_prefix (keys.vertex_label_prefix cell_id label)
    (index_step b "cypher_vertex_label_index" "cypher_vertex_label_index_candidates" 0) [].
Definition scan_vertex_label_index_at (cell_id label : string) (b : QueryBudget) : SM (Shard S) (list VertexId) :=
  lift (validate_component "cell_id" cell_id) ;;
  lift (validate_component "label" label) ;;
  scan_vertex_label_index_current cell_id label b.

Definition scan_vertex_property_index_current (cell_id property encoded : string) (b : QueryBudget) (checks : nat) :
  SM (Shard S) (list VertexId) :=
  scan_remote_prefix (keys.vertex_property_index_prefix cell_id property encoded)
    (index_step b "cypher_vertex_property_index" "cypher_vertex_property_index_candidates" checks) [].

Definition insert_candidate (found : gset VertexId) (vertex_id : VertexId) : Result (gset VertexId) :=
  let found := {[vertex_id]} ∪ found in
  _ ← ensure_query_index_candidates "cypher_vertex_property_index_candidates" (size found);
  Ok found.
Fixpoint scan_encoded (cell_id property : string) (b : QueryBudget) (encoded : list string) (checks : nat)
  (found : gset VertexId) : SM (Shard S) (gset VertexId) :=
  match encoded with
  | [] => mret found
  | e :: encoded =>
      ids ← scan_vertex_property_index_current cell_id property e b checks;
      found ← lift (foldM insert_candidate found ids);
      scan_encoded cell_id property b encoded (checks + length ids) found
  end.
Definition scan_vertex_property_index_at (cell_id property : string) (value : VertexPropertyValue) (b : QueryBudget) :
  SM (Shard S) (list VertexId) :=
  lift (validate_component "cell_id" cell_id) ;;
  lift (validate_component "property" property) ;;
  found ← scan_encoded cell_id property b (equivalent_property_index_keys value) 0 ∅;
  mret (bset_iter found).

Definition vertex_metadata_at (cell_id : string) (vertex_id : VertexId) : SM (Shard S) VertexMetadata :=
  lift (validate_component "cell_id" cell_id) ;;
  let key := keys.vertex cell_id vertex_id in
  value ← read_remote key;
  match value with
  | Some value => lift (decode_vertex_metadata key value)
  | None => mret VertexMetadata_default
  end.
End vertices.
End vertices.
