(* ===== verification/VertexFacts.v ===== *)
(** Vertex metadata on the reference store: the records and both indexes of a cell
    tell one table, each operation changes that table as the updates say, one after
    another, and lookups by label and property answer from it. *)

From S2P Require Import Prelude Text TextFacts Errors Model Namespace Keys KeysFacts Codec CodecFacts CodecRecords CodecRecordFacts Kv ShardTxn SegmentReads ShardWrite ShardRefine ShardMem ShardInv Xlog History SegmentFacts QueryBatch Floats FloatFacts Vertices.

Local Open Scope N_scope.
Import batch f64 vertices.

(** * The table of a cell *)

Abbreviation VertexDecision := (VertexId → string → option VertexMetadata → VertexMetadata → Result (option VertexMetadata)).

Definition metadata_typed (md : VertexMetadata) : Prop :=
  ∀ p x, vm_properties md !! p = Some x → value_ok x ∧ canonical x.
Definition metadata_ok (md : VertexMetadata) : Prop := vertex_metadata_ok md ∧ metadata_typed md.

(** The index entries of a vertex. *)
Definition index_keys (c : string) (id : VertexId) (md : VertexMetadata) : list string :=
  ((λ l, keys.vertex_label c l id) <$> bset_iter (vm_labels md)) ++
  ((λ p, keys.vertex_property_index c p.1 (encode_vertex_property_value_key p.2) id) <$> btree_iter (vm_properties md)).

Definition index_family (c : string) (k : string) : Prop :=
  family k = Some (c, "vlabel") ∨ family k = Some (c, "vprop_idx").

Record represents (c : string) (v : gmap string string) (M : gmap VertexId VertexMetadata) : Prop := {
  rp_ok : ∀ id md, M !! id = Some md → u64_ok id ∧ metadata_ok md ∧ md ≠ VertexMetadata_default;
  rp_records : ∀ id, u64_ok id → v !! keys.vertex c id = encode_vertex_metadata <$> M !! id;
  rp_index : ∀ k val, index_family c k →
    v !! k = Some val ↔ ∃ id md, M !! id = Some md ∧ k ∈ index_keys c id md ∧ val = encode_u64 id }.

Definition put_vertex (M : gmap VertexId VertexMetadata) (id : VertexId) (md : VertexMetadata) :
  gmap VertexId VertexMetadata :=
  if bool_decide (md = VertexMetadata_default) then delete id M else <[id := md]> M.

Section cell.
Context (c : string) (Hc : component_ok c = true).
#[local] Lemma Hn : name_ok c. Proof. by apply component_ok_slash. Qed.
#[local] Hint Resolve Hn component_ok_slash : core.

Lemma vertex_family id : family (keys.vertex c id) = Some (c, "vertex").
Proof. exact (family_cell c "vertex" (pad20 id) Hn eq_refl). Qed.
Lemma label_family l id : family (keys.vertex_label c l id) = Some (c, "vlabel").
Proof. exact (family_cell c "vlabel" (l +:+ "/" +:+ pad20 id) Hn eq_refl). Qed.
Lemma property_family p e id : family (keys.vertex_property_index c p e id) = Some (c, "vprop_idx").
Proof. exact (family_cell c "vprop_idx" (p +:+ "/" +:+ e +:+ "/" +:+ pad20 id) Hn eq_refl). Qed.

Lemma value_key_name x : name_ok (encode_vertex_property_value_key x).
Proof. apply plain_slash, value_key_plain. Qed.

Lemma vertex_wf id : u64_ok id → key_wf (KVertex c id).
Proof. done. Qed.
Lemma label_wf l id : component_ok l = true → u64_ok id → key_wf (KVertexLabel c l id).
Proof. intros ?%component_ok_slash ?. done. Qed.
Lemma property_wf p x id : component_ok p = true → u64_ok id →
  key_wf (KVertexPropertyIndex c p (encode_vertex_property_value_key x) id).
Proof. intros ?%component_ok_slash ?. repeat split; auto using value_key_name. Qed.

Lemma index_keys_elem id md k : metadata_ok md → k ∈ index_keys c id md ↔
  (∃ l, l ∈ vm_labels md ∧ component_ok l = true ∧ k = keys.vertex_label c l id) ∨
  (∃ p x, vm_properties md !! p = Some x ∧ component_ok p = true ∧ value_ok x ∧ canonical x ∧
     k = keys.vertex_property_index c p (encode_vertex_property_value_key x) id).
Proof.
  intros [[Hl Hp] Hty]. unfold index_keys. rewrite elem_of_app, !list_elem_of_fmap. split.
  - intros [(l & -> & H%elem_of_bset_iter)|([p x] & -> & H%elem_of_btree_iter)]; [left|right].
    + exists l. by auto.
    + exists p, x. destruct (Hp p x H), (Hty p x H). done.
  - intros [(l & H & _ & ->)|(p & x & H & _ & _ & _ & ->)]; [left|right].
    + exists l. by rewrite elem_of_bset_iter.
    + exists (p, x). by rewrite elem_of_btree_iter.
Qed.

Lemma index_keys_family id md k : metadata_ok md → k ∈ index_keys c id md → index_family c k.
Proof.
  intros Hm [(l & _ & _ & ->)|(p & x & _ & _ & _ & _ & ->)]%index_keys_elem; [left; apply label_family|right; apply property_family|done].
Qed.

(** An index entry names its vertex. *)
Lemma index_keys_vertex id md id' md' k : u64_ok id → u64_ok id' → metadata_ok md → metadata_ok md' →
  k ∈ index_keys c id md → k ∈ index_keys c id' md' → id = id'.
Proof.
  intros Hi Hi' Hm Hm' H1 H2. apply index_keys_elem in H1, H2; [|done..].
  destruct H1 as [(l & _ & Hl & ->)|(p & x & _ & Hp & _ & _ & ->)], H2 as [(l' & _ & Hl' & E)|(p' & x' & _ & Hp' & _ & _ & E)].
  - apply (render_eq (KVertexLabel c l id) (KVertexLabel c l' id')) in E; [congruence|by apply label_wf..].
  - apply (f_equal family) in E. by rewrite label_family, property_family in E.
  - apply (f_equal family) in E. by rewrite label_family, property_family in E.
  - apply (render_eq (KVertexPropertyIndex c p _ id) (KVertexPropertyIndex c p' _ id')) in E; [congruence|by apply property_wf..].
Qed.

(** ** One update *)

Definition update_ops (id : VertexId) (previous next : VertexMetadata) : list GraphWriteOp :=
  (WDelete <$> index_keys c id previous) ++
  if bool_decide (next = VertexMetadata_default) then [WDelete (keys.vertex c id)]
  else WPut (keys.vertex c id) (encode_vertex_metadata next) ::
       ((λ k, WPut k (encode_u64 id)) <$> index_keys c id next).

Lemma run_puts ks value v k :
  foldl run_op v ((λ k, WPut k value) <$> ks) !! k = if decide (k ∈ ks) then Some value else v !! k.
Proof.
  revert v. induction ks as [|k' ks IH]; intros v; [by rewrite decide_False by set_solver|].
  cbn [fmap list_fmap foldl run_op]. rewrite IH. destruct (decide (k ∈ ks)), (decide (k ∈ k' :: ks)) as [H|H];
    rewrite elem_of_cons in H; [done|tauto| |].
  - destruct H as [->|?]; [by rewrite lookup_insert_eq|done].
  - rewrite lookup_insert_ne; [done|]. intros ->. tauto.
Qed.

Lemma update_lookup id previous next v k : metadata_ok previous → metadata_ok next →
  foldl run_op v (update_ops id previous next) !! k =
  if decide (k = keys.vertex c id)
  then if bool_decide (next = VertexMetadata_default) then None else Some (encode_vertex_metadata next)
  else if decide (k ∈ index_keys c id next) then Some (encode_u64 id)
  else if decide (k ∈ index_keys c id previous) then None else v !! k.
Proof.
  intros Hp Hx. unfold update_ops. rewrite foldl_app.
  assert (∀ md, metadata_ok md → keys.vertex c id ∉ index_keys c id md) as Hvk.
  { intros md Hm [H|H]%index_keys_family; [| |done]; by rewrite vertex_family in H. }
  case_bool_decide as Hd.
  - cbn [foldl run_op]. destruct (decide (k = _)) as [->|Hne]; [by rewrite lookup_delete_eq|].
    rewrite lookup_delete_ne, run_deletes by done. rewrite (decide_False (P := k ∈ index_keys c id next)); [done|].
    rewrite Hd. unfold index_keys. cbn. apply not_elem_of_nil.
  - cbn [foldl]. rewrite run_puts. cbn [run_op]. destruct (decide (k = _)) as [->|Hne].
    + rewrite decide_False by (by apply Hvk). by rewrite lookup_insert_eq.
    + rewrite lookup_insert_ne by done. by rewrite run_deletes.
Qed.

Lemma default_ok : metadata_ok VertexMetadata_default.
Proof. clear c Hc. split; [split|]; [set_solver|intros p x H..]; cbn in H; by rewrite lookup_empty in H. Qed.

Definition existing_ok (existing : option VertexMetadata) : Prop := ∀ md, existing = Some md → metadata_ok md.
Lemma stored_ok v M id : represents c v M → metadata_ok (stored (M !! id)).
Proof.
  intros H. unfold stored. destruct (M !! id) as [md|] eqn:E; [|exact default_ok]. cbn. by apply (rp_ok _ _ _ H id md).
Qed.

Lemma index_keys_default id k : k ∉ index_keys c id VertexMetadata_default.
Proof. unfold index_keys. cbn. apply not_elem_of_nil. Qed.

(** The store after an update represents the table after it. *)
Lemma represents_put v M id next : represents c v M → u64_ok id → metadata_ok next →
  represents c (foldl run_op v (update_ops id (stored (M !! id)) next)) (put_vertex M id next).
Proof.
  intros H Hid Hnext. pose proof (stored_ok v M id H) as Hprev.
  assert (∀ id' md, put_vertex M id next !! id' = Some md ↔
    id' = id ∧ md = next ∧ next ≠ VertexMetadata_default ∨ id' ≠ id ∧ M !! id' = Some md) as Hput.
  { intros id' md. unfold put_vertex. case_bool_decide; (destruct (decide (id' = id)) as [->|Hne];
      [rewrite ?lookup_delete_eq, ?lookup_insert_eq|rewrite ?lookup_delete_ne, ?lookup_insert_ne by done]); naive_solver. }
  split.
  - intros id' md [(-> & -> & Hd)|[Hne Hm]]%Hput; [done|by apply (rp_ok _ _ _ H)].
  - intros id' Hid'. rewrite update_lookup by done. destruct (decide (keys.vertex c id' = keys.vertex c id)) as [E|Hne].
    + apply (render_eq (KVertex c id') (KVertex c id)) in E; [|done..]. injection E as ->.
      unfold put_vertex. case_bool_decide; [by rewrite lookup_delete_eq|by rewrite lookup_insert_eq].
    + rewrite !decide_False; [|intros [X|X]%index_keys_family; [by rewrite vertex_family in X..|done]..].
      rewrite (rp_records _ _ _ H) by done. assert (id ≠ id') by congruence.
      unfold put_vertex. case_bool_decide; [by rewrite lookup_delete_ne|by rewrite lookup_insert_ne].
  - intros k val Hk. rewrite update_lookup by done.
    rewrite decide_False by (intros ->; destruct Hk as [Hk|Hk]; by rewrite vertex_family in Hk).
    destruct (decide (k ∈ index_keys c id next)) as [Hin|Hin].
    + assert (next ≠ VertexMetadata_default) as Hd by (intros ->; by apply index_keys_default in Hin). split.
      * intros [= <-]. exists id, next. split; [apply Hput; by left|done].
      * intros (id' & md & [(-> & -> & _)|[Hne Hm]]%Hput & Hk' & ->); [done|]. exfalso.
        destruct (rp_ok _ _ _ H id' md Hm) as (Hid' & Hmd & _). by apply Hne, (index_keys_vertex id' md id next k).
    + destruct (decide (k ∈ index_keys c id (stored (M !! id)))) as [Hold|Hold].
      * split; [done|]. intros (id' & md & [(-> & -> & _)|[Hne Hm]]%Hput & Hk' & ->); [done|].
        destruct (rp_ok _ _ _ H id' md Hm) as (Hid' & Hmd & _). exfalso.
        by apply Hne, (index_keys_vertex id' md id (stored (M !! id)) k).
      * rewrite (rp_index _ _ _ H) by done. split.
        -- intros (id' & md & Hm & Hk' & ->). exists id', md. split; [|done]. apply Hput. right. split; [|done].
           intros ->. apply Hold. unfold stored. by rewrite Hm.
        -- intros (id' & md & [(-> & -> & _)|[Hne Hm]]%Hput & Hk' & ->); [done|]. by exists id', md.
Qed.

(** ** Running an update *)

Lemma deletes_run {A} (f : A → string) l (x : MTx) :
  for_each (λ a, t_delete (f a)) l x = (upd (λ v, foldl run_op v (WDelete <$> (f <$> l))) x, Ok tt).
Proof.
  revert x. induction l as [|a l IH]; intros x; [by destruct x as [? [? ?]]|].
  cbn [for_each]. by rewrite (bind_run _ _ _ _ _ (run_delete _ _)), IH.
Qed.
Lemma puts_run {A} (f : A → string) value l (x : MTx) :
  for_each (λ a, t_put (f a) value) l x = (upd (λ v, foldl run_op v ((λ k, WPut k value) <$> (f <$> l))) x, Ok tt).
Proof.
  revert x. induction l as [|a l IH]; intros x; [by destruct x as [? [? ?]]|].
  cbn [for_each]. by rewrite (bind_run _ _ _ _ _ (run_put _ _ _)), IH.
Qed.

Lemma empty_default md :
  bool_decide (vm_labels md = ∅) && bool_decide (vm_properties md = ∅) = bool_decide (md = VertexMetadata_default).
Proof.
  destruct md as [l p]. cbn. destruct (decide (l = ∅)) as [->|Hl].
  - rewrite bool_decide_eq_true_2 by done. cbn. apply bool_decide_ext. split; [by intros ->|by intros [=]].
  - rewrite bool_decide_eq_false_2 by done. cbn. symmetry. apply bool_decide_eq_false_2. by intros [=].
Qed.

Lemma delete_indexes_run id md (x : MTx) :
  delete_vertex_metadata_indexes_txn c id md x = (upd (λ v, foldl run_op v (WDelete <$> index_keys c id md)) x, Ok tt).
Proof.
  unfold delete_vertex_metadata_indexes_txn, index_keys. rewrite (bind_run _ _ _ _ _ (deletes_run _ _ _)), deletes_run.
  f_equal. rewrite fmap_app. unfold upd. cbn. by rewrite foldl_app.
Qed.
Lemma put_indexes_run id md (x : MTx) :
  put_vertex_metadata_indexes_txn c id md x =
  (upd (λ v, foldl run_op v ((λ k, WPut k (encode_u64 id)) <$> index_keys c id md)) x, Ok tt).
Proof.
  unfold put_vertex_metadata_indexes_txn, index_keys. rewrite (bind_run _ _ _ _ _ (puts_run _ _ _ _)), puts_run.
  f_equal. rewrite fmap_app. unfold upd. cbn. by rewrite foldl_app.
Qed.

Lemma update_run id previous next q (x : MTx) u :
  validate_vertex_metadata next = Ok u →
  apply_vertex_metadata_update_txn c id previous next q x =
  (upd (λ v, foldl run_op v (update_ops id previous next)) x, Ok tt).
Proof.
  intros Hv. unfold apply_vertex_metadata_update_txn, update_ops.
  unfold lift at 1, mbind at 1, sm_mbind at 1. rewrite Hv. cbv zeta. rewrite empty_default.
  rewrite (bind_run _ _ _ _ _ (delete_indexes_run _ _ _)). case_bool_decide.
  - rewrite run_delete. f_equal. unfold upd. cbn. by rewrite foldl_app.
  - rewrite (bind_run _ _ _ _ _ (run_put _ _ _)), put_indexes_run. f_equal. unfold upd. cbn. by rewrite foldl_app.
Qed.

(** ** What the updates decide *)

Fixpoint changes_spec (decide : VertexId → string → option VertexMetadata → VertexMetadata → Result (option VertexMetadata))
  (M : gmap VertexId VertexMetadata) (updates : list (VertexId * VertexMetadata)) :
  Result (list (VertexId * VertexMetadata * VertexMetadata)) :=
  match updates with
  | [] => Ok []
  | (id, md) :: updates =>
      next ← decide id (keys.vertex c id) (M !! id) md;
      changed ← changes_spec decide M updates;
      Ok (match next with Some next => (id, stored (M !! id), next) :: changed | None => changed end)
  end.

Lemma canonical_props md : metadata_typed md → canonical_value <$> vm_properties md = vm_properties md.
Proof.
  intros H. apply map_eq. intros p. rewrite lookup_fmap. destruct (vm_properties md !! p) as [x|] eqn:E; [|done].
  destruct (H p x E) as [_ Hx]. cbn. destruct x as [n|z|b|f|t]; try done. unfold canonical_value, from_i64.
  by rewrite (proj2 (Z.ltb_lt z 0) Hx).
Qed.
Lemma metadata_decoded key md : metadata_ok md → decode_vertex_metadata key (encode_vertex_metadata md) = Ok md.
Proof.
  intros [Hv Ht]. rewrite (vertex_metadata_round_trip key md Hv), canonical_props by done. by destruct md.
Qed.
Lemma existing_run M id (x : MTx) : represents c (xview x) M → u64_ok id →
  read_existing (keys.vertex c id) x = (x, Ok (M !! id)).
Proof.
  intros H Hid. unfold read_existing. rewrite (bind_run _ _ _ _ _ (run_read _ _)), (rp_records _ _ _ H) by done.
  destruct (M !! id) as [md|] eqn:E; [|done]. cbn. unfold lift, mbind, sm_mbind.
  by rewrite metadata_decoded by (by apply (rp_ok _ _ _ H id)).
Qed.

Lemma changed_run decide M us (x : MTx) : represents c (xview x) M → Forall (λ u, u64_ok u.1) us →
  changed_vertices c decide us x = (x, changes_spec decide M us).
Proof.
  intros H. induction 1 as [|[id md] us Hid _ IH]; [done|]. cbn [changed_vertices changes_spec fst] in *. cbv zeta.
  rewrite (bind_run _ _ _ _ _ (existing_run M id x H Hid)). unfold lift, mbind, sm_mbind.
  destruct (decide id _ _ _) as [next|e]; [|done]. cbn [result_mbind result_bind]. rewrite IH.
  by destruct (changes_spec decide M us).
Qed.

(** ** The updates, one after another *)

Definition step_spec (decide : VertexDecision) (acc : N * gmap VertexId VertexMetadata) (u : VertexId * VertexMetadata) :
  Result (N * gmap VertexId VertexMetadata) :=
  next ← decide u.1 (keys.vertex c u.1) (acc.2 !! u.1) u.2;
  Ok (match next with Some next => (acc.1 + 1, put_vertex acc.2 u.1 next) | None => acc end).

Abbreviation put_all := (foldl (λ M (ch : VertexId * VertexMetadata * VertexMetadata), put_vertex M ch.1.1 ch.2)).

Lemma put_vertex_ne M id id' md : id' ≠ id → put_vertex M id md !! id' = M !! id'.
Proof. intros H. unfold put_vertex. case_bool_decide; [by rewrite lookup_delete_ne|by rewrite lookup_insert_ne]. Qed.

Lemma changes_ext decide M M' us : (∀ u, u ∈ us → M' !! u.1 = M !! u.1) → changes_spec decide M' us = changes_spec decide M us.
Proof.
  induction us as [|[id md] us IH]; intros H; [done|]. cbn [changes_spec].
  pose proof (H (id, md) (list_elem_of_here _ _)) as E. cbn in E. rewrite E, IH; [done|]. intros u Hu. by apply H, list_elem_of_further.
Qed.

Lemma nodup_tail {A B} (a : A) (b : B) us u : NoDup (a :: us.*1) → u ∈ us → (u : A * B).1 ≠ a.
Proof. intros [H _]%NoDup_cons Hu <-. by apply H, list_elem_of_fmap_2. Qed.

Lemma vertex_changes_fold decide us : NoDup us.*1 → ∀ k M ch, changes_spec decide M us = Ok ch →
  foldM (step_spec decide) (k, M) us = Ok (k + N.of_nat (length ch), put_all M ch).
Proof.
  induction us as [|[id md] us IH]; intros Hnd k M ch; [intros [= <-]; cbn; by rewrite N.add_0_r|].
  rewrite fmap_cons in Hnd. pose proof Hnd as [_ Hnd']%NoDup_cons. cbn [changes_spec foldM].
  destruct (decide id _ _ _) as [next|] eqn:En; [|done]. cbn [mbind result_mbind result_bind].
  destruct (changes_spec decide M us) as [ch'|] eqn:E; [|done]. cbn [mbind result_mbind result_bind].
  assert (step_spec decide (k, M) (id, md) = Ok (match next with Some next => (k + 1, put_vertex M id next) | None => (k, M) end))
    as -> by (unfold step_spec; cbn [fst snd]; by rewrite En).
  cbn [mbind result_mbind result_bind]. destruct next as [next|]; intros [= <-].
  - rewrite (IH Hnd' _ _ ch'); [cbn [length foldl fst snd]; do 2 f_equal; lia|].
    rewrite <- E. apply changes_ext. intros u Hu. apply put_vertex_ne. by eapply nodup_tail.
  - by apply IH.
Qed.

Definition sound_decision (decide : VertexDecision) : Prop := ∀ id key existing md next,
  existing_ok existing → metadata_ok md → decide id key existing md = Ok (Some next) → metadata_ok next.
Definition updates_ok (us : list (VertexId * VertexMetadata)) : Prop :=
  NoDup us.*1 ∧ Forall (λ u, u64_ok u.1 ∧ metadata_ok u.2) us.

Definition changes_ok (M : gmap VertexId VertexMetadata) (ch : list (VertexId * VertexMetadata * VertexMetadata)) : Prop :=
  NoDup ch.*1.*1 ∧ Forall (λ ch, u64_ok ch.1.1 ∧ metadata_ok ch.2 ∧ ch.1.2 = stored (M !! ch.1.1)) ch.

Lemma changes_sound decide v M us ch : sound_decision decide → represents c v M → updates_ok us →
  changes_spec decide M us = Ok ch → changes_ok M ch ∧ ∀ id, id ∈ ch.*1.*1 → id ∈ us.*1.
Proof.
  intros Hd H [Hnd Hus]. revert ch Hnd. induction Hus as [|[id md] us [Hid Hmd] _ IH]; intros ch Hnd.
  { intros [= <-]. split; [by repeat constructor|done]. }
  rewrite fmap_cons in Hnd. apply NoDup_cons in Hnd as [Hni Hnd]. cbn [changes_spec].
  destruct (decide id _ _ _) as [next|] eqn:En; [|done]. cbn [mbind result_mbind result_bind].
  destruct (changes_spec decide M us) as [ch'|] eqn:E; [|done]. cbn [mbind result_mbind result_bind].
  destruct (IH ch' Hnd eq_refl) as [[Hnd' Hch] Hsub].
  destruct next as [next|]; intros [= <-]; [|split; [done|]; intros i Hi; rewrite fmap_cons; by apply list_elem_of_further, Hsub].
  split; [split|].
  - cbn. constructor; [|done]. intros Hin. by apply Hni, Hsub.
  - constructor; [|done]. cbn [fst snd] in *. split; [done|]. split; [|done]. eapply (Hd id); [|exact Hmd|exact En].
    intros md' Hmd'. by apply (rp_ok _ _ _ H id md').
  - intros i. cbn. rewrite !elem_of_cons. intros [->|Hi]; [by left|right; by apply Hsub].
Qed.

Lemma checks_pass {A} (f : unit → A → Result unit) l : (∀ a, a ∈ l → f tt a = Ok tt) → foldM f tt l = Ok tt.
Proof.
  induction l as [|a l IH]; intros H; [done|]. cbn [foldM]. rewrite (H a (list_elem_of_here _ _)).
  cbn [mbind result_mbind result_bind]. apply IH. intros a' Ha. by apply H, list_elem_of_further.
Qed.
Lemma validate_ok md : metadata_ok md → validate_vertex_metadata md = Ok tt.
Proof.
  intros [[Hl Hp] _]. unfold validate_vertex_metadata. rewrite (checks_pass _ (bset_iter (vm_labels md))).
  - cbn [mbind result_mbind result_bind]. apply checks_pass. intros p [x Hx]%elem_of_btree_keys.
    by rewrite validate_component_true by (by apply (Hp p x)).
  - intros l Hin%elem_of_bset_iter. by rewrite validate_component_true by (by apply Hl).
Qed.

Lemma changes_run q ch : ∀ M (x : MTx), represents c (xview x) M → changes_ok M ch → ∃ f,
  for_each (λ ch, apply_vertex_metadata_update_txn c ch.1.1 ch.1.2 ch.2 q) ch x = (upd f x, Ok tt) ∧
  represents c (f (xview x)) (put_all M ch).
Proof.
  induction ch as [|[[id prev] next] ch IH]; intros M x H [Hnd Hch].
  { exists id. split; [by destruct x as [? [? ?]]|done]. }
  cbn in Hnd. pose proof Hnd as [Hni Hnd']%NoDup_cons. apply Forall_cons in Hch as [(Hid & Hnext & Hprev) Hch]. cbn [fst snd] in *.
  subst prev. pose proof (validate_ok next Hnext) as Hu. cbn [for_each foldl fst snd].
  rewrite (bind_run _ _ _ _ _ (update_run _ _ _ _ _ _ Hu)).
  destruct (IH (put_vertex M id next) (upd (λ v, foldl run_op v (update_ops id (stored (M !! id)) next)) x)) as (f & E & Hf).
  - by apply represents_put.
  - split; [done|]. rewrite Forall_forall in Hch |- *. intros [[id' p] n] Hin. destruct (Hch _ Hin) as (H1 & H2 & H3).
    cbn [fst snd] in *. split; [done|]. split; [done|]. rewrite put_vertex_ne; [done|]. intros ->. apply Hni.
    apply list_elem_of_fmap. exists (id, p). split; [done|]. exact (list_elem_of_fmap_2 fst ch (id, p, n) Hin).
  - exists (λ v, f (foldl run_op v (update_ops id (stored (M !! id)) next))). by split.
Qed.

(** ** The transactions *)

Lemma still_commit_ret {A} (a : A) : still_err (commit_txn_traced ;; mret a : SM MTx A).
Proof.
  intros x x' e. unfold mbind, sm_mbind. destruct (commit_txn_traced x) as [x1 [u|e1]] eqn:E; [done|].
  intros [= <- _]. by eapply still_commit_only.
Qed.
Lemma still_changed_vertices decide us : still (changed_vertices (S := Mem) c decide us).
Proof.
  induction us as [|[id md] us IH]; cbn [changed_vertices]; cbv zeta; unfold read_existing; still_auto.
Qed.
Lemma still_update id prev next q : still (apply_vertex_metadata_update_txn (S := Mem) c id prev next q).
Proof.
  unfold apply_vertex_metadata_update_txn, delete_vertex_metadata_indexes_txn, put_vertex_metadata_indexes_txn. still_auto.
Qed.
Lemma batch_body_still op decide us : still_err (batch_body (S := Mem) c op decide us).
Proof.
  unfold batch_body, validate_write_fence_txn, next_epoch_txn. 
  repeat first [solve [auto with still] | apply still_changed_vertices | apply still_commit_ret | apply still_update | still_step].
Qed.

(** What an attempt does: nothing, or what the specification says. *)
Definition attempt_spec (attempt : SM MShard N) (spec : gmap VertexId VertexMetadata → Result (N * gmap VertexId VertexMetadata)) : Prop :=
  ∀ s s' r M, represents c (sview s) M → attempt s = (s', r) →
  match r with
  | Ok n => ∃ M', spec M = Ok (n, M') ∧ represents c (sview s') M'
  | Err _ => same_store s s'
  end.

Lemma batch_body_run op decide us (s : MShard) x' n M :
  sound_decision decide → updates_ok us → represents c (sview s) M →
  batch_body c op decide us (MkTx (S := Mem) s (sh_db s)) = (x', Ok n) →
  ∃ M', foldM (step_spec decide) (0, M) us = Ok (n, M') ∧ represents c (sview (tx_shard x')) M'.
Proof.
  intros Hd Hus H E. unfold batch_body in E. apply bind_inv in E as (x1 & u & ->%fence_inv & E).
  set (x := MkTx _ _) in E. change (sview s) with (xview x) in H.
  apply bind_inv in E as (x1 & ch & E1 & E). rewrite (changed_run decide M us x H) in E1.
  2: { destruct Hus as [_ Hus]. eapply Forall_impl; [exact Hus|]. by intros ? []. }
  injection E1 as <- E1. destruct (changes_sound decide _ M us ch Hd H Hus E1) as [Hch _].
  pose proof (vertex_changes_fold decide us (proj1 Hus) 0 M ch E1) as Hfold.
  destruct ch as [|ch0 ch]; [apply mret_inv in E as [-> ->]; by exists M|].
  apply bind_inv in E as (x1 & q & E2 & E). assert (x1 = x) as ->.
  { unfold next_epoch_txn in E2. rewrite (bind_run _ _ _ _ _ (run_seqnum _)) in E2. by apply lift_inv in E2 as [-> _]. }
  destruct (changes_run q (ch0 :: ch) M x H Hch) as (f & Ef & Hf). rewrite (bind_run _ _ _ _ _ Ef) in E.
  apply bind_inv in E as (x2 & u2 & [_ ->]%commit_run & [-> ->]%mret_inv).
  exists (put_all M (ch0 :: ch)). split; [exact Hfold|exact Hf].
Qed.

Lemma locked_attempt op (body : SM MTx N) spec :
  still_err body →
  (∀ s x' n M, represents c (sview s) M → body (MkTx (S := Mem) s (sh_db s)) = (x', Ok n) →
     ∃ M', spec M = Ok (n, M') ∧ represents c (sview (tx_shard x')) M') →
  attempt_spec (locked c op body) spec.
Proof.
  intros Hst Hb s s' r M H E. unfold locked, mbind, sm_mbind in E.
  destruct (acquire_local_write_guard c op s) as [s1 [u|e]] eqn:Eg; apply guard_same in Eg; [|by injection E as <- <-].
  assert (represents c (sview s1) M) as H1 by (by rewrite (proj1 Eg)). destruct r as [n|e].
  - apply with_txn_ok in E as (x' & E & ->). by apply (Hb s1 x' n M).
  - eapply same_trans; [exact Eg|]. by eapply locked_err.
Qed.

Lemma vertex_loop attempt commits k spec : attempt_spec attempt spec → attempt_spec (vertex_retry_loop attempt commits k) spec.
Proof.
  intros Ha. induction k as [|k IH]; intros s s' r M H; cbn [vertex_retry_loop]; [by intros [= <- <-]|].
  destruct (attempt s) as [s1 [n|e]] eqn:E; pose proof (Ha _ _ _ _ H E) as H1; cbn in H1.
  - unfold on_metrics, modify, mbind, sm_mbind, mret, sm_mret. by destruct (commits n); intros [= <- <-].
  - destruct (is_retryable_write_conflict e && _); [|by intros [= <- <-]].
    unfold mbind at 1, sm_mbind at 1, on_metrics, modify. intros E2.
    set (s2 := set_metrics _ s1) in E2. assert (same_store s s2) as H2 by done.
    pose proof (IH s2 s' r M) as IH2. rewrite (proj1 H2) in IH2. specialize (IH2 H E2).
    destruct r; [done|by eapply same_trans].
Qed.

Lemma set_is_batch id md (x : MTx) : set_body c id md x = batch_body c "set_vertex_metadata" decide_set [(id, md)] x.
Proof.
  unfold set_body, batch_body, decide_set, if_changed, lift. cbn [changed_vertices]. cbv zeta. unfold mbind, sm_mbind.
  destruct (validate_write_fence_txn _ _ x) as [x1 [u|e]]; [|done].
  destruct (read_existing _ x1) as [x2 [existing|e]]; [|done].
  case_bool_decide; [done|]. unfold mret, sm_mret, lift. cbv beta iota zeta. destruct (next_epoch_txn c x2) as [x3 [q|e]]; [|done].
  cbn [for_each fst snd]. unfold mbind, sm_mbind, mret, sm_mret.
  destruct (apply_vertex_metadata_update_txn c id (stored existing) md q x3) as [x4 [u2|e]]; [|done].
  by destruct (commit_txn_traced x4) as [x5 [u3|e]].
Qed.

(** ** The decisions *)

Lemma union_typed (p1 p2 : gmap string VertexPropertyValue) (P : string → VertexPropertyValue → Prop) :
  (∀ p x, p1 !! p = Some x → P p x) → (∀ p x, p2 !! p = Some x → P p x) → ∀ p x, (p1 ∪ p2) !! p = Some x → P p x.
Proof. intros H1 H2 p x [H|[_ H]]%lookup_union_Some_raw; auto. Qed.

Lemma merge_ok previous labels properties :
  metadata_ok previous → (∀ l, l ∈ labels → component_ok l = true) →
  (∀ p x, properties !! p = Some x → component_ok p = true ∧ value_ok x ∧ canonical x) →
  metadata_ok (merge_vertex_metadata previous (MkVertexMetadata labels properties)).
Proof.
  clear c Hc. intros [[Hl Hp] Ht] Hl2 Hp2. unfold merge_vertex_metadata. cbn [vm_labels vm_properties].
  assert (∀ p x, (properties ∪ vm_properties previous) !! p = Some x → component_ok p = true ∧ value_ok x ∧ canonical x) as H.
  { apply union_typed; [done|]. intros p x Hx. destruct (Hp p x Hx), (Ht p x Hx). done. }
  split; [split|]; cbn [vm_labels vm_properties].
  - intros l [?|?]%elem_of_union; auto.
  - intros p x (? & ? & ?)%H. done.
  - intros p x (? & ? & ?)%H. done.
Qed.

Lemma decide_set_sound : sound_decision decide_set.
Proof. intros id key existing md next _ Hmd. unfold decide_set, if_changed. case_bool_decide; [done|]. by intros [= <-]. Qed.
Lemma decide_import_sound : sound_decision decide_import.
Proof.
  intros id key existing md next _ Hmd. unfold decide_import, corrupt. cbv zeta.
  destruct (bool_decide _); [done|]. destruct (bool_decide _); [|done]. by intros [= <-].
Qed.
Lemma decide_merge_sound policy : sound_decision (decide_merge policy).
Proof.
  clear c Hc. intros id key existing md next He [[Hl Hp] Ht]. unfold decide_merge. cbv zeta.
  assert (metadata_ok (stored existing)) as Hs.
  { unfold stored. destruct existing as [md'|]; [by apply He|exact default_ok]. }
  assert (∀ properties, (∀ p x, properties !! p = Some x → vm_properties md !! p = Some x) →
    metadata_ok (merge_vertex_metadata (stored existing) (MkVertexMetadata (vm_labels md) properties))) as Hm.
  { intros properties Hsub. apply merge_ok; [done|done|]. intros p x Hx%Hsub. destruct (Hp p x Hx), (Ht p x Hx). done. }
  assert (∀ properties, Ok (if_changed (stored existing) (merge_vertex_metadata (stored existing)
      (MkVertexMetadata (vm_labels md) properties))) = Ok (E := GraphError) (Some next) →
    (∀ p x, properties !! p = Some x → vm_properties md !! p = Some x) → metadata_ok next) as Hok.
  { intros properties E Hsub. unfold if_changed in E. case_bool_decide; [done|]. injection E as <-. by apply Hm. }
  destruct existing as [md'|], policy as [policy|]; cbn [mbind result_mbind result_bind option_bind];
    try (intros E; apply (Hok _ E); done).
  unfold guarded_metadata_patch, ok_or, corrupt. cbv zeta.
  destruct (merge_policy_validate policy); [|done]. cbn [mbind result_mbind result_bind].
  destruct (vm_properties md !! update_if_newer_by policy); [|done]. cbn [mbind result_mbind result_bind].
  assert (∀ p x, filter (λ p, p.1 ∉ create_only_properties policy) (vm_properties md) !! p = Some x → vm_properties md !! p = Some x)
    as Hsub by (by intros p x [? _]%map_lookup_filter_Some).
  destruct (vm_properties (stored (Some md')) !! _) as [g|].
  - destruct (guard_order _ _) as [[]|]; cbn [mbind result_mbind result_bind option_bind]; try done.
    intros E. by apply (Hok _ E).
  - cbn [mbind result_mbind result_bind option_bind]. intros E. by apply (Hok _ E).
Qed.

(** ** Batches *)

Definition update_typed (u : VertexId * VertexMetadata) : Prop := u64_ok u.1 ∧ metadata_typed u.2.

Lemma validated_ok md u : validate_vertex_metadata md = Ok u → metadata_typed md → metadata_ok md.
Proof.
  intros H Ht. split; [|done]. unfold validate_vertex_metadata in H.
  assert (∀ {A} (f : unit → A → Result unit) l u, foldM f tt l = Ok u → ∀ a, a ∈ l → f tt a = Ok tt) as Hall.
  { clear. intros A f l. induction l as [|a l IH]; intros u H b Hb; [by apply elem_of_nil in Hb|]. cbn [foldM] in H.
    destruct (f tt a) as [[]|] eqn:E; [|done]. cbn [mbind result_mbind result_bind] in H.
    apply elem_of_cons in Hb as [->|Hb]; [done|]. by eapply IH. }
  destruct (foldM _ tt (bset_iter _)) as [u1|] eqn:E1; [|done]. cbn [mbind result_mbind result_bind] in H. split.
  - intros l Hl. apply elem_of_bset_iter in Hl. pose proof (Hall _ _ _ _ E1 l Hl) as Hv. by apply validate_component_ok in Hv.
  - intros p x Hx. assert (p ∈ btree_keys (vm_properties md)) as Hp by (apply elem_of_btree_keys; by eexists).
    pose proof (Hall _ _ _ _ H p Hp) as Hv. apply validate_component_ok in Hv. destruct (Ht p x Hx). done.
Qed.

Lemma coalesce_ok us us' : Forall update_typed us → coalesce_vertex_metadata_updates us = Ok us' → updates_ok us'.
Proof.
  intros Hus. unfold coalesce_vertex_metadata_updates. destruct (foldM _ _ _) as [m|] eqn:E; [|done].
  cbn [mbind result_mbind result_bind]. intros [= <-].
  assert (∀ id md, m !! id = Some md → u64_ok id ∧ metadata_ok md) as Hm.
  { revert E. apply (foldM_ind (λ m, ∀ id md, m !! id = Some md → u64_ok id ∧ metadata_ok md)).
    { intros id md. by rewrite lookup_empty. }
    intros acc u acc' Hin Hacc. rewrite Forall_forall in Hus. destruct (Hus u Hin) as [Hid Hty]. unfold coalesce_update. cbv zeta.
    destruct (validate_vertex_metadata u.2) as [w|] eqn:Ev; [|done]. cbn [mbind result_mbind result_bind].
    destruct (validated_ok _ _ Ev Hty) as [[Hl Hp] _].
    set (entry := default VertexMetadata_default (acc !! u.1)).
    assert (metadata_ok entry) as [[Hl2 Hp2] Ht2].
    { unfold entry. destruct (acc !! u.1) as [md|] eqn:Ea; [by apply (Hacc u.1)|exact default_ok]. }
    destruct (foldM _ _ _) as [properties|] eqn:Ep; [|done]. cbn [mbind result_mbind result_bind]. intros [= <-] id md.
    assert (∀ p x, properties !! p = Some x → component_ok p = true ∧ value_ok x ∧ canonical x) as Hprops.
    { revert Ep. apply (foldM_ind (λ m, ∀ p x, m !! p = Some x → component_ok p = true ∧ value_ok x ∧ canonical x)).
      { intros p x Hx. destruct (Hp2 p x Hx), (Ht2 p x Hx). done. }
      intros props [p x] props' Hpin%elem_of_btree_iter Hprops. unfold coalesce_property. cbn [fst snd].
      assert (∀ props', Ok (<[p := x]> props) = Ok (E := GraphError) props' → ∀ p0 x0, props' !! p0 = Some x0 →
        component_ok p0 = true ∧ value_ok x0 ∧ canonical x0) as Hins.
      { intros ? [= <-] p0 x0 [[<- <-]|[_ H]]%lookup_insert_Some; [|by apply Hprops].
        destruct (Hp p x Hpin), (Hty p x Hpin). done. }
      destruct (props !! p); [case_bool_decide; [apply Hins|done]|apply Hins]. }
    intros [[<- <-]|[_ H]]%lookup_insert_Some; [|by apply Hacc]. split; [done|]. split; [split|]; cbn [vm_labels vm_properties].
    - intros l [?|?]%elem_of_union; auto.
    - intros p x (? & ? & ?)%Hprops. done.
    - intros p x (? & ? & ?)%Hprops. done. }
  split; [apply btree_iter_nodup|]. apply Forall_forall. intros [id md] H%elem_of_btree_iter. by apply Hm.
Qed.
End cell.

(** * The operations *)

Inductive VertexOp :=
  | OpSet (id : VertexId) (md : VertexMetadata)
  | OpSetBatch (updates : list (VertexId * VertexMetadata))
  | OpMerge (updates : list (VertexId * VertexMetadata)) (policy : option QueryBatchMergePolicy)
  | OpImport (updates : list (VertexId * VertexMetadata)).

Definition op_updates (op : VertexOp) : list (VertexId * VertexMetadata) :=
  match op with OpSet id md => [(id, md)] | OpSetBatch us | OpMerge us _ | OpImport us => us end.
Definition op_decision (op : VertexOp) : VertexDecision :=
  match op with
  | OpSet _ _ | OpSetBatch _ => decide_set
  | OpMerge _ policy => decide_merge policy
  | OpImport _ => decide_import
  end.
Definition run_vertex_op (limits : GraphLimits) (c : string) (op : VertexOp) : SM MShard N :=
  match op with
  | OpSet id md => set_vertex_metadata c id md
  | OpSetBatch us => set_vertex_metadata_batch limits c us
  | OpMerge us policy => merge_vertex_metadata_batch limits c us policy
  | OpImport us => import_vertex_metadata_batch limits c us
  end.

(** The updates of an operation joined by vertex, then applied one after another to
    the table, and the number of vertices it changed. *)
Definition op_spec (c : string) (op : VertexOp) (M : gmap VertexId VertexMetadata) :
  Result (N * gmap VertexId VertexMetadata) :=
  us ← match op with OpSet _ _ => Ok (op_updates op) | _ => coalesce_vertex_metadata_updates (op_updates op) end;
  foldM (step_spec c (op_decision op)) (0, M) us.

Lemma decision_sound op : sound_decision (op_decision op).
Proof. destruct op; [apply decide_set_sound..|apply decide_merge_sound|apply decide_import_sound]. Qed.

Lemma batch_attempt_spec c op decide us : component_ok c = true → sound_decision decide → updates_ok us →
  attempt_spec c (locked c op (batch_body c op decide us)) (λ M, foldM (step_spec c decide) (0, M) us).
Proof.
  intros Hc Hd Hus. apply locked_attempt; [apply batch_body_still|]. intros s x' n M H E. by eapply batch_body_run.
Qed.

Lemma permit_same op (s s' : MShard) r : acquire_graph_write_permit op s = (s', r) → same_store s s'.
Proof.
  unfold acquire_graph_write_permit, acquire_operation_permit, on_metrics, modify, gets, fails, mbind, sm_mbind.
  cbn. destruct (permits _ =? 0), (closed _); cbn; by intros [= <- _].
Qed.

Lemma batch_operation_spec limits c operation policy decide us (s s' : MShard) r M :
  sound_decision decide → Forall update_typed us → represents c (sview s) M →
  batch_operation limits c operation policy decide us s = (s', r) →
  match r with
  | Ok n => ∃ M', (us ← coalesce_vertex_metadata_updates us; foldM (step_spec c decide) (0, M) us) = Ok (n, M') ∧
      represents c (sview s') M'
  | Err _ => same_store s s'
  end.
Proof.
  intros Hd Hty H. unfold batch_operation, lift, mbind at 1 2 3 4, sm_mbind.
  destruct (validate_component "cell_id" c) as [u|] eqn:Ec; [apply validate_ok_inv in Ec|by intros [= <- <-]].
  destruct (match policy with Some policy => merge_policy_validate policy | None => Ok tt end); [|by intros [= <- <-]].
  destruct (ensure_write_authority c operation s) as [s1 [u1|e]] eqn:E1; apply authority_same in E1 as ->; [|by intros [= <- <-]].
  destruct (coalesce_vertex_metadata_updates us) as [us'|] eqn:Eu; [|by intros [= <- <-]].
  pose proof (coalesce_ok us us' Hty Eu) as Hus. cbn [mbind result_mbind result_bind].
  destruct us' as [|u2 us']; [intros [= <- <-]; by exists M|].
  unfold mbind, sm_mbind. destruct (ensure_limit _ _ _); [|by intros [= <- <-]].
  destruct (acquire_graph_write_permit operation s) as [s1 [u3|e]] eqn:E1; apply permit_same in E1; [|by intros [= <- <-]].
  intros E. assert (represents c (sview s1) M) as H1 by (by rewrite (proj1 E1)).
  pose proof (vertex_loop c _ _ _ _ (batch_attempt_spec c operation decide (u2 :: us') Ec Hd Hus) s1 s' r M H1 E) as Hr.
  destruct r; [exact Hr|by eapply same_trans].
Qed.

(** C9: the metadata operations are what they say.  While the vertex records and the
    label and property indexes of a cell tell a table, setting the metadata of a
    vertex, setting or merging a batch (guarded by a property or not) and importing
    one either fail and leave the store alone, or apply the updates, joined by vertex,
    one after another to that table, tell how many vertices they changed, and leave
    records and indexes that tell the new table: no index entry is missing and none is
    left behind. *)
Theorem vertex_ops_refine (limits : GraphLimits) (c : string) (op : VertexOp) (s s' : MShard) (r : Result N)
    (M : gmap VertexId VertexMetadata)
    (Hop : Forall update_typed (op_updates op)) (HM : represents c (sview s) M)
    (Hrun : run_vertex_op limits c op s = (s', r)) :
  match r with
  | Ok n => ∃ M', op_spec c op M = Ok (n, M') ∧ represents c (sview s') M'
  | Err _ => same_store s s'
  end.
Proof.
  destruct op as [id md|us|us policy|us]; cbn [run_vertex_op op_updates op_spec op_decision] in *; unfold op_spec; cbn [op_updates op_decision].
  - cbn [mbind result_mbind result_bind].
    apply Forall_cons in Hop as [[Hid Hty] _]. cbn [fst snd] in *. revert Hrun.
    unfold set_vertex_metadata, lift, mbind at 1 2 3 4, sm_mbind. cbv zeta.
    destruct (validate_component "cell_id" c) as [u|] eqn:Ec; [apply validate_ok_inv in Ec|by intros [= <- <-]].
    destruct (validate_vertex_metadata md) as [u1|] eqn:Ev; [|by intros [= <- <-]].
    destruct (ensure_write_authority c _ s) as [s1 [u2|e]] eqn:E1; apply authority_same in E1 as ->; [|by intros [= <- <-]].
    destruct (acquire_graph_write_permit _ s) as [s1 [u3|e]] eqn:E1; apply permit_same in E1; [|by intros [= <- <-]].
    assert (updates_ok [(id, md)]) as Hus.
    { split; [cbn; apply NoDup_singleton|]. constructor; [|done]. split; [done|]. by eapply validated_ok. }
    intros E. assert (represents c (sview s1) M) as H1 by (by rewrite (proj1 E1)).
    assert (attempt_spec c (locked c "set_vertex_metadata" (set_body c id md))
      (λ M, foldM (step_spec c decide_set) (0, M) [(id, md)])) as Ha.
    { apply locked_attempt.
      - intros x x' e. rewrite set_is_batch. apply batch_body_still.
      - intros s2 x' n M2 H2. rewrite set_is_batch. by apply (batch_body_run c Ec _ decide_set _ s2 x' n M2 decide_set_sound Hus H2). }
    pose proof (vertex_loop c _ (λ _, true) GRAPH_TXN_MAX_RETRIES _ Ha s1 s' r M H1 E) as Hr.
    destruct r; [exact Hr|by eapply same_trans].
  - eapply batch_operation_spec; [exact decide_set_sound|exact Hop|exact HM|unfold set_vertex_metadata_batch, merge_vertex_metadata_batch, import_vertex_metadata_batch in Hrun; exact Hrun].
  - eapply batch_operation_spec; [exact (decide_merge_sound policy)|exact Hop|exact HM|unfold set_vertex_metadata_batch, merge_vertex_metadata_batch, import_vertex_metadata_batch in Hrun; exact Hrun].
  - eapply batch_operation_spec; [exact decide_import_sound|exact Hop|exact HM|unfold set_vertex_metadata_batch, merge_vertex_metadata_batch, import_vertex_metadata_batch in Hrun; exact Hrun].
Qed.

(** A new vertex. *)
Definition sample_person : VertexMetadata := MkVertexMetadata {["Person"]} {["age" := Integer 3]}.
Definition sample_op : VertexOp := OpSetBatch [(1, sample_person)].
Definition sample_limits : GraphLimits := MkGraphLimits 100 100.
Definition person_run : MShard * Result N := run_vertex_op sample_limits "c1" sample_op empty_shard.

Lemma empty_represents : represents "c1" ∅ ∅.
Proof.
  split.
  - intros id md. by rewrite lookup_empty.
  - intros id _. by rewrite !lookup_empty.
  - intros k val _. rewrite lookup_empty. split; [done|]. intros (id & md & H & _). by rewrite lookup_empty in H.
Qed.

Lemma sample_typed : Forall update_typed (op_updates sample_op).
Proof.
  constructor; [|done]. split; [done|]. intros p x H.
  change (({["age" := Integer 3]} : gmap string VertexPropertyValue) !! p = Some x) in H. by apply lookup_singleton_Some in H as [_ <-].
Qed.

Lemma vertex_ops_refine_witness :
  person_run.2 = Ok 1 ∧ represents "c1" (sview person_run.1) {[1 := sample_person]}.
Proof.
  assert (person_run.2 = Ok 1) as Hr by (vm_compute; reflexivity). split; [exact Hr|].
  destruct (vertex_ops_refine sample_limits "c1" sample_op empty_shard person_run.1 (Ok 1) ∅ sample_typed empty_represents
    ltac:(rewrite <- Hr; apply surjective_pairing)) as (M' & E & H).
  assert (op_spec "c1" sample_op ∅ = Ok (1, {[1 := sample_person]})) as E2 by (vm_compute; reflexivity).
  rewrite E2 in E. injection E as <-. exact H.
Defined.
