(* ===== verification/VertexLookups.v ===== *)
(** Lookups of vertices by label and by property on the reference store: they return
    what a filter of the whole table returns. *)

From S2P Require Import Prelude Text TextFacts Errors Model Namespace Keys KeysFacts Codec CodecFacts CodecRecords CodecRecordFacts Kv ShardTxn SegmentReads ShardWrite ShardRefine ShardMem ShardInv Xlog History SegmentFacts QueryBatch Floats FloatFacts Vertices VertexFacts.

Local Open Scope N_scope.
Import batch f64 vertices.

(** The vertices of a table that satisfy a predicate, in ascending order. *)
Definition matching (M : gmap VertexId VertexMetadata) (P : VertexMetadata → bool) : list VertexId :=
  bset_iter (dom (filter (λ p : VertexId * VertexMetadata, P p.2 = true) M)).

Lemma elem_of_matching M P id : id ∈ matching M P ↔ ∃ md, M !! id = Some md ∧ P md = true.
Proof.
  unfold matching. rewrite elem_of_bset_iter, elem_of_dom. split.
  - intros [md [H1 H2]%map_lookup_filter_Some]. by exists md.
  - intros (md & H1 & H2). exists md. by apply map_lookup_filter_Some.
Qed.
Lemma matching_length M P : (length (matching M P) ≤ size M)%nat.
Proof.
  unfold matching. rewrite bset_iter_length, size_dom. apply map_size_filter.
Qed.

Lemma sorted_matching M P xs : StronglySorted N.le xs → NoDup xs →
  (∀ id, id ∈ xs ↔ ∃ md, M !! id = Some md ∧ P md = true) → xs = matching M P.
Proof.
  intros Hs Hnd H. apply (sorted_nodup_ext (K := N)); [exact Hs|apply bset_iter_sorted|done|apply bset_iter_nodup|].
  intros id. by rewrite H, elem_of_matching.
Qed.

Lemma pad_order p a b : u64_ok a → u64_ok b → key_le (p +:+ pad20 a) (p +:+ pad20 b) → a ≤ b.
Proof.
  intros Ha Hb Hle. apply N.le_ngt. intros Hlt.
  assert (String.compare (p +:+ pad20 a) (p +:+ pad20 b) = Gt) as E.
  { rewrite compare_self_app, pad20_compare by done. by apply N.compare_gt_iff. }
  change (String.le (p +:+ pad20 a) (p +:+ pad20 b)) in Hle. unfold String.le, String.leb in Hle. by rewrite E in Hle.
Qed.

Section lookups.
Context (c : string) (Hc : component_ok c = true) (v : gmap string string) (M : gmap VertexId VertexMetadata)
  (HM : represents c v M).
#[local] Lemma lookup_cell_name : name_ok c. Proof. by apply component_ok_slash. Qed.
#[local] Hint Resolve lookup_cell_name component_ok_slash : core.

Lemma prefix_family f rest p k : name_ok f → p = "cell/" +:+ c +:+ "/" +:+ f +:+ "/" +:+ rest →
  starts_with p k = true → family k = Some (c, f).
Proof.
  intros Hf -> H. unfold starts_with in H. destruct (strip_prefix _ k) as [suffix|] eqn:E; [|done].
  apply strip_prefix_Some in E as ->. rewrite !app_assoc. by apply (family_cell c f (rest +:+ suffix)).
Qed.

Definition id_entry (key : VertexId → string) (id : VertexId) : string * string := (key id, encode_u64 id).

Lemma label_entries l : component_ok l = true →
  view_scan v (keys.vertex_label_prefix c l) None None =
  id_entry (keys.vertex_label c l) <$> matching M (λ md, bool_decide (l ∈ vm_labels md)).
Proof.
  intros Hl. assert (name_ok l) as Hls by (by apply component_ok_slash). pose proof lookup_cell_name as Hcn.
  destruct (view_scan_form u64_ok (keys.vertex_label c l) encode_u64 v (keys.vertex_label_prefix c l))
    as (xs & E & Hnd & Hs & Hxs).
  - intros k val Hk Hv. assert (family k = Some (c, "vlabel")) as Hf.
    { by apply (prefix_family "vlabel" (l +:+ "/") (keys.vertex_label_prefix c l)). }
    apply (rp_index _ _ _ HM) in Hv as (id & md & Hm & Hin & ->); [|by left].
    destruct (rp_ok _ _ _ HM id md Hm) as (Hid & Hmd & _). apply index_keys_elem in Hin; [|done].
    destruct Hin as [(l' & _ & Hl' & ->)|(p & x & _ & _ & _ & _ & ->)].
    + change (starts_with (prefix_render (PVertexLabel c l)) (render (KVertexLabel c l' id)) = true) in Hk.
      apply scan_prefix_covers in Hk; [|done|by apply label_wf]. destruct Hk as (_ & ->). by exists id.
    + by rewrite property_family in Hf.
  - intros id Hid. change (starts_with (prefix_render (PVertexLabel c l)) (render (KVertexLabel c l id)) = true).
    apply scan_prefix_covers; [done|by apply label_wf|done].
  - intros a b Ha Hb _ Hab. by apply encode_u64_same.
  - rewrite E. unfold id_entry. f_equal. apply sorted_matching; [|done|].
    + eapply StronglySorted_weaken; [exact Hs|]. intros a b [Ha _]%Hxs [Hb _]%Hxs.
      unfold keys.vertex_label. rewrite <- !app_assoc. by apply pad_order.
    + intros id. rewrite Hxs, (rp_index _ _ _ HM) by (left; by apply label_family). split.
      * intros (Hid & id' & md & Hm & Hin & Hval). destruct (rp_ok _ _ _ HM id' md Hm) as (Hid' & Hmd & _).
        apply encode_u64_same in Hval as <-; [|done..]. apply index_keys_elem in Hin; [|done].
        destruct Hin as [(l' & Hin & Hl' & Ek)|(p & x & _ & _ & _ & _ & Ek)].
        -- apply (render_eq (KVertexLabel c l id) (KVertexLabel c l' id)) in Ek; [injection Ek as <-|by apply label_wf..].
           exists md. by rewrite bool_decide_eq_true_2.
        -- apply (f_equal family) in Ek. by rewrite label_family, property_family in Ek.
      * intros (md & Hm & Hin%bool_decide_eq_true). destruct (rp_ok _ _ _ HM id md Hm) as (Hid & Hmd & _).
        split; [done|]. exists id, md. split; [done|]. split; [|done]. apply index_keys_elem; [done|]. left. by exists l.
Qed.

Lemma property_entries p e : component_ok p = true → name_ok e →
  view_scan v (keys.vertex_property_index_prefix c p e) None None =
  id_entry (keys.vertex_property_index c p e) <$>
    matching M (λ md, match vm_properties md !! p with
                      | Some x => bool_decide (encode_vertex_property_value_key x = e)
                      | None => false end).
Proof.
  intros Hp He. assert (name_ok p) as Hps by (by apply component_ok_slash). pose proof lookup_cell_name as Hcn.
  assert (∀ id, u64_ok id → key_wf (KVertexPropertyIndex c p e id)) as Hwf by done.
  destruct (view_scan_form u64_ok (keys.vertex_property_index c p e) encode_u64 v (keys.vertex_property_index_prefix c p e))
    as (xs & E & Hnd & Hs & Hxs).
  - intros k val Hk Hv. assert (family k = Some (c, "vprop_idx")) as Hf.
    { by apply (prefix_family "vprop_idx" (p +:+ "/" +:+ e +:+ "/") (keys.vertex_property_index_prefix c p e)). }
    apply (rp_index _ _ _ HM) in Hv as (id & md & Hm & Hin & ->); [|by right].
    destruct (rp_ok _ _ _ HM id md Hm) as (Hid & Hmd & _). apply index_keys_elem in Hin; [|done].
    destruct Hin as [(l' & _ & Hl' & ->)|(p' & x & _ & Hp' & _ & _ & ->)].
    + by rewrite label_family in Hf.
    + change (starts_with (prefix_render (PVertexPropertyIndex c p e))
        (render (KVertexPropertyIndex c p' (encode_vertex_property_value_key x) id)) = true) in Hk.
      apply scan_prefix_covers in Hk; [|done|by apply property_wf]. destruct Hk as (_ & -> & ->). by exists id.
  - intros id Hid. change (starts_with (prefix_render (PVertexPropertyIndex c p e)) (render (KVertexPropertyIndex c p e id)) = true).
    apply scan_prefix_covers; [done|by apply Hwf|done].
  - intros a b Ha Hb _ Hab. by apply encode_u64_same.
  - rewrite E. unfold id_entry. f_equal. apply sorted_matching; [|done|].
    + eapply StronglySorted_weaken; [exact Hs|]. intros a b [Ha _]%Hxs [Hb _]%Hxs.
      unfold keys.vertex_property_index. rewrite <- !app_assoc. by apply pad_order.
    + intros id. rewrite Hxs, (rp_index _ _ _ HM) by (right; by apply property_family). split.
      * intros (Hid & id' & md & Hm & Hin & Hval). destruct (rp_ok _ _ _ HM id' md Hm) as (Hid' & Hmd & _).
        apply encode_u64_same in Hval as <-; [|done..]. apply index_keys_elem in Hin; [|done].
        destruct Hin as [(l' & _ & _ & Ek)|(p' & x & Hx & Hp' & _ & _ & Ek)].
        -- apply (f_equal family) in Ek. by rewrite label_family, property_family in Ek.
        -- apply (render_eq (KVertexPropertyIndex c p e id) (KVertexPropertyIndex c p' _ id)) in Ek;
             [injection Ek as <- ->|by apply Hwf|by apply property_wf]. exists md. split; [done|]. rewrite Hx. by apply bool_decide_eq_true_2.
      * intros (md & Hm & Hin). destruct (rp_ok _ _ _ HM id md Hm) as (Hid & Hmd & _).
        destruct (vm_properties md !! p) as [x|] eqn:Ex; [|done]. apply bool_decide_eq_true in Hin as <-.
        split; [done|]. exists id, md. split; [done|]. split; [|done]. apply index_keys_elem; [done|]. right. exists p, x.
        destruct Hmd as [[_ Hpo] Ht]. destruct (Hpo p x Ex), (Ht p x Ex). done.
Qed.
End lookups.

(** * The loops *)

(** A budget that never objects. *)
Definition unlimited (b : QueryBudget) : Prop := ∀ operation n, check b operation n = Ok tt.

Section loops.
Context (limits : GraphLimits) (b : QueryBudget).

Lemma ensure_candidates_ok operation n :
  ensure_query_index_candidates limits operation n = Ok tt ↔ N.of_nat n ≤ max_query_index_candidates limits.
Proof.
  unfold ensure_query_index_candidates, ensure_limit. destruct (N.ltb_spec (max_query_index_candidates limits) (N.of_nat n)); [split; [done|lia]|done].
Qed.

Lemma index_loop op cand checks key ids acc : Forall u64_ok ids →
  let r := scan_loop (index_step limits b op cand checks) acc (Ok <$> (id_entry key <$> ids)) in
  (∀ l, r = Ok l → l = acc ++ ids) ∧
  (unlimited b → N.of_nat (length acc + length ids) ≤ max_query_index_candidates limits → r = Ok (acc ++ ids)).
Proof.
  cbv zeta. intros Hids. revert acc. induction Hids as [|id ids Hid _ IH]; intros acc; cbn [fmap list_fmap scan_loop].
  { rewrite List.app_nil_r. split; [by intros l [= <-]|done]. }
  replace (acc ++ id :: ids) with ((acc ++ [id]) ++ ids) by (by rewrite <- List.app_assoc).
  destruct (IH (acc ++ [id])) as [IH1 IH2]. unfold index_step at 1 3.
  cbn [id_entry snd]. rewrite encode_decode_u64 by done. split.
  - intros l. destruct (check b op _); [|done]. cbn [mbind result_mbind result_bind].
    destruct (ensure_query_index_candidates limits cand _); [|done]. cbn [mbind result_mbind result_bind]. apply IH1.
  - intros Hb Hlen. rewrite Hb. cbn [mbind result_mbind result_bind].
    rewrite (proj2 (ensure_candidates_ok cand _)) by (cbn [length] in Hlen; lia). cbn [mbind result_mbind result_bind].
    apply IH2; [done|]. rewrite length_app. cbn [length] in *. lia.
Qed.

Lemma insert_candidates ids found :
  (∀ found', foldM (insert_candidate limits) found ids = Ok found' → found' = found ∪ list_to_set ids) ∧
  (N.of_nat (size (found ∪ list_to_set ids)) ≤ max_query_index_candidates limits →
   foldM (insert_candidate limits) found ids = Ok (found ∪ list_to_set ids)).
Proof.
  revert found. induction ids as [|id ids IH]; intros found; cbn [foldM list_to_set].
  { rewrite !union_empty_r_L. split; [by intros ? [= <-]|done]. }
  replace (found ∪ ({[id]} ∪ list_to_set ids)) with (({[id]} ∪ found) ∪ list_to_set ids : gset VertexId) by set_solver.
  assert (insert_candidate limits found id =
    (_ ← ensure_query_index_candidates limits "cypher_vertex_property_index_candidates" (size ({[id]} ∪ found));
     Ok ({[id]} ∪ found))) as -> by done.
  destruct (IH ({[id]} ∪ found)) as [IH1 IH2]. split.
  - intros found'. destruct (ensure_query_index_candidates _ _ _); [|done]. cbn [mbind result_mbind result_bind]. apply IH1.
  - intros Hlen. rewrite (proj2 (ensure_candidates_ok _ _)); [cbn [mbind result_mbind result_bind]; by apply IH2|].
    etrans; [|exact Hlen]. assert (size ({[id]} ∪ found) ≤ size (({[id]} ∪ found) ∪ list_to_set ids : gset VertexId))%nat by (apply subseteq_size; set_solver). lia.
Qed.
End loops.

(** A stored value has the key [e]. *)
Definition indexed_as (p e : string) (md : VertexMetadata) : bool :=
  match vm_properties md !! p with
  | Some x => bool_decide (encode_vertex_property_value_key x = e)
  | None => false
  end.
Definition has_label (l : string) (md : VertexMetadata) : bool := bool_decide (l ∈ vm_labels md).
Definition has_value (p : string) (value : VertexPropertyValue) (md : VertexMetadata) : bool :=
  match vm_properties md !! p with Some x => vertex_property_values_equal x value | None => false end.

Section scans.
Context (limits : GraphLimits) (b : QueryBudget) (c : string) (Hc : component_ok c = true) (s : MShard)
  (M : gmap VertexId VertexMetadata) (HM : represents c (sview s) M).

Lemma matching_words P : Forall u64_ok (matching M P).
Proof. apply Forall_forall. intros id (md & H & _)%elem_of_matching. by apply (rp_ok _ _ _ HM id md). Qed.

Definition scan_spec {A} (r : MShard * Result A) (a : A) : Prop :=
  (∀ s' a', r = (s', Ok a') → s' = s ∧ a' = a) ∧
  (unlimited b → N.of_nat (size M) ≤ max_query_index_candidates limits → r = (s, Ok a)).

Lemma index_scan_spec op cand checks key prefix P :
  view_scan (sview s) prefix None None = id_entry key <$> matching M P →
  scan_spec (scan_remote_prefix prefix (index_step limits b op cand checks) [] s) (matching M P).
Proof.
  intros E. unfold scan_remote_prefix, scan_spec. cbn [db_scan_prefix Mem].
  change (mem_view (sh_db s)) with (sview s). rewrite E.
  destruct (index_loop limits b op cand checks key (matching M P) [] (matching_words P)) as [H1 H2]. split.
  - intros s' l' [= <- Hl]. split; [done|]. by apply H1.
  - intros Hb Hlen. f_equal. apply H2; [done|]. pose proof (matching_length M P). cbn [length]. lia.
Qed.

Lemma scan_encoded_spec p encoded checks found : component_ok p = true → Forall name_ok encoded → found ⊆ dom M →
  scan_spec (scan_encoded limits c p b encoded checks found s)
    (found ∪ list_to_set (e ← encoded; matching M (indexed_as p e))).
Proof.
  intros Hp He. revert checks found. induction He as [|e encoded He _ IH]; intros checks found Hf.
  { cbn. unfold scan_spec. rewrite !union_empty_r_L. split; [by intros s1 a1 [= <- <-]|done]. }
  cbn [scan_encoded mbind list_bind]. unfold mbind, sm_mbind, lift. rewrite list_to_set_app_L, union_assoc_L.
  unfold scan_vertex_property_index_current.
  destruct (index_scan_spec "cypher_vertex_property_index" "cypher_vertex_property_index_candidates" checks _ _ _
    (property_entries c Hc (sview s) M HM p e Hp He)) as [S1 S2]. fold (indexed_as p e) in S1, S2.
  assert (found ∪ list_to_set (matching M (indexed_as p e)) ⊆ dom M) as Hsub.
  { intros id [?|(md & H & _)%elem_of_list_to_set%elem_of_matching]%elem_of_union; [by apply Hf|by apply elem_of_dom]. }
  destruct (insert_candidates limits (matching M (indexed_as p e)) found) as [I1 I2].
  split.
  - intros s' found'. destruct (scan_remote_prefix _ _ _ s) as [s1 [ids|e1]] eqn:E1; [|done].
    destruct (S1 s1 ids eq_refl) as [-> ->]. destruct (foldM _ _ _) as [found1|] eqn:E2; [|done].
    rewrite (I1 found1 eq_refl). by apply (proj1 (IH _ _ Hsub)).
  - intros Hb Hlen. rewrite (S2 Hb Hlen). rewrite I2.
    + by apply (proj2 (IH _ _ Hsub)).
    + etrans; [|exact Hlen]. rewrite <- (size_dom (D := gset VertexId) M). apply subseteq_size in Hsub. lia.
Qed.
End scans.

(** * The property *)

Lemma equivalent_keys_named v : Forall name_ok (equivalent_property_index_keys v).
Proof.
  assert (∀ x (X : gset string), set_Forall name_ok X → set_Forall name_ok ({[encode_vertex_property_value_key x]} ∪ X)) as Hadd.
  { intros x X H k [->%elem_of_singleton|?]%elem_of_union; [apply value_key_name|by apply H]. }
  assert (∀ x, set_Forall name_ok ({[encode_vertex_property_value_key x]} : gset string)) as Hone.
  { intros x k ->%elem_of_singleton. apply value_key_name. }
  assert (∀ X : gset string, set_Forall name_ok X → Forall name_ok (bset_iter X)) as Hiter.
  { intros X H. apply Forall_forall. intros k Hk%elem_of_bset_iter. by apply H. }
  unfold equivalent_property_index_keys, insert_float_property_index_key. cbv zeta. apply Hiter.
  destruct v as [n|z|p|f|t]; [| |apply Hone| |apply Hone].
  - destruct (exact_f64_from_u64 n); [destruct (n =? 0)|]; auto.
  - destruct (exact_f64_from_i64 z); auto.
  - set (zeros := if feq _ _ then _ else _). assert (set_Forall name_ok zeros) by (unfold zeros; destruct (feq _ _); auto).
    clearbody zeros. destruct (exact_u64_from_f64 _); [by apply Hadd|]. destruct (exact_i64_from_f64 _); [by apply Hadd|done].
Qed.

Lemma matching_union M p value : (∀ id md, M !! id = Some md → metadata_ok md) → value_ok value → canonical value →
  bset_iter (∅ ∪ list_to_set (e ← equivalent_property_index_keys value; matching M (indexed_as p e))) =
  matching M (has_value p value).
Proof.
  intros HM Hv Hcv. apply sorted_matching; [exact (bset_iter_sorted (K := N) _)|exact (bset_iter_nodup (K := N) _)|]. intros id.
  rewrite elem_of_bset_iter, union_empty_l_L, elem_of_list_to_set, list_elem_of_bind. unfold has_value. split.
  - intros (e & (md & Hm & Hi)%elem_of_matching & He). exists md. split; [done|]. unfold indexed_as in Hi.
    destruct (vm_properties md !! p) as [x|] eqn:Ex; [|done]. apply bool_decide_eq_true in Hi as <-.
    destruct (HM id md Hm) as [_ Hty]. destruct (Hty p x Ex). by apply equivalent_keys_spec.
  - intros (md & Hm & Hi). destruct (vm_properties md !! p) as [x|] eqn:Ex; [|done].
    destruct (HM id md Hm) as [_ Hty]. destruct (Hty p x Ex). exists (encode_vertex_property_value_key x). split.
    + apply elem_of_matching. exists md. split; [done|]. unfold indexed_as. rewrite Ex. by apply bool_decide_eq_true.
    + by apply equivalent_keys_spec.
Qed.

(** C10: an index lookup is a filter of the vertices.  While the records and the
    indexes of a cell tell a table, a scan by label gives the vertices that have the
    label, a seek by property those whose value of it a query's comparison finds equal
    to the one asked for (a number of another kind too), each once and in ascending
    order, and reading a vertex gives its metadata, the empty one where there is none;
    none of them changes the shard.  Both lookups succeed when the budget does not
    object and the table is within the candidate limit. *)
Theorem vertex_lookups_exact (limits : GraphLimits) (b : QueryBudget) (c : string) (s : MShard)
    (M : gmap VertexId VertexMetadata) (label p : string) (value : VertexPropertyValue)
    (HM : represents c (sview s) M) (Hv : value_ok value) (Hcv : canonical value) :
  (∀ s' ids, scan_vertex_label_index_at limits c label b s = (s', Ok ids) →
     s' = s ∧ ids = matching M (has_label label)) ∧
  (∀ s' ids, scan_vertex_property_index_at limits c p value b s = (s', Ok ids) →
     s' = s ∧ ids = matching M (has_value p value)) ∧
  (∀ id, component_ok c = true → u64_ok id → vertex_metadata_at c id s = (s, Ok (stored (M !! id)))) ∧
  (component_ok c = true → component_ok label = true → component_ok p = true →
   unlimited b → N.of_nat (size M) ≤ max_query_index_candidates limits →
   scan_vertex_label_index_at limits c label b s = (s, Ok (matching M (has_label label))) ∧
   scan_vertex_property_index_at limits c p value b s = (s, Ok (matching M (has_value p value)))).
Proof.
  assert (∀ Hc : component_ok c = true, ∀ l, component_ok l = true →
    scan_spec limits b s M (scan_vertex_label_index_current limits c l b s) (matching M (has_label l))) as Hlabel.
  { intros Hc l Hl. eapply index_scan_spec; [exact HM|]. by apply label_entries. }
  assert (∀ Hc : component_ok c = true, component_ok p = true → scan_spec limits b s M
    (scan_encoded limits c p b (equivalent_property_index_keys value) 0 ∅ s)
    (∅ ∪ list_to_set (e ← equivalent_property_index_keys value; matching M (indexed_as p e)))) as Hprop.
  { intros Hc Hp. apply (scan_encoded_spec limits b c Hc s M HM p _ 0 ∅ Hp (equivalent_keys_named value)). apply empty_subseteq. }
  assert (∀ id md, M !! id = Some md → metadata_ok md) as Hmd by (intros id md H; apply (rp_ok _ _ _ HM id md H)).
  pose proof (matching_union M p value Hmd Hv Hcv) as Hunion.
  clear Hv Hcv. unfold scan_vertex_label_index_at, scan_vertex_property_index_at, vertex_metadata_at, lift, mbind, sm_mbind.
  split; [|split; [|split]].
  - intros s' ids. destruct (validate_component "cell_id" c) as [u|] eqn:Ec; [apply validate_ok_inv in Ec|done].
    destruct (validate_component "label" label) as [u1|] eqn:El; [apply validate_ok_inv in El|done]. by apply Hlabel.
  - intros s' ids. destruct (validate_component "cell_id" c) as [u|] eqn:Ec; [apply validate_ok_inv in Ec|done].
    destruct (validate_component "property" p) as [u1|] eqn:Ep; [apply validate_ok_inv in Ep|done].
    destruct (scan_encoded _ _ _ _ _ _ _ s) as [s1 [found|e]] eqn:E; [|done]. intros [= <- <-].
    destruct (proj1 (Hprop Ec Ep) s1 found eq_refl) as [-> ->]. by rewrite Hunion.
  - intros id Hc Hid. rewrite (proj2 (validate_component_ok "cell_id" c) Hc). cbv zeta.
    unfold read_remote. cbn [db_get Mem slate]. change (mem_view (sh_db s)) with (sview s).
    rewrite (rp_records _ _ _ HM) by done. destruct (M !! id) as [md|] eqn:E; [|done]. cbn.
    by rewrite metadata_decoded by (by apply (Hmd id)).
  - intros Hc Hl Hp Hb Hlen.
    rewrite (proj2 (validate_component_ok "cell_id" c) Hc), (proj2 (validate_component_ok "label" label) Hl),
      (proj2 (validate_component_ok "property" p) Hp), (proj2 (Hprop Hc Hp) Hb Hlen).
    split; [by apply (proj2 (Hlabel Hc label Hl))|]. unfold mret, sm_mret. by rewrite Hunion.
Qed.

(** The store after a person of age 3 was set. *)
Lemma person_represents : represents "c1" (sview person_run.1) {[1 := sample_person]}.
Proof.
  assert (person_run = (person_run.1, Ok 1)) as Hr.
  { rewrite (surjective_pairing person_run) at 1. apply f_equal. vm_compute. reflexivity. }
  destruct (batch_operation_spec sample_limits "c1" "set_vertex_metadata_batch" None decide_set [(1, sample_person)]
    empty_shard person_run.1 (Ok 1) ∅ decide_set_sound sample_typed empty_represents Hr) as (M' & E & H).
  assert ((us ← coalesce_vertex_metadata_updates [(1, sample_person)];
    foldM (step_spec "c1" decide_set) (0, ∅) us) = Ok (1, {[1 := sample_person]})) as E2 by (vm_compute; reflexivity).
  rewrite E2 in E. injection E as <-. exact H.
Qed.

Definition free_budget : QueryBudget := MkBudget None (λ _, 0) (λ _, false).

(** The person is found by label, by the integer 3 and by the double 3. *)
Lemma vertex_lookups_exact_witness :
  scan_vertex_label_index_at sample_limits "c1" "Person" free_budget person_run.1 = (person_run.1, Ok [1]) ∧
  scan_vertex_property_index_at sample_limits "c1" "age" (Float (MkQueryFloat 4613937818241073152)) free_budget
    person_run.1 = (person_run.1, Ok [1]) ∧
  vertex_metadata_at "c1" 1 person_run.1 = (person_run.1, Ok sample_person).
Proof.
  assert (matching {[1 := sample_person]} (has_label "Person") = [1]) as E1 by (vm_compute; reflexivity).
  assert (matching {[1 := sample_person]} (has_value "age" (Float (MkQueryFloat 4613937818241073152))) = [1]) as E2
    by (vm_compute; reflexivity).
  assert (value_ok (Float (MkQueryFloat 4613937818241073152))) as Hv by done.
  destruct (vertex_lookups_exact sample_limits free_budget "c1" person_run.1 {[1 := sample_person]} "Person" "age"
    (Float (MkQueryFloat 4613937818241073152)) person_represents Hv I) as (_ & _ & Hmd & Hok).
  rewrite E1, E2 in Hok.
  assert (unlimited free_budget) as Hb by (by intros operation n).
  assert (N.of_nat (size ({[1 := sample_person]} : gmap N VertexMetadata)) ≤ 100) as Hs by (vm_compute; discriminate).
  destruct (Hok eq_refl eq_refl eq_refl Hb Hs) as [H1 H2]. split; [exact H1|]. split; [exact H2|].
  exact (Hmd 1 eq_refl ltac:(done)).
Defined.

(** A number that is not negative but was given as a signed one is indexed under a key
    that its stored form does not have: removing it leaves the index entry behind. *)
Definition signed_age : VertexMetadata := MkVertexMetadata ∅ {["age" := SignedInteger 5]}.
Definition signed_run : MShard * Result N :=
  run_vertex_op sample_limits "c1" (OpSetBatch [(1, VertexMetadata_default)])
    (run_vertex_op sample_limits "c1" (OpSetBatch [(1, signed_age)]) empty_shard).1.
Lemma signed_entry_left_behind :
  signed_run.2 = Ok 1 ∧
  sview signed_run.1 !! keys.vertex "c1" 1 = None ∧
  sview signed_run.1 !!
    keys.vertex_property_index "c1" "age" (encode_vertex_property_value_key (SignedInteger 5)) 1 = Some (encode_u64 1) ∧
  vertex_property_values_equal (Integer 5) (SignedInteger 5) = true.
Proof. vm_compute. repeat split. Qed.

(** A guard that was negative and no longer is cannot be compared, though queries
    order the two: the merge of the vertex is refused as corrupt. *)
Definition sample_policy : QueryBatchMergePolicy := MkMergePolicy "at" ∅.
Lemma guard_across_zero key :
  guarded_metadata_patch {["at" := from_i64 (-1)]} {["at" := from_i64 1]} sample_policy key =
    corrupt key "guarded merge property at must have matching ordered scalar types" ∧
  numeric_property_order (from_i64 (-1)) (from_i64 1) = Some Lt.
Proof. split; vm_compute; reflexivity. Qed.
