(* ===== verification/ClientService.v ===== *)
(** [client/service.rs: ClientQueryService]: authentication, authorization, admission,
    the life of a query (begin, permits, run, cancellation, time limit, drop) and the
    service's operations.  An operation is a task: between its steps others act on
    the service, its timer may fire and it may be dropped, as a script says.  The
    cell client, the parsers of queries ([query/opencypher.rs]), the authorizer and
    the policy are parameters.  Tracing is left out. *)

From S2P Require Import Prelude Text Errors Model Namespace Lease Histogram QueryData Client ClientNames BoltWire BoltValues BoltRequest BoltRouting BoltSession QueryAccess QueryBatch.

Local Open Scope N_scope.

Module service.
Import histogram client values request session access batch.

(** * Data *)

(** [query/algebra.rs: QueryContext], as a client request fills it; a cancellation
    token is its number. *)
Record QueryContext := MkContext {
  qx_scope : GraphScope; qx_cell_id : string; qx_idempotency_key : string; qx_read_epoch : option N;
  qx_parameters : gmap string VertexPropertyValue; qx_max_runtime_ms : option N; qx_max_result_bytes : option N;
  qx_refreshed_reader : bool; qx_cancellation_token : option N }.

(** [QueryCellClient]; a call may panic. *)
Class QueryCellClient (Cl : Type) := {
  cl_execute_cypher_rows : QueryContext → string → Cl → Cl * option (Result QueryResultSet);
  cl_execute_batch : QueryContext → QueryBatchOperation → Cl → Cl * option (Result QueryResultSet);
  cl_execute_cypher_rows_page : QueryContext → string → option QueryCursorToken → N → Cl → Cl * option (Result QueryResultPage);
  cl_execute_batch_page : QueryContext → QueryBatchOperation → option QueryCursorToken → N → Cl → Cl * option (Result QueryResultPage);
  cl_wait_for_storage_sequence : GraphScope → string → N → Cl → Cl * option (Result (option N));
  cl_refresh_storage_sequence : GraphScope → string → Cl → Cl * option (Result (option N));
  cl_current_storage_sequence : GraphScope → string → Cl → Cl * option (Result (option N)) }.

Inductive OpenCypherQueryAccess : Type := AccessRead | AccessWrite.

(** The parsers of [query/opencypher.rs] and [query/path_procedure.rs]. *)
Record Parsers := MkParsers {
  classify_opencypher_query_access : string → Result OpenCypherQueryAccess;
  parse_opencypher_unwind_batch : string → Result (option ParsedUnwindBatch);
  parse_native_path_procedure_columns : string → Result (option (list QueryColumn));
  parse_opencypher_row_query : string → gmap string VertexPropertyValue → Result (list QueryColumn);
  parse_opencypher_mutation_query : string → gmap string VertexPropertyValue → Result bool }.

Record ClientQueryServiceConfig := MkServiceConfig {
  auth_policy : QueryTransportAuthPolicy;
  scope_authorizer : QueryTransportPrincipal → GraphScope → QueryTransportAction → bool;
  namespace_quotas : QueryTransportNamespaceQuotas; max_concurrent_queries : N; max_query_bytes : N;
  max_parameters : N; max_page_size : N; max_query_runtime_ms : N; cursor_limits : CursorLimits }.

Definition config_validate (c : ClientQueryServiceConfig) : Result unit :=
  quotas_validate (namespace_quotas c) ;;
  if (max_concurrent_queries c =? 0) || (max_query_bytes c =? 0) || (max_parameters c =? 0) || (max_page_size c =? 0)
     || (max_query_runtime_ms c =? 0) || (max_server_cursors (cursor_limits c) =? 0)
     || (max_cursor_buffer_bytes (cursor_limits c) =? 0) || (cursor_ttl_ms (cursor_limits c) =? 0)
  then unsupported "client query limits must be greater than zero" else Ok tt.

Record ClientQueryMetrics := MkMetrics {
  queries_started : N; queries_completed : N; queries_failed : N; queries_failed_by_class : list N;
  rows_returned : N; auth_failures : N; scope_denials : N; cancellations : N; backpressure_waits : N;
  prepare_requests : N; read_latency : AtomicDurationHistogram; write_latency : AtomicDurationHistogram }.
Definition metrics_default : ClientQueryMetrics :=
  MkMetrics 0 0 0 (replicate CLASS_COUNT 0) 0 0 0 0 0 0 histogram_default histogram_default.

Global Instance ClientReadConsistency_eq_dec : EqDecision ClientReadConsistency.
Proof. solve_decision. Defined.
Global Instance ClientQueryKey_countable : Countable ClientQueryKey.
Proof.
  refine (inj_countable' (λ k, (ck_principal k, ck_scope k, ck_query_id k)) (λ p, MkKey p.1.1 p.1.2 p.2) _). by intros [].
Defined.

(** A permit of a semaphore, [None] for the query gate, and the query it is of; the
    permits a semaphore has left are its limit less those out. *)
Record Permit := MkPermit { pm_holder : N; pm_gate : option NamespacePath }.
Global Instance Permit_eq_dec : EqDecision Permit.
Proof. solve_decision. Defined.

(** [ClientQueryServiceInner]; the token of an active query is its generation, and
    the cancelled tokens are a set. *)
Record Service (Cl : Type) := MkService {
  sv_client : Cl; sv_metrics : ClientQueryMetrics; sv_permits : list Permit;
  sv_active : gmap ClientQueryKey N; sv_cancelled : gset N; sv_next_generation : N; sv_cursors : Cursors }.
Arguments MkService {Cl}. Arguments sv_client {Cl}. Arguments sv_metrics {Cl}. Arguments sv_permits {Cl}.
Arguments sv_active {Cl}. Arguments sv_cancelled {Cl}. Arguments sv_next_generation {Cl}. Arguments sv_cursors {Cl}.

Definition Service_new {Cl} (client : Cl) (config : ClientQueryServiceConfig) : Result (Service Cl) :=
  config_validate config ;; Ok (MkService client metrics_default [] ∅ ∅ 1 no_cursors).

(** * Tasks *)

(** What happens while a task waits: others act, its timer fires, it is dropped;
    and which of two ready branches a [select!] takes. *)
Record Pace (Cl : Type) := MkPace {
  p_others : Service Cl → Service Cl; p_timer : bool; p_drop : bool; p_choice : bool }.
Arguments MkPace {Cl}. Arguments p_others {Cl}. Arguments p_timer {Cl}. Arguments p_drop {Cl}. Arguments p_choice {Cl}.

Record Run (Cl : Type) := MkRun {
  r_svc : Service Cl; r_script : list (Pace Cl); r_ticks : nat;
  r_timed : option N;   (* the token its timer cancels *)
  r_timed_out : bool }.
Arguments MkRun {Cl}. Arguments r_svc {Cl}. Arguments r_script {Cl}. Arguments r_ticks {Cl}.
Arguments r_timed {Cl}. Arguments r_timed_out {Cl}.

Inductive ending (A : Type) : Type :=
  | Returned (a : A)
  | Failed (e : GraphError)
  | Panics
  | Dropped
  | Stuck.   (* nobody releases the permit it waits for *)
Arguments Returned {A}. Arguments Failed {A}. Arguments Panics {A}. Arguments Dropped {A}. Arguments Stuck {A}.

Definition Task (Cl A : Type) : Type := Run Cl → Run Cl * ending A.
Global Instance task_ret Cl : MRet (Task Cl) := λ _ a r, (r, Returned a).
Global Instance task_bind Cl : MBind (Task Cl) := λ _ _ f m r,
  let '(r, x) := m r in
  match x with
  | Returned a => f a r
  | Failed e => (r, Failed e)
  | Panics => (r, Panics)
  | Dropped => (r, Dropped)
  | Stuck => (r, Stuck)
  end.

Section service.
Context {Cl : Type} `{QueryCellClient Cl}.
Context (sha256 enc : string → string) (sz : Sizes) (clock : nat → N).
Context (config : ClientQueryServiceConfig) (parsers : Parsers).

Abbreviation run := (Run Cl).
Abbreviation T := (Task Cl).
Abbreviation svc_t := (Service Cl).

Definition with_svc (s : svc_t) (r : run) : run := MkRun s (r_script r) (r_ticks r) (r_timed r) (r_timed_out r).
Definition with_metrics (f : ClientQueryMetrics → ClientQueryMetrics) (s : svc_t) : svc_t :=
  MkService (sv_client s) (f (sv_metrics s)) (sv_permits s) (sv_active s) (sv_cancelled s) (sv_next_generation s) (sv_cursors s).
Definition with_permits (l : list Permit) (s : svc_t) : svc_t :=
  MkService (sv_client s) (sv_metrics s) l (sv_active s) (sv_cancelled s) (sv_next_generation s) (sv_cursors s).
Definition with_active (m : gmap ClientQueryKey N) (s : svc_t) : svc_t :=
  MkService (sv_client s) (sv_metrics s) (sv_permits s) m (sv_cancelled s) (sv_next_generation s) (sv_cursors s).
Definition with_generation (g : N) (s : svc_t) : svc_t :=
  MkService (sv_client s) (sv_metrics s) (sv_permits s) (sv_active s) (sv_cancelled s) g (sv_cursors s).
Definition with_client (c : Cl) (s : svc_t) : svc_t :=
  MkService c (sv_metrics s) (sv_permits s) (sv_active s) (sv_cancelled s) (sv_next_generation s) (sv_cursors s).
Definition with_cursors (c : Cursors) (s : svc_t) : svc_t :=
  MkService (sv_client s) (sv_metrics s) (sv_permits s) (sv_active s) (sv_cancelled s) (sv_next_generation s) c.
(** [QueryCancellationToken::cancel]. *)
Definition cancel_token (token : N) (s : svc_t) : svc_t :=
  MkService (sv_client s) (sv_metrics s) (sv_permits s) (sv_active s) ({[token]} ∪ sv_cancelled s) (sv_next_generation s) (sv_cursors s).

Definition reads {A} (f : svc_t → A) : T A := λ r, (r, Returned (f (r_svc r))).
Definition updates (f : svc_t → svc_t) : T unit := λ r, (with_svc (f (r_svc r)) r, Returned tt).
Definition fails {A} (e : GraphError) : T A := λ r, (r, Failed e).
Definition panics {A} : T A := λ r, (r, Panics).
Definition lift {A} (x : Result A) : T A := match x with Ok a => mret a | Err e => fails e end.
Definition now : T N := λ r,
  (MkRun (r_svc r) (r_script r) (S (r_ticks r)) (r_timed r) (r_timed_out r), Returned (clock (r_ticks r))).
(** A call on a part of the service. *)
Definition calls {A} (f : svc_t → svc_t * A) : T A := λ r,
  let '(s, a) := f (r_svc r) in (with_svc s r, Returned a).

(** An await: the next pace of the script, and its choice. *)
Definition pause : T bool := λ r,
  match r_script r with
  | [] => (r, Returned false)
  | p :: script =>
      let s := p_others p (r_svc r) in
      if p_drop p then (MkRun s script (r_ticks r) (r_timed r) (r_timed_out r), Dropped)
      else match (if p_timer p then r_timed r else None) with
           | Some token => (MkRun (cancel_token token s) script (r_ticks r) None true, Returned (p_choice p))
           | None => (MkRun s script (r_ticks r) (r_timed r) (r_timed_out r), Returned (p_choice p))
           end
  end.

(** A call of the cell client; what one that is given up has done is part of what
    others do. *)
Definition on_client {A} (f : Cl → Cl * option (Result A)) : T A := λ r,
  let '(c, x) := f (sv_client (r_svc r)) in
  (with_svc (with_client c (r_svc r)) r,
   match x with Some (Ok a) => Returned a | Some (Err e) => Failed e | None => Panics end).
Definition client_call {A} (f : Cl → Cl * option (Result A)) : T A := pause ;; on_client f.

(** * Metrics *)

Definition count_up (f : ClientQueryMetrics → ClientQueryMetrics) : T unit := updates (with_metrics f).
Definition started (m : ClientQueryMetrics) : ClientQueryMetrics :=
  MkMetrics (wrapping_add (queries_started m) 1) (queries_completed m) (queries_failed m) (queries_failed_by_class m) (rows_returned m)
    (auth_failures m) (scope_denials m) (cancellations m) (backpressure_waits m) (prepare_requests m) (read_latency m) (write_latency m).
Definition auth_failed (m : ClientQueryMetrics) : ClientQueryMetrics :=
  MkMetrics (queries_started m) (queries_completed m) (queries_failed m) (queries_failed_by_class m) (rows_returned m)
    (wrapping_add (auth_failures m) 1) (scope_denials m) (cancellations m) (backpressure_waits m) (prepare_requests m) (read_latency m) (write_latency m).
Definition scope_denied (m : ClientQueryMetrics) : ClientQueryMetrics :=
  MkMetrics (queries_started m) (queries_completed m) (queries_failed m) (queries_failed_by_class m) (rows_returned m)
    (auth_failures m) (wrapping_add (scope_denials m) 1) (cancellations m) (backpressure_waits m) (prepare_requests m) (read_latency m) (write_latency m).
Definition cancelled_one (m : ClientQueryMetrics) : ClientQueryMetrics :=
  MkMetrics (queries_started m) (queries_completed m) (queries_failed m) (queries_failed_by_class m) (rows_returned m)
    (auth_failures m) (scope_denials m) (wrapping_add (cancellations m) 1) (backpressure_waits m) (prepare_requests m) (read_latency m) (write_latency m).
Definition waited_one (m : ClientQueryMetrics) : ClientQueryMetrics :=
  MkMetrics (queries_started m) (queries_completed m) (queries_failed m) (queries_failed_by_class m) (rows_returned m)
    (auth_failures m) (scope_denials m) (cancellations m) (wrapping_add (backpressure_waits m) 1) (prepare_requests m) (read_latency m) (write_latency m).
Definition prepares (m : ClientQueryMetrics) : ClientQueryMetrics :=
  MkMetrics (queries_started m) (queries_completed m) (queries_failed m) (queries_failed_by_class m) (rows_returned m)
    (auth_failures m) (scope_denials m) (cancellations m) (backpressure_waits m) (wrapping_add (prepare_requests m) 1) (read_latency m) (write_latency m).

Definition record_result (rows : N) (error : option GraphError) (m : ClientQueryMetrics) : ClientQueryMetrics :=
  MkMetrics (queries_started m)
    (match error with None => wrapping_add (queries_completed m) 1 | Some _ => queries_completed m end)
    (match error with None => queries_failed m | Some _ => wrapping_add (queries_failed m) 1 end)
    (match error with
     | None => queries_failed_by_class m
     | Some error => alter (λ n, wrapping_add n 1) (class_index error) (queries_failed_by_class m)
     end)
    (wrapping_add (rows_returned m) rows)
    (auth_failures m) (scope_denials m) (cancellations m) (backpressure_waits m) (prepare_requests m) (read_latency m) (write_latency m).

Definition record_execution (action : QueryTransportAction) (elapsed : N) (m : ClientQueryMetrics) : ClientQueryMetrics :=
  MkMetrics (queries_started m) (queries_completed m) (queries_failed m) (queries_failed_by_class m) (rows_returned m)
    (auth_failures m) (scope_denials m) (cancellations m) (backpressure_waits m) (prepare_requests m)
    (match action with Write => read_latency m | _ => record (read_latency m) elapsed end)
    (match action with Write => record (write_latency m) elapsed | _ => write_latency m end).

(** * Authentication and authorization *)

Definition authentication_error : GraphError := UnsupportedQuery "ClientProtocol" "unauthorized client request".
Definition client_query_cancelled : GraphError := QueryTimeout "client_query_cancelled" 0 0.
Definition client_query_runtime_exceeded (limit_ms : N) : GraphError := QueryTimeout "client_query_runtime" limit_ms limit_ms.

Definition authenticate (credentials : ClientQueryCredentials) (identity : QueryTransportConnectionIdentity) :
  T ClientQuerySession :=
  bearer_token ← match credentials with
    | NoCredentials => mret None
    | Bearer token => mret (Some token)
    | Basic principal credentials =>
        if bool_decide (names.trim principal = "") then fails authentication_error else mret (Some credentials)
    end;
  match access.authenticate sha256 (auth_policy config) bearer_token identity with
  | None => count_up auth_failed ;; fails authentication_error
  | Some principal => mret (MkSession principal)
  end.

Definition authorize_any_action (session : ClientQuerySession) (scope : GraphScope) (actions : list QueryTransportAction)
  (action_label : string) : T unit :=
  if existsb (scope_authorizer config (principal session) scope) actions
     || scope_authorizer config (principal session) scope Admin
  then mret tt
  else (
    count_up scope_denied ;;
    fails (GraphScopeAccessDenied (error_label (principal session)) action_label (GraphScope_display scope))).
Definition authorize_scope (session : ClientQuerySession) (scope : GraphScope) (action : QueryTransportAction) : T unit :=
  authorize_any_action session scope [action] (action_as_str action).
Definition authorize_query (session : ClientQuerySession) (request : ClientQueryRequest) : T QueryTransportAction :=
  query_access ← lift (classify_opencypher_query_access parsers (rq_query request));
  let action := match query_access with AccessRead => Read | AccessWrite => Write end in
  authorize_scope session (ct_scope (rq_target request)) action ;;
  mret action.

(** * Requests *)

Definition mutation_idempotency_key (request : ClientQueryRequest) : option string := key_value <$> rq_mutation_key request.

Definition validate_request (request : ClientQueryRequest) (page_size : option N) : Result unit :=
  validate_component "cell_id" (ct_cell_id (rq_target request)) ;;
  validate_component "query_id" (rq_query_id request) ;;
  match mutation_idempotency_key request with
  | Some key => validate_component "mutation_idempotency_key" key
  | None => Ok tt
  end ;;
  if bool_decide (rq_query request = "") then Err (QueryParse "OpenCypher" "query cannot be empty")
  else (
    enforce_limit "client_query_bytes" (strlen (rq_query request)) (max_query_bytes config) ;;
    enforce_limit "client_query_parameters" (N.of_nat (size (rq_parameters request))) (max_parameters config) ;;
    match page_size with
    | Some page_size =>
        if page_size =? 0 then unsupported "page size must be greater than zero"
        else enforce_limit "client_query_page_size" page_size (max_page_size config)
    | None => Ok tt
    end).

Definition normalize_runtime_limit (request : ClientQueryRequest) : Result (ClientQueryRequest * N) :=
  requested ← effective_runtime_limit_ms (max_query_runtime_ms config) (rq_max_runtime_ms request);
  Ok (with_timeout_ms requested request, requested).

Definition ensure_bookmark (bookmark : ClientBookmark) : T unit :=
  let target := bm_target bookmark in
  current ← client_call (cl_wait_for_storage_sequence (ct_scope target) (ct_cell_id target) (bm_epoch bookmark));
  current_sequence ← lift (ok_or current (UnsupportedQuery "ClientProtocol" "backend cannot prove bookmark durability"));
  if current_sequence <? bm_epoch bookmark
  then fails (SnapshotAhead (ct_cell_id target) (bm_epoch bookmark) current_sequence) else mret tt.

Definition target_text (t : ClientQueryTarget) : string := GraphScope_display (ct_scope t) +:+ " cell " +:+ ct_cell_id t.
Definition validate_bookmark (request : ClientQueryRequest) : T unit :=
  match rq_bookmark request with
  | None => mret tt
  | Some bookmark =>
      if negb (bool_decide (bm_target bookmark = rq_target request))
      then fails (GraphScopeMismatch (target_text (rq_target request)) (target_text (bm_target bookmark)))
      else ensure_bookmark bookmark
  end.

Definition refresh_strong_read (request : ClientQueryRequest) (action : QueryTransportAction) (token : N) : T unit :=
  if negb (bool_decide (rq_consistency request = Strong)) then mret tt
  else if negb (bool_decide (action = Read)) then lift (unsupported "strong consistency applies only to read queries")
  else (
    choice ← pause;
    is_cancelled ← reads (λ s, bool_decide (token ∈ sv_cancelled s));
    if is_cancelled && choice then fails client_query_cancelled
    else (
      sequence ← client_call (cl_refresh_storage_sequence (ct_scope (rq_target request)) (ct_cell_id (rq_target request)));
      _ ← lift (ok_or sequence (UnsupportedQuery "ClientProtocol" "backend cannot refresh the latest durable SlateDB frontier"));
      mret tt)).

Definition bookmark_after (request : ClientQueryRequest) (action : QueryTransportAction) (read_storage_sequence : option N) :
  T (option ClientBookmark) :=
  sequence ← (if bool_decide (action = Read) then mret read_storage_sequence
              else client_call (cl_current_storage_sequence (ct_scope (rq_target request)) (ct_cell_id (rq_target request))));
  mret ((λ sequence, MkBookmark (rq_target request) sequence) <$> sequence).

Definition result_read_epoch (result : QueryResultSet) (action : QueryTransportAction) : Result (option N) :=
  if negb (bool_decide (action = Read)) then Ok None
  else epoch ← ok_or (rs_read_epoch result)
         (CorruptValue "client/query/read_epoch" "read query result did not report its storage snapshot epoch");
       Ok (Some epoch).
Definition result_storage_sequence (result : QueryResultSet) (action : QueryTransportAction) : Result (option N) :=
  if negb (bool_decide (action = Read)) then Ok None
  else sequence ← ok_or (rs_storage_sequence result)
         (CorruptValue "client/query/storage_sequence" "read query result did not report its SlateDB snapshot sequence");
       Ok (Some sequence).

Definition query_context (session : ClientQuerySession) (request : ClientQueryRequest)
  (parameters : gmap string VertexPropertyValue) (token : N) : QueryContext :=
  let mutation_idempotency_key := match rq_mutation_key request with
    | Some (ServerGenerated value) => value
    | Some (CallerSupplied value) => principal_scoped_mutation_idempotency_key sha256 enc (principal session) value
    | None => rq_query_id request
    end in
  MkContext (ct_scope (rq_target request)) (ct_cell_id (rq_target request)) mutation_idempotency_key (rq_read_epoch request)
    parameters (rq_max_runtime_ms request) None (bool_decide (rq_consistency request = Strong)) (Some token).
(** A read names no epoch of its own and is bounded by the cursor buffer. *)
Definition read_context (c : QueryContext) : QueryContext :=
  MkContext (qx_scope c) (qx_cell_id c) (qx_idempotency_key c) None (qx_parameters c) (qx_max_runtime_ms c)
    (Some (max_cursor_buffer_bytes (cursor_limits config))) (qx_refreshed_reader c) (qx_cancellation_token c).

(** * The life of a query *)

Definition begin_query (key : ClientQueryKey) : T N :=
  pause ;;
  active ← reads sv_active;
  match active !! key with
  | Some _ => lift (unsupported ("query id " +:+ ck_query_id key +:+ " is already active"))
  | None =>
      generation ← reads sv_next_generation;
      updates (with_generation (wrapping_add generation 1)) ;;
      updates (λ s, with_active (<[key := generation]> (sv_active s)) s) ;;
      mret generation
  end.

(** A semaphore has a permit left. *)
Definition gate_limit (gate : option NamespacePath) : N :=
  match gate with None => max_concurrent_queries config | Some ns => default 0 (namespace_quotas config !! ns) end.
Definition permits_out (gate : option NamespacePath) (s : svc_t) : N :=
  N.of_nat (length (filter (λ p, pm_gate p = gate) (sv_permits s))).
Definition available (gate : option NamespacePath) (s : svc_t) : bool := permits_out gate s <? gate_limit gate.
Definition take_permit (holder : N) (gate : option NamespacePath) (s : svc_t) : svc_t :=
  with_permits (MkPermit holder gate :: sv_permits s) s.
(** [OwnedSemaphorePermit]s go back when the block that owns them ends. *)
Definition release_permits (holder : N) (s : svc_t) : svc_t :=
  with_permits (filter (λ p, pm_holder p ≠ holder) (sv_permits s)) s.

(** The [select!] of a permit and a cancellation; the fuel is the length of the
    script, every turn takes a pace. *)
Fixpoint wait_for_permit (fuel : nat) (holder : N) (gate : option NamespacePath) : T unit :=
  match fuel with
  | O => λ r, (r, Stuck)
  | S fuel =>
      choice ← pause;
      is_available ← reads (available gate);
      is_cancelled ← reads (λ s, bool_decide (holder ∈ sv_cancelled s));
      if is_cancelled && (choice || negb is_available) then fails client_query_cancelled
      else if is_available then updates (take_permit holder gate)
      else wait_for_permit fuel holder gate
  end.
Definition wait_in_line (holder : N) (gate : option NamespacePath) : T unit :=
  λ r, wait_for_permit (length (r_script r)) holder gate r.
Definition acquire (holder : N) (gate : option NamespacePath) : T unit :=
  is_available ← reads (available gate);
  if is_available : bool then updates (take_permit holder gate)
  else (
    count_up waited_one ;;
    wait_in_line holder gate).
Definition acquire_query_permit (holder : N) : T unit := acquire holder None.
Fixpoint acquire_gates (holder : N) (gates : list NamespacePath) : T unit :=
  match gates with
  | [] => mret tt
  | ns :: gates => acquire holder (Some ns) ;; acquire_gates holder gates
  end.
Definition acquire_namespace_permits (holder : N) (namespace : NamespacePath) : T unit :=
  acquire_gates holder
    (filter (λ ns, is_Some (namespace_quotas config !! ns)) (rev (ancestors_inclusive namespace))).

(** The entry of a query, if it is still this one's. *)
Definition forget (key : ClientQueryKey) (generation : N) (s : svc_t) : svc_t :=
  if bool_decide (sv_active s !! key = Some generation) then with_active (delete key (sv_active s)) s else s.

(** [ClientQueryDropGuard::drop]: the token now, the entry from a task of its own. *)
Definition drop_guard {A} (key : ClientQueryKey) (generation : N) : T A := λ r,
  let r := with_svc (cancel_token generation (r_svc r)) r in
  let others := match r_script r with p :: _ => p_others p | [] => id end in
  (with_svc (forget key generation (others (r_svc r))) r, Dropped).

Definition run_query {A} (key : ClientQueryKey) (generation : N) (execute : T A) : T A := λ r,
  let '(r, x) := (
    count_up started ;;
    acquire_namespace_permits generation (gs_namespace (ck_scope key)) ;;
    acquire_query_permit generation ;;
    execute) r in
  let released := with_svc (release_permits generation (r_svc r)) r in
  match x with
  | Stuck => (r, Stuck)
  | Dropped => drop_guard key generation released
  | _ =>
      let x := match x with
        | Panics => Failed (CorruptValue "client/query/executor" "query executor panicked") | x => x end in
      let '(r, p) := pause released in
      match p with
      | Returned _ =>
          let is_cancelled := bool_decide (sv_active (r_svc r) !! key = Some generation)
                              && bool_decide (generation ∈ sv_cancelled (r_svc r)) in
          let r := with_svc (forget key generation (r_svc r)) r in
          (r, if is_cancelled then Failed client_query_cancelled else x)
      | _ => drop_guard key generation r
      end
  end.

(** The timer is armed for the query alone. *)
Definition run_query_with_timeout {A} (key : ClientQueryKey) (generation runtime_limit_ms : N) (execute : T A) : T A := λ r,
  let '(r, x) := run_query key generation execute
                   (MkRun (r_svc r) (r_script r) (r_ticks r) (Some generation) false) in
  let timed_out := r_timed_out r in
  let r := MkRun (r_svc r) (r_script r) (r_ticks r) None false in
  match x with
  | Dropped | Stuck => (r, x)
  | _ => (r, if timed_out then Failed (client_query_runtime_exceeded runtime_limit_ms) else x)
  end.

(** * Operations *)

(** The parsed part of a prepared query. *)
Definition Plan : Type := gmap string VertexPropertyValue * option QueryBatchOperation.

Definition parsed_parameters (request : ClientQueryRequest) : Result Plan :=
  parsed_unwind ← parse_opencypher_unwind_batch parsers (rq_query request);
  match parsed_unwind with
  | Some parsed => operation ← resolve_unwind_batch parsed (rq_parameters request); Ok (∅, Some operation)
  | None => scalars ← scalar_query_parameters (rq_parameters request); Ok (scalars, None)
  end.
Definition check_batch (action : QueryTransportAction) (operation : option QueryBatchOperation) : Result unit :=
  match operation with
  | None => Ok tt
  | Some operation =>
      if negb (Bool.eqb (is_write operation) (bool_decide (action = Write)))
      then Err (CorruptValue "client/query/unwind_access" "UNWIND batch access classification does not match its operation")
      else enforce_limit "client_query_batch_items" (N.of_nat (len operation)) (max_parameters config)
  end.
Definition query_columns (action : QueryTransportAction) (request : ClientQueryRequest)
  (scalar_parameters : gmap string VertexPropertyValue) (operation : option QueryBatchOperation) : Result (list QueryColumn) :=
  match operation with
  | Some operation => Ok (batch_operation_columns operation)
  | None =>
      match action with
      | Write =>
          mutation ← parse_opencypher_mutation_query parsers (rq_query request) scalar_parameters;
          if negb mutation then unsupported "write query is not executable by the mutation engine" else Ok []
      | _ =>
          path ← parse_native_path_procedure_columns parsers (rq_query request);
          match path with
          | Some columns => Ok columns
          | None => parse_opencypher_row_query parsers (rq_query request) scalar_parameters
          end
      end
  end.

Definition prepare_page_request (session : ClientQuerySession) (request : ClientQueryRequest) (page_size : N) :
  T (PreparedClientQuery Plan) :=
  count_up prepares ;;
  lift (validate_request request (Some page_size)) ;;
  '(request, _) ← lift (normalize_runtime_limit request);
  action ← authorize_query session request;
  validate_bookmark request ;;
  '(scalar_parameters, batch_operation) ← lift (parsed_parameters request);
  columns ← lift (query_columns action request scalar_parameters batch_operation);
  lift (check_batch action batch_operation) ;;
  mret (MkPrepared request action columns (scalar_parameters, batch_operation)).

Definition run_rows (context : QueryContext) (query : string) (operation : option QueryBatchOperation) : T QueryResultSet :=
  match operation with
  | Some operation => client_call (cl_execute_batch context operation)
  | None => client_call (cl_execute_cypher_rows context query)
  end.

Definition cursor_call {A} (f : N → N → Cursors → Cursors * Result A) : T A :=
  pause ;;
  t ← now;
  t' ← now;
  result ← calls (λ s, let '(c, x) := f t t' (sv_cursors s) in (with_cursors c s, x));
  lift result.

(** The body of [execute_prepared_page_inner] that runs as the query. *)
Definition page_body (session : ClientQuerySession) (prepared : PreparedClientQuery Plan)
  (cursor : option QueryCursorToken) (page_size token : N) : T ClientQueryPage :=
  let request := pq_request prepared in
  let '(scalar_parameters, batch_operation) := pq_plan prepared in
  match cursor with
  | Some cursor => cursor_call (continue_server_cursor sz (cursor_limits config) session request cursor page_size)
  | None =>
      let context := query_context session request scalar_parameters token in
      if bool_decide (pq_action prepared = Read)
      then (
        refresh_strong_read request (pq_action prepared) token ;;
        result ← run_rows (read_context context) (rq_query request) batch_operation;
        read_epoch ← lift (result_read_epoch result (pq_action prepared));
        storage_sequence ← lift (result_storage_sequence result (pq_action prepared));
        bookmark ← bookmark_after request (pq_action prepared) storage_sequence;
        cursor_call (start_server_cursor sz (cursor_limits config) session request result read_epoch bookmark page_size))
      else (
        page ← match batch_operation with
          | Some operation => client_call (cl_execute_batch_page context operation None page_size)
          | None => client_call (cl_execute_cypher_rows_page context (rq_query request) None page_size)
          end;
        bookmark ← bookmark_after request (pq_action prepared) None;
        mret (MkClientPage (rq_query_id request) page (rq_read_epoch request) bookmark))
  end.

(** The metrics of a finished task, for those that are not dropped. *)
Definition recorded {A} (rows : A → N) (m : T A) : T A := λ r,
  let '(r, x) := m r in
  match x with
  | Returned a => (with_svc (with_metrics (record_result (rows a) None) (r_svc r)) r, x)
  | Failed e => (with_svc (with_metrics (record_result 0 (Some e)) (r_svc r)) r, x)
  | _ => (r, x)
  end.
Definition timed {A} (action : QueryTransportAction) (started_at : N) (m : T A) : T A := λ r,
  let '(r, x) := m r in
  match x with
  | Returned _ | Failed _ =>
      let '(r, t) := now r in
      let elapsed := match t with Returned t => saturating_sub t started_at | _ => 0 end in
      (with_svc (with_metrics (record_execution action elapsed) (r_svc r)) r, x)
  | _ => (r, x)
  end.
Definition page_rows (p : ClientQueryPage) : N := N.of_nat (length (pg_rows (cp_page p))).

Definition execute_prepared_page (session : ClientQuerySession) (prepared : PreparedClientQuery Plan)
  (cursor : option QueryCursorToken) (page_size : N) : T ClientQueryPage :=
  execution_started ← now;
  let request := pq_request prepared in
  let action := pq_action prepared in
  authorize_scope session (ct_scope (rq_target request)) action ;;
  if bool_decide (action = Write) && bool_decide (is_Some cursor)
  then lift (unsupported "mutation queries cannot continue from a result cursor")
  else
    match rq_max_runtime_ms request with
    | None => panics
    | Some runtime_limit_ms =>
        let key := client_query_key session request in
        generation ← begin_query key;
        timed action execution_started (recorded page_rows (
          run_query_with_timeout key generation runtime_limit_ms (page_body session prepared cursor page_size generation)))
    end.

Definition historical {A} : T A :=
  lift (unsupported "historical graph epochs are not client query snapshots; use a bookmark for causal reads").
Definition execute_page (session : ClientQuerySession) (request : ClientQueryRequest)
  (cursor : option QueryCursorToken) (page_size : N) : T ClientQueryPage :=
  if bool_decide (cursor = None) && bool_decide (is_Some (rq_read_epoch request)) then historical
  else (
    prepared ← prepare_page_request session request page_size;
    execute_prepared_page session prepared cursor page_size).

Record ClientQueryResult := MkClientResult {
  cr_query_id : string; cr_result : QueryResultSet; cr_read_epoch : option N; cr_bookmark : option ClientBookmark }.

Definition rows_body (session : ClientQuerySession) (request : ClientQueryRequest) (action : QueryTransportAction)
  (plan : Plan) (token : N) : T ClientQueryResult :=
  let '(scalar_parameters, batch_operation) := plan in
  validate_bookmark request ;;
  refresh_strong_read request action token ;;
  let context := query_context session request scalar_parameters token in
  let context := if bool_decide (action = Read) then read_context context else context in
  result ← run_rows context (rq_query request) batch_operation;
  read_epoch ← lift (result_read_epoch result action);
  storage_sequence ← lift (result_storage_sequence result action);
  bookmark ← bookmark_after request action storage_sequence;
  mret (MkClientResult (rq_query_id request) result read_epoch bookmark).

Definition execute_rows (session : ClientQuerySession) (request : ClientQueryRequest) : T ClientQueryResult :=
  if bool_decide (is_Some (rq_read_epoch request)) then historical
  else (
    lift (validate_request request None) ;;
    '(request, runtime_limit_ms) ← lift (normalize_runtime_limit request);
    action ← authorize_query session request;
    plan ← lift (parsed_parameters request);
    lift (check_batch action plan.2) ;;
    let key := client_query_key session request in
    generation ← begin_query key;
    recorded (λ x, N.of_nat (length (rs_rows (cr_result x)))) (
      run_query_with_timeout key generation runtime_limit_ms (rows_body session request action plan generation))).

Definition cancel (session : ClientQuerySession) (scope : GraphScope) (query_id : string) : T unit :=
  lift (validate_component "query_id" query_id) ;;
  authorize_scope session scope Cancel ;;
  pause ;;
  active ← reads sv_active;
  match active !! MkKey (principal session) scope query_id with
  | None => lift (unsupported ("no active query with id " +:+ query_id +:+ " was cancelled"))
  | Some generation => updates (cancel_token generation) ;; count_up cancelled_one
  end.

Definition release_cursor (session : ClientQuerySession) (request : ClientQueryRequest) (token : QueryCursorToken) : T bool :=
  cursor_call (λ t _ s, let '(s, released) := release_server_cursor session request token t s in (s, Ok released)).
End service.
End service.
