(* ===== verification/ClientServiceFacts.v ===== *)
(** The query service ([ClientService]): a query leaves nothing behind however it
    ends, nobody acts where nobody let them, and the counters add up. *)

From S2P Require Import Prelude Text Errors Model Namespace Lease Histogram QueryData Client CursorFacts ClientNames BoltWire BoltValues BoltRequest BoltRouting BoltSession QueryAccess QueryBatch ClientService.

Local Open Scope N_scope.

Import histogram client values request session access batch service.

(** * Reasoning about tasks *)

Section tasks.
Context {Cl : Type} `{QueryCellClient Cl}.
Abbreviation svc_t := (Service Cl).
Abbreviation T := (Task Cl).
Implicit Types (r : Run Cl) (s : svc_t).

(** A property of the service that holds, that others keep, and that the task's own
    timer keeps; [E] is what else is known of the others. *)
Definition good_with (E : Pace Cl → Prop) (R : svc_t → Prop) r : Prop :=
  R (r_svc r) ∧ Forall (λ p, (∀ s, R s → R (p_others p s)) ∧ E p) (r_script r) ∧
  ∀ t s, r_timed r = Some t → R s → R (cancel_token t s).

(** The steps of a task keep it. *)
Definition keeps_with (E : Pace Cl → Prop) (R : svc_t → Prop) {A} (m : T A) : Prop :=
  ∀ r, good_with E R r → good_with E R (m r).1.

(** What a task may return. *)
Definition returns {A} (m : T A) (P : A → Prop) : Prop := ∀ r, match (m r).2 with Returned a => P a | _ => True end.

Section keeps.
Context (E : Pace Cl → Prop) (R : svc_t → Prop).
Abbreviation good := (good_with E).
Abbreviation keeps := (keeps_with E).

Lemma good_svc r s : good R r → R s → good R (with_svc s r).
Proof. intros (_ & ? & ?) ?. by split. Qed.

Lemma keeps_ret {A} (a : A) : keeps R (mret a).
Proof. by intros r. Qed.
Lemma keeps_bind {A B} (m : T A) (f : A → T B) : keeps R m → (∀ a, keeps R (f a)) → keeps R (m ≫= f).
Proof.
  intros Hm Hf r Hr. specialize (Hm r Hr). unfold mbind, task_bind. destruct (m r) as [r' []]; try done. by apply Hf.
Qed.
Lemma keeps_reads {A} (f : svc_t → A) : keeps R (reads f).
Proof. by intros r. Qed.
Lemma keeps_updates (f : svc_t → svc_t) : (∀ s, R s → R (f s)) → keeps R (updates f).
Proof. intros Hf r Hr. apply good_svc; [done|]. apply Hf, Hr. Qed.
Lemma keeps_fails {A} e : keeps R (fails e : T A).
Proof. by intros r. Qed.
Lemma keeps_panics {A} : keeps R (panics : T A).
Proof. by intros r. Qed.
Lemma keeps_lift {A} (x : Result A) : keeps R (lift x).
Proof. by destruct x; intros r. Qed.
Lemma keeps_now clock : keeps R (now clock).
Proof. by intros r (? & ? & ?). Qed.
Lemma keeps_calls {A} (f : svc_t → svc_t * A) : (∀ s, R s → R (f s).1) → keeps R (calls f).
Proof. intros Hf r Hr. unfold calls. specialize (Hf _ (proj1 Hr)). destruct (f (r_svc r)). by apply good_svc. Qed.
Lemma keeps_pause : keeps R pause.
Proof.
  intros r Hg. pose proof Hg as (Hr & Hs & Ht). unfold pause. destruct (r_script r) as [|p script]; [exact Hg|].
  apply Forall_cons in Hs as [[Hp _] Hs]. specialize (Hp _ Hr).
  destruct (p_drop p); [by split|]. destruct (p_timer p); [|by split].
  destruct (r_timed r) as [token|]; [|by split]. split; [by apply Ht|]. by split.
Qed.
Lemma keeps_if {A} (b : bool) (m n : T A) : keeps R m → keeps R n → keeps R (if b then m else n).
Proof. by destruct b. Qed.
Lemma keeps_count f : (∀ s, R s → R (with_metrics f s)) → keeps R (count_up f).
Proof. apply keeps_updates. Qed.

Context (Hclient : ∀ c s, R s → R (with_client c s)).
Lemma keeps_client_call {A} (f : Cl → Cl * option (Result A)) : keeps R (client_call f).
Proof.
  apply keeps_bind; [apply keeps_pause|]. intros _ r Hr. unfold on_client. destruct (f _) as [c x].
  apply good_svc; [done|]. apply Hclient, Hr.
Qed.
Context (Hcursors : ∀ c s, R s → R (with_cursors c s)).
Lemma keeps_cursor_call {A} clock (f : N → N → Cursors → Cursors * Result A) : keeps R (cursor_call clock f).
Proof.
  apply keeps_bind; [apply keeps_pause|]. intros _. apply keeps_bind; [apply keeps_now|]. intros t.
  apply keeps_bind; [apply keeps_now|]. intros t'. apply keeps_bind; [|intros; apply keeps_lift].
  apply keeps_calls. intros s Hs. destruct (f t t' (sv_cursors s)). by apply Hcursors.
Qed.
End keeps.

Lemma returns_bind {A B} (m : T A) (f : A → T B) P : (∀ a, returns (f a) P) → returns (m ≫= f) P.
Proof. intros Hf r. unfold mbind, task_bind. destruct (m r) as [r' []]; try done. apply Hf. Qed.
Lemma returns_bind_of {A B} (m : T A) (f : A → T B) P Q : returns m P → (∀ a, P a → returns (f a) Q) → returns (m ≫= f) Q.
Proof. intros Hm Hf r. specialize (Hm r). unfold mbind, task_bind. destruct (m r) as [r' []]; try done. by apply Hf. Qed.
Lemma returns_ret {A} (a : A) (P : A → Prop) : P a → returns (mret a : T A) P.
Proof. by intros ? r. Qed.
Lemma returns_fails {A} e (P : A → Prop) : returns (fails e : T A) P.
Proof. by intros r. Qed.
Lemma returns_panics {A} (P : A → Prop) : returns (panics : T A) P.
Proof. by intros r. Qed.
Lemma returns_lift {A} (x : Result A) (P : A → Prop) : (∀ a, x = Ok a → P a) → returns (lift x : T A) P.
Proof. intros Hx r. destruct x; cbn; auto. Qed.
End tasks.

#[export] Hint Resolve keeps_ret keeps_reads keeps_fails keeps_panics keeps_lift keeps_now keeps_pause : hydra.

(** One step of a task. *)
Ltac task_step :=
  lazymatch goal with
  | |- keeps_with _ _ (_ ≫= _) => apply keeps_bind; [|intros]
  | |- keeps_with _ _ (if _ then _ else _) => apply keeps_if
  | |- keeps_with _ _ (match ?x with _ => _ end) => destruct x
  | |- keeps_with _ _ _ => solve [auto with hydra]
  | |- returns (_ ≫= _) _ => apply returns_bind; intros
  | |- returns (if ?b then _ else _) _ => destruct b
  | |- returns (match ?x with _ => _ end) _ => destruct x
  | |- returns (fails _) _ => apply returns_fails
  | |- returns panics _ => apply returns_panics
  end.

(** * Authorization *)

Section access.
Context {Cl : Type} `{QueryCellClient Cl}.
Context (sha256 enc : string → string) (sz : Sizes) (clock : nat → N).
Context (config : ClientQueryServiceConfig) (parsers : Parsers).
Abbreviation svc_t := (Service Cl).
Abbreviation T := (Task Cl).
Abbreviation good := (good_with (λ _, True)).
Abbreviation keeps := (keeps_with (λ _, True)).
Implicit Types (r : Run Cl) (s : svc_t).

(** A task that never returns, and does nothing but what keeps [R]. *)
Definition refused (R : svc_t → Prop) {A} (m : T A) : Prop := keeps R m ∧ returns m (λ _, False).

Lemma refused_bind R {A B} (m : T A) (f : A → T B) : refused R m → refused R (m ≫= f).
Proof.
  intros [Hk Hr]. split.
  - intros r Hg. specialize (Hk r Hg). specialize (Hr r). unfold mbind, task_bind. by destruct (m r) as [r' []].
  - apply (returns_bind_of _ _ _ _ Hr). done.
Qed.
Lemma refused_after R {A B} (m : T A) (f : A → T B) : keeps R m → (∀ a, refused R (f a)) → refused R (m ≫= f).
Proof. intros Hk Hf. split; [apply keeps_bind; [done|intros; apply Hf]|apply returns_bind; intros; apply Hf]. Qed.
Lemma refused_after_lift R {A B} (x : Result A) (f : A → T B) :
  (∀ a, x = Ok a → refused R (f a)) → refused R (lift x ≫= f).
Proof.
  intros Hf. destruct x as [a|e].
  - split; intros r; [apply (Hf a eq_refl)|apply (Hf a eq_refl)].
  - apply refused_bind. split; [apply keeps_fails|apply returns_fails].
Qed.

Definition access_action (a : OpenCypherQueryAccess) : QueryTransportAction :=
  match a with AccessRead => Read | AccessWrite => Write end.
(** The authorizer lets the principal neither act nor administer. *)
Definition denied (session : ClientQuerySession) (scope : GraphScope) (action : QueryTransportAction) : Prop :=
  scope_authorizer config (principal session) scope action = false ∧
  scope_authorizer config (principal session) scope Admin = false.
(** A request whose query, if it parses, needs an action that is denied. *)
Definition forbidden (session : ClientQuerySession) (request : ClientQueryRequest) : Prop :=
  ∀ a, classify_opencypher_query_access parsers (rq_query request) = Ok a →
       denied session (ct_scope (rq_target request)) (access_action a).

Context (R : svc_t → Prop) (Hmetrics : ∀ f s, R s → R (with_metrics f s)).

Lemma authorize_scope_refused session scope action :
  denied session scope action → refused R (authorize_scope config session scope action : T unit).
Proof.
  intros [H1 H2]. unfold authorize_scope, authorize_any_action. cbn [existsb]. rewrite H1, H2. cbn [orb].
  split; [apply keeps_bind; [apply keeps_count; auto|intros; apply keeps_fails]|].
  apply returns_bind. intros. apply returns_fails.
Qed.
Lemma authorize_query_refused session request :
  forbidden session request → refused R (authorize_query config parsers session request : T _).
Proof.
  intros Hf. unfold authorize_query. apply refused_after_lift. intros a Ha. apply refused_bind.
  apply authorize_scope_refused. exact (Hf a Ha).
Qed.
Lemma normalized_target request request' n :
  normalize_runtime_limit config request = Ok (request', n) →
  rq_query request' = rq_query request ∧ rq_target request' = rq_target request ∧ rq_max_runtime_ms request' = Some n.
Proof. unfold normalize_runtime_limit. destruct (effective_runtime_limit_ms _ _); [|done]. by intros [= <- <-]. Qed.
Lemma historical_refused {A} : refused R (historical : T A).
Proof. split; [apply keeps_lift|]. by apply returns_lift. Qed.

Lemma prepare_refused session request n :
  forbidden session request → refused R (prepare_page_request config parsers session request n : T _).
Proof.
  intros Hf. unfold prepare_page_request. apply refused_after; [apply keeps_count; auto|intros _].
  apply refused_after; [apply keeps_lift|intros _]. apply refused_after_lift. intros [request' limit] Hn.
  apply normalized_target in Hn as (Hq & Ht & _). apply refused_bind, authorize_query_refused.
  intros a. rewrite Hq, Ht. apply Hf.
Qed.

(** C25: a client whose principal may not do what its query does (nor administer the
    graph) does nothing at all: whatever the paging, the timer and the others, the
    request fails and every property of the service that others keep still holds;
    nothing but counters changes.  The same for cancelling, and for every page of a
    query prepared while it still could. *)
Theorem denied_touches_nothing session r :
  good R r →
  (∀ request cursor n, forbidden session request →
     let '(r', x) := execute_page sha256 enc sz clock config parsers session request cursor n r in
     good R r' ∧ ∀ page, x ≠ Returned page) ∧
  (∀ request, forbidden session request →
     let '(r', x) := execute_rows sha256 enc config parsers session request r in
     good R r' ∧ ∀ result, x ≠ Returned result) ∧
  (∀ prepared cursor n, denied session (ct_scope (rq_target (pq_request prepared))) (pq_action prepared) →
     let '(r', x) := execute_prepared_page sha256 enc sz clock config session prepared cursor n r in
     good R r' ∧ ∀ page, x ≠ Returned page) ∧
  (∀ scope query_id, denied session scope Cancel →
     let '(r', x) := cancel config session scope query_id r in good R r' ∧ x ≠ Returned tt).
Proof.
  intros Hr.
  assert (∀ A (m : T A), refused R m → let '(r', x) := m r in good R r' ∧ ∀ a, x ≠ Returned a) as Hdone.
  { intros A m [Hk Hn]. specialize (Hk r Hr). specialize (Hn r). destruct (m r) as [r' x]. split; [done|]. intros a ->. done. }
  split_and!.
  - intros request cursor n Hf. apply Hdone. unfold execute_page. destruct (_ && _); [apply historical_refused|].
    by apply refused_bind, prepare_refused.
  - intros request Hf. apply Hdone. unfold execute_rows. destruct (bool_decide _); [apply historical_refused|].
    apply refused_after; [apply keeps_lift|intros _]. apply refused_after_lift. intros [request' limit] Hn.
    apply normalized_target in Hn as (Hq & Ht & _). apply refused_bind, authorize_query_refused.
    intros a. rewrite Hq, Ht. apply Hf.
  - intros prepared cursor n Hd. apply Hdone. unfold execute_prepared_page.
    apply refused_after; [apply keeps_now|intros t]. by apply refused_bind, authorize_scope_refused.
  - intros scope query_id Hd. specialize (Hdone unit (cancel config session scope query_id)).
    destruct (cancel config session scope query_id r) as [r' x]. destruct Hdone as [? Hx]; [|by split].
    apply refused_after; [apply keeps_lift|intros _]. by apply refused_bind, authorize_scope_refused.
Qed.
End access.

(** * The life of a query *)

Section life.
Context {Cl : Type} `{QueryCellClient Cl}.
Context (sha256 enc : string → string) (sz : Sizes) (clock : nat → N).
Context (config : ClientQueryServiceConfig).
Abbreviation svc_t := (Service Cl).
Abbreviation T := (Task Cl).
Implicit Types (r : Run Cl) (s : svc_t).

(** Failures by class add up to the failures, modulo the width of the counters. *)
Definition metrics_ok (m : ClientQueryMetrics) : Prop :=
  length (queries_failed_by_class m) = CLASS_COUNT ∧
  nsum (queries_failed_by_class m) mod u64_size = queries_failed m mod u64_size.

Record svc_ok s : Prop := {
  ok_gates : ∀ gate, permits_out gate s ≤ gate_limit config gate;
  ok_holders : ∀ p, p ∈ sv_permits s → pm_holder p < sv_next_generation s;
  ok_active : ∀ k g, sv_active s !! k = Some g → g < sv_next_generation s;
  ok_one : ∀ k k' g, sv_active s !! k = Some g → sv_active s !! k' = Some g → k = k';
  ok_next : sv_next_generation s ≤ u64_max;
  ok_metrics : metrics_ok (sv_metrics s) }.

(** A query that is under way: its entry is its own. *)
Definition under_way (key : ClientQueryKey) (gen : N) s : Prop := svc_ok s ∧ sv_active s !! key = Some gen.
(** It has no permits. *)
Definition bare (gen : N) s : Prop := ∀ p, p ∈ sv_permits s → pm_holder p ≠ gen.

(** ** Metrics *)

Lemma alter_sum (i : nat) (l : list N) :
  (i < length l)%nat → nsum (alter (λ n, wrapping_add n 1) i l) mod u64_size = (nsum l + 1) mod u64_size.
Proof.
  revert i; induction l as [|n l IH]; intros i Hi; cbn in Hi; [lia|].
  destruct i as [|i]; cbn.
  - unfold wrapping_add. rewrite N.Div0.add_mod_idemp_l. f_equal. lia.
  - rewrite <- N.Div0.add_mod_idemp_r, IH by lia. rewrite N.Div0.add_mod_idemp_r. f_equal. lia.
Qed.
Lemma record_result_ok rows e m : metrics_ok m → metrics_ok (record_result rows e m).
Proof.
  intros [Hl Hs]. destruct e as [e|]; [|by split]. split; cbn.
  - by rewrite length_alter.
  - rewrite alter_sum by (rewrite Hl; apply class_index_lt). unfold wrapping_add.
    rewrite N.Div0.mod_mod, <- N.Div0.add_mod_idemp_l, Hs, N.Div0.add_mod_idemp_l. done.
Qed.
Lemma metrics_svc_ok f s : (metrics_ok (sv_metrics s) → metrics_ok (f (sv_metrics s))) → svc_ok s → svc_ok (with_metrics f s).
Proof. intros Hf []. split; auto. Qed.

(** ** Steps *)

Lemma filter_twice_le {A} (P Q : A → Prop) `{∀ x, Decision (P x), ∀ x, Decision (Q x)} (l : list A) :
  (length (filter P (filter Q l)) ≤ length (filter P l))%nat.
Proof.
  induction l as [|x l IH]; [done|]. rewrite (filter_cons Q), (filter_cons P).
  case (decide (Q x)); intros HQ; [rewrite (filter_cons P)|]; case (decide (P x)); intros HP; cbn [length]; lia.
Qed.
Lemma release_permits_ok gen s : svc_ok s → svc_ok (release_permits gen s) ∧ bare gen (release_permits gen s).
Proof.
  intros []. split.
  - split; cbn; auto.
    + intros gate. etrans; [|apply ok_gates0]. unfold permits_out. cbn.
      pose proof (filter_twice_le (λ p, pm_gate p = gate) (λ p, pm_holder p ≠ gen) (sv_permits s)). lia.
    + intros p Hp. apply list_elem_of_filter in Hp as [_ Hp]. auto.
  - intros p Hp. cbn in Hp. by apply list_elem_of_filter in Hp as [? _].
Qed.
Lemma take_permit_ok gen gate s :
  available config gate s = true → gen < sv_next_generation s → svc_ok s → svc_ok (take_permit gen gate s).
Proof.
  unfold available. intros Ha%N.ltb_lt Hg []. split; cbn; auto.
  - intros g. unfold permits_out.
    change (sv_permits (take_permit gen gate s)) with (MkPermit gen gate :: sv_permits s). rewrite filter_cons.
    case (decide (pm_gate (MkPermit gen gate) = g)); cbn [pm_gate]; [intros <-|intros _; apply ok_gates0].
    cbn [length]. unfold permits_out in Ha. lia.
  - intros p Hp. apply elem_of_cons in Hp as [->|Hp]; [done|auto].
Qed.
Lemma forget_ok key gen s : svc_ok s → svc_ok (forget key gen s) ∧ sv_active (forget key gen s) !! key ≠ Some gen.
Proof.
  intros Hok. pose proof Hok as []. unfold forget. case_bool_decide as E; [|done]. split.
  - split; cbn; auto.
    + intros k g Hk. apply lookup_delete_Some in Hk as [_ Hk]. eauto.
    + intros k k' g Hk Hk'. apply lookup_delete_Some in Hk as [_ Hk]. apply lookup_delete_Some in Hk' as [_ Hk']. eauto.
  - cbn. by rewrite lookup_delete_eq.
Qed.
Lemma cancel_ok t s : svc_ok s → svc_ok (cancel_token t s).
Proof. intros []. by split. Qed.

(** A query begun is under way, and has nothing yet. *)
Lemma begin_query_ok key r0 r1 gen :
  good_with (λ _, True) (λ s, svc_ok s ∧ sv_next_generation s < u64_max) r0 → begin_query key r0 = (r1, Returned gen) →
  under_way key gen (r_svc r1) ∧ bare gen (r_svc r1).
Proof.
  intros Hg. unfold begin_query. pose proof (keeps_pause _ _ _ Hg) as Hp.
  unfold mbind, task_bind. destruct (pause r0) as [r [b| | | |]]; try done. cbn. cbn in Hp.
  destruct Hp as [[Hok Hroom] _]. destruct (sv_active (r_svc r) !! key) as [g|] eqn:Ek; [done|]. cbn. intros [= <- <-].
  pose proof Hok as []. split; [split|].
  - assert (wrapping_add (sv_next_generation (r_svc r)) 1 = sv_next_generation (r_svc r) + 1) as Hn
      by (apply wrapping_add_small; unfold u64_ok; lia).
    split; cbn; rewrite ?Hn; auto; try lia.
    + intros p Hin. specialize (ok_holders0 p Hin). lia.
    + intros k g Hk. destruct (decide (k = key)) as [->|Hne].
      * rewrite lookup_insert_eq in Hk. injection Hk as <-. lia.
      * rewrite lookup_insert_ne in Hk by done. specialize (ok_active0 _ _ Hk). lia.
    + intros k k' g Hk Hk'. destruct (decide (k = key)) as [->|Hne], (decide (k' = key)) as [->|Hne'];
        rewrite ?lookup_insert_eq in Hk; rewrite ?lookup_insert_eq in Hk';
        rewrite ?lookup_insert_ne in Hk by done; rewrite ?lookup_insert_ne in Hk' by done; try done; eauto.
      * injection Hk as <-. specialize (ok_active0 _ _ Hk'). lia.
      * injection Hk' as <-. specialize (ok_active0 _ _ Hk). lia.
  - cbn. by rewrite lookup_insert_eq.
  - intros p Hin. cbn in Hin. specialize (ok_holders0 p Hin). lia.
Qed.

(** ** The query's own steps *)

Section own.
Context (key : ClientQueryKey) (gen : N).
Abbreviation R := (under_way key gen).
(** Others leave a query without permits without permits. *)
Definition spares (p : Pace Cl) : Prop := ∀ s, R s → bare gen s → bare gen (p_others p s).
Abbreviation good := (good_with spares).
Abbreviation keeps := (keeps_with spares).

Lemma under_way_metrics f : (∀ m, metrics_ok m → metrics_ok (f m)) → ∀ s, R s → R (with_metrics f s).
Proof. intros Hf s [Hok Hk]. split; [|done]. apply metrics_svc_ok; auto. Qed.
Lemma under_way_client c s : R s → R (with_client c s).
Proof. intros [[] Hk]. by split. Qed.
Lemma under_way_cursors c s : R s → R (with_cursors c s).
Proof. intros [[] Hk]. by split. Qed.
Lemma under_way_take gate s : available config gate s = true → R s → R (take_permit gen gate s).
Proof. intros Ha [Hok Hk]. split; [|done]. apply take_permit_ok; [done| |done]. by eapply ok_active. Qed.

Lemma good_take gate r : available config gate (r_svc r) = true → good R r → good R (with_svc (take_permit gen gate (r_svc r)) r).
Proof. intros Ha Hr. apply good_svc; [done|]. apply under_way_take; [done|apply Hr]. Qed.

Lemma keeps_wait fuel gate : keeps R (wait_for_permit config fuel gen gate).
Proof.
  induction fuel as [|fuel IH]; cbn [wait_for_permit]; [by intros r|].
  apply keeps_bind; [apply keeps_pause|]. intros choice r Hr. unfold mbind, task_bind, reads. cbn [fst].
  destruct (bool_decide (gen ∈ sv_cancelled (r_svc r))), (available config gate (r_svc r)) eqn:Ea, choice;
    cbn [andb orb negb]; try exact Hr; try (by apply good_take); by apply IH.
Qed.
Lemma keeps_acquire gate : keeps R (acquire config gen gate).
Proof.
  intros r Hr. unfold acquire, mbind, task_bind, reads. destruct (available config gate (r_svc r)) eqn:Ea; [by apply good_take|].
  unfold count_up, updates. apply keeps_wait. apply good_svc; [done|]. apply under_way_metrics; [done|apply Hr].
Qed.
Lemma keeps_acquire_gates gates : keeps R (acquire_gates config gen gates).
Proof.
  induction gates as [|ns gates IH]; cbn [acquire_gates]; [apply keeps_ret|].
  apply keeps_bind; [apply keeps_acquire|]. by intros _.
Qed.

Lemma keeps_query_body {A} (execute : T A) :
  keeps R execute →
  keeps R (count_up started ;; acquire_namespace_permits config gen (gs_namespace (ck_scope key)) ;;
           acquire_query_permit config gen ;; execute).
Proof.
  intros He. apply keeps_bind; [apply keeps_count, under_way_metrics; done|]. intros _.
  apply keeps_bind; [apply keeps_acquire_gates|]. intros _. apply keeps_bind; [apply keeps_acquire|]. done.
Qed.

#[local] Hint Resolve under_way_client under_way_cursors : hydra.
Lemma keeps_call {A} (f : Cl → Cl * option (Result A)) : keeps R (client_call f).
Proof. apply keeps_client_call. intros c s. apply under_way_client. Qed.
Lemma keeps_cursors {A} (f : N → N → Cursors → Cursors * Result A) : keeps R (cursor_call clock f).
Proof. apply keeps_cursor_call. intros c s. apply under_way_cursors. Qed.
#[local] Hint Resolve keeps_call keeps_cursors : hydra.

Lemma keeps_refresh request action : keeps R (refresh_strong_read request action gen).
Proof. unfold refresh_strong_read. by repeat task_step. Qed.
Lemma keeps_bookmark_after request action sequence : keeps R (bookmark_after request action sequence).
Proof. unfold bookmark_after. by repeat task_step. Qed.
#[local] Hint Resolve keeps_refresh keeps_bookmark_after : hydra.
Lemma keeps_run_rows context query operation : keeps R (run_rows context query operation).
Proof. unfold run_rows. by repeat task_step. Qed.
Lemma keeps_validate_bookmark request : keeps R (validate_bookmark request).
Proof. unfold validate_bookmark, ensure_bookmark. by repeat task_step. Qed.
#[local] Hint Resolve keeps_run_rows keeps_validate_bookmark : hydra.

Lemma keeps_page_body session prepared cursor n :
  keeps R (page_body sha256 enc sz clock config session prepared cursor n gen).
Proof. unfold page_body. by repeat task_step. Qed.
Lemma keeps_rows_body session request action plan :
  keeps R (rows_body sha256 enc config session request action plan gen).
Proof. unfold rows_body. destruct plan. by repeat task_step. Qed.

(** ** How it ends *)

(** What is left of a query. *)
Definition settled s : Prop := svc_ok s ∧ sv_active s !! key ≠ Some gen ∧ bare gen s.

Lemma forget_settled s : R s → bare gen s → settled (forget key gen s).
Proof.
  intros [Hok Hk] Hb. destruct (forget_ok key gen s Hok). split; [done|]. split; [done|].
  unfold forget. by case_bool_decide.
Qed.
Lemma cancel_under_way t s : R s → R (cancel_token t s).
Proof. intros [Hok Hk]. split; [by apply cancel_ok|done]. Qed.

Lemma drop_guard_settled {A} r : good (λ s, R s ∧ bare gen s) r →
  let '(r', x) := (drop_guard key gen : T A) r in settled (r_svc r') ∧ x = Dropped.
Proof.
  intros ([Hr Hb] & Hs & _). unfold drop_guard. cbn. split; [|done].
  destruct (r_script r) as [|p script]; [by apply forget_settled; [apply cancel_under_way|]|].
  apply Forall_cons in Hs as [[Hp _] _]. destruct (Hp (cancel_token gen (r_svc r))) as [? ?]; [split; [by apply cancel_under_way|done]|].
  by apply forget_settled.
Qed.

Lemma released_good r : good R r → good (λ s, R s ∧ bare gen s) (with_svc (release_permits gen (r_svc r)) r).
Proof.
  intros ([Hok Hk] & Hs & Ht). destruct (release_permits_ok gen _ Hok) as [Hok' Hb].
  split; [done|]. split.
  - eapply Forall_impl; [exact Hs|]. intros p [Hp Hspare]. split; [|done]. intros s [HR Hbs]. split; [by apply Hp|by apply Hspare].
  - intros t s _ [HR Hbs]. split; [by apply cancel_under_way|done].
Qed.

Lemma run_query_settled {A} (execute : T A) r :
  keeps R execute → good R r →
  let '(r', x) := run_query config key gen execute r in
  x = Stuck ∨ (x ≠ Panics ∧ settled (r_svc r') ∧ ∀ a, x = Returned a → gen ∉ sv_cancelled (r_svc r')).
Proof.
  intros He Hr. unfold run_query. pose proof (keeps_query_body execute He r Hr) as H1.
  destruct ((count_up started ;; _) r) as [r1 x1]. cbn [fst] in H1. apply released_good in H1.
  set (released := with_svc _ r1) in *. clearbody released.
  assert (∀ r, good (λ s, R s ∧ bare gen s) r → let '(r', x) := (drop_guard key gen : T A) r in
    x = Stuck ∨ (x ≠ Panics ∧ settled (r_svc r') ∧ ∀ a, x = Returned a → gen ∉ sv_cancelled (r_svc r'))) as Hdrop.
  { intros r0 Hr0. pose proof (drop_guard_settled (A := A) r0 Hr0) as Hd. destruct (drop_guard key gen r0) as [r' x].
    destruct Hd as [Hd ->]. right. by split. }
  assert (∀ x : ending A, x ≠ Panics →
    let '(r', y) := (let '(r, p) := pause released in
      match p with
      | Returned _ =>
          let is_cancelled := bool_decide (sv_active (r_svc r) !! key = Some gen) && bool_decide (gen ∈ sv_cancelled (r_svc r)) in
          let r := with_svc (forget key gen (r_svc r)) r in
          (r, if is_cancelled then Failed client_query_cancelled else x)
      | _ => drop_guard key gen r
      end) in
    y = Stuck ∨ (y ≠ Panics ∧ settled (r_svc r') ∧ ∀ a, y = Returned a → gen ∉ sv_cancelled (r_svc r'))) as Hend.
  { intros x Hx. pose proof (keeps_pause _ _ _ H1) as H2. destruct (pause released) as [r2 p]. cbn [fst] in H2.
    destruct p; try (by apply Hdrop). pose proof H2 as ([HR Hb] & _ & _).
    assert (settled (forget key gen (r_svc r2))) as Hset by (by apply forget_settled).
    destruct HR as [_ Hk]. rewrite (bool_decide_eq_true_2 (sv_active (r_svc r2) !! key = Some gen)) by done. cbn [andb].
    case_bool_decide as Hc; right; (split; [done|]); (split; [exact Hset|]); [done|].
    intros ? _. unfold forget. case_bool_decide; exact Hc. }
  destruct x1 as [a|e| | |]; [by apply (Hend (Returned a))|by apply (Hend (Failed e))| |by apply Hdrop|by left].
  by apply (Hend (Failed (CorruptValue "client/query/executor" "query executor panicked"))).
Qed.

(** Others, while the query is under way: they keep the service in order, its entry
    its own, and do not take permits in its name. *)
Definition others_ok (p : Pace Cl) : Prop := (∀ s, R s → R (p_others p s)) ∧ spares p.

Lemma timed_settled {A} (execute : T A) limit r :
  keeps R execute → R (r_svc r) → Forall others_ok (r_script r) →
  let '(r', x) := run_query_with_timeout config key gen limit execute r in
  x = Stuck ∨ (x ≠ Panics ∧ settled (r_svc r') ∧ ∀ a, x = Returned a → gen ∉ sv_cancelled (r_svc r')).
Proof.
  intros He Hr Hs. unfold run_query_with_timeout.
  assert (good R (MkRun (r_svc r) (r_script r) (r_ticks r) (Some gen) false)) as Hg
    by (split; [done|]; split; [exact Hs|]; intros t s _; apply cancel_under_way).
  pose proof (run_query_settled execute _ He Hg) as Hq.
  destruct (run_query _ _ _ _ _) as [r' x]. destruct Hq as [->|(H1 & H2 & H3)].
  - by left.
  - destruct x; [destruct (r_timed_out r')|destruct (r_timed_out r')|by destruct H1| |]; right;
      (split; [done|]); (split; [exact H2|]); [done|exact H3|done|done|done|done].
Qed.
End own.

(** C26: a query that has begun leaves nothing behind, however it ends: whether it
    returns, fails, panics in the executor, is cancelled by its owner, overruns its
    time or is dropped half-way, at any of its waits and whatever others do
    meanwhile, its permits are all given back, the entry of active queries is no
    longer its own (so that the query id can be used again), no semaphore is
    overdrawn, and failures by class still add up to the failures; it never panics
    itself, and it returns a page or rows only if nobody has cancelled it. *)
Theorem query_settles key gen limit session r0 r1 :
  good_with (λ _, True) (λ s, svc_ok s ∧ sv_next_generation s < u64_max) r0 → begin_query key r0 = (r1, Returned gen) →
  Forall (others_ok key gen) (r_script r1) →
  (∀ prepared cursor n,
     let '(r2, x) := run_query_with_timeout config key gen limit
                       (page_body sha256 enc sz clock config session prepared cursor n gen) r1 in
     x = Stuck ∨ (x ≠ Panics ∧ settled key gen (r_svc r2) ∧ ∀ page, x = Returned page → gen ∉ sv_cancelled (r_svc r2))) ∧
  (∀ request action plan,
     let '(r2, x) := run_query_with_timeout config key gen limit
                       (rows_body sha256 enc config session request action plan gen) r1 in
     x = Stuck ∨ (x ≠ Panics ∧ settled key gen (r_svc r2) ∧ ∀ rows, x = Returned rows → gen ∉ sv_cancelled (r_svc r2))).
Proof.
  intros Hg Hb Ho. apply begin_query_ok in Hb as [Hr _]; [|done]. split.
  - intros prepared cursor n. apply timed_settled; [apply keeps_page_body|done|done].
  - intros request action plan. apply timed_settled; [apply keeps_rows_body|done|done].
Qed.
End life.
