(* ===== verification/BoltService.v ===== *)
(** The client query service ([ClientService]) as the service of a Bolt connection
    ([BoltSession]): it gives what the connection relies on.  And the theorems about
    the service applied to a small cell client. *)

From S2P Require Import Prelude Text Errors Model Namespace Lease Histogram QueryData Client CursorFacts ClientNames BoltWire BoltValues BoltRequest BoltRouting BoltSession BoltSessionFacts QueryAccess QueryBatch ClientService ClientServiceFacts.

Local Open Scope N_scope.

Import histogram client values request session access batch service.

Section service.
Context {Cl : Type} `{QueryCellClient Cl}.
Context (sha256 enc : string → string) (sz : Sizes) (clock : nat → N).
Context (config : ClientQueryServiceConfig) (parsers : Parsers).
(** The TLS identity of the peer, and what happens while the service works on a
    request of the connection. *)
Context (identity : QueryTransportConnectionIdentity) (script : list (Pace Cl)).

(** A request on its own; one that never ends, or is dropped, answers nothing, and
    the connection's script then has no event for it. *)
Definition request_of {A} (m : Task Cl A) (s : Service Cl) : Service Cl * Result A :=
  let '(r, x) := m (MkRun s script 0 None false) in
  (r_svc r, match x with
            | Returned a => Ok a
            | Failed e => Err e
            | Panics | Dropped | Stuck => Err client_query_cancelled
            end).

#[local] Instance client_query_service : QueryService (Service Cl) Plan := {
  svc_authenticate credentials := request_of (authenticate sha256 config credentials identity);
  svc_runtime_limit := max_query_runtime_ms config;
  svc_prepare a request n := request_of (prepare_page_request config parsers a request n);
  svc_execute a prepared cursor n := request_of (execute_prepared_page sha256 enc sz clock config a prepared cursor n);
  svc_release a request token s := (request_of (release_cursor clock a request token) s).1;
  svc_cancel a scope query_id s := (request_of (cancel config a scope query_id) s).1;
  svc_authorize_route a scope := request_of (authorize_any_action config a scope [Read; Write] "route to");
  svc_ensure_bookmark bookmark := request_of (ensure_bookmark bookmark) }.

(** What the service relies on of the cell client: a page of a mutation is no longer
    than it asked for. *)
Class CellClientLaws : Prop := {
  rows_page_length context query cursor n c c' page :
    cl_execute_cypher_rows_page context query cursor n c = (c', Some (Ok page)) → N.of_nat (length (pg_rows page)) ≤ n;
  batch_page_length context operation cursor n c c' page :
    cl_execute_batch_page context operation cursor n c = (c', Some (Ok page)) → N.of_nat (length (pg_rows page)) ≤ n }.
Context `{!CellClientLaws}.

Definition short (n : N) (page : ClientQueryPage) : Prop := N.of_nat (length (pg_rows (cp_page page))) ≤ n.

Lemma take_rows_short rows n : N.of_nat (length (take_cursor_rows rows n).1) ≤ n.
Proof. rewrite take_cursor_rows_spec. cbn. rewrite length_take. lia. Qed.

Lemma start_short limits a request result epoch bookmark n t t' s page :
  (start_server_cursor sz limits a request result epoch bookmark n t t' s).2 = Ok page → short n page.
Proof.
  unfold start_server_cursor, short. pose proof (take_rows_short (rs_rows result) n) as Hn.
  destruct (take_cursor_rows (rs_rows result) n) as [rows rest]. cbn [fst] in Hn.
  destruct (_ <? _); [done|]. destruct rest; [by intros [= <-]|]. destruct (_ <=? _); [done|].
  destruct (next_cursor_id _ _) as [? [|]]; [by intros [= <-]|done].
Qed.
Lemma continue_short limits a request token n t t' s page :
  (continue_server_cursor sz limits a request token n t t' s).2 = Ok page → short n page.
Proof.
  unfold continue_server_cursor, short. destruct (_ !! _) as [cursor|]; [|done]. destruct (negb _); [done|].
  pose proof (take_rows_short (cu_rows cursor) n) as Hn. destruct (take_cursor_rows (cu_rows cursor) n) as [rows rest].
  destruct rest; by intros [= <-].
Qed.

Lemma returns_cursor_call (f : N → N → Cursors → Cursors * Result ClientQueryPage) (P : ClientQueryPage → Prop) :
  (∀ t t' s page, (f t t' s).2 = Ok page → P page) → returns (cursor_call clock f : Task Cl _) P.
Proof.
  intros Hf. unfold cursor_call. apply returns_bind. intros _. apply returns_bind. intros t. apply returns_bind. intros t'.
  intros r. unfold mbind, task_bind, calls. specialize (Hf t t' (sv_cursors (r_svc r))).
  destruct (f t t' (sv_cursors (r_svc r))) as [c [page|e]]; cbn; auto.
Qed.
Lemma returns_client_call {A} (f : Cl → Cl * option (Result A)) (P : A → Prop) :
  (∀ c c' a, f c = (c', Some (Ok a)) → P a) → returns (client_call f) P.
Proof.
  intros Hf. unfold client_call. apply returns_bind. intros _ r. unfold on_client.
  destruct (f (sv_client (r_svc r))) as [c' [[a|e]|]] eqn:E; cbn; eauto.
Qed.

Lemma page_body_short a prepared cursor n gen :
  returns (page_body sha256 enc sz clock config a prepared cursor n gen) (short n).
Proof.
  unfold page_body. destruct (pq_plan prepared) as [scalars operation]. destruct cursor as [cursor|].
  - apply returns_cursor_call. intros t t' s page. apply continue_short.
  - destruct (bool_decide _).
    + do 5 (apply returns_bind; intros ?). apply returns_cursor_call. intros t t' s page. apply start_short.
    + eapply (returns_bind_of _ _ (λ page, N.of_nat (length (pg_rows page)) ≤ n)).
      * destruct operation; apply returns_client_call; intros c c' page; [apply batch_page_length|apply rows_page_length].
      * intros page Hp. apply returns_bind. intros bookmark. by apply returns_ret.
Qed.

Lemma run_query_returns {A} key gen limit (m : Task Cl A) P :
  returns m P → returns (run_query_with_timeout config key gen limit m) P.
Proof.
  intros Hm.
  assert (returns (run_query config key gen m) P) as Hq.
  { intros r. unfold run_query.
    assert (returns (count_up started ;; acquire_namespace_permits config gen (gs_namespace (ck_scope key)) ;;
              acquire_query_permit config gen ;; m) P) as Hbody by (repeat (apply returns_bind; intros); exact Hm).
    specialize (Hbody r). destruct ((count_up started ;; _) r) as [r1 x]. cbn [snd] in Hbody.
    destruct x; cbn; try done; destruct (pause _) as [r2 []]; cbn; try done; by destruct (_ && _). }
  intros r. unfold run_query_with_timeout. specialize (Hq (MkRun (r_svc r) (r_script r) (r_ticks r) (Some gen) false)).
  destruct (run_query _ _ _ _ _) as [r' x]. destruct x; cbn in *; try done; by destruct (r_timed_out r').
Qed.

Lemma recorded_returns {A} rows (m : Task Cl A) P : returns m P → returns (recorded rows m) P.
Proof. intros Hm r. specialize (Hm r). unfold recorded. by destruct (m r) as [r' []]. Qed.
Lemma timed_returns {A} action t (m : Task Cl A) P : returns m P → returns (timed clock action t m) P.
Proof. intros Hm r. specialize (Hm r). unfold timed. by destruct (m r) as [r' []]. Qed.

Lemma execute_short a prepared cursor n :
  returns (execute_prepared_page sha256 enc sz clock config a prepared cursor n) (short n).
Proof.
  unfold execute_prepared_page. apply returns_bind. intros t. apply returns_bind. intros _.
  destruct (_ && _); [by apply returns_lift|]. destruct (rq_max_runtime_ms _); [|apply returns_panics].
  apply returns_bind. intros gen. apply timed_returns, recorded_returns, run_query_returns, page_body_short.
Qed.

Lemma prepare_limited a request n :
  returns (prepare_page_request config parsers a request n : Task Cl _)
    (λ p, rq_max_runtime_ms (pq_request p) ≠ None).
Proof.
  unfold prepare_page_request. apply returns_bind. intros _. apply returns_bind. intros _.
  eapply (returns_bind_of _ _ (λ p, rq_max_runtime_ms p.1 ≠ None)).
  - apply returns_lift. intros [request' limit] Hl. apply normalized_target in Hl as (_ & _ & Hl). cbn. by rewrite Hl.
  - intros [request' limit] Hl. cbn in Hl. apply returns_bind. intros action. apply returns_bind. intros _.
    apply returns_bind. intros [scalars operation]. apply returns_bind. intros columns. apply returns_bind. intros _.
    by apply returns_ret.
Qed.

(** C34: the client query service is what a Bolt connection relies on, whatever
    happens while it works: a query it has prepared carries a runtime limit (so the
    connection's RUN does not panic), and no page, of a read's cursor or of a
    mutation, is longer than the PULL asked for. *)
Theorem client_service_laws : QueryServiceLaws (Svc := Service Cl) (Plan := Plan).
Proof.
  split.
  - intros a request n s s' p. cbn. unfold request_of. pose proof (prepare_limited a request n (MkRun s script 0 None false)) as Hp.
    destruct (prepare_page_request _ _ _ _ _ _) as [r x]. destruct x; intros [= <- E]; try discriminate. cbn in Hp. congruence.
  - intros a p cursor n s s' page. cbn. unfold request_of.
    pose proof (execute_short a p cursor n (MkRun s script 0 None false)) as Hp.
    destruct (execute_prepared_page _ _ _ _ _ _ _ _ _ _) as [r x]. destruct x; intros [= <- E]; try discriminate. cbn in Hp. by subst.
Qed.
End service.

(** * A small cell

    It counts its calls; every query finds one row. *)

Module small_cell.
#[global] Instance cell : QueryCellClient N := {
  cl_execute_cypher_rows _ _ calls := (calls + 1, Some (Ok (MkResultSet [] [MkRow []] (Some 1) (Some 1))));
  cl_execute_batch _ _ calls := (calls + 1, Some (Ok (MkResultSet [] [] (Some 1) (Some 1))));
  cl_execute_cypher_rows_page _ _ _ _ calls := (calls + 1, Some (Ok (MkPage [] [] None)));
  cl_execute_batch_page _ _ _ _ calls := (calls + 1, Some (Ok (MkPage [] [] None)));
  cl_wait_for_storage_sequence _ _ n calls := (calls + 1, Some (Ok (Some n)));
  cl_refresh_storage_sequence _ _ calls := (calls + 1, Some (Ok (Some 1)));
  cl_current_storage_sequence _ _ calls := (calls + 1, Some (Ok (Some 1))) }.
#[global] Instance laws : CellClientLaws.
Proof. split; intros until page; intros [= _ <-]; cbn; lia. Qed.

Definition sha256 (s : string) : string := s.
Definition sizes : Sizes := MkSizes 24 32 48 64 32.
Definition clock (n : nat) : N := N.of_nat n.
Definition parsers : Parsers :=
  MkParsers (λ q, Ok (if bool_decide (q = "CREATE (n)") then AccessWrite else AccessRead)) (λ _, Ok None) (λ _, Ok None)
    (λ _ _, Ok []) (λ _ _, Ok true).
(** Alice may read. *)
Definition config : ClientQueryServiceConfig :=
  MkServiceConfig (BearerToken (QueryTransportSecret_new "key"))
    (λ p _ action, bool_decide (p = "alice") && bool_decide (action = Read)) ∅ 1 1000 10 100 1000 (MkLimits 4 4096 60000).
Definition alice : ClientQuerySession := MkSession "alice".
Definition target : ClientQueryTarget := MkTarget GraphScope_default "cell".
Definition request (query : string) : ClientQueryRequest := ClientQueryRequest_new target "q1" query.
Definition idle : Service N := MkService 0 metrics_default [] ∅ ∅ 1 no_cursors.
Definition start (script : list (Pace N)) : Run N := MkRun idle script 0 None false.
Definition key : ClientQueryKey := client_query_key alice (request "MATCH (n) RETURN n").
(** The timer fires while the query waits. *)
Definition overrun : list (Pace N) := [MkPace id false false false; MkPace id true false false].

(** A read costs one call; the same with the timer running out fails. *)
Example reads_once :
  let '(r, x) := execute_rows sha256 id config parsers alice (request "MATCH (n) RETURN n") (start []) in
  (sv_client (r_svc r), match x with Returned y => length (rs_rows (cr_result y)) | _ => 0%nat end) = (1, 1%nat).
Proof. vm_compute. reflexivity. Qed.
Example overruns :
  let '(r, x) := execute_rows sha256 id config parsers alice (request "MATCH (n) RETURN n") (start overrun) in
  (match x with Failed e => Some e | _ => None end, sv_permits (r_svc r)) = (Some (client_query_runtime_exceeded 1000), []).
Proof. vm_compute. reflexivity. Qed.

Lemma quiet (P : Pace N → Prop) : (∀ t d c, P (MkPace id t d c)) → Forall P overrun.
Proof. intros HP. by repeat (apply Forall_cons; split; [apply HP|]). Qed.
Lemma metrics_default_ok : metrics_ok metrics_default.
Proof. by vm_compute. Qed.
Lemma idle_ok : svc_ok config idle.
Proof.
  split.
  - intros gate. unfold permits_out. cbn. lia.
  - intros p Hp. by apply elem_of_nil in Hp.
  - intros k g Hk. unfold idle in Hk; cbn [sv_active] in Hk. by apply lookup_empty_Some in Hk.
  - intros k k' g Hk. unfold idle in Hk; cbn [sv_active] in Hk. by apply lookup_empty_Some in Hk.
  - by vm_compute.
  - apply metrics_default_ok.
Qed.
End small_cell.

(** * Applications *)

Lemma client_service_laws_witness :
  CellClientLaws (Cl := N) ∧
  ∀ a prepared cursor s s' page,
    @svc_execute _ _ (client_query_service small_cell.sha256 id small_cell.sizes small_cell.clock small_cell.config
      small_cell.parsers (MkIdentity ∅ None) small_cell.overrun) a prepared cursor 5 s = (s', Ok page) →
    N.of_nat (length (pg_rows (cp_page page))) ≤ 5.
Proof.
  split; [exact small_cell.laws|]. intros a prepared cursor s s' page.
  apply (@page_length _ _ _ (client_service_laws small_cell.sha256 id small_cell.sizes small_cell.clock small_cell.config
    small_cell.parsers (MkIdentity ∅ None) small_cell.overrun)).
Defined.

(** Alice's write does not reach the cell. *)
Lemma denied_touches_nothing_witness :
  good_with (λ _, True) (λ s, sv_client s = 0) (small_cell.start small_cell.overrun) ∧
  sv_client (r_svc (execute_rows small_cell.sha256 id small_cell.config small_cell.parsers small_cell.alice
    (small_cell.request "CREATE (n)") (small_cell.start small_cell.overrun)).1) = 0.
Proof.
  assert (good_with (λ _, True) (λ s, sv_client s = 0) (small_cell.start small_cell.overrun)) as Hg.
  { split; [done|]. split; [by apply small_cell.quiet|done]. }
  split; [exact Hg|].
  pose proof (denied_touches_nothing small_cell.sha256 id small_cell.sizes small_cell.clock small_cell.config
    small_cell.parsers (λ s, sv_client s = 0) (λ f s Hs, Hs) small_cell.alice _ Hg) as (_ & Hrows & _).
  specialize (Hrows (small_cell.request "CREATE (n)")).
  destruct (execute_rows _ _ _ _ _ _ _) as [r x]. apply Hrows.
  intros a [= <-]. by split.
Defined.

Lemma query_settles_witness :
  good_with (λ _, True) (λ s, svc_ok small_cell.config s ∧ sv_next_generation s < u64_max) (small_cell.start small_cell.overrun) ∧
  let r1 := (begin_query small_cell.key (small_cell.start small_cell.overrun)).1 in
  let '(r2, x) := run_query_with_timeout small_cell.config small_cell.key 1 1000
    (rows_body small_cell.sha256 id small_cell.config small_cell.alice (small_cell.request "MATCH (n) RETURN n") Read (∅, None) 1) r1 in
  x = Stuck ∨ (x ≠ Panics ∧ settled small_cell.config small_cell.key 1 (r_svc r2) ∧
               ∀ rows, x = Returned rows → 1 ∉ sv_cancelled (r_svc r2)).
Proof.
  assert (good_with (λ _, True) (λ s, svc_ok small_cell.config s ∧ sv_next_generation s < u64_max)
    (small_cell.start small_cell.overrun)) as Hg.
  { split; [split; [apply small_cell.idle_ok|by vm_compute]|]. split; [by apply small_cell.quiet|done]. }
  split; [exact Hg|]. cbn zeta.
  destruct (query_settles small_cell.sha256 id small_cell.sizes small_cell.clock small_cell.config small_cell.key 1 1000
    small_cell.alice _ (begin_query small_cell.key (small_cell.start small_cell.overrun)).1 Hg) as [_ Hrows].
  - vm_compute. reflexivity.
  - exact (Forall_drop _ 1 _ (small_cell.quiet (others_ok small_cell.config small_cell.key 1) (λ t d c, conj (λ s Hs, Hs) (λ s _ Hb, Hb)))).
  - apply Hrows.
Defined.
